(* ===== verification/_CoqProject ===== *)
-Q . S2P
Prelude.v
GoText.v
Ranges.v
GoIO.v
ObjectIO.v
SourceObject.v
HttpSource.v
Sequential.v
BufferPool.v
ReadWriter.v
Interleave.v
StreamBuf.v
Parallel.v
ParallelOrder.v
Options.v
Item.v
Scheduler.v
ItemScheduler.v
Pipeline.v
Cache.v
CacheOpen.v
CacheLoad.v
CacheLocks.v
Proxy.v
ProxyCache.v
Caddy.v
CaddyFile.v
