(* ===== verification/Prelude.v ===== *)
(** * varc: a verification library for the sparse read cache

    varc (package paths below are under [src/]) is a read-only cache for large
    objects that are served by byte ranges.  A request reaches [proxy/handler.go],
    from the Caddy module ([caddy/module.go]) or a server of its own, is mapped to
    an object of a [source.Source] ([source/http]) and opened through [cache.Cache]; the item of its key ([cache/item.go]) is one sparse file with
    the set of its present ranges ([ranges]); what is missing is fetched by the
    downloaders of the item ([internal/engine/scheduler]), which read the origin
    through chunk readers, retrying readers and read-ahead buffers
    ([internal/engine/chunkstream], [objectio], [streambuf], [bufferpool]).

    ** The files

    Foundations.
    - [Prelude]: 64-bit integers with their wrap-around ([i64]), slices and
      [copy], the error values, the [run] result (a value, a panic, or out of
      fuel), tactics and hints.
    - [GoText]: the functions of [strings] and [strconv] in use, on ASCII text.
    - [GoIO]: [io.Reader] and [io.Closer] as type classes, [readutil.ReadFill],
      and a scripted stream for the examples.
    - [Interleave]: code under a mutex as [locked] computations whose [Step]s are
      the places where the mutex is free; parallel composition, invariants over
      all interleavings ([par_invariant]), and a rely-guarantee logic ([par_rely]).

    From the origin to the item.
    - [ObjectIO] ([objectio/object.go], [retry_reader.go]): [Span], [Config], the
      contract [ObjectOK] of an object, [RetryReader].
    - [SourceObject] ([source/source.go], [cache/source_object.go]): the contract
      [SourceObjectOK] of an origin object, and the adapter to [ObjectOK].
    - [HttpSource] ([source/http/source.go], [source/request.go]): the HTTP origin;
      [http_origin_OK] discharges [SourceObjectOK].
    - [Sequential] ([chunkstream/sequential.go]).
    - [BufferPool], [ReadWriter] ([bufferpool/pool.go], [reader_writer.go]).
    - [StreamBuf] ([streambuf/reader.go]).
    - [Parallel] ([chunkstream/parallel.go], [reader.go]): the reader with several
      streams; [ParallelOrder] proves what it delivers.
    - [Ranges] ([ranges/ranges.go]).

    The cache.
    - [Options] ([cache/options.go]).
    - [Item] ([cache/item.go]): [openLocked], [release], [ensureLocked],
      [readAt], [WriteAtNoOverwrite], resets, and the two files of the item; one
      Definition per method, under the method's name.
    - [Scheduler] ([scheduler/scheduler.go]): [Downloaders] against the class
      [CacheItem]; [ItemScheduler] shows that [Item] is one, and that the
      scheduler keeps the promises that [Item] is proved against: it only fetches
      ([SchedulerOK]), and until it is closed a download that succeeds has made its
      range present ([SchedulerDelivers]).
    - [Pipeline]: the origin (an HTTP server among others), the adapter, the
      sequential chunk reader, the scheduler and the item put together.
    - [Cache], [CacheOpen], [CacheLoad], [CacheLocks] ([cache/cache.go]): the
      cleaner; [Open] and [Close]; [New] and the files of an earlier process; the
      locks of the kick protocol.
    - [Proxy] ([proxy/handler.go]) against the class [CacheAPI]; [ProxyCache]
      gives it the cache of [CacheOpen].
    - [Caddy] ([caddy/module.go]): the configuration, sizes with units, the
      Caddyfile, provisioning and serving, against the classes [Dispenser],
      [CaddyEnv] and [CacheMaker]; [CaddyFile] proves what a Caddyfile configures.

    State that the code keeps in a struct is a Record with the struct's name (or
    the state of the component with what it points to); a method is a Definition
    with the method's name, prefixed where two types share it ([Range_Clip],
    [Pool_Get]), that takes the state and returns it; an error is [option error]
    or the left of a sum, as the Go code returns it.

    ** The theorems

    - Bytes.  [Item]: while the objects opened under a key are one version, whatever
      the interleaving of opens, reads, writes, resets and releases, the bytes of
      the ranges an item trusts are the bytes of that version; a read returns
      exactly the bytes of the object, or the error of a download.  [CacheOpen]: so
      does a reader of [Cache.Open], over an item that is new, left by another
      process, or of another version that nobody has open.  [HttpSource], [SourceObject],
      [ObjectIO], [Sequential], [StreamBuf], [ParallelOrder], [Proxy]: the layers
      between hand on exactly the bytes asked for, whatever fails in between.
      [Pipeline]: over the whole path of a download, in every interleaving, what
      is read from the file after a successful request is what the origin has,
      until the scheduler is closed.
    - Coordination.  [Scheduler]: a request that is answered is complete, a kick
      serves every waiter, a missing range is fetched and answered;
      [ItemScheduler]: downloaders only write bytes of their object.  [StreamBuf]:
      in every interleaving no send blocks and all buffers come back.
      [BufferPool]: the accounts of the pool balance, and it drains when idle.
    - Sets of ranges, paged buffers, paths, headers.  [Ranges] refines sets of
      offsets; [ReadWriter] refines a byte string with a position; [CacheLoad]:
      the paths of a key and the reload of what a load has left; [HttpSource]:
      [Content-Range] is read back as written; [Proxy]: keys are clean paths.
      [Caddy], [CaddyFile]: sizes are read as written and never overflow, a
      configuration is read back from its directive, the cache accepts what the
      module accepts.
    - Housekeeping.  [Cache]: the quota is enforced, the oldest go first, and no
      item loses its bytes without need.
    - Defects, as theorems about concrete runs: two versions of an object mixed
      in one file, zeros served after a removal that failed, and a key lost at
      close ([Item]), success reported to a waiter
      that is not served and an error that sticks ([ItemScheduler]), the cleaner
      and [KickCleaner] waiting for each other ([CacheLocks]), an item orphaned
      by the kick that its own opening makes ([CacheOpen]), an error at the end
      of an object on a chunk boundary ([Sequential]), a read that never returns
      after a stream has failed ([ParallelOrder]), and requests for different
      hosts in one item ([Caddy]).

    ** Fuel and bounds

    Loops that are not structural take fuel and return [OutOfFuel] (or [None])
    without it.  That fuel suffices is proved: [ReadFill] takes one round per
    byte and one more ([ReadFill_total]); [RetryReader.Read] the retries left and
    the bytes asked for; the chunk reader likewise; [GetN] one round per failure
    of the allocator; [read_upto] in [Proxy] one round per byte and one more; the
    Caddyfile one round per line and two more ([caddyfile_roundtrip]).  The
    loops of goroutines ([fill_buffers], [WriteTo], [drain_ready]) take a number
    of rounds, for which the statements are quantified, and go on to wait for
    ever when they are over; so do the loops of [Parallel], where the size of a
    page is a parameter.  [copy_blocks] in [Pipeline] stops when its rounds are
    over, as an input that is closed early does.  Sizes are assumed to stay below [MaxInt64] (or the
    smaller bound that a theorem names) where the code adds to them.

    ** What is not modelled, and why

    - Time: a timer is a flag that some step may fire, [time.Now] a clock that
      only steps of the model move.  Contexts: a cancelled context is a flag of
      the scheduler, the request headers one carries are in [HttpSource]; the rest
      is plumbing.
    - The two files of an item are the contents they have; paths matter in
      [CacheLoad] only.  System calls fail by a list of faults; inodes,
      directories left empty and the order of a directory walk are left out, JSON
      is an encoding that either decodes or is corrupt.
    - Sections under [dls.mu], the locks of a downloader and [RetryReader]'s and
      [RW]'s mutexes are atomic; [Cache] and [CacheOpen] run the operations of the
      cache one after the other (the locks are in [CacheLocks], the items
      interleave in [Item]).  Data races outside of a lock are noted as findings.
    - The theorems on reading ([item_Read_exact] and those on [CacheOpen] and
      [ProxyCache]) are about readers that nobody closes meanwhile, and a working
      system: they need [SchedulerDelivers], which [Close] ends
      ([scheduler_Close_reports_success]).  The soundness of an item needs only
      [SchedulerOK], any system call but [os.Remove] may fail
      ([item_failed_removal_serves_zeros]), and all objects opened under a key
      are of one content ([item_version_race_mixes_bytes]).
    - The theorem on the quota is about a cleaner whose system calls work, with no
      minimum of free space.
    - [sha256], [sort.Slice], the order of [range] over a map, URL parsing, HTTP
      dates, [http.Client] and the decisions of [http.ServeContent] are
      parameters, with their documented behaviour as laws where one is used.
    - [internal/engine/diskspace], [sparsefile] and [mapbuffer] are system calls
      on each platform.  Of the Caddy module, its registration ([init],
      [CaddyModule]) and the decoding of its JSON, which Caddy does.
    - [Pipeline] has the sequential chunk reader; the parallel reader and the
      stream buffer, which interleave inside one read of the input, have their
      theorems on their own. *)
From stdpp Require Import base numbers list gmap strings sorting.
From Stdlib Require Import ZArith Lia Init.Byte.

Local Open Scope Z_scope.

(** ** Machine integers

    Go's [int64] (and [int] on the 64-bit platforms the program targets) wraps
    around silently.  Every addition, subtraction, multiplication and shift of
    the source is written with [i64], and the theorems say under which bounds
    the wrap-around does not show. *)

Definition MinInt64 : Z := -9223372036854775808.
Definition MaxInt64 : Z := 9223372036854775807.

Definition i64 (z : Z) : Z := (z + 9223372036854775808) mod 18446744073709551616 - 9223372036854775808.

Declare Scope go_scope.
Delimit Scope go_scope with go.
Notation "x +! y" := (i64 (x + y)) (at level 50, left associativity) : go_scope.
Notation "x -! y" := (i64 (x - y)) (at level 50, left associativity) : go_scope.
Notation "x *! y" := (i64 (x * y)) (at level 40, left associativity) : go_scope.

Definition in64 (z : Z) : Prop := MinInt64 <= z <= MaxInt64.

Lemma i64_id z : in64 z -> i64 z = z.
Proof.
  unfold in64, MinInt64, MaxInt64, i64. intros Hz.
  rewrite Z.mod_small by lia. lia.
Qed.

Lemma i64_range z : in64 (i64 z).
Proof.
  unfold in64, MinInt64, MaxInt64, i64.
  pose proof (Z.mod_pos_bound (z + 9223372036854775808) 18446744073709551616 eq_refl). lia.
Qed.

Lemma i64_congr z : exists k, i64 z = z + k * 18446744073709551616.
Proof.
  unfold i64. exists (- ((z + 9223372036854775808) / 18446744073709551616)).
  pose proof (Z.div_mod (z + 9223372036854775808) 18446744073709551616 ltac:(lia)). lia.
Qed.

(** [i64_norm] removes a wrap-around whose operand [lia] proves to be in range. *)
Ltac i64_side := unfold in64, MinInt64, MaxInt64 in *; lia.
Ltac i64_norm :=
  repeat match goal with
  | |- context [i64 ?x] => rewrite (i64_id x) by i64_side
  | H : context [i64 ?x] |- _ => rewrite (i64_id x) in H by i64_side
  end.

(** Case analysis on the boolean comparisons of the source. *)
Ltac zcase :=
  match goal with
  | |- context [Z.leb ?a ?b] => destruct (Z.leb_spec a b)
  | |- context [Z.ltb ?a ?b] => destruct (Z.ltb_spec a b)
  | |- context [Z.eqb ?a ?b] => destruct (Z.eqb_spec a b)
  | H : context [Z.leb ?a ?b] |- _ => destruct (Z.leb_spec a b)
  | H : context [Z.ltb ?a ?b] |- _ => destruct (Z.ltb_spec a b)
  | H : context [Z.eqb ?a ?b] |- _ => destruct (Z.eqb_spec a b)
  end.
Ltac zcases := repeat zcase.

(** The lemmas that [auto with varc] may use; each component adds its own. *)
Create HintDb varc.

(** ** Go slices *)

(** [copy(dst[off:], src)]: as many elements of [src] as fit replace those of
    [dst] from [off] on; the length of [dst] does not change. *)
Definition copy_at {A} (off : nat) (src dst : list A) : list A :=
  take off dst ++ take (length dst - off) src ++ drop (off + length src) dst.

Lemma length_copy_at {A} off (src dst : list A) :
  (off <= length dst)%nat -> length (copy_at off src dst) = length dst.
Proof.
  intros Hoff. unfold copy_at.
  rewrite !length_app, !length_take, length_drop. lia.
Qed.

(** [l[lo:hi]] for offsets as the source computes them. *)
Definition slice {A} (lo hi : Z) (l : list A) : list A :=
  take (Z.to_nat (hi - lo)) (drop (Z.to_nat lo) l).

Lemma length_slice {A} lo hi (l : list A) :
  0 <= lo <= hi -> hi <= Z.of_nat (length l) -> Z.of_nat (length (slice lo hi l)) = hi - lo.
Proof. intros. unfold slice. rewrite length_take, length_drop. lia. Qed.

(** A slice that starts with [d] goes on right after [d]. *)
Lemma slice_app_inv {A} lo hi (l d k : list A) :
  0 <= lo -> slice lo hi l = d ++ k ->
  k = slice (lo + Z.of_nat (length d)) hi l /\ d = slice lo (lo + Z.of_nat (length d)) l.
Proof.
  intros Hlo Heq.
  assert (Hlen : length (d ++ k) = length (slice lo hi l)) by (by rewrite Heq).
  unfold slice in *. rewrite length_app, length_take, length_drop in Hlen. split.
  - transitivity (drop (length d) (d ++ k)); [by rewrite drop_app_length|].
    rewrite <- Heq, skipn_firstn_comm, drop_drop. f_equal; [lia|f_equal; lia].
  - transitivity (take (length d) (d ++ k)); [by rewrite take_app_length|].
    rewrite <- Heq, take_take. f_equal; lia.
Qed.

Lemma drop_slice {A} (n : nat) lo hi (l : list A) :
  0 <= lo -> drop n (slice lo hi l) = slice (lo + Z.of_nat n) hi l.
Proof.
  intros. unfold slice. rewrite skipn_firstn_comm, drop_drop. f_equal; [lia|f_equal; lia].
Qed.

Lemma slice_slice {A} a b lo hi (l : list A) : 0 <= lo -> 0 <= a -> lo + b <= hi -> slice a b (slice lo hi l) = slice (lo + a) (lo + b) l.
Proof. intros. unfold slice. rewrite skipn_firstn_comm, drop_drop, take_take. f_equal; [lia|f_equal; lia]. Qed.

Lemma slice_nil {A} lo hi (l : list A) : hi <= lo -> slice lo hi l = [].
Proof. intros. unfold slice. by replace (Z.to_nat (hi - lo)) with 0%nat by lia. Qed.

Lemma slice_to_end {A} lo hi (l : list A) :
  Z.of_nat (length l) <= hi -> 0 <= lo -> slice lo hi l = drop (Z.to_nat lo) l.
Proof. intros. unfold slice. apply take_ge. rewrite length_drop. lia. Qed.

Lemma slice_app {A} lo mid hi (l : list A) :
  0 <= lo <= mid -> mid <= hi -> slice lo mid l ++ slice mid hi l = slice lo hi l.
Proof.
  intros. unfold slice.
  replace (Z.to_nat mid) with (Z.to_nat lo + Z.to_nat (mid - lo))%nat by lia.
  rewrite <- drop_drop, take_take_drop. f_equal. lia.
Qed.

Lemma slice_clip {A} lo hi (l : list A) :
  0 <= lo -> slice lo hi l = slice lo (Z.min hi (Z.of_nat (length l))) l.
Proof.
  intros. unfold slice. destruct (decide (hi <= Z.of_nat (length l))).
  - by rewrite Z.min_l.
  - rewrite Z.min_r by lia. rewrite !take_ge; [done| |]; rewrite length_drop; lia.
Qed.

Lemma take_length_take {A} k (l : list A) : take (length (take k l)) l = take k l.
Proof.
  rewrite length_take. destruct (decide (k <= length l)%nat); [by rewrite Nat.min_l by lia|].
  rewrite Nat.min_r, !take_ge by lia. done.
Qed.

(** ** Computations

    The result of running a piece of the program: a value, a run-time panic (an
    index or a nil pointer the code does not check), or a loop that has not
    ended within the fuel the model gave it. *)
Inductive run (A : Type) := Ret (a : A) | Panic | OutOfFuel.
Arguments Ret {A} a.
Arguments Panic {A}.
Arguments OutOfFuel {A}.

#[export] Instance run_ret : MRet run := @Ret.
#[export] Instance run_bind : MBind run := fun A B f m =>
  match m with Ret a => f a | Panic => Panic | OutOfFuel => OutOfFuel end.

Lemma run_bind_Ret {A B} (f : A -> run B) (m : run A) b :
  (m ≫= f) = Ret b -> exists a, m = Ret a /\ f a = Ret b.
Proof. destruct m; cbn; [|done..]. eauto. Qed.

(** The computation ends with a value that satisfies [P]. *)
Definition returns {A} (m : run A) (P : A -> Prop) : Prop := exists a, m = Ret a /\ P a.

(** ** Errors

    The error values of the program and of the standard library that the source
    compares with or returns.  [Errorf] is an error made on the spot
    ([errors.New] or [fmt.Errorf] without a wrapped error), [Wrap] is
    [fmt.Errorf] with [%w]. *)
Inductive error :=
| io_EOF | io_ErrUnexpectedEOF | io_ErrShortWrite | io_ErrClosedPipe
| syscall_ENOSPC | os_ErrClosed | os_ErrNotExist | context_Canceled
| ErrorStreamAbandoned | ErrorFileClosed | ErrorInvalidSeek
| errRetryReaderClosed | errTooManyRetryOpens
| ErrNotFound | ErrRangeNotSatisfiable | ErrRangeUnsupported | ErrObjectChanged
| errInvalidWhence | errNegativeSeek | errSeekPastEnd
| Errorf (msg : string)
| Wrap (msg : string) (err : error).

#[export] Instance error_eq_dec : EqDecision error.
Proof. solve_decision. Defined.

(** [errors.Is]: the error or one it wraps. *)
Fixpoint errors_Is (err target : error) : bool :=
  bool_decide (err = target) || match err with Wrap _ e => errors_Is e target | _ => false end.

(** [internal/engine/ioerrors]: [IsNoSpace(nil)] is false. *)
Definition IsNoSpace (err : option error) : bool :=
  match err with Some e => errors_Is e syscall_ENOSPC | None => false end.

(** [io.Seek*] constants. *)
Definition io_SeekStart : Z := 0.
Definition io_SeekCurrent : Z := 1.
Definition io_SeekEnd : Z := 2.
