(* ===== verification/GoText.v ===== *)
(** * Text: the functions of [strings] and [strconv] the program uses

    On ASCII text, which is what HTTP headers, cache file names and configuration
    values are made of. *)
From stdpp Require Import base numbers list strings pretty.
From Stdlib Require Import ZArith Lia Ascii.
From S2P Require Import Prelude.

Local Open Scope Z_scope.

(** ** Strings *)
Section strings.
Implicit Types s t : string.

Lemma string_app_assoc s t u : (s +:+ t) +:+ u = s +:+ (t +:+ u).
Proof. unfold String.app. induction s as [|a s IH]; cbn; [done|]. by rewrite IH. Qed.

Lemma string_length_app s t : String.length (s +:+ t) = (String.length s + String.length t)%nat.
Proof. unfold String.app. induction s as [|a s IH]; cbn; [done|]. by rewrite IH. Qed.

Lemma string_app_inv_r s1 s2 t : s1 +:+ t = s2 +:+ t -> s1 = s2.
Proof.
  intros He. assert (Hl : String.length s1 = String.length s2).
  { apply (f_equal String.length) in He. rewrite !string_length_app in He. lia. }
  revert s2 He Hl. unfold String.app. induction s1 as [|a s1 IH]; intros [|b s2]; cbn; try done.
  intros [= -> He] [= Hl]. f_equal. by apply IH.
Qed.

Lemma substring_all s : String.substring 0 (String.length s) s = s.
Proof. induction s as [|a s IH]; cbn; [done|]. by rewrite IH. Qed.

Lemma substring_app_l start len s t : (start + len <= String.length s)%nat ->
  String.substring start len (s +:+ t) = String.substring start len s.
Proof.
  unfold String.app. revert start len. induction s as [|a s IH]; intros start len Hl; cbn in Hl.
  { assert (start = 0%nat) as -> by lia. assert (len = 0%nat) as -> by lia. by destruct t. }
  destruct start as [|start]; [destruct len as [|len]; cbn; [done|]|]; cbn; rewrite IH by lia; done.
Qed.

Lemma substring_app_r s t len : String.substring (String.length s) len (s +:+ t) = String.substring 0 len t.
Proof. unfold String.app. by induction s as [|a s IH]; cbn; [|rewrite IH]. Qed.

Lemma length_substring start len s : (start + len <= String.length s)%nat -> String.length (String.substring start len s) = len.
Proof.
  revert start len. induction s as [|a s IH]; intros start len Hl; cbn in Hl.
  { assert (start = 0%nat) as -> by lia. by assert (len = 0%nat) as -> by lia. }
  destruct start as [|start]; [destruct len as [|len]; cbn; [done|]|]; cbn; rewrite IH by lia; done.
Qed.
End strings.

(** ** strings *)
Definition is_space (c : ascii) : bool :=
  let n := nat_of_ascii c in ((9 <=? n) && (n <=? 13))%nat || (n =? 32)%nat.
Fixpoint trim_left (s : list ascii) : list ascii :=
  match s with c :: s' => if is_space c then trim_left s' else s | [] => [] end.
Definition strings_TrimSpace (s : string) : string :=
  String.string_of_list_ascii (rev (trim_left (rev (trim_left (String.list_ascii_of_string s))))).

Definition strings_HasPrefix (s prefix : string) : bool := String.prefix prefix s.
Definition strings_TrimPrefix (s prefix : string) : string :=
  if strings_HasPrefix s prefix then String.substring (String.length prefix) (String.length s - String.length prefix) s else s.

(** [strings.Cut] at a separator of one byte. *)
Fixpoint strings_Cut (s : string) (sep : ascii) : option (string * string) :=
  match s with
  | EmptyString => None
  | String c s =>
      if bool_decide (c = sep) then Some (EmptyString, s)
      else '(before, after) ← strings_Cut s sep; Some (String c before, after)
  end.

Definition to_upper (c : ascii) : ascii :=
  let n := nat_of_ascii c in if ((97 <=? n) && (n <=? 122))%nat then ascii_of_nat (n - 32) else c.
Definition to_lower (c : ascii) : ascii :=
  let n := nat_of_ascii c in if ((65 <=? n) && (n <=? 90))%nat then ascii_of_nat (n + 32) else c.
Fixpoint string_map (f : ascii -> ascii) (s : string) : string :=
  match s with EmptyString => EmptyString | String c s => String (f c) (string_map f s) end.
Definition strings_ToUpper : string -> string := string_map to_upper.
Definition strings_EqualFold (s t : string) : bool := bool_decide (string_map to_lower s = string_map to_lower t).

(** ** strconv *)
Definition digit (c : ascii) : option Z :=
  let n := Z.of_nat (nat_of_ascii c) in if (48 <=? n) && (n <=? 57) then Some (n - 48) else None.
Fixpoint digits_value (s : string) (acc : Z) : option Z :=
  match s with
  | EmptyString => Some acc
  | String c s => match digit c with Some d => digits_value s (acc * 10 + d) | None => None end
  end.

(** [ParseInt(s, 10, 64)], [None] standing for its two errors. *)
Definition strconv_ParseInt (s : string) : option Z :=
  let '(neg, ds) :=
    match s with
    | String c s' => if bool_decide (c = "-"%char) then (true, s') else if bool_decide (c = "+"%char) then (false, s') else (false, s)
    | EmptyString => (false, s)
    end in
  if bool_decide (ds = EmptyString) then None
  else
    match digits_value ds 0 with
    | Some n => let n := if (neg : bool) then - n else n in if (MinInt64 <=? n) && (n <=? MaxInt64) then Some n else None
    | None => None
    end.

(** ** What has been printed can be read *)
Lemma digit_pretty (x : N) : (x < 10)%N -> digit (pretty_N_char x) = Some (Z.of_N x).
Proof.
  intros Hx. assert (Hc : (x = 0 \/ x = 1 \/ x = 2 \/ x = 3 \/ x = 4 \/ x = 5 \/ x = 6 \/ x = 7 \/ x = 8 \/ x = 9)%N) by lia.
  destruct_or! Hc; subst x; reflexivity.
Qed.

Lemma digits_value_pretty_go (x : N) s : digits_value (pretty_N_go x s) 0 = digits_value s (Z.of_N x).
Proof.
  revert s. induction (N.lt_wf_0 x) as [x _ IH]. intros s. destruct (decide (x = 0)%N) as [->|Hx]; [done|].
  rewrite pretty_N_go_step by lia. rewrite IH by (apply N.div_lt; lia). cbn [digits_value].
  rewrite digit_pretty by (by apply N.mod_lt). f_equal. rewrite N2Z.inj_div, N2Z.inj_mod.
  pose proof (Z.div_mod (Z.of_N x) 10 ltac:(lia)). lia.
Qed.

Lemma digits_value_pretty (x : N) : digits_value (pretty x) 0 = Some (Z.of_N x).
Proof. unfold pretty, pretty_N. case_decide; [by subst|]. by rewrite digits_value_pretty_go. Qed.

(** What is printed of a number starts with a digit. *)
Definition is_digit (c : ascii) : bool := bool_decide (is_Some (digit c)).
Fixpoint all_digits (s : string) : bool := match s with EmptyString => true | String c s => is_digit c && all_digits s end.

Lemma all_digits_pretty_go (x : N) s : all_digits s = true -> all_digits (pretty_N_go x s) = true.
Proof.
  revert s. induction (N.lt_wf_0 x) as [x _ IH]. intros s Hs. destruct (decide (x = 0)%N) as [->|Hx]; [done|].
  rewrite pretty_N_go_step by lia. apply IH; [apply N.div_lt; lia|]. cbn [all_digits]. rewrite Hs, andb_true_r.
  apply bool_decide_eq_true_2. rewrite digit_pretty by (by apply N.mod_lt). by eexists.
Qed.

Lemma all_digits_pretty (x : N) : all_digits (pretty x) = true.
Proof. unfold pretty, pretty_N. case_decide; [done|]. by apply all_digits_pretty_go. Qed.

Lemma pretty_N_nonempty (x : N) : (pretty x : string) <> EmptyString.
Proof.
  unfold pretty, pretty_N. case_decide as Hx; [done|]. rewrite pretty_N_go_step by lia.
  assert (Hg : forall y s, s <> EmptyString -> pretty_N_go y s <> EmptyString).
  { intros y. induction (N.lt_wf_0 y) as [y _ IH]. intros s Hs. destruct (decide (y = 0)%N) as [->|Hy]; [done|].
    rewrite pretty_N_go_step by lia. apply IH; [apply N.div_lt; lia|done]. }
  by apply Hg.
Qed.

Lemma ParseInt_pretty (z : Z) : in64 z -> strconv_ParseInt (pretty z) = Some z.
Proof.
  intros Hz. assert (Hr : (MinInt64 <=? z) && (z <=? MaxInt64) = true) by (unfold in64 in Hz; lia).
  destruct z as [|p|p]; [done|..]; pose proof (all_digits_pretty (Npos p)) as Hd; pose proof (pretty_N_nonempty (Npos p)) as Hn;
    pose proof (digits_value_pretty (Npos p)) as Hv; unfold strconv_ParseInt.
  - change (pretty (Z.pos p)) with (pretty (Npos p)). destruct (pretty (Npos p)) as [|c s]; [done|].
    cbn [all_digits] in Hd. apply andb_true_iff in Hd as [Hd _].
    cbv beta iota. rewrite (bool_decide_eq_false_2 (c = _)) by (intros ->; by vm_compute in Hd).
    rewrite (bool_decide_eq_false_2 (c = _)) by (intros ->; by vm_compute in Hd). rewrite bool_decide_eq_false_2 by done. rewrite Hv. cbn [Z.of_N]. by rewrite Hr.
  - change (pretty (Z.neg p)) with (String "-" (pretty (Npos p))). cbv beta iota. rewrite bool_decide_eq_true_2, bool_decide_eq_false_2 by done.
    rewrite Hv. cbn [Z.of_N]. change (- Z.pos p) with (Z.neg p). by rewrite Hr.
Qed.

(** Cutting at a separator that the text before it does not have. *)
Fixpoint lacks (c : ascii) (s : string) : bool :=
  match s with EmptyString => true | String a s => negb (bool_decide (a = c)) && lacks c s end.

Lemma Cut_app s t c : lacks c s = true -> strings_Cut (s +:+ String c t) c = Some (s, t).
Proof.
  unfold String.app. induction s as [|a s IH]; cbn; intros Hl; [by rewrite bool_decide_eq_true_2|].
  apply andb_true_iff in Hl as [Ha Hl]. apply negb_true_iff in Ha. by rewrite Ha, IH.
Qed.

Lemma lacks_app c s t : lacks c (s +:+ t) = lacks c s && lacks c t.
Proof. unfold String.app. induction s as [|a s IH]; cbn; [done|]. by rewrite IH, andb_assoc. Qed.

Lemma all_digits_lacks c s : is_digit c = false -> all_digits s = true -> lacks c s = true.
Proof.
  intros Hc. induction s as [|a s IH]; cbn; [done|]. intros Hd. apply andb_true_iff in Hd as [Ha Hs]. rewrite IH by done.
  rewrite bool_decide_eq_false_2; [done|]. congruence.
Qed.

Lemma TrimPrefix_app p s : strings_HasPrefix (p +:+ s) p = true /\ strings_TrimPrefix (p +:+ s) p = s.
Proof.
  assert (Hp : String.prefix p (p +:+ s) = true).
  { unfold String.app. induction p as [|a p IH]; cbn; [by destruct s|]. by destruct (ascii_dec a a). }
  split; [done|]. unfold strings_TrimPrefix, strings_HasPrefix. rewrite Hp, substring_app_r, string_length_app.
  rewrite Nat.add_comm, Nat.add_sub. apply substring_all.
Qed.

(** [strings.Split] at a separator of one byte, and [strings.Join]. *)
Fixpoint strings_Split (s : string) (sep : ascii) : list string :=
  match s with
  | EmptyString => [EmptyString]
  | String c s =>
      if bool_decide (c = sep) then EmptyString :: strings_Split s sep
      else match strings_Split s sep with [] => [String c EmptyString] | p :: ps => String c p :: ps end
  end.
Definition strings_Join (parts : list string) (sep : string) : string := String.concat sep parts.

Lemma Split_lacks s sep : lacks sep s = true -> strings_Split s sep = [s].
Proof.
  induction s as [|c s IH]; cbn; [done|]. intros Hl. apply andb_true_iff in Hl as [Hc Hs]. apply negb_true_iff in Hc.
  by rewrite Hc, IH.
Qed.

Lemma Split_app s t sep : lacks sep s = true -> strings_Split (s +:+ String sep t) sep = s :: strings_Split t sep.
Proof.
  unfold String.app. induction s as [|c s IH]; cbn; intros Hl; [by rewrite bool_decide_eq_true_2|].
  apply andb_true_iff in Hl as [Hc Hs]. apply negb_true_iff in Hc. by rewrite Hc, IH.
Qed.

Lemma Split_Join parts c : Forall (fun p => lacks c p = true) parts -> parts <> [] ->
  strings_Split (strings_Join parts (String c EmptyString)) c = parts.
Proof.
  intros Hp. induction Hp as [|p parts Hp Hps IH]; [done|]. intros _. destruct parts as [|q parts]; [by apply Split_lacks|].
  change (strings_Join (p :: q :: parts) (String c EmptyString)) with (p +:+ String c (strings_Join (q :: parts) (String c EmptyString))).
  rewrite Split_app by done. by rewrite IH.
Qed.

Lemma Split_pieces s c : Forall (fun p => lacks c p = true) (strings_Split s c).
Proof.
  induction s as [|a s IH]; cbn; [by constructor|]. case_bool_decide as Ha; [by constructor|].
  destruct (strings_Split s c) as [|p ps]; [constructor; [cbn; by rewrite bool_decide_eq_false_2|done]|].
  apply Forall_cons in IH as [Hp Hps]. constructor; [cbn; by rewrite bool_decide_eq_false_2|done].
Qed.

(** ** Suffixes and trimming *)
Definition text (s : string) : list ascii := String.list_ascii_of_string s.

Fixpoint starts (p l : list ascii) : bool :=
  match p, l with
  | [], _ => true
  | a :: p, b :: l => bool_decide (a = b) && starts p l
  | _, [] => false
  end.
Definition strings_HasSuffix (s suffix : string) : bool := starts (rev (text suffix)) (rev (text s)).
Definition strings_TrimSuffix (s suffix : string) : string :=
  if strings_HasSuffix s suffix then String.substring 0 (String.length s - String.length suffix) s else s.

(** [strings.Contains] for a text of one byte. *)
Definition strings_Contains (s : string) (c : ascii) : bool := negb (lacks c s).

(** [strings.NewReplacer(pairs...).Replace(s)]: at every position the first old text
    that is there is replaced; [skip] bytes of the last one are still to be passed. *)
Fixpoint replace_from (pairs : list (string * string)) (skip : nat) (s : string) : string :=
  match s with
  | EmptyString => EmptyString
  | String c s' =>
      match skip with
      | S skip => replace_from pairs skip s'
      | 0%nat =>
          match List.find (fun p => String.prefix (fst p) s) pairs with
          | Some (old, new) => new +:+ replace_from pairs (String.length old - 1) s'
          | None => String c (replace_from pairs 0 s')
          end
      end
  end.
Definition strings_Replace (pairs : list (string * string)) (s : string) : string := replace_from pairs 0 s.

Lemma text_app s t : text (s +:+ t) = text s ++ text t.
Proof. unfold text, String.app. induction s as [|a s IH]; cbn; [done|]. by rewrite IH. Qed.

Lemma starts_app p l : starts p (p ++ l) = true.
Proof. induction p as [|a p IH]; cbn; [done|]. by rewrite bool_decide_eq_true_2, IH. Qed.

Lemma TrimSuffix_app s t : strings_HasSuffix (s +:+ t) t = true /\ strings_TrimSuffix (s +:+ t) t = s.
Proof.
  assert (Hs : strings_HasSuffix (s +:+ t) t = true) by (unfold strings_HasSuffix; by rewrite text_app, rev_app_distr, starts_app).
  split; [done|]. unfold strings_TrimSuffix. rewrite Hs, string_length_app, Nat.add_sub, substring_app_l by done. apply substring_all.
Qed.

Lemma string_map_app f s t : string_map f (s +:+ t) = string_map f s +:+ string_map f t.
Proof. unfold String.app. induction s as [|a s IH]; cbn; [done|]. by rewrite IH. Qed.

Lemma trim_left_spaces l k : Forall (fun c => is_space c = true) l -> trim_left (l ++ k) = trim_left k.
Proof. induction 1 as [|c l Hc _ IH]; cbn; [done|]. by rewrite Hc. Qed.

(** White space around a text that neither starts nor ends with it. *)
Definition spaces (s : string) : Prop := Forall (fun c => is_space c = true) (text s).
Definition solid (s : string) : Prop :=
  match text s with a :: _ => is_space a = false | [] => False end /\ match rev (text s) with a :: _ => is_space a = false | [] => False end.

Lemma trim_left_solid l : match l with a :: _ => is_space a = false | [] => False end -> trim_left l = l.
Proof. destruct l as [|a l]; [done|]. cbn. by intros ->. Qed.

Lemma TrimSpace_solid left s right : spaces left -> solid s -> spaces right -> strings_TrimSpace (left +:+ s +:+ right) = s.
Proof.
  intros Hl [Hs1 Hs2] Hr. unfold strings_TrimSpace. fold (text (left +:+ s +:+ right)). rewrite !text_app, trim_left_spaces by done.
  assert (Ht : trim_left (text s ++ text right) = text s ++ text right) by (apply trim_left_solid; by destruct (text s)).
  rewrite Ht, rev_app_distr, trim_left_spaces by (apply Forall_rev; exact Hr). rewrite (trim_left_solid (rev (text s))) by done.
  rewrite rev_involutive. apply String.string_of_list_ascii_of_string.
Qed.

(** Any number that is printed, and whether it fits. *)
Lemma ParseInt_pretty_nonneg (n : Z) : 0 <= n -> strconv_ParseInt (pretty n) = if n <=? MaxInt64 then Some n else None.
Proof.
  intros Hn. destruct (Z.leb_spec n MaxInt64) as [Hle|Hgt]; [by apply ParseInt_pretty; unfold in64, MinInt64, MaxInt64 in *; lia|].
  destruct n as [|p|p]; [by unfold MaxInt64 in Hgt| |lia]. pose proof (all_digits_pretty (Npos p)) as Hd. pose proof (pretty_N_nonempty (Npos p)) as Hne.
  pose proof (digits_value_pretty (Npos p)) as Hv. unfold strconv_ParseInt. change (pretty (Z.pos p)) with (pretty (Npos p)).
  destruct (pretty (Npos p)) as [|c s]; [done|]. cbn [all_digits] in Hd. apply andb_true_iff in Hd as [Hd _]. cbv beta iota.
  rewrite (bool_decide_eq_false_2 (c = _)) by (intros ->; by vm_compute in Hd). rewrite (bool_decide_eq_false_2 (c = _)) by (intros ->; by vm_compute in Hd).
  rewrite bool_decide_eq_false_2 by done. rewrite Hv. cbn [Z.of_N]. destruct (Z.leb_spec (Z.pos p) MaxInt64); [lia|]. by rewrite andb_false_r.
Qed.
