(* ===== verification/Ranges.v ===== *)
(** * Byte ranges: [src/ranges/ranges.go] *)
From stdpp Require Import base numbers list sorting.
From Stdlib Require Import ZArith Lia.
From S2P Require Import Prelude.

Local Open Scope Z_scope.
Local Open Scope go_scope.

(** ** Data and operations *)

(** The Go struct [Range]. *)
Record Range := mkRange { Pos : Z; Size : Z }.

#[export] Instance Range_inhabited : Inhabited Range := populate (mkRange 0 0).
#[export] Instance Range_eq_dec : EqDecision Range.
Proof. solve_decision. Defined.

Definition Range_End (r : Range) : Z := Pos r +! Size r.

Definition Range_IsEmpty (r : Range) : bool := Size r <=? 0.

Definition Range_Clip (r : Range) (offset : Z) : Range :=
  if Range_End r <=? offset then r
  else
    let size := Size r -! (Range_End r -! offset) in
    if size <? 0 then mkRange 0 0 else mkRange (Pos r) size.

Definition Range_Intersection (r b : Range) : Range :=
  if ((Pos b <=? Pos r) && (Pos r <? Range_End b))
     || ((Pos r <=? Pos b) && (Pos b <? Range_End r))
  then
    let pos := Z.max (Pos r) (Pos b) in
    mkRange pos (Z.min (Range_End r) (Range_End b) -! pos)
  else mkRange 0 0.

(** [merge(new, dst)] updates [*dst] and returns true, or returns false and
    leaves it: the updated [*dst], or [None]. *)
Definition merge (new dst : Range) : option Range :=
  if Range_End new <? Pos dst then None
  else Some (mkRange (Pos new)
               (if Range_End dst <? Range_End new then Size new
                else Size dst +! (Pos dst -! Pos new))).

(** The [for j := i; ...] loop of [coalesce]: [endChop] and the slice when it
    ends.  [fuel] bounds the iterations by the length of the slice. *)
Fixpoint coalesce_loop (fuel j endChop : nat) (ranges : list Range) : nat * list Range :=
  match fuel with
  | O => (endChop, ranges)
  | S fuel =>
    if (j <? length ranges - 1)%nat then
      match merge (ranges !!! j) (ranges !!! S j) with
      | None => (endChop, ranges)
      | Some m => coalesce_loop fuel (S j) (S j) (<[S j := m]> ranges)
      end
    else (endChop, ranges)
  end.

Definition coalesce (rs : list Range) (i : nat) : list Range :=
  let '(startChop, ranges) :=
    if (0 <? i)%nat then
      match merge (rs !!! (i - 1)%nat) (rs !!! i) with
      | Some m => ((i - 1)%nat, <[i := m]> rs)
      | None => (i, rs)
      end
    else (i, rs) in
  let '(endChop, ranges) := coalesce_loop (length ranges) i i ranges in
  if (startChop <? endChop)%nat then
    take (length ranges - endChop + startChop) (copy_at startChop (drop endChop ranges) ranges)
  else ranges.

(** [sort.Search] of the Go standard library: binary search for the least index
    at which [f] holds; the interval at least halves, so [n] steps are enough. *)
Fixpoint sort_Search_loop (fuel : nat) (f : nat -> bool) (i j : nat) : nat :=
  match fuel with
  | O => i
  | S fuel =>
    if (i <? j)%nat then
      let h := ((i + j) / 2)%nat in
      if f h then sort_Search_loop fuel f i h
      else sort_Search_loop fuel f (S h) j
    else i
  end.

Definition sort_Search (n : nat) (f : nat -> bool) : nat := sort_Search_loop n f 0 n.

Definition Ranges_search (rs : list Range) (r : Range) : nat :=
  sort_Search (length rs) (fun i => Pos r <=? Pos (rs !!! i)).

Definition Ranges_Insert (rs : list Range) (r : Range) : list Range :=
  if Range_IsEmpty r then rs
  else if (length rs =? 0)%nat then rs ++ [r]
  else
    let i := Ranges_search rs r in
    let ranges :=
      match (if (i =? length rs)%nat then None else merge r (rs !!! i)) with
      | Some m => <[i := m]> rs
      | None =>
        let ranges := rs ++ [mkRange 0 0] in
        <[i := r]> (copy_at (S i) (drop i ranges) ranges)
      end in
    coalesce ranges i.

(** [Find] returns [(curr, next, present)]. *)
Definition Ranges_Find (rs : list Range) (r : Range) : Range * Range * bool :=
  if Range_IsEmpty r then (r, mkRange 0 0, false)
  else
    let i := Ranges_search rs r in
    let prev_int :=
      if (0 <? i)%nat then Range_Intersection (rs !!! (i - 1)%nat) r else mkRange 0 0 in
    if (0 <? i)%nat && negb (Range_IsEmpty prev_int) then
      (prev_int, mkRange (Range_End prev_int) (Size r -! Size prev_int), true)
    else if (length rs <=? i)%nat then (r, mkRange 0 0, false)
    else
      let int := Range_Intersection (rs !!! i) r in
      if Range_IsEmpty int then (r, mkRange 0 0, false)
      else if Pos r <? Pos int then
        let curr := mkRange (Pos r) (Pos int -! Pos r) in
        (curr, mkRange (Range_End curr) (Size r -! Size curr), false)
      else (int, mkRange (Range_End int) (Size r -! Size int), true).

Record FoundRange := mkFound { FR_R : Range; FR_Present : bool }.

(** The loop of [FindAll].  Every second call at least leaves a segment of [rs]
    behind, so [S (2 * length rs)] calls are enough ([FindAll_fuel]). *)
Fixpoint FindAll_loop (fuel : nat) (rs : list Range) (r : Range) : list FoundRange :=
  match fuel with
  | O => []
  | S fuel =>
    if Range_IsEmpty r then []
    else
      let '(curr, next, present) := Ranges_Find rs r in
      mkFound curr present :: FindAll_loop fuel rs next
  end.

Definition Ranges_FindAll (rs : list Range) (r : Range) : list FoundRange :=
  FindAll_loop (S (S (2 * length rs))) rs r.

Definition Ranges_Present (rs : list Range) (r : Range) : bool :=
  if Range_IsEmpty r then true
  else
    let '(_, next, present) := Ranges_Find rs r in
    if negb present then false else Range_IsEmpty next.

(** The loop of [Intersection], with the accumulator [newRs]. *)
Fixpoint Intersection_loop (fuel : nat) (rs : list Range) (r : Range) (newRs : list Range) : list Range :=
  match fuel with
  | O => newRs
  | S fuel =>
    if Range_IsEmpty r then newRs
    else
      let '(curr, next, found) := Ranges_Find rs r in
      Intersection_loop fuel rs next (if found then Ranges_Insert newRs curr else newRs)
  end.

Definition Ranges_Intersection (rs : list Range) (r : Range) : list Range :=
  if (length rs =? 0)%nat then rs
  else Intersection_loop (S (S (2 * length rs))) rs r [].

(** [Equal] compares element by element ([nil] and the empty slice are equal). *)
Fixpoint ranges_eqb (rs bs : list Range) : bool :=
  match rs, bs with
  | r :: rs', b :: bs' => (Pos r =? Pos b) && (Size r =? Size b) && ranges_eqb rs' bs'
  | _, _ => true
  end.

Definition Ranges_Equal (rs bs : list Range) : bool :=
  if (length rs =? length bs)%nat then ranges_eqb rs bs else false.

Definition Ranges_Size (rs : list Range) : Z := fold_left (fun size r => size +! Size r) rs 0.

Definition Ranges_FindMissing (rs : list Range) (r : Range) : Range :=
  if Range_IsEmpty r then r
  else
    let '(curr, _, present) := Ranges_Find rs r in
    if negb present then r
    else mkRange (Range_End curr) (Size r -! (Range_End curr -! Pos r)).

(** ** Meaning and well-formedness *)

(** The bytes a range and a slice of ranges stand for. *)
#[export] Instance Range_elem : ElemOf Z Range := fun x r => Pos r <= x < Pos r + Size r.

Definition covers (rs : list Range) (x : Z) : Prop := Exists (fun r => x ∈ r) rs.

(** A nonempty range of [int64] offsets. *)
Definition valid (r : Range) : Prop := 0 <= Pos r /\ 0 < Size r /\ Pos r + Size r <= MaxInt64.

(** A range a caller may pass: possibly empty, no overflow. *)
Definition in_bounds (r : Range) : Prop :=
  0 <= Pos r <= MaxInt64 /\ MinInt64 <= Size r /\ Pos r + Size r <= MaxInt64.

(** [a] ends before [b] starts, with at least one byte between them. *)
Definition sep (a b : Range) : Prop := Pos a + Size a < Pos b.

(** "Sorted and coalesced to the minimum size." *)
Definition wf (rs : list Range) : Prop := Forall valid rs /\ StronglySorted sep rs.

(** What the loop of [coalesce] computes: the element [c] absorbs the elements
    after it as long as they touch it. *)
Fixpoint absorb (c : Range) (post : list Range) : list Range :=
  match post with
  | [] => [c]
  | d :: post' => match merge c d with None => c :: post | Some m => absorb m post' end
  end.

(** What one call of [Find] promises. *)
Record find_post (rs : list Range) (r curr next : Range) (present : bool) : Prop := {
  fp_pos : Pos curr = Pos r;
  fp_valid : valid curr;
  fp_size : Size curr + Size next = Size r;
  fp_next : 0 < Size next -> valid next /\ Pos next = Pos curr + Size curr;
  fp_next_nonneg : 0 <= Size next;
  fp_present : forall x, x ∈ curr -> (covers rs x <-> present = true);
  fp_maximal : 0 < Size next -> (covers rs (Pos next) <-> present = false);
  fp_end : 0 < Size next -> present = true ->
           exists a, a ∈ rs /\ Pos a + Size a = Pos next /\ Pos r < Pos a + Size a
}.

(** The found ranges are nonempty and tile [pos, end_) from left to right. *)
Fixpoint tiles (pos : Z) (frs : list FoundRange) (end_ : Z) : Prop :=
  match frs with
  | [] => pos = end_
  | fr :: frs' =>
    Pos (FR_R fr) = pos /\ 0 < Size (FR_R fr) /\ tiles (pos + Size (FR_R fr)) frs' end_
  end.

(** Neighbours differ in presence: the partition is the coarsest one. *)
Fixpoint alternates (frs : list FoundRange) : Prop :=
  match frs with
  | fr :: (fr' :: _) as frs' => FR_Present fr <> FR_Present fr' /\ alternates frs'
  | _ => True
  end.

(** The number of segments that reach past the start of [r]. *)
Definition count_after (rs : list Range) (pos : Z) : nat :=
  length (filter (fun a => pos < Pos a + Size a) rs).

(** Enough calls of [Find] are left to walk through [r]. *)
Definition fuel_enough (rs : list Range) (r : Range) (fuel : nat) : Prop :=
  Size r <= 0 \/ (2 * count_after rs (Pos r) + 1 <= fuel)%nat \/
  (covers rs (Pos r) /\ (2 * count_after rs (Pos r) <= fuel)%nat).

(** A found range is nonempty and its flag is right for each of its bytes. *)
Definition found_ok (rs : list Range) (fr : FoundRange) : Prop :=
  valid (FR_R fr) /\ forall x, x ∈ FR_R fr -> (covers rs x <-> FR_Present fr = true).

(** The covered bytes, each once. *)
Definition covered (rs : list Range) : list Z := rs ≫= (fun r => seqZ (Pos r) (Size r)).

Lemma valid_in_bounds r : valid r -> in_bounds r.
Proof. unfold valid, in_bounds, MinInt64. lia. Qed.
#[export] Hint Resolve valid_in_bounds : varc.

Lemma in_bounds_valid r : in_bounds r -> Range_IsEmpty r = false -> valid r.
Proof. unfold in_bounds, valid, Range_IsEmpty. rewrite Z.leb_gt. lia. Qed.
#[export] Hint Resolve in_bounds_valid : varc.

(** Unfolds the arithmetic of ranges and removes the wrap-arounds. *)
Ltac range_arith :=
  unfold valid, in_bounds, sep, elem_of, Range_elem, Range_IsEmpty, Range_End in *;
  cbn [Pos Size] in *; unfold in64, MinInt64, MaxInt64 in *; zcases; i64_norm.

Lemma Range_End_eq r : in_bounds r -> Range_End r = Pos r + Size r.
Proof. intros. range_arith; lia. Qed.

Lemma merge_None new dst :
  valid new -> valid dst -> merge new dst = None -> sep new dst.
Proof. unfold merge. intros ? ? ?. range_arith; [done..|discriminate]. Qed.

Lemma merge_Some new dst m :
  valid new -> valid dst -> Pos new <= Pos dst -> merge new dst = Some m ->
  valid m /\ Pos m = Pos new /\ Pos dst <= Pos new + Size new /\
  Pos m + Size m = Z.max (Pos new + Size new) (Pos dst + Size dst).
Proof.
  unfold merge. intros Hn Hd Hle. rewrite !Range_End_eq by auto with varc.
  range_arith; intros [= <-]; cbn [Pos Size]; i64_norm; lia.
Qed.

Lemma wf_cons a rs : wf (a :: rs) <-> valid a /\ Forall (sep a) rs /\ wf rs.
Proof.
  unfold wf. rewrite Forall_cons. split.
  - intros [[? ?] Hs]. apply StronglySorted_inv in Hs as [? ?]. done.
  - intros (?&?&?&?). split; [done|]. by constructor.
Qed.

Lemma wf_nil : wf [].
Proof. split; constructor. Qed.
#[export] Hint Resolve wf_nil : varc.

Lemma wf_app l k : wf (l ++ k) <-> wf l /\ wf k /\ Forall (fun a => Forall (sep a) k) l.
Proof.
  induction l as [|a l IH]; cbn [app].
  - split; [intros; split_and!; auto with varc|naive_solver].
  - rewrite !wf_cons, IH, Forall_app, Forall_cons. naive_solver.
Qed.

Lemma covers_nil x : covers [] x <-> False.
Proof. unfold covers. by rewrite Exists_nil. Qed.
Lemma covers_cons a rs x : covers (a :: rs) x <-> x ∈ a \/ covers rs x.
Proof. unfold covers. by rewrite Exists_cons. Qed.
Lemma covers_app l k x : covers (l ++ k) x <-> covers l x \/ covers k x.
Proof. unfold covers. by rewrite Exists_app. Qed.

Lemma sep_trans a b c : valid b -> sep a b -> sep b c -> sep a c.
Proof. range_arith; lia. Qed.

(** ** [search] *)

Lemma sort_Search_loop_spec fuel f i j :
  (i <= j)%nat -> (j - i <= fuel)%nat ->
  (forall a b, (i <= a <= b)%nat -> (b < j)%nat -> f a = true -> f b = true) ->
  let k := sort_Search_loop fuel f i j in
  (i <= k <= j)%nat /\
  (forall a, (i <= a < k)%nat -> f a = false) /\ (forall a, (k <= a < j)%nat -> f a = true).
Proof.
  revert i j. induction fuel as [|fuel IH]; intros i j Hij Hfuel Hmono; cbn [sort_Search_loop].
  - split_and!; intros; lia.
  - destruct (Nat.ltb_spec i j) as [Hlt|Hge]; [|split_and!; intros; lia].
    pose proof (Nat.div_mod_eq (i + j) 2) as Hdm.
    pose proof (Nat.mod_upper_bound (i + j) 2 ltac:(lia)) as Hm.
    set (h := ((i + j) / 2)%nat) in *.
    destruct (f h) eqn:Hfh.
    + destruct (IH i h) as (?&Hf&Ht); [lia|lia|intros a b ???; apply (Hmono a b); [lia|lia|done]|].
      split_and!; [lia|lia|exact Hf|]. intros a Ha.
      destruct (decide (a < h)%nat); [apply Ht; lia|]. apply (Hmono h a); [lia|lia|done].
    + destruct (IH (S h) j) as (?&Hf&Ht); [lia|lia|intros a b ???; apply (Hmono a b); [lia|lia|done]|].
      split_and!; [lia|lia| |exact Ht]. intros a Ha.
      destruct (decide (a <= h)%nat); [|apply Hf; lia].
      destruct (f a) eqn:Hfa; [|done]. rewrite (Hmono a h) in Hfh; [done|lia|lia|done].
Qed.

Lemma wf_lookup_lt rs (i j : nat) a b :
  wf rs -> rs !! i = Some a -> rs !! j = Some b -> (i < j)%nat -> sep a b.
Proof.
  revert i j. induction rs as [|c rs IH]; intros i j Hwf Hi Hj Hij; [done|].
  apply wf_cons in Hwf as (_&Hall&Hwf).
  destruct j as [|j]; [lia|]. destruct i as [|i]; cbn in Hi, Hj.
  - injection Hi as ->. rewrite Forall_lookup in Hall. eauto.
  - apply (IH i j); [done..|lia].
Qed.

Lemma wf_lookup_valid rs (i : nat) a : wf rs -> rs !! i = Some a -> valid a.
Proof. intros [Hv _]. rewrite Forall_lookup in Hv. apply Hv. Qed.

(** [search] splits a well-formed slice at the query position. *)
Lemma search_spec rs r :
  wf rs ->
  let i := Ranges_search rs r in
  (i <= length rs)%nat /\
  Forall (fun a => Pos a < Pos r) (take i rs) /\ Forall (fun a => Pos r <= Pos a) (drop i rs).
Proof.
  intros Hwf i.
  destruct (sort_Search_loop_spec (length rs) (fun i => Pos r <=? Pos (rs !!! i)) 0 (length rs))
    as (Hb&Hf&Ht); [lia|lia| |].
  - intros a b Hab Hb. rewrite !Z.leb_le.
    destruct (lookup_lt_is_Some_2 rs a) as [x Hx]; [lia|].
    destruct (lookup_lt_is_Some_2 rs b) as [y Hy]; [lia|].
    rewrite (list_lookup_total_correct _ _ _ Hx), (list_lookup_total_correct _ _ _ Hy).
    destruct (decide (a = b)) as [->|]; [simplify_eq; done|].
    pose proof (wf_lookup_lt rs a b x y Hwf Hx Hy ltac:(lia)) as Hsep.
    pose proof (wf_lookup_valid _ _ _ Hwf Hx). range_arith; lia.
  - change (sort_Search_loop _ _ _ _) with i in *. split_and!; [lia| |].
    + apply Forall_lookup. intros k a Hk. apply lookup_take_Some in Hk as [Hk Hki].
      specialize (Hf k ltac:(lia)). rewrite (list_lookup_total_correct _ _ _ Hk) in Hf.
      apply Z.leb_gt in Hf. lia.
    + apply Forall_lookup. intros k a Hk. rewrite lookup_drop in Hk.
      pose proof (lookup_lt_Some _ _ _ Hk).
      specialize (Ht (i + k)%nat ltac:(lia)). rewrite (list_lookup_total_correct _ _ _ Hk) in Ht.
      by apply Z.leb_le in Ht.
Qed.

(** The same split as an append, the form the proofs below use. *)
Lemma search_split rs r :
  wf rs ->
  exists pre post, rs = pre ++ post /\ Ranges_search rs r = length pre /\
    Forall (fun a => Pos a < Pos r) pre /\ Forall (fun a => Pos r <= Pos a) post.
Proof.
  intros Hwf. destruct (search_spec rs r Hwf) as (Hle&Hpre&Hpost).
  exists (take (Ranges_search rs r) rs), (drop (Ranges_search rs r) rs).
  rewrite take_drop, length_take. split_and!; [done|lia|done|done].
Qed.

(** ** [coalesce] *)

Lemma coalesce_loop_spec post : forall fuel pre c,
  (length post <= fuel)%nat ->
  let res := coalesce_loop fuel (length pre) (length pre) (pre ++ c :: post) in
  drop res.1 res.2 = absorb c post /\ take (length pre) res.2 = pre /\
  (length pre <= res.1)%nat /\ length res.2 = length (pre ++ c :: post).
Proof.
  assert (Hbase : forall (pre : list Range) c post, drop (length pre) (pre ++ c :: post) = c :: post
    /\ take (length pre) (pre ++ c :: post) = pre) by (intros; by rewrite drop_app_length, take_app_length).
  induction post as [|d post IH]; intros fuel pre c Hfuel; cbn [absorb].
  - destruct fuel as [|fuel]; cbn [coalesce_loop].
    + cbn. destruct (Hbase pre c []). done.
    + rewrite length_app; cbn [length].
      destruct (Nat.ltb_spec (length pre) (length pre + 1 - 1)); [lia|].
      cbn. destruct (Hbase pre c []). rewrite length_app. done.
  - destruct fuel as [|fuel]; [cbn in Hfuel; lia|]. cbn [coalesce_loop].
    rewrite length_app; cbn [length].
    destruct (Nat.ltb_spec (length pre) (length pre + S (S (length post)) - 1)) as [_|]; [|lia].
    rewrite (list_lookup_total_correct _ _ c) by (by rewrite list_lookup_middle).
    rewrite (list_lookup_total_correct _ _ d).
    2:{ rewrite lookup_app_r by lia. by replace (S (length pre) - length pre)%nat with 1%nat by lia. }
    destruct (merge c d) as [m|].
    + assert (Hins : <[S (length pre):=m]> (pre ++ c :: d :: post) = (pre ++ [c]) ++ m :: post).
      { rewrite insert_app_r_alt by lia. replace (S (length pre) - length pre)%nat with 1%nat by lia.
        cbn. by rewrite <- app_assoc. }
      rewrite Hins. replace (S (length pre)) with (length (pre ++ [c])) by (rewrite length_app; cbn; lia).
      destruct (IH fuel (pre ++ [c]) m ltac:(cbn in Hfuel; lia)) as (Hd&Ht&Hl&Hlen).
      destruct (coalesce_loop _ _ _ _) as [e rs']. cbn [fst snd] in *.
      split_and!; [done| | |].
      * apply (f_equal (take (length pre))) in Ht. rewrite take_app_length, take_take, length_app in Ht.
        replace (length pre `min` (length pre + length [c]))%nat with (length pre) in Ht by lia. done.
      * rewrite length_app in Hl. cbn in Hl. lia.
      * rewrite Hlen, !length_app. cbn. lia.
    + cbn. destruct (Hbase pre c (d :: post)). rewrite length_app. done.
Qed.

(** Chopping [startChop..endChop) out of the slice. *)
Lemma chop_spec (ranges : list Range) (s e : nat) :
  (s <= e <= length ranges)%nat ->
  (if (s <? e)%nat then take (length ranges - e + s) (copy_at s (drop e ranges) ranges) else ranges)
  = take s ranges ++ drop e ranges.
Proof.
  intros Hse. destruct (Nat.ltb_spec s e).
  - unfold copy_at. rewrite length_drop.
    rewrite (take_ge (drop e ranges)) by (rewrite length_drop; lia).
    rewrite app_assoc, take_app_le by (rewrite length_app, length_take, length_drop; lia).
    apply take_ge. rewrite length_app, length_take, length_drop. lia.
  - replace e with s by lia. by rewrite take_drop.
Qed.

Lemma coalesce_spec pre c post :
  coalesce (pre ++ c :: post) (length pre) =
  match last pre with
  | Some p => match merge p c with
              | Some m => take (length pre - 1) pre ++ absorb m post
              | None => pre ++ absorb c post
              end
  | None => absorb c post
  end.
Proof.
  assert (Hgo : forall ranges s c', ranges = pre ++ c' :: post -> (s <= length pre)%nat ->
    (let '(e, ranges') := coalesce_loop (length ranges) (length pre) (length pre) ranges in
     if (s <? e)%nat then take (length ranges' - e + s) (copy_at s (drop e ranges') ranges') else ranges')
    = take s pre ++ absorb c' post).
  { intros ranges s c' -> Hs.
    pose proof (coalesce_loop_spec post (length (pre ++ c' :: post)) pre c') as Hloop.
    rewrite length_app in Hloop at 1. cbn in Hloop. specialize (Hloop ltac:(lia)).
    rewrite length_app. cbn [length].
    rewrite length_app in Hloop. cbn in Hloop.
    destruct (coalesce_loop _ _ _ _) as [e ranges'] eqn:Heq. cbn in Hloop.
    destruct Hloop as (Hd&Ht&Hl&Hlen).
    assert (e <= length ranges')%nat.
    { destruct (decide (e <= length ranges')%nat); [done|].
      rewrite drop_ge in Hd by lia. destruct post as [|d post]; cbn in Hd; [done|].
      exfalso. clear -Hd. revert c' d Hd. induction post as [|x post IH]; intros c' d; cbn.
      - by destruct (merge c' d).
      - destruct (merge c' d); [|done]. apply IH. }
    rewrite chop_spec by lia. rewrite Hd. f_equal.
    rewrite <- Ht. rewrite take_take. by replace (s `min` length pre)%nat with s by lia. }
  unfold coalesce. destruct pre as [|p pre _] using rev_ind; cbn [last length].
  - by apply (Hgo _ 0%nat c).
  - rewrite last_snoc, length_app; cbn [length].
    destruct (Nat.ltb_spec 0 (length pre + 1)); [|lia].
    rewrite (list_lookup_total_correct _ _ p).
    2:{ rewrite <- app_assoc. rewrite lookup_app_r by lia.
        by replace (length pre + 1 - 1 - length pre)%nat with 0%nat by lia. }
    rewrite (list_lookup_total_correct _ _ c).
    2:{ rewrite lookup_app_r by (rewrite length_app; cbn; lia).
        rewrite length_app; cbn. by rewrite Nat.sub_diag. }
    rewrite length_app in Hgo; cbn [length] in Hgo.
    destruct (merge p c) as [m|].
    + rewrite (Hgo _ (length pre + 1 - 1)%nat m).
      * done.
      * rewrite insert_app_r_alt by (rewrite length_app; cbn; lia).
        rewrite length_app; cbn. by rewrite Nat.sub_diag.
      * lia.
    + rewrite (Hgo _ (length pre + 1)%nat c) by (done || lia).
      by rewrite take_ge by (rewrite length_app; cbn; lia).
Qed.

Lemma absorb_spec post : forall c,
  valid c -> wf post -> Forall (fun a => Pos c <= Pos a) post ->
  wf (absorb c post) /\ Forall (fun a => Pos c <= Pos a) (absorb c post) /\
  (forall x, covers (absorb c post) x <-> x ∈ c \/ covers post x).
Proof.
  induction post as [|d post IH]; intros c Hc Hpost Hle; cbn [absorb].
  - split_and!.
    + apply wf_cons. auto with varc.
    + repeat constructor. lia.
    + intros x. rewrite covers_cons. done.
  - apply wf_cons in Hpost as (Hd&Hsep&Hpost). apply Forall_cons in Hle as [Hcd Hle].
    destruct (merge c d) as [m|] eqn:Hm.
    + apply merge_Some in Hm as (Hvm&Hpm&Htouch&Hend); [|done..].
      destruct (IH m) as (Hw&Hf&Hcov); [done..| |].
      { rewrite Hpm. done. }
      rewrite Hpm in Hf. split_and!; [done..|].
      intros x. rewrite Hcov, covers_cons. clear -Hc Hd Hvm Hpm Htouch Hend Hcd.
      assert (x ∈ m <-> x ∈ c \/ x ∈ d) as ->; [|tauto]. range_arith; lia.
    + apply merge_None in Hm; [|done..].
      assert (Forall (sep c) post).
      { eapply Forall_impl; [exact Hsep|]. intros a Ha. by apply (sep_trans c d a). }
      split_and!.
      * rewrite !wf_cons, Forall_cons. done.
      * repeat constructor; [lia|done|]. eapply Forall_impl; [exact Hle|]. done.
      * intros x. rewrite (covers_cons c). done.
Qed.

Lemma sep_prefix pre p c :
  wf (pre ++ [p]) -> sep p c -> Forall (fun a => sep a c) (pre ++ [p]).
Proof.
  intros Hwf Hpc. apply wf_app in Hwf as (_&Hp&Hall). apply wf_cons in Hp as [Hp _].
  rewrite Forall_app. split; [|by repeat constructor].
  eapply Forall_impl; [exact Hall|]. cbn beta. intros a Ha. apply Forall_cons in Ha as [Ha _].
  by apply (sep_trans a p c).
Qed.

Lemma sep_le_Forall pre c l :
  Forall (fun a => sep a c) pre -> Forall (fun b => Pos c <= Pos b) l ->
  Forall (fun a => Forall (sep a) l) pre.
Proof.
  intros Hpre Hl. eapply Forall_impl; [exact Hpre|]. cbn. intros a Ha.
  eapply Forall_impl; [exact Hl|]. cbn. intros b Hb. range_arith; lia.
Qed.

(** [coalesce] restores the invariant around an element inserted in its place. *)
Lemma coalesce_wf pre c post :
  wf pre -> valid c -> Forall (fun a => Pos a < Pos c) pre ->
  wf post -> Forall (fun a => Pos c <= Pos a) post ->
  wf (coalesce (pre ++ c :: post) (length pre)) /\
  (forall x, covers (coalesce (pre ++ c :: post) (length pre)) x <->
             covers pre x \/ x ∈ c \/ covers post x).
Proof.
  intros Hpre Hc Hlt Hpost Hle. rewrite coalesce_spec.
  destruct pre as [|p pre _] using rev_ind; cbn [last].
  - destruct (absorb_spec post c) as (Hw&_&Hcov); [done..|]. split; [done|].
    intros x. rewrite Hcov, covers_nil. tauto.
  - rewrite last_snoc. pose proof Hpre as Hsnoc.
    apply wf_app in Hpre as (Hpre&Hp&Hpp). apply wf_cons in Hp as [Hp _].
    apply Forall_app in Hlt as [_ Hpc]. apply Forall_cons in Hpc as [Hpc _].
    destruct (merge p c) as [m|] eqn:Hm.
    + apply merge_Some in Hm as (Hvm&Hpm&Htouch&Hend); [|done..|lia].
      destruct (absorb_spec post m) as (Hw&Hf&Hcov); [done..| |].
      { eapply Forall_impl; [exact Hle|]. cbn. lia. }
      rewrite length_app, Nat.add_sub, take_app_length. split.
      * apply wf_app. split_and!; [done..|]. apply (sep_le_Forall _ p); [|by rewrite Hpm in Hf].
        eapply Forall_impl; [exact Hpp|]. cbn beta. intros a Ha. by apply Forall_cons in Ha as [Ha _].
      * intros x. rewrite !covers_app, Hcov, covers_cons, covers_nil.
        assert (x ∈ m <-> x ∈ p \/ x ∈ c) as ->; [|tauto].
        clear -Hc Hp Hvm Hpm Htouch Hend Hpc. range_arith; lia.
    + apply merge_None in Hm; [|done..].
      destruct (absorb_spec post c) as (Hw&Hf&Hcov); [done..|]. split.
      * apply wf_app. split_and!; [done..|]. apply (sep_le_Forall _ c); [|done].
        by apply sep_prefix.
      * intros x. rewrite covers_app, Hcov. done.
Qed.

(** The slice [Insert] hands to [coalesce]: [r], or [r] merged with the element
    at its place, between the elements before and after it. *)
Lemma Insert_shape rs r :
  wf rs -> valid r ->
  exists pre c post,
    Ranges_Insert rs r = coalesce (pre ++ c :: post) (length pre) /\
    wf pre /\ valid c /\ Forall (fun a => Pos a < Pos c) pre /\
    wf post /\ Forall (fun a => Pos c <= Pos a) post /\
    (forall x, (covers pre x \/ x ∈ c \/ covers post x) <-> covers rs x \/ x ∈ r).
Proof.
  intros Hwf Hr. unfold Ranges_Insert.
  replace (Range_IsEmpty r) with false by (range_arith; [lia|done]).
  destruct (Nat.eqb_spec (length rs) 0) as [H0|_].
  { apply nil_length_inv in H0 as ->. exists [], r, []. cbn. split_and!; try done; auto with varc.
    intros x. rewrite !covers_nil. tauto. }
  destruct (search_split rs r Hwf) as (pre&post&Hrs&Hi&Hpre&Hpost).
  rewrite Hi. subst rs. apply wf_app in Hwf as (Hwpre&Hwpost&_).
  assert (Hins : forall post, <[length pre:=r]> (copy_at (S (length pre))
      (drop (length pre) ((pre ++ post) ++ [mkRange 0 0])) ((pre ++ post) ++ [mkRange 0 0]))
      = pre ++ r :: post).
  { intros k. unfold copy_at. rewrite <- app_assoc, drop_app_length.
    rewrite (drop_ge (pre ++ _)) by (rewrite !length_app; cbn; lia). rewrite app_nil_r.
    rewrite take_app_ge by lia. replace (S (length pre) - length pre)%nat with 1%nat by lia.
    rewrite <- app_assoc, insert_app_r_alt by lia. rewrite Nat.sub_diag. f_equal.
    rewrite !length_app. cbn [length].
    replace (length pre + (length k + 1) - S (length pre))%nat with (length k) by lia.
    rewrite take_app_length. destruct k; reflexivity. }
  rewrite length_app. destruct post as [|d post].
  - replace (length pre =? length pre + length [])%nat with true
      by (symmetry; apply Nat.eqb_eq; cbn; lia).
    exists pre, r, []. rewrite Hins. split_and!; try done; auto with varc.
    intros x. rewrite covers_app, covers_nil. tauto.
  - replace (length pre =? length pre + length (d :: post))%nat with false
      by (symmetry; apply Nat.eqb_neq; cbn; lia).
    rewrite (list_lookup_total_correct _ _ d) by (by rewrite list_lookup_middle).
    pose proof Hwpost as Hwp. apply wf_cons in Hwpost as (Hd&Hsep&Hwpost).
    pose proof Hpost as Hpost'. apply Forall_cons in Hpost as [Hrd Hpost].
    destruct (merge r d) as [m|] eqn:Hm.
    + apply merge_Some in Hm as (Hvm&Hpm&Htouch&Hend); [|done..].
      exists pre, m, post. rewrite insert_app_r_alt, Nat.sub_diag by lia. cbn [insert list_insert].
      rewrite Hpm. split_and!; try done.
      intros x. rewrite covers_app, covers_cons.
      assert (x ∈ m <-> x ∈ d \/ x ∈ r) as ->; [|tauto].
      clear -Hr Hd Hvm Hpm Htouch Hend Hrd. range_arith; lia.
    + exists pre, r, (d :: post). rewrite Hins. split_and!; try done.
      intros x. rewrite covers_app. tauto.
Qed.

Lemma Insert_correct rs r :
  wf rs -> in_bounds r ->
  wf (Ranges_Insert rs r) /\ (forall x, covers (Ranges_Insert rs r) x <-> covers rs x \/ x ∈ r).
Proof.
  intros Hwf Hr. destruct (Range_IsEmpty r) eqn:He.
  - unfold Ranges_Insert. rewrite He. split; [done|]. intros x.
    assert (x ∈ r -> False); [|tauto]. range_arith; [lia|done].
  - destruct (Insert_shape rs r) as (pre&c&post&->&?&?&?&?&?&Hx); [auto with varc..|].
    destruct (coalesce_wf pre c post) as [Hw Hc]; [done..|].
    split; [done|]. intros x. rewrite Hc. apply Hx.
Qed.

(** ** Extensionality: the representation is canonical *)

Lemma covers_ge a rs x : wf (a :: rs) -> covers (a :: rs) x -> Pos a <= x.
Proof.
  intros Hwf Hx. apply wf_cons in Hwf as (Ha&Hsep&_).
  apply covers_cons in Hx as [Hx|Hx]; [range_arith; lia|].
  apply Exists_exists in Hx as (b&Hb&Hx). rewrite Forall_forall in Hsep.
  specialize (Hsep b Hb). range_arith; lia.
Qed.

Lemma covers_gap a rs x : wf (a :: rs) -> covers rs x -> Pos a + Size a < x.
Proof.
  intros Hwf Hx. apply wf_cons in Hwf as (Ha&Hsep&_).
  apply Exists_exists in Hx as (b&Hb&Hx). rewrite Forall_forall in Hsep.
  specialize (Hsep b Hb). range_arith; lia.
Qed.

Lemma covers_head a rs : wf (a :: rs) -> covers (a :: rs) (Pos a).
Proof. rewrite wf_cons, covers_cons. intros [? _]. left. range_arith; lia. Qed.

(** The first byte after a segment is never covered. *)
Lemma not_covers_end rs a : wf rs -> a ∈ rs -> ~ covers rs (Pos a + Size a).
Proof.
  intros Hwf Ha Hx. apply Exists_exists in Hx as (b&Hb&Hx).
  apply list_elem_of_lookup in Ha as [i Hi], Hb as [j Hj].
  destruct (Nat.lt_trichotomy i j) as [Hij|[->|Hij]].
  - pose proof (wf_lookup_lt _ _ _ _ _ Hwf Hi Hj Hij). range_arith; lia.
  - simplify_eq. range_arith; lia.
  - pose proof (wf_lookup_lt _ _ _ _ _ Hwf Hj Hi Hij).
    pose proof (wf_lookup_valid _ _ _ Hwf Hi). range_arith; lia.
Qed.

Lemma wf_head_le a b rs bs :
  wf (a :: rs) -> wf (b :: bs) -> (forall x, covers (a :: rs) x <-> covers (b :: bs) x) ->
  Pos b <= Pos a /\ (Pos a = Pos b -> Pos a + Size a <= Pos b + Size b).
Proof.
  intros Ha Hb Hx. split.
  - apply (covers_ge b bs); [done|]. apply Hx. by apply covers_head.
  - intros Heq. assert (~ Pos b + Size b < Pos a + Size a); [|lia]. intros Hlt.
    apply (not_covers_end (b :: bs) b Hb); [by left|]. apply Hx, covers_cons. left.
    apply wf_cons in Hb as [Hb _]. range_arith; lia.
Qed.

Lemma wf_ext rs bs : wf rs -> wf bs -> (forall x, covers rs x <-> covers bs x) -> rs = bs.
Proof.
  revert bs. induction rs as [|a rs IH]; intros [|b bs] Ha Hb Hx.
  - done.
  - exfalso. apply (covers_nil (Pos b)), Hx. by apply covers_head.
  - exfalso. apply (covers_nil (Pos a)), Hx. by apply covers_head.
  - destruct (wf_head_le a b rs bs Ha Hb Hx) as [H1 H2].
    destruct (wf_head_le b a bs rs Hb Ha) as [H3 H4]; [intros x; symmetry; apply Hx|].
    assert (a = b) as -> by (destruct a, b; cbn in *; f_equal; lia).
    f_equal. pose proof Ha as Ha'. pose proof Hb as Hb'.
    apply wf_cons in Ha' as (?&_&?), Hb' as (?&_&?). apply IH; [done..|]. intros x.
    specialize (Hx x). rewrite !covers_cons in Hx.
    pose proof (covers_gap b rs x Ha). pose proof (covers_gap b bs x Hb).
    assert (x ∈ b -> x < Pos b + Size b) by (range_arith; lia).
    split; intros Hc.
    + destruct (proj1 Hx (or_intror Hc)); [|done]. exfalso. intuition lia.
    + destruct (proj2 Hx (or_intror Hc)); [|done]. exfalso. intuition lia.
Qed.

(** ** [Find] *)

Lemma Range_Intersection_spec a r :
  valid a -> valid r ->
  (Range_Intersection a r = mkRange 0 0 /\ (forall x, x ∈ a -> x ∈ r -> False)) \/
  (valid (Range_Intersection a r) /\
   Pos (Range_Intersection a r) = Z.max (Pos a) (Pos r) /\
   Pos (Range_Intersection a r) + Size (Range_Intersection a r)
     = Z.min (Pos a + Size a) (Pos r + Size r)).
Proof.
  intros Ha Hr. unfold Range_Intersection. rewrite !Range_End_eq by auto with varc.
  destruct (Z.leb_spec (Pos r) (Pos a)), (Z.ltb_spec (Pos a) (Pos r + Size r)),
    (Z.leb_spec (Pos a) (Pos r)), (Z.ltb_spec (Pos r) (Pos a + Size a)); cbn [andb orb];
  first [ left; split; [done|]; range_arith; lia | right; range_arith; lia ].
Qed.

(** [Find] on a split slice whose segments before [r] do not reach into [r]. *)
Lemma Find_post_tail pre post r :
  wf (pre ++ post) -> valid r ->
  (forall x, Pos r <= x -> ~ covers pre x) -> Forall (fun a => Pos r <= Pos a) post ->
  forall curr next present,
  (curr, next, present) =
    match post with
    | [] => (r, mkRange 0 0, false)
    | d :: _ =>
      let int := Range_Intersection d r in
      if Range_IsEmpty int then (r, mkRange 0 0, false)
      else if Pos r <? Pos int then
        let curr := mkRange (Pos r) (Pos int -! Pos r) in
        (curr, mkRange (Range_End curr) (Size r -! Size curr), false)
      else (int, mkRange (Range_End int) (Size r -! Size int), true)
    end ->
  find_post (pre ++ post) r curr next present.
Proof.
  intros Hwf Hr Hpre Hpost curr next present.
  assert (Hcov : forall x, Pos r <= x -> covers (pre ++ post) x <-> covers post x).
  { intros x Hx. rewrite covers_app. specialize (Hpre x Hx). tauto. }
  assert (Habsent : (forall x, x ∈ r -> ~ covers post x) ->
            find_post (pre ++ post) r r (mkRange 0 0) false).
  { intros Hno. constructor; try (cbn; lia || done).
    intros x Hx. rewrite Hcov by (range_arith; lia). split; [intros; by destruct (Hno x)|done]. }
  destruct post as [|d post].
  { intros [= -> -> ->]. apply Habsent. intros x _. rewrite covers_nil. tauto. }
  apply Forall_cons in Hpost as [Hrd _].
  pose proof Hwf as Hwf'. apply wf_app in Hwf' as (_&Hwfp&_). pose proof Hwfp as Hd.
  apply wf_cons in Hd as [Hd _].
  assert (Hgap : forall x, x < Pos d -> ~ covers (d :: post) x).
  { intros x Hx Hc. apply covers_ge in Hc; [lia|done]. }
  destruct (Range_Intersection_spec d r Hd Hr) as [[-> Hdis]|(Hv&Hp&He)]; cbn zeta.
  { intros [= -> -> ->]. apply Habsent. intros x Hx. apply Hgap.
    assert (~ Pos d < Pos r + Size r); [|range_arith; lia].
    intros ?. apply (Hdis (Pos d)); range_arith; lia. }
  set (int := Range_Intersection d r) in *. rewrite Z.max_l in Hp by done.
  replace (Range_IsEmpty int) with false by (range_arith; [lia|done]).
  destruct (Z.ltb_spec (Pos r) (Pos int)); intros [= -> -> ->].
  - assert (Hi : i64 (Pos int - Pos r) = Pos int - Pos r) by (range_arith; lia).
    assert (Hi2 : i64 (Size r - (Pos int - Pos r)) = Size r - (Pos int - Pos r)) by (range_arith; lia).
    unfold Range_End. cbn [Pos Size]. rewrite Hi, Hi2.
    replace (i64 (Pos r + (Pos int - Pos r))) with (Pos int) by (range_arith; lia).
    constructor; cbn [Pos Size]; try done; try (range_arith; lia).
    + intros x Hx. rewrite Hcov by (range_arith; lia). split; [|done]. intros Hc.
      destruct (Hgap x); [range_arith; lia|done].
    + intros _. rewrite Hcov by lia. split; [done|]. intros _. rewrite Hp. by apply covers_head.
  - assert (Hi : i64 (Size r - Size int) = Size r - Size int) by (range_arith; lia).
    rewrite Range_End_eq, Hi by auto with varc.
    constructor; cbn [Pos Size]; try done; try (range_arith; lia).
    + intros x Hx. rewrite Hcov by (range_arith; lia). split; [done|]. intros _.
      apply covers_cons. left. range_arith; lia.
    + intros Hs. rewrite Hcov by (range_arith; lia). split; [|done]. intros Hc. exfalso.
      apply (not_covers_end (d :: post) d); [done|by left|].
      replace (Pos d + Size d) with (Pos int + Size int) by (range_arith; lia). done.
    + intros Hs _. exists d. split; [rewrite elem_of_app; right; by left|]. range_arith; lia.
Qed.

Lemma Find_correct rs r :
  wf rs -> valid r ->
  find_post rs r (Ranges_Find rs r).1.1 (Ranges_Find rs r).1.2 (Ranges_Find rs r).2.
Proof.
  intros Hwf Hr. unfold Ranges_Find.
  replace (Range_IsEmpty r) with false by (range_arith; [lia|done]).
  destruct (search_split rs r Hwf) as (pre&post&->&->&Hpre&Hpost).
  assert (Htail : (forall x, Pos r <= x -> ~ covers pre x) ->
    let res := (if (length (pre ++ post) <=? length pre)%nat then (r, mkRange 0 0, false)
     else
      let int := Range_Intersection ((pre ++ post) !!! length pre) r in
      if Range_IsEmpty int then (r, mkRange 0 0, false)
      else if Pos r <? Pos int then
        let curr := mkRange (Pos r) (Pos int -! Pos r) in
        (curr, mkRange (Range_End curr) (Size r -! Size curr), false)
      else (int, mkRange (Range_End int) (Size r -! Size int), true)) in
    find_post (pre ++ post) r res.1.1 res.1.2 res.2).
  { intros Hno. apply Find_post_tail; [done..|].
    destruct post as [|d post]; rewrite length_app; cbn [length].
    - destruct (Nat.leb_spec (length pre + 0) (length pre)); [done|lia].
    - destruct (Nat.leb_spec (length pre + S (length post)) (length pre)); [lia|].
      rewrite (list_lookup_total_correct _ _ d) by (by rewrite list_lookup_middle).
      by destruct (if Range_IsEmpty _ then _ else _) as [[??]?]. }
  destruct pre as [|p pre _] using rev_ind; cbn [length].
  { apply Htail. intros x _. rewrite covers_nil. tauto. }
  replace (0 <? length (pre ++ [p]))%nat with true
    by (symmetry; apply Nat.ltb_lt; rewrite length_app; cbn; lia).
  replace (length (pre ++ [p]) - 1)%nat with (length pre) by (rewrite length_app; cbn; lia).
  rewrite (list_lookup_total_correct _ _ p).
  2:{ rewrite <- app_assoc; cbn [app]. by rewrite list_lookup_middle. }
  pose proof Hwf as Hwf'. apply wf_app in Hwf' as (Hwp&_&_).
  pose proof Hwp as Hwp'. apply wf_app in Hwp' as (Hwpre&Hp&Hpp). apply wf_cons in Hp as [Hp _].
  apply Forall_app in Hpre as [_ Hpr]. apply Forall_cons in Hpr as [Hpr _].
  destruct (Range_Intersection_spec p r Hp Hr) as [[-> Hdis]|(Hv&Hpi&He)].
  - apply Htail. clear Htail. intros x Hx Hc. rewrite covers_app, covers_cons, covers_nil in Hc.
    assert (Pos p + Size p <= Pos r).
    { apply Z.nlt_ge. intros ?. apply (Hdis (Pos r)); range_arith; lia. }
    destruct Hc as [Hc|[Hc|[]]]; [|range_arith; lia].
    apply Exists_exists in Hc as (b&Hb&Hxb). rewrite Forall_forall in Hpp.
    specialize (Hpp b Hb). apply Forall_cons in Hpp as [Hpp _]. range_arith; lia.
  - clear Htail. set (int := Range_Intersection p r) in *. rewrite Z.max_r in Hpi by lia.
    replace (Range_IsEmpty int) with false by (range_arith; [lia|done]). cbn [negb andb fst snd].
    assert (Hi : i64 (Size r - Size int) = Size r - Size int) by (range_arith; lia).
    rewrite Range_End_eq, Hi by auto with varc.
    assert (Hin : p ∈ (pre ++ [p]) ++ post).
    { rewrite !elem_of_app. left. right. by left. }
    constructor; cbn [Pos Size]; try done; try (range_arith; lia).
    + intros x Hx. split; [done|]. intros _. apply Exists_exists. exists p. split; [done|].
      range_arith; lia.
    + intros Hs. split; [|done]. intros Hc. exfalso. apply (not_covers_end _ p Hwf Hin).
      replace (Pos p + Size p) with (Pos int + Size int) by (range_arith; lia). done.
    + intros Hs _. exists p. split; [done|]. range_arith; lia.
Qed.

(** ** The loops over [Find] *)

Lemma count_after_le rs pos pos' : pos <= pos' -> (count_after rs pos' <= count_after rs pos)%nat.
Proof.
  intros Hle. unfold count_after. induction rs as [|a rs IH]; [done|].
  rewrite !filter_cons. repeat case_decide; cbn [length]; lia.
Qed.

Lemma count_after_lt rs pos pos' a :
  pos <= pos' -> a ∈ rs -> pos < Pos a + Size a <= pos' ->
  (count_after rs pos' < count_after rs pos)%nat.
Proof.
  intros Hle Ha Hb. induction rs as [|b rs IH]; [by apply not_elem_of_nil in Ha|].
  pose proof (count_after_le rs pos pos' Hle) as Hmono.
  unfold count_after in *. rewrite !filter_cons.
  apply elem_of_cons in Ha as [->|Ha].
  - rewrite decide_False by lia. rewrite decide_True by lia. cbn. lia.
  - specialize (IH Ha). repeat case_decide; cbn; lia.
Qed.

Lemma count_after_length rs pos : (count_after rs pos <= length rs)%nat.
Proof. unfold count_after. apply length_filter. Qed.

Lemma find_post_fuel rs r curr next present fuel :
  valid r -> find_post rs r curr next present -> fuel_enough rs r (S fuel) -> fuel_enough rs next fuel.
Proof.
  intros Hr [Hp Hv Hs Hn Hnn Hpr Hmax Hend] Hf. unfold fuel_enough in *.
  destruct (decide (Size next <= 0)) as [|Hne]; [by left|right].
  destruct Hn as [Hvn Hpn]; [lia|].
  assert (Hle : Pos r <= Pos next) by (range_arith; lia).
  assert (Hcov : covers rs (Pos r) <-> present = true).
  { rewrite <- Hp. apply Hpr. range_arith; lia. }
  destruct present.
  - destruct Hend as (a&Ha&Hea&Hra); [lia|done|]. left.
    pose proof (count_after_lt rs (Pos r) (Pos next) a Hle Ha ltac:(lia)).
    destruct Hf as [Hf|[Hf|[_ Hf]]]; [range_arith; lia|lia|lia].
  - right. split; [by apply Hmax; [lia|]|].
    pose proof (count_after_le rs _ _ Hle).
    destruct Hf as [Hf|[Hf|[Hf _]]]; [range_arith; lia|lia|]. apply Hcov in Hf. done.
Qed.

Lemma fuel_enough_start rs r : fuel_enough rs r (S (S (2 * length rs))).
Proof. right. left. pose proof (count_after_length rs (Pos r)). lia. Qed.

Lemma FindAll_loop_correct rs : wf rs -> forall fuel r,
  in_bounds r -> fuel_enough rs r fuel ->
  let frs := FindAll_loop fuel rs r in
  tiles (Pos r) frs (Pos r + Z.max 0 (Size r)) /\ Forall (found_ok rs) frs /\ alternates frs.
Proof.
  intros Hwf. induction fuel as [|fuel IH]; intros r Hb Hf; cbn [FindAll_loop].
  { assert (Size r <= 0).
    { destruct Hf as [?|[?|[Hc ?]]]; [done|lia|]. exfalso.
      assert (count_after rs (Pos r) = 0)%nat as H0 by lia.
      apply Exists_exists in Hc as (a&Ha&Hx). apply nil_length_inv in H0.
      assert (a ∈ filter (fun a => Pos r < Pos a + Size a) rs) as Hin.
      { apply list_elem_of_filter. split; [range_arith; lia|done]. }
      rewrite H0 in Hin. by apply not_elem_of_nil in Hin. }
    split_and!; [cbn; lia|constructor|done]. }
  destruct (Range_IsEmpty r) eqn:He.
  { split_and!; [|constructor|done]. cbn. range_arith; [lia|done]. }
  assert (Hr : valid r) by auto with varc.
  pose proof (Find_correct rs r Hwf Hr) as Hpost.
  destruct (Ranges_Find rs r) as [[curr next] present]. cbn [fst snd] in Hpost.
  pose proof (find_post_fuel _ _ _ _ _ _ Hr Hpost Hf) as Hf'.
  destruct Hpost as [Hp Hv Hs Hn Hnn Hpr Hmax Hend].
  destruct (decide (Size next <= 0)) as [Hz|Hz].
  - assert (Hnil : FindAll_loop fuel rs next = []).
    { destruct fuel; [done|]. cbn [FindAll_loop]. unfold Range_IsEmpty.
      by replace (Size next <=? 0) with true by (symmetry; apply Z.leb_le; lia). }
    rewrite Hnil. cbn. split_and!; try done; try (range_arith; lia).
    apply Forall_singleton. by split.
  - destruct Hn as [Hvn Hpn]; [lia|].
    destruct (IH next) as (Ht&Hok&Halt); [auto with varc|done|].
    split_and!.
    + cbn. split_and!; [done|range_arith; lia|]. rewrite <- Hp, <- Hpn.
      replace (Pos curr + _) with (Pos next + Z.max 0 (Size next)) by (range_arith; lia). done.
    + constructor; [|done]. by split.
    + cbn in *. destruct (FindAll_loop fuel rs next) as [|fr frs]; [done|].
      split; [|done]. cbn in Ht |- *. destruct Ht as (Hpf&Hsf&_).
      apply Forall_cons in Hok as [[Hvf Hok] _].
      specialize (Hok (Pos next)). rewrite Hmax in Hok by lia.
      assert (Pos next ∈ FR_R fr) as Hin by (range_arith; lia). specialize (Hok Hin).
      destruct present, (FR_Present fr); intuition congruence.
Qed.

Lemma FindAll_correct rs r :
  wf rs -> in_bounds r ->
  tiles (Pos r) (Ranges_FindAll rs r) (Pos r + Z.max 0 (Size r)) /\
  Forall (found_ok rs) (Ranges_FindAll rs r) /\ alternates (Ranges_FindAll rs r).
Proof.
  intros Hwf Hb. apply FindAll_loop_correct; [done..|]. apply fuel_enough_start.
Qed.

Lemma tiles_covers frs : forall pos e, tiles pos frs e ->
  pos <= e /\ (forall x, pos <= x < e -> Exists (fun fr => x ∈ FR_R fr) frs) /\
  Forall (fun fr => forall x, x ∈ FR_R fr -> pos <= x < e) frs.
Proof.
  induction frs as [|fr frs IH]; intros pos e; cbn [tiles].
  - intros ->. split_and!; [lia|intros; lia|constructor].
  - intros (Hp&Hs&Ht). destruct (IH _ _ Ht) as (Hle&Hex&Hall). split_and!; [lia| |].
    + intros x Hx. apply Exists_cons. destruct (decide (x < pos + Size (FR_R fr))).
      * left. range_arith; lia.
      * right. apply Hex. lia.
    + constructor; [intros x Hx; range_arith; lia|].
      eapply Forall_impl; [exact Hall|]. cbn. intros a Ha x Hx. specialize (Ha x Hx). lia.
Qed.

Lemma Intersection_loop_fold rs fuel : forall r acc,
  Intersection_loop fuel rs r acc =
  fold_left (fun acc fr => if FR_Present fr then Ranges_Insert acc (FR_R fr) else acc)
    (FindAll_loop fuel rs r) acc.
Proof.
  induction fuel as [|fuel IH]; intros r acc; cbn [Intersection_loop FindAll_loop]; [done|].
  destruct (Range_IsEmpty r); [done|].
  destruct (Ranges_Find rs r) as [[curr next] present]. cbn. apply IH.
Qed.

Lemma fold_Insert_correct frs : forall acc,
  wf acc -> Forall (fun fr => valid (FR_R fr)) frs ->
  let res := fold_left (fun acc fr => if FR_Present fr then Ranges_Insert acc (FR_R fr) else acc) frs acc in
  wf res /\ (forall x, covers res x <->
    covers acc x \/ Exists (fun fr => FR_Present fr = true /\ x ∈ FR_R fr) frs).
Proof.
  induction frs as [|fr frs IH]; intros acc Hacc Hv; cbn [fold_left].
  - split; [done|]. intros x. rewrite Exists_nil. tauto.
  - apply Forall_cons in Hv as [Hfr Hv].
    destruct (FR_Present fr) eqn:Hp.
    + destruct (Insert_correct acc (FR_R fr)) as [Hw Hc]; [done|auto with varc|].
      destruct (IH (Ranges_Insert acc (FR_R fr))) as [Hw' Hc']; [done..|].
      split; [done|]. intros x. rewrite Hc', Hc, Exists_cons, Hp. tauto.
    + destruct (IH acc) as [Hw' Hc']; [done..|].
      split; [done|]. intros x. rewrite Hc', Exists_cons, Hp. naive_solver.
Qed.

Lemma Intersection_correct rs r :
  wf rs -> in_bounds r ->
  wf (Ranges_Intersection rs r) /\
  (forall x, covers (Ranges_Intersection rs r) x <-> covers rs x /\ x ∈ r).
Proof.
  intros Hwf Hb. unfold Ranges_Intersection.
  destruct (Nat.eqb_spec (length rs) 0) as [H0|_].
  { apply nil_length_inv in H0 as ->. split; [done|]. intros x. rewrite covers_nil. tauto. }
  rewrite Intersection_loop_fold.
  destruct (FindAll_correct rs r Hwf Hb) as (Ht&Hok&_).
  change (FindAll_loop _ _ _) with (Ranges_FindAll rs r).
  destruct (fold_Insert_correct (Ranges_FindAll rs r) []) as [Hw Hc]; [auto with varc| |].
  { eapply Forall_impl; [exact Hok|]. by intros fr [? _]. }
  split; [done|]. intros x. rewrite Hc, covers_nil.
  apply tiles_covers in Ht as (_&Hex&Hin).
  rewrite Forall_forall in Hok, Hin. split.
  - intros [[]|Hx]. apply Exists_exists in Hx as (fr&Hfr&Hp&Hx).
    destruct (Hok fr Hfr) as [_ Hokx]. split; [by apply Hokx|].
    specialize (Hin fr Hfr x Hx). range_arith; lia.
  - intros [Hcx Hx]. right. destruct (Exists_exists (fun fr => x ∈ FR_R fr) (Ranges_FindAll rs r)) as [Hexx _].
    destruct Hexx as (fr&Hfr&Hx'); [apply Hex; range_arith; lia|].
    apply Exists_exists. exists fr. split; [done|]. split; [|done].
    by apply (proj2 (Hok fr Hfr) x Hx').
Qed.

Lemma fold_Insert_wf l : forall acc,
  wf acc -> Forall in_bounds l ->
  wf (fold_left Ranges_Insert l acc) /\
  (forall x, covers (fold_left Ranges_Insert l acc) x <-> covers acc x \/ Exists (fun r => x ∈ r) l).
Proof.
  induction l as [|r l IH]; intros acc Hacc Hl; cbn [fold_left].
  - split; [done|]. intros x. rewrite Exists_nil. tauto.
  - apply Forall_cons in Hl as [Hr Hl]. destruct (Insert_correct acc r Hacc Hr) as [Hw Hc].
    destruct (IH (Ranges_Insert acc r)) as [Hw' Hc']; [done..|]. split; [done|].
    intros x. rewrite Hc', Hc, Exists_cons. tauto.
Qed.

(** ** [Present], [FindMissing], [Size], [Equal] *)

Lemma Present_correct rs r :
  wf rs -> in_bounds r -> Ranges_Present rs r = true <-> (forall x, x ∈ r -> covers rs x).
Proof.
  intros Hwf Hb. unfold Ranges_Present. destruct (Range_IsEmpty r) eqn:He.
  { split; [|done]. intros _ x Hx. exfalso. range_arith; [lia|done]. }
  assert (Hr : valid r) by auto with varc.
  pose proof (Find_correct rs r Hwf Hr) as Hpost.
  destruct (Ranges_Find rs r) as [[curr next] present]. cbn [fst snd] in Hpost.
  destruct Hpost as [Hp Hv Hs Hn Hnn Hpr Hmax _].
  destruct present; cbn [negb].
  - unfold Range_IsEmpty. destruct (Z.leb_spec (Size next) 0).
    + split; [|done]. intros _ x Hx. apply Hpr; [range_arith; lia|done].
    + split; [done|]. intros Hall. destruct Hn as [Hvn Hpn]; [lia|].
      assert (covers rs (Pos next)) as Hc by (apply Hall; range_arith; lia).
      apply Hmax in Hc; [done|lia].
  - split; [done|]. intros Hall. specialize (Hall (Pos r)).
    apply (Hpr (Pos r)); [range_arith; lia|]. apply Hall. range_arith; lia.
Qed.

Lemma FindMissing_correct rs r :
  wf rs -> in_bounds r ->
  let out := Ranges_FindMissing rs r in
  Pos out + Size out = Pos r + Size r /\ Pos r <= Pos out /\ (0 <= Size r -> 0 <= Size out) /\
  (forall x, Pos r <= x < Pos out -> covers rs x) /\
  (0 < Size out -> ~ covers rs (Pos out)).
Proof.
  intros Hwf Hb. unfold Ranges_FindMissing. destruct (Range_IsEmpty r) eqn:He.
  { split_and!; try (intros; lia). intros. exfalso. range_arith; [lia|done]. }
  assert (Hr : valid r) by auto with varc.
  pose proof (Find_correct rs r Hwf Hr) as Hpost.
  destruct (Ranges_Find rs r) as [[curr next] present]. cbn [fst snd] in Hpost.
  destruct Hpost as [Hp Hv Hs Hn Hnn Hpr Hmax _].
  destruct present; cbn [negb Pos Size].
  - rewrite Range_End_eq by auto with varc.
    assert (Hi : i64 (Size r - i64 (Pos curr + Size curr - Pos r)) = Size next) by (range_arith; lia).
    rewrite Hi. split_and!; try (range_arith; lia).
    + intros x Hx. apply Hpr; [range_arith; lia|done].
    + intros Hlt Hc. destruct Hn as [_ Hpn]; [lia|]. rewrite <- Hpn in Hc.
      apply Hmax in Hc; [done|lia].
  - split_and!; try (intros; lia). intros _ Hc.
    apply Hpr in Hc; [done|range_arith; lia].
Qed.

Lemma elem_of_covered rs x : x ∈ covered rs <-> covers rs x.
Proof.
  unfold covered, covers. rewrite list_elem_of_bind, Exists_exists.
  setoid_rewrite elem_of_seqZ. unfold elem_of at 3, Range_elem. naive_solver.
Qed.

Lemma NoDup_covered rs : wf rs -> NoDup (covered rs).
Proof.
  induction rs as [|a rs IH]; intros Hwf; [constructor|].
  unfold covered in *. cbn. apply NoDup_app. split_and!; [apply NoDup_seqZ| |].
  - intros x Hx Hc. change (x ∈ covered rs) in Hc. apply elem_of_covered in Hc.
    pose proof (covers_gap a rs x Hwf Hc). apply elem_of_seqZ in Hx. lia.
  - apply IH. by apply wf_cons in Hwf as (_&_&?).
Qed.

Lemma covered_bound rs lo : wf rs -> Forall (fun a => lo <= Pos a) rs -> lo <= MaxInt64 ->
  Z.of_nat (length (covered rs)) <= MaxInt64 - lo.
Proof.
  revert lo. induction rs as [|a rs IH]; intros lo Hwf Hlo Hmax; [cbn; lia|].
  apply wf_cons in Hwf as (Ha&Hsep&Hwf). apply Forall_cons in Hlo as [Hla _].
  unfold covered in *. cbn. rewrite length_app, length_seqZ.
  assert (Hlo : Forall (fun b => Pos a + Size a <= Pos b) rs).
  { eapply Forall_impl; [exact Hsep|]. cbn. intros b Hb. range_arith; lia. }
  specialize (IH (Pos a + Size a) Hwf Hlo). range_arith; lia.
Qed.

Lemma Size_fold rs : forall n, wf rs -> 0 <= n -> n + Z.of_nat (length (covered rs)) <= MaxInt64 ->
  fold_left (fun size r => size +! Size r) rs n = n + Z.of_nat (length (covered rs)).
Proof.
  induction rs as [|a rs IH]; intros n Hwf Hn Hb; [cbn; lia|].
  apply wf_cons in Hwf as (Ha&_&Hwf). unfold covered in *. cbn [mbind list_bind fold_left] in *.
  rewrite length_app, length_seqZ in *.
  assert (Hi : n +! Size a = n + Size a) by (range_arith; lia). rewrite Hi.
  rewrite IH; [range_arith; lia|done|range_arith; lia|range_arith; lia].
Qed.

Lemma Size_covered rs : wf rs -> Ranges_Size rs = Z.of_nat (length (covered rs)).
Proof.
  intros Hwf. unfold Ranges_Size. rewrite Size_fold; [lia|done|lia|].
  pose proof (covered_bound rs 0 Hwf) as Hb. apply Z.le_trans with (MaxInt64 - 0); [|lia].
  apply Hb; [|unfold MaxInt64; lia].
  destruct Hwf as [Hv _]. eapply Forall_impl; [exact Hv|]. unfold valid. naive_solver.
Qed.

Lemma Size_nil rs : wf rs -> Ranges_Size rs = 0 -> rs = [].
Proof.
  intros Hwf Hz. rewrite Size_covered in Hz by done. unfold covered in Hz. destruct rs as [|r rs]; [done|]. exfalso.
  destruct Hwf as [[[? [? ?]] _]%Forall_cons _]. cbn in Hz. rewrite length_app, length_seqZ in Hz. lia.
Qed.

Lemma Equal_correct rs bs : Ranges_Equal rs bs = true <-> rs = bs.
Proof.
  unfold Ranges_Equal. destruct (Nat.eqb_spec (length rs) (length bs)) as [Hl|Hl].
  - revert bs Hl. induction rs as [|r rs IH]; intros [|b bs] Hl; try done.
    cbn. rewrite !andb_true_iff, !Z.eqb_eq, IH by (cbn in Hl; lia).
    destruct r, b; cbn. naive_solver.
  - split; [done|]. intros ->. lia.
Qed.

(** ** Properties of the package *)

(** Closes well-formedness goals about concrete ranges. *)
Ltac solve_ranges :=
  repeat first [ rewrite wf_cons | rewrite Forall_cons | apply conj | apply Forall_nil_2 | apply wf_nil ];
  unfold valid, in_bounds, sep, MinInt64, MaxInt64; cbn; lia.

(** C14. [Insert] keeps a slice of ranges sorted and coalesced (segments
    nonempty, in order and separated by at least one missing byte), whatever
    range is inserted, and the bytes of the result are exactly those of the
    slice and those of the range. *)
Theorem Ranges_Insert_refines_union rs r :
  wf rs -> in_bounds r ->
  wf (Ranges_Insert rs r) /\ (forall x, covers (Ranges_Insert rs r) x <-> covers rs x \/ x ∈ r).
Proof. apply Insert_correct. Qed.

Lemma Ranges_Insert_refines_union_witness :
  let rs := [mkRange 0 4; mkRange 8 4; mkRange 20 1] in
  Ranges_Insert rs (mkRange 3 6) = [mkRange 0 12; mkRange 20 1] /\
  wf (Ranges_Insert rs (mkRange 3 6)) /\
  (forall x, covers (Ranges_Insert rs (mkRange 3 6)) x <-> covers rs x \/ x ∈ mkRange 3 6).
Proof.
  split; [vm_compute; reflexivity|]. apply Ranges_Insert_refines_union; solve_ranges.
Defined.

(** C34. The slice built by [Insert] from nothing is a canonical form: inserting
    the same ranges in any order (with any overlaps) gives the same slice. *)
Theorem Ranges_Insert_order_irrelevant (l l' : list Range) :
  Forall in_bounds l -> l ≡ₚ l' ->
  fold_left Ranges_Insert l [] = fold_left Ranges_Insert l' [].
Proof.
  intros Hl Hp.
  assert (Hl' : Forall in_bounds l') by (by rewrite <- Hp).
  destruct (fold_Insert_wf l []) as [Hw Hc]; [auto with varc|done|].
  destruct (fold_Insert_wf l' []) as [Hw' Hc']; [auto with varc|done|].
  apply wf_ext; [done..|]. intros x. rewrite Hc, Hc', !Exists_exists. by setoid_rewrite Hp.
Qed.

Lemma Ranges_Insert_order_irrelevant_witness :
  fold_left Ranges_Insert [mkRange 0 4; mkRange 8 4; mkRange 3 6] [] = [mkRange 0 12] /\
  fold_left Ranges_Insert [mkRange 0 4; mkRange 8 4; mkRange 3 6] []
  = fold_left Ranges_Insert [mkRange 3 6; mkRange 8 4; mkRange 0 4] [].
Proof.
  split; [vm_compute; reflexivity|]. apply Ranges_Insert_order_irrelevant.
  - solve_ranges.
  - apply (Permutation_rev [mkRange 0 4; mkRange 8 4; mkRange 3 6]).
Defined.

(** [FindAll] returns (so its loop over [Find] ends) the coarsest partition
    of [r] into present and absent ranges: the ranges it returns are nonempty,
    tile [r] from left to right without gap or overlap, every byte of a range
    is covered by the slice exactly when the range is flagged present, and
    neighbouring ranges differ in their flag. *)
Lemma Ranges_FindAll_partition rs r :
  wf rs -> in_bounds r ->
  tiles (Pos r) (Ranges_FindAll rs r) (Pos r + Z.max 0 (Size r)) /\
  Forall (found_ok rs) (Ranges_FindAll rs r) /\ alternates (Ranges_FindAll rs r).
Proof. apply FindAll_correct. Qed.

Lemma Ranges_FindAll_partition_witness :
  let rs := [mkRange 0 4; mkRange 8 4] in
  Ranges_FindAll rs (mkRange 2 20) =
    [mkFound (mkRange 2 2) true; mkFound (mkRange 4 4) false;
     mkFound (mkRange 8 4) true; mkFound (mkRange 12 10) false] /\
  tiles 2 (Ranges_FindAll rs (mkRange 2 20)) (2 + Z.max 0 20) /\
  Forall (found_ok rs) (Ranges_FindAll rs (mkRange 2 20)) /\
  alternates (Ranges_FindAll rs (mkRange 2 20)).
Proof.
  split; [vm_compute; reflexivity|].
  apply (Ranges_FindAll_partition [mkRange 0 4; mkRange 8 4] (mkRange 2 20)); solve_ranges.
Defined.

(** [Intersection] returns a well-formed slice that covers exactly the bytes
    of [r] the receiver covers (so it clips segments that only overlap [r]). *)
Lemma Ranges_Intersection_refines_inter rs r :
  wf rs -> in_bounds r ->
  wf (Ranges_Intersection rs r) /\
  (forall x, covers (Ranges_Intersection rs r) x <-> covers rs x /\ x ∈ r).
Proof. apply Intersection_correct. Qed.

Lemma Ranges_Intersection_refines_inter_witness :
  let rs := [mkRange 0 4; mkRange 8 4; mkRange 20 9] in
  Ranges_Intersection rs (mkRange 2 20) = [mkRange 2 2; mkRange 8 4; mkRange 20 2] /\
  wf (Ranges_Intersection rs (mkRange 2 20)) /\
  (forall x, covers (Ranges_Intersection rs (mkRange 2 20)) x <-> covers rs x /\ x ∈ mkRange 2 20).
Proof.
  split; [vm_compute; reflexivity|]. apply Ranges_Intersection_refines_inter; solve_ranges.
Defined.

(** [FindMissing] returns the suffix of [r] that starts at its first missing
    byte: the end is that of [r], every byte before the suffix is covered, the
    first byte of a nonempty suffix is not, and the suffix is empty exactly
    when [Present] holds of [r]. *)
Lemma Ranges_FindMissing_first_gap rs r :
  wf rs -> in_bounds r -> 0 <= Size r ->
  let out := Ranges_FindMissing rs r in
  Range_End out = Range_End r /\ Pos r <= Pos out /\
  (forall x, Pos r <= x < Pos out -> covers rs x) /\
  (Range_IsEmpty out = false -> ~ covers rs (Pos out)) /\
  (Range_IsEmpty out = true <-> Ranges_Present rs r = true).
Proof.
  intros Hwf Hb Hs.
  destruct (FindMissing_correct rs r Hwf Hb) as (He&Hle&Hnn&Hcov&Hgap). specialize (Hnn Hs).
  set (out := Ranges_FindMissing rs r) in *. cbn zeta.
  split_and!; [range_arith; lia|done|done| |].
  - intros Hne. apply Hgap. range_arith; [done|lia].
  - rewrite Present_correct by done. split.
    + intros Hempty x Hx. apply Hcov. range_arith; [lia|done].
    + intros Hall. unfold Range_IsEmpty. apply Z.leb_le.
      destruct (decide (Size out <= 0)) as [|Hpos]; [lia|]. exfalso.
      apply Hgap; [lia|]. apply Hall. range_arith; lia.
Qed.

Lemma Ranges_FindMissing_first_gap_witness :
  let rs := [mkRange 0 4; mkRange 8 4] in
  let out := Ranges_FindMissing rs (mkRange 2 20) in
  out = mkRange 4 18 /\
  Range_End out = Range_End (mkRange 2 20) /\ 2 <= Pos out /\
  (forall x, 2 <= x < Pos out -> covers rs x) /\
  (Range_IsEmpty out = false -> ~ covers rs (Pos out)) /\
  (Range_IsEmpty out = true <-> Ranges_Present rs (mkRange 2 20) = true).
Proof.
  split; [vm_compute; reflexivity|].
  apply (Ranges_FindMissing_first_gap [mkRange 0 4; mkRange 8 4] (mkRange 2 20)); [solve_ranges..|].
  cbn. lia.
Defined.

(** [Size] is the number of bytes covered (no sum overflows), so that an
    insertion grows it by exactly the number of bytes of [r] that were missing. *)
Lemma Ranges_Size_counts rs r :
  wf rs -> in_bounds r ->
  Ranges_Size rs = Z.of_nat (length (covered rs)) /\ NoDup (covered rs) /\
  Ranges_Size (Ranges_Insert rs r) =
    Ranges_Size rs + Z.of_nat (length (filter (fun x => x ∉ covered rs) (seqZ (Pos r) (Size r)))).
Proof.
  intros Hwf Hb. destruct (Insert_correct rs r Hwf Hb) as [Hw Hc].
  rewrite !Size_covered by done. split_and!; [done|by apply NoDup_covered|].
  rewrite <- Nat2Z.inj_add, <- length_app. f_equal. apply Permutation_length, NoDup_Permutation.
  - by apply NoDup_covered.
  - apply NoDup_app. split_and!; [by apply NoDup_covered| |apply NoDup_filter, NoDup_seqZ].
    intros x Hx. rewrite list_elem_of_filter. tauto.
  - intros x. rewrite elem_of_covered, Hc, elem_of_app, list_elem_of_filter, elem_of_seqZ.
    rewrite !elem_of_covered. unfold elem_of at 1, Range_elem.
    destruct (decide (x ∈ covered rs)) as [Hx|Hx]; rewrite elem_of_covered in Hx; tauto.
Qed.

Lemma Ranges_Size_counts_witness :
  let rs := [mkRange 0 4; mkRange 8 4] in
  Ranges_Size rs = Z.of_nat (length (covered rs)) /\ NoDup (covered rs) /\
  Ranges_Size (Ranges_Insert rs (mkRange 3 6)) =
    Ranges_Size rs + Z.of_nat (length (filter (fun x => x ∉ covered rs) (seqZ 3 6))).
Proof.
  apply (Ranges_Size_counts [mkRange 0 4; mkRange 8 4] (mkRange 3 6)); solve_ranges.
Defined.
