(* ===== verification/GoIO.v ===== *)
(** * Readers: the [io] interfaces the engine is written against

    [io.Reader] and [io.Closer] as type classes, the standard library's
    [io.ReadFull] and the program's [readutil.ReadFill]
    ([src/internal/engine/readutil/fill.go]).

    A reader value [r : R] is the state of one open stream; [W] is the state of
    the world behind it (the network), which decides how much a call returns and
    when it fails. *)
From stdpp Require Import base numbers list strings.
From Stdlib Require Import ZArith Lia Init.Byte.
From S2P Require Import Prelude.

Local Open Scope Z_scope.

(** [Read(p)] with [len(p) = n]: the bytes stored in [p], the error, the reader. *)
Class ReadCloser (W R : Type) := {
  rc_Read : nat -> R -> W -> list byte * option error * R * W;
  rc_Close : R -> W -> option error * W
}.

(** What the documentation of [io.Reader] promises of a stream: [rc_rest r] are
    the bytes it still has to deliver (a specification device, not used by the
    code); a call delivers at most [n] of them in order, whatever error it
    returns with them, and [io.EOF] is only returned when none is left. *)
Class ReaderOK (W R : Type) `{ReadCloser W R} := {
  rc_rest : R -> list byte;
  rc_Read_ok : forall n r w d err r' w',
    rc_Read n r w = (d, err, r', w') ->
    (length d <= n)%nat /\ rc_rest r = d ++ rc_rest r' /\
    (err = Some io_EOF -> rc_rest r' = [])
}.

(** A reader that never returns no byte and no error for a nonempty [p]
    (implementations are "discouraged" from it). *)
Class ReaderProgress (W R : Type) `{ReadCloser W R} := {
  rc_Read_progress : forall n r w d r' w',
    (0 < n)%nat -> rc_Read n r w = (d, None, r', w') -> d <> []
}.

Section io.
Context {W R : Type} `{ReadCloser W R}.

(** [readutil.ReadFill]: [n + 1] rounds of fuel are enough for a reader that
    makes progress ([ReadFill_total]). *)
Fixpoint ReadFill (fuel n : nat) (r : R) (w : W) : run (list byte * option error * R * W) :=
  match fuel with
  | O => OutOfFuel
  | S fuel =>
    if (0 <? n)%nat then
      let '(d, err, r', w') := rc_Read n r w in
      match err with
      | Some e => Ret (d, Some e, r', w')
      | None =>
        '(d', err', r'', w'') ← ReadFill fuel (n - length d)%nat r' w';
        Ret (d ++ d', err', r'', w'')
      end
    else Ret ([], None, r, w)
  end.

(** [io.ReadFull], that is [ReadAtLeast(r, buf, len(buf))]: the same loop, and
    an [io.EOF] in the middle of the buffer becomes [io.ErrUnexpectedEOF]. *)
Definition io_ReadFull (fuel n : nat) (r : R) (w : W) : run (list byte * option error * R * W) :=
  '(d, err, r', w') ← ReadFill fuel n r w;
  let err' :=
    if (n <=? length d)%nat then None
    else match err with
         | Some io_EOF => if (0 <? length d)%nat then Some io_ErrUnexpectedEOF else Some io_EOF
         | _ => err
         end in
  Ret (d, err', r', w').

Context `{!ReaderOK W R}.

Lemma ReadFill_ok fuel : forall n r w d err r' w',
  ReadFill fuel n r w = Ret (d, err, r', w') ->
  (length d <= n)%nat /\ rc_rest r = d ++ rc_rest r' /\
  (err = Some io_EOF -> rc_rest r' = []) /\ (err = None -> length d = n).
Proof.
  induction fuel as [|fuel IH]; intros n r w d err r' w'; cbn [ReadFill]; [done|].
  destruct (Nat.ltb_spec 0 n).
  - destruct (rc_Read n r w) as [[[d1 e1] r1] w1] eqn:Hr.
    apply rc_Read_ok in Hr as (Hl&Hrest&Heof).
    destruct e1 as [e|].
    + intros [= <- <- <- <-]. split_and!; done.
    + destruct (ReadFill fuel _ r1 w1) as [[[[d2 e2] r2] w2]| |] eqn:Hf; cbn; [|done..].
      intros [= <- <- <- <-]. apply IH in Hf as (Hl2&Hrest2&Heof2&Hfull).
      rewrite length_app. split_and!; [lia| |done|intros He; specialize (Hfull He); lia].
      by rewrite Hrest, Hrest2, app_assoc.
  - intros [= <- <- <- <-]. split_and!; try done; cbn; lia.
Qed.

Lemma io_ReadFull_ok fuel n r w d err r' w' :
  io_ReadFull fuel n r w = Ret (d, err, r', w') ->
  (length d <= n)%nat /\ rc_rest r = d ++ rc_rest r' /\
  (err = None <-> length d = n) /\ (err = Some io_EOF -> d = [] /\ rc_rest r' = []).
Proof.
  unfold io_ReadFull.
  destruct (ReadFill fuel n r w) as [[[[d1 e1] r1] w1]| |] eqn:Hf; cbn; [|done..].
  intros [= <- <- <- <-]. apply ReadFill_ok in Hf as (Hl&Hrest&Heof&Hfull).
  destruct (Nat.leb_spec n (length d1)).
  - split_and!; [done|done|split; [intros; lia|done]|done].
  - split_and!; [done|done| |].
    + split; [|intros; lia]. intros He. destruct e1 as [[]|]; try done; [|by apply Hfull].
      by destruct d1.
    + destruct e1 as [[]|]; try done. intros He. destruct d1; [|done].
      split; [done|by apply Heof].
Qed.

Context `{!ReaderProgress W R}.

(** Every call makes progress: [n + 1] rounds are enough. *)
Lemma ReadFill_total fuel : forall n r w,
  (n < fuel)%nat -> returns (ReadFill fuel n r w) (fun _ => True).
Proof.
  induction fuel as [|fuel IH]; intros n r w Hn; [lia|]. cbn [ReadFill].
  destruct (Nat.ltb_spec 0 n); [|by eexists].
  destruct (rc_Read n r w) as [[[d1 e1] r1] w1] eqn:Hr.
  destruct e1 as [e|]; [by eexists|].
  apply rc_Read_progress in Hr; [|done].
  assert (0 < length d1)%nat by (destruct d1; cbn; [done|lia]).
  destruct (IH (n - length d1)%nat r1 w1) as ([[[d2 e2] r2] w2]&Hf&_); [lia|].
  rewrite Hf. by eexists.
Qed.
End io.

(** ** A scripted stream

    A concrete reader for the witnesses: the bytes left and a script that says,
    call by call, how many bytes are delivered at most (at least one) and with
    which error.  When the script is over the stream delivers the rest and ends. *)
Record script := mkScript { script_steps : list (nat * option error) }.

Definition scripted_Read (n : nat) (r : list byte) (w : script)
  : list byte * option error * list byte * script :=
  match script_steps w with
  | [] => if (length r =? 0)%nat then ([], Some io_EOF, r, w) else (take n r, None, drop n r, w)
  | (k, err) :: rest =>
    let w' := mkScript rest in
    match err with
    | Some e =>
      let e' := if bool_decide (e = io_EOF) then io_ErrUnexpectedEOF else e in
      (take (min n k) r, Some e', drop (min n k) r, w')
    | None =>
      if (length r =? 0)%nat then ([], Some io_EOF, r, w')
      else (take (min n (S k)) r, None, drop (min n (S k)) r, w')
    end
  end.

#[export] Instance scripted_ReadCloser : ReadCloser script (list byte) := {
  rc_Read := scripted_Read;
  rc_Close := fun _ w => (None, w)
}.

#[export] Instance scripted_ReaderOK : ReaderOK script (list byte).
Proof.
  refine {| rc_rest := fun r => r |}. intros n r w d err r' w'. cbn. unfold scripted_Read.
  destruct (script_steps w) as [|[k [e|]] rest].
  - destruct (Nat.eqb_spec (length r) 0) as [Hz|_]; intros [= <- <- <- <-].
    + apply nil_length_inv in Hz as ->. split_and!; [cbn; lia|done|done].
    + rewrite length_take, take_drop. split_and!; [lia|done|done].
  - intros [= <- <- <- <-]. rewrite length_take, take_drop. split_and!; [lia|done|].
    case_bool_decide; congruence.
  - destruct (Nat.eqb_spec (length r) 0) as [Hz|_]; intros [= <- <- <- <-].
    + apply nil_length_inv in Hz as ->. split_and!; [cbn; lia|done|done].
    + rewrite length_take, take_drop. split_and!; [lia|done|done].
Defined.

#[export] Instance scripted_ReaderProgress : ReaderProgress script (list byte).
Proof.
  constructor. intros n r w d r' w' Hn. cbn. unfold scripted_Read.
  assert (Hne : forall m, (0 < m)%nat -> length r <> 0%nat -> take m r <> []).
  { intros m Hm Hr Ht. apply (f_equal length) in Ht. rewrite length_take in Ht. cbn in Ht. lia. }
  destruct (script_steps w) as [|[k [e|]] rest]; [| |];
    try destruct (Nat.eqb_spec (length r) 0); intros [= <- <- <-]; apply Hne; lia.
Qed.
