(* ===== verification/ObjectIO.v ===== *)
(** * The engine's object contract and the retrying reader

    [src/internal/engine/objectio/object.go] and [retry_reader.go].  The object
    behind the reader is the type class [Object], whose laws [ObjectOK] are the
    contract stated in [src/source/source.go]: a successful open delivers exactly
    the bytes of the requested span, in order, whatever errors interrupt it. *)
From stdpp Require Import base numbers list strings.
From Stdlib Require Import ZArith Lia Init.Byte.
From S2P Require Import Prelude.
From S2P Require Import GoIO.

Local Open Scope Z_scope.
Local Open Scope go_scope.

(** ** object.go *)

(** An inclusive byte range; [SpanEnd < 0] means through EOF. *)
Record Span := mkSpan { Start : Z; SpanEnd : Z }.

Record Config := mkConfig {
  BufferSize : Z; MaxBufferMemory : Z; UseMmap : bool; LowLevelRetries : Z
}.

Definition defaultConfig : Config := mkConfig (16 * 1024 * 1024) 0 false 10.

(** A context is the engine configuration attached to it, if any. *)
Definition WithConfig (ctx : option Config) (cfg : Config) : option Config := Some cfg.
Definition GetConfig (ctx : option Config) : Config :=
  match ctx with Some cfg => cfg | None => defaultConfig end.

Class Object (W R : Type) `{ReadCloser W R} := {
  obj_Size : Z;
  obj_Open : option Span -> W -> (error + R) * W
}.

(** The bytes of [content] a span asks for. *)
Definition span_lo (span : option Span) : Z := match span with Some s => Start s | None => 0 end.
Definition span_hi (size : Z) (span : option Span) : Z :=
  match span with Some s => if SpanEnd s <? 0 then size else SpanEnd s + 1 | None => size end.
Definition span_bytes (content : list byte) (span : option Span) : list byte :=
  slice (span_lo span) (span_hi (Z.of_nat (length content)) span) content.

(** The spans the engine opens. *)
Definition span_ok (span : option Span) : Prop :=
  match span with
  | Some s => 0 <= Start s <= MaxInt64 /\ -1 <= SpanEnd s < MaxInt64
  | None => True
  end.

(** The contract of an object whose bytes are [content]. *)
Class ObjectOK (W R : Type) `{Object W R} `{!ReaderOK W R} (content : list byte) := {
  obj_Size_ok : obj_Size = Z.of_nat (length content);
  obj_Size_max : Z.of_nat (length content) <= MaxInt64;
  obj_Open_ok : forall span w r w',
    span_ok span -> obj_Open span w = (inr r, w') -> rc_rest r = span_bytes content span
}.

(** ** retry_reader.go *)

Record RetryReader (R : Type) := mkRetryReader {
  rr_baseSpan : option Span;
  rr_rc : option R;
  rr_size : Z;
  rr_start : Z;
  rr_end : Z;            (* exclusive; negative means unknown/unbounded *)
  rr_offset : Z;         (* relative to start *)
  rr_maxTries : Z;
  rr_tries : Z;
  rr_err : option error;
  rr_opened : bool
}.
Arguments mkRetryReader {R}.
Arguments rr_baseSpan {R}. Arguments rr_rc {R}. Arguments rr_size {R}. Arguments rr_start {R}.
Arguments rr_end {R}. Arguments rr_offset {R}. Arguments rr_maxTries {R}. Arguments rr_tries {R}.
Arguments rr_err {R}. Arguments rr_opened {R}.

(** The fields a method may change; the others are fixed by [OpenRetrying]. *)
Definition rr_set {R} (h : RetryReader R) (rc : option R) (offset tries : Z)
    (err : option error) (opened : bool) : RetryReader R :=
  mkRetryReader (rr_baseSpan h) rc (rr_size h) (rr_start h) (rr_end h) offset
    (rr_maxTries h) tries err opened.

Section retry.
Context {W R : Type} `{Object W R}.
(** [isNoLowLevelRetryError]: whether an error of the origin carries the
    [NoLowLevelRetry] marker; no type of the program does. *)
Context (isNoLowLevelRetryError : error -> bool).

Definition RetryReader_spanForOpen (h : RetryReader R) : option Span :=
  if rr_offset h =? 0 then rr_baseSpan h
  else
    let end_ := if 0 <=? rr_end h then rr_end h -! 1 else -1 in
    Some (mkSpan (rr_start h +! rr_offset h) end_).

(** [open]: the error and the reader; [rc] is nil after a failed open. *)
Definition RetryReader_open (h : RetryReader R) (w : W) : option error * RetryReader R * W :=
  let tries := rr_tries h +! 1 in
  if rr_maxTries h <? tries then
    let e := errTooManyRetryOpens in
    (Some e, rr_set h (rr_rc h) (rr_offset h) tries (Some e) (rr_opened h), w)
  else
    let '(res, w') := obj_Open (RetryReader_spanForOpen h) w in
    match res with
    | inl e => (Some e, rr_set h None (rr_offset h) tries (Some e) (rr_opened h), w')
    | inr rc => (None, rr_set h (Some rc) (rr_offset h) tries None true, w')
    end.

Definition OpenRetrying (ctx : option Config) (span : option Span) (w : W)
  : (error + RetryReader R) * W :=
  let start := match span with Some s => Start s | None => 0 end in
  let end_ :=
    match span with
    | Some s => if 0 <=? SpanEnd s then SpanEnd s +! 1 else obj_Size
    | None => obj_Size
    end in
  let h := mkRetryReader span None obj_Size start end_ 0
             (LowLevelRetries (GetConfig ctx)) 0 None false in
  let '(err, h', w') := RetryReader_open h w in
  (match err with Some e => inl e | None => inr h' end, w').

Definition RetryReader_reopen (h : RetryReader R) (w : W) : option error * RetryReader R * W :=
  if rr_opened h then
    let h' := rr_set h (rr_rc h) (rr_offset h) (rr_tries h) (rr_err h) false in
    let w' := match rr_rc h with Some rc => (rc_Close rc w).2 | None => w end in
    RetryReader_open h' w'
  else RetryReader_open h w.

(** The loop of [Read]; [n] is what is left of [p]. *)
Fixpoint RetryReader_Read_loop (fuel n : nat) (h : RetryReader R) (w : W)
  : run (list byte * option error * RetryReader R * W) :=
  match fuel with
  | O => OutOfFuel
  | S fuel =>
    if (0 <? n)%nat then
      match rr_rc h with
      | None => Panic
      | Some rc =>
        let '(d, err, rc', w1) := rc_Read n rc w in
        let h1 := rr_set h (Some rc') (rr_offset h +! Z.of_nat (length d)) (rr_tries h)
                    (rr_err h) (rr_opened h) in
        let continue h2 w2 :=
          '(d', err', h', w') ← RetryReader_Read_loop fuel (n - length d)%nat h2 w2;
          Ret (d ++ d', err', h', w') in
        match err with
        | None => continue h1 w1
        | Some e =>
          if bool_decide (e = io_EOF) then Ret (d, Some e, h1, w1)
          else
            let h2 := rr_set h1 (rr_rc h1) (rr_offset h1) (rr_tries h1) (Some e) (rr_opened h1) in
            if isNoLowLevelRetryError e then Ret (d, Some e, h2, w1)
            else
              let '(e', h3, w2) := RetryReader_reopen h2 w1 in
              match e' with
              | None => continue h3 w2
              | Some _ => Ret (d, Some e, h3, w2)
              end
        end
      end
    else Ret ([], None, h, w)
  end.

Definition RetryReader_Read (fuel n : nat) (h : RetryReader R) (w : W)
  : run (list byte * option error * RetryReader R * W) :=
  match rr_err h with
  | Some e => Ret ([], Some e, h, w)
  | None => RetryReader_Read_loop fuel n h w
  end.

Definition RetryReader_Close (h : RetryReader R) (w : W) : option error * RetryReader R * W :=
  if negb (rr_opened h) then (Some errRetryReaderClosed, h, w)
  else
    let h' := rr_set h (rr_rc h) (rr_offset h) (rr_tries h) (Some errRetryReaderClosed) false in
    match rr_rc h with
    | Some rc => let '(e, w') := rc_Close rc w in (e, h', w')
    | None => (None, h', w)
    end.
End retry.

(** ** Correctness of the retrying reader *)

(** The reader describes its span and the offset and tries are in range. *)
Record rr_core {R} (content : list byte) (h : RetryReader R) : Prop := {
  ri_span : span_ok (rr_baseSpan h);
  ri_start : rr_start h = span_lo (rr_baseSpan h);
  ri_start_range : 0 <= rr_start h <= MaxInt64;
  ri_end : rr_end h = span_hi (Z.of_nat (length content)) (rr_baseSpan h);
  ri_end_range : rr_end h <= MaxInt64;
  ri_offset : 0 <= rr_offset h <= Z.of_nat (length (span_bytes content (rr_baseSpan h)));
  ri_tries : 0 <= rr_tries h <= rr_maxTries h + 1;
  ri_max : 0 <= rr_maxTries h < MaxInt64
}.

(** Without a sticky error, the open stream stands [rr_offset] bytes into the span. *)
Record rr_inv {W R} `{ReaderOK W R} (content : list byte) (h : RetryReader R) : Prop := {
  ri_core :> rr_core content h;
  ri_live : rr_err h = None ->
    rr_opened h = true /\ rr_tries h <= rr_maxTries h /\
    exists rc, rr_rc h = Some rc /\
      rc_rest rc = drop (Z.to_nat (rr_offset h)) (span_bytes content (rr_baseSpan h))
}.

Section retry_proofs.
Context {W R : Type} (content : list byte) `{Hok : ObjectOK W R content}.
Context (isNoLowLevelRetryError : error -> bool).
Notation rr_inv := (rr_inv content).
Notation size := (Z.of_nat (length content)).

Lemma span_bytes_length span :
  0 <= span_lo span -> Z.of_nat (length (span_bytes content span)) <= size.
Proof. intros. unfold span_bytes, slice. rewrite length_take, length_drop. lia. Qed.

(** Reopening at the consumed offset asks for the rest of the span. *)
Lemma spanForOpen_bytes (h : RetryReader R) :
  rr_core content h ->
  span_ok (RetryReader_spanForOpen h) /\
  span_bytes content (RetryReader_spanForOpen h)
  = drop (Z.to_nat (rr_offset h)) (span_bytes content (rr_baseSpan h)).
Proof.
  intros [Hsp Hs Hsr He Her Ho _ _]. unfold RetryReader_spanForOpen.
  pose proof (obj_Size_max (content := content)) as Hmax.
  destruct (Z.eqb_spec (rr_offset h) 0) as [Hz|Hz].
  { by rewrite Hz, drop_0. }
  assert (Hbytes : rr_start h + rr_offset h <= rr_end h /\ rr_start h + rr_offset h <= size).
  { unfold span_bytes, slice in Ho. rewrite length_take, length_drop in Ho.
    rewrite <- Hs, <- He in Ho. lia. }
  i64_norm. unfold span_bytes at 1. cbn [span_lo span_hi Start SpanEnd].
  destruct (Z.leb_spec 0 (rr_end h)); [|lia].
  i64_norm. destruct (Z.ltb_spec (rr_end h - 1) 0); [lia|].
  split; [unfold span_ok; cbn; unfold MaxInt64 in *; lia|]. unfold span_bytes. rewrite drop_slice by (rewrite <- Hs; lia).
  rewrite <- Hs, <- He. f_equal; lia.
Qed.

Lemma open_inv (h : RetryReader R) w err h' w' :
  rr_core content h -> rr_tries h <= rr_maxTries h -> RetryReader_open h w = (err, h', w') ->
  rr_inv h' /\ rr_err h' = err /\ rr_offset h' = rr_offset h /\
  rr_baseSpan h' = rr_baseSpan h /\ rr_tries h' = rr_tries h + 1 /\ rr_maxTries h' = rr_maxTries h.
Proof.
  intros Hinv Htr. pose proof (spanForOpen_bytes h Hinv) as [Hlo Hsb].
  destruct Hinv as [Hsp Hs Hsr He Her Ho Ht Hm]. unfold RetryReader_open. i64_norm.
  destruct (Z.ltb_spec (rr_maxTries h) (rr_tries h + 1)).
  - intros [= <- <- <-]. split_and!; try done. constructor; [constructor|]; try done. cbn; lia.
  - destruct (obj_Open _ w) as [[e|rc] w1] eqn:Hopen; intros [= <- <- <-]; split_and!; try done.
    + constructor; [constructor|]; try done. cbn; lia.
    + constructor; [constructor|]; try done; [cbn; lia|]. intros _. cbn. split_and!; [done|lia|].
      exists rc. split; [done|]. apply obj_Open_ok in Hopen; [|done]. by rewrite Hopen.
Qed.

(** The state after [nn] bytes were read from the stream and it failed with [e]. *)
Lemma read_inv h rc n d err rc' w w1 tr :
  rr_inv h -> rr_err h = None -> rr_rc h = Some rc -> rc_Read n rc w = (d, err, rc', w1) ->
  let h1 := rr_set h (Some rc') (rr_offset h +! Z.of_nat (length d)) tr None (rr_opened h) in
  rr_tries h = tr ->
  (length d <= n)%nat /\ rr_inv h1 /\ rr_offset h1 = rr_offset h + Z.of_nat (length d) /\
  d = slice (rr_offset h) (rr_offset h1) (span_bytes content (rr_baseSpan h)) /\
  (err = Some io_EOF -> rr_offset h1 = Z.of_nat (length (span_bytes content (rr_baseSpan h)))).
Proof.
  intros [[Hsp Hs Hsr He Her Ho Ht Hm] Hl] Hnone Hrc Hr h1 Htr.
  apply rc_Read_ok in Hr as (Hn&Hrest&Heof).
  destruct Hl as (Hop&Htm&rc0&Hrc0&Hrest0); [done|]. simplify_eq.
  rewrite Hrest0 in Hrest.
  set (bytes := span_bytes content (rr_baseSpan h)) in *.
  assert (Hlen : rr_offset h + Z.of_nat (length d) + Z.of_nat (length (rc_rest rc'))
                 = Z.of_nat (length bytes)).
  { apply (f_equal length) in Hrest. rewrite length_drop, length_app in Hrest. lia. }
  pose proof (obj_Size_max (content := content)) as Hmax.
  pose proof (span_bytes_length (rr_baseSpan h)) as Hle. rewrite <- Hs in Hle.
  change (span_bytes content (rr_baseSpan h)) with bytes in Hle.
  assert (Hoff : rr_offset h1 = rr_offset h + Z.of_nat (length d)).
  { subst h1. cbn. rewrite i64_id; [done|]. i64_side. }
  assert (Hsl : slice (rr_offset h) (Z.of_nat (length bytes)) bytes = d ++ rc_rest rc').
  { rewrite <- Hrest. apply slice_to_end; lia. }
  apply slice_app_inv in Hsl as [Hrest' Hd]; [|lia].
  rewrite Hoff. split_and!; [done| |done|done|].
  - constructor; [constructor|]; try done; [rewrite Hoff; change (rr_baseSpan h1) with (rr_baseSpan h); fold bytes; lia|].
    intros _. cbn. split_and!; [done|done|]. eexists. split; [done|].
    rewrite Hrest'. fold bytes. rewrite i64_id by i64_side.
    apply slice_to_end; lia.
  - intros Heq. apply Heof in Heq. rewrite Heq in Hlen. cbn in Hlen. lia.
Qed.

Lemma failed_inv h e opened :
  rr_inv h -> rr_inv (rr_set h (rr_rc h) (rr_offset h) (rr_tries h) (Some e) opened).
Proof. intros [[] ?]. constructor; [by constructor|done]. Qed.

Lemma reopen_inv h w e err h' w' :
  rr_inv h -> rr_tries h <= rr_maxTries h -> rr_err h = Some e ->
  RetryReader_reopen h w = (err, h', w') ->
  rr_inv h' /\ rr_err h' = err /\ rr_offset h' = rr_offset h /\
  rr_baseSpan h' = rr_baseSpan h /\ rr_tries h' = rr_tries h + 1 /\ rr_maxTries h' = rr_maxTries h.
Proof.
  intros Hinv Htr He. unfold RetryReader_reopen. destruct (rr_opened h); intros Ho.
  - apply open_inv in Ho; [exact Ho| |done]. destruct Hinv as [[] _]; by constructor.
  - apply open_inv in Ho; [done|apply Hinv|done].
Qed.

(** One call of [Read]: the bytes it returns are the next bytes of the span. *)
Definition read_post (h : RetryReader R) (n : nat)
    (res : list byte * option error * RetryReader R * W) : Prop :=
  let '(d, err, h', _) := res in
  let bytes := span_bytes content (rr_baseSpan h) in
  rr_inv h' /\ rr_baseSpan h' = rr_baseSpan h /\ rr_maxTries h' = rr_maxTries h /\
  rr_tries h <= rr_tries h' /\ (length d <= n)%nat /\
  rr_offset h' = rr_offset h + Z.of_nat (length d) /\
  d = slice (rr_offset h) (rr_offset h') bytes /\
  (err = None -> length d = n /\ rr_err h' = None) /\
  (err = Some io_EOF -> rr_offset h' = Z.of_nat (length bytes)).

(** A read of [d1] followed by one of [d2]. *)
Lemma read_post_app h h2 n d1 d2 err h' w' :
  rr_inv h -> rr_baseSpan h2 = rr_baseSpan h -> rr_maxTries h2 = rr_maxTries h ->
  rr_tries h <= rr_tries h2 -> (length d1 <= n)%nat ->
  rr_offset h2 = rr_offset h + Z.of_nat (length d1) ->
  d1 = slice (rr_offset h) (rr_offset h2) (span_bytes content (rr_baseSpan h)) ->
  read_post h2 (n - length d1) (d2, err, h', w') -> read_post h n (d1 ++ d2, err, h', w').
Proof.
  intros [[]] Hb Hmt Ht Hl Ho Hd (Hinv&Hb'&Hmt'&Ht'&Hl'&Ho'&Hd'&Hn&He).
  rewrite Hb in *. unfold read_post. rewrite length_app.
  split_and!; try done; try lia; try congruence.
  - rewrite Hd, Hd' at 1. apply slice_app; lia.
  - intros Herr. destruct (Hn Herr). split; [lia|done].
Qed.

Ltac fin := first [done | congruence | cbn; lia | cbn; congruence].

Lemma retry_Read_loop_correct fuel : forall n h w res,
  rr_inv h -> rr_err h = None ->
  RetryReader_Read_loop isNoLowLevelRetryError fuel n h w = Ret res -> read_post h n res.
Proof.
  induction fuel as [|fuel IH]; intros n h w res Hinv Hnone; cbn [RetryReader_Read_loop]; [done|].
  destruct (Nat.ltb_spec 0 n) as [Hn|Hn].
  2:{ intros [= <-]. unfold read_post. cbn. rewrite Z.add_0_r.
      split_and!; try done; try lia; [by rewrite slice_nil by lia|].
      intros _. split; [cbn; lia|done]. }
  destruct (rr_rc h) as [rc|] eqn:Hrc; [|done].
  destruct (rc_Read n rc w) as [[[d err] rc'] w1] eqn:Hr. rewrite Hnone.
  pose proof (read_inv h rc n d err rc' w w1 _ Hinv Hnone Hrc Hr eq_refl) as Hri.
  set (h1 := rr_set h (Some rc') (rr_offset h +! Z.of_nat (length d)) (rr_tries h) None (rr_opened h)) in *.
  destruct Hri as (Hl&Hinv1&Ho1&Hd&Heof).
  assert (Hcont : forall h2 w2, rr_inv h2 -> rr_err h2 = None -> rr_baseSpan h2 = rr_baseSpan h ->
    rr_maxTries h2 = rr_maxTries h -> rr_tries h <= rr_tries h2 -> rr_offset h2 = rr_offset h1 ->
    ('(d', err', h', w') ← RetryReader_Read_loop isNoLowLevelRetryError fuel (n - length d) h2 w2;
      Ret (d ++ d', err', h', w')) = Ret res -> read_post h n res).
  { intros h2 w2 Hi2 He2 Hb2 Hm2 Ht2 Ho2 Hbind.
    apply run_bind_Ret in Hbind as ([[[d' err'] h'] w']&Hrec&Heq). injection Heq as <-.
    apply IH in Hrec; [|done..]. eapply read_post_app; try done; congruence. }
  assert (Hstop : forall e h2 w2, rr_inv h2 -> rr_baseSpan h2 = rr_baseSpan h ->
    rr_maxTries h2 = rr_maxTries h -> rr_tries h <= rr_tries h2 -> rr_offset h2 = rr_offset h1 ->
    (e = io_EOF -> err = Some io_EOF) -> read_post h n (d, Some e, h2, w2)).
  { intros e h2 w2 Hi2 Hb2 Hm2 Ht2 Ho2 He2. unfold read_post.
    rewrite Ho2. split_and!; try done. intros [= ->]. by apply Heof, He2. }
  destruct err as [e|]; [|apply Hcont; fin].
  case_bool_decide as He; [intros [= <-]; apply Hstop; fin|].
  change (rr_opened h1) with (rr_opened h).
  pose proof (failed_inv h1 e (rr_opened h) Hinv1) as Hinv2.
  set (h2 := rr_set h1 _ _ _ (Some e) _) in *.
  destruct (isNoLowLevelRetryError e); [intros [= <-]; apply Hstop; fin|].
  destruct (RetryReader_reopen h2 w1) as [[e' h3] w3] eqn:Hre.
  apply (reopen_inv h2 w1 e) in Hre as (Hi3&He3&Ho3&Hb3&Ht3&Hm3); [|done| |done].
  2:{ destruct Hinv as [_ Hlive]. by destruct Hlive as (_&?&_). }
  assert (rr_tries h <= rr_tries h3) by (rewrite Ht3; cbn; lia).
  destruct e' as [e'|].
  - intros [= <-]. apply Hstop; fin.
  - apply Hcont; fin.
Qed.

Lemma Read_correct fuel n h w res :
  rr_inv h -> RetryReader_Read isNoLowLevelRetryError fuel n h w = Ret res ->
  (rr_err h <> Some io_EOF) -> read_post h n res.
Proof.
  unfold RetryReader_Read. intros Hinv. destruct (rr_err h) as [e|] eqn:He.
  - intros [= <-] Hne. unfold read_post. cbn. rewrite Z.add_0_r.
    split_and!; try done; try lia. by rewrite slice_nil by lia.
  - intros Hl _. by eapply retry_Read_loop_correct.
Qed.

Lemma OpenRetrying_inv ctx span w h w' :
  span_ok span -> 0 <= LowLevelRetries (GetConfig ctx) < MaxInt64 ->
  OpenRetrying ctx span w = (inr h, w') ->
  rr_inv h /\ rr_err h = None /\ rr_offset h = 0 /\ rr_baseSpan h = span /\
  rr_maxTries h = LowLevelRetries (GetConfig ctx).
Proof.
  intros Hspan Hm. unfold OpenRetrying.
  pose proof (obj_Size_max (content := content)) as Hmax.
  rewrite (obj_Size_ok (content := content)).
  set (h0 := mkRetryReader span _ _ _ _ _ _ _ _ _).
  destruct (RetryReader_open h0 w) as [[[e|] h1] w1] eqn:Ho; intros [= <- <-].
  apply open_inv in Ho as (Hi&He&Hoff&Hb&_&Hmt).
  - rewrite Hoff, Hmt. done.
  - destruct span as [sp|]; constructor; cbn in *; try done; try (unfold MaxInt64 in *; lia).
    + destruct (Z.leb_spec 0 (SpanEnd sp)), (Z.ltb_spec (SpanEnd sp) 0); try lia.
      rewrite i64_id by i64_side. lia.
    + destruct (Z.leb_spec 0 (SpanEnd sp)); [|done]. rewrite i64_id by i64_side. lia.
  - cbn. lia.
Qed.

Context `{!ReaderProgress W R}.

(** Rounds of the loop deliver a byte or use up a try. *)
Lemma retry_Read_loop_total fuel : forall n h w,
  rr_inv h -> rr_err h = None ->
  (n + Z.to_nat (rr_maxTries h - rr_tries h) < fuel)%nat ->
  returns (RetryReader_Read_loop isNoLowLevelRetryError fuel n h w) (fun _ => True).
Proof.
  induction fuel as [|fuel IH]; intros n h w Hinv Hnone Hfuel; [lia|].
  cbn [RetryReader_Read_loop]. destruct (Nat.ltb_spec 0 n) as [Hn|Hn]; [|by eexists].
  pose proof Hinv as [[_ _ _ _ _ _ Htr Hm] Hlive].
  destruct Hlive as (Hop&Htm&rc&Hrc&_); [done|]. rewrite Hrc.
  destruct (rc_Read n rc w) as [[[d err] rc'] w1] eqn:Hr. rewrite Hnone.
  pose proof (read_inv h rc n d err rc' w w1 _ Hinv Hnone Hrc Hr eq_refl) as Hri.
  set (h1 := rr_set h (Some rc') (rr_offset h +! Z.of_nat (length d)) (rr_tries h) None (rr_opened h)) in *.
  destruct Hri as (Hl&Hinv1&_).
  assert (Hcont : forall h2 w2, rr_inv h2 -> rr_err h2 = None ->
    (n - length d + Z.to_nat (rr_maxTries h2 - rr_tries h2) < fuel)%nat ->
    returns ('(d', err', h', w') ← RetryReader_Read_loop isNoLowLevelRetryError fuel (n - length d) h2 w2;
      Ret (d ++ d', err', h', w')) (fun _ => True)).
  { intros h2 w2 Hi2 He2 Hf2. destruct (IH _ h2 w2 Hi2 He2 Hf2) as ([[[d' err'] h'] w']&Hrec&_).
    rewrite Hrec. by eexists. }
  destruct err as [e|].
  - case_bool_decide; [by eexists|]. destruct (isNoLowLevelRetryError e); [by eexists|].
    destruct (RetryReader_reopen _ w1) as [[e' h3] w3] eqn:Hre.
    apply (reopen_inv _ w1 e) in Hre as (Hi3&He3&_&_&Ht3&Hm3); [|by apply failed_inv|done|done].
    destruct e' as [e'|]; [by eexists|]. apply Hcont; [done..|].
    pose proof Hi3 as [_ Hlive3]. destruct Hlive3 as (_&Htm3&_); [done|].
    rewrite Ht3, Hm3 in *. cbn in *. lia.
  - apply Hcont; [done..|]. apply rc_Read_progress in Hr; [|done].
    assert (0 < length d)%nat by (destruct d; cbn; [done|lia]). cbn. lia.
Qed.
End retry_proofs.

(** A scripted object for the witnesses: opens always succeed. *)
Definition demo_content : list byte := [x00; x01; x02; x03; x04; x05; x06; x07; x08; x09].

#[export] Instance demo_Object : Object script (list byte) := {
  obj_Size := 10;
  obj_Open := fun span w => (inr (span_bytes demo_content span), w)
}.

#[export] Instance demo_ObjectOK : ObjectOK script (list byte) demo_content.
Proof. constructor; [done|done|]. intros span w r w' _ [= <- <-]. done. Qed.

(** ** Properties of the retrying reader *)

Section reads.
Context {W R : Type} `{Object W R} (isNoLowLevelRetryError : error -> bool).

(** A client's calls of [Read], for the given buffer sizes, until one fails. *)
Fixpoint RetryReader_reads (fuel : nat) (ns : list nat) (h : RetryReader R) (w : W)
  : run (list byte * option error * RetryReader R * W) :=
  match ns with
  | [] => Ret ([], None, h, w)
  | n :: ns' =>
    '(d, err, h1, w1) ← RetryReader_Read isNoLowLevelRetryError fuel n h w;
    match err with
    | Some e => Ret (d, Some e, h1, w1)
    | None =>
      '(d', err', h', w') ← RetryReader_reads fuel ns' h1 w1;
      Ret (d ++ d', err', h', w')
    end
  end.
End reads.

Lemma reads_correct {W R} content `{Hok : ObjectOK W R content} no_retry fuel ns :
  forall (h : RetryReader R) (w : W) res,
  rr_inv content h -> rr_err h = None ->
  RetryReader_reads no_retry fuel ns h w = Ret res ->
  read_post content h (sum_list ns) res.
Proof.
  induction ns as [|n ns IH]; intros h w res Hinv He; cbn [RetryReader_reads].
  - intros [= <-]. unfold read_post. cbn. rewrite Z.add_0_r.
    split_and!; try done; try lia. by rewrite slice_nil by lia.
  - intros Hbind. apply run_bind_Ret in Hbind as ([[[d err] h1] w1]&Hr&Hrest).
    apply (Read_correct content) in Hr; [|done|by rewrite He].
    destruct Hr as (Hi1&Hb&Hm&Ht&Hl&Ho&Hd&Hnone&Heof).
    destruct err as [e|].
    + injection Hrest as <-. unfold read_post. split_and!; try done. cbn. lia.
    + apply run_bind_Ret in Hrest as ([[[d' err'] h'] w']&Hr'&Heq). injection Heq as <-.
      destruct Hnone as [Hn Hne]; [done|]. apply IH in Hr'; [|done..].
      eapply read_post_app; try done; [cbn; lia|].
      replace (sum_list (n :: ns) - length d)%nat with (sum_list ns) by (cbn; lia). done.
Qed.

(** C16. Whatever errors interrupt the stream and however often it is reopened,
    the bytes a client reads through a [RetryReader] are a prefix of the span's
    bytes, in order, without loss or repetition at a reopening; if the reads
    end with [io.EOF] they are the whole span, and if no read fails every
    buffer was filled. *)
Theorem RetryReader_resumes_exactly {W R} content `{Hok : ObjectOK W R content}
    no_retry fuel ctx span ns (w w0 w' : W) h data err h' :
  span_ok span -> 0 <= LowLevelRetries (GetConfig ctx) < MaxInt64 ->
  OpenRetrying ctx span w = (inr h, w0) ->
  RetryReader_reads no_retry fuel ns h w0 = Ret (data, err, h', w') ->
  data `prefix_of` span_bytes content span /\
  (err = Some io_EOF -> data = span_bytes content span) /\
  (err = None -> length data = sum_list ns) /\
  rr_offset h' = Z.of_nat (length data) /\
  rr_tries h' <= LowLevelRetries (GetConfig ctx) + 1.
Proof.
  intros Hspan Hm Hopen Hreads.
  apply (OpenRetrying_inv content) in Hopen as (Hinv&He&Ho&Hb&Hmt); [|done..].
  apply (reads_correct content) in Hreads; [|done..].
  destruct Hreads as (Hi'&Hb'&Hm'&Ht'&Hl&Ho'&Hd&Hnone&Heof).
  rewrite Ho, Hb in *. cbn in Ho'.
  assert (Hpre : data = take (length data) (span_bytes content span)).
  { rewrite Hd at 1. unfold slice. rewrite drop_0. f_equal. lia. }
  split_and!.
  - rewrite Hpre. apply prefix_take.
  - intros Hee. specialize (Heof Hee). rewrite Hpre. apply take_ge. lia.
  - intros Hn. by apply Hnone.
  - done.
  - destruct Hi' as [[_ _ _ _ _ _ Htr _] _]. lia.
Qed.

(** The stream is read in five calls, the second open after a failure at byte 3. *)
Lemma RetryReader_resumes_exactly_witness :
  let w := mkScript [(2, None); (0, Some (Errorf "reset")); (1, Some (Errorf "reset")); (4, None)]%nat in
  let span := Some (mkSpan 2 8) in
  exists h w0 data h' w',
    OpenRetrying None span w = (inr h, w0) /\
    RetryReader_reads (fun _ => false) 30 [3; 3; 3]%nat h w0 = Ret (data, Some io_EOF, h', w') /\
    rr_tries h' = 3 /\ data = span_bytes demo_content span.
Proof.
  cbn zeta. do 5 eexists. split; [reflexivity|]. split; [vm_compute; reflexivity|].
  split; [reflexivity|].
  eapply (RetryReader_resumes_exactly demo_content (fun _ => false) 30 None (Some (mkSpan 2 8)) [3; 3; 3]%nat
    (mkScript [(2, None); (0, Some (Errorf "reset")); (1, Some (Errorf "reset")); (4, None)]%nat)).
  - cbn. unfold MaxInt64. lia.
  - cbn. unfold MaxInt64. lia.
  - reflexivity.
  - vm_compute. reflexivity.
  - reflexivity.
Defined.

(** C17. [Read] always ends: against a stream whose successful reads deliver at
    least a byte, one round per byte asked for and per reopening left is enough. *)
Theorem RetryReader_Read_terminates {W R} content `{Hok : ObjectOK W R content} `{!ReaderProgress W R}
    no_retry fuel n (h : RetryReader R) (w : W) :
  rr_inv content h ->
  (n + Z.to_nat (rr_maxTries h - rr_tries h) < fuel)%nat ->
  exists d err h' w', RetryReader_Read no_retry fuel n h w = Ret (d, err, h', w') /\
    (length d <= n)%nat /\ (err = None -> length d = n).
Proof.
  intros Hinv Hf. unfold RetryReader_Read. destruct (rr_err h) as [e|] eqn:He.
  - repeat eexists; cbn; [lia|done].
  - destruct (retry_Read_loop_total content no_retry fuel n h w Hinv He Hf) as ([[[d err] h'] w']&Hr&_).
    exists d, err, h', w'. split; [done|]. apply (retry_Read_loop_correct content) in Hr; [|done..].
    destruct Hr as (_&_&_&_&Hl&_&_&Hn&_). split; [done|]. intros Hnone. by apply Hn.
Qed.

Lemma RetryReader_Read_terminates_witness :
  exists h w0, OpenRetrying None None (mkScript [(0, Some (Errorf "reset"))]%nat) = (inr h, w0) /\
  exists d err h' w', RetryReader_Read (fun _ => false) 16 4 h w0 = Ret (d, err, h', w') /\
    (length d <= 4)%nat /\ (err = None -> length d = 4%nat).
Proof.
  do 2 eexists. split; [reflexivity|].
  apply (RetryReader_Read_terminates demo_content); [|apply Nat.ltb_lt; vm_compute; reflexivity].
  eapply (OpenRetrying_inv demo_content None None (mkScript [(0, Some (Errorf "reset"))]%nat)); [done|cbn; unfold MaxInt64; lia|reflexivity].
Defined.
