(* ===== verification/SourceObject.v ===== *)
(** * Origin objects and their adapter

    [src/source/source.go] (the contract of an origin object) and
    [src/cache/source_object.go] (the adapter [sourceObject], which gives the
    engine its inclusive spans on top of the origin's half-open ranges). *)
From stdpp Require Import base numbers list strings.
From Stdlib Require Import ZArith Lia Init.Byte.
From S2P Require Import Prelude.
From S2P Require Import GoIO.
From S2P Require Import ObjectIO.

Local Open Scope Z_scope.
Local Open Scope go_scope.

(** A [time.Time] as its instant in nanoseconds since the Unix epoch; the zero
    time is the first instant of year 1. *)
Definition zeroTime : Z := -62135596800000000000.
Definition Time_IsZero (t : Z) : bool := t =? zeroTime.

Record Metadata := mkMetadata {
  MetaSize : Z; ETag : string; LastModified : Z; ContentType : string
}.

(** [source.Object]: [OpenRange(start, end)] opens the half-open range. *)
Class SourceObject (W R O : Type) `{ReadCloser W R} := {
  src_Metadata : O -> Metadata;
  src_OpenRange : O -> Z -> Z -> W -> (error + R) * W
}.

(** "Implementations must return exactly the requested half-open range
    [start, end) from OpenRange or an error." *)
Class SourceObjectOK (W R O : Type) `{SourceObject W R O} `{!ReaderOK W R}
    (origin : O) (content : list byte) := {
  src_OpenRange_ok : forall start end_ w r w',
    0 <= start < end_ -> end_ <= Z.of_nat (length content) ->
    src_OpenRange origin start end_ w = (inr r, w') -> rc_rest r = slice start end_ content
}.

Record sourceObject (O : Type) := mkSourceObject { so_origin : O; so_meta : Metadata }.
Arguments mkSourceObject {O}.
Arguments so_origin {O}. Arguments so_meta {O}.

Section source_object.
Context {W R O : Type} `{SourceObject W R O}.

Definition sourceObject_Size (o : sourceObject O) : Z := MetaSize (so_meta o).

Definition sourceObject_update (o : sourceObject O) (origin : O) (meta : Metadata) : sourceObject O :=
  mkSourceObject origin meta.

Definition sourceObject_snapshot (o : sourceObject O) : O * Metadata := (so_origin o, so_meta o).

Definition sourceObject_Open (o : sourceObject O) (span : option Span) (w : W) : (error + R) * W :=
  let '(origin, meta) := sourceObject_snapshot o in
  let '(start, end_) :=
    match span with
    | Some s => (Start s, if 0 <=? SpanEnd s then SpanEnd s +! 1 else MetaSize meta)
    | None => (0, MetaSize meta)
    end in
  if (start <? 0) || (MetaSize meta <=? start) then (inl ErrRangeNotSatisfiable, w)
  else
    let end_ := if MetaSize meta <? end_ then MetaSize meta else end_ in
    if end_ <=? start then (inl ErrRangeNotSatisfiable, w)
    else src_OpenRange origin start end_ w.

(** The adapter as an object of the engine. *)
#[local] Instance sourceObject_Object (o : sourceObject O) : Object W R := {
  obj_Size := sourceObject_Size o;
  obj_Open := sourceObject_Open o
}.

(** The request a span is turned into: [None] when it is empty once clipped. *)
Definition span_request (size : Z) (span : option Span) : option (Z * Z) :=
  let lo := span_lo span in
  let hi := Z.min (span_hi size span) size in
  if lo <? hi then Some (lo, hi) else None.

Lemma sourceObject_Open_spec o span w :
  span_ok span -> 0 <= MetaSize (so_meta o) ->
  sourceObject_Open o span w =
    match span_request (MetaSize (so_meta o)) span with
    | Some (lo, hi) => src_OpenRange (so_origin o) lo hi w
    | None => (inl ErrRangeNotSatisfiable, w)
    end.
Proof.
  intros Hsp Hsz. unfold sourceObject_Open, span_request, sourceObject_snapshot.
  destruct span as [s|]; cbn in *; cbn [span_lo span_hi].
  - rewrite (Z.leb_antisym (SpanEnd s) 0). destruct (Z.ltb_spec (SpanEnd s) 0); cbn [negb].
    + rewrite Z.min_id, Z.ltb_irrefl. zcases; cbn; try lia; done.
    + i64_norm. zcases; cbn; try lia; try done; do 2 f_equal; lia.
  - rewrite Z.min_id, Z.ltb_irrefl. zcases; cbn; try lia; done.
Qed.

Lemma sourceObject_OK (o : sourceObject O) content `{!ReaderOK W R} `{!SourceObjectOK W R O (so_origin o) content} :
  MetaSize (so_meta o) = Z.of_nat (length content) -> Z.of_nat (length content) <= MaxInt64 ->
  @ObjectOK W R _ (sourceObject_Object o) _ content.
Proof.
  intros Hsz Hmax. constructor; [done|done|]. intros span w r w' Hsp Ho.
  change (sourceObject_Open o span w = (inr r, w')) in Ho.
  rewrite sourceObject_Open_spec in Ho by (done || lia). unfold span_request in Ho.
  destruct (Z.ltb_spec (span_lo span) (Z.min (span_hi (MetaSize (so_meta o)) span) (MetaSize (so_meta o)))); [|done].
  assert (0 <= span_lo span) by (destruct span; cbn in *; lia).
  apply src_OpenRange_ok in Ho; [|lia|lia].
  rewrite Ho. unfold span_bytes. rewrite Hsz. symmetry. by apply slice_clip.
Qed.
End source_object.

(** ** Properties *)

(** A concrete origin for the witnesses: every range opens. *)
#[export] Instance demo_SourceObject : SourceObject script (list byte) unit := {
  src_Metadata := fun _ => mkMetadata 10 "v1" zeroTime "";
  src_OpenRange := fun _ start end_ w => (inr (slice start end_ demo_content), w)
}.

#[export] Instance demo_SourceObjectOK : SourceObjectOK script (list byte) unit tt demo_content.
Proof. constructor. intros start end_ w r w' _ _ [= <- <-]. done. Qed.

(** C18. The adapter implements the engine's object contract on top of the
    origin's: a successful open of any span delivers exactly the bytes of the
    object the span asks for, the origin is only asked for a nonempty half-open
    range inside the object, and a span that is empty after clipping to the
    object is [ErrRangeNotSatisfiable] without a request. *)
Theorem sourceObject_refines_Object {W R O} `{SourceObject W R O} `{!ReaderOK W R}
    (o : sourceObject O) content `{!SourceObjectOK W R O (so_origin o) content} span w :
  MetaSize (so_meta o) = Z.of_nat (length content) -> Z.of_nat (length content) <= MaxInt64 ->
  span_ok span ->
  (forall r w', sourceObject_Open o span w = (inr r, w') -> rc_rest r = span_bytes content span) /\
  sourceObject_Open o span w =
    match span_request (MetaSize (so_meta o)) span with
    | Some (lo, hi) => src_OpenRange (so_origin o) lo hi w
    | None => (inl ErrRangeNotSatisfiable, w)
    end /\
  (forall lo hi, span_request (MetaSize (so_meta o)) span = Some (lo, hi) ->
     0 <= lo < hi /\ hi <= MetaSize (so_meta o)) /\
  (span_request (MetaSize (so_meta o)) span = None -> span_bytes content span = []).
Proof.
  intros Hsz Hmax Hsp.
  assert (0 <= span_lo span) by (destruct span; cbn in *; lia).
  split_and!.
  - intros r w' Ho. pose proof (sourceObject_OK (W:=W) (R:=R) o content Hsz Hmax) as Hok.
    by apply (@obj_Open_ok _ _ _ _ _ _ Hok) in Ho.
  - apply sourceObject_Open_spec; [done|lia].
  - unfold span_request. intros lo hi. zcases; [|done]. intros [= <- <-]. lia.
  - unfold span_request. zcases; [done|]. intros _.
    unfold span_bytes. rewrite slice_clip, <- Hsz by done. by apply slice_nil.
Qed.

Lemma sourceObject_refines_Object_witness :
  let o := mkSourceObject tt (src_Metadata (W:=script) (R:=list byte) tt) in
  let span := Some (mkSpan 4 25) in
  span_request (MetaSize (so_meta o)) span = Some (4, 10) /\
  (forall r w', sourceObject_Open o span (mkScript []) = (inr r, w') ->
     rc_rest r = span_bytes demo_content span).
Proof.
  split; [reflexivity|].
  eapply (sourceObject_refines_Object (mkSourceObject tt (src_Metadata tt)) demo_content
    (Some (mkSpan 4 25)) (mkScript [])).
  - reflexivity.
  - cbn. unfold MaxInt64. lia.
  - cbn. unfold MaxInt64. lia.
Defined.
