(* ===== verification/HttpSource.v ===== *)
(** * The HTTP origin (src/source/http/source.go, src/source/request.go)

    A source whose objects are resources of HTTP servers, read with range
    requests.  The client, the servers behind it, [url.Parse] and the HTTP dates
    are parameters ([HTTP]); what RFC 9110 asks of a server is [HTTPServerOK].

    [http_origin_OK] discharges the contract of an origin object
    ([SourceObjectOK]) for objects with a strong validator, so that the engine's
    theorems apply to HTTP origins. *)
From stdpp Require Import base numbers list gmap strings pretty.
From Stdlib Require Import ZArith Lia Init.Byte Ascii.
From S2P Require Import Prelude.
From S2P Require Import GoText.
From S2P Require Import GoIO.
From S2P Require Import ObjectIO.
From S2P Require Import SourceObject.

Local Open Scope Z_scope.

(** ** Headers *)
Notation Header := (gmap string (list string)).

(** [textproto.CanonicalMIMEHeaderKey]: a name that is no token stays as it is. *)
Definition is_token_char (c : ascii) : bool :=
  let n := nat_of_ascii c in
  ((48 <=? n) && (n <=? 57) || (65 <=? n) && (n <=? 90) || (94 <=? n) && (n <=? 122))%nat ||
  bool_decide (n ∈ [33; 35; 36; 37; 38; 39; 42; 43; 45; 46; 124; 126]%nat).
Fixpoint canonical_from (upper : bool) (s : string) : string :=
  match s with
  | EmptyString => EmptyString
  | String c s => String (if upper then to_upper c else to_lower c) (canonical_from (bool_decide (c = "-"%char)) s)
  end.
Fixpoint is_token (s : string) : bool := match s with EmptyString => true | String c s => is_token_char c && is_token s end.
Definition canonical (key : string) : string := if is_token key then canonical_from true key else key.

Definition Header_Get (h : Header) (key : string) : string :=
  match h !! canonical key with Some (v :: _) => v | _ => ""%string end.
Definition Header_Set (key value : string) (h : Header) : Header := <[canonical key := [value]]> h.
Definition Header_Del (key : string) (h : Header) : Header := delete (canonical key) h.

(** ** The request headers a context carries (source/request.go) *)

(** A context is what it holds under [requestHeadersKey]. *)
Definition context : Type := option Header.
Definition cloneHeaders (headers : Header) : Header := (fun values => [] ++ values) <$> headers.
Definition WithRequestHeaders (ctx : context) (headers : Header) : context :=
  if bool_decide (headers = ∅) then ctx else Some (cloneHeaders headers).
Definition RequestHeaders (ctx : context) : Header :=
  match ctx with Some headers => cloneHeaders headers | None => ∅ end.

(** ** Requests and responses *)
Record Request := mkRequest { rq_Method : string; rq_URL : string; rq_Host : string; rq_Header : Header }.
Definition rq_set_Host (host : string) (rq : Request) : Request := mkRequest (rq_Method rq) (rq_URL rq) host (rq_Header rq).
Definition rq_set_Header (h : Header) (rq : Request) : Request := mkRequest (rq_Method rq) (rq_URL rq) (rq_Host rq) h.

Record Response (R : Type) := mkResponse { rs_StatusCode : Z; rs_Header : Header; rs_ContentLength : Z; rs_Body : R }.
Arguments mkResponse {R}.
Arguments rs_StatusCode {R}. Arguments rs_Header {R}. Arguments rs_ContentLength {R}. Arguments rs_Body {R}.

(** [Client.Do]; the host of a URL, or the error of its parsing; [http.ParseTime]
    and [Time.UTC().Format(http.TimeFormat)]; the order in which [range] visits a
    header. *)
Class HTTP (W R : Type) `{ReadCloser W R} := {
  http_Do : Request -> W -> (error + Response R) * W;
  url_Host : string -> error + string;
  http_ParseTime : string -> option Z;
  http_FormatTime : Z -> string;
  header_range : Header -> list (string * list string)
}.

(** [Resolver], [Source], [Object]. *)
Record Source := mkSource { hs_Resolve : option (context -> string -> error + string); hs_Header : Header }.
Record Object := mkObject { ho_source : Source; ho_upstream : string; ho_meta : Metadata; ho_headers : Header }.

Definition New (resolve : option (context -> string -> error + string)) : Source := mkSource resolve ∅.

Definition resolve (s : Source) (ctx : context) (key : string) : error + string :=
  match hs_Resolve s with
  | None => inl (Errorf "http source: nil resolver")
  | Some f =>
      match f ctx key with
      | inl err => inl (Wrap "http source: resolve" err)
      | inr upstream => if bool_decide (upstream = ""%string) then inl (Errorf "http source: resolve returned empty URL") else inr upstream
      end
  end.

(** ** Content-Range *)
Definition parseContentRange (value : string) : option (Z * Z * Z) :=
  if negb (strings_HasPrefix value "bytes ") then None
  else
    match strings_Cut (strings_TrimPrefix value "bytes ") "/" with
    | None => None
    | Some (rangePart, sizePart) =>
        if bool_decide (sizePart = "*"%string) then None
        else
          match strings_Cut rangePart "-" with
          | None => None
          | Some (startPart, endPart) =>
              match strconv_ParseInt startPart, strconv_ParseInt endPart, strconv_ParseInt sizePart with
              | Some start, Some end_, Some size =>
                  if (start <? 0) || (end_ <? start) || (size <=? end_) then None else Some (start, end_, size)
              | _, _, _ => None
              end
          end
    end.

Definition parseUnsatisfiedSize (value : string) : option Z :=
  if negb (strings_HasPrefix value "bytes */") then None
  else match strconv_ParseInt (strings_TrimPrefix value "bytes */") with
       | Some size => if 0 <=? size then Some size else None
       | None => None
       end.

Definition StatusOK : Z := 200.
Definition StatusPartialContent : Z := 206.
Definition StatusNotFound : Z := 404.
Definition StatusMethodNotAllowed : Z := 405.
Definition StatusRequestedRangeNotSatisfiable : Z := 416.
Definition StatusNotImplemented : Z := 501.

Section source.
Context {W R : Type} `{HTTP W R}.

Fixpoint apply_headers (headers : list (string * list string)) (rq : Request) : Request :=
  match headers with
  | [] => rq
  | (key, values) :: headers =>
      apply_headers headers
        (if strings_EqualFold key "Host" then rq_set_Host (default ""%string (head values)) rq
         else rq_set_Header (<[key := [] ++ values]> (rq_Header rq)) rq)
  end.
Definition applyHeaders (headers : Header) (rq : Request) : Request := apply_headers (header_range headers) rq.

Definition request (s : Source) (ctx : context) (method upstream : string) : error + Request :=
  match url_Host upstream with
  | inl err => inl err
  | inr host =>
      inr (applyHeaders (hs_Header s) (applyHeaders (RequestHeaders ctx) (mkRequest method upstream host ∅)))
  end.

Definition clearClientRepresentationConditions (rq : Request) : Request :=
  rq_set_Header
    (fold_left (fun h key => Header_Del key h)
      ["Range"; "If-Range"; "If-Match"; "If-None-Match"; "If-Modified-Since"; "If-Unmodified-Since"]%string (rq_Header rq)) rq.

Definition metadataFromResponse (resp : Response R) (size : Z) : Metadata :=
  let value := Header_Get (rs_Header resp) "Last-Modified" in
  mkMetadata size (Header_Get (rs_Header resp) "ETag")
    (if bool_decide (value = ""%string) then zeroTime else default zeroTime (http_ParseTime value))
    (Header_Get (rs_Header resp) "Content-Type").

Definition ifRangeValidator (meta : Metadata) : string :=
  let etag := strings_TrimSpace (ETag meta) in
  if negb (bool_decide (etag = ""%string)) && negb (strings_HasPrefix etag "W/") then etag
  else if negb (Time_IsZero (LastModified meta)) then http_FormatTime (LastModified meta)
  else ""%string.

(** ** Opening an object *)
Definition zeroMetadata : Metadata := mkMetadata 0 "" zeroTime "".

(** What the response says: the metadata, whether to fall back on a range request,
    the error. *)
Definition head_result (resp : Response R) : Metadata * bool * option error :=
  if rs_StatusCode resp =? StatusNotFound then (zeroMetadata, false, Some ErrNotFound)
  else if (rs_StatusCode resp =? StatusMethodNotAllowed) || (rs_StatusCode resp =? StatusNotImplemented) then (zeroMetadata, true, None)
  else if (rs_StatusCode resp <? 200) || (300 <=? rs_StatusCode resp) then (zeroMetadata, false, Some (Errorf "http source: HEAD returned"))
  else if rs_ContentLength resp <? 0 then (zeroMetadata, true, None)
  else (metadataFromResponse resp (rs_ContentLength resp), false, None).

Definition statHEAD (s : Source) (ctx : context) (upstream : string) (w : W) : Metadata * bool * option error * W :=
  match request s ctx "HEAD" upstream with
  | inl err => (zeroMetadata, false, Some (Wrap "http source: create HEAD" err), w)
  | inr rq =>
      match http_Do (clearClientRepresentationConditions rq) w with
      | (inl err, w) => (zeroMetadata, false, Some (Wrap "http source: HEAD" err), w)
      | (inr resp, w) => (head_result resp, snd (rc_Close (rs_Body resp) w))
      end
  end.

Definition range_result (resp : Response R) : error + Metadata :=
  if rs_StatusCode resp =? StatusNotFound then inl ErrNotFound
  else if rs_StatusCode resp =? StatusRequestedRangeNotSatisfiable then
    match parseUnsatisfiedSize (Header_Get (rs_Header resp) "Content-Range") with
    | Some size => if size =? 0 then inr (metadataFromResponse resp 0) else inl ErrRangeNotSatisfiable
    | None => inl ErrRangeNotSatisfiable
    end
  else if rs_StatusCode resp =? StatusPartialContent then
    match parseContentRange (Header_Get (rs_Header resp) "Content-Range") with
    | Some (start, end_, size) =>
        if negb (start =? 0) || negb (end_ =? 0) || (size <? 1) then inl (Errorf "http source: invalid stat Content-Range")
        else inr (metadataFromResponse resp size)
    | None => inl (Errorf "http source: invalid stat Content-Range")
    end
  else if rs_StatusCode resp =? StatusOK then
    if 0 <=? rs_ContentLength resp then inr (metadataFromResponse resp (rs_ContentLength resp))
    else inl (Errorf "http source: stat response has unknown size")
  else inl (Errorf "http source: stat range returned").

Definition statRange (s : Source) (ctx : context) (upstream : string) (w : W) : (error + Metadata) * W :=
  match request s ctx "GET" upstream with
  | inl err => (inl (Wrap "http source: create stat range request" err), w)
  | inr rq =>
      let rq := clearClientRepresentationConditions rq in
      match http_Do (rq_set_Header (Header_Set "Range" "bytes=0-0" (rq_Header rq)) rq) w with
      | (inl err, w) => (inl (Wrap "http source: stat range request" err), w)
      | (inr resp, w) => (range_result resp, snd (rc_Close (rs_Body resp) w))
      end
  end.

Definition Open (s : Source) (ctx : context) (key : string) (w : W) : (error + Object) * W :=
  match resolve s ctx key with
  | inl err => (inl err, w)
  | inr upstream =>
      let object meta := mkObject s upstream meta (cloneHeaders (RequestHeaders ctx)) in
      match statHEAD s ctx upstream w with
      | (_, _, Some err, w) => (inl err, w)
      | (meta, false, None, w) => (inr (object meta), w)
      | (_, true, None, w) =>
          match statRange s ctx upstream w with
          | (inl err, w) => (inl err, w)
          | (inr meta, w) => (inr (object meta), w)
          end
      end
  end.

(** ** Opening a range *)

(** What is wrong with the response to the request [rq] for the range, if
    anything. *)
Definition check_response (expected : Metadata) (start end_ : Z) (rq : Request) (resp : Response R) : option error :=
  if rs_StatusCode resp =? StatusNotFound then Some ErrNotFound
  else if rs_StatusCode resp =? StatusRequestedRangeNotSatisfiable then Some ErrRangeNotSatisfiable
  else if rs_StatusCode resp =? StatusOK then
    if negb (bool_decide (Header_Get (rq_Header rq) "If-Range" = ""%string))
    then Some (Wrap "upstream returned full response to If-Range request" ErrObjectChanged) else Some ErrRangeUnsupported
  else if negb (rs_StatusCode resp =? StatusPartialContent) then Some (Errorf "http source: range request returned")
  else
    match parseContentRange (Header_Get (rs_Header resp) "Content-Range") with
    | None => Some (Errorf "http source: unexpected Content-Range")
    | Some (gotStart, gotEnd, gotSize) =>
        if negb (gotStart =? start) || negb (gotEnd =? i64 (end_ - 1)) then Some (Errorf "http source: unexpected Content-Range")
        else if (0 <=? MetaSize expected) && negb (gotSize =? MetaSize expected) then Some (Wrap "size changed" ErrObjectChanged)
        else if (0 <=? rs_ContentLength resp) && negb (rs_ContentLength resp =? i64 (end_ - start)) then Some (Errorf "http source: range Content-Length")
        else
          let etag := Header_Get (rs_Header resp) "ETag" in
          if negb (bool_decide (ETag expected = ""%string)) && negb (bool_decide (etag = ""%string)) && negb (bool_decide (etag = ETag expected))
          then Some (Wrap "ETag changed" ErrObjectChanged)
          else
            let value := Header_Get (rs_Header resp) "Last-Modified" in
            if negb (Time_IsZero (LastModified expected)) && negb (bool_decide (value = ""%string)) &&
               match http_ParseTime value with Some got => negb (got =? LastModified expected) | None => false end
            then Some (Wrap "Last-Modified changed" ErrObjectChanged)
            else None
    end.

(** The request for [start, end). *)
Definition range_request (o : Object) (ctx : context) (start end_ : Z) : error + Request :=
  match request (ho_source o) (WithRequestHeaders ctx (ho_headers o)) "GET" (ho_upstream o) with
  | inl err => inl (Wrap "http source: create range request" err)
  | inr rq =>
      let rq := clearClientRepresentationConditions rq in
      let rq := rq_set_Header (Header_Set "Range" ("bytes=" +:+ pretty start +:+ "-" +:+ pretty (i64 (end_ - 1))) (rq_Header rq)) rq in
      let validator := ifRangeValidator (ho_meta o) in
      inr (if bool_decide (validator = ""%string) then rq else rq_set_Header (Header_Set "If-Range" validator (rq_Header rq)) rq)
  end.

Definition OpenRange (o : Object) (ctx : context) (start end_ : Z) (w : W) : (error + R) * W :=
  let expected := ho_meta o in
  if (start <? 0) || (end_ <=? start) then (inl (Errorf "http source: invalid range"), w)
  else if (0 <=? MetaSize expected) && (MetaSize expected <? end_) then (inl (Wrap "exceeds size" ErrRangeNotSatisfiable), w)
  else
    match range_request o ctx start end_ with
    | inl err => (inl err, w)
    | inr rq =>
        match http_Do rq w with
        | (inl err, w) => (inl (Wrap "http source: range request" err), w)
        | (inr resp, w) =>
            match check_response expected start end_ rq resp with
            | Some err => (inl err, snd (rc_Close (rs_Body resp) w))
            | None => (inr (rs_Body resp), w)
            end
        end
    end.
End source.

(** ** Lemmas *)
Lemma Get_Set key value h : Header_Get (Header_Set key value h) key = value.
Proof. unfold Header_Get, Header_Set. by rewrite lookup_insert_eq. Qed.

Lemma Get_Set_ne key key' value h : canonical key <> canonical key' -> Header_Get (Header_Set key value h) key' = Header_Get h key'.
Proof. intros Hne. unfold Header_Get, Header_Set. by rewrite lookup_insert_ne. Qed.

Lemma Get_Del key key' h : Header_Get (Header_Del key h) key' = if decide (canonical key = canonical key') then ""%string else Header_Get h key'.
Proof.
  unfold Header_Get, Header_Del. case_decide as He; [by rewrite He, lookup_delete_eq|]. by rewrite lookup_delete_ne.
Qed.

(** [ParseInt] and the printing of numbers. *)
Lemma pretty_lacks c (z : Z) : is_digit c = false -> c <> "-"%char -> lacks c (pretty z) = true.
Proof.
  intros Hc Hm. destruct z as [|p|p].
  - cbn. rewrite bool_decide_eq_false_2; [done|]. intros <-. done.
  - change (pretty (Z.pos p)) with (pretty (Npos p)). apply all_digits_lacks; [done|apply all_digits_pretty].
  - change (pretty (Z.neg p)) with (String "-" (pretty (Npos p))). cbn. rewrite bool_decide_eq_false_2 by done.
    apply all_digits_lacks; [done|apply all_digits_pretty].
Qed.

Lemma pretty_nonneg_lacks_minus (z : Z) : 0 <= z -> lacks "-" (pretty z) = true.
Proof.
  intros Hz. destruct z as [|p|p]; [done| |lia].
  change (pretty (Z.pos p)) with (pretty (Npos p)). apply all_digits_lacks; [done|apply all_digits_pretty].
Qed.

Lemma pretty_not_star (z : Z) : (pretty z : string) <> "*"%string.
Proof.
  intros He. assert (Hl : lacks "*" (pretty z) = true) by (by apply pretty_lacks). by rewrite He in Hl.
Qed.

(** What a server sends for the bytes [a] to [b] of [n]. *)
Definition content_range (a b n : Z) : string := "bytes " +:+ pretty a +:+ "-" +:+ pretty b +:+ "/" +:+ pretty n.

Lemma parse_content_range a b n : 0 <= a -> in64 a -> in64 b -> in64 n ->
  parseContentRange (content_range a b n) = if (b <? a) || (n <=? b) then None else Some (a, b, n).
Proof.
  intros Ha Hia Hib Hin. unfold parseContentRange, content_range.
  destruct (TrimPrefix_app "bytes " (pretty a +:+ "-" +:+ pretty b +:+ "/" +:+ pretty n)) as [-> ->]. cbn [negb].
  replace (pretty a +:+ "-" +:+ pretty b +:+ "/" +:+ pretty n) with ((pretty a +:+ "-" +:+ pretty b) +:+ String "/" (pretty n))
    by (by rewrite !string_app_assoc).
  rewrite Cut_app by (rewrite !lacks_app, !pretty_lacks by done; done).
  rewrite bool_decide_eq_false_2 by apply pretty_not_star.
  change (pretty a +:+ "-" +:+ pretty b) with (pretty a +:+ String "-" (pretty b)).
  rewrite Cut_app by (by apply pretty_nonneg_lacks_minus). rewrite !ParseInt_pretty by done.
  destruct (Z.ltb_spec a 0); [lia|done].
Qed.

Lemma parse_content_range_neg a b n : a < 0 -> parseContentRange (content_range a b n) = None.
Proof.
  intros Ha. unfold parseContentRange, content_range.
  destruct (TrimPrefix_app "bytes " (pretty a +:+ "-" +:+ pretty b +:+ "/" +:+ pretty n)) as [-> ->]. cbn [negb].
  replace (pretty a +:+ "-" +:+ pretty b +:+ "/" +:+ pretty n) with ((pretty a +:+ "-" +:+ pretty b) +:+ String "/" (pretty n))
    by (by rewrite !string_app_assoc).
  rewrite Cut_app by (rewrite !lacks_app, !pretty_lacks by done; done).
  rewrite bool_decide_eq_false_2 by apply pretty_not_star.
  destruct a as [|p|p]; [lia..|]. change (pretty (Z.neg p)) with (String "-" (pretty (Npos p))). done.
Qed.

Lemma ParseInt_range s z : strconv_ParseInt s = Some z -> in64 z.
Proof.
  unfold strconv_ParseInt. destruct (match s with EmptyString => _ | String _ _ => _ end) as [neg ds].
  case_bool_decide; [done|]. destruct (digits_value ds 0) as [n|]; [|done].
  destruct ((MinInt64 <=? _) && _) eqn:Hr; [|done]. intros [= <-]. unfold in64. lia.
Qed.

Lemma parseContentRange_bounds value a b n : parseContentRange value = Some (a, b, n) -> 0 <= a <= b /\ b < n /\ n <= MaxInt64.
Proof.
  unfold parseContentRange. destruct (negb _); [done|]. destruct (strings_Cut _ _) as [[rangePart sizePart]|]; [|done].
  case_bool_decide; [done|]. destruct (strings_Cut rangePart _) as [[startPart endPart]|]; [|done].
  destruct (strconv_ParseInt startPart) as [x|]; [|done]. destruct (strconv_ParseInt endPart) as [y|]; [|done].
  destruct (strconv_ParseInt sizePart) as [z|] eqn:Hz; [|done]. apply ParseInt_range in Hz. unfold in64 in Hz.
  destruct (Z.ltb_spec x 0), (Z.ltb_spec y x), (Z.leb_spec z y); cbn; try done. intros [= <- <- <-]. lia.
Qed.

(** ** What HTTP asks of a server *)

(** A representation of a resource: its bytes and what the headers say of it. *)
Record version := mkVersion { v_content : list byte; v_etag : string; v_modified : string; v_type : string }.
Definition v_size (v : version) : Z := Z.of_nat (length (v_content v)).

(** A strong entity tag: a quoted string. *)
Definition strong (etag : string) : Prop :=
  strings_TrimSpace etag = etag /\ exists s, etag = String (ascii_of_nat 34) s.

(** The headers of the response are those of [v], as far as it has them. *)
Definition describes {R} (rs : Response R) (v : version) : Prop :=
  (Header_Get (rs_Header rs) "ETag" = ""%string \/ Header_Get (rs_Header rs) "ETag" = v_etag v) /\
  (Header_Get (rs_Header rs) "Last-Modified" = ""%string \/ Header_Get (rs_Header rs) "Last-Modified" = v_modified v).

(** RFC 9110: the answer to a request without conditions describes the resource
    (8.6, 8.8); a partial response carries the bytes its [Content-Range] says, of
    the representation whose size it says (14.4), and is only sent under an
    [If-Range] with an entity tag that matches (13.1.5). *)
Definition responds {W R} `{ReaderOK W R} (rq : Request) (rs : Response R) (v : version) : Prop :=
  describes rs v /\ v_size v <= MaxInt64 /\
  (rs_StatusCode rs <> StatusPartialContent -> 200 <= rs_StatusCode rs < 300 -> 0 <= rs_ContentLength rs -> rs_ContentLength rs = v_size v) /\
  (forall n, rs_StatusCode rs = StatusRequestedRangeNotSatisfiable ->
    parseUnsatisfiedSize (Header_Get (rs_Header rs) "Content-Range") = Some n -> n = v_size v) /\
  (rq_Method rq = "HEAD"%string -> rs_StatusCode rs <> StatusPartialContent) /\
  (rs_StatusCode rs = StatusPartialContent ->
    (forall a b n, parseContentRange (Header_Get (rs_Header rs) "Content-Range") = Some (a, b, n) ->
      n = v_size v /\ rc_rest (rs_Body rs) = slice a (b + 1) (v_content v)) /\
    (strong (Header_Get (rq_Header rq) "If-Range") -> Header_Get (rq_Header rq) "If-Range" = v_etag v)).

(** [srv_version url w] is what the resource is at the moment [w] (a device of the
    specification); a strong entity tag changes with the bytes (8.8.1). *)
Class HTTPServerOK (W R : Type) `{HTTP W R} `{!ReaderOK W R} := {
  srv_version : string -> W -> option version;
  srv_response : forall rq w rs w', http_Do rq w = (inr rs, w') -> rq_Method rq = "GET"%string \/ rq_Method rq = "HEAD"%string ->
    200 <= rs_StatusCode rs < 300 \/ rs_StatusCode rs = StatusRequestedRangeNotSatisfiable ->
    exists v, srv_version (rq_URL rq) w = Some v /\ responds rq rs v;
  srv_strong : forall url w1 w2 v1 v2, srv_version url w1 = Some v1 -> srv_version url w2 = Some v2 ->
    v_etag v1 = v_etag v2 -> strong (v_etag v1) -> v_content v1 = v_content v2
}.

Definition conditional_headers : list string := ["If-Match"; "If-None-Match"; "If-Modified-Since"; "If-Unmodified-Since"]%string.

(** A server that is up, has the resource and honours range requests (14.2). *)
Class HTTPServerServes (W R : Type) `{HTTPServerOK W R} := {
  srv_serves : forall rq w v a b, srv_version (rq_URL rq) w = Some v -> rq_Method rq = "GET"%string ->
    Header_Get (rq_Header rq) "Range" = "bytes=" +:+ pretty a +:+ "-" +:+ pretty b -> 0 <= a <= b -> b < v_size v ->
    Forall (fun key => Header_Get (rq_Header rq) key = ""%string) conditional_headers ->
    Header_Get (rq_Header rq) "If-Range" = v_etag v ->
    exists rs w', http_Do rq w = (inr rs, w') /\ rs_StatusCode rs = StatusPartialContent /\
      Header_Get (rs_Header rs) "Content-Range" = content_range a b (v_size v) /\
      (rs_ContentLength rs = b + 1 - a \/ rs_ContentLength rs = -1)
}.

(** The metadata [metadataFromResponse] makes of a description of [v]. *)
Definition describes_meta {W R} `{HTTP W R} (meta : Metadata) (v : version) : Prop :=
  MetaSize meta = v_size v /\ (ETag meta = ""%string \/ ETag meta = v_etag v) /\
  (LastModified meta = zeroTime \/ v_modified v <> ""%string /\ http_ParseTime (v_modified v) = Some (LastModified meta)).

(** The metadata are what the response says: the tag and the type in its headers,
    and its time if it has one that can be read. *)
Definition reports {W R} `{HTTP W R} (meta : Metadata) (rs : Response R) : Prop :=
  ETag meta = Header_Get (rs_Header rs) "ETag" /\ ContentType meta = Header_Get (rs_Header rs) "Content-Type" /\
  let value := Header_Get (rs_Header rs) "Last-Modified" in
  (value = ""%string -> LastModified meta = zeroTime) /\
  (value <> ""%string -> forall t, http_ParseTime value = Some t -> LastModified meta = t) /\
  (http_ParseTime value = None -> LastModified meta = zeroTime).

Section lemmas.
Context {W R : Type} `{HTTP W R}.

Lemma apply_headers_line headers rq :
  rq_Method (apply_headers headers rq) = rq_Method rq /\ rq_URL (apply_headers headers rq) = rq_URL rq.
Proof.
  revert rq. induction headers as [|[key values] headers IH]; intros rq; cbn [apply_headers]; [done|].
  destruct (strings_EqualFold key "Host"); [exact (IH (rq_set_Host _ rq))|exact (IH (rq_set_Header _ rq))].
Qed.

Lemma request_line s ctx method upstream rq : request s ctx method upstream = inr rq -> rq_Method rq = method /\ rq_URL rq = upstream.
Proof.
  unfold request, applyHeaders. destruct (url_Host upstream) as [?|host]; [done|]. intros [= <-].
  by rewrite !(proj1 (apply_headers_line _ _)), !(proj2 (apply_headers_line _ _)).
Qed.

Lemma clear_Get rq key : key ∈ ("Range" :: "If-Range" :: conditional_headers)%string ->
  Header_Get (rq_Header (clearClientRepresentationConditions rq)) key = ""%string.
Proof.
  intros Hkey. unfold clearClientRepresentationConditions. cbn [rq_Header rq_set_Header fold_left]. rewrite !Get_Del.
  unfold conditional_headers in Hkey. rewrite !elem_of_cons, elem_of_nil in Hkey.
  destruct_or! Hkey; try done; subst key; repeat (case_decide; [done|]); done.
Qed.

(** What is asked for a range. *)
Lemma range_request_ok (o : Object) ctx start end_ rq : range_request o ctx start end_ = inr rq ->
  rq_Method rq = "GET"%string /\ rq_URL rq = ho_upstream o /\
  Header_Get (rq_Header rq) "Range" = "bytes=" +:+ pretty start +:+ "-" +:+ pretty (i64 (end_ - 1)) /\
  Header_Get (rq_Header rq) "If-Range" = ifRangeValidator (ho_meta o) /\
  Forall (fun key => Header_Get (rq_Header rq) key = ""%string) conditional_headers.
Proof.
  unfold range_request. destruct (request _ _ _ _) as [?|rq0] eqn:Hrq; [done|]. apply request_line in Hrq as [Hm Hu]. intros Heq.
  apply (inj inr) in Heq. subst rq. pose proof (clear_Get rq0) as Hclear. set (rq1 := clearClientRepresentationConditions rq0) in *.
  assert (Hline : rq_Method rq1 = "GET"%string /\ rq_URL rq1 = ho_upstream o) by done. clearbody rq1. destruct Hline as [Hm1 Hu1].
  set (range := "bytes=" +:+ _). set (validator := ifRangeValidator _).
  assert (Hcond : forall key, key ∈ conditional_headers ->
    canonical "Range" <> canonical key /\ canonical "If-Range" <> canonical key /\ Header_Get (rq_Header rq1) key = ""%string).
  { intros key Hkey. split_and!; [..|apply Hclear; by do 2 right]; unfold conditional_headers in Hkey;
      rewrite !elem_of_cons, elem_of_nil in Hkey; by destruct_or! Hkey; subst. }
  destruct (bool_decide_reflect (validator = ""%string)) as [Hv|Hv]; cbn [rq_Method rq_URL rq_Header rq_set_Header]; split_and!; try done.
  - by rewrite Get_Set.
  - rewrite Get_Set_ne by done. rewrite Hv. apply Hclear. right. left.
  - apply Forall_forall. intros key Hkey. destruct (Hcond key Hkey) as (? & ? & ?). by rewrite Get_Set_ne.
  - by rewrite Get_Set_ne, Get_Set.
  - by rewrite Get_Set.
  - apply Forall_forall. intros key Hkey. destruct (Hcond key Hkey) as (? & ? & ?). by rewrite !Get_Set_ne.
Qed.

Lemma strong_validator meta : strong (ETag meta) -> ifRangeValidator meta = ETag meta.
Proof.
  intros [Ht [s Hs]]. unfold ifRangeValidator. rewrite Ht, Hs. done.
Qed.
End lemmas.

Section proofs.
Context {W R : Type} `{HTTPServerOK W R}.

(** A response that passes: everything the code looks at. *)
Lemma check_response_None expected start end_ rq (rs : Response R) : check_response expected start end_ rq rs = None ->
  rs_StatusCode rs = StatusPartialContent /\
  exists n, parseContentRange (Header_Get (rs_Header rs) "Content-Range") = Some (start, i64 (end_ - 1), n) /\
    (0 <= MetaSize expected -> n = MetaSize expected).
Proof.
  unfold check_response. destruct (_ =? StatusNotFound); [done|]. destruct (_ =? StatusRequestedRangeNotSatisfiable); [done|].
  destruct (_ =? StatusOK); [by destruct (negb _)|]. destruct (Z.eqb_spec (rs_StatusCode rs) StatusPartialContent); [cbn [negb]|done].
  destruct (parseContentRange _) as [[[a b] n]|]; [|done].
  destruct (Z.eqb_spec a start); [|done]. destruct (Z.eqb_spec b (i64 (end_ - 1))); [cbn [negb orb]|done].
  destruct (Z.leb_spec 0 (MetaSize expected)), (Z.eqb_spec n (MetaSize expected)); cbn [negb andb]; try done;
    intros _; (split; [done|]); exists n; (split; [congruence|]); intros; [done|lia|lia].
Qed.

Lemma OpenRange_inr o ctx start end_ w r w' : OpenRange o ctx start end_ w = (inr r, w') ->
  exists rq rs, range_request o ctx start end_ = inr rq /\ http_Do rq w = (inr rs, w') /\ r = rs_Body rs /\
    check_response (ho_meta o) start end_ rq rs = None.
Proof.
  unfold OpenRange. destruct ((start <? 0) || _); [done|]. destruct ((0 <=? MetaSize _) && _); [done|].
  destruct (range_request o ctx start end_) as [?|rq] eqn:Hrq; [done|]. destruct (http_Do rq w) as [[?|rs] w1] eqn:Hdo; [done|].
  destruct (check_response _ _ _ _ _) eqn:Hc; [done|]. intros [= <- <-]. by exists rq, rs.
Qed.

(** [o] has been opened on [v]: what it knows of it identifies it. *)
Definition opened_on (o : Object) (v : version) : Prop :=
  (exists w, srv_version (ho_upstream o) w = Some v) /\ describes_meta (ho_meta o) v /\ strong (ETag (ho_meta o)).

Lemma opened_etag o v : opened_on o v -> ETag (ho_meta o) = v_etag v.
Proof. intros (_ & (_ & [He|He] & _) & _ & s & Hs); [congruence|done]. Qed.

Lemma OpenRange_body o v ctx start end_ w r w' : opened_on o v -> 0 <= start < end_ -> end_ <= v_size v -> v_size v <= MaxInt64 ->
  OpenRange o ctx start end_ w = (inr r, w') -> rc_rest r = slice start end_ (v_content v).
Proof.
  intros Ho Hs He Hmax Hopen. pose proof (opened_etag o v Ho) as Hetag. destruct Ho as ([w0 Hw0] & (Hsize & _) & Hstrong).
  apply OpenRange_inr in Hopen as (rq & rs & Hrq & Hdo & -> & Hc). apply range_request_ok in Hrq as (Hm & Hu & _ & Hif & _).
  apply check_response_None in Hc as (Hst & n & Hcr & _). rewrite strong_validator in Hif by done.
  destruct (srv_response rq w rs w' Hdo) as (v' & Hv' & _ & _ & _ & _ & _ & Hpart); [by left|left; rewrite Hst; done|].
  destruct (Hpart Hst) as [Hbody Hmatch]. specialize (Hbody _ _ _ Hcr) as [_ Hrest].
  rewrite Hif in Hmatch. specialize (Hmatch Hstrong). rewrite Hu in Hv'.
  assert (Hcont : v_content v' = v_content v).
  { eapply srv_strong; [exact Hv'|exact Hw0|congruence|]. by rewrite <- Hmatch. }
  rewrite Hrest, Hcont. rewrite i64_id by i64_side. f_equal. lia.
Qed.

Lemma check_response_passes (meta : Metadata) v start end_ rq (rs : Response R) : describes_meta meta v -> describes rs v ->
  0 <= start < end_ -> end_ <= v_size v -> v_size v <= MaxInt64 ->
  rs_StatusCode rs = StatusPartialContent -> Header_Get (rs_Header rs) "Content-Range" = content_range start (end_ - 1) (v_size v) ->
  rs_ContentLength rs = end_ - start \/ rs_ContentLength rs = -1 -> check_response meta start end_ rq rs = None.
Proof.
  intros (Hsize & Hetag & Hmod) (Hetag' & Hmod') Hs He Hmax Hst Hcr Hlen. unfold check_response. rewrite Hst, Hcr.
  cbn [Z.eqb StatusPartialContent StatusNotFound StatusRequestedRangeNotSatisfiable StatusOK Pos.eqb negb].
  rewrite parse_content_range by i64_side. i64_norm.
  destruct (Z.ltb_spec (end_ - 1) start); [lia|]. destruct (Z.leb_spec (v_size v) (end_ - 1)); [lia|]. cbn [orb].
  rewrite !Z.eqb_refl, Hsize, Z.eqb_refl, andb_false_r. cbn [negb orb].
  assert (Hlc : (0 <=? rs_ContentLength rs) && negb (rs_ContentLength rs =? end_ - start) = false).
  { destruct Hlen as [->| ->]; [by rewrite Z.eqb_refl, andb_false_r|done]. }
  rewrite Hlc. set (etag := Header_Get _ "ETag") in *. set (value := Header_Get _ "Last-Modified") in *.
  assert (Hec : negb (bool_decide (ETag meta = ""%string)) && negb (bool_decide (etag = ""%string)) && negb (bool_decide (etag = ETag meta)) = false).
  { destruct Hetag as [->|Hem]; [by rewrite bool_decide_eq_true_2|]. destruct Hetag' as [Het|Het].
    - rewrite (bool_decide_eq_true_2 _ Het). by destruct (bool_decide (ETag meta = _)).
    - rewrite (bool_decide_eq_true_2 (etag = ETag meta)) by congruence. by rewrite andb_false_r. }
  rewrite Hec. assert (Hmc : negb (Time_IsZero (LastModified meta)) && negb (bool_decide (value = ""%string)) &&
    match http_ParseTime value with Some got => negb (got =? LastModified meta) | None => false end = false); [|by rewrite Hmc].
  destruct Hmod as [->|[Hne Hp]]; [done|]. destruct Hmod' as [Hv|Hv].
  - rewrite (bool_decide_eq_true_2 _ Hv). by destruct (Time_IsZero _).
  - rewrite Hv, Hp, Z.eqb_refl. by rewrite andb_false_r.
Qed.

Lemma OpenRange_opens `{!HTTPServerServes W R} o v ctx start end_ w host : opened_on o v -> v_size v <= MaxInt64 ->
  srv_version (ho_upstream o) w = Some v -> url_Host (ho_upstream o) = inr host -> 0 <= start < end_ -> end_ <= v_size v ->
  exists r w', OpenRange o ctx start end_ w = (inr r, w').
Proof.
  intros Ho Hmax Hv Hhost Hs He. pose proof (opened_etag o v Ho) as Hetag. destruct Ho as (_ & Hmeta & Hstrong). pose proof Hmeta as (Hsize & _).
  unfold OpenRange. rewrite Hsize. destruct (Z.ltb_spec start 0); [lia|]. destruct (Z.leb_spec end_ start); [lia|]. cbn [orb].
  destruct (Z.ltb_spec (v_size v) end_); [lia|]. rewrite andb_false_r.
  destruct (range_request o ctx start end_) as [?|rq] eqn:Hrq; [unfold range_request, request in Hrq; by rewrite Hhost in Hrq|].
  apply range_request_ok in Hrq as (Hm & Hu & Hrange & Hif & Hcond). rewrite i64_id in Hrange by i64_side.
  rewrite strong_validator in Hif by done.
  destruct (srv_serves rq w v start (end_ - 1)) as (rs & w1 & Hdo & Hst & Hcr & Hlen); [by rewrite Hu|done|done|lia|lia|done|congruence|].
  rewrite Hdo. destruct (srv_response rq w rs w1 Hdo) as (v' & Hv' & Hd & _); [by left|left; rewrite Hst; done|].
  rewrite Hu, Hv in Hv'. injection Hv' as <-.
  rewrite (check_response_passes _ v) by (done || lia). by eexists _, _.
Qed.

Lemma metadataFromResponse_ok (rs : Response R) v : describes rs v -> describes_meta (metadataFromResponse rs (v_size v)) v.
Proof.
  intros [He Hm]. split; [done|]. split; [exact He|]. cbn. case_bool_decide as Hv; [by left|].
  destruct Hm as [?|Hm]; [done|]. rewrite Hm in *. destruct (http_ParseTime _) as [t|] eqn:Hp; [right|by left]. by split.
Qed.

Lemma metadataFromResponse_reports (rs : Response R) size : reports (metadataFromResponse rs size) rs.
Proof.
  unfold reports, metadataFromResponse. cbn. split_and!; [done..| | |]; case_bool_decide; try done.
  - by intros _ t ->.
  - by intros ->.
Qed.

(** [meta] are those of what the resource was when [rq] was answered, and of that
    answer. *)
Definition answered (upstream : string) (rq : Request) (w0 : W) (meta : Metadata) : Prop :=
  exists rs w1 v, http_Do rq w0 = (inr rs, w1) /\ srv_version upstream w0 = Some v /\ describes_meta meta v /\ reports meta rs.

Lemma metadata_answered upstream rq w0 (rs : Response R) w1 v size : http_Do rq w0 = (inr rs, w1) -> srv_version upstream w0 = Some v ->
  describes rs v -> size = v_size v -> answered upstream rq w0 (metadataFromResponse rs size).
Proof. intros Hdo Hv Hd ->. exists rs, w1, v. split; [done|]. split; [done|]. split; [by apply metadataFromResponse_ok|apply metadataFromResponse_reports]. Qed.

(** The requests that [Open] makes. *)
Definition stat_head (s : Source) (ctx : context) (upstream : string) (rq : Request) : Prop :=
  exists rq0, request s ctx "HEAD" upstream = inr rq0 /\ rq = clearClientRepresentationConditions rq0.
Definition stat_range (s : Source) (ctx : context) (upstream : string) (rq : Request) : Prop :=
  exists rq0, request s ctx "GET" upstream = inr rq0 /\
    rq = rq_set_Header (Header_Set "Range" "bytes=0-0" (rq_Header (clearClientRepresentationConditions rq0))) (clearClientRepresentationConditions rq0).

Lemma statHEAD_ok s ctx upstream w meta w' : statHEAD s ctx upstream w = (meta, false, None, w') ->
  exists rq, stat_head s ctx upstream rq /\ answered upstream rq w meta.
Proof.
  unfold statHEAD. destruct (request s ctx "HEAD" upstream) as [?|rq] eqn:Hrq; [done|]. pose proof Hrq as [Hm Hu]%request_line.
  destruct (http_Do _ w) as [[?|rs] w1] eqn:Hdo; [done|]. intros Heq.
  assert (Hres : head_result rs = (meta, false, None)) by (destruct (head_result rs) as [[??] ?]; congruence). clear Heq.
  unfold head_result in Hres. destruct (_ =? StatusNotFound); [done|]. destruct (_ || (_ =? StatusNotImplemented)); [done|].
  destruct (Z.ltb_spec (rs_StatusCode rs) 200), (Z.leb_spec 300 (rs_StatusCode rs)); cbn [orb] in Hres; try done.
  destruct (Z.ltb_spec (rs_ContentLength rs) 0); [done|]. injection Hres as <-.
  destruct (srv_response _ w rs w1 Hdo) as (v & Hv & Hd & _ & Hlen & _ & Hhead & _); [by right|by left|].
  eexists. split; [by exists rq|]. eapply metadata_answered; [exact Hdo|by rewrite <- Hu|done|]. apply Hlen; [by apply Hhead|done|done].
Qed.

Lemma statRange_ok s ctx upstream w meta w' : statRange s ctx upstream w = (inr meta, w') ->
  exists rq, stat_range s ctx upstream rq /\ answered upstream rq w meta.
Proof.
  unfold statRange. destruct (request s ctx "GET" upstream) as [?|rq] eqn:Hrq; [done|]. pose proof Hrq as [Hm Hu]%request_line.
  destruct (http_Do _ w) as [[?|rs] w1] eqn:Hdo; [done|]. intros Heq.
  assert (Hres : range_result rs = inr meta) by congruence. clear Heq. eexists. split; [by exists rq|].
  assert (Hsrv := fun Hst => srv_response _ w rs w1 Hdo (or_introl Hm) Hst). cbn [rq_URL rq_set_Header clearClientRepresentationConditions] in Hsrv.
  rewrite Hu in Hsrv. unfold range_result in Hres.
  destruct (_ =? StatusNotFound); [done|]. destruct (Z.eqb_spec (rs_StatusCode rs) StatusRequestedRangeNotSatisfiable) as [Hst|].
  { destruct (Hsrv (or_intror Hst)) as (v & Hv & Hd & _ & _ & Hun & _).
    destruct (parseUnsatisfiedSize (Header_Get (rs_Header rs) "Content-Range")) as [size|]; [|done].
    destruct (Z.eqb_spec size 0) as [Hz|]; [|done]. injection Hres as <-. eapply metadata_answered; [exact Hdo|done|done|].
    rewrite <- Hz. by apply Hun. }
  destruct (Z.eqb_spec (rs_StatusCode rs) StatusPartialContent) as [Hst|Hnp].
  { destruct Hsrv as (v & Hv & Hd & _ & _ & _ & _ & Hpart); [left; rewrite Hst; done|].
    destruct (parseContentRange _) as [[[a b] size]|]; [|done]. destruct (negb (a =? 0) || negb (b =? 0) || _); [done|]. injection Hres as <-.
    eapply metadata_answered; [exact Hdo|done|done|]. destruct (Hpart Hst) as [Hbody _]. by destruct (Hbody _ _ _ eq_refl) as [Hn _]. }
  destruct (Z.eqb_spec (rs_StatusCode rs) StatusOK) as [Hst|]; [|done]. destruct (Z.leb_spec 0 (rs_ContentLength rs)); [|done]. injection Hres as <-.
  destruct Hsrv as (v & Hv & Hd & _ & Hlen & _); [left; rewrite Hst; done|]. eapply metadata_answered; [exact Hdo|done|done|].
  apply Hlen; [done|rewrite Hst; done|done].
Qed.
End proofs.

(** HTTP objects as the origin objects of the cache. *)
#[local] Instance http_SourceObject {W R} `{HTTP W R} (ctx : context) : SourceObject W R Object := {
  src_Metadata := ho_meta;
  src_OpenRange := fun o start end_ w => OpenRange o ctx start end_ w
}.

Lemma http_origin_OK {W R} `{HTTPServerOK W R} (ctx : context) (o : Object) v : opened_on o v -> v_size v <= MaxInt64 ->
  @SourceObjectOK W R Object _ (http_SourceObject ctx) _ o (v_content v).
Proof. intros Ho Hmax. constructor. intros start end_ w r w' Hs He Hopen. cbn in Hopen. eapply OpenRange_body; try done. Qed.

(** ** Theorems *)

(** C9. http_OpenRange_exact: on servers that keep to HTTP, an object opened on a
    representation with a strong validator gives out, for a range, exactly the
    bytes [start, end) of that representation or an error, whatever the server
    has made of the resource since; through the adapter the engine gets the bytes
    of the span it asked for; and while the server still has the representation
    and answers, a range opens. *)
Theorem http_OpenRange_exact {W R} `{HTTPServerOK W R} (o : Object) v ctx w :
  opened_on o v -> v_size v <= MaxInt64 ->
  (forall start end_ r w', 0 <= start < end_ -> end_ <= v_size v ->
    OpenRange o ctx start end_ w = (inr r, w') -> rc_rest r = slice start end_ (v_content v)) /\
  (forall span r w', span_ok span ->
    @sourceObject_Open W R Object _ (http_SourceObject ctx) (mkSourceObject o (ho_meta o)) span w = (inr r, w') ->
    rc_rest r = span_bytes (v_content v) span) /\
  (forall start end_, HTTPServerServes W R -> srv_version (ho_upstream o) w = Some v ->
    (exists host, url_Host (ho_upstream o) = inr host) -> 0 <= start < end_ -> end_ <= v_size v ->
    exists r w', OpenRange o ctx start end_ w = (inr r, w')).
Proof.
  intros Ho Hmax. split_and!.
  - intros start end_ r w' Hs He. by apply OpenRange_body.
  - intros span r w' Hsp Hopen.
    pose proof (@sourceObject_OK W R Object _ (http_SourceObject ctx) (mkSourceObject o (ho_meta o)) (v_content v) _ (http_origin_OK ctx o v Ho Hmax)) as Hok.
    assert (Hsz : MetaSize (ho_meta o) = v_size v) by apply Ho. specialize (Hok Hsz Hmax). by apply (@obj_Open_ok _ _ _ _ _ _ Hok) in Hopen.
  - intros start end_ Hserves Hv [host Hhost] Hs He. by apply (OpenRange_opens o v ctx start end_ w host).
Qed.

(** C25. http_Open_describes_the_object: when [Open] succeeds, the object is the one
    the resolver names, for the request's headers, and its metadata are those of
    what the server had at the [HEAD] request or, when its answer said too little,
    at the request for the first byte after it: the size is the number of bytes;
    the tag, the type and the time are those of the answer, where it has none there
    is none (nor when the time cannot be read), and a tag or a time that is there
    is that of the representation. *)
Theorem http_Open_describes_the_object {W R} `{HTTPServerOK W R} (s : Source) ctx key w (o : Object) w' :
  Open s ctx key w = (inr o, w') ->
  resolve s ctx key = inr (ho_upstream o) /\ ho_source o = s /\ ho_headers o = cloneHeaders (RequestHeaders ctx) /\
  exists rq w0, answered (ho_upstream o) rq w0 (ho_meta o) /\
    (stat_head s ctx (ho_upstream o) rq /\ w0 = w \/
     stat_range s ctx (ho_upstream o) rq /\ exists meta, statHEAD s ctx (ho_upstream o) w = (meta, true, None, w0)).
Proof.
  unfold Open. destruct (resolve s ctx key) as [?|upstream]; [done|]. destruct (statHEAD s ctx upstream w) as [[[meta fallback] err] w1] eqn:Hhead.
  destruct err as [?|]; [by destruct fallback|]. destruct fallback.
  - destruct (statRange s ctx upstream w1) as [[?|meta'] w2] eqn:Hrange; [done|]. intros [= <- <-]. cbn. rewrite Hhead.
    apply statRange_ok in Hrange as (rq & Hrq & Hans). split_and!; [done..|]. exists rq, w1. split; [done|]. right. split; [done|]. by exists meta.
  - intros [= <- <-]. cbn. apply statHEAD_ok in Hhead as (rq & Hrq & Hans). split_and!; [done..|]. exists rq, w. split; [done|]. by left.
Qed.

(** C26. contentRange_roundtrip: a [Content-Range] written by a server is read back
    exactly when it names a range inside the size, and whatever is read from a
    header is such a range, within 64 bits. *)
Theorem contentRange_roundtrip a b n : in64 a -> in64 b -> in64 n ->
  parseContentRange (content_range a b n) = (if (0 <=? a) && (a <=? b) && (b <? n) then Some (a, b, n) else None) /\
  (forall value a b n, parseContentRange value = Some (a, b, n) -> 0 <= a <= b /\ b < n /\ n <= MaxInt64).
Proof.
  intros Ha Hb Hn. split; [|apply parseContentRange_bounds]. destruct (Z.leb_spec 0 a); [|by apply parse_content_range_neg].
  rewrite parse_content_range by done. cbn [andb]. by destruct (Z.ltb_spec b a), (Z.leb_spec a b), (Z.leb_spec n b), (Z.ltb_spec b n); try lia.
Qed.

(** ** A server

    It has two representations of a resource, one after the other, and honours
    single ranges. *)
Record demo_net := mkNet { dn_new : bool; dn_script : script }.
Definition demo_version (new : bool) : version :=
  mkVersion (if new then [x07; x08; x09] else demo_content) (String (ascii_of_nat 34) (if new then "b'" else "a'")) "" "".

#[export] Instance demo_net_ReadCloser : ReadCloser demo_net (list byte) := {
  rc_Read := fun n r w => let '(d, err, r, sc) := scripted_Read n r (dn_script w) in (d, err, r, mkNet (dn_new w) sc);
  rc_Close := fun _ w => (None, w)
}.
#[export] Instance demo_net_ReaderOK : ReaderOK demo_net (list byte).
Proof.
  refine {| rc_rest := fun r => r |}. intros n r w d err r' w'. cbn. destruct (scripted_Read n r (dn_script w)) as [[[d1 e1] r1] sc] eqn:Hr.
  intros [= <- <- <- <-]. exact (rc_Read_ok (W:=script) (R:=list byte) n r (dn_script w) d1 e1 r1 sc Hr).
Defined.

Definition demo_range (value : string) : option (Z * Z) :=
  if strings_HasPrefix value "bytes=" then
    '(x, y) ← strings_Cut (strings_TrimPrefix value "bytes=") "-"; a ← strconv_ParseInt x; b ← strconv_ParseInt y; Some (a, b)
  else None.
Definition demo_Do (rq : Request) (w : demo_net) : (error + Response (list byte)) * demo_net :=
  let v := demo_version (dn_new w) in
  let h : Header := {["Etag"%string := [v_etag v]]} in
  let full := mkResponse StatusOK h (v_size v) (v_content v) in
  if bool_decide (rq_Method rq = "HEAD"%string) then (inr full, w)
  else
    match demo_range (Header_Get (rq_Header rq) "Range") with
    | Some (a, b) =>
        if (0 <=? a) && (a <=? b) && (b <? v_size v) && bool_decide (Header_Get (rq_Header rq) "If-Range" ∈ [""%string; v_etag v]) then
          (inr (mkResponse StatusPartialContent (Header_Set "Content-Range" (content_range a b (v_size v)) h) (b + 1 - a) (slice a (b + 1) (v_content v))), w)
        else (inr full, w)
    | None => (inr full, w)
    end.

#[export] Instance demo_HTTP : HTTP demo_net (list byte) := {
  http_Do := demo_Do;
  url_Host := fun _ => inr "example.org"%string;
  http_ParseTime := fun _ => None;
  http_FormatTime := fun _ => ""%string;
  header_range := fun h => map_to_list h
}.

Lemma demo_full rq new : let v := demo_version new in
  responds rq (mkResponse StatusOK {["Etag"%string := [v_etag v]]} (v_size v) (v_content v)) v.
Proof. cbn zeta. split; [split; [right|left]; done|]. split; [by destruct new|]. by split_and!. Qed.

#[export] Instance demo_HTTPServerOK : HTTPServerOK demo_net (list byte).
Proof.
  refine {| srv_version := fun _ w => Some (demo_version (dn_new w)) |}.
  - intros rq w rs w' Hdo Hm Hst. exists (demo_version (dn_new w)). split; [done|].
    change (http_Do rq w) with (demo_Do rq w) in Hdo. unfold demo_Do in Hdo. pose proof (demo_full rq (dn_new w)) as Hfull.
    assert (Hsz : v_size (demo_version (dn_new w)) <= 10) by (by destruct (dn_new w)).
    set (v := demo_version (dn_new w)) in *.
    destruct (bool_decide_reflect (rq_Method rq = "HEAD"%string)); [by injection Hdo as <- <-|].
    destruct (demo_range _) as [[a b]|]; [|by injection Hdo as <- <-].
    destruct ((0 <=? a) && (a <=? b) && (b <? v_size v)) eqn:Hab; [|by injection Hdo as <- <-].
    destruct (bool_decide_reflect (Header_Get (rq_Header rq) "If-Range" ∈ [""%string; v_etag v])) as [Hif|]; [|by injection Hdo as <- <-].
    injection Hdo as <- <-. unfold responds. cbn [rs_StatusCode rs_Header rs_ContentLength rs_Body]. split_and!; try done.
    + split; [right|left]; cbn [rs_Header]; by rewrite Get_Set_ne.
    + unfold MaxInt64. lia.
    + intros _. split.
      * intros a' b' n'. rewrite Get_Set, parse_content_range by i64_side. destruct (_ || _); [done|]. by intros [= <- <- <-].
      * intros [_ [s Hs]]. rewrite !elem_of_cons, elem_of_nil in Hif. destruct Hif as [Hif|[Hif|[]]]; [by rewrite Hif in Hs|done].
  - intros _ w1 w2 v1 v2 [= <-] [= <-] He _. by destruct (dn_new w1), (dn_new w2).
Defined.

#[export] Instance demo_HTTPServerServes : HTTPServerServes demo_net (list byte).
Proof.
  constructor. intros rq w v a b [= <-] Hm Hr Hab Hb _ Hif. set (v := demo_version (dn_new w)) in *.
  assert (Hsz : v_size v <= 10) by (subst v; by destruct (dn_new w)).
  assert (Hrange : demo_range (Header_Get (rq_Header rq) "Range") = Some (a, b)).
  { rewrite Hr. unfold demo_range. destruct (TrimPrefix_app "bytes=" (pretty a +:+ "-" +:+ pretty b)) as [-> ->].
    change (pretty a +:+ "-" +:+ pretty b) with (pretty a +:+ String "-" (pretty b)). rewrite Cut_app by (apply pretty_nonneg_lacks_minus; lia).
    cbn. by rewrite !ParseInt_pretty by i64_side. }
  cbn [http_Do demo_HTTP]. unfold demo_Do. rewrite bool_decide_eq_false_2 by (by rewrite Hm). rewrite Hrange. fold v.
  destruct (Z.leb_spec 0 a); [|lia]. destruct (Z.leb_spec a b); [|lia]. destruct (Z.ltb_spec b (v_size v)); [|lia].
  rewrite (bool_decide_eq_true_2 (_ ∈ _)) by (rewrite Hif; right; left). eexists _, _. split; [done|]. split_and!; [done|cbn [rs_Header]; by rewrite Get_Set|by left].
Qed.

(** An object opened on the first representation. *)
Definition demo_source : Source := New (Some (fun _ key => inr ("http://example.org/" +:+ key))).
Definition demo_object : Object := mkObject demo_source "http://example.org/k" (mkMetadata 10 (String (ascii_of_nat 34) "a'") zeroTime "") ∅.

Lemma http_OpenRange_exact_witness :
  (forall start end_ r w', 0 <= start < end_ -> end_ <= 10 ->
    OpenRange demo_object None start end_ (mkNet true (mkScript [])) = (inr r, w') -> rc_rest r = slice start end_ demo_content) /\
  OpenRange demo_object None 2 5 (mkNet true (mkScript [])) = (inl (Wrap "upstream returned full response to If-Range request" ErrObjectChanged), mkNet true (mkScript [])) /\
  (exists r w', OpenRange demo_object None 2 5 (mkNet false (mkScript [])) = (inr r, w')).
Proof.
  assert (Ho : opened_on demo_object (demo_version false)).
  { split; [by exists (mkNet false (mkScript []))|]. split; [split; [done|split; [by right|by left]]|]. split; [by vm_compute|by eexists]. }
  split; [|split; [by vm_compute|]].
  - apply (http_OpenRange_exact demo_object (demo_version false) None (mkNet true (mkScript [])) Ho). vm_compute. discriminate.
  - apply (http_OpenRange_exact demo_object (demo_version false) None (mkNet false (mkScript [])) Ho); [vm_compute; discriminate|exact _|done|by eexists|lia|vm_compute; discriminate].
Defined.

Lemma http_Open_describes_the_object_witness :
  resolve demo_source None "k" = inr "http://example.org/k"%string /\
  exists rq w0, answered (W:=demo_net) (R:=list byte) "http://example.org/k" rq w0 (ho_meta demo_object) /\ rq_Method rq = "HEAD"%string.
Proof.
  destruct (http_Open_describes_the_object demo_source None "k" (mkNet false (mkScript [])) demo_object (mkNet false (mkScript []))) as (Hr & _ & _ & rq & w0 & Hans & Hst);
    [by vm_compute|]. split; [exact Hr|]. exists rq, w0. split; [exact Hans|].
  destruct Hst as [[(rq0 & Hrq & ->) _]|[_ [meta Hhead]]]; [by apply request_line in Hrq as [Hm _]|]. vm_compute in Hhead. discriminate Hhead.
Defined.

Lemma contentRange_roundtrip_witness :
  parseContentRange "bytes 2-4/10" = Some (2, 4, 10) /\ parseContentRange (content_range 2 4 10) = Some (2, 4, 10).
Proof.
  split; [by vm_compute|]. refine (proj1 (contentRange_roundtrip 2 4 10 _ _ _)); unfold in64, MinInt64, MaxInt64; lia.
Defined.
