(* ===== verification/Sequential.v ===== *)
(** * The sequential chunk reader

    [src/internal/engine/chunkstream/sequential.go]: an object is read through a
    series of ranged opens ("chunks") whose size doubles up to a limit. *)
From stdpp Require Import base numbers list strings.
From Stdlib Require Import ZArith Lia Init.Byte.
From S2P Require Import Prelude.
From S2P Require Import GoIO.
From S2P Require Import ObjectIO.
From S2P Require Import SourceObject.

Local Open Scope Z_scope.
Local Open Scope go_scope.

(** [objectio.RangeSeeker], when the stream type implements it:
    [RangeSeek(ctx, offset, io.SeekStart, length)]. *)
Class RangeSeeker (W R : Type) := {
  rs_RangeSeek : R -> option (Z -> Z -> W -> (error + Z) * R * W)
}.

Record sequential (R : Type) := mkSequential {
  sq_rc : option R;
  sq_offset : Z;
  sq_chunkOffset : Z;
  sq_chunkSize : Z;
  sq_initialChunkSize : Z;
  sq_maxChunkSize : Z;
  sq_customChunkSize : bool;
  sq_closed : bool
}.
Arguments mkSequential {R}.
Arguments sq_rc {R}. Arguments sq_offset {R}. Arguments sq_chunkOffset {R}. Arguments sq_chunkSize {R}.
Arguments sq_initialChunkSize {R}. Arguments sq_maxChunkSize {R}. Arguments sq_customChunkSize {R}.
Arguments sq_closed {R}.

(** The fields the methods assign. *)
Definition sq_set {R} (cr : sequential R) (rc : option R) (offset chunkOffset chunkSize : Z)
    (custom closed : bool) : sequential R :=
  mkSequential rc offset chunkOffset chunkSize (sq_initialChunkSize cr) (sq_maxChunkSize cr)
    custom closed.

Section sequential.
Context {W R : Type} `{Object W R} `{!RangeSeeker W R}.

Definition newSequential (initialChunkSize maxChunkSize : Z) : sequential R :=
  mkSequential None (-1) 0 initialChunkSize initialChunkSize maxChunkSize false false.

Definition sequential_resetReader (cr : sequential R) (rc : option R) (offset : Z) (w : W)
  : option error * sequential R * W :=
  let ok w := (None, sq_set cr rc offset (sq_chunkOffset cr) (sq_chunkSize cr)
                       (sq_customChunkSize cr) (sq_closed cr), w) in
  match sq_rc cr with
  | Some old =>
    let '(err, w') := rc_Close old w in
    match err with Some e => (Some e, cr, w') | None => ok w' end
  | None => ok w
  end.

(** The opening of the chunk when the old stream cannot seek to it. *)
Definition sequential_openChunk (cr : sequential R) (offset length : Z) (w : W)
  : option error * sequential R * W :=
  let span :=
    if length <=? 0 then
      if offset =? 0 then None else Some (mkSpan offset (-1))
    else Some (mkSpan offset (offset +! length -! 1)) in
  let '(res, w') := obj_Open span w in
  match res with
  | inl e => (Some e, cr, w')
  | inr rc => sequential_resetReader cr (Some rc) offset w'
  end.

Definition sequential_openRange (cr : sequential R) (w : W) : option error * sequential R * W :=
  let offset := sq_chunkOffset cr in
  let length := sq_chunkSize cr in
  let seeked rc off := sq_set cr (Some rc) off (sq_chunkOffset cr) (sq_chunkSize cr)
                         (sq_customChunkSize cr) (sq_closed cr) in
  if sq_closed cr then (Some ErrorFileClosed, cr, w)
  else
    match sq_rc cr with
    | Some rc =>
      match rs_RangeSeek rc with
      | Some seek =>
        let '(res, rc', w') := seek offset length w in
        match res with
        | inr n =>
          if n =? offset then (None, seeked rc' offset, w')
          else sequential_openChunk (seeked rc' (sq_offset cr)) offset length w'
        | inl _ => sequential_openChunk (seeked rc' (sq_offset cr)) offset length w'
        end
      | None => sequential_openChunk cr offset length w
      end
    | None => sequential_openChunk cr offset length w
    end.

(** The size of the chunk that follows a chunk read completely. *)
Definition sequential_nextChunkSize (cr : sequential R) : Z :=
  if sq_customChunkSize cr then sq_initialChunkSize cr
  else
    let chunkSize := sq_chunkSize cr *! 2 in
    if (sq_maxChunkSize cr <? chunkSize) && negb (sq_maxChunkSize cr =? -1)
    then sq_maxChunkSize cr else chunkSize.

(** The [switch] at the top of [Read]'s loop: the end of the current chunk and
    the result of opening it, if it has to be opened. *)
Definition sequential_advance (cr : sequential R) (w : W) : Z * (option error * sequential R * W) :=
  let chunkEnd := sq_chunkOffset cr +! sq_chunkSize cr in
  if (0 <? sq_chunkSize cr) && (sq_offset cr =? chunkEnd) then
    let cr' := sq_set cr (sq_rc cr) (sq_offset cr) (sq_offset cr)
                 (sequential_nextChunkSize cr) false (sq_closed cr) in
    (sq_chunkOffset cr' +! sq_chunkSize cr', sequential_openRange cr' w)
  else if sq_offset cr =? -1 then (chunkEnd, sequential_openRange cr w)
  else (chunkEnd, (None, cr, w)).

(** The loop of [Read]; [n] is what is left of [p]. *)
Fixpoint sequential_Read_loop (fuel n : nat) (cr : sequential R) (w : W)
  : run (list byte * option error * sequential R * W) :=
  match fuel with
  | O => OutOfFuel
  | S fuel' =>
    let reqSize := Z.of_nat n in
    if 0 <? reqSize then
      let '(chunkEnd, (err, cr1, w1)) := sequential_advance cr w in
      match err with
      | Some e => Ret ([], Some e, cr1, w1)
      | None =>
        let chunkRest := chunkEnd -! sq_offset cr1 in
        let split := (chunkRest <? reqSize) && (0 <? sq_chunkSize cr1) in
        if split && (chunkRest <? 0) then Panic
        else
          let '(buf, rest) := if split then (Z.to_nat chunkRest, (n - Z.to_nat chunkRest)%nat)
                              else (n, O) in
          match sq_rc cr1 with
          | None => Panic
          | Some rc =>
            '(d, err, rc', w2) ← io_ReadFull fuel buf rc w1;
            let cr2 := sq_set cr1 (Some rc') (sq_offset cr1 +! Z.of_nat (length d))
                         (sq_chunkOffset cr1) (sq_chunkSize cr1)
                         (sq_customChunkSize cr1) (sq_closed cr1) in
            match err with
            | Some e =>
              Ret (d, Some (if bool_decide (e = io_ErrUnexpectedEOF) then io_EOF else e), cr2, w2)
            | None =>
              '(d', err', cr', w') ← sequential_Read_loop fuel' rest cr2 w2;
              Ret (d ++ d', err', cr', w')
            end
          end
      end
    else Ret ([], None, cr, w)
  end.

Definition sequential_Read (fuel n : nat) (cr : sequential R) (w : W)
  : run (list byte * option error * sequential R * W) :=
  if sq_closed cr then Ret ([], Some ErrorFileClosed, cr, w)
  else sequential_Read_loop fuel n cr w.

Definition sequential_Close (cr : sequential R) (w : W) : option error * sequential R * W :=
  if sq_closed cr then (Some ErrorFileClosed, cr, w)
  else
    sequential_resetReader
      (sq_set cr (sq_rc cr) (sq_offset cr) (sq_chunkOffset cr) (sq_chunkSize cr)
         (sq_customChunkSize cr) true) None 0 w.

(** [RangeSeek(ctx, offset, whence, length)]: [(n, err)] and the reader. *)
Definition sequential_RangeSeek (offset whence length : Z) (cr : sequential R)
  : Z * option error * sequential R :=
  if sq_closed cr then (0, Some ErrorFileClosed, cr)
  else
    let size := obj_Size in
    if (whence =? io_SeekEnd) && (size <? 0) then (0, Some ErrorInvalidSeek, cr)
    else
      let base := if whence =? io_SeekStart then 0
                  else if whence =? io_SeekEnd then size else sq_offset cr in
      let chunkOffset := base +! offset in
      let custom := if 0 <? length then true else sq_customChunkSize cr in
      let chunkSize := if 0 <? length then length else sq_initialChunkSize cr in
      let set chunkOffset := sq_set cr (sq_rc cr) (-1) chunkOffset chunkSize custom (sq_closed cr) in
      if (chunkOffset <? 0) || (size <=? chunkOffset) then (0, Some ErrorInvalidSeek, set 0)
      else (chunkOffset, None, set chunkOffset).

Definition sequential_Seek (offset whence : Z) (cr : sequential R) : Z * option error * sequential R :=
  sequential_RangeSeek offset whence (-1) cr.

Definition sequential_OpenReader (cr : sequential R) (w : W) : option error * sequential R * W :=
  if bool_decide (sq_rc cr <> None) && negb (sq_offset cr =? -1) then (None, cr, w)
  else sequential_openRange cr w.
End sequential.

(** ** Correctness *)

(** The logical position: the offset of the open stream, or where the next open starts. *)
Definition sq_pos {R} (cr : sequential R) : Z :=
  if sq_offset cr =? -1 then sq_chunkOffset cr else sq_offset cr.

(** The end of the current chunk. *)
Definition sq_hi {R} (size : Z) (cr : sequential R) : Z :=
  if 0 <? sq_chunkSize cr then sq_chunkOffset cr + sq_chunkSize cr else size.

(** Sizes for which no offset computation wraps: objects of at most 1 EiB and
    chunks of at most 2 EiB. *)
Definition MaxObject : Z := 1152921504606846976.
Definition MaxChunk : Z := 2305843009213693952.

(** Where the reader stands in its object. A stream is either positioned at
    [sq_offset] within the chunk, or exhausted. *)
Record sq_inv {W R} `{ReaderOK W R} (content : list byte) (cr : sequential R) : Prop := {
  si_initial : sq_initialChunkSize cr = -1 \/ 0 < sq_initialChunkSize cr <= MaxChunk;
  si_limit : sq_maxChunkSize cr = -1 \/ sq_initialChunkSize cr <= sq_maxChunkSize cr;
  si_chunk : sq_chunkSize cr <= MaxChunk /\ -1 <= sq_chunkSize cr;
  si_custom : sq_customChunkSize cr = false -> 0 < sq_chunkSize cr ->
    0 < sq_initialChunkSize cr <= sq_chunkSize cr /\
    (sq_maxChunkSize cr = -1 \/ sq_chunkSize cr <= sq_maxChunkSize cr);
  si_chunkOffset : 0 <= sq_chunkOffset cr <= Z.of_nat (length content);
  si_stream : sq_offset cr = -1 \/
    (sq_chunkOffset cr <= sq_offset cr <= Z.of_nat (length content) /\
     (0 < sq_chunkSize cr -> sq_offset cr <= sq_chunkOffset cr + sq_chunkSize cr) /\
     exists rc, sq_rc cr = Some rc /\
       (rc_rest rc = slice (sq_offset cr) (sq_hi (Z.of_nat (length content)) cr) content \/
        rc_rest rc = []))
}.

Class RangeSeekerOK (W R : Type) `{ReaderOK W R} `{!RangeSeeker W R} (content : list byte) := {
  rs_RangeSeek_ok : forall r seek offset len w res r' w',
    rs_RangeSeek r = Some seek -> seek offset len w = (res, r', w') ->
    (res = inr offset ->
       rc_rest r' = slice offset (if len <=? 0 then Z.of_nat (length content) else offset + len) content) /\
    (res <> inr offset -> rc_rest r' = rc_rest r)
}.

Section sequential_proofs.
Context {W R : Type} (content : list byte) `{Hok : ObjectOK W R content}.
Context `{!RangeSeeker W R} `{!RangeSeekerOK W R content}.
Notation sq_inv := (sq_inv content).
Notation size := (Z.of_nat (length content)).
Hypothesis Hsize : size <= MaxObject.

Ltac bounds := unfold MaxObject, MaxChunk, MaxInt64, MinInt64, in64 in *.

(** The chunk [cr] describes, freshly opened. *)
Definition opened (cr cr' : sequential R) : Prop :=
  exists rc, cr' = sq_set cr (Some rc) (sq_chunkOffset cr) (sq_chunkOffset cr) (sq_chunkSize cr)
                     (sq_customChunkSize cr) (sq_closed cr) /\
    rc_rest rc = slice (sq_chunkOffset cr) (sq_hi size cr) content.

(** The chunk could not be opened: only the position of the old stream may
    have been touched, and its remaining bytes are those it had. *)
Definition not_opened (cr cr' : sequential R) : Prop :=
  exists rc', cr' = sq_set cr rc' (sq_offset cr) (sq_chunkOffset cr) (sq_chunkSize cr)
                     (sq_customChunkSize cr) (sq_closed cr) /\
    (rc_rest <$> rc') = (rc_rest <$> sq_rc cr).

Lemma openChunk_spec cr w err cr' w' :
  0 <= sq_chunkOffset cr <= size -> -1 <= sq_chunkSize cr <= MaxChunk ->
  sequential_openChunk cr (sq_chunkOffset cr) (sq_chunkSize cr) w = (err, cr', w') ->
  (err = None -> opened cr cr') /\ (err <> None -> cr' = cr).
Proof.
  intros Ho Hc. unfold sequential_openChunk.
  set (span := if sq_chunkSize cr <=? 0 then _ else _).
  assert (Hspan : span_ok span /\ span_bytes content span
      = slice (sq_chunkOffset cr) (sq_hi size cr) content).
  { unfold span, sq_hi, span_ok, span_bytes.
    destruct (Z.leb_spec (sq_chunkSize cr) 0), (Z.ltb_spec 0 (sq_chunkSize cr)); try lia.
    - destruct (Z.eqb_spec (sq_chunkOffset cr) 0) as [->|]; cbn; [done|]. bounds. split; [lia|done].
    - bounds. i64_norm. cbn [span_lo span_hi Start SpanEnd].
      destruct (Z.ltb_spec (sq_chunkOffset cr + sq_chunkSize cr - 1) 0); [lia|].
      split; [lia|]. f_equal. lia. }
  destruct Hspan as [Hspan Hbytes].
  destruct (obj_Open span w) as [[e|rc] w1] eqn:Hopen; [by intros [= <- <- <-]|].
  apply obj_Open_ok in Hopen; [|done]. rewrite Hbytes in Hopen.
  unfold sequential_resetReader. destruct (sq_rc cr) as [old|].
  - destruct (rc_Close old w1) as [[e|] w2]; intros [= <- <- <-]; [done|].
    split; [|done]. intros _. by exists rc.
  - intros [= <- <- <-]. split; [|done]. intros _. by exists rc.
Qed.

Lemma openRange_spec cr w err cr' w' :
  0 <= sq_chunkOffset cr <= size -> -1 <= sq_chunkSize cr <= MaxChunk ->
  sequential_openRange cr w = (err, cr', w') ->
  (err = None -> opened cr cr') /\ (err <> None -> not_opened cr cr').
Proof.
  intros Ho Hc. unfold sequential_openRange.
  assert (Hself : not_opened cr cr) by (exists (sq_rc cr); split; [by destruct cr|done]).
  destruct (sq_closed cr) eqn:Hcl; [by intros [= <- <- <-]|].
  assert (Hplain : sequential_openChunk cr (sq_chunkOffset cr) (sq_chunkSize cr) w = (err, cr', w') ->
    (err = None -> opened cr cr') /\ (err <> None -> not_opened cr cr')).
  { intros Hopen. apply openChunk_spec in Hopen as [Hs Hf]; [|done..].
    split; [done|]. intros He. by rewrite (Hf He). }
  destruct (sq_rc cr) as [rc|] eqn:Hrc; [|done].
  destruct (rs_RangeSeek rc) as [seek|] eqn:Hseek; [|done].
  destruct (seek _ _ w) as [[res rc'] w1] eqn:Hs.
  pose proof (rs_RangeSeek_ok _ _ _ _ _ _ _ _ Hseek Hs) as [Hgood Hbad].
  assert (Hretry : res <> inr (sq_chunkOffset cr) ->
    sequential_openChunk (sq_set cr (Some rc') (sq_offset cr) (sq_chunkOffset cr) (sq_chunkSize cr)
      (sq_customChunkSize cr) false) (sq_chunkOffset cr) (sq_chunkSize cr) w1 = (err, cr', w') ->
    (err = None -> opened cr cr') /\ (err <> None -> not_opened cr cr')).
  { intros Hne Hopen.
    apply (openChunk_spec (sq_set cr (Some rc') (sq_offset cr) (sq_chunkOffset cr)
      (sq_chunkSize cr) (sq_customChunkSize cr) false)) in Hopen as [Hs' Hf]; [|done..].
    split.
    - intros He. destruct (Hs' He) as (r2&->&Hr2). exists r2. rewrite <- Hcl. done.
    - intros He. rewrite (Hf He). exists (Some rc'). rewrite <- Hcl. split; [done|].
      rewrite Hrc. cbn. by rewrite Hbad. }
  destruct res as [e|n]; [by apply Hretry|].
  destruct (Z.eqb_spec n (sq_chunkOffset cr)) as [->|Hn].
  - intros [= <- <- <-]. split; [|done]. intros _. exists rc'. rewrite <- Hcl. split; [done|].
    rewrite Hgood by done. unfold sq_hi.
    destruct (Z.leb_spec (sq_chunkSize cr) 0), (Z.ltb_spec 0 (sq_chunkSize cr)); done || lia.
  - apply Hretry. congruence.
Qed.

(** After [advance] without an error the stream stands inside the chunk. *)
Definition in_chunk (cr : sequential R) : Prop :=
  sq_inv cr /\ sq_offset cr <> -1 /\
  (0 < sq_chunkSize cr -> sq_offset cr < sq_chunkOffset cr + sq_chunkSize cr).

Lemma nextChunkSize_inv cr :
  sq_inv cr -> 0 < sq_chunkSize cr <= size ->
  -1 <= sequential_nextChunkSize cr <= MaxChunk /\
  (0 < sequential_nextChunkSize cr ->
     0 < sq_initialChunkSize cr <= sequential_nextChunkSize cr /\
     (sq_maxChunkSize cr = -1 \/ sequential_nextChunkSize cr <= sq_maxChunkSize cr)).
Proof.
  intros [Hi Hl Hc Hcust _ _] Hpos. unfold sequential_nextChunkSize.
  destruct (sq_customChunkSize cr); [bounds; lia|].
  destruct Hcust as [Hic Hm]; [done|lia|]. bounds. i64_norm.
  destruct (Z.ltb_spec (sq_maxChunkSize cr) (sq_chunkSize cr * 2)); cbn [andb].
  - destruct (Z.eqb_spec (sq_maxChunkSize cr) (-1)) as [Hm1|Hm1]; cbn [negb]; lia.
  - lia.
Qed.

Lemma opened_inv cr cr' :
  sq_inv (sq_set cr None (-1) (sq_chunkOffset cr) (sq_chunkSize cr) (sq_customChunkSize cr) (sq_closed cr)) ->
  opened cr cr' -> in_chunk cr' /\ sq_offset cr' = sq_chunkOffset cr.
Proof.
  intros [Hi Hl Hc Hcust Ho _] (rc&->&Hrest). cbn in *. split; [|done]. unfold in_chunk. cbn.
  split_and!; [|lia|lia]. constructor; cbn; try done. right.
  split_and!; [lia|lia|lia|]. exists rc. split; [done|]. by left.
Qed.

Lemma sq_pos_eq (cr : sequential R) : sq_offset cr <> -1 -> sq_pos cr = sq_offset cr.
Proof. intros Hne. unfold sq_pos. by apply Z.eqb_neq in Hne as ->. Qed.

(** The chunk that follows a chunk read to its end. *)
Lemma boundary_spec cr w err cr2 w' :
  sq_inv cr -> 0 < sq_chunkSize cr -> sq_offset cr = sq_chunkOffset cr + sq_chunkSize cr ->
  let cr1 := sq_set cr (sq_rc cr) (sq_offset cr) (sq_offset cr)
               (sequential_nextChunkSize cr) false (sq_closed cr) in
  sequential_openRange cr1 w = (err, cr2, w') ->
  sq_inv cr2 /\ sq_pos cr2 = sq_offset cr /\
  sq_chunkOffset cr1 +! sq_chunkSize cr1 = sq_chunkOffset cr1 + sq_chunkSize cr1 /\
  (err = None -> in_chunk cr2 /\ sq_offset cr2 = sq_offset cr /\
     sq_chunkOffset cr2 = sq_chunkOffset cr1 /\ sq_chunkSize cr2 = sq_chunkSize cr1).
Proof.
  intros Hinv Hpos Hend cr1. pose proof Hinv as [Hi Hl Hc Hcust Ho Hst].
  destruct Hst as [Hst|(Hob&Hoe&rc&Hrc&Hrest)]; [lia|].
  destruct (nextChunkSize_inv cr Hinv) as [Hn Hn']; [lia|].
  assert (Hempty : rc_rest rc = []).
  { destruct Hrest as [->|]; [|done]. apply slice_nil. unfold sq_hi. zcases; lia. }
  intros Hopen. apply openRange_spec in Hopen as [Hgood Hbad]; [|cbn; lia|cbn; lia].
  assert (Hwrap : sq_chunkOffset cr1 +! sq_chunkSize cr1 = sq_chunkOffset cr1 + sq_chunkSize cr1)
    by (subst cr1; cbn; bounds; i64_norm; done).
  destruct err as [e|].
  - destruct Hbad as (rc'&->&Hrc'); [done|]. rewrite sq_pos_eq by (cbn; lia).
    cbn in Hrc'. rewrite Hrc in Hrc'. destruct rc' as [rc'|]; cbn in Hrc'; [|done].
    injection Hrc' as Hrc'. split_and!; [|done|done|done].
    constructor; cbn; try done; try lia; try (intros _; exact Hn').
    right. split_and!; [lia|lia|lia|]. exists rc'. split; [done|]. right. congruence.
  - destruct (opened_inv cr1 cr2) as [Hin Hoff]; [|by apply Hgood|].
    { constructor; cbn; try done; try lia; by left. }
    assert (sq_offset cr2 <> -1) by (rewrite Hoff; cbn; lia).
    rewrite sq_pos_eq, Hoff by done. destruct Hgood as (rc2&->&_); [done|].
    split_and!; [by destruct Hin|done|done|done].
Qed.

(** The first open after a seek. *)
Lemma first_open_spec cr w err cr2 w' :
  sq_inv cr -> sq_offset cr = -1 -> sequential_openRange cr w = (err, cr2, w') ->
  sq_inv cr2 /\ sq_pos cr2 = sq_chunkOffset cr /\
  (err = None -> in_chunk cr2 /\ sq_offset cr2 = sq_chunkOffset cr /\
     sq_chunkOffset cr2 = sq_chunkOffset cr /\ sq_chunkSize cr2 = sq_chunkSize cr).
Proof.
  intros Hinv Hm Hopen. pose proof Hinv as [Hi Hl Hc Hcust Ho _].
  apply openRange_spec in Hopen as [Hgood Hbad]; [|lia|lia].
  destruct err as [e|].
  - destruct Hbad as (rc'&->&_); [done|]. unfold sq_pos. cbn. rewrite Hm. cbn.
    split_and!; [|done|done]. constructor; cbn; try done. by left.
  - destruct (opened_inv cr cr2) as [Hin Hoff]; [|by apply Hgood|].
    { constructor; cbn; try done. by left. }
    rewrite sq_pos_eq, Hoff by lia. destruct Hgood as (rc2&->&_); [done|].
    split_and!; [by destruct Hin|done|done].
Qed.

Lemma advance_spec cr w chunkEnd err cr' w' :
  sq_inv cr -> sequential_advance cr w = (chunkEnd, (err, cr', w')) ->
  sq_inv cr' /\ sq_pos cr' = sq_pos cr /\
  (err = None -> in_chunk cr' /\ sq_offset cr' = sq_pos cr /\
     chunkEnd = sq_chunkOffset cr' + sq_chunkSize cr').
Proof.
  intros Hinv. unfold sequential_advance. pose proof Hinv as [Hi Hl Hc Hcust Ho Hst].
  assert (Hi1 : sq_chunkOffset cr +! sq_chunkSize cr = sq_chunkOffset cr + sq_chunkSize cr)
    by (bounds; i64_norm; done). rewrite Hi1.
  assert (Hrest : ~ (0 < sq_chunkSize cr /\ sq_offset cr = sq_chunkOffset cr + sq_chunkSize cr) ->
    (if sq_offset cr =? -1 then (sq_chunkOffset cr + sq_chunkSize cr, sequential_openRange cr w)
     else (sq_chunkOffset cr + sq_chunkSize cr, (None, cr, w))) = (chunkEnd, (err, cr', w')) ->
    sq_inv cr' /\ sq_pos cr' = sq_pos cr /\
    (err = None -> in_chunk cr' /\ sq_offset cr' = sq_pos cr /\
       chunkEnd = sq_chunkOffset cr' + sq_chunkSize cr')).
  { intros Hne. destruct (Z.eqb_spec (sq_offset cr) (-1)) as [Hm|Hm].
    - intros [= <- Hopen]. apply first_open_spec in Hopen as (Hi2&Hp&Hn); [|done..].
      replace (sq_pos cr) with (sq_chunkOffset cr) by (unfold sq_pos; by rewrite Hm).
      split_and!; [done..|]. intros He. destruct (Hn He) as (?&?&->&->). done.
    - intros [= <- <- <- <-]. rewrite sq_pos_eq by done. split_and!; try done.
      intros _. split_and!; try done. destruct Hst as [|(?&?&?)]; [done|].
      split_and!; [done|done|]. intros ?. lia. }
  destruct (Z.ltb_spec 0 (sq_chunkSize cr)) as [Hpos|Hpos];
    destruct (Z.eqb_spec (sq_offset cr) (sq_chunkOffset cr + sq_chunkSize cr)) as [Hend|Hend];
    cbn [andb]; try (apply Hrest; lia).
  intros [= <- Hopen]. apply boundary_spec in Hopen as (Hi2&Hp&Hw&Hn); [|done..].
  rewrite (sq_pos_eq cr) by lia. split_and!; [done..|]. intros He.
  destruct (Hn He) as (?&?&->&->). done.
Qed.

(** One call of [Read]: the next bytes of the object. *)
Definition seq_post (cr : sequential R) (n : nat)
    (res : list byte * option error * sequential R * W) : Prop :=
  let '(d, err, cr', _) := res in
  sq_inv cr' /\ sq_pos cr' = sq_pos cr + Z.of_nat (length d) /\
  d = slice (sq_pos cr) (sq_pos cr') content /\ (length d <= n)%nat /\
  (err = None -> length d = n).

Lemma sq_pos_nonneg cr : sq_inv cr -> 0 <= sq_pos cr.
Proof.
  intros [_ _ _ _ Ho Hst]. unfold sq_pos. destruct (Z.eqb_spec (sq_offset cr) (-1)); [lia|].
  destruct Hst as [|(?&_)]; lia.
Qed.

Lemma seq_post_nil cr n err w : sq_inv cr -> (err = None -> n = O) -> seq_post cr n ([], err, cr, w).
Proof.
  intros Hinv He. unfold seq_post. cbn. rewrite Z.add_0_r, slice_nil by lia.
  split_and!; [done|done|done|lia|]. intros Hn. by rewrite He.
Qed.

(** A read within the open chunk. *)
Lemma chunk_read_spec cr buf fuel rc w d err rc' w' :
  in_chunk cr -> sq_rc cr = Some rc ->
  (0 < sq_chunkSize cr -> Z.of_nat buf <= sq_chunkOffset cr + sq_chunkSize cr - sq_offset cr) ->
  io_ReadFull fuel buf rc w = Ret (d, err, rc', w') ->
  seq_post cr buf (d, err, sq_set cr (Some rc') (sq_offset cr +! Z.of_nat (length d))
               (sq_chunkOffset cr) (sq_chunkSize cr) (sq_customChunkSize cr) (sq_closed cr), w').
Proof.
  intros ([Hi Hl Hc Hcust Ho Hst]&Hne&Hlt) Hrc Hbuf Hread.
  apply io_ReadFull_ok in Hread as (Hn&Hrest&Hnone&_).
  destruct Hst as [|(Hob&Hoe&rc0&Hrc0&Hrest0)]; [done|]. simplify_eq.
  assert (Hd : d = slice (sq_offset cr) (sq_offset cr + Z.of_nat (length d)) content /\
    sq_offset cr + Z.of_nat (length d) <= size /\
    (rc_rest rc' = slice (sq_offset cr + Z.of_nat (length d)) (sq_hi size cr) content \/ rc_rest rc' = [])).
  { destruct Hrest0 as [Hr|Hr]; rewrite Hr in Hrest.
    - pose proof Hrest as Hlen. apply (f_equal length) in Hlen. unfold slice in Hlen.
      rewrite length_take, length_drop, length_app in Hlen.
      apply slice_app_inv in Hrest as [Hr' Hd]; [|lia]. split_and!; [done|lia|by left].
    - symmetry in Hrest. apply app_nil in Hrest as [-> Hr']. cbn. rewrite Z.add_0_r, slice_nil by lia.
      split_and!; [done|lia|by right]. }
  destruct Hd as (Hd&Hle&Hr').
  assert (Hwrap : sq_offset cr +! Z.of_nat (length d) = sq_offset cr + Z.of_nat (length d))
    by (bounds; i64_norm; done).
  unfold seq_post. rewrite Hwrap, !sq_pos_eq by (cbn; lia). cbn. split_and!; [|done|done|done|tauto].
  constructor; cbn; try done. right. split_and!; [lia|lia|lia|]. by exists rc'.
Qed.

Lemma seq_post_app cr buf rest d1 cr1 w1 d2 err cr' w' :
  sq_inv cr -> seq_post cr buf (d1, None, cr1, w1) -> seq_post cr1 rest (d2, err, cr', w') ->
  seq_post cr (buf + rest) (d1 ++ d2, err, cr', w').
Proof.
  intros Hinv (Hi1&Hp1&Hd1&Hl1&Hn1) (Hi2&Hp2&Hd2&Hl2&Hn2). unfold seq_post.
  pose proof (sq_pos_nonneg cr Hinv). rewrite length_app. split_and!; [done|lia| |lia|].
  - rewrite Hd1, Hd2 at 1. apply slice_app; lia.
  - intros He. rewrite (Hn1 eq_refl), (Hn2 He). done.
Qed.

Lemma seq_post_le cr buf n d e cr' w' :
  (buf <= n)%nat -> seq_post cr buf (d, Some e, cr', w') -> forall e', seq_post cr n (d, Some e', cr', w').
Proof. intros Hle (?&?&?&?&?) e'. unfold seq_post. split_and!; done || lia. Qed.

Lemma seq_post_pos cr cr1 n res : sq_pos cr1 = sq_pos cr -> seq_post cr1 n res -> seq_post cr n res.
Proof. intros Hp. destruct res as [[[d e] cr'] w']. unfold seq_post. by rewrite Hp. Qed.

(** How [Read] cuts the buffer at the end of the chunk. *)
Lemma chunk_split cr n :
  in_chunk cr -> (0 < n)%nat ->
  let chunkRest := (sq_chunkOffset cr + sq_chunkSize cr) -! sq_offset cr in
  let split := (chunkRest <? Z.of_nat n) && (0 <? sq_chunkSize cr) in
  let '(buf, rest) := if split then (Z.to_nat chunkRest, (n - Z.to_nat chunkRest)%nat) else (n, O) in
  split && (chunkRest <? 0) = false /\ (0 < buf)%nat /\ (buf + rest = n)%nat /\
  (0 < sq_chunkSize cr -> Z.of_nat buf <= sq_chunkOffset cr + sq_chunkSize cr - sq_offset cr).
Proof.
  intros ([Hi Hl Hc Hcust Ho Hst]&Hne&Hlt) Hn. destruct Hst as [|(Hob&Hoe&_)]; [done|].
  bounds. i64_norm. cbn zeta.
  destruct (Z.ltb_spec (sq_chunkOffset cr + sq_chunkSize cr - sq_offset cr) (Z.of_nat n)),
    (Z.ltb_spec 0 (sq_chunkSize cr)); cbn [andb]; zcases; cbn; split_and!; try lia; done.
Qed.

Lemma seq_Read_loop_correct fuel : forall n cr w res,
  sq_inv cr -> sequential_Read_loop fuel n cr w = Ret res -> seq_post cr n res.
Proof.
  induction fuel as [|fuel IH]; intros n cr w res Hinv; cbn [sequential_Read_loop]; [done|].
  destruct (Z.ltb_spec 0 (Z.of_nat n)) as [Hn|Hn].
  2:{ intros [= <-]. apply seq_post_nil; [done|lia]. }
  destruct (sequential_advance cr w) as [chunkEnd [[err cr1] w1]] eqn:Hadv.
  apply advance_spec in Hadv as (Hi1&Hp1&Hok1); [|done].
  destruct err as [e|].
  { intros [= <-]. apply (seq_post_pos cr cr1); [done|]. apply seq_post_nil; [done|done]. }
  destruct Hok1 as (Hin&Ho1&->); [done|].
  pose proof (chunk_split cr1 n Hin ltac:(lia)) as Hsplit. cbn zeta in Hsplit.
  destruct (if (_ <? Z.of_nat n) && _ then _ else _) as [buf rest].
  destruct Hsplit as (->&Hbuf&Hsum&Hchunk).
  destruct (sq_rc cr1) as [rc|] eqn:Hrc; [|done].
  intros Hbind. apply run_bind_Ret in Hbind as ([[[d err] rc'] w2]&Hread&Hrest).
  apply (chunk_read_spec cr1) in Hread; [|done..]. apply (seq_post_pos cr cr1); [done|].
  destruct err as [e|].
  - injection Hrest as <-. eapply seq_post_le; [|done]. lia.
  - apply run_bind_Ret in Hrest as ([[[d' err'] cr'] w']&Hrec&Heq). injection Heq as <-.
    apply IH in Hrec; [|by destruct Hread]. rewrite <- Hsum. by eapply seq_post_app.
Qed.

Context `{!ReaderProgress W R}.

Lemma io_ReadFull_total fuel n r w :
  (n < fuel)%nat -> returns (io_ReadFull fuel n r w) (fun _ => True).
Proof.
  intros Hn. unfold io_ReadFull.
  destruct (ReadFill_total fuel n r w Hn) as ([[[d err] rc'] w']&Hread&_).
  rewrite Hread. by eexists.
Qed.

(** Every round reads at least a byte: the loop ends and never indexes out of range. *)
Lemma seq_Read_loop_total fuel : forall n cr w,
  sq_inv cr -> (n < fuel)%nat -> returns (sequential_Read_loop fuel n cr w) (fun _ => True).
Proof.
  induction fuel as [|fuel IH]; intros n cr w Hinv Hf; cbn [sequential_Read_loop]; [lia|].
  destruct (Z.ltb_spec 0 (Z.of_nat n)) as [Hn|Hn]; [|by eexists].
  destruct (sequential_advance cr w) as [chunkEnd [[err cr1] w1]] eqn:Hadv.
  apply advance_spec in Hadv as (Hi1&Hp1&Hok1); [|done].
  destruct err as [e|]; [by eexists|]. destruct Hok1 as (Hin&Ho1&->); [done|].
  pose proof (chunk_split cr1 n Hin ltac:(lia)) as Hsplit. cbn zeta in Hsplit.
  destruct (if (_ <? Z.of_nat n) && _ then _ else _) as [buf rest].
  destruct Hsplit as (->&Hbuf&Hsum&Hchunk).
  pose proof Hin as ([_ _ _ _ _ Hst]&Hne&_). destruct Hst as [|(_&_&rc&Hrc&_)]; [done|].
  rewrite Hrc.
  destruct (io_ReadFull_total (S fuel) buf rc w1) as ([[[d err] rc'] w2]&Hread&_); [lia|].
  rewrite Hread. cbn [mbind run_bind]. apply (chunk_read_spec cr1) in Hread; [|done..].
  destruct err as [e|]; [by eexists|].
  destruct (IH rest (sq_set cr1 (Some rc') (sq_offset cr1 +! Z.of_nat (length d))
    (sq_chunkOffset cr1) (sq_chunkSize cr1) (sq_customChunkSize cr1) (sq_closed cr1)) w2)
    as ([[[d' err'] cr'] w']&Hrec&_); [by destruct Hread|lia|].
  rewrite Hrec. by eexists.
Qed.
End sequential_proofs.

(** ** Properties *)

Lemma newSequential_inv {W R} (content : list byte) `{ReaderOK W R} initial limit :
  (initial = -1 \/ 0 < initial <= MaxChunk) -> (limit = -1 \/ initial <= limit) ->
  sq_inv content (newSequential (R:=R) initial limit).
Proof.
  intros Hi Hl. constructor; cbn; try lia; try done; try (unfold MaxChunk in *; lia); by left.
Qed.

Lemma RangeSeek_inv {W R} (content : list byte) `{ObjectOK W R content} (cr : sequential R) offset whence length :
  Z.of_nat (Datatypes.length content) <= MaxObject ->
  sq_inv content cr -> whence = io_SeekStart \/ whence = io_SeekEnd ->
  in64 offset -> length <= MaxChunk -> sq_closed cr = false ->
  let size := Z.of_nat (Datatypes.length content) in
  let target := if whence =? io_SeekStart then offset else size + offset in
  in64 target ->
  let '(n, err, cr') := sequential_RangeSeek offset whence length cr in
  sq_inv content cr' /\
  (0 <= target < size -> err = None /\ n = target /\ sq_pos cr' = target) /\
  (~ 0 <= target < size -> err = Some ErrorInvalidSeek /\ n = 0 /\ sq_pos cr' = 0).
Proof.
  intros Hmax [Hi Hl Hc Hcust Ho Hst] Hwh Hoff Hlen Hcl size target Htar.
  unfold sequential_RangeSeek. rewrite Hcl, (obj_Size_ok (content:=content)).
  fold size. replace (size <? 0) with false by (symmetry; apply Z.ltb_ge; lia). rewrite andb_false_r.
  assert (Hbase : i64 ((if whence =? io_SeekStart then 0 else if whence =? io_SeekEnd then size
                        else sq_offset cr) + offset) = target).
  { subst target. destruct Hwh as [->| ->]; cbn; by rewrite i64_id. }
  rewrite Hbase.
  assert (Hinv : forall c, 0 <= c <= size ->
    sq_inv content (sq_set cr (sq_rc cr) (-1) c (if 0 <? length then length else sq_initialChunkSize cr)
      (if 0 <? length then true else sq_customChunkSize cr) false)).
  { intros c Hcb. destruct (Z.ltb_spec 0 length); constructor; cbn; try done; try lia;
      unfold MaxChunk in *; try lia; by left. }
  destruct (Z.ltb_spec target 0), (Z.leb_spec size target); cbn [orb];
    (split; [apply Hinv; lia|split; intros; try lia; done]).
Qed.

(** C19. [Read] of the sequential reader, in every state its methods reach:
    it ends without a panic, returns the next bytes of the object at the logical
    position (never other bytes, whatever opens and reads fail and wherever the
    chunk boundaries fall), fills the buffer unless it returns an error, and
    keeps the state well-formed, in particular the chunk size within the limit
    and free of overflow. *)
Theorem sequential_Read_delivers {W R} (content : list byte) `{ObjectOK W R content}
    `{!RangeSeeker W R} `{!RangeSeekerOK W R content} `{!ReaderProgress W R}
    fuel n (cr : sequential R) (w : W) :
  Z.of_nat (length content) <= MaxObject -> sq_inv content cr -> sq_closed cr = false ->
  (n < fuel)%nat ->
  exists d err cr' w', sequential_Read fuel n cr w = Ret (d, err, cr', w') /\
    d = slice (sq_pos cr) (sq_pos cr + Z.of_nat (length d)) content /\
    sq_pos cr' = sq_pos cr + Z.of_nat (length d) /\ (length d <= n)%nat /\
    (err = None -> length d = n) /\ sq_inv content cr'.
Proof.
  intros Hmax Hinv Hcl Hf. unfold sequential_Read. rewrite Hcl.
  destruct (seq_Read_loop_total content Hmax fuel n cr w Hinv Hf) as ([[[d err] cr'] w']&Hr&_).
  exists d, err, cr', w'. split; [done|].
  apply (seq_Read_loop_correct content) in Hr as (Hi&Hp&Hd&Hl&Hn); [|done..].
  rewrite Hp in Hd. done.
Qed.

#[export] Instance demo_RangeSeeker : RangeSeeker script (list byte) := {
  rs_RangeSeek := fun _ => None
}.

#[export] Instance demo_RangeSeekerOK : RangeSeekerOK script (list byte) demo_content.
Proof. by constructor. Qed.

(** Two chunks of 4 and 8 bytes and a failing read in the second. *)
Lemma sequential_Read_delivers_witness :
  let w := mkScript [(3, None); (0, None); (2, Some (Errorf "reset"))]%nat in
  let cr := newSequential 4 (-1) in
  (exists cr' w', sequential_Read 20 9 cr w =
     Ret (slice 0 7 demo_content, Some (Errorf "reset"), cr', w') /\ sq_chunkSize cr' = 8) /\
  exists d err cr' w', sequential_Read 20 9 cr w = Ret (d, err, cr', w') /\
    d = slice (sq_pos cr) (sq_pos cr + Z.of_nat (length d)) demo_content /\
    sq_pos cr' = sq_pos cr + Z.of_nat (length d) /\ (length d <= 9)%nat /\
    (err = None -> length d = 9%nat) /\ sq_inv demo_content cr'.
Proof.
  cbn zeta. split.
  - do 2 eexists. split; [vm_compute; reflexivity|reflexivity].
  - apply (sequential_Read_delivers demo_content).
    + cbn. unfold MaxObject. lia.
    + apply newSequential_inv; unfold MaxChunk; lia.
    + reflexivity.
    + lia.
Defined.

(** [RangeSeek] and [Seek] from the start or the end of the object: a target
    inside the object becomes the position, any other target is
    [ErrorInvalidSeek] and silently rewinds the reader to offset 0. *)
Lemma sequential_RangeSeek_position {W R} (content : list byte) `{ObjectOK W R content}
    (cr : sequential R) offset whence len :
  Z.of_nat (length content) <= MaxObject -> sq_inv content cr -> sq_closed cr = false ->
  whence = io_SeekStart \/ whence = io_SeekEnd -> in64 offset -> len <= MaxChunk ->
  let size := Z.of_nat (length content) in
  let target := if whence =? io_SeekStart then offset else size + offset in
  in64 target ->
  let '(n, err, cr') := sequential_RangeSeek offset whence len cr in
  sq_inv content cr' /\
  (0 <= target < size -> err = None /\ n = target /\ sq_pos cr' = target) /\
  (~ 0 <= target < size -> err = Some ErrorInvalidSeek /\ n = 0 /\ sq_pos cr' = 0).
Proof. intros. by apply RangeSeek_inv. Qed.

Lemma sequential_RangeSeek_position_witness :
  let '(n, err, cr') := sequential_RangeSeek (-3) io_SeekEnd 2 (newSequential (R:=list byte) 4 (-1)) in
  sq_inv demo_content cr' /\
  (0 <= 7 < 10 -> err = None /\ n = 7 /\ sq_pos cr' = 7) /\
  (~ 0 <= 7 < 10 -> err = Some ErrorInvalidSeek /\ n = 0 /\ sq_pos cr' = 0).
Proof.
  apply (sequential_RangeSeek_position demo_content (newSequential 4 (-1)) (-3) io_SeekEnd 2).
  - cbn. unfold MaxObject. lia.
  - apply newSequential_inv; unfold MaxChunk; lia.
  - reflexivity.
  - by right.
  - i64_side.
  - unfold MaxChunk. lia.
  - cbn. i64_side.
Defined.

(** C40. Reading on after the end of an object whose size falls on a chunk
    boundary: over the cache's own object adapter the reader opens the chunk
    that starts at the size, and [Read] fails with [ErrRangeNotSatisfiable]
    where the end of a stream is [io.EOF]. *)
Theorem sequential_boundary_end_is_error {W R O} `{SourceObject W R O} `{!RangeSeeker W R}
    (o : sourceObject O) fuel n (cr : sequential R) (w : W) :
  (forall r, rs_RangeSeek r = None) ->
  0 < MetaSize (so_meta o) <= MaxObject -> sq_closed cr = false ->
  0 < sq_chunkSize cr <= MaxObject -> sq_offset cr = MetaSize (so_meta o) ->
  sq_chunkOffset cr + sq_chunkSize cr = MetaSize (so_meta o) ->
  sequential_nextChunkSize cr <= MaxChunk ->
  exists cr' w', sequential_Read (H0 := sourceObject_Object o) (S fuel) (S n) cr w
    = Ret ([], Some ErrRangeNotSatisfiable, cr', w').
Proof.
  intros Hseek Hsz Hcl Hc Hoff Hend Hnext. unfold sequential_Read. rewrite Hcl. cbn [sequential_Read_loop].
  destruct (Z.ltb_spec 0 (Z.of_nat (S n))); [|lia].
  unfold MaxObject, MaxChunk in *. unfold sequential_advance. i64_norm.
  destruct (Z.ltb_spec 0 (sq_chunkSize cr)); [|lia].
  destruct (Z.eqb_spec (sq_offset cr) (sq_chunkOffset cr + sq_chunkSize cr)); [|lia]. cbn [andb].
  set (cr1 := sq_set cr _ _ _ _ _ _).
  assert (Hopen : sequential_openChunk (H0 := sourceObject_Object o) cr1 (sq_chunkOffset cr1) (sq_chunkSize cr1) w
                  = (Some ErrRangeNotSatisfiable, cr1, w)).
  { unfold sequential_openChunk. subst cr1. cbn [sq_set sq_chunkOffset sq_chunkSize]. rewrite Hoff.
    set (span := if sequential_nextChunkSize cr <=? 0 then _ else _).
    assert (Hres : sourceObject_Open o span w = (inl ErrRangeNotSatisfiable, w)).
    { unfold sourceObject_Open, sourceObject_snapshot. subst span.
      assert (Hlo : (MetaSize (so_meta o) <? 0) || (MetaSize (so_meta o) <=? MetaSize (so_meta o)) = true)
        by (rewrite Z.leb_refl; apply orb_true_r).
      destruct (Z.leb_spec (sequential_nextChunkSize cr) 0).
      - destruct (Z.eqb_spec (MetaSize (so_meta o)) 0); [lia|]. cbn [Start SpanEnd]. by rewrite Hlo.
      - cbn [Start SpanEnd]. by rewrite Hlo. }
    cbn [obj_Open sourceObject_Object]. by rewrite Hres. }
  unfold sequential_openRange. replace (sq_closed cr1) with false by done.
  destruct (sq_rc cr1) as [rc|]; [rewrite Hseek|]; rewrite Hopen; by do 2 eexists.
Qed.

(** The whole object of 10 bytes in one chunk of 10: the next read fails; with
    chunks of 8 it ends with [io.EOF]. *)
Lemma sequential_boundary_end_is_error_witness :
  let o := mkSourceObject tt (src_Metadata (W:=script) (R:=list byte) tt) in
  let read fuel n cr w := sequential_Read (H0 := sourceObject_Object o) fuel n cr w in
  (exists cr' w', read 20%nat 3%nat (newSequential 8 (-1)) (mkScript []) = Ret (slice 0 3 demo_content, None, cr', w')) /\
  exists cr w, read 20%nat 10%nat (newSequential 10 (-1)) (mkScript []) = Ret (demo_content, None, cr, w) /\
  exists cr' w', read 20%nat 5%nat cr w = Ret ([], Some ErrRangeNotSatisfiable, cr', w').
Proof.
  cbn zeta. split; [do 2 eexists; vm_compute; reflexivity|].
  do 2 eexists. split; [vm_compute; reflexivity|].
  apply (sequential_boundary_end_is_error (mkSourceObject tt (src_Metadata tt)) 19 4).
  - reflexivity.
  - cbn. unfold MaxObject. lia.
  - reflexivity.
  - cbn. unfold MaxObject. lia.
  - reflexivity.
  - reflexivity.
  - vm_compute. discriminate.
Defined.

(** [Seek] relative to the current position before the first read (and so
    after every other seek): the reader computes from its internal offset [-1],
    so that moving by [k] from the start lands on [k - 1], and asking for the
    position ([k = 0]) is an invalid seek. *)
Lemma sequential_SeekCurrent_off_by_one {W R} (content : list byte) `{ObjectOK W R content}
    initial limit k :
  Z.of_nat (length content) <= MaxObject -> 0 <= k < Z.of_nat (length content) ->
  let '(n, err, cr') := sequential_Seek k io_SeekCurrent (newSequential (R:=R) initial limit) in
  (k = 0 -> n = 0 /\ err = Some ErrorInvalidSeek) /\
  (0 < k -> n = k - 1 /\ err = None /\ sq_pos cr' = k - 1).
Proof.
  intros Hmax Hk. unfold sequential_Seek, sequential_RangeSeek. cbn [sq_closed newSequential sq_offset].
  rewrite (obj_Size_ok (content:=content)). unfold MaxObject in *.
  change (io_SeekCurrent =? io_SeekStart) with false. change (io_SeekCurrent =? io_SeekEnd) with false.
  cbn [andb]. cbv iota zeta. i64_norm.
  destruct (Z.ltb_spec (-1 + k) 0), (Z.leb_spec (Z.of_nat (length content)) (-1 + k)); cbn [orb];
    cbv beta iota; try lia; (split; intros; [try lia|try lia]).
  all: first [by split | split; [lia|]; split; [done|]; unfold sq_pos; cbn; lia].
Qed.

Lemma sequential_SeekCurrent_off_by_one_witness :
  let '(n, err, cr') := sequential_Seek 5 io_SeekCurrent (newSequential (R:=list byte) 4 (-1)) in
  (5 = 0 -> n = 0 /\ err = Some ErrorInvalidSeek) /\
  (0 < 5 -> n = 5 - 1 /\ err = None /\ sq_pos cr' = 5 - 1).
Proof.
  apply (sequential_SeekCurrent_off_by_one demo_content 4 (-1) 5); cbn; unfold MaxObject; lia.
Defined.
