(* ===== verification/BufferPool.v ===== *)
(** * The buffer pool (internal/engine/bufferpool/pool.go)

    Buffers of one size, kept for reuse.  The model keeps the mutex-protected
    fields of [Pool]; a buffer is its backing array (with an address, so that
    handing one out twice shows) and the length of the slice.  The allocator
    ([make] or [mmap]) and the process-wide weighted semaphore are the
    environment [W]. *)
From stdpp Require Import base numbers list gmap fin_sets strings.
From Stdlib Require Import ZArith Lia Init.Byte.
From S2P Require Import Prelude.

Local Open Scope Z_scope.
Local Open Scope go_scope.

(** A [[]byte] that starts at the beginning of its backing array:
    [buf_mem] is the whole array ([cap]), [buf_len] the slice's length. *)
Record buffer := mkBuffer { buf_base : positive; buf_mem : list byte; buf_len : Z }.

Definition buf_cap (b : buffer) : Z := Z.of_nat (length (buf_mem b)).

(** What the pool calls: [totalMemory.Acquire]/[Release] ([env_limited] is
    [totalMemory != nil]), [bp.alloc] and [bp.free]. *)
Class PoolEnv (W : Type) := {
  env_limited : bool;
  env_acquire : Z -> W -> option error * W;
  env_release : Z -> W -> run W;
  env_alloc : Z -> W -> (error + buffer) * W;
  env_free : buffer -> W -> option error * W;
}.

(** Documented behaviour: the semaphore counts the weight held and panics when
    more is released; the allocator returns arrays nobody else holds. *)
Class PoolEnvOK (W : Type) `{PoolEnv W} := {
  env_held : W -> Z;
  env_live : W -> gset positive;
  env_acquire_ok : forall m w err w', env_acquire m w = (err, w') ->
    env_live w' = env_live w /\ env_held w' = if err then env_held w else env_held w + m;
  env_release_ok : forall m w, 0 <= m <= env_held w -> exists w', env_release m w = Ret w' /\
    env_live w' = env_live w /\ env_held w' = env_held w - m;
  env_alloc_ok : forall n w b w', 0 <= n -> env_alloc n w = (inr b, w') ->
    buf_cap b = n /\ buf_len b = n /\ buf_base b ∉ env_live w /\
    env_live w' = {[buf_base b]} ∪ env_live w /\ env_held w' = env_held w;
  env_alloc_err : forall n w e w', env_alloc n w = (inl e, w') ->
    env_live w' = env_live w /\ env_held w' = env_held w;
  env_free_ok : forall b w err w', env_free b w = (err, w') ->
    env_held w' = env_held w /\ env_live w ∖ {[buf_base b]} ⊆ env_live w' ⊆ env_live w;
}.

(** Failures to get memory do not go on for ever. *)
Class PoolEnvProgress (W : Type) `{PoolEnv W} := {
  env_failures : W -> nat;
  env_acquire_progress : forall m w err w', env_acquire m w = (err, w') ->
    if err then (env_failures w' < env_failures w)%nat else (env_failures w' <= env_failures w)%nat;
  env_release_progress : forall m w w', env_release m w = Ret w' -> (env_failures w' <= env_failures w)%nat;
  env_alloc_progress : forall n w res w', env_alloc n w = (res, w') ->
    if res then (env_failures w' < env_failures w)%nat else (env_failures w' <= env_failures w)%nat;
}.

Definition BufferSize : Z := 1024 * 1024.
Definition BufferCacheSize : Z := 64.

(** [timer] is true from [timer.Reset] (or the creation) to the firing. *)
Record Pool := mkPool {
  p_cache : list buffer;
  p_minFill : Z;
  p_bufferSize : Z;
  p_poolSize : Z;
  p_timer : bool;
  p_inUse : Z;
  p_alloced : Z;
  p_flushPending : bool;
}.

Definition p_set (bp : Pool) (cache : list buffer) (minFill inUse alloced : Z) : Pool :=
  mkPool cache minFill (p_bufferSize bp) (p_poolSize bp) (p_timer bp) inUse alloced (p_flushPending bp).
Definition p_set_cache (bp : Pool) (cache : list buffer) : Pool :=
  p_set bp cache (p_minFill bp) (p_inUse bp) (p_alloced bp).
Definition p_set_timer (bp : Pool) (timer pending : bool) : Pool :=
  mkPool (p_cache bp) (p_minFill bp) (p_bufferSize bp) (p_poolSize bp) timer (p_inUse bp) (p_alloced bp) pending.

Definition Pool_New (bufferSize poolSize : Z) : Pool :=
  mkPool [] 0 bufferSize poolSize true 0 0 false.

(** [Global]: the pool of the process, made by the first call. *)
Definition Pool_Global (bufferPool : option Pool) : Pool * option Pool :=
  let bp := match bufferPool with Some bp => bp | None => Pool_New BufferSize BufferCacheSize end in (bp, Some bp).

Definition Pool_buffers (bp : Pool) : Z := Z.of_nat (length (p_cache bp)).
Definition Pool_InUse (bp : Pool) : Z := p_inUse bp.
Definition Pool_InPool (bp : Pool) : Z := Pool_buffers bp.
Definition Pool_Alloced (bp : Pool) : Z := p_alloced bp.

(** [bp.cache[len-1]] panics on an empty cache. *)
Definition Pool_get (bp : Pool) : run (buffer * Pool) :=
  let n := (length (p_cache bp) - 1)%nat in
  match p_cache bp !! n with
  | Some buf => Ret (buf, p_set_cache bp (take n (p_cache bp)))
  | None => Panic
  end.

(** [bp.cache[i:]] panics when [i] is out of range. *)
Definition Pool_getN (n : Z) (bp : Pool) : run (list buffer * Pool) :=
  let i := Pool_buffers bp - n in
  if (i <? 0) || (Pool_buffers bp <? i) then Panic
  else Ret (drop (Z.to_nat i) (p_cache bp), p_set_cache bp (take (Z.to_nat i) (p_cache bp))).

Definition Pool_put (buf : buffer) (bp : Pool) : Pool := p_set_cache bp (p_cache bp ++ [buf]).
Definition Pool_putN (bufs : list buffer) (bp : Pool) : Pool := p_set_cache bp (p_cache bp ++ bufs).

Definition Pool_kickFlusher (bp : Pool) : Pool :=
  if p_flushPending bp then bp else p_set_timer bp true true.

Definition Pool_updateMinFill (bp : Pool) : Pool :=
  if Pool_buffers bp <? p_minFill bp
  then p_set bp (p_cache bp) (Pool_buffers bp) (p_inUse bp) (p_alloced bp) else bp.

Section operations.
Context {W : Type} `{PoolEnv W}.

Definition Pool_acquire (mem : Z) (w : W) : option error * W :=
  if env_limited then env_acquire mem w else (None, w).

Definition Pool_release (mem : Z) (w : W) : run W :=
  if env_limited then env_release mem w else Ret w.

(** The error of [free] is dropped. *)
Definition Pool_freeBuffer (mem : buffer) (bp : Pool) (w : W) : Pool * W :=
  let '(_, w) := env_free mem w in
  (p_set bp (p_cache bp) (p_minFill bp) (p_inUse bp) (p_alloced bp - 1), w).

Fixpoint Pool_flush_loop (n : nat) (bp : Pool) (w : W) : run (Pool * W) :=
  match n with
  | O => Ret (bp, w)
  | S n =>
      '(buf, bp) ← Pool_get bp;
      let '(bp, w) := Pool_freeBuffer buf bp w in
      Pool_flush_loop n bp w
  end.

Definition Pool_flush (n : Z) (bp : Pool) (w : W) : run (Pool * W) :=
  '(bp, w) ← Pool_flush_loop (Z.to_nat n) bp w;
  Ret (p_set bp (p_cache bp) (Pool_buffers bp) (p_inUse bp) (p_alloced bp), w).

Definition Pool_Flush (bp : Pool) (w : W) : run (Pool * W) := Pool_flush (Pool_buffers bp) bp w.

(** The timer has fired. *)
Definition Pool_flushAged (bp : Pool) (w : W) : run (Pool * W) :=
  let bp := p_set_timer bp false false in
  '(bp, w) ← Pool_flush (p_minFill bp) bp w;
  Ret (if negb (Pool_buffers bp =? 0) then Pool_kickFlusher bp else bp, w).

(** [for range want]: allocate until done or until the first failure. *)
Fixpoint Pool_allocN (want : nat) (bufs : list buffer) (bp : Pool) (w : W)
  : option error * list buffer * Pool * W :=
  match want with
  | O => (None, bufs, bp, w)
  | S want =>
      match env_alloc (p_bufferSize bp) w with
      | (inl err, w) => (Some err, bufs, bp, w)
      | (inr buf, w) =>
          Pool_allocN want (bufs ++ [buf])
            (p_set bp (p_cache bp) (p_minFill bp) (p_inUse bp) (p_alloced bp + 1)) w
      end
  end.

(** One turn of the loop of [GetN] from the acquisition of the lock to its
    release: the buffers, or [None] when the turn ends at [FAIL]. *)
Definition Pool_GetN_locked (n : Z) (bp : Pool) (w : W) : run (option (list buffer) * Pool * W) :=
  let have := Z.min (Pool_buffers bp) n in
  let want := n - have in
  '(bufs, bp) ← Pool_getN have bp;
  match Pool_allocN (Z.to_nat want) bufs bp w with
  | (None, bufs, bp, w) =>
      Ret (Some bufs, Pool_updateMinFill (p_set bp (p_cache bp) (p_minFill bp) (p_inUse bp + n) (p_alloced bp)), w)
  | (Some _, bufs, bp, w) =>
      w ← Pool_release (p_bufferSize bp *! n) w;
      Ret (None, Pool_putN bufs bp, w)
  end.

(** The retry loop; the waiting time between two turns only delays. *)
Fixpoint Pool_GetN (fuel : nat) (n : Z) (bp : Pool) (w : W) : run (list buffer * Pool * W) :=
  match fuel with
  | O => OutOfFuel
  | S fuel =>
      match Pool_acquire (p_bufferSize bp *! n) w with
      | (Some _, w) => Pool_GetN fuel n bp w
      | (None, w) =>
          '(res, bp, w) ← Pool_GetN_locked n bp w;
          match res with
          | Some bufs => Ret (bufs, bp, w)
          | None => Pool_GetN fuel n bp w
          end
      end
  end.

Definition Pool_Get (fuel : nat) (bp : Pool) (w : W) : run (buffer * Pool * W) :=
  '(bufs, bp, w) ← Pool_GetN fuel 1 bp w;
  match bufs with buf :: _ => Ret (buf, bp, w) | [] => Panic end.

(** [buf[0:cap(buf)]], the size check that panics, the cache or the allocator. *)
Definition Pool__put (buf : buffer) (bp : Pool) (w : W) : run (Pool * W) :=
  let buf := mkBuffer (buf_base buf) (buf_mem buf) (buf_cap buf) in
  if negb (buf_len buf =? p_bufferSize bp) then Panic
  else
    let '(bp, w) := if Pool_buffers bp <? p_poolSize bp then (Pool_put buf bp, w) else Pool_freeBuffer buf bp w in
    w ← Pool_release (p_bufferSize bp) w;
    Ret (bp, w).

Fixpoint Pool_putAll (bufs : list buffer) (bp : Pool) (w : W) : run (Pool * W) :=
  match bufs with
  | [] => Ret (bp, w)
  | buf :: bufs => '(bp, w) ← Pool__put buf bp w; Pool_putAll bufs bp w
  end.

Definition Pool_PutN (bufs : list buffer) (bp : Pool) (w : W) : run (Pool * W) :=
  '(bp, w) ← Pool_putAll bufs bp w;
  let bp := p_set bp (p_cache bp) (p_minFill bp) (p_inUse bp - Z.of_nat (length bufs)) (p_alloced bp) in
  Ret (Pool_kickFlusher (Pool_updateMinFill bp), w).

Definition Pool_Put (buf : buffer) (bp : Pool) (w : W) : run (Pool * W) :=
  '(bp, w) ← Pool__put buf bp w;
  let bp := p_set bp (p_cache bp) (p_minFill bp) (p_inUse bp - 1) (p_alloced bp) in
  Ret (Pool_kickFlusher (Pool_updateMinFill bp), w).
End operations.

(** A concrete environment for the witnesses: a heap that only grows, a
    semaphore, and a script of the allocations that fail. *)
Record memory := mkMemory { m_next : nat; m_held : Z; m_fails : list bool }.

#[export] Instance memory_PoolEnv : PoolEnv memory := {
  env_limited := true;
  env_acquire m w := (None, mkMemory (m_next w) (m_held w + m) (m_fails w));
  env_release m w := if m_held w <? m then Panic else Ret (mkMemory (m_next w) (m_held w - m) (m_fails w));
  env_alloc n w :=
    match m_fails w with
    | true :: fails => (inl (Errorf "cannot allocate memory"%string), mkMemory (m_next w) (m_held w) fails)
    | fails =>
        (inr (mkBuffer (Pos.of_succ_nat (m_next w)) (replicate (Z.to_nat n) x00) (Z.max 0 n)),
         mkMemory (S (m_next w)) (m_held w) (drop 1 fails))
    end;
  env_free b w := (None, w);
}.

(** ** The invariant

    [out] are the addresses of the buffers handed out and not yet returned
    ([get] and [free] steps in between move an address from one list to the
    other). *)
Definition bases (bufs : list buffer) : list positive := map buf_base bufs.

Record pool_core {W} `{PoolEnvOK W} (out : list positive) (bp : Pool) (w : W) : Prop := {
  pc_cache : Forall (fun b => buf_cap b = p_bufferSize bp /\ buf_len b = p_bufferSize bp) (p_cache bp);
  pc_NoDup : NoDup (bases (p_cache bp) ++ out);
  pc_live : Forall (fun a => a ∈ env_live w) (bases (p_cache bp) ++ out);
  pc_alloced : p_alloced bp = Z.of_nat (length (p_cache bp) + length out);
}.

(** Between two operations.  [pend] counts the buffers of the [GetN] calls that
    have acquired their memory and wait for the lock. *)
Record pool_inv {W} `{PoolEnvOK W} (out : list positive) (pend : Z) (bp : Pool) (w : W) : Prop := {
  pi_core : pool_core out bp w;
  pi_size : 0 < p_bufferSize bp;
  pi_inUse : p_inUse bp = Z.of_nat (length out);
  pi_minFill : 0 <= p_minFill bp <= Pool_buffers bp;
  pi_held : env_limited = true -> env_held w = p_bufferSize bp * (Z.of_nat (length out) + pend);
}.

(** The fields an operation on the cache leaves alone. *)
Definition same_config (bp bp' : Pool) : Prop :=
  p_bufferSize bp' = p_bufferSize bp /\ p_poolSize bp' = p_poolSize bp /\ p_inUse bp' = p_inUse bp /\
  p_minFill bp' = p_minFill bp /\ p_timer bp' = p_timer bp /\ p_flushPending bp' = p_flushPending bp.

Section proofs.
Context {W : Type} `{PoolEnvOK W}.

Lemma same_config_trans bp1 bp2 bp3 : same_config bp1 bp2 -> same_config bp2 bp3 -> same_config bp1 bp3.
Proof. unfold same_config. intuition congruence. Qed.

Lemma length_bases l : length (bases l) = length l.
Proof. apply length_map. Qed.

Lemma pool_core_perm out out' bp (w : W) : out ≡ₚ out' -> pool_core out bp w -> pool_core out' bp w.
Proof.
  intros Hp []. split; [done| | |].
  - by rewrite <- Hp.
  - by rewrite <- Hp.
  - by rewrite <- Hp.
Qed.

(** Moving the tail of the cache to the buffers in hand, and back. *)
Lemma pool_core_split out keep move bp (w : W) :
  p_cache bp = keep ++ move ->
  pool_core out bp w <-> Forall (fun b => buf_cap b = p_bufferSize bp /\ buf_len b = p_bufferSize bp) move /\
                         pool_core (bases move ++ out) (p_set_cache bp keep) w.
Proof.
  intros Hc. unfold p_set_cache. split.
  - intros []. rewrite Hc in *. unfold bases in *. rewrite map_app in *.
    apply Forall_app in pc_cache0 as [? ?]. split; [done|].
    split; cbn; [done| | |].
    + by rewrite app_assoc.
    + by rewrite app_assoc.
    + rewrite !length_app, length_map in *. lia.
  - intros [Hm []]. cbn in *. split; rewrite ?Hc.
    + by apply Forall_app.
    + unfold bases in *. by rewrite map_app, <- app_assoc.
    + unfold bases in *. by rewrite map_app, <- app_assoc.
    + rewrite length_app. unfold bases in *. rewrite length_app, length_map in *. lia.
Qed.

Lemma get_core out bp (w : W) : pool_core out bp w -> 0 < Pool_buffers bp ->
  exists buf bp', Pool_get bp = Ret (buf, bp') /\ p_cache bp = p_cache bp' ++ [buf] /\
    same_config bp bp' /\ pool_core (buf_base buf :: out) bp' w.
Proof.
  intros Hc Hn. unfold Pool_get, Pool_buffers in *.
  destruct (p_cache bp !! _) as [buf|] eqn:Hl.
  - pose proof (take_S_r _ _ _ Hl) as Ht.
    rewrite take_ge in Ht by (apply lookup_lt_Some in Hl; lia).
    do 2 eexists. split; [done|]. split; [done|]. split; [done|].
    by apply (pool_core_split _ _ _ _ _ Ht) in Hc as [_ ?].
  - apply lookup_ge_None in Hl. lia.
Qed.

Lemma freeBuffer_core mem out bp (w : W) bp' w' :
  Pool_freeBuffer mem bp w = (bp', w') -> pool_core (buf_base mem :: out) bp w ->
  pool_core out bp' w' /\ p_cache bp' = p_cache bp /\ same_config bp bp' /\ env_held w' = env_held w.
Proof.
  unfold Pool_freeBuffer. destruct (env_free mem w) as [err w1] eqn:Hf. intros [= <- <-] [].
  apply env_free_ok in Hf as [Hh [Hlive _]]. cbn in *.
  apply NoDup_app in pc_NoDup0 as (Hn1 & Hn12 & [Hnin Hn2]%NoDup_cons).
  split; [|done]. split; cbn.
  - done.
  - apply NoDup_app. split; [done|]. split; [|done]. intros x Hx. specialize (Hn12 x Hx). set_solver.
  - rewrite Forall_app, Forall_cons, !Forall_forall in *. destruct pc_live0 as (Hl1 & ? & Hl2).
    split; intros x Hx; apply Hlive, elem_of_difference.
    + split; [by apply Hl1|]. specialize (Hn12 x Hx). set_solver.
    + split; [by apply Hl2|]. set_solver.
  - lia.
Qed.

Lemma flush_loop_core n : forall out bp (w : W), pool_core out bp w -> Z.of_nat n <= Pool_buffers bp ->
  exists bp' w', Pool_flush_loop n bp w = Ret (bp', w') /\ pool_core out bp' w' /\
    Pool_buffers bp' = Pool_buffers bp - Z.of_nat n /\ same_config bp bp' /\ env_held w' = env_held w.
Proof.
  induction n as [|n IH]; intros out bp w Hc Hn; cbn [Pool_flush_loop].
  - do 2 eexists. split; [done|]. split; [done|]. split; [lia|]. done.
  - destruct (get_core _ _ _ Hc ltac:(lia)) as (buf & bp1 & Hg & Hcache & Hs1 & Hc1).
    rewrite Hg. cbn. destruct (Pool_freeBuffer buf bp1 w) as [bp2 w2] eqn:Hf.
    destruct (freeBuffer_core _ _ _ _ _ _ Hf Hc1) as (Hc2 & Hcache2 & Hs2 & Hh2).
    unfold Pool_buffers in *. rewrite Hcache, length_app in Hn |- *. cbn in *.
    destruct (IH out bp2 w2 Hc2) as (bp3 & w3 & -> & Hc3 & Hb3 & Hs3 & Hh3); [rewrite Hcache2; lia|].
    do 2 eexists. split; [done|]. split; [done|]. rewrite Hcache2 in Hb3. split; [lia|].
    split; [|congruence]. eauto using same_config_trans.
Qed.

(** [flush] frees [n] buffers, and notes what is left as the new minimum. *)
Lemma flush_inv n out pend bp (w : W) : pool_inv out pend bp w -> n <= Pool_buffers bp ->
  exists bp' w', Pool_flush n bp w = Ret (bp', w') /\ pool_inv out pend bp' w' /\
    Pool_buffers bp' = Pool_buffers bp - Z.max 0 n /\ p_minFill bp' = Pool_buffers bp' /\
    p_timer bp' = p_timer bp /\ p_flushPending bp' = p_flushPending bp /\
    p_alloced bp' = p_alloced bp - Z.max 0 n /\ p_bufferSize bp' = p_bufferSize bp.
Proof.
  intros [] Hn. unfold Pool_flush.
  assert (Hn' : Z.of_nat (Z.to_nat n) <= Pool_buffers bp) by (unfold Pool_buffers in *; lia).
  destruct (flush_loop_core _ _ _ _ pi_core0 Hn') as (bp1 & w1 & -> & Hc & Hb & (Hs1 & Hs2 & Hs3 & Hs4 & Hs5 & Hs6) & Hh).
  cbn. do 2 eexists. split; [done|].
  assert (p_alloced bp1 = p_alloced bp - Z.max 0 n).
  { destruct pi_core0, Hc. unfold Pool_buffers in *. lia. }
  split; [|unfold Pool_buffers in *; cbn; repeat split; (done || lia)].
  destruct Hc. split; cbn; rewrite ?Hs1, ?Hs3, ?Hh; try done.
  unfold Pool_buffers. cbn. lia.
Qed.

Lemma getN_core out bp (w : W) n : pool_core out bp w -> 0 <= n <= Pool_buffers bp ->
  exists bufs bp', Pool_getN n bp = Ret (bufs, bp') /\ Z.of_nat (length bufs) = n /\
    p_cache bp = p_cache bp' ++ bufs /\ same_config bp bp' /\ pool_core (bases bufs ++ out) bp' w /\
    Forall (fun b => buf_cap b = p_bufferSize bp /\ buf_len b = p_bufferSize bp) bufs.
Proof.
  intros Hc Hn. unfold Pool_getN. set (i := Pool_buffers bp - n).
  assert (Hi : 0 <= i <= Pool_buffers bp) by lia.
  destruct (Z.ltb_spec i 0), (Z.ltb_spec (Pool_buffers bp) i); try lia. cbn [orb].
  pose proof (take_drop (Z.to_nat i) (p_cache bp)) as Htd. symmetry in Htd.
  destruct (proj1 (pool_core_split _ _ _ _ _ Htd) Hc) as [Hf Hcore].
  do 2 eexists. split; [done|]. unfold Pool_buffers in *. rewrite length_drop.
  split; [lia|]. done.
Qed.

(** Allocation: as many fresh buffers as could be had. *)
Lemma allocN_core want : forall out bufs bp (w : W) res bufs' bp' w',
  Pool_allocN want bufs bp w = (res, bufs', bp', w') -> pool_core (bases bufs ++ out) bp w ->
  0 <= p_bufferSize bp -> Forall (fun b => buf_cap b = p_bufferSize bp /\ buf_len b = p_bufferSize bp) bufs ->
  pool_core (bases bufs' ++ out) bp' w' /\ p_cache bp' = p_cache bp /\ same_config bp bp' /\
  env_held w' = env_held w /\
  Forall (fun b => buf_cap b = p_bufferSize bp /\ buf_len b = p_bufferSize bp) bufs' /\
  (exists k, (length bufs' = length bufs + k)%nat /\ (k <= want)%nat /\ (res = None -> k = want) /\
     (res <> None -> (k < want)%nat)).
Proof.
  induction want as [|want IH]; intros out bufs bp w res bufs' bp' w' Ha Hc Hbs Hf; cbn [Pool_allocN] in Ha.
  { injection Ha as <- <- <- <-. do 5 (split; [done|]). exists 0%nat. by rewrite Nat.add_0_r. }
  destruct (env_alloc (p_bufferSize bp) w) as [[err|buf] w1] eqn:He.
  - injection Ha as <- <- <- <-. apply env_alloc_err in He as [Hl Hh].
    split; [by destruct Hc; split; rewrite ?Hl|]. do 3 (split; [done|]). split; [done|].
    exists 0%nat. rewrite Nat.add_0_r. split; [done|]. split; [lia|]. split; [done|lia].
  - apply env_alloc_ok in He as (Hcap & Hlen & Hfresh & Hlive & Hh); [|done].
    eapply (IH out) in Ha as (Hc' & Hcache & Hs & Hh' & Hf' & k & Hk & Hle & Hn & He).
    + split; [done|]. split; [done|]. split; [done|]. split; [congruence|]. split; [done|].
      exists (S k). rewrite length_app in Hk. cbn in Hk.
      split; [lia|]. split; [lia|]. split; intros Hr; [specialize (Hn Hr)|specialize (He Hr)]; lia.
    + destruct Hc. unfold bases in *. rewrite map_app. cbn in *.
      assert (Hperm : map buf_base (p_cache bp) ++ (map buf_base bufs ++ [buf_base buf]) ++ out ≡ₚ
                      buf_base buf :: map buf_base (p_cache bp) ++ map buf_base bufs ++ out) by solve_Permutation.
      split; cbn; [done| | |].
      * rewrite Hperm. apply NoDup_cons. split; [|done]. intros Hin.
        rewrite Forall_forall in pc_live0. by apply Hfresh, pc_live0.
      * rewrite Hperm, Hlive. apply Forall_cons. split; [by apply elem_of_union_l, elem_of_singleton|].
        eapply Forall_impl; [done|]. intros x Hx. by apply elem_of_union_r.
      * rewrite !length_app, !length_map in *. cbn. lia.
    + done.
    + cbn. apply Forall_app. split; [done|]. by apply Forall_singleton.
Qed.

Lemma release_ok m (w : W) : (env_limited = true -> 0 <= m <= env_held w) ->
  exists w', Pool_release m w = Ret w' /\ env_live w' = env_live w /\
    (env_limited = true -> env_held w' = env_held w - m).
Proof.
  intros Hm. unfold Pool_release. destruct env_limited; [|by exists w].
  destruct (env_release_ok m w (Hm eq_refl)) as (w' & Hr & Hl & Hh). by eauto.
Qed.

(** What [GetN] hands out: [n] buffers of the pool's size. *)
Definition good_bufs (bp : Pool) (n : Z) (bufs : list buffer) : Prop :=
  Z.of_nat (length bufs) = n /\ Forall (fun b => buf_cap b = p_bufferSize bp /\ buf_len b = p_bufferSize bp) bufs.

Lemma GetN_locked_inv out pend bp (w : W) n :
  pool_inv out pend bp w -> 0 <= n <= pend -> p_bufferSize bp * n <= MaxInt64 ->
  exists res bp' w', Pool_GetN_locked n bp w = Ret (res, bp', w') /\
    p_bufferSize bp' = p_bufferSize bp /\ p_timer bp' = p_timer bp /\ p_flushPending bp' = p_flushPending bp /\
    match res with
    | Some bufs => good_bufs bp n bufs /\ pool_inv (bases bufs ++ out) (pend - n) bp' w'
    | None => pool_inv out (pend - n) bp' w'
    end.
Proof.
  intros [] Hn Hmax. unfold Pool_GetN_locked.
  destruct (getN_core out bp w (Z.min (Pool_buffers bp) n) pi_core0) as (bufs & bp1 & -> & Hlen & Hcache & (S1&S2&S3&S4&S5&S6) & Hc1 & Hf);
    [unfold Pool_buffers in *; lia|]. cbn.
  destruct (Pool_allocN _ bufs bp1 w) as [[[err bufs2] bp2] w2] eqn:Ha.
  eapply (allocN_core _ out) in Ha as (Hc2 & Hcache2 & (T1&T2&T3&T4&T5&T6) & Hh2 & Hf2 & k & Hk & Hkw & Hnone & Hsome); [|done|lia|by rewrite S1].
  rewrite S1 in *. unfold Pool_buffers in *. rewrite Hcache, length_app in *.
  destruct err as [e|].
  - assert (Hm : p_bufferSize bp *! n = p_bufferSize bp * n) by (apply i64_id; i64_side || (unfold in64, MinInt64, MaxInt64 in *; nia)).
    rewrite T1, Hm.
    destruct (release_ok (p_bufferSize bp * n) w2) as (w3 & -> & Hl3 & Hh3);
      [intros Hlim; rewrite Hh2, (pi_held0 Hlim); nia|].
    cbn. do 3 eexists. split; [done|]. split; [done|]. split; [cbn; congruence|]. split; [cbn; congruence|].
    assert (Hc3 : pool_core out (Pool_putN bufs2 bp2) w3).
    { apply (pool_core_split out (p_cache bp2) bufs2); [done|]. split; [cbn; by rewrite T1|].
      destruct Hc2. split; cbn; rewrite ?Hl3; done. }
    split; cbn; rewrite ?T1, ?T3, ?T4; try congruence; try done.
    + unfold Pool_buffers. cbn. rewrite length_app, Hcache2. lia.
    + intros Hlim. rewrite Hh3, Hh2, pi_held0 by done. lia.
  - specialize (Hnone eq_refl).
    cbn. do 3 eexists. split; [done|]. unfold Pool_updateMinFill. cbn.
    match goal with |- context [if ?c then ?a else ?b] => set (bp3 := if c then a else b) end.
    assert (Hbp3 : p_cache bp3 = p_cache bp1 /\ p_bufferSize bp3 = p_bufferSize bp /\ p_timer bp3 = p_timer bp /\ p_flushPending bp3 = p_flushPending bp /\
      p_inUse bp3 = p_inUse bp + n /\ p_alloced bp3 = p_alloced bp2 /\ 0 <= p_minFill bp3 <= Z.of_nat (length (p_cache bp1))).
    { subst bp3. unfold Pool_buffers. cbn. rewrite Hcache2, T4, S4.
      destruct (Z.ltb_spec (Z.of_nat (length (p_cache bp1))) (p_minFill bp)); cbn;
        rewrite ?Hcache2, ?T1, ?T3, ?T4, ?T5, ?T6, ?S3, ?S4, ?S5, ?S6; (split_and!; try done; lia). }
    clearbody bp3. destruct Hbp3 as (B1 & B2 & B3 & B3' & B4 & B5 & B6).
    split; [done|]. split; [done|]. split; [done|]. split.
    { split; [lia|]. by rewrite T1 in Hf2 || done. }
    split; unfold Pool_buffers; rewrite ?B1, ?B2, ?B4; try done.
    + destruct Hc2. rewrite Hcache2, T1 in *. split; rewrite ?B1, ?B2, ?B5; done.
    + rewrite length_app, length_bases. lia.
    + intros Hlim. rewrite Hh2, pi_held0, length_app, length_bases by done. lia.
Qed.

(** Returning buffers, one at a time: [rest] are the ones not returned. *)
Lemma putAll_core : forall bufs rest h bp (w : W),
  pool_core (bases bufs ++ rest) bp w -> 0 < p_bufferSize bp -> 0 <= h ->
  Forall (fun b => buf_cap b = p_bufferSize bp) bufs ->
  (env_limited = true -> env_held w = p_bufferSize bp * (Z.of_nat (length bufs) + h)) ->
  exists bp' w', Pool_putAll bufs bp w = Ret (bp', w') /\ pool_core rest bp' w' /\ same_config bp bp' /\
    Pool_buffers bp <= Pool_buffers bp' /\ Pool_buffers bp' <= Z.max (Pool_buffers bp) (p_poolSize bp) /\
    (env_limited = true -> env_held w' = p_bufferSize bp * h).
Proof.
  induction bufs as [|buf bufs IH]; intros rest h bp w Hc Hs Hh Hf Hheld.
  { cbn. do 2 eexists. split; [done|]. split; [done|]. split; [done|]. split; [lia|]. split; [lia|].
    intros Hl. rewrite Hheld by done. cbn. lia. }
  apply Forall_cons in Hf as [Hb Hf]. cbn [Pool_putAll].
  set (full := mkBuffer (buf_base buf) (buf_mem buf) (buf_cap buf)).
  assert (Hput : exists bp1 w1, (if Pool_buffers bp <? p_poolSize bp then (Pool_put full bp, w) else Pool_freeBuffer full bp w) = (bp1, w1) /\
    pool_core (bases bufs ++ rest) bp1 w1 /\ same_config bp bp1 /\ env_held w1 = env_held w /\
    Pool_buffers bp <= Pool_buffers bp1 /\ Pool_buffers bp1 <= Z.max (Pool_buffers bp) (p_poolSize bp)).
  { destruct (Z.ltb_spec (Pool_buffers bp) (p_poolSize bp)).
    - do 2 eexists. split; [done|]. split; [|split; [done|split; [done|]]].
      + apply (pool_core_split _ (p_cache bp) [full]); [done|]. split; [|by destruct bp].
        apply Forall_singleton. split; [exact Hb|]. exact Hb.
      + unfold Pool_buffers in *. cbn. rewrite length_app. cbn. lia.
    - destruct (Pool_freeBuffer full bp w) as [bp1 w1] eqn:Hfr.
      apply (freeBuffer_core full (bases bufs ++ rest)) in Hfr as (Hc1 & Hcache & Hs1 & Hh1); [|done].
      do 2 eexists. split; [done|]. split; [done|]. split; [done|]. split; [done|].
      unfold Pool_buffers. rewrite Hcache. lia. }
  destruct Hput as (bp1 & w1 & Hput & Hc1 & Hs1 & Hh1 & Hle & Hmax).
  pose proof Hs1 as (S1 & S2 & _).
  assert (Hone : exists bp2 w2, Pool__put buf bp w = Ret (bp2, w2) /\ bp2 = bp1 /\ env_live w2 = env_live w1 /\
     (env_limited = true -> env_held w2 = p_bufferSize bp * (Z.of_nat (length bufs) + h))).
  { unfold Pool__put. fold full. replace (buf_len full) with (p_bufferSize bp) by done. rewrite Z.eqb_refl. cbn [negb].
    rewrite Hput, S1.
    destruct (release_ok (p_bufferSize bp) w1) as (w2 & -> & Hl2 & Hh2);
      [intros Hl; rewrite Hh1, (Hheld Hl); cbn [length]; nia|].
    cbn. do 2 eexists. split; [done|]. split; [done|]. split; [done|].
    intros Hl. rewrite Hh2, Hh1, (Hheld Hl) by done. cbn [length]. lia. }
  destruct Hone as (bp2 & w2 & -> & -> & Hl2 & Hh2). cbn.
  destruct (IH rest h bp1 w2) as (bp' & w' & Hall & Hc' & Hs' & Hle' & Hmax' & Hh'); rewrite ?S1; try done.
  { destruct Hc1. split; rewrite ?Hl2; done. }
  rewrite Hall. do 2 eexists. split; [done|]. split; [done|]. rewrite S1, S2 in *.
  split; [by eapply same_config_trans|]. split; [lia|]. split; [lia|done].
Qed.

(** After the buffers are back, the counters are those of the rest; the timer runs. *)
Lemma PutN_inv bufs rest pend bp (w : W) :
  pool_inv (bases bufs ++ rest) pend bp w -> 0 <= pend ->
  Forall (fun b => buf_cap b = p_bufferSize bp) bufs -> (p_flushPending bp = true -> p_timer bp = true) ->
  exists bp' w', Pool_PutN bufs bp w = Ret (bp', w') /\ pool_inv rest pend bp' w' /\
    p_bufferSize bp' = p_bufferSize bp /\ p_poolSize bp' = p_poolSize bp /\
    p_timer bp' = true /\ p_flushPending bp' = true /\
    Pool_buffers bp' <= Z.max (Pool_buffers bp) (p_poolSize bp).
Proof.
  intros [] Hpend Hf Ht. unfold Pool_PutN.
  destruct (putAll_core bufs rest (Z.of_nat (length rest) + pend) bp w pi_core0 pi_size0 ltac:(lia) Hf)
    as (bp1 & w1 & -> & Hc1 & (S1&S2&S3&S4&S5&S6) & Hle & Hmax & Hh1).
  { intros Hl. rewrite pi_held0, length_app, length_bases by done. lia. }
  cbn. do 2 eexists. split; [done|].
  set (bp2 := p_set bp1 _ _ _ _).
  assert (Hk : forall b, (p_flushPending b = true -> p_timer b = true) ->
    p_timer (Pool_kickFlusher b) = true /\ p_flushPending (Pool_kickFlusher b) = true).
  { intros b Hb. unfold Pool_kickFlusher. destruct (p_flushPending b) eqn:E; cbn; auto. }
  assert (Hu : p_timer (Pool_updateMinFill bp2) = p_timer bp1 /\ p_flushPending (Pool_updateMinFill bp2) = p_flushPending bp1 /\
    p_cache (Pool_updateMinFill bp2) = p_cache bp1 /\ p_bufferSize (Pool_updateMinFill bp2) = p_bufferSize bp1 /\
    p_poolSize (Pool_updateMinFill bp2) = p_poolSize bp1 /\ p_inUse (Pool_updateMinFill bp2) = p_inUse bp2 /\
    p_alloced (Pool_updateMinFill bp2) = p_alloced bp1 /\ 0 <= p_minFill (Pool_updateMinFill bp2) <= Pool_buffers bp1).
  { unfold Pool_updateMinFill. unfold Pool_buffers in *. cbn.
    destruct (Z.ltb_spec (Z.of_nat (length (p_cache bp1))) (p_minFill bp1)); cbn; split_and!; done || lia. }
  destruct Hu as (U1&U2&U3&U4&U5&U6&U7&U8).
  assert (Hkf : forall b, p_cache (Pool_kickFlusher b) = p_cache b /\ p_bufferSize (Pool_kickFlusher b) = p_bufferSize b /\
     p_poolSize (Pool_kickFlusher b) = p_poolSize b /\ p_inUse (Pool_kickFlusher b) = p_inUse b /\
     p_alloced (Pool_kickFlusher b) = p_alloced b /\ p_minFill (Pool_kickFlusher b) = p_minFill b).
  { intros b. unfold Pool_kickFlusher. by destruct (p_flushPending b). }
  destruct (Hk (Pool_updateMinFill bp2)) as [Hk1 Hk2]; [by rewrite U1, U2, S5, S6|].
  destruct (Hkf (Pool_updateMinFill bp2)) as (K1&K2&K3&K4&K5&K6).
  split; [|split_and!; try congruence; unfold Pool_buffers in *; rewrite K1, U3; lia].
  split; unfold Pool_buffers in *; rewrite ?K1, ?K2, ?K4, ?K6, ?U3, ?U4, ?U6, ?S1; try done.
  - destruct Hc1. split; rewrite ?K1, ?K2, ?K5, ?U3, ?U4, ?U7; done.
  - subst bp2. cbn. rewrite S3, pi_inUse0, length_app, length_bases. lia.
Qed.

Lemma Put_PutN buf bp (w : W) : Pool_Put buf bp w = Pool_PutN [buf] bp w.
Proof.
  unfold Pool_Put, Pool_PutN. cbn [Pool_putAll length].
  destruct (Pool__put buf bp w) as [[bp1 w1]| |]; done.
Qed.

(** The timer callback: with the invariant it never panics, and what is left
    in the cache keeps the timer running. *)
Lemma flushAged_inv out pend bp (w : W) : pool_inv out pend bp w ->
  exists bp' w', Pool_flushAged bp w = Ret (bp', w') /\ pool_inv out pend bp' w' /\
    p_bufferSize bp' = p_bufferSize bp /\
    Pool_buffers bp' = Pool_buffers bp - p_minFill bp /\ p_minFill bp' = Pool_buffers bp' /\
    p_timer bp' = negb (Pool_buffers bp' =? 0) /\ p_flushPending bp' = p_timer bp'.
Proof.
  intros Hi. unfold Pool_flushAged.
  assert (Hi1 : pool_inv out pend (p_set_timer bp false false) w).
  { destruct Hi as [[] ]. by split. }
  assert (Hm : 0 <= p_minFill bp <= Pool_buffers bp) by apply Hi.
  destruct (flush_inv (p_minFill bp) _ _ _ _ Hi1) as (bp1 & w1 & Hfl & Hi' & Hb & Hmf & Ht & Hp & _ & Hsz); [by apply Hi|]. cbn in Hsz.
  cbn [p_set_timer p_minFill]. rewrite Hfl. cbn [mbind run_bind].
  change (Pool_buffers (p_set_timer bp false false)) with (Pool_buffers bp) in Hb. cbn in Ht, Hp.
  do 2 eexists. split; [done|]. unfold Pool_kickFlusher. rewrite Hp.
  destruct (Z.eqb_spec (Pool_buffers bp1) 0) as [E|E]; cbn [negb].
  - split; [done|]. split_and!; try done; try lia; rewrite ?Ht, ?Hp, ?E; done.
  - split; [by destruct Hi' as [[] ]; split|]. cbn. change (Pool_buffers (p_set_timer bp1 true true)) with (Pool_buffers bp1).
    split_and!; (done || lia || by rewrite (proj2 (Z.eqb_neq _ _) E)).
Qed.
End proofs.

(** ** The pool as a state machine

    The operations interleave at the mutex.  A [GetN] call is two steps per
    turn: it acquires the memory outside the lock, then takes the buffers under
    the lock; a call in between is in [pend]. *)
Definition sumZ (l : list Z) : Z := foldr Z.add 0 l.

Definition pstate (W : Type) : Type := Pool * W * list positive * list Z.

Inductive pool_step {W} `{PoolEnv W} : pstate W -> run (pstate W) -> Prop :=
| step_acquire n bp w w' out pend :
    0 <= n -> p_bufferSize bp * n <= MaxInt64 -> Pool_acquire (p_bufferSize bp *! n) w = (None, w') ->
    pool_step (bp, w, out, pend) (Ret (bp, w', out, n :: pend))
| step_acquire_fails n bp w err w' out pend :
    Pool_acquire (p_bufferSize bp *! n) w = (Some err, w') ->
    pool_step (bp, w, out, pend) (Ret (bp, w', out, pend))
| step_GetN n bp w out pend1 pend2 :
    pool_step (bp, w, out, pend1 ++ n :: pend2)
      ('(res, bp, w) ← Pool_GetN_locked n bp w;
       Ret (bp, w, bases (default [] res) ++ out, pend1 ++ pend2))
| step_PutN bufs bp w out out' pend :
    out ≡ₚ bases bufs ++ out' -> Forall (fun b => buf_cap b = p_bufferSize bp) bufs ->
    pool_step (bp, w, out, pend) ('(bp, w) ← Pool_PutN bufs bp w; Ret (bp, w, out', pend))
| step_Put buf bp w out out' pend :
    out ≡ₚ buf_base buf :: out' -> buf_cap buf = p_bufferSize bp ->
    pool_step (bp, w, out, pend) ('(bp, w) ← Pool_Put buf bp w; Ret (bp, w, out', pend))
| step_Flush bp w out pend :
    pool_step (bp, w, out, pend) ('(bp, w) ← Pool_Flush bp w; Ret (bp, w, out, pend))
| step_flushAged bp w out pend : p_timer bp = true ->
    pool_step (bp, w, out, pend) ('(bp, w) ← Pool_flushAged bp w; Ret (bp, w, out, pend)).

Definition pool_next {W} `{PoolEnv W} (s s' : pstate W) : Prop := pool_step s (Ret s').

(** What holds between any two steps. *)
Definition pstate_ok {W} `{PoolEnvOK W} (bs : Z) (s : pstate W) : Prop :=
  let '(bp, w, out, pend) := s in
  pool_inv out (sumZ pend) bp w /\ p_bufferSize bp = bs /\
  Forall (fun n => 0 <= n /\ bs * n <= MaxInt64) pend /\
  (p_flushPending bp = true -> p_timer bp = true).

Section machine.
Context {W : Type} `{PoolEnvOK W}.

Lemma sumZ_app l1 l2 : sumZ (l1 ++ l2) = sumZ l1 + sumZ l2.
Proof. unfold sumZ. induction l1; cbn; lia. Qed.

Lemma sumZ_nonneg l : Forall (fun n => 0 <= n) l -> 0 <= sumZ l.
Proof. unfold sumZ. induction 1; cbn; lia. Qed.

Lemma sumZ_pend bs l : Forall (fun n => 0 <= n /\ bs * n <= MaxInt64) l -> 0 <= sumZ l.
Proof. intros Hf. apply sumZ_nonneg. eapply Forall_impl; [done|]. by intros ? []. Qed.

Lemma acquire_inv n out pend bp (w : W) err w' :
  Pool_acquire (p_bufferSize bp *! n) w = (err, w') -> in64 (p_bufferSize bp * n) \/ err <> None ->
  pool_inv out pend bp w -> pool_inv out (if err then pend else pend + n) bp w'.
Proof.
  intros Ha Hr [].
  assert (Hboth : env_live w' = env_live w /\
    (env_limited = true -> env_held w' = if err then env_held w else env_held w + p_bufferSize bp * n)).
  { unfold Pool_acquire in Ha. destruct env_limited.
    - apply env_acquire_ok in Ha as [Hl Hh]. split; [done|]. intros _. rewrite Hh.
      destruct err; [done|]. destruct Hr as [Hr|]; [|done]. by rewrite i64_id.
    - by injection Ha as <- <-. }
  destruct Hboth as [Hl Hh]. split; try done.
  - destruct pi_core0. split; rewrite ?Hl; done.
  - intros Hlim. rewrite Hh, pi_held0 by done. destruct err; lia.
Qed.

Lemma pool_step_ok bs (s : pstate W) m : pstate_ok bs s -> pool_step s m -> exists s', m = Ret s' /\ pstate_ok bs s'.
Proof.
  intros Hs Hst. destruct Hst as [n bp w w' out pend Hn Hmax Ha|n bp w err w' out pend Ha|n bp w out pend1 pend2
    |bufs bp w out out' pend Hp Hf|buf bp w out out' pend Hp Hf|bp w out pend|bp w out pend Ht];
    destruct Hs as (Hi & Hbs & Hpend & Htim).
  - eexists. split; [done|]. split; [|split; [done|split; [|done]]].
    + cbn [sumZ foldr]. rewrite Z.add_comm.
      eapply (acquire_inv n _ _ _ _ None); [done| |done]. left.
      pose proof (pi_size _ _ _ _ Hi). pose proof (Z.mul_nonneg_nonneg (p_bufferSize bp) n). i64_side.
    + apply Forall_cons. rewrite <- Hbs. split; [done|]. by rewrite Hbs.
  - eexists. split; [done|]. split; [|done].
    eapply (acquire_inv n _ _ _ _ (Some err)); [done|by right|done].
  - rewrite sumZ_app in Hi. cbn in Hi. change (foldr Z.add 0 pend2) with (sumZ pend2) in Hi. apply Forall_app in Hpend as [Hp1 [Hn Hp2]%Forall_cons].
    pose proof (sumZ_pend _ _ Hp1). pose proof (sumZ_pend _ _ Hp2).
    destruct (GetN_locked_inv _ _ _ _ n Hi ltac:(lia) ltac:(rewrite Hbs; lia)) as (res & bp' & w' & Hg & Hb & Ht & Hfp & Hres).
    rewrite Hg. cbn. eexists. split; [done|]. unfold pstate_ok. rewrite Hb, Ht, Hfp.
    split; [|split; [done|split; [by apply Forall_app|done]]]. rewrite sumZ_app.
    destruct res as [bufs|]; cbn; [destruct Hres as [_ Hres]|].
    all: by replace (sumZ pend1 + sumZ pend2) with (sumZ pend1 + (n + sumZ pend2) - n) by lia.
  - assert (Hi' : pool_inv (bases bufs ++ out') (sumZ pend) bp w).
    { destruct Hi. split; rewrite <- ?Hp; try done. by apply (pool_core_perm out). }
    destruct (PutN_inv _ _ _ _ _ Hi' (sumZ_pend _ _ Hpend) Hf Htim) as (bp' & w' & -> & Hi2 & Hb & _ & Ht & _).
    cbn. eexists. split; [done|]. unfold pstate_ok. by rewrite Hb, Ht.
  - rewrite Put_PutN.
    assert (Hi' : pool_inv (bases [buf] ++ out') (sumZ pend) bp w).
    { cbn. destruct Hi. split; rewrite <- ?Hp; try done. by apply (pool_core_perm out). }
    destruct (PutN_inv [buf] _ _ _ _ Hi' (sumZ_pend _ _ Hpend) (proj2 (Forall_singleton _ _) Hf) Htim) as (bp' & w' & -> & Hi2 & Hb & _ & Ht & _).
    cbn. eexists. split; [done|]. unfold pstate_ok. by rewrite Hb, Ht.
  - destruct (flush_inv (Pool_buffers bp) _ _ _ _ Hi ltac:(lia)) as (bp' & w' & Hfl & Hi' & _ & _ & Ht & Hfp & _ & Hb).
    unfold Pool_Flush.
    rewrite Hfl. cbn. eexists. split; [done|]. unfold pstate_ok. by rewrite Hb, Ht, Hfp.
  - destruct (flushAged_inv _ _ _ _ Hi) as (bp' & w' & -> & Hi' & Hb & _ & _ & _ & Hft).
    cbn. eexists. split; [done|]. unfold pstate_ok. by rewrite Hb, Hft.
Qed.

Lemma reachable_ok bs poolSize (w : W) s : 0 < bs -> (env_limited = true -> env_held w = 0) ->
  rtc pool_next (Pool_New bs poolSize, w, [], []) s -> pstate_ok bs s.
Proof.
  intros Hbs Hw. assert (Hinit : pstate_ok bs (Pool_New bs poolSize, w, [], [])).
  { split; [|by split_and!; [done|apply Forall_nil|]]. split; cbn; try done; try lia.
    - split; cbn; [by apply Forall_nil|by apply NoDup_nil|by apply Forall_nil|done].
    - intros Hl. rewrite Hw by done. lia. }
  generalize dependent (Pool_New bs poolSize, w, @nil positive, @nil Z). intros s0 Hinit Hr.
  induction Hr as [|s1 s2 s3 Hst Hr IH]; [done|]. apply IH.
  destruct (pool_step_ok _ _ _ Hinit Hst) as (s' & [= <-] & Hok). done.
Qed.

Lemma GetN_correct fuel : forall n out pend bp (w : W),
  pool_inv out pend bp w -> 0 <= pend -> 0 <= n -> p_bufferSize bp * n <= MaxInt64 ->
  Pool_GetN fuel n bp w = OutOfFuel \/
  exists bufs bp' w', Pool_GetN fuel n bp w = Ret (bufs, bp', w') /\ p_bufferSize bp' = p_bufferSize bp /\
    p_timer bp' = p_timer bp /\ p_flushPending bp' = p_flushPending bp /\
    good_bufs bp n bufs /\ pool_inv (bases bufs ++ out) pend bp' w'.
Proof.
  induction fuel as [|fuel IH]; intros n out pend bp w Hi Hpend Hn Hmax; [by left|]. cbn [Pool_GetN].
  assert (Hin : in64 (p_bufferSize bp * n)).
  { pose proof (pi_size _ _ _ _ Hi). pose proof (Z.mul_nonneg_nonneg (p_bufferSize bp) n). i64_side. }
  destruct (Pool_acquire _ w) as [[err|] w1] eqn:Ha.
  - apply (acquire_inv n out pend) in Ha; [|by right|done]. by apply IH.
  - apply (acquire_inv n out pend) in Ha; [|by left|done].
    destruct (GetN_locked_inv _ _ _ _ n Ha ltac:(lia) Hmax) as (res & bp1 & w2 & -> & Hb & Ht & Hfp & Hres).
    cbn. replace (pend + n - n) with pend in Hres by lia. destruct res as [bufs|].
    + right. do 3 eexists. split; [done|]. by destruct Hres.
    + destruct (IH n out pend bp1 w2) as [Ho|(bufs & bp2 & w3 & Hg & H1 & H2 & H3 & H4 & H5)]; rewrite ?Hb; try done; [by left|].
      right. exists bufs, bp2, w3. unfold good_bufs in *. rewrite Hb in *. split_and!; (done || congruence || apply H4).
Qed.

Lemma allocN_failures `{!PoolEnvProgress W} want : forall bufs bp w err b2 bp2 w2,
  Pool_allocN want bufs bp w = (err, b2, bp2, w2) ->
  if err then (env_failures w2 < env_failures w)%nat else (env_failures w2 <= env_failures w)%nat.
Proof.
  induction want as [|want IH]; cbn; intros bufs bp w err b2 bp2 w2 Ha; [by injection Ha as <- <- <- <-|].
  destruct (env_alloc _ _) as [[] w1] eqn:He; apply env_alloc_progress in He; [by injection Ha as <- <- <- <-|].
  apply IH in Ha. destruct err; lia.
Qed.

Lemma acquire_failures `{!PoolEnvProgress W} mem w err w' : Pool_acquire mem w = (err, w') ->
  if err then (env_failures w' < env_failures w)%nat else (env_failures w' <= env_failures w)%nat.
Proof.
  unfold Pool_acquire. destruct env_limited; [by intros ?%env_acquire_progress|by intros [= <- <-]].
Qed.

Lemma release_failures `{!PoolEnvProgress W} mem w w' :
  Pool_release mem w = Ret w' -> (env_failures w' <= env_failures w)%nat.
Proof.
  unfold Pool_release. destruct env_limited; [by intros ?%env_release_progress|by intros [= <-]].
Qed.

Lemma GetN_locked_failures `{!PoolEnvProgress W} n bp w res bp' w' :
  Pool_GetN_locked n bp w = Ret (res, bp', w') ->
  if res then (env_failures w' <= env_failures w)%nat else (env_failures w' < env_failures w)%nat.
Proof.
  unfold Pool_GetN_locked, Pool_getN. destruct (_ || _); [done|]. cbn.
  destruct (Pool_allocN _ _ _ _) as [[[[e|] b2] bp2] w3] eqn:Hall; apply allocN_failures in Hall.
  - destruct (Pool_release _ _) as [w4| |] eqn:Hr; cbn; [|done|done]. intros [= <- <- <-].
    apply release_failures in Hr. lia.
  - by intros [= <- <- <-].
Qed.

Lemma GetN_failures `{!PoolEnvProgress W} fuel : forall n bp w bufs bp' w',
  Pool_GetN fuel n bp w = Ret (bufs, bp', w') -> (env_failures w' <= env_failures w)%nat.
Proof.
  induction fuel as [|fuel IH]; intros n bp w bufs bp' w'; cbn [Pool_GetN]; [done|].
  destruct (Pool_acquire _ w) as [[err|] w1] eqn:Ha; apply acquire_failures in Ha.
  - intros ?%IH. lia.
  - destruct (Pool_GetN_locked n bp w1) as [[[res bp1] w2]| |] eqn:Hg; cbn; [|done|done].
    apply GetN_locked_failures in Hg. destruct res; [intros [= <- <- <-]; lia|].
    intros ?%IH. lia.
Qed.

Lemma GetN_total `{!PoolEnvProgress W} fuel : forall n out pend bp (w : W),
  pool_inv out pend bp w -> 0 <= pend -> 0 <= n -> p_bufferSize bp * n <= MaxInt64 ->
  (env_failures w < fuel)%nat -> Pool_GetN fuel n bp w <> OutOfFuel.
Proof.
  induction fuel as [|fuel IH]; intros n out pend bp w Hi Hpend Hn Hmax Hf; [lia|]. cbn [Pool_GetN].
  assert (Hin : in64 (p_bufferSize bp * n)).
  { pose proof (pi_size _ _ _ _ Hi). pose proof (Z.mul_nonneg_nonneg (p_bufferSize bp) n). i64_side. }
  destruct (Pool_acquire _ w) as [[err|] w1] eqn:Ha; pose proof (acquire_failures _ _ _ _ Ha) as Hlt; cbn in Hlt.
  - apply (acquire_inv n out pend) in Ha; [|by right|done]. eapply IH; eauto. lia.
  - apply (acquire_inv n out pend) in Ha; [|by left|done].
    destruct (GetN_locked_inv _ _ _ _ n Ha ltac:(lia) Hmax) as (res & bp1 & w2 & Hg & Hb & Ht & _ & Hres).
    rewrite Hg. apply GetN_locked_failures in Hg. cbn. destruct res as [bufs|]; [done|].
    replace (pend + n - n) with pend in Hres by lia.
    apply (IH n out pend); rewrite ?Hb; try done. lia.
Qed.

(** [Get] in one turn of reasoning: a full buffer, the failures used up. *)
Lemma Get_spec `{!PoolEnvProgress W} fuel out pend bp (w : W) :
  pool_inv out pend bp w -> 0 <= pend -> p_bufferSize bp <= MaxInt64 -> (env_failures w < fuel)%nat ->
  exists buf bp' w', Pool_Get fuel bp w = Ret (buf, bp', w') /\ p_bufferSize bp' = p_bufferSize bp /\
    p_timer bp' = p_timer bp /\ p_flushPending bp' = p_flushPending bp /\
    buf_cap buf = p_bufferSize bp /\ buf_len buf = p_bufferSize bp /\
    pool_inv (buf_base buf :: out) pend bp' w' /\ (env_failures w' <= env_failures w)%nat.
Proof.
  intros Hi Hp Hmax Hf. unfold Pool_Get.
  destruct (GetN_correct fuel 1 out pend bp w) as [Ho|(bufs & bp' & w' & Hg & Hb & Ht & Hfp & (Hlen & Hgood) & Hi')]; try done; [lia| |].
  { exfalso. eapply GetN_total; [..|exact Ho]; eauto; lia. }
  rewrite Hg. cbn. apply GetN_failures in Hg.
  destruct bufs as [|buf [|]]; cbn in Hlen; try lia. apply Forall_singleton in Hgood as [? ?].
  by do 3 eexists.
Qed.
End machine.

Definition m_live (w : memory) : gset positive := list_to_set (Pos.of_succ_nat <$> seq 0 (m_next w)).

Lemma elem_of_m_live a w : a ∈ m_live w <-> (Pos.to_nat a <= m_next w)%nat.
Proof.
  unfold m_live. rewrite elem_of_list_to_set, list_elem_of_fmap. split.
  - intros (k & -> & Hin%elem_of_seq). lia.
  - intros Ha. exists (Nat.pred (Pos.to_nat a)). rewrite elem_of_seq. lia.
Qed.

Lemma memory_alloc_ok n w b w' : 0 <= n -> env_alloc n w = (inr b, w') ->
  buf_cap b = n /\ buf_len b = n /\ buf_base b ∉ m_live w /\
  m_live w' = {[buf_base b]} ∪ m_live w /\ m_held w' = m_held w.
Proof.
  cbn. intros Hn Ha.
  assert (Hbw : b = mkBuffer (Pos.of_succ_nat (m_next w)) (replicate (Z.to_nat n) x00) (Z.max 0 n) /\
                m_next w' = S (m_next w) /\ m_held w' = m_held w).
  { destruct (m_fails w) as [|[] fails]; [|done|]; by injection Ha as <- <-. }
  destruct Hbw as (-> & Hnext & Hheld). unfold buf_cap. cbn [buf_mem buf_len buf_base].
  rewrite length_replicate. split; [lia|]. split; [lia|].
  split; [rewrite elem_of_m_live; lia|]. split; [|done].
  apply set_eq. intros a. rewrite elem_of_union, elem_of_singleton, !elem_of_m_live, Hnext. lia.
Qed.

#[export] Instance memory_PoolEnvOK : PoolEnvOK memory.
Proof.
  refine {| env_held := m_held; env_live := m_live; env_alloc_ok := memory_alloc_ok |}; cbn.
  - by intros m w err w' [= <- <-].
  - intros m w Hm. destruct (Z.ltb_spec (m_held w) m); [lia|]. by eexists.
  - intros n w e w'. by destruct (m_fails w) as [|[] fails]; intros [= <- <-].
  - intros b w err w' [= <- <-]. split; [done|]. split; [|done]. intros a [? _]%elem_of_difference. done.
Defined.

#[export] Instance memory_PoolEnvProgress : PoolEnvProgress memory.
Proof.
  refine {| env_failures := fun w => length (List.filter id (m_fails w)) |}; cbn.
  - by intros m w err w' [= <- <-].
  - intros m w w'. destruct (_ <? _); [done|]. by intros [= <-].
  - intros n w res w'. destruct (m_fails w) as [|[] fails]; intros [= <- <-]; cbn; rewrite ?drop_0; lia.
Defined.

(** ** Properties *)

(** C32. Whatever the interleaving of [GetN], [Put], [PutN], [Flush] and the
    flush timer, no operation panics and the accounts balance: no buffer is
    handed out twice or handed out while cached, [inUse] counts the buffers
    handed out, [alloced] these and the cached ones, and the weight held of the
    process-wide semaphore is the memory handed out or about to be. *)
Theorem Pool_accounts_balance {W} `{PoolEnvOK W} bs poolSize (w0 : W) bp w out pend :
  0 < bs -> (env_limited = true -> env_held w0 = 0) ->
  rtc pool_next (Pool_New bs poolSize, w0, [], []) (bp, w, out, pend) ->
  NoDup (bases (p_cache bp) ++ out) /\ Pool_InUse bp = Z.of_nat (length out) /\
  Pool_Alloced bp = Pool_InUse bp + Pool_InPool bp /\
  (env_limited = true -> env_held w = bs * (Pool_InUse bp + sumZ pend)) /\
  Forall (fun b => buf_cap b = bs /\ buf_len b = bs) (p_cache bp) /\
  forall m, pool_step (bp, w, out, pend) m -> exists s', m = Ret s'.
Proof.
  intros Hbs Hw Hr. pose proof (reachable_ok _ _ _ _ Hbs Hw Hr) as Hok. pose proof Hok as ([[] ] & <- & _).
  unfold Pool_InUse, Pool_Alloced, Pool_InPool, Pool_buffers. split; [done|]. split; [done|].
  split; [lia|]. split; [intros Hl; rewrite pi_inUse0; auto|]. split; [done|].
  intros m Hm. destruct (pool_step_ok _ _ _ Hok Hm) as (s' & ? & _). eauto.
Qed.

(** A [GetN] of two buffers whose second allocation fails, and a second turn. *)
Definition demo_memory : memory := mkMemory 0 0 [false; true].

Lemma pool_next_run {W} `{PoolEnv W} (s s' : pstate W) m : pool_step s m -> m = Ret s' -> pool_next s s'.
Proof. by intros Hs ->. Qed.

Lemma demo_pool_run : exists bp w,
  rtc pool_next (Pool_New 4 8, demo_memory, [], []) (bp, w, [1%positive; 2%positive], []) /\
  Pool_InUse bp = 2 /\ Pool_InPool bp = 0.
Proof.
  do 2 eexists. split.
  - eapply rtc_l; [eapply pool_next_run; [by eapply (step_acquire 2)|vm_compute; reflexivity]|].
    eapply rtc_l; [eapply pool_next_run; [apply (step_GetN 2 _ _ _ [] [])|vm_compute; reflexivity]|].
    eapply rtc_l; [eapply pool_next_run; [by eapply (step_acquire 2)|vm_compute; reflexivity]|].
    eapply rtc_l; [eapply pool_next_run; [apply (step_GetN 2 _ _ _ [] [])|vm_compute; reflexivity]|]. apply rtc_refl.
  - done.
Defined.

Lemma Pool_accounts_balance_witness : exists bp w, NoDup (bases (p_cache bp) ++ [1%positive; 2%positive]) /\
  Pool_InUse bp = 2 /\ Pool_Alloced bp = Pool_InUse bp + Pool_InPool bp /\ env_held (w : memory) = 4 * (Pool_InUse bp + 0).
Proof.
  destruct demo_pool_run as (bp & w & Hr & Hu & _). exists bp, w.
  destruct (Pool_accounts_balance 4 8 demo_memory bp w [1%positive; 2%positive] []) as (Hn & _ & Ha & Hh & _).
  - lia.
  - reflexivity.
  - exact Hr.
  - split; [exact Hn|]. split; [exact Hu|]. split; [exact Ha|]. exact (Hh eq_refl).
Defined.

(** C33. [GetN] keeps trying while memory cannot be had, and returns [n] buffers
    of the pool's size once it can, none of them in anyone else's hands; the
    fuel only has to exceed the number of failures. *)
Theorem Pool_GetN_returns {W} `{PoolEnvOK W} `{!PoolEnvProgress W} fuel n out pend bp (w : W) :
  pool_inv out pend bp w -> 0 <= pend -> 0 <= n -> p_bufferSize bp * n <= MaxInt64 ->
  (env_failures w < fuel)%nat ->
  exists bufs bp' w', Pool_GetN fuel n bp w = Ret (bufs, bp', w') /\ good_bufs bp n bufs /\
    NoDup (bases bufs ++ out) /\ pool_inv (bases bufs ++ out) pend bp' w'.
Proof.
  intros Hi Hpend Hn Hmax Hf.
  destruct (GetN_correct fuel n out pend bp w) as [Ho|(bufs & bp' & w' & Hg & _ & _ & _ & Hgood & Hi')]; try done.
  { exfalso. eapply GetN_total; eauto. }
  do 3 eexists. split; [done|]. split; [done|]. split; [|done].
  destruct Hi' as [[_ Hnd _ _] _ _ _ _]. by apply NoDup_app in Hnd as (_ & _ & ?).
Qed.

Lemma Pool_GetN_returns_witness : exists bufs bp' w',
  Pool_GetN 3 2 (Pool_New 4 8) demo_memory = Ret (bufs, bp', w') /\ good_bufs (Pool_New 4 8) 2 bufs /\
  NoDup (bases bufs ++ []) /\ pool_inv (bases bufs ++ []) 0 bp' w'.
Proof.
  apply (Pool_GetN_returns 3 2 [] 0 (Pool_New 4 8) demo_memory); try (cbn; unfold MaxInt64; lia).
  split; cbn; try done; try lia. split; cbn; [by apply Forall_nil|by apply NoDup_nil|by apply Forall_nil|done].
Defined.

(** An idle pool gives its memory back: after two firings of the flush
    timer with no other operation in between, the cache is empty, only the
    buffers handed out remain allocated, and the timer is off. *)
Lemma Pool_idle_drains {W} `{PoolEnvOK W} bs poolSize (w0 : W) bp w out pend :
  0 < bs -> (env_limited = true -> env_held w0 = 0) ->
  rtc pool_next (Pool_New bs poolSize, w0, [], []) (bp, w, out, pend) ->
  exists bp1 w1 bp2 w2, Pool_flushAged bp w = Ret (bp1, w1) /\ Pool_flushAged bp1 w1 = Ret (bp2, w2) /\
    Pool_InPool bp2 = 0 /\ Pool_Alloced bp2 = Z.of_nat (length out) /\ p_timer bp2 = false.
Proof.
  intros Hbs Hw Hr. pose proof (reachable_ok _ _ _ _ Hbs Hw Hr) as (Hi & _ & _ & _).
  destruct (flushAged_inv _ _ _ _ Hi) as (bp1 & w1 & -> & Hi1 & _ & _ & Hm1 & _).
  destruct (flushAged_inv _ _ _ _ Hi1) as (bp2 & w2 & Hf2 & Hi2 & _ & Hb2 & _ & Ht2 & _).
  do 4 eexists. split; [done|]. split; [done|]. unfold Pool_InPool, Pool_Alloced in *.
  assert (Hz : Pool_buffers bp2 = 0) by lia. split; [done|].
  split; [destruct Hi2 as [[] ]; unfold Pool_buffers in *; lia|]. by rewrite Ht2, Hz.
Qed.

Lemma Pool_idle_drains_witness : exists bp w bp1 w1 bp2 (w2 : memory),
  Pool_flushAged bp w = Ret (bp1, w1) /\ Pool_flushAged bp1 w1 = Ret (bp2, w2) /\
  Pool_InPool bp2 = 0 /\ Pool_Alloced bp2 = Z.of_nat 2 /\ p_timer bp2 = false.
Proof.
  destruct demo_pool_run as (bp & w & Hr & _). exists bp, w.
  apply (Pool_idle_drains 4 8 demo_memory bp w [1%positive; 2%positive] []).
  - lia.
  - reflexivity.
  - exact Hr.
Defined.
