(* ===== verification/ReadWriter.v ===== *)
(** * The paged buffer (internal/engine/bufferpool/reader_writer.go)

    [RW] is a growing buffer made of pool pages: written at the end, read from a
    position of its own, closed once.  The model keeps the pages as the buffers
    the pool handed out, stale contents included; the pool, its environment [M]
    and the world [W] of the readers, writers and observers are passed along. *)
From stdpp Require Import base numbers list gmap strings.
From Stdlib Require Import ZArith Lia Init.Byte.
From S2P Require Import Prelude GoIO BufferPool.

Local Open Scope Z_scope.
Local Open Scope go_scope.

(** [io.Writer.Write]: the count and the error. *)
Class Writer (W Wr : Type) := { wr_Write : list byte -> Wr -> W -> Z * option error * Wr * W }.

(** The documentation of [io.Writer]: [wr_got] is what the writer was given (a
    specification device); it takes a prefix, all of it unless it returns an
    error. *)
Class WriterOK (W Wr : Type) `{Writer W Wr} := {
  wr_got : Wr -> list byte;
  wr_Write_ok : forall d wr w n err wr' w', wr_Write d wr w = (n, err, wr', w') ->
    0 <= n <= Z.of_nat (length d) /\ wr_got wr' = wr_got wr ++ take (Z.to_nat n) d /\
    (err = None -> n = Z.of_nat (length d))
}.

(** [written] is the one-slot channel, [active] counts the operations under way. *)
Record RW (W : Type) := mkRW {
  rw_writeObserver : option (list byte -> W -> Z * option error * W);
  rw_closed : bool;
  rw_active : Z;
  rw_pages : list buffer;
  rw_size : Z;
  rw_lastOffset : Z;
  rw_written : bool;
  rw_out : Z;
  rw_reserved : list buffer;
}.
Arguments mkRW {W}.
Arguments rw_writeObserver {W}. Arguments rw_closed {W}. Arguments rw_active {W}. Arguments rw_pages {W}.
Arguments rw_size {W}. Arguments rw_lastOffset {W}. Arguments rw_written {W}. Arguments rw_out {W}.
Arguments rw_reserved {W}.

Definition rw_set {W} (rw : RW W) (pages : list buffer) (size lastOffset out : Z) (reserved : list buffer) : RW W :=
  mkRW (rw_writeObserver rw) (rw_closed rw) (rw_active rw) pages size lastOffset (rw_written rw) out reserved.
Definition rw_set_state {W} (rw : RW W) (closed : bool) (active : Z) (written : bool) : RW W :=
  mkRW (rw_writeObserver rw) closed active (rw_pages rw) (rw_size rw) (rw_lastOffset rw) written (rw_out rw) (rw_reserved rw).

Definition NewRW {W} : RW W := mkRW None false 0 [] 0 0 false 0 [].

Section operations.
Context {W M : Type} `{PoolEnv M}.

Definition RW_startOperation (rw : RW W) : option (RW W) :=
  if rw_closed rw then None
  else Some (rw_set_state rw (rw_closed rw) (rw_active rw + 1) (rw_written rw)).

Definition RW_finishOperation (rw : RW W) : RW W :=
  rw_set_state rw (rw_closed rw) (rw_active rw - 1) (rw_written rw).

Definition RW_Reserve (fuel : nat) (n : Z) (rw : RW W) (bp : Pool) (m : M) : run (RW W * Pool * M) :=
  let buffers := Z.quot (n +! p_bufferSize bp -! 1) (p_bufferSize bp) in
  '(bufs, bp, m) ← Pool_GetN fuel buffers bp m;
  Ret (rw_set rw (rw_pages rw) (rw_size rw) (rw_lastOffset rw) (rw_out rw) bufs, bp, m).

Definition RW_SetWriteObserver (observer : list byte -> W -> Z * option error * W) (rw : RW W) : RW W :=
  mkRW (Some observer) (rw_closed rw) (rw_active rw) (rw_pages rw) (rw_size rw) (rw_lastOffset rw)
    (rw_written rw) (rw_out rw) (rw_reserved rw).

(** The index and the slice expressions panic when out of range. *)
Definition RW_readPage (i : Z) (rw : RW W) (bp : Pool) : run (list byte) :=
  let pageNumber := Z.quot i (p_bufferSize bp) in
  let offset := Z.rem i (p_bufferSize bp) in
  if pageNumber <? 0 then Panic else
  match rw_pages rw !! Z.to_nat pageNumber with
  | None => Panic
  | Some page =>
      page ← if pageNumber =? Z.of_nat (length (rw_pages rw)) - 1
             then if (rw_lastOffset rw <? 0) || (buf_cap page <? rw_lastOffset rw) then Panic
                  else Ret (take (Z.to_nat (rw_lastOffset rw)) (buf_mem page))
             else Ret (take (Z.to_nat (buf_len page)) (buf_mem page));
      if (offset <? 0) || (Z.of_nat (length page) <? offset) then Panic
      else Ret (drop (Z.to_nat offset) page)
  end.

Definition RW_eof (rw : RW W) : bool := rw_size rw <=? rw_out rw.

Definition rw_move (rw : RW W) (nn : Z) : RW W :=
  rw_set rw (rw_pages rw) (rw_size rw) (rw_lastOffset rw) (rw_out rw + nn) (rw_reserved rw).

Fixpoint RW_Read_loop (fuel n : nat) (rw : RW W) (bp : Pool) : run (list byte * option error * RW W) :=
  match fuel with
  | O => OutOfFuel
  | S fuel =>
      if (0 <? n)%nat then
        if RW_eof rw then Ret ([], Some io_EOF, rw)
        else
          page ← RW_readPage (rw_out rw) rw bp;
          let d := take n page in
          '(d', err, rw) ← RW_Read_loop fuel (n - length d)%nat (rw_move rw (Z.of_nat (length d))) bp;
          Ret (d ++ d', err, rw)
      else Ret ([], None, rw)
  end.

(** One more turn than bytes asked for is enough ([RW_Read_refines]). *)
Definition RW_Read (n : nat) (rw : RW W) (bp : Pool) : run (list byte * option error * RW W) :=
  match RW_startOperation rw with
  | None => Ret ([], Some io_ErrClosedPipe, rw)
  | Some rw => '(d, err, rw) ← RW_Read_loop (S n) n rw bp; Ret (d, err, RW_finishOperation rw)
  end.

(** A fresh page, from the reserve or the pool. *)
Definition RW_newPage (fuel : nat) (rw : RW W) (bp : Pool) (m : M) : run (nat * RW W * Pool * M) :=
  '(page, reserved, bp, m) ← match last (rw_reserved rw) with
    | Some page => Ret (page, removelast (rw_reserved rw), bp, m)
    | None => '(page, bp, m) ← Pool_Get fuel bp m; Ret (page, rw_reserved rw, bp, m)
    end;
  Ret (Z.to_nat (buf_len page), rw_set rw (rw_pages rw ++ [page]) (rw_size rw) 0 (rw_out rw) reserved, bp, m).

(** The page to write to, as its length; it is the last page from [lastOffset]
    on. *)
Definition RW_writePage (fuel : nat) (rw : RW W) (bp : Pool) (m : M) : run (nat * RW W * Pool * M) :=
  if (0 <? length (rw_pages rw))%nat && (rw_lastOffset rw <? p_bufferSize bp) then
    match last (rw_pages rw) with
    | Some page =>
        if (rw_lastOffset rw <? 0) || (buf_len page <? rw_lastOffset rw) then Panic
        else Ret (Z.to_nat (buf_len page - rw_lastOffset rw), rw, bp, m)
    | None => Panic
    end
  else RW_newPage fuel rw bp m.

(** Bytes stored through the slice [writePage] returned. *)
Definition rw_store (d : list byte) (rw : RW W) : RW W :=
  rw_set rw
    (alter (fun b => mkBuffer (buf_base b) (copy_at (Z.to_nat (rw_lastOffset rw)) d (buf_mem b)) (buf_len b))
       (length (rw_pages rw) - 1)%nat (rw_pages rw))
    (rw_size rw) (rw_lastOffset rw) (rw_out rw) (rw_reserved rw).

Definition RW_signalWrite (rw : RW W) : RW W := rw_set_state rw (rw_closed rw) (rw_active rw) true.

(** [rw.size += nn; rw.lastOffset += nn] and the signal. *)
Definition rw_grow (nn : Z) (rw : RW W) : RW W :=
  RW_signalWrite (rw_set rw (rw_pages rw) (rw_size rw + nn) (rw_lastOffset rw + nn) (rw_out rw) (rw_reserved rw)).

(** The observer sees what was written and may veto. *)
Definition RW_observe (d : list byte) (rw : RW W) (w : W) : option error * W :=
  match rw_writeObserver rw with
  | None => (None, w)
  | Some observer =>
      let '(observed, observeErr, w) := observer d w in
      match observeErr with
      | Some err => (Some err, w)
      | None => (if observed =? Z.of_nat (length d) then None else Some io_ErrShortWrite, w)
      end
  end.

Fixpoint RW_Write_loop (turns fuel : nat) (p : list byte) (rw : RW W) (bp : Pool) (m : M) (w : W)
  : run (Z * option error * RW W * Pool * M * W) :=
  match turns with
  | O => OutOfFuel
  | S turns =>
      if (0 <? length p)%nat then
        '(len, rw, bp, m) ← RW_writePage fuel rw bp m;
        let d := take len p in
        let nn := Z.of_nat (length d) in
        let rw := rw_grow nn (rw_store d rw) in
        match RW_observe d rw w with
        | (Some err, w) => Ret (nn, Some err, rw, bp, m, w)
        | (None, w) =>
            '(n, err, rw, bp, m, w) ← RW_Write_loop turns fuel (drop len p) rw bp m w;
            Ret (nn + n, err, rw, bp, m, w)
        end
      else Ret (0, None, rw, bp, m, w)
  end.

(** One more turn than bytes is enough ([RW_Write_refines]); [fuel] is for the
    pool. *)
Definition RW_Write (fuel : nat) (p : list byte) (rw : RW W) (bp : Pool) (m : M) (w : W)
  : run (Z * option error * RW W * Pool * M * W) :=
  match RW_startOperation rw with
  | None => Ret (0, Some io_ErrClosedPipe, rw, bp, m, w)
  | Some rw =>
      '(n, err, rw, bp, m, w) ← RW_Write_loop (S (length p)) fuel p rw bp m w;
      Ret (n, err, RW_finishOperation rw, bp, m, w)
  end.

Fixpoint RW_WriteTo_loop `{Writer W Wr} (turns : nat) (wr : Wr) (rw : RW W) (bp : Pool) (w : W)
  : run (Z * option error * Wr * RW W * W) :=
  match turns with
  | O => OutOfFuel
  | S turns =>
      if RW_eof rw then Ret (0, None, wr, rw, w)
      else
        page ← RW_readPage (rw_out rw) rw bp;
        let '(nn, writeErr, wr, w) := wr_Write page wr w in
        let rw := rw_move rw nn in
        match writeErr with
        | Some err => Ret (nn, Some err, wr, rw, w)
        | None => '(n, err, wr, rw, w) ← RW_WriteTo_loop turns wr rw bp w; Ret (nn + n, err, wr, rw, w)
        end
  end.

Definition RW_WriteTo `{Writer W Wr} (turns : nat) (wr : Wr) (rw : RW W) (bp : Pool) (w : W)
  : run (Z * option error * Wr * RW W * W) :=
  match RW_startOperation rw with
  | None => Ret (0, Some io_ErrClosedPipe, wr, rw, w)
  | Some rw =>
      '(n, err, wr, rw, w) ← RW_WriteTo_loop turns wr rw bp w; Ret (n, err, wr, RW_finishOperation rw, w)
  end.

Fixpoint RW_ReadFrom_loop `{ReadCloser W R} (turns fuel : nat) (r : R) (rw : RW W) (bp : Pool) (m : M) (w : W)
  : run (Z * option error * R * RW W * Pool * M * W) :=
  match turns with
  | O => OutOfFuel
  | S turns =>
      '(len, rw, bp, m) ← RW_writePage fuel rw bp m;
      let '(d, readErr, r, w) := rc_Read len r w in
      let nn := Z.of_nat (length d) in
      let rw := rw_grow nn (rw_store d rw) in
      match (if 0 <? nn then RW_observe d rw w else (None, w)) with
      | (Some err, w) => Ret (nn, Some err, r, rw, bp, m, w)
      | (None, w) =>
          match readErr with
          | Some err => Ret (nn, if bool_decide (err = io_EOF) then None else Some err, r, rw, bp, m, w)
          | None =>
              '(n, err, r, rw, bp, m, w) ← RW_ReadFrom_loop turns fuel r rw bp m w;
              Ret (nn + n, err, r, rw, bp, m, w)
          end
      end
  end.

Definition RW_ReadFrom `{ReadCloser W R} (turns fuel : nat) (r : R) (rw : RW W) (bp : Pool) (m : M) (w : W)
  : run (Z * option error * R * RW W * Pool * M * W) :=
  match RW_startOperation rw with
  | None => Ret (0, Some io_ErrClosedPipe, r, rw, bp, m, w)
  | Some rw =>
      '(n, err, r, rw, bp, m, w) ← RW_ReadFrom_loop turns fuel r rw bp m w;
      Ret (n, err, r, RW_finishOperation rw, bp, m, w)
  end.

Definition RW_Seek (offset whence : Z) (rw : RW W) : Z * option error * RW W :=
  let size := rw_size rw in
  let abs :=
    if whence =? io_SeekStart then Some offset
    else if whence =? io_SeekCurrent then Some (rw_out rw +! offset)
    else if whence =? io_SeekEnd then Some (size +! offset)
    else None in
  match abs with
  | None => (0, Some errInvalidWhence, rw)
  | Some abs =>
      if abs <? 0 then (0, Some errNegativeSeek, rw)
      else if size <? abs then (offset -! (abs -! size), Some errSeekPastEnd, rw)
      else (abs, None, rw_set rw (rw_pages rw) (rw_size rw) (rw_lastOffset rw) abs (rw_reserved rw))
  end.

(** [Close] returns the pages once no operation is under way; until then it
    waits ([false]) with the reader-writer already closed. *)
Definition RW_Close (rw : RW W) (bp : Pool) (m : M) : run (bool * RW W * Pool * M) :=
  if rw_closed rw then Ret (true, rw, bp, m)
  else
    let rw := RW_signalWrite (rw_set_state rw true (rw_active rw) (rw_written rw)) in
    if 0 <? rw_active rw then Ret (false, rw, bp, m)
    else
      '(bp, m) ← Pool_PutN (rw_pages rw) bp m;
      '(bp, m) ← Pool_PutN (rw_reserved rw) bp m;
      Ret (true, rw_set rw [] (rw_size rw) (rw_lastOffset rw) (rw_out rw) [], bp, m).

(** [WaitWrite] ends when a second is over or the context is done ([over]), or
    when something has been written since, and then takes the note of it; else it
    goes on to wait ([None]).  When both is the case either may happen. *)
Definition RW_WaitWrite (over : bool) (rw : RW W) : option (RW W) :=
  if over then Some rw else if rw_written rw then Some (rw_set_state rw (rw_closed rw) (rw_active rw) false) else None.

Definition RW_Size (rw : RW W) : Z := rw_size rw.
End operations.

(** ** The invariant and the abstract buffer

    The abstract buffer is the bytes written so far and the read position. *)
Definition flat (bufs : list buffer) : list byte := concat (map buf_mem bufs).
Definition rw_content {W} (rw : RW W) : list byte := take (Z.to_nat (rw_size rw)) (flat (rw_pages rw)).

Definition full_buf (bs : Z) (b : buffer) : Prop := buf_cap b = bs /\ buf_len b = bs.

Record rw_inv {W} (bs : Z) (rw : RW W) : Prop := {
  ri_bs : 0 < bs;
  ri_pages : Forall (full_buf bs) (rw_pages rw);
  ri_reserved : Forall (full_buf bs) (rw_reserved rw);
  ri_size : rw_size rw = Z.max 0 (bs * (Z.of_nat (length (rw_pages rw)) - 1) + rw_lastOffset rw);
  ri_last : 0 <= rw_lastOffset rw <= bs /\ (rw_pages rw = [] -> rw_lastOffset rw = 0);
  ri_out : 0 <= rw_out rw <= rw_size rw;
}.

Section content.
Context {W : Type}.
Implicit Types rw : RW W.

Lemma length_flat bs bufs : Forall (full_buf bs) bufs ->
  Z.of_nat (length (flat bufs)) = bs * Z.of_nat (length bufs).
Proof.
  unfold flat. induction 1 as [|b bufs [Hb _] _ IH]; cbn; [lia|].
  rewrite length_app. unfold buf_cap in Hb. lia.
Qed.

Lemma flat_app l1 l2 : flat (l1 ++ l2) = flat l1 ++ flat l2.
Proof. unfold flat. by rewrite map_app, concat_app. Qed.

(** All pages but the last are full. *)
Lemma rw_content_snoc bs rw init pg : rw_inv bs rw -> rw_pages rw = init ++ [pg] ->
  rw_content rw = flat init ++ take (Z.to_nat (rw_lastOffset rw)) (buf_mem pg) /\
  Z.of_nat (length (flat init)) = bs * (Z.of_nat (length (rw_pages rw)) - 1) /\
  Z.of_nat (length (buf_mem pg)) = bs.
Proof.
  intros [] Hp. unfold rw_content. rewrite Hp in *. rewrite flat_app.
  apply Forall_app in ri_pages0 as [Hi [[Hcap _] _]%Forall_cons].
  pose proof (length_flat _ _ Hi) as Hl. rewrite length_app in *. cbn [length] in *.
  split; [|split; [lia|done]]. unfold flat at 2. cbn. rewrite app_nil_r.
  rewrite take_app_ge by lia. f_equal. f_equal. lia.
Qed.

Lemma rw_content_length bs rw : rw_inv bs rw -> Z.of_nat (length (rw_content rw)) = rw_size rw.
Proof.
  intros []. unfold rw_content. rewrite length_take. pose proof (length_flat _ _ ri_pages0).
  destruct (rw_pages rw); cbn [length] in *; nia.
Qed.

Lemma readPage_spec bs rw bp i : rw_inv bs rw -> p_bufferSize bp = bs -> 0 <= i < rw_size rw ->
  exists d rest, RW_readPage i rw bp = Ret d /\ d <> [] /\ drop (Z.to_nat i) (rw_content rw) = d ++ rest.
Proof.
  intros Hinv Hbs Hi. pose proof Hinv as []. unfold RW_readPage. rewrite Hbs.
  rewrite Z.quot_div_nonneg, Z.rem_mod_nonneg by lia.
  set (q := i `div` bs). set (o := i `mod` bs).
  assert (Hqo : i = bs * q + o /\ 0 <= o < bs) by (subst q o; split; [apply Z.div_mod; lia|apply Z.mod_pos_bound; lia]).
  clearbody q o. destruct Hqo as [-> Ho].
  assert (Hq : 0 <= q < Z.of_nat (length (rw_pages rw))) by nia.
  destruct (Z.ltb_spec q 0); [lia|].
  destruct (lookup_lt_is_Some_2 (rw_pages rw) (Z.to_nat q)) as [pg Hpg]; [lia|]. rewrite Hpg.
  pose proof (take_drop_middle _ _ _ Hpg) as Hsplit.
  assert (Hpgok : full_buf bs pg) by (by eapply (Forall_lookup_1 _ _ _ _ ri_pages0)).
  destruct Hpgok as [Hcap Hlen]. unfold buf_cap in *.
  destruct (Z.eqb_spec q (Z.of_nat (length (rw_pages rw)) - 1)) as [Hlast|Hlast].
  - assert (Hp : rw_pages rw = take (Z.to_nat q) (rw_pages rw) ++ [pg]).
    { rewrite (drop_ge (rw_pages rw) (S (Z.to_nat q))) in Hsplit by lia. done. }
    destruct (rw_content_snoc _ _ _ _ Hinv Hp) as (Hc & Hli & _).
    destruct (Z.ltb_spec (rw_lastOffset rw) 0), (Z.ltb_spec (Z.of_nat (length (buf_mem pg))) (rw_lastOffset rw)); try lia.
    cbn. rewrite length_take. destruct (Z.ltb_spec o 0), (Z.ltb_spec (Z.of_nat (Z.to_nat (rw_lastOffset rw) `min` length (buf_mem pg))) o); try nia.
    cbn. do 2 eexists. split; [done|]. split.
    { intros Hn. apply (f_equal length) in Hn. rewrite length_drop, length_take in Hn. cbn in Hn. nia. }
    rewrite Hc, drop_app_ge by lia. rewrite app_nil_r. f_equal. lia.
  - assert (Hlt : bs * q + bs <= rw_size rw) by nia.
    cbn. rewrite length_take. destruct (Z.ltb_spec o 0), (Z.ltb_spec (Z.of_nat (Z.to_nat (buf_len pg) `min` length (buf_mem pg))) o); try lia.
    cbn. rewrite take_ge by lia. do 2 eexists. split; [done|]. split.
    { intros Hn. apply (f_equal length) in Hn. rewrite length_drop in Hn. cbn in Hn. lia. }
    unfold rw_content. rewrite <- Hsplit at 1. rewrite flat_app. unfold flat at 2. cbn [map concat].
    assert (Hlq : Z.of_nat (length (flat (take (Z.to_nat q) (rw_pages rw)))) = bs * q).
    { rewrite (length_flat bs) by (by apply Forall_take). rewrite length_take. lia. }
    rewrite take_app_ge, drop_app_ge by lia. rewrite take_app_ge by lia. rewrite drop_app_le by lia.
    f_equal. f_equal. lia.
Qed.
End content.

(** The buffer with the pool it draws on; [out] are the buffers of others. *)
Record rw_ok {W M} `{PoolEnvOK M} (out : list positive) (pend : Z) (rw : RW W) (bp : Pool) (m : M) : Prop := {
  ro_inv : rw_inv (p_bufferSize bp) rw;
  ro_pool : pool_inv (bases (rw_pages rw ++ rw_reserved rw) ++ out) pend bp m;
  ro_pend : 0 <= pend;
  ro_max : p_bufferSize bp <= MaxInt64;
  ro_timer : p_flushPending bp = true -> p_timer bp = true;
}.

Section proofs.
Context {W M : Type} `{PoolEnvOK M}.
Implicit Types rw : RW W.

Lemma rw_move_inv bs rw k : rw_inv bs rw -> 0 <= rw_out rw + k <= rw_size rw -> rw_inv bs (rw_move rw k).
Proof. intros [] Hk. by split. Qed.

Lemma Read_loop_spec bs bp fuel : forall n rw, rw_inv bs rw -> p_bufferSize bp = bs -> (n < fuel)%nat ->
  let d := take n (drop (Z.to_nat (rw_out rw)) (rw_content rw)) in
  RW_Read_loop fuel n rw bp =
    Ret (d, if (length d <? n)%nat then Some io_EOF else None, rw_move rw (Z.of_nat (length d))).
Proof.
  induction fuel as [|fuel IH]; intros n rw Hinv Hbs Hn; [lia|]. cbn zeta. cbn [RW_Read_loop].
  pose proof (rw_content_length _ _ Hinv) as Hlc. pose proof (ri_out _ _ Hinv) as Ho.
  assert (Hz : rw_move rw (Z.of_nat 0) = rw).
  { unfold rw_move, rw_set. destruct rw. cbn. f_equal. lia. }
  destruct (Nat.ltb_spec 0 n).
  - unfold RW_eof. destruct (Z.leb_spec (rw_size rw) (rw_out rw)) as [He|He].
    + rewrite drop_ge by lia. rewrite take_nil. cbn [length]. rewrite Hz.
      destruct (Nat.ltb_spec 0 n); [done|lia].
    + destruct (readPage_spec bs rw bp (rw_out rw)) as (d & rest & -> & Hne & Hd); [done..|lia|]. cbn [mbind run_bind].
      assert (Hlen : (length (d ++ rest) = length (rw_content rw) - Z.to_nat (rw_out rw))%nat) by (by rewrite <- Hd, length_drop).
      rewrite length_app in Hlen.
      assert (0 < length d)%nat by (destruct d; cbn; [done|lia]).
      set (k := length (take n d)). assert (Hk : (0 < k <= n)%nat /\ (k <= length d)%nat) by (subst k; rewrite length_take; lia).
      specialize (IH (n - k)%nat (rw_move rw (Z.of_nat k))). cbn zeta in IH.
      rewrite IH; [|apply rw_move_inv; [done|lia]|done|lia]. clear IH. cbn [mbind run_bind].
      assert (Hsplit : take n (drop (Z.to_nat (rw_out rw)) (rw_content rw)) =
        take n d ++ take (n - k) (drop (Z.to_nat (rw_out rw + Z.of_nat k)) (rw_content rw))).
      { replace (Z.to_nat (rw_out rw + Z.of_nat k)) with (Z.to_nat (rw_out rw) + k)%nat by lia.
        rewrite <- drop_drop, Hd. subst k. rewrite length_take.
        destruct (decide (n <= length d)%nat).
        - rewrite Nat.min_l by lia. rewrite take_app_le by lia. rewrite Nat.sub_diag, take_0, app_nil_r. done.
        - rewrite Nat.min_r by lia. rewrite (take_app_ge d), (take_ge d), drop_app_length by lia. done. }
      change (rw_content (rw_move rw (Z.of_nat k))) with (rw_content rw).
      rewrite Hsplit. set (d2 := take (n - k) _). rewrite length_app. fold k.
      replace (rw_move (rw_move rw (Z.of_nat k)) (Z.of_nat (length d2))) with (rw_move rw (Z.of_nat (k + length d2)))
        by (unfold rw_move, rw_set; cbn; f_equal; lia).
      replace (length d2 <? n - k)%nat with (k + length d2 <? n)%nat; [done|].
      destruct (Nat.ltb_spec (k + length d2) n), (Nat.ltb_spec (length d2) (n - k)); done || lia.
  - assert (n = 0%nat) as -> by lia. rewrite take_0. cbn [length]. by rewrite Hz.
Qed.

Lemma RW_Read_spec bs bp n rw : rw_inv bs rw -> p_bufferSize bp = bs -> rw_closed rw = false ->
  let d := take n (drop (Z.to_nat (rw_out rw)) (rw_content rw)) in
  RW_Read n rw bp =
    Ret (d, if (length d <? n)%nat then Some io_EOF else None, rw_move rw (Z.of_nat (length d))).
Proof.
  intros Hinv Hbs Hc. unfold RW_Read, RW_startOperation. rewrite Hc.
  set (rw1 := rw_set_state _ _ _ _).
  assert (Hinv1 : rw_inv bs rw1) by (by destruct Hinv).
  cbn zeta. rewrite (Read_loop_spec bs bp (S n) n rw1 Hinv1 Hbs) by lia. cbn [mbind run_bind].
  do 2 f_equal. unfold RW_finishOperation, rw_set_state, rw_move, rw_set. cbn. f_equal; try done. lia.
Qed.

(** Storing at the end appends to the contents. *)
Lemma store_grow_spec bs rw d : rw_inv bs rw -> rw_pages rw <> [] ->
  rw_lastOffset rw + Z.of_nat (length d) <= bs ->
  let rw' := rw_grow (Z.of_nat (length d)) (rw_store d rw) in
  rw_inv bs rw' /\ rw_content rw' = rw_content rw ++ d /\ bases (rw_pages rw') = bases (rw_pages rw).
Proof.
  intros Hinv Hne Hfit. cbn zeta.
  destruct (rw_pages rw) as [|? ?] eqn:Hp0 using rev_ind; [done|]. clear IHl Hne.
  rename x into pg, l into init.
  destruct (rw_content_snoc _ _ _ _ Hinv Hp0) as (Hc & Hli & Hpg).
  set (pg' := mkBuffer (buf_base pg) (copy_at (Z.to_nat (rw_lastOffset rw)) d (buf_mem pg)) (buf_len pg)).
  set (rw' := rw_grow _ _).
  pose proof Hinv as [].
  assert (Hlen' : length (buf_mem pg') = length (buf_mem pg)) by (apply length_copy_at; lia).
  assert (Hp' : rw_pages rw' = init ++ [pg']).
  { subst rw'. cbn. rewrite Hp0, length_app. cbn.
    replace (length init + 1 - 1)%nat with (length init + 0)%nat by lia. by rewrite alter_app_r. }
  assert (Hinv' : rw_inv bs rw').
  { rewrite Hp0, length_app in ri_size0. cbn [length] in ri_size0.
    split; rewrite ?Hp'.
    - done.
    - rewrite Hp0 in ri_pages0. apply Forall_app in ri_pages0 as [? [[] _]%Forall_cons].
      apply Forall_app. split; [done|]. apply Forall_singleton. split; [|done]. unfold buf_cap in *. by rewrite Hlen'.
    - done.
    - cbn. rewrite length_app. cbn [length]. nia.
    - cbn. split; [lia|]. intros Hn. by apply app_eq_nil in Hn as [_ ?].
    - cbn. lia. }
  split; [done|]. destruct (rw_content_snoc _ _ _ _ Hinv' Hp') as (-> & _ & _).
  rewrite Hc, Hp'. split; [|unfold bases; by rewrite !map_app].
  rewrite <- app_assoc. f_equal. subst rw' pg'. cbn [buf_mem]. unfold copy_at.
  replace (Z.to_nat (rw_lastOffset _)) with (Z.to_nat (rw_lastOffset rw) + length d)%nat by (cbn; lia).
  rewrite (take_ge d) by lia. rewrite app_assoc, take_app_length'; [done|].
  rewrite length_app, length_take. lia.
Qed.

(** What writing leaves alone. *)
Definition rw_frame rw rw' : Prop :=
  rw_writeObserver rw' = rw_writeObserver rw /\ rw_closed rw' = rw_closed rw /\
  rw_active rw' = rw_active rw /\ rw_out rw' = rw_out rw.

Lemma rw_frame_trans rw1 rw2 rw3 : rw_frame rw1 rw2 -> rw_frame rw2 rw3 -> rw_frame rw1 rw3.
Proof. unfold rw_frame. intuition congruence. Qed.

(** A write step keeps the buffer well formed and appends [d]. *)
Record wrote (out : list positive) (pend : Z) (d : list byte) rw bp (m : M) rw' bp' (m' : M) : Prop := {
  wr_ok : rw_ok out pend rw' bp' m';
  wr_content : rw_content rw' = rw_content rw ++ d;
  wr_frame : rw_frame rw rw';
  wr_bs : p_bufferSize bp' = p_bufferSize bp;
}.

Lemma wrote_trans out pend d1 d2 rw1 bp1 m1 rw2 bp2 m2 rw3 bp3 m3 :
  wrote out pend d1 rw1 bp1 m1 rw2 bp2 m2 -> wrote out pend d2 rw2 bp2 m2 rw3 bp3 m3 ->
  wrote out pend (d1 ++ d2) rw1 bp1 m1 rw3 bp3 m3.
Proof.
  intros [_ Hc1 Hf1 Hb1] [Hok Hc2 Hf2 Hb2]. split; [done| |by eapply rw_frame_trans|congruence].
  by rewrite Hc2, Hc1, app_assoc.
Qed.

Lemma newPage_spec `{!PoolEnvProgress M} fuel out pend rw bp (m : M) :
  rw_ok out pend rw bp m -> (rw_pages rw = [] \/ rw_lastOffset rw = p_bufferSize bp) -> (env_failures m < fuel)%nat ->
  exists len rw' bp' m', RW_newPage fuel rw bp m = Ret (len, rw', bp', m') /\
    wrote out pend [] rw bp m rw' bp' m' /\ (env_failures m' <= env_failures m)%nat /\
    rw_pages rw' <> [] /\ (0 < len)%nat /\ rw_lastOffset rw' + Z.of_nat len = p_bufferSize bp.
Proof.
  intros [Hinv Hpool Hpend Hmax Htim] Hfull Hf. pose proof Hinv as []. unfold RW_newPage.
  assert (Hpage : exists page reserved bp' m', match last (rw_reserved rw) with
      | Some page => Ret (page, removelast (rw_reserved rw), bp, m)
      | None => '(page, bp, m) ← Pool_Get fuel bp m; Ret (page, rw_reserved rw, bp, m)
      end = Ret (page, reserved, bp', m') /\ full_buf (p_bufferSize bp) page /\
      Forall (full_buf (p_bufferSize bp)) reserved /\ p_bufferSize bp' = p_bufferSize bp /\
      p_timer bp' = p_timer bp /\ p_flushPending bp' = p_flushPending bp /\
      (env_failures m' <= env_failures m)%nat /\
      pool_inv (bases ((rw_pages rw ++ [page]) ++ reserved) ++ out) pend bp' m').
  { destruct (rw_reserved rw) as [|? ?] eqn:Hr using rev_ind.
    - cbn. destruct (Get_spec fuel _ _ _ _ Hpool) as (page & bp' & m' & -> & Hb & Ht & Hfp & Hcap & Hlen & Hi & Hle); [lia..|].
      cbn. exists page, [], bp', m'. split; [done|]. split; [done|]. split; [done|]. split; [done|]. split; [done|].
      split; [done|]. split; [done|].
      assert (Hp : bases ((rw_pages rw ++ [page]) ++ []) ++ out ≡ₚ buf_base page :: bases (rw_pages rw ++ []) ++ out).
      { unfold bases. rewrite !map_app. cbn. solve_Permutation. }
      destruct Hi. split; rewrite ?Hp; try done. by eapply pool_core_perm.
    - clear IHl. rewrite last_snoc, removelast_last. apply Forall_app in ri_reserved0 as [Hl [Hx _]%Forall_cons].
      exists x, l, bp, m. split; [done|]. split; [done|]. split; [done|].
      assert (Hp : bases ((rw_pages rw ++ [x]) ++ l) ++ out ≡ₚ bases (rw_pages rw ++ l ++ [x]) ++ out).
      { unfold bases. rewrite !map_app. cbn. solve_Permutation. }
      do 4 (split; [done|]). destruct Hpool. split; rewrite ?Hp; try done. by eapply pool_core_perm. }
  destruct Hpage as (page & reserved & bp' & m' & -> & [Hcap Hlen] & Hres & Hb & Ht & Hfp & Hle & Hpool').
  cbn [mbind run_bind]. do 4 eexists. split; [done|]. set (rw' := rw_set _ _ _ _ _ _).
  assert (Hszp : rw_size rw = p_bufferSize bp * Z.of_nat (length (rw_pages rw))).
  { destruct Hfull as [Hn|Hn].
    - rewrite Hn in *. cbn [length] in *. destruct ri_last0 as [_ Hz]. rewrite Hz in * by done. lia.
    - rewrite Hn in *. destruct ri_last0 as [_ Hz].
      destruct (rw_pages rw); cbn [length] in *; [specialize (Hz eq_refl)|]; lia. }
  assert (Hinv' : rw_inv (p_bufferSize bp) rw').
  { split; cbn; try done.
    - apply Forall_app. split; [done|]. by apply Forall_singleton.
    - rewrite length_app. cbn [length]. nia.
    - split; [lia|done]. }
  split; [|cbn; split; [done|split; [by intros [_ ?]%app_eq_nil|lia]]].
  split; try done.
  - split; rewrite ?Hb, ?Ht, ?Hfp; try done.
  - destruct (rw_content_snoc _ rw' (rw_pages rw) page Hinv' eq_refl) as (-> & _ & _).
    rewrite app_nil_r. subst rw'. cbn [rw_set rw_lastOffset rw_pages Z.to_nat]. rewrite app_nil_r.
    unfold rw_content. rewrite take_ge; [done|]. pose proof (length_flat _ _ ri_pages0). lia.
Qed.

Lemma writePage_spec `{!PoolEnvProgress M} fuel out pend rw bp (m : M) :
  rw_ok out pend rw bp m -> (env_failures m < fuel)%nat ->
  exists len rw' bp' m', RW_writePage fuel rw bp m = Ret (len, rw', bp', m') /\
    wrote out pend [] rw bp m rw' bp' m' /\ (env_failures m' <= env_failures m)%nat /\
    rw_pages rw' <> [] /\ (0 < len)%nat /\ rw_lastOffset rw' + Z.of_nat len = p_bufferSize bp.
Proof.
  intros Hok Hf. pose proof Hok as [Hinv _ _ _ _]. pose proof Hinv as []. unfold RW_writePage.
  destruct (Nat.ltb_spec 0 (length (rw_pages rw))), (Z.ltb_spec (rw_lastOffset rw) (p_bufferSize bp)); cbn [andb];
    try (apply newPage_spec; [done|first [right; lia|left; apply nil_length_inv; lia]|done]).
  destruct (last (rw_pages rw)) as [page|] eqn:Hl; [|apply last_None, (f_equal length) in Hl; cbn in Hl; lia].
  assert (Hpage : full_buf (p_bufferSize bp) page).
  { rewrite Forall_forall in ri_pages0. apply ri_pages0. by eapply last_Some_elem_of. }
  destruct Hpage as [Hcap Hlen].
  destruct (Z.ltb_spec (rw_lastOffset rw) 0), (Z.ltb_spec (buf_len page) (rw_lastOffset rw)); try lia. cbn [orb].
  do 4 eexists. split; [done|]. split; [split; try done; by rewrite app_nil_r|].
  split; [done|]. split; [intros Hn; apply (f_equal length) in Hn; cbn in Hn; lia|]. lia.
Qed.

Lemma store_wrote out pend d rw bp (m : M) : rw_ok out pend rw bp m -> rw_pages rw <> [] ->
  rw_lastOffset rw + Z.of_nat (length d) <= p_bufferSize bp ->
  wrote out pend d rw bp m (rw_grow (Z.of_nat (length d)) (rw_store d rw)) bp m.
Proof.
  intros [Hinv Hpool Hpend Hmax Htim] Hne Hfit.
  destruct (store_grow_spec _ _ _ Hinv Hne Hfit) as (Hi & Hc & Hb).
  split; [|done|done|done]. split; try done.
  unfold bases in *. rewrite map_app in *. by rewrite Hb.
Qed.

Lemma observe_None d rw w : rw_writeObserver rw = None -> RW_observe d rw w = (None, w).
Proof. unfold RW_observe. by intros ->. Qed.

(** [Write] appends a prefix of [p], all of it unless the observer objects. *)
Lemma Write_loop_spec `{!PoolEnvProgress M} fuel turns : forall p out pend rw bp (m : M) (w : W),
  rw_ok out pend rw bp m -> (env_failures m < fuel)%nat -> (length p < turns)%nat ->
  exists n err rw' bp' m' w', RW_Write_loop turns fuel p rw bp m w = Ret (n, err, rw', bp', m', w') /\
    0 <= n <= Z.of_nat (length p) /\ wrote out pend (take (Z.to_nat n) p) rw bp m rw' bp' m' /\
    (env_failures m' <= env_failures m)%nat /\
    (err = None -> n = Z.of_nat (length p)) /\ (rw_writeObserver rw = None -> err = None /\ w' = w).
Proof.
  induction turns as [|turns IH]; intros p out pend rw bp m w Hok Hf Ht; [lia|]. cbn [RW_Write_loop].
  destruct (Nat.ltb_spec 0 (length p)) as [Hp|Hp].
  - destruct (writePage_spec fuel out pend rw bp m Hok Hf) as (len & rw1 & bp1 & m1 & -> & Hw1 & Hf1 & Hne & Hlen & Hroom).
    cbn [mbind run_bind]. set (d := take len p). pose proof Hw1 as [Hok1 _ Hfr1 Hbs1].
    assert (Hd : (0 < length d <= len)%nat /\ (length d <= length p)%nat) by (subst d; rewrite length_take; lia).
    pose proof (store_wrote out pend d rw1 bp1 m1 Hok1 Hne ltac:(lia)) as Hw2.
    pose proof (wrote_trans _ _ _ _ _ _ _ _ _ _ _ _ _ Hw1 Hw2) as Hw12. cbn [app] in Hw12.
    set (rw2 := rw_grow _ _) in *.
    assert (Hobs2 : rw_writeObserver rw2 = rw_writeObserver rw) by (by destruct Hw12 as [_ _ [? _] _]).
    destruct (RW_observe d rw2 w) as [[err|] w1] eqn:Hobs.
    + do 6 eexists. split; [done|]. split; [lia|]. rewrite Nat2Z.id.
      replace (take (length d) p) with d by (subst d; by rewrite take_length_take).
      split; [done|]. split; [done|]. split; [done|]. intros Hn. rewrite observe_None in Hobs by congruence. done.
    + destruct Hw2 as [Hok2 _ _ _].
      destruct (IH (drop len p) out pend rw2 bp1 m1 w1 Hok2) as (n & err & rw3 & bp3 & m3 & w3 & -> & Hn & Hw3 & Hf3 & Hnone & Hno); [lia|rewrite length_drop; lia|].
      cbn. do 6 eexists. split; [done|]. rewrite length_drop in *.
      assert (Hsplit : take (Z.to_nat (Z.of_nat (length d) + n)) p = d ++ take (Z.to_nat n) (drop len p)).
      { subst d. rewrite Z2Nat.inj_add, Nat2Z.id by lia. rewrite length_take in *.
        destruct (decide (len <= length p)%nat).
        - rewrite Nat.min_l by lia. by rewrite take_take_drop.
        - rewrite Nat.min_r by lia. rewrite (drop_ge p len), take_nil, app_nil_r, !take_ge by lia. done. }
      rewrite Hsplit.
      assert (Hdl : length d = (len `min` length p)%nat) by (subst d; apply length_take).
      split; [lia|]. split; [by eapply wrote_trans|]. split; [lia|].
      split; [intros He; specialize (Hnone He); lia|].
      intros Ho. rewrite observe_None in Hobs by congruence. injection Hobs as <-. apply Hno. congruence.
  - destruct p; cbn in Hp; [|lia]. do 6 eexists. split; [done|]. cbn. split; [lia|].
    split; [split; try done; by rewrite app_nil_r|]. done.
Qed.

(** [ReadFrom] appends what the reader delivers, to its end unless it fails or
    the observer objects. *)
Lemma ReadFrom_loop_spec `{!PoolEnvProgress M} `{ReaderOK W R} `{!ReaderProgress W R} fuel turns :
  forall (r : R) out pend rw bp (m : M) (w : W),
  rw_ok out pend rw bp m -> (env_failures m < fuel)%nat -> (length (rc_rest r) < turns)%nat ->
  exists d err r' rw' bp' m' w',
    RW_ReadFrom_loop turns fuel r rw bp m w = Ret (Z.of_nat (length d), err, r', rw', bp', m', w') /\
    rc_rest r = d ++ rc_rest r' /\ wrote out pend d rw bp m rw' bp' m' /\
    (env_failures m' <= env_failures m)%nat /\ (err = None -> rc_rest r' = []).
Proof.
  induction turns as [|turns IH]; intros r out pend rw bp m w Hok Hf Ht; [lia|]. cbn [RW_ReadFrom_loop].
  destruct (writePage_spec fuel out pend rw bp m Hok Hf) as (len & rw1 & bp1 & m1 & -> & Hw1 & Hf1 & Hne & Hlen & Hroom).
  cbn [mbind run_bind]. pose proof Hw1 as [Hok1 _ Hfr1 Hbs1].
  destruct (rc_Read len r w) as [[[d readErr] r1] w1] eqn:Hr.
  pose proof Hr as Hrr. apply rc_Read_ok in Hrr as (Hdl & Hrest & Heof).
  pose proof (store_wrote out pend d rw1 bp1 m1 Hok1 Hne ltac:(lia)) as Hw2.
  pose proof (wrote_trans _ _ _ _ _ _ _ _ _ _ _ _ _ Hw1 Hw2) as Hw12. cbn [app] in Hw12.
  set (rw2 := rw_grow _ _) in *.
  destruct (if 0 <? Z.of_nat (length d) then RW_observe d rw2 w1 else (None, w1)) as [[err|] w2] eqn:Hobs.
  { exists d. do 6 eexists. split; [done|]. done. }
  destruct readErr as [err|].
  { exists d. do 6 eexists. split; [done|]. split; [done|]. split; [done|]. split; [done|].
    case_bool_decide; [|done]. subst err. by intros _; apply Heof. }
  destruct Hw2 as [Hok2 _ _ _]. apply rc_Read_progress in Hr; [|done].
  assert (0 < length d)%nat by (destruct d; cbn; [done|lia]).
  destruct (IH r1 out pend rw2 bp1 m1 w2 Hok2) as (d2 & err & r3 & rw3 & bp3 & m3 & w3 & -> & Hrest3 & Hw3 & Hf3 & Hnone); [lia|rewrite Hrest, length_app in Ht; lia|].
  cbn. exists (d ++ d2). do 6 eexists. split; [by rewrite length_app, Nat2Z.inj_add|].
  split; [by rewrite <- app_assoc, <- Hrest3|]. split; [by eapply wrote_trans|]. split; [lia|done].
Qed.

(** [WriteTo] hands on what is left, all of it unless the writer fails. *)
Lemma WriteTo_loop_spec `{WriterOK W Wr} bs bp turns : forall (wr : Wr) rw (w : W),
  rw_inv bs rw -> p_bufferSize bp = bs -> (Z.to_nat (rw_size rw - rw_out rw) < turns)%nat ->
  exists n err wr' w', RW_WriteTo_loop turns wr rw bp w = Ret (n, err, wr', rw_move rw n, w') /\
    0 <= n <= rw_size rw - rw_out rw /\
    wr_got wr' = wr_got wr ++ take (Z.to_nat n) (drop (Z.to_nat (rw_out rw)) (rw_content rw)) /\
    (err = None -> n = rw_size rw - rw_out rw).
Proof.
  induction turns as [|turns IH]; intros wr rw w Hinv Hbs Ht; [lia|]. cbn [RW_WriteTo_loop]. unfold RW_eof.
  pose proof (ri_out _ _ Hinv) as Ho. pose proof (rw_content_length _ _ Hinv) as Hlc.
  assert (Hz : rw_move rw 0 = rw) by (unfold rw_move, rw_set; destruct rw; cbn; f_equal; lia).
  destruct (Z.leb_spec (rw_size rw) (rw_out rw)).
  { exists 0. do 3 eexists. rewrite Hz. split; [done|]. split; [lia|]. split; [by rewrite app_nil_r|lia]. }
  destruct (readPage_spec bs rw bp (rw_out rw)) as (d & rest & -> & Hne & Hd); [done..|lia|]. cbn [mbind run_bind].
  destruct (wr_Write d wr w) as [[[nn werr] wr1] w1] eqn:Hw. apply wr_Write_ok in Hw as (Hn & Hgot & Hfull).
  assert (Hlen : (length (d ++ rest) = length (rw_content rw) - Z.to_nat (rw_out rw))%nat) by (by rewrite <- Hd, length_drop).
  rewrite length_app in Hlen.
  destruct werr as [err|].
  { do 4 eexists. split; [done|]. split; [lia|]. split; [|done]. rewrite Hd, Hgot. by rewrite take_app_le by lia. }
  specialize (Hfull eq_refl). subst nn. rewrite Nat2Z.id, take_ge in Hgot by lia.
  assert (0 < length d)%nat by (destruct d; cbn; [done|lia]).
  destruct (IH wr1 (rw_move rw (Z.of_nat (length d))) w1) as (n & err & wr2 & w2 & -> & Hn2 & Hgot2 & Hf2);
    [apply rw_move_inv; [done|lia]|done|cbn; lia|].
  cbn [mbind run_bind]. do 4 eexists. cbn in Hn2, Hf2. split; [|split; [|split]].
  - unfold rw_move, rw_set. cbn. by rewrite Z.add_assoc.
  - lia.
  - rewrite Hgot2, Hgot, <- app_assoc. f_equal. cbn [rw_move rw_out rw_set].
    replace (Z.to_nat (rw_out rw + Z.of_nat (length d))) with (Z.to_nat (rw_out rw) + length d)%nat by lia.
    change (rw_content (rw_move rw _)) with (rw_content rw). rewrite <- drop_drop, Hd, drop_app_length.
    replace (Z.to_nat (Z.of_nat (length d) + n)) with (length d + Z.to_nat n)%nat by lia.
    by rewrite take_app_add.
  - intros He. specialize (Hf2 He). lia.
Qed.
End proofs.

(** ** Refinement of an abstract buffer *)
Inductive rw_op := OWrite (p : list byte) | ORead (n : nat) | OSeek (offset whence : Z) | OSize.
Inductive rw_res := RWrite (n : Z) (err : option error) | RRead (d : list byte) (err : option error)
  | RSeek (n : Z) (err : option error) | RSize (n : Z).

Definition rw_run_op {W M} `{PoolEnv M} (fuel : nat) (op : rw_op) (st : RW W * Pool * M * W)
  : run (rw_res * (RW W * Pool * M * W)) :=
  let '(rw, bp, m, w) := st in
  match op with
  | OWrite p => '(n, err, rw, bp, m, w) ← RW_Write fuel p rw bp m w; Ret (RWrite n err, (rw, bp, m, w))
  | ORead n => '(d, err, rw) ← RW_Read n rw bp; Ret (RRead d err, (rw, bp, m, w))
  | OSeek offset whence => let '(n, err, rw) := RW_Seek offset whence rw in Ret (RSeek n err, (rw, bp, m, w))
  | OSize => Ret (RSize (RW_Size rw), st)
  end.

Fixpoint rw_run {W M} `{PoolEnv M} (fuel : nat) (ops : list rw_op) (st : RW W * Pool * M * W)
  : run (list rw_res * (RW W * Pool * M * W)) :=
  match ops with
  | [] => Ret ([], st)
  | op :: ops =>
      '(res, st) ← rw_run_op fuel op st;
      '(ress, st) ← rw_run fuel ops st;
      Ret (res :: ress, st)
  end.

(** The abstract buffer: a byte string that only grows and a position in it. *)
Definition buffer_op (op : rw_op) (st : list byte * Z) : rw_res * (list byte * Z) :=
  let '(content, pos) := st in
  let size := Z.of_nat (length content) in
  match op with
  | OWrite p => (RWrite (Z.of_nat (length p)) None, (content ++ p, pos))
  | ORead n =>
      let d := take n (drop (Z.to_nat pos) content) in
      (RRead d (if (length d <? n)%nat then Some io_EOF else None), (content, pos + Z.of_nat (length d)))
  | OSeek offset whence =>
      let target := if whence =? io_SeekStart then Some offset
                    else if whence =? io_SeekCurrent then Some (pos +! offset)
                    else if whence =? io_SeekEnd then Some (size +! offset) else None in
      match target with
      | None => (RSeek 0 (Some errInvalidWhence), st)
      | Some t => if t <? 0 then (RSeek 0 (Some errNegativeSeek), st)
                  else if size <? t then (RSeek (offset -! (t -! size)) (Some errSeekPastEnd), st)
                  else (RSeek t None, (content, t))
      end
  | OSize => (RSize size, st)
  end.

Fixpoint buffer_run (ops : list rw_op) (st : list byte * Z) : list rw_res * (list byte * Z) :=
  match ops with
  | [] => ([], st)
  | op :: ops => let '(res, st) := buffer_op op st in let '(ress, st) := buffer_run ops st in (res :: ress, st)
  end.

Definition rw_abs {W} (rw : RW W) : list byte * Z := (rw_content rw, rw_out rw).

Section refinement.
Context {W M : Type} `{PoolEnvOK M} `{!PoolEnvProgress M}.
Implicit Types rw : RW W.

(** Open, without observer, nobody in the middle of an operation. *)
Definition rw_idle rw : Prop := rw_closed rw = false /\ rw_writeObserver rw = None /\ rw_active rw = 0.

Lemma rw_ok_ext out pend rw rw' bp (m : M) :
  rw_pages rw' = rw_pages rw -> rw_reserved rw' = rw_reserved rw -> rw_size rw' = rw_size rw ->
  rw_lastOffset rw' = rw_lastOffset rw -> 0 <= rw_out rw' <= rw_size rw ->
  rw_ok out pend rw bp m -> rw_ok out pend rw' bp m.
Proof.
  intros Hp Hr Hs Hl Ho [[] ]. split; rewrite ?Hp, ?Hr; try done. split; rewrite ?Hp, ?Hr, ?Hs, ?Hl; done.
Qed.

(** Waiting changes nothing of the buffer; after a write or [Close] it is over at once. *)
Lemma WaitWrite_spec over out pend rw bp (m : M) : rw_ok out pend rw bp m -> match RW_WaitWrite over rw with
  | Some rw' => rw_abs rw' = rw_abs rw /\ rw_ok out pend rw' bp m /\ (rw_idle rw -> rw_idle rw')
  | None => over = false /\ rw_written rw = false
  end.
Proof.
  intros Hok. unfold RW_WaitWrite. destruct over; [done|]. destruct (rw_written rw) eqn:Hw; [|done].
  split; [done|]. split; [|done]. apply (rw_ok_ext out pend rw); try done. apply Hok.
Qed.
Lemma WaitWrite_after_write nn rw : is_Some (RW_WaitWrite false (rw_grow nn rw)).
Proof. by eexists. Qed.

Lemma run_op_refines fuel op out pend rw bp (m : M) (w : W) :
  rw_ok out pend rw bp m -> rw_idle rw -> (env_failures m < fuel)%nat ->
  exists res rw' bp' m', rw_run_op fuel op (rw, bp, m, w) = Ret (res, (rw', bp', m', w)) /\
    buffer_op op (rw_abs rw) = (res, rw_abs rw') /\ rw_ok out pend rw' bp' m' /\ rw_idle rw' /\
    (env_failures m' < fuel)%nat.
Proof.
  intros Hok (Hcl & Hobs & Hact) Hf. pose proof Hok as [Hinv _ _ _ _].
  pose proof (rw_content_length _ _ Hinv) as Hlc. pose proof (ri_out _ _ Hinv) as Ho.
  destruct op as [p|n|offset whence|]; cbn [rw_run_op buffer_op rw_abs].
  - unfold RW_Write, RW_startOperation. rewrite Hcl. set (rw1 := rw_set_state rw _ _ _).
    assert (Hok1 : rw_ok out pend rw1 bp m) by (by apply (rw_ok_ext _ _ rw)).
    destruct (Write_loop_spec fuel (S (length p)) p out pend rw1 bp m w Hok1 Hf) as (n & err & rw2 & bp2 & m2 & w2 & -> & Hn & Hw & Hf2 & Hfull & Hno); [lia|].
    destruct (Hno Hobs) as [-> ->]. specialize (Hfull eq_refl). subst n. rewrite Nat2Z.id, take_ge in Hw by lia.
    destruct Hw as [Hok2 Hc2 (F1 & F2 & F3 & F4) _].
    cbn. do 4 eexists. split; [done|]. unfold rw_abs. split; [|split; [|split; [|lia]]].
    + f_equal. change (rw_content (RW_finishOperation rw2)) with (rw_content rw2).
      change (rw_out (RW_finishOperation rw2)) with (rw_out rw2). rewrite Hc2, F4. done.
    + apply (rw_ok_ext _ _ rw2); try done. apply Hok2.
    + unfold rw_idle. cbn. rewrite F1, F2, F3. cbn. rewrite Hact. done.
  - rewrite (RW_Read_spec _ bp n rw Hinv eq_refl Hcl). cbn [mbind run_bind].
    do 4 eexists. split; [done|]. split; [done|].
    set (d := take n _). assert (Hd : (length d <= length (rw_content rw) - Z.to_nat (rw_out rw))%nat)
      by (subst d; rewrite length_take, length_drop; lia).
    split; [|done]. apply (rw_ok_ext _ _ rw); try done. cbn. lia.
  - unfold RW_Seek. rewrite Hlc.
    destruct (if whence =? io_SeekStart then _ else _) as [t|]; [|by do 4 eexists].
    destruct (Z.ltb_spec t 0); [by do 4 eexists|]. destruct (Z.ltb_spec (rw_size rw) t); [by do 4 eexists|].
    do 4 eexists. split; [done|]. split; [done|]. split; [|done]. by apply (rw_ok_ext _ _ rw).
  - do 4 eexists. split; [done|]. unfold RW_Size. by rewrite Hlc.
Qed.

Lemma run_refines fuel ops : forall out pend rw bp (m : M) (w : W),
  rw_ok out pend rw bp m -> rw_idle rw -> (env_failures m < fuel)%nat ->
  exists ress rw' bp' m', rw_run fuel ops (rw, bp, m, w) = Ret (ress, (rw', bp', m', w)) /\
    buffer_run ops (rw_abs rw) = (ress, rw_abs rw') /\ rw_ok out pend rw' bp' m' /\ rw_idle rw' /\
    (env_failures m' < fuel)%nat.
Proof.
  induction ops as [|op ops IH]; intros out pend rw bp m w Hok Hidle Hf; cbn [rw_run buffer_run].
  { by do 4 eexists. }
  destruct (run_op_refines fuel op out pend rw bp m w Hok Hidle Hf) as (res & rw1 & bp1 & m1 & -> & -> & Hok1 & Hi1 & Hf1).
  destruct (IH out pend rw1 bp1 m1 w Hok1 Hi1 Hf1) as (ress & rw2 & bp2 & m2 & Hr & -> & Hok2 & Hi2 & Hf2).
  cbn [mbind run_bind]. rewrite Hr. cbn. by do 4 eexists.
Qed.

Lemma NewRW_ok out pend bp (m : M) :
  pool_inv out pend bp m -> 0 <= pend -> p_bufferSize bp <= MaxInt64 ->
  (p_flushPending bp = true -> p_timer bp = true) -> rw_ok out pend (NewRW (W:=W)) bp m.
Proof.
  intros Hi Hp Hm Ht. split; try done. pose proof (pi_size _ _ _ _ Hi).
  split; cbn; try done; try lia.
Qed.

(** [Close] of an idle buffer gives back its pages and its reserve. *)
Lemma Close_spec out pend rw bp (m : M) : rw_ok out pend rw bp m -> rw_idle rw ->
  exists rw' bp' m', RW_Close rw bp m = Ret (true, rw', bp', m') /\ rw_pages rw' = [] /\ rw_reserved rw' = [] /\
    rw_closed rw' = true /\ pool_inv out pend bp' m' /\ p_bufferSize bp' = p_bufferSize bp.
Proof.
  intros [[] Hpool Hpend _ Htim] (Hcl & _ & Hact). unfold RW_Close. rewrite Hcl. cbn [rw_set_state RW_signalWrite rw_active].
  rewrite Hact. cbn [Z.ltb Z.compare rw_set_state rw_pages rw_reserved rw_set RW_signalWrite].
  unfold bases in Hpool. rewrite map_app, <- app_assoc in Hpool. fold (bases (rw_pages rw)) in Hpool.
  destruct (PutN_inv (rw_pages rw) _ _ _ _ Hpool Hpend) as (bp1 & m1 & -> & Hp1 & Hb1 & _ & Ht1 & Hfp1 & _); [|done|].
  { eapply Forall_impl; [exact ri_pages0|]. by intros ? []. }
  cbn [mbind run_bind].
  destruct (PutN_inv (rw_reserved rw) out pend bp1 m1 Hp1 Hpend) as (bp2 & m2 & -> & Hp2 & Hb2 & _); [|done|].
  { rewrite Hb1. eapply Forall_impl; [exact ri_reserved0|]. by intros ? []. }
  cbn. do 3 eexists. split; [done|]. split; [done|]. split; [done|]. split; [done|]. split; [done|]. congruence.
Qed.
End refinement.

(** A writer that keeps what it gets, at most 3 bytes a call. *)
#[export] Instance sink_Writer {W} : Writer W (list byte) := {
  wr_Write d wr w :=
    if (length d <=? 3)%nat then (Z.of_nat (length d), None, wr ++ d, w)
    else (3, Some io_ErrShortWrite, wr ++ take 3 d, w)
}.

#[export] Instance sink_WriterOK {W} : WriterOK W (list byte).
Proof.
  refine {| wr_got := fun wr => wr |}. cbn. intros d wr w n err wr' w'.
  destruct (Nat.leb_spec (length d) 3); intros [= <- <- <- <-].
  - rewrite Nat2Z.id, take_ge by lia. split; [lia|done].
  - split; [lia|done].
Defined.

Lemma demo_pool_inv : pool_inv [] 0 (Pool_New 4 8) demo_memory.
Proof. split; cbn; try done; try lia. split; cbn; [by apply Forall_nil|by apply NoDup_nil|by apply Forall_nil|done]. Qed.

(** ** Properties *)

(** C28. Any sequence of [Write], [Read], [Seek] and [Size] calls on the paged
    buffer gives the results, errors included, that a plain byte string with a
    read position gives, whatever the page size: nothing is lost, repeated or
    read before it is written, and no stale page content shows. *)
Theorem RW_refines_buffer {W M} `{PoolEnvOK M} `{!PoolEnvProgress M} fuel ops out pend bp (m : M) (w : W) :
  pool_inv out pend bp m -> 0 <= pend -> p_bufferSize bp <= MaxInt64 ->
  (p_flushPending bp = true -> p_timer bp = true) -> (env_failures m < fuel)%nat ->
  exists rw' bp' m', rw_run fuel ops (NewRW, bp, m, w) = Ret (fst (buffer_run ops ([], 0)), (rw', bp', m', w)) /\
    rw_abs rw' = snd (buffer_run ops ([], 0)).
Proof.
  intros Hi Hp Hm Ht Hf. pose proof (NewRW_ok (W:=W) out pend bp m Hi Hp Hm Ht) as Hok.
  destruct (run_refines fuel ops out pend NewRW bp m w Hok) as (ress & rw' & bp' & m' & -> & Habs & _); [done|done|].
  change (rw_abs NewRW) with (@nil byte, 0) in Habs. rewrite Habs. by do 3 eexists.
Qed.

Lemma RW_refines_buffer_witness :
  let ops := [OWrite [x00; x01; x02; x03; x04; x05]; ORead 3; OSeek (-1) io_SeekEnd; ORead 3] in
  exists rw' bp' m', rw_run 2 ops (NewRW, Pool_New 4 8, demo_memory, tt) =
      Ret ([RWrite 6 None; RRead [x00; x01; x02] None; RSeek 5 None; RRead [x05] (Some io_EOF)], (rw', bp', m', tt)) /\
    rw_abs rw' = ([x00; x01; x02; x03; x04; x05], 6).
Proof.
  intros ops. apply (RW_refines_buffer 2 ops [] 0 (Pool_New 4 8) demo_memory tt).
  - exact demo_pool_inv.
  - lia.
  - cbn. unfold MaxInt64. lia.
  - cbn. done.
  - cbn. lia.
Defined.

(** After any such sequence, [Close] gives every page back: the pool counts
    the buffers of its other users and no more, the contents are gone, a read
    or write then reports the closed pipe, and closing again does nothing. *)
Lemma RW_Close_returns_pages {W M} `{PoolEnvOK M} `{!PoolEnvProgress M} fuel ops out pend bp (m : M) (w : W) :
  pool_inv out pend bp m -> 0 <= pend -> p_bufferSize bp <= MaxInt64 ->
  (p_flushPending bp = true -> p_timer bp = true) -> (env_failures m < fuel)%nat ->
  exists ress rw1 bp1 m1 rw2 bp2 m2,
    rw_run fuel ops (NewRW, bp, m, w) = Ret (ress, (rw1, bp1, m1, w)) /\
    RW_Close rw1 bp1 m1 = Ret (true, rw2, bp2, m2) /\
    pool_inv out pend bp2 m2 /\ Pool_InUse bp2 = Z.of_nat (length out) /\ rw_content rw2 = [] /\
    RW_Close rw2 bp2 m2 = Ret (true, rw2, bp2, m2) /\
    (forall n, RW_Read n rw2 bp2 = Ret ([], Some io_ErrClosedPipe, rw2)) /\
    (forall p, RW_Write fuel p rw2 bp2 m2 w = Ret (0, Some io_ErrClosedPipe, rw2, bp2, m2, w)).
Proof.
  intros Hi Hp Hm Ht Hf. pose proof (NewRW_ok (W:=W) out pend bp m Hi Hp Hm Ht) as Hok.
  destruct (run_refines fuel ops out pend NewRW bp m w Hok) as (ress & rw1 & bp1 & m1 & Hr & _ & Hok1 & Hidle & _); [done|done|].
  destruct (Close_spec out pend rw1 bp1 m1 Hok1 Hidle) as (rw2 & bp2 & m2 & Hc & Hpg & _ & Hcl & Hpool & _).
  exists ress, rw1, bp1, m1, rw2, bp2, m2. split; [done|]. split; [done|]. split; [done|].
  split; [apply Hpool|]. split; [unfold rw_content; rewrite Hpg; apply take_nil|].
  unfold RW_Close, RW_Read, RW_Write, RW_startOperation. by rewrite Hcl.
Qed.

Lemma RW_Close_returns_pages_witness : exists ress rw1 bp1 m1 rw2 bp2 m2,
    rw_run 2 [OWrite [x00; x01; x02; x03; x04; x05]] (NewRW, Pool_New 4 8, demo_memory, tt) = Ret (ress, (rw1, bp1, m1, tt)) /\
    RW_Close rw1 bp1 m1 = Ret (true, rw2, bp2, m2) /\
    pool_inv [] 0 bp2 m2 /\ Pool_InUse bp2 = 0 /\ rw_content rw2 = [] /\
    RW_Close rw2 bp2 m2 = Ret (true, rw2, bp2, m2) /\
    (forall n, RW_Read n rw2 bp2 = Ret ([], Some io_ErrClosedPipe, rw2)) /\
    (forall p, RW_Write 2 p rw2 bp2 m2 tt = Ret (0, Some io_ErrClosedPipe, rw2, bp2, m2, tt)).
Proof.
  apply (RW_Close_returns_pages 2 _ [] 0 (Pool_New 4 8) demo_memory tt).
  - exact demo_pool_inv.
  - lia.
  - cbn. unfold MaxInt64. lia.
  - cbn. done.
  - cbn. lia.
Defined.

(** Filling the buffer from a stream and emptying it into a writer:
    [ReadFrom] ends, appends exactly the bytes it took from the stream and
    reports their number, and without an error it took them all; [WriteTo] then
    hands on a prefix of what is unread, all of it unless the writer fails. *)
Lemma RW_copies_streams {W M R Wr} `{PoolEnvOK M} `{!PoolEnvProgress M} `{ReaderOK W R} `{!ReaderProgress W R}
    `{WriterOK W Wr} turns fuel out pend (rw : RW W) bp (m : M) (w : W) (r : R) (wr : Wr) :
  rw_ok out pend rw bp m -> rw_closed rw = false -> (env_failures m < fuel)%nat ->
  (length (rw_content rw) + length (rc_rest r) < turns)%nat ->
  exists d err r' rw1 bp1 m1 w1 n err' wr' rw2 w2,
    RW_ReadFrom turns fuel r rw bp m w = Ret (Z.of_nat (length d), err, r', rw1, bp1, m1, w1) /\
    rc_rest r = d ++ rc_rest r' /\ (err = None -> rc_rest r' = []) /\ rw_content rw1 = rw_content rw ++ d /\
    RW_WriteTo turns wr rw1 bp1 w1 = Ret (n, err', wr', rw2, w2) /\
    wr_got wr' = wr_got wr ++ take (Z.to_nat n) (drop (Z.to_nat (rw_out rw)) (rw_content rw ++ d)) /\
    (err' = None -> rw_out rw + n = Z.of_nat (length (rw_content rw ++ d))).
Proof.
  intros Hok Hcl Hf Ht. unfold RW_ReadFrom, RW_startOperation. rewrite Hcl. set (rw0 := rw_set_state rw _ _ _).
  assert (Hok0 : rw_ok out pend rw0 bp m) by (apply (rw_ok_ext _ _ rw); try done; apply Hok).
  destruct (ReadFrom_loop_spec fuel turns r out pend rw0 bp m w Hok0 Hf) as
    (d & err & r' & rw1 & bp1 & m1 & w1 & -> & Hrest & Hw & _ & Hnone); [lia|].
  destruct Hw as [Hok1 Hc1 (F1 & F2 & F3 & F4) _]. change (rw_content rw0) with (rw_content rw) in Hc1.
  cbn [mbind run_bind]. set (rw1' := RW_finishOperation rw1).
  set (rwx := rw_set_state rw1' (rw_closed rw1') (rw_active rw1' + 1) (rw_written rw1')).
  assert (Hinvx : rw_inv (p_bufferSize bp1) rwx) by (by destruct Hok1 as [[] ]).
  pose proof (rw_content_length _ _ Hinvx) as Hl. change (rw_content rwx) with (rw_content rw1) in Hl.
  rewrite Hc1 in Hl. rewrite Hrest in Ht. rewrite length_app in Ht.
  destruct (WriteTo_loop_spec (p_bufferSize bp1) bp1 turns wr rwx w1 Hinvx eq_refl) as
    (n & err' & wr' & w2 & Hwt & Hn & Hgot & Hfull);
    [pose proof (ri_out _ _ Hinvx); rewrite length_app in Hl; lia|].
  exists d, err, r', rw1', bp1, m1, w1, n, err', wr'. do 2 eexists.
  split; [done|]. split; [done|]. split; [done|]. split; [done|].
  unfold RW_WriteTo, RW_startOperation. replace (rw_closed rw1') with false by (subst rw1'; cbn; by rewrite F2).
  subst rwx. replace (rw_closed rw1') with false in Hwt by (subst rw1'; cbn; by rewrite F2). rewrite Hwt. cbn [mbind run_bind].
  split; [done|]. split.
  - rewrite Hgot. cbn [rw_set_state rw_out]. change (rw_out rw1') with (rw_out rw1). rewrite F4.
    change (rw_content (rw_set_state _ _ _ _)) with (rw_content rw1). by rewrite Hc1.
  - intros He. specialize (Hfull He). cbn in Hfull, Hl. rewrite Hl. rewrite F4 in Hfull. cbn in *. lia.
Qed.

Lemma RW_copies_streams_witness : exists d err r' rw1 bp1 m1 w1 n err' wr' rw2 w2,
    RW_ReadFrom 20 2 [x00; x01; x02; x03; x04; x05] NewRW (Pool_New 3 8) demo_memory (mkScript [(1%nat, None)])
      = Ret (Z.of_nat (length d), err, r', rw1, bp1, m1, w1) /\
    [x00; x01; x02; x03; x04; x05] = d ++ r' /\ (err = None -> r' = []) /\ rw_content rw1 = rw_content (NewRW (W:=script)) ++ d /\
    RW_WriteTo 20 [xff] rw1 bp1 w1 = Ret (n, err', wr', rw2, w2) /\
    wr' = [xff] ++ take (Z.to_nat n) (drop 0 (rw_content (NewRW (W:=script)) ++ d)) /\
    (err' = None -> 0 + n = Z.of_nat (length (rw_content (NewRW (W:=script)) ++ d))).
Proof.
  pose proof (RW_copies_streams (W:=script) (R:=list byte) (Wr:=list byte) 20 2 [] 0 NewRW (Pool_New 3 8) demo_memory
    (mkScript [(1%nat, None)]) [x00; x01; x02; x03; x04; x05] [xff]) as Hx.
  cbn [rc_rest scripted_ReaderOK wr_got sink_WriterOK rw_out NewRW Z.to_nat] in Hx. apply Hx; clear Hx.
  - apply NewRW_ok; cbn; unfold MaxInt64; try lia; try done.
    split; cbn; try done; try lia. split; cbn; [by apply Forall_nil|by apply NoDup_nil|by apply Forall_nil|done].
  - reflexivity.
  - cbn. lia.
  - apply Nat.ltb_lt. reflexivity.
Defined.
