(* ===== verification/Interleave.v ===== *)
(** * Critical sections and their interleaving

    Code that runs under a mutex, gives it up in the middle (to wait on a
    condition, or to call something slow) and takes it again.  A [locked]
    computation runs with the mutex held; each [Step] of the [proc] it leaves is
    a place where the mutex is free and other goroutines run, until the
    condition of the step holds and the next critical section starts. *)
From stdpp Require Import base list relations.
From S2P Require Import Prelude.

(** What is left of a goroutine when it does not hold the mutex. *)
Inductive proc (S A : Type) :=
| Done (a : A)
| Step (enabled : S -> bool) (section : S -> S * proc S A).
Arguments Done {S A} a.
Arguments Step {S A} enabled section.

Lemma proc_section_ind {S A} (P : proc S A -> Prop) :
  (forall a, P (Done a)) -> (forall enabled section, (forall s, P (snd (section s))) -> P (Step enabled section)) ->
  forall p, P p.
Proof.
  intros Hd Hs. fix rec 1. intros [a|enabled section]; [apply Hd|apply Hs].
  intros s. exact (match section s as x return P (snd x) with (_, p) => rec p end).
Qed.

Definition locked (S A : Type) : Type := S -> S * proc S A.

Fixpoint proc_bind {S A B} (p : proc S A) (k : A -> locked S B) (s : S) : S * proc S B :=
  match p with
  | Done a => k a s
  | Step enabled section => (s, Step enabled (fun s1 => let '(s2, p2) := section s1 in proc_bind p2 k s2))
  end.

#[export] Instance locked_ret S : MRet (locked S) := fun A a s => (s, Done a).
#[export] Instance locked_bind S : MBind (locked S) := fun A B k m s => let '(s1, p) := m s in proc_bind p k s1.

Definition get {S A} (f : S -> A) : locked S A := fun s => (s, Done (f s)).
Definition modify {S} (f : S -> S) : locked S unit := fun s => (f s, Done tt).
Definition with_state {S A} (f : S -> A * S) : locked S A := fun s => let '(a, s') := f s in (s', Done a).

(** [mu.Unlock(); ...; mu.Lock()], the condition being what the goroutine waits
    for in between; a goroutine that takes the mutex to run [m]. *)
Definition unlock_until {S} (enabled : S -> bool) : locked S unit := fun s => (s, Step enabled (fun s => (s, Done tt))).
Definition with_lock {S A} (m : locked S A) : proc S A := Step (fun _ => true) m.

(** ** Goroutines in parallel *)
Definition par (S : Type) : Type := S * list (proc S unit).

Inductive par_step {S} : par S -> par S -> Prop :=
| par_section s ps i enabled section : ps !! i = Some (Step enabled section) -> enabled s = true ->
    par_step (s, ps) (fst (section s), <[i := snd (section s)]> ps).

(** One goroutine after the other: the schedule names who goes next; a goroutine
    that is done or has to wait is passed over. *)
Definition par_exec1 {S} (i : nat) (c : par S) : par S :=
  match snd c !! i with
  | Some (Step enabled section) =>
      if enabled (fst c) then let '(s, p) := section (fst c) in (s, <[i := p]> (snd c)) else c
  | _ => c
  end.

Definition par_exec {S} (schedule : list nat) (c : par S) : par S := fold_left (fun c i => par_exec1 i c) schedule c.

(** A goroutine alone, to its end; [None] when it waits for someone else. *)
Fixpoint run_proc {S A} (p : proc S A) (s : S) : option (A * S) :=
  match p with
  | Done a => Some (a, s)
  | Step enabled section =>
      if enabled s then let '(s', p') := section s in run_proc p' s' else None
  end.

(** ** Invariants *)

(** Every critical section of [p] keeps [I]. *)
Fixpoint keeps {S A} (I : S -> Prop) (p : proc S A) : Prop :=
  match p with
  | Done _ => True
  | Step enabled section =>
      forall s, I s -> enabled s = true -> let '(s', p') := section s in I s' /\ keeps I p'
  end.

(** A computation that holds the mutex starts where [P] holds, keeps [I] whenever
    it gives the mutex up, and ends where [Q] holds of its result. *)
Fixpoint proc_triple {S A} (I : S -> Prop) (Q : A -> S -> Prop) (p : proc S A) (s : S) : Prop :=
  match p with
  | Done a => Q a s
  | Step enabled section =>
      I s /\ forall s1, I s1 -> enabled s1 = true -> let '(s2, p2) := section s1 in proc_triple I Q p2 s2
  end.

Definition triple {S A} (I P : S -> Prop) (m : locked S A) (Q : A -> S -> Prop) : Prop :=
  forall s, P s -> let '(s', p) := m s in proc_triple I Q p s'.

Section proofs.
Context {S : Type} (I : S -> Prop).

Lemma proc_triple_mono {A} (Q Q' : A -> S -> Prop) p : forall s,
  (forall a s, Q a s -> Q' a s) -> proc_triple I Q p s -> proc_triple I Q' p s.
Proof.
  induction p as [a|enabled section IH] using proc_section_ind; intros s HQ; cbn; [by apply HQ|].
  intros [Hs Hp]. split; [done|]. intros s1 H1 He. specialize (Hp s1 H1 He).
  specialize (IH s1). destruct (section s1) as [s2 p2]. by apply IH.
Qed.

Lemma proc_bind_triple {A B} (p : proc S A) (k : A -> locked S B) (Q : A -> S -> Prop) R : forall s,
  proc_triple I Q p s -> (forall a, triple I (Q a) (k a) R) ->
  let '(s', p') := proc_bind p k s in proc_triple I R p' s'.
Proof.
  induction p as [a|enabled section IH] using proc_section_ind; intros s Hp Hk; cbn in *; [by apply Hk|].
  destruct Hp as [Hs Hp]. split; [done|]. intros s1 H1 He. specialize (Hp s1 H1 He).
  specialize (IH s1). destruct (section s1) as [s2 p2]. by apply IH.
Qed.

Lemma triple_bind {A B} P (m : locked S A) (k : A -> locked S B) Q R :
  triple I P m Q -> (forall a, triple I (Q a) (k a) R) -> triple I P (m ≫= k) R.
Proof.
  intros Hm Hk s Hs. specialize (Hm s Hs). cbn. unfold mbind, locked_bind.
  destruct (m s) as [s1 p]. by eapply proc_bind_triple.
Qed.

Lemma triple_ret {A} (a : A) P : triple I P (mret a) (fun b s => b = a /\ P s).
Proof. by intros s Hs. Qed.

Lemma triple_weaken {A} P P' (m : locked S A) Q Q' :
  triple I P' m Q' -> (forall s, P s -> P' s) -> (forall a s, Q' a s -> Q a s) -> triple I P m Q.
Proof.
  intros Hm HP HQ s Hs. specialize (Hm s (HP s Hs)). destruct (m s) as [s1 p].
  by eapply proc_triple_mono.
Qed.

Lemma triple_get {A} (f : S -> A) P : triple I P (get f) (fun a s => a = f s /\ P s).
Proof. by intros s Hs. Qed.

Lemma triple_modify f P (Q : S -> Prop) : (forall s, P s -> Q (f s)) -> triple I P (modify f) (fun _ s => Q s).
Proof. intros H s Hs. by apply H. Qed.

Lemma triple_with_state {A} (f : S -> A * S) P (Q : A -> S -> Prop) :
  (forall s a s', P s -> f s = (a, s') -> Q a s') -> triple I P (with_state f) Q.
Proof. intros H s Hs. unfold with_state. destruct (f s) as [a s'] eqn:E. by eapply H. Qed.

(** Giving up the mutex needs the invariant, and gets nothing but it back. *)
Lemma triple_unlock enabled (P : S -> Prop) :
  (forall s, P s -> I s) -> triple I P (unlock_until enabled) (fun _ s => I s /\ enabled s = true).
Proof. intros H s Hs. cbn. split; [by apply H|]. done. Qed.

Lemma keeps_with_lock {A} (m : locked S A) : triple I I m (fun _ s => I s) -> keeps I (with_lock m).
Proof.
  intros Hm s Hs _. specialize (Hm s Hs). destruct (m s) as [s' p].
  clear Hs. revert s' Hm. induction p as [a|enabled section IH] using proc_section_ind; intros s' Hp; cbn in *; [done|].
  destruct Hp as [Hs' Hp]. split; [done|]. intros s1 H1 He. specialize (Hp s1 H1 He). specialize (IH s1).
  destruct (section s1) as [s2 p2]. by apply IH.
Qed.

(** Whatever the interleaving, the invariant holds whenever the mutex is free. *)
Lemma par_invariant (c c' : par S) : rtc par_step c c' -> I (fst c) -> Forall (keeps I) (snd c) ->
  I (fst c') /\ Forall (keeps I) (snd c').
Proof.
  induction 1 as [c|c1 c2 c3 Hst _ IH]; [done|]. intros Hs Hps. apply IH; clear IH.
  - destruct Hst as [s ps i enabled section Hi He]. cbn in *.
    pose proof (Forall_lookup_1 _ _ _ _ Hps Hi) as Hk. cbn in Hk. specialize (Hk s Hs He).
    destruct (section s) as [s' p']. apply Hk.
  - destruct Hst as [s ps i enabled section Hi He]. cbn in *.
    pose proof (Forall_lookup_1 _ _ _ _ Hps Hi) as Hk. cbn in Hk. specialize (Hk s Hs He).
    destruct (section s) as [s' p']. apply Forall_insert; [done|]. by destruct Hk.
Qed.

Lemma par_exec_steps schedule : forall c : par S, rtc par_step c (par_exec schedule c).
Proof.
  unfold par_exec. induction schedule as [|i schedule IH]; intros [s ps]; cbn; [done|].
  unfold par_exec1 at 2. cbn. destruct (ps !! i) as [[a|enabled section]|] eqn:Hi; [apply IH| |apply IH].
  destruct (enabled s) eqn:He; [|apply IH].
  eapply rtc_l; [|apply IH]. pose proof (par_section s ps i enabled section Hi He) as Hst.
  by destruct (section s) as [s' p'].
Qed.
End proofs.

(** ** Rely and guarantee

    Goroutines that own parts of the state: goroutine [i] relies on the others'
    steps being related by [rely i] and keeps to what all the others rely on. *)
Section rely.
Context {S : Type} (I : S -> Prop) (rely : nat -> S -> S -> Prop).
Context (rely_refl : forall i s, rely i s s) (rely_trans : forall i s1 s2 s3, rely i s1 s2 -> rely i s2 s3 -> rely i s1 s3).

Definition guarantee (i : nat) (s s' : S) : Prop := I s' /\ forall j, j <> i -> rely j s s'.

(** [p] is what is left of goroutine [i] in a section that began at [s0] and has
    come to [s]; [Q] holds of where its last section began and ended. *)
Fixpoint runs {A} (i : nat) (Q : A -> S -> S -> Prop) (p : proc S A) (s0 s : S) : Prop :=
  match p with
  | Done a => Q a s0 s
  | Step enabled section =>
      guarantee i s0 s /\
      forall s1, rely i s s1 -> I s1 -> enabled s1 = true -> let '(s2, p2) := section s1 in runs i Q p2 s1 s2
  end.

Definition wp {A} (i : nat) (m : locked S A) (Q : A -> S -> S -> Prop) (s0 s : S) : Prop :=
  let '(s', p) := m s in runs i Q p s0 s'.

Lemma runs_mono {A} i (Q Q' : A -> S -> S -> Prop) p : forall s0 s, (forall a s0 s, Q a s0 s -> Q' a s0 s) -> runs i Q p s0 s -> runs i Q' p s0 s.
Proof.
  induction p as [a|enabled section IH] using proc_section_ind; intros s0 s HQ; cbn; [apply HQ|].
  intros [Hg Hp]. split; [done|]. intros s1 Hr Hi He. specialize (Hp s1 Hr Hi He). specialize (IH s1).
  destruct (section s1) as [s2 p2]. by apply IH.
Qed.

Lemma runs_bind {A B} i (p : proc S A) (k : A -> locked S B) Q : forall s0 s,
  runs i (fun a s0 s => wp i (k a) Q s0 s) p s0 s -> let '(s', p') := proc_bind p k s in runs i Q p' s0 s'.
Proof.
  induction p as [a|enabled section IH] using proc_section_ind; intros s0 s Hp; cbn in *; [exact Hp|].
  destruct Hp as [Hg Hp]. split; [done|]. intros s1 Hr Hi He. specialize (Hp s1 Hr Hi He). specialize (IH s1).
  destruct (section s1) as [s2 p2]. by apply IH.
Qed.

Lemma wp_bind {A B} i (m : locked S A) (k : A -> locked S B) Q s0 s :
  wp i m (fun a s0 s => wp i (k a) Q s0 s) s0 s -> wp i (m ≫= k) Q s0 s.
Proof. unfold wp, mbind, locked_bind. destruct (m s) as [s1 p]. apply runs_bind. Qed.

Lemma wp_mono {A} i (m : locked S A) (Q Q' : A -> S -> S -> Prop) s0 s :
  (forall a s0 s, Q a s0 s -> Q' a s0 s) -> wp i m Q s0 s -> wp i m Q' s0 s.
Proof. unfold wp. destruct (m s) as [s1 p]. apply runs_mono. Qed.

(** Giving up the processor: what others may have done, once the condition holds. *)
Lemma wp_step {A} i enabled (m : locked S A) Q s0 s : guarantee i s0 s ->
  (forall s1, rely i s s1 -> I s1 -> enabled s1 = true -> wp i m Q s1 s1) -> wp i (fun s => (s, Step enabled m)) Q s0 s.
Proof. intros Hg Hm. split; [done|exact Hm]. Qed.

(** Goroutine [i], which has last seen [s]. *)
Definition sound {A} (i : nat) (Q : S -> Prop) (p : proc S A) (s : S) : Prop :=
  match p with
  | Done a => Q s
  | Step enabled section =>
      forall s1, rely i s s1 -> I s1 -> enabled s1 = true ->
        let '(s2, p2) := section s1 in runs i (fun _ s0 s => guarantee i s0 s /\ Q s) p2 s1 s2
  end.

Lemma runs_sound {A} i (Q : S -> Prop) (p : proc S A) s0 s : runs i (fun _ s0 s => guarantee i s0 s /\ Q s) p s0 s -> guarantee i s0 s /\ sound i Q p s.
Proof. destruct p as [a|enabled section]; cbn; [done|]. done. Qed.

Lemma sound_rely {A} i (Q : S -> Prop) (p : proc S A) s s1 : (Q s -> Q s1) -> rely i s s1 -> sound i Q p s -> sound i Q p s1.
Proof.
  intros HQ Hr. destruct p as [a|enabled section]; cbn; [apply HQ|]. intros Hp s2 H12. apply Hp. by eapply rely_trans.
Qed.

Lemma sound_with_lock {A} i (Q : S -> Prop) (m : locked S A) s :
  (forall s, I s -> wp i m (fun _ s0 s => guarantee i s0 s /\ Q s) s s) -> sound i Q (with_lock m) s.
Proof. intros Hm s1 _ Hi _. apply (Hm s1 Hi). Qed.

(** Whatever the interleaving, the invariant holds and every goroutine stays sound. *)
Lemma par_rely (c c' : par S) (Q : nat -> S -> Prop) : (forall i s s1, rely i s s1 -> Q i s -> Q i s1) ->
  rtc par_step c c' -> I (fst c) -> (forall i p, snd c !! i = Some p -> sound i (Q i) p (fst c)) ->
  I (fst c') /\ (forall i p, snd c' !! i = Some p -> sound i (Q i) p (fst c')).
Proof.
  intros HQ. induction 1 as [c|c1 c2 c3 Hst _ IH]; [done|]. intros Hs Hps. apply IH; clear IH;
    destruct Hst as [s ps i enabled section Hi He]; cbn in *; pose proof (Hps i _ Hi s (rely_refl i s) Hs He) as Hp;
    destruct (section s) as [s' p']; apply runs_sound in Hp as [[Hs' Hg] Hp]; cbn; [done|].
  intros j p Hj. destruct (decide (j = i)) as [->|Hne].
  - rewrite list_lookup_insert_eq in Hj by (by eapply lookup_lt_Some). by injection Hj as <-.
  - rewrite list_lookup_insert_ne in Hj by done. specialize (Hps j p Hj). eapply sound_rely; [|by apply Hg|exact Hps].
    apply HQ. by apply Hg.
Qed.
End rely.
