(* ===== verification/StreamBuf.v ===== *)
(** * Asynchronous buffering (src/internal/engine/streambuf/reader.go)

    A goroutine reads the stream ahead into a bounded number of buffers; the
    consumer reads, copies or skips through them, and anybody may stop it.  Every
    place where a goroutine waits for a channel or the mutex ends a section;
    between two of them a goroutine runs alone.

    The tokens, the buffers in the two channels and in the hands of the two
    goroutines are accounted for in every interleaving: the theorems say that no
    send ever waits, that the buffers are back in the pool after [Close], and that
    the consumer gets the bytes of the stream in order. *)
From stdpp Require Import base numbers list relations strings.
From Stdlib Require Import ZArith Lia Init.Byte.
From S2P Require Import Prelude.
From S2P Require Import GoIO.
From S2P Require Import Interleave.

Local Open Scope Z_scope.

(** ** State *)
Definition BufferSize : Z := 1024 * 1024.
Definition softStartInitial : Z := 4 * 1024.

(** [b_buf] is [None] after [putBuffer]. *)
Record buffer := mkBuffer { b_buf : option (list byte); b_err : option error; b_offset : nat }.

(** What the consumer has seen, latest first: bytes, bytes skipped (back when
    negative), the end of the stream. *)
Inductive event := Got (d : list byte) | Skipped (k : Z) | Eof.

(** The channels [token], [ready] and [exit]/[exited] as what is in them.
    [sb_hand] is the buffer the filling goroutine has, [sb_mu] who holds the
    mutex, [sb_owed] the tokens its holder has yet to send, [sb_drain] who is
    emptying [ready], [sb_out] the buffers the pool has given out.  [sb_sink] are
    the failures of the coming writes of [WriteTo], [sb_choice] what [select]
    prefers when both cases are ready. *)
Record Reader (W R : Type) := mkReader {
  sb_in : R;
  sb_w : W;
  sb_size : Z;
  sb_hand : option buffer;
  sb_ready : list buffer;
  sb_readyClosed : bool;
  sb_token : nat;
  sb_exit : bool;
  sb_exited : bool;
  sb_buffers : nat;
  sb_mu : option nat;
  sb_cur : option buffer;
  sb_err : option error;
  sb_owed : nat;
  sb_drain : option nat;
  sb_out : nat;
  sb_closed : bool;
  sb_inClosed : bool;
  sb_panicked : bool;
  sb_sink : list (nat * error);
  sb_choice : list bool;
  sb_log : list event;
}.
Arguments mkReader {W R}.
Arguments sb_in {W R}. Arguments sb_w {W R}. Arguments sb_size {W R}. Arguments sb_hand {W R}.
Arguments sb_ready {W R}. Arguments sb_readyClosed {W R}. Arguments sb_token {W R}. Arguments sb_exit {W R}.
Arguments sb_exited {W R}. Arguments sb_buffers {W R}. Arguments sb_mu {W R}. Arguments sb_cur {W R}.
Arguments sb_err {W R}. Arguments sb_owed {W R}. Arguments sb_drain {W R}. Arguments sb_out {W R}.
Arguments sb_closed {W R}. Arguments sb_inClosed {W R}. Arguments sb_panicked {W R}. Arguments sb_sink {W R}.
Arguments sb_choice {W R}. Arguments sb_log {W R}.

Section setters.
Context {W R : Type}.
Implicit Types s : Reader W R.
Definition set_in (v : R) s : Reader W R :=
  mkReader v (sb_w s) (sb_size s) (sb_hand s) (sb_ready s) (sb_readyClosed s) (sb_token s) (sb_exit s) (sb_exited s) (sb_buffers s) (sb_mu s) (sb_cur s) (sb_err s) (sb_owed s) (sb_drain s) (sb_out s) (sb_closed s) (sb_inClosed s) (sb_panicked s) (sb_sink s) (sb_choice s) (sb_log s).
Definition set_w (v : W) s : Reader W R :=
  mkReader (sb_in s) v (sb_size s) (sb_hand s) (sb_ready s) (sb_readyClosed s) (sb_token s) (sb_exit s) (sb_exited s) (sb_buffers s) (sb_mu s) (sb_cur s) (sb_err s) (sb_owed s) (sb_drain s) (sb_out s) (sb_closed s) (sb_inClosed s) (sb_panicked s) (sb_sink s) (sb_choice s) (sb_log s).
Definition set_size (v : Z) s : Reader W R :=
  mkReader (sb_in s) (sb_w s) v (sb_hand s) (sb_ready s) (sb_readyClosed s) (sb_token s) (sb_exit s) (sb_exited s) (sb_buffers s) (sb_mu s) (sb_cur s) (sb_err s) (sb_owed s) (sb_drain s) (sb_out s) (sb_closed s) (sb_inClosed s) (sb_panicked s) (sb_sink s) (sb_choice s) (sb_log s).
Definition set_hand (v : option buffer) s : Reader W R :=
  mkReader (sb_in s) (sb_w s) (sb_size s) v (sb_ready s) (sb_readyClosed s) (sb_token s) (sb_exit s) (sb_exited s) (sb_buffers s) (sb_mu s) (sb_cur s) (sb_err s) (sb_owed s) (sb_drain s) (sb_out s) (sb_closed s) (sb_inClosed s) (sb_panicked s) (sb_sink s) (sb_choice s) (sb_log s).
Definition set_ready (v : list buffer) s : Reader W R :=
  mkReader (sb_in s) (sb_w s) (sb_size s) (sb_hand s) v (sb_readyClosed s) (sb_token s) (sb_exit s) (sb_exited s) (sb_buffers s) (sb_mu s) (sb_cur s) (sb_err s) (sb_owed s) (sb_drain s) (sb_out s) (sb_closed s) (sb_inClosed s) (sb_panicked s) (sb_sink s) (sb_choice s) (sb_log s).
Definition set_readyClosed (v : bool) s : Reader W R :=
  mkReader (sb_in s) (sb_w s) (sb_size s) (sb_hand s) (sb_ready s) v (sb_token s) (sb_exit s) (sb_exited s) (sb_buffers s) (sb_mu s) (sb_cur s) (sb_err s) (sb_owed s) (sb_drain s) (sb_out s) (sb_closed s) (sb_inClosed s) (sb_panicked s) (sb_sink s) (sb_choice s) (sb_log s).
Definition set_token (v : nat) s : Reader W R :=
  mkReader (sb_in s) (sb_w s) (sb_size s) (sb_hand s) (sb_ready s) (sb_readyClosed s) v (sb_exit s) (sb_exited s) (sb_buffers s) (sb_mu s) (sb_cur s) (sb_err s) (sb_owed s) (sb_drain s) (sb_out s) (sb_closed s) (sb_inClosed s) (sb_panicked s) (sb_sink s) (sb_choice s) (sb_log s).
Definition set_exit (v : bool) s : Reader W R :=
  mkReader (sb_in s) (sb_w s) (sb_size s) (sb_hand s) (sb_ready s) (sb_readyClosed s) (sb_token s) v (sb_exited s) (sb_buffers s) (sb_mu s) (sb_cur s) (sb_err s) (sb_owed s) (sb_drain s) (sb_out s) (sb_closed s) (sb_inClosed s) (sb_panicked s) (sb_sink s) (sb_choice s) (sb_log s).
Definition set_exited (v : bool) s : Reader W R :=
  mkReader (sb_in s) (sb_w s) (sb_size s) (sb_hand s) (sb_ready s) (sb_readyClosed s) (sb_token s) (sb_exit s) v (sb_buffers s) (sb_mu s) (sb_cur s) (sb_err s) (sb_owed s) (sb_drain s) (sb_out s) (sb_closed s) (sb_inClosed s) (sb_panicked s) (sb_sink s) (sb_choice s) (sb_log s).
Definition set_mu (v : option nat) s : Reader W R :=
  mkReader (sb_in s) (sb_w s) (sb_size s) (sb_hand s) (sb_ready s) (sb_readyClosed s) (sb_token s) (sb_exit s) (sb_exited s) (sb_buffers s) v (sb_cur s) (sb_err s) (sb_owed s) (sb_drain s) (sb_out s) (sb_closed s) (sb_inClosed s) (sb_panicked s) (sb_sink s) (sb_choice s) (sb_log s).
Definition set_cur (v : option buffer) s : Reader W R :=
  mkReader (sb_in s) (sb_w s) (sb_size s) (sb_hand s) (sb_ready s) (sb_readyClosed s) (sb_token s) (sb_exit s) (sb_exited s) (sb_buffers s) (sb_mu s) v (sb_err s) (sb_owed s) (sb_drain s) (sb_out s) (sb_closed s) (sb_inClosed s) (sb_panicked s) (sb_sink s) (sb_choice s) (sb_log s).
Definition set_err (v : option error) s : Reader W R :=
  mkReader (sb_in s) (sb_w s) (sb_size s) (sb_hand s) (sb_ready s) (sb_readyClosed s) (sb_token s) (sb_exit s) (sb_exited s) (sb_buffers s) (sb_mu s) (sb_cur s) v (sb_owed s) (sb_drain s) (sb_out s) (sb_closed s) (sb_inClosed s) (sb_panicked s) (sb_sink s) (sb_choice s) (sb_log s).
Definition set_owed (v : nat) s : Reader W R :=
  mkReader (sb_in s) (sb_w s) (sb_size s) (sb_hand s) (sb_ready s) (sb_readyClosed s) (sb_token s) (sb_exit s) (sb_exited s) (sb_buffers s) (sb_mu s) (sb_cur s) (sb_err s) v (sb_drain s) (sb_out s) (sb_closed s) (sb_inClosed s) (sb_panicked s) (sb_sink s) (sb_choice s) (sb_log s).
Definition set_drain (v : option nat) s : Reader W R :=
  mkReader (sb_in s) (sb_w s) (sb_size s) (sb_hand s) (sb_ready s) (sb_readyClosed s) (sb_token s) (sb_exit s) (sb_exited s) (sb_buffers s) (sb_mu s) (sb_cur s) (sb_err s) (sb_owed s) v (sb_out s) (sb_closed s) (sb_inClosed s) (sb_panicked s) (sb_sink s) (sb_choice s) (sb_log s).
Definition set_out (v : nat) s : Reader W R :=
  mkReader (sb_in s) (sb_w s) (sb_size s) (sb_hand s) (sb_ready s) (sb_readyClosed s) (sb_token s) (sb_exit s) (sb_exited s) (sb_buffers s) (sb_mu s) (sb_cur s) (sb_err s) (sb_owed s) (sb_drain s) v (sb_closed s) (sb_inClosed s) (sb_panicked s) (sb_sink s) (sb_choice s) (sb_log s).
Definition set_closed (v : bool) s : Reader W R :=
  mkReader (sb_in s) (sb_w s) (sb_size s) (sb_hand s) (sb_ready s) (sb_readyClosed s) (sb_token s) (sb_exit s) (sb_exited s) (sb_buffers s) (sb_mu s) (sb_cur s) (sb_err s) (sb_owed s) (sb_drain s) (sb_out s) v (sb_inClosed s) (sb_panicked s) (sb_sink s) (sb_choice s) (sb_log s).
Definition set_inClosed (v : bool) s : Reader W R :=
  mkReader (sb_in s) (sb_w s) (sb_size s) (sb_hand s) (sb_ready s) (sb_readyClosed s) (sb_token s) (sb_exit s) (sb_exited s) (sb_buffers s) (sb_mu s) (sb_cur s) (sb_err s) (sb_owed s) (sb_drain s) (sb_out s) (sb_closed s) v (sb_panicked s) (sb_sink s) (sb_choice s) (sb_log s).
Definition set_panicked (v : bool) s : Reader W R :=
  mkReader (sb_in s) (sb_w s) (sb_size s) (sb_hand s) (sb_ready s) (sb_readyClosed s) (sb_token s) (sb_exit s) (sb_exited s) (sb_buffers s) (sb_mu s) (sb_cur s) (sb_err s) (sb_owed s) (sb_drain s) (sb_out s) (sb_closed s) (sb_inClosed s) v (sb_sink s) (sb_choice s) (sb_log s).
Definition set_sink (v : list (nat * error)) s : Reader W R :=
  mkReader (sb_in s) (sb_w s) (sb_size s) (sb_hand s) (sb_ready s) (sb_readyClosed s) (sb_token s) (sb_exit s) (sb_exited s) (sb_buffers s) (sb_mu s) (sb_cur s) (sb_err s) (sb_owed s) (sb_drain s) (sb_out s) (sb_closed s) (sb_inClosed s) (sb_panicked s) v (sb_choice s) (sb_log s).
Definition set_choice (v : list bool) s : Reader W R :=
  mkReader (sb_in s) (sb_w s) (sb_size s) (sb_hand s) (sb_ready s) (sb_readyClosed s) (sb_token s) (sb_exit s) (sb_exited s) (sb_buffers s) (sb_mu s) (sb_cur s) (sb_err s) (sb_owed s) (sb_drain s) (sb_out s) (sb_closed s) (sb_inClosed s) (sb_panicked s) (sb_sink s) v (sb_log s).
Definition set_log (v : list event) s : Reader W R :=
  mkReader (sb_in s) (sb_w s) (sb_size s) (sb_hand s) (sb_ready s) (sb_readyClosed s) (sb_token s) (sb_exit s) (sb_exited s) (sb_buffers s) (sb_mu s) (sb_cur s) (sb_err s) (sb_owed s) (sb_drain s) (sb_out s) (sb_closed s) (sb_inClosed s) (sb_panicked s) (sb_sink s) (sb_choice s) v.
End setters.

(** ** Buffers *)
Definition contents (b : buffer) : list byte := drop (b_offset b) (default [] (b_buf b)).
Definition isEmpty (b : option buffer) : bool :=
  match b with None => true | Some b => (length (default [] (b_buf b)) - b_offset b <=? 0)%nat end.
Definition increment (n : nat) (b : buffer) : buffer := mkBuffer (b_buf b) (b_err b) (b_offset b + n).

Section reader.
Context {W R : Type} `{ReadCloser W R}.
Notation st := (Reader W R).
Implicit Types s : st.

Definition wait_for (enabled : st -> bool) (f : st -> st) : locked st unit :=
  fun s => (s, Step enabled (fun s => (f s, Done tt))).
(** What never goes on: a read that does not return. *)
Definition blocked {A} (a : A) : locked st A := fun s => (s, Step (fun _ => false) (fun s => (s, Done a))).

(** [init], before the goroutine starts. *)
Definition init (rd : R) (w : W) (buffers : nat) (sink : list (nat * error)) (choice : list bool) : st :=
  mkReader rd w softStartInitial None [] false buffers false false buffers None None None 0 None 0 false false false sink choice [].

(** [New]: the error, or the reader. *)
Definition New (rd : R) (w : W) (buffers : Z) (sink : list (nat * error)) (choice : list bool) : error + st :=
  if buffers <=? 0 then inl (Errorf "number of buffers too small") else inr (init rd w (Z.to_nat buffers) sink choice).

(** ** The goroutine that fills buffers *)

(** [select] on [token] and [exit]: whether it takes the exit. *)
Definition select_token : locked st bool := fun s =>
  (s, Step (fun s => (0 <? sb_token s)%nat || sb_exit s)
    (fun s =>
       let stop := if (0 <? sb_token s)%nat && sb_exit s then default true (head (sb_choice s)) else sb_exit s in
       (set_choice (drop 1 (sb_choice s)) s, Done stop))).

(** [defer close(a.ready)], [defer close(a.exited)]. *)
Definition leave : locked st unit := modify (fun s => set_exited true (set_readyClosed true s)).

(** [b.read(a.in)] into a buffer of [n] bytes. *)
Definition buffer_read (n : nat) : locked st buffer := fun s =>
  match ReadFill (S n) n (sb_in s) (sb_w s) with
  | Ret (d, err, r, w) =>
      let b := mkBuffer (Some d) err 0 in
      (set_hand (Some b) (set_in r (set_w w s)), Done b)
  | _ => blocked (mkBuffer None None 0) s
  end.

(** [a.ready <- b]. *)
Definition send_ready (b : buffer) : locked st unit :=
  wait_for (fun s => (length (sb_ready s) <? sb_buffers s)%nat) (fun s => set_hand None (set_ready (sb_ready s ++ [b]) s)).

(** [rounds] of the loop. *)
Fixpoint fill_buffers (rounds : nat) : locked st unit :=
  match rounds with
  | 0%nat => mret tt
  | S rounds =>
      stop ← select_token;
      if (stop : bool) then leave
      else
        modify (fun s => set_token (sb_token s - 1) (set_out (sb_out s + 1) s));;
        size ← get sb_size;
        (if size <? BufferSize then modify (set_size (size * 2)) else mret tt);;
        b ← buffer_read (Z.to_nat (if size <? BufferSize then size else BufferSize));
        send_ready b;;
        match b_err b with Some _ => leave | None => fill_buffers rounds end
  end.

(** ** The consumer *)
Section methods.
Context (me : nat).

(** [a.mu.Lock()] and [a.mu.Unlock()]. *)
Definition mu_Lock : locked st unit := wait_for (fun s => bool_decide (sb_mu s = None)) (set_mu (Some me)).
Definition mu_Unlock : locked st unit := modify (set_mu None).

(** [a.putBuffer(a.cur)]. *)
Definition put_cur s : st :=
  match sb_cur s with
  | Some b => set_cur (Some (mkBuffer None (b_err b) (b_offset b))) (set_out (sb_out s - 1) s)
  | None => s
  end.

(** [a.token <- struct{}{}], for a buffer that has been put. *)
Definition send_token : locked st unit :=
  wait_for (fun s => (sb_token s <? sb_buffers s)%nat) (fun s => set_owed (sb_owed s - 1) (set_token (sb_token s + 1) s)).

(** [b, ok := <-a.ready]: whether there is one, which becomes the current one. *)
Definition receive : locked st bool := fun s =>
  (s, Step (fun s => negb (bool_decide (sb_ready s = [])) || sb_readyClosed s)
    (fun s => match sb_ready s with
              | b :: ready => (set_cur (Some b) (set_ready ready s), Done true)
              | [] => (s, Done false)
              end)).

Definition fill : locked st (option error) :=
  cur ← get sb_cur;
  if isEmpty cur then
    (match cur with
     | Some _ =>
         modify (fun s => set_owed (sb_owed s + 1) (put_cur s));;
         send_token;;
         modify (set_cur None)
     | None => mret tt
     end);;
    ok ← receive;
    if (ok : bool) then mret None
    else err ← get sb_err; mret (Some (default ErrorStreamAbandoned err))
  else mret None.

Definition log_event (e : event) s : st := set_log (e :: sb_log s) s.
Definition advance (n : nat) s : st := set_cur (increment n <$> sb_cur s) s.
Definition cur_err s : option error := match sb_cur s with Some b => b_err b | None => None end.
Definition cur_contents s : list byte := match sb_cur s with Some b => contents b | None => [] end.
Definition is_eof (err : option error) : bool := bool_decide (err = Some io_EOF).

(** The bytes handed out and the error. *)
Definition Read (n : nat) : locked st (list byte * option error) :=
  mu_Lock;;
  err ← fill;
  match err with
  | Some err =>
      (if is_eof (Some err) then modify (log_event Eof) else mret tt);;
      mu_Unlock;; mret ([], Some err)
  | None =>
      d ← get (fun s => take n (cur_contents s));
      modify (fun s => log_event (Got d) (advance (length d) s));;
      empty ← get (fun s => isEmpty (sb_cur s));
      if (empty : bool) then
        modify (fun s => set_err (cur_err s) s);;
        err ← get sb_err;
        (if is_eof err then modify (log_event Eof) else mret tt);;
        mu_Unlock;; mret (d, err)
      else mu_Unlock;; mret (d, None)
  end.

(** [w.Write(a.cur.buffer())]: how much it takes, its error. *)
Definition sink_Write (d : list byte) : locked st (nat * option error) :=
  with_state (fun s => match sb_sink s with
    | (n, err) :: sink => if (n <? length d)%nat then ((n, Some err), set_sink sink s) else ((length d, None), set_sink sink s)
    | [] => ((length d, None), s)
    end).

(** [n] counts; [rounds] of the loop. *)
Fixpoint WriteTo_loop (rounds : nat) (n : Z) : locked st (Z * option error) :=
  match rounds with
  | 0%nat => blocked (n, None)
  | S rounds =>
      err ← fill;
      match err with
      | Some err =>
          if is_eof (Some err) then modify (log_event Eof);; mu_Unlock;; mret (n, None)
          else mu_Unlock;; mret (n, Some err)
      | None =>
          d ← get cur_contents;
          '(k, writeErr) ← sink_Write d;
          modify (fun s => log_event (Got (take k d)) (advance k s));;
          let n := i64 (n + Z.of_nat k) in
          match writeErr with
          | Some err => mu_Unlock;; mret (n, Some err)
          | None =>
              cerr ← get cur_err;
              match cerr with
              | Some err =>
                  modify (set_err (Some err));;
                  if is_eof (Some err) then modify (log_event Eof);; mu_Unlock;; mret (n, None)
                  else mu_Unlock;; mret (n, Some err)
              | None => WriteTo_loop rounds n
              end
          end
      end
  end.
Definition WriteTo (rounds : nat) : locked st (Z * option error) := mu_Lock;; WriteTo_loop rounds 0.

(** ** Stopping *)
Definition close_exit s : st := if sb_exit s then set_panicked true s else set_exit true s.

(** Between the [select] and [close(a.exit)] others may run. *)
Definition StopBuffering : locked st unit :=
  stopped ← get sb_exit;
  if (stopped : bool) then mret tt
  else wait_for (fun _ => true) close_exit;; wait_for sb_exited id.

(** [for b := range a.ready], [rounds] of it. *)
Fixpoint drain_ready (rounds : nat) : locked st unit :=
  match rounds with
  | 0%nat => blocked tt
  | S rounds =>
      more ← (fun s => (s, Step (fun s => negb (bool_decide (sb_ready s = [])) || sb_readyClosed s)
        (fun s => match sb_ready s with
                  | _ :: ready => (set_ready ready (set_out (sb_out s - 1) s), Done true)
                  | [] => (s, Done false)
                  end)));
      if (more : bool) then drain_ready rounds else mret tt
  end.

Definition Abandon (rounds : nat) : locked st unit :=
  StopBuffering;;
  mu_Lock;;
  modify (fun s => set_drain (Some me) (match sb_cur s with Some _ => set_cur None (put_cur s) | None => s end));;
  drain_ready rounds;;
  modify (set_drain None);;
  mu_Unlock.

Definition Close (rounds : nat) : locked st (option error) :=
  Abandon rounds;;
  closed ← get sb_closed;
  if (closed : bool) then mret None
  else
    modify (set_closed true);;
    with_state (fun s => let '(err, w) := rc_Close (sb_in s) (sb_w s) in (err, set_inClosed true (set_w w s))).

(** ** Skipping *)

(** From a current buffer [cur] and what is in [ready]: whether it went through,
    the current buffer, what is left in [ready], the buffers put, the bytes
    passed, and the error to keep. *)
Fixpoint skip_from (ready : list buffer) (cur : buffer) (skip puts passed : nat)
  : bool * option buffer * list buffer * nat * nat * option error :=
  let n := min (length (contents cur)) skip in
  let cur := increment n cur in
  let skip := (skip - n)%nat in
  let passed := (passed + n)%nat in
  if (skip =? 0)%nat then (true, Some cur, ready, puts, passed, if isEmpty (Some cur) then b_err cur else None)
  else
    match b_err cur with
    | Some err => (false, Some cur, ready, puts, passed, Some err)
    | None =>
        match ready with
        | [] => (false, None, [], S puts, passed, None)
        | b :: ready => skip_from ready b skip (S puts) passed
        end
    end.

Definition skip_buffers (skip : nat) s : bool * option buffer * list buffer * nat * nat * option error :=
  match sb_cur s with
  | Some cur =>
      if isEmpty (Some cur) then
        match sb_ready s with
        | [] => (false, None, [], 1%nat, 0%nat, None)
        | b :: ready => skip_from ready b skip 1 0
        end
      else skip_from (sb_ready s) cur skip 0 0
  | None =>
      match sb_ready s with
      | [] => (false, None, [], 0%nat, 0%nat, None)
      | b :: ready => skip_from ready b skip 0 0
      end
  end.

Fixpoint send_tokens (n : nat) : locked st unit :=
  match n with 0%nat => mret tt | S n => send_token;; send_tokens n end.

(** Up to the unlock. *)
Definition SkipBytes_locked (skip : Z) : locked st bool :=
  s ← get id;
  if negb (bool_decide (sb_err s = None)) then mret false
  else if skip <? 0 then
    match sb_cur s with
    | Some cur =>
        if 0 <=? Z.of_nat (b_offset cur) + skip then
          modify (fun s => log_event (Skipped skip) (set_cur (Some (mkBuffer (b_buf cur) (b_err cur) (Z.to_nat (Z.of_nat (b_offset cur) + skip)))) s));;
          mret true
        else mret false
    | None => mret false
    end
  else if (Z.of_nat (length (sb_ready s)) + 1) * BufferSize <=? skip then mret false
  else
    '(ok, cur, ready, puts, passed, err) ← get (skip_buffers (Z.to_nat skip));
    modify (fun s => log_event (Skipped (Z.of_nat passed)) (set_cur cur (set_ready ready (set_out (sb_out s - puts) (set_owed (sb_owed s + puts) s)))));;
    (if (ok : bool) then send_tokens puts else mret tt);;
    modify (fun s => set_owed 0 (match err with Some err => set_err (Some err) s | None => s end));;
    mret ok.

Definition SkipBytes (rounds : nat) (skip : Z) : locked st bool :=
  mu_Lock;;
  ok ← SkipBytes_locked skip;
  mu_Unlock;;
  (if (ok : bool) then mret tt else Abandon rounds);;
  mret ok.
End methods.

(** ** Goroutines *)
Inductive reader_op := OpRead (n : nat) | OpWriteTo (rounds : nat) | OpSkip (rounds : nat) (skip : Z) | OpStop | OpAbandon (rounds : nat) | OpClose (rounds : nat).

Definition run_op (me : nat) (op : reader_op) : locked st unit :=
  match op with
  | OpRead n => Read me n;; mret tt
  | OpWriteTo rounds => WriteTo me rounds;; mret tt
  | OpSkip rounds skip => SkipBytes me rounds skip;; mret tt
  | OpStop => StopBuffering
  | OpAbandon rounds => Abandon me rounds
  | OpClose rounds => Close me rounds;; mret tt
  end.
Fixpoint run_ops (me : nat) (ops : list reader_op) : locked st unit :=
  match ops with [] => mret tt | op :: ops => run_op me op;; run_ops me ops end.

(** The filling goroutine is goroutine 0. *)
Definition reader_goroutines (rounds : nat) (clients : list (list reader_op)) : list (proc st unit) :=
  with_lock (fill_buffers rounds) :: imap (fun i ops => with_lock (run_ops (S i) ops)) clients.
End reader.

(** ** What the consumer sees *)

(** The position in the stream after the events. *)
Fixpoint log_pos (log : list event) : Z :=
  match log with
  | [] => 0
  | Got d :: log => log_pos log + Z.of_nat (length d)
  | Skipped k :: log => log_pos log + k
  | Eof :: log => log_pos log
  end.

(** The bytes are those of [content] at that position; the end is the end. *)
Fixpoint log_ok (content : list byte) (log : list event) : Prop :=
  match log with
  | [] => True
  | e :: log =>
      log_ok content log /\
      match e with
      | Got d => d = slice (log_pos log) (log_pos log + Z.of_nat (length d)) content
      | Skipped k => 0 <= log_pos log + k
      | Eof => log_pos log = Z.of_nat (length content)
      end
  end.

Section invariant.
Context {W R : Type} `{ReadCloser W R} `{!ReaderOK W R} `{!ReaderProgress W R} (content : list byte) (buffers : nat).
Notation st := (Reader W R).
Implicit Types s : st.

Definition list_of {A} (o : option A) : list A := match o with Some a => [a] | None => [] end.
Definition live (cur : option buffer) : nat :=
  match cur with Some b => match b_buf b with Some _ => 1 | None => 0 end | None => 0 end.
Definition cur_buf (cur : option buffer) : list byte := match cur with Some b => default [] (b_buf b) | None => [] end.
Definition cur_off (cur : option buffer) : nat :=
  match cur with Some b => match b_buf b with Some _ => b_offset b | None => 0 end | None => 0 end.
Definition bufs (l : list buffer) : list byte := concat ((fun b => default [] (b_buf b)) <$> l).

(** Only the last buffer ends with an error. *)
Definition err_last (l : list buffer) : Prop := forall l1 b l2, l = l1 ++ b :: l2 -> b_err b <> None -> l2 = [].

(** Nothing more to come. *)
Definition dead s : Prop := sb_exited s = true /\ sb_ready s = [] /\ sb_cur s = None.

(** What is on its way to the consumer, with what it has had, is the stream. *)
Definition in_order s : Prop :=
  exists past, content = past ++ cur_buf (sb_cur s) ++ bufs (sb_ready s) ++ bufs (list_of (sb_hand s)) ++ rc_rest (sb_in s) /\
    log_pos (sb_log s) = Z.of_nat (length past) + Z.of_nat (cur_off (sb_cur s)) /\
    (cur_off (sb_cur s) <= length (cur_buf (sb_cur s)))%nat.

Record sb_inv s : Prop := {
  iv_tokens : (sb_token s + length (list_of (sb_hand s)) + length (sb_ready s) + live (sb_cur s) + sb_owed s <= sb_buffers s)%nat;
  iv_out : sb_out s = (length (list_of (sb_hand s)) + length (sb_ready s) + live (sb_cur s))%nat;
  iv_free : sb_mu s = None -> sb_owed s = 0%nat /\ sb_drain s = None /\ (sb_cur s = None \/ live (sb_cur s) = 1%nat);
  iv_drain : forall j, sb_drain s = Some j -> sb_mu s = Some j /\ sb_cur s = None;
  iv_exited : sb_readyClosed s = sb_exited s /\ (sb_exited s = true -> sb_hand s = None);
  iv_closed : sb_inClosed s = true -> dead s;
  iv_bufs : Forall (fun b => is_Some (b_buf b) /\ b_offset b = 0%nat) (sb_ready s ++ list_of (sb_hand s));
  iv_last : err_last (list_of (sb_cur s) ++ sb_ready s ++ list_of (sb_hand s));
  iv_err : Forall (fun b => b_err b <> None -> sb_exited s = true) (list_of (sb_cur s) ++ sb_ready s);
  iv_ended : Forall (fun b => b_err b = Some io_EOF -> rc_rest (sb_in s) = []) (list_of (sb_cur s) ++ sb_ready s ++ list_of (sb_hand s));
  iv_log : log_ok content (sb_log s);
  iv_seq : in_order s \/ sb_cur s = None /\ (dead s \/ sb_drain s <> None);
  iv_eof : sb_err s = Some io_EOF -> log_pos (sb_log s) = Z.of_nat (length content);
  iv_buffers : sb_buffers s = buffers;
}.

(** ** Who owns what *)
Definition filler_state s := (sb_in s, sb_w s, sb_size s, sb_hand s, sb_exited s).
Definition holder_state s := (sb_mu s, sb_cur s, sb_err s, sb_owed s, sb_drain s, sb_log s, sb_sink s).

Definition rely (i : nat) s s' : Prop :=
  (sb_exit s = true -> sb_exit s' = true) /\ (sb_exited s = true -> sb_exited s' = true) /\ sb_buffers s' = sb_buffers s /\
  (i = 0%nat -> sb_exited s = false -> filler_state s' = filler_state s) /\
  (sb_mu s = Some i -> holder_state s' = holder_state s).

Lemma rely_refl i s : rely i s s.
Proof. by split_and!. Qed.
Lemma rely_trans i s1 s2 s3 : rely i s1 s2 -> rely i s2 s3 -> rely i s1 s3.
Proof.
  intros (A1 & A2 & A3 & A4 & A5) (B1 & B2 & B3 & B4 & B5). split_and!; auto; try congruence.
  - intros Hi He. rewrite B4; auto. specialize (A4 Hi He). unfold filler_state in A4. congruence.
  - intros Hm. rewrite B5; auto. specialize (A5 Hm). unfold holder_state in A5. congruence.
Qed.

Notation G := (guarantee sb_inv rely).
Notation WP := (wp sb_inv rely).

(** ** The filling goroutine *)
Lemma err_last_app l b : Forall (fun b => b_err b = None) l -> err_last (l ++ [b]).
Proof.
  intros Hl l1 b1 l2 He Hb. destruct l2 as [|b2 l2] using rev_ind; [done|]. rewrite app_comm_cons, app_assoc in He.
  apply app_inj_tail in He as [-> _]. apply Forall_app in Hl as [_ Hl]. apply Forall_cons in Hl as [? _]. congruence.
Qed.

(** Goroutine 0 between two rounds. *)
Definition filling s : Prop := sb_inv s /\ sb_exited s = false /\ sb_hand s = None.

Lemma filler_guarantee s0 s : sb_inv s -> sb_exit s = sb_exit s0 -> (sb_exited s0 = true -> sb_exited s = true) ->
  sb_buffers s = sb_buffers s0 -> holder_state s = holder_state s0 -> G 0 s0 s.
Proof.
  intros Hi He Hx Hb Hh. split; [done|]. intros j Hj. split_and!; try done; congruence.
Qed.

Lemma leave_inv s : sb_inv s -> sb_hand s = None -> sb_inv (set_exited true (set_readyClosed true s)).
Proof.
  intros [] Hh. split; cbn; try done.
  - intros Hc. destruct (iv_closed0 Hc) as (_ & ? & ?). by split_and!.
  - eapply Forall_impl; [exact iv_err0|]. done.
  - destruct iv_seq0 as [?|[Hc Hd]]; [by left|right]. split; [done|]. destruct Hd as [(? & ? & ?)|?]; [by left; split_and!|by right].
Qed.

Lemma fill_round s b s' : filling s -> (0 < sb_token s)%nat ->
  (exists size n d r w, ReadFill (S n) n (sb_in s) (sb_w s) = Ret (d, b_err b, r, w) /\ b = mkBuffer (Some d) (b_err b) 0 /\
    s' = set_hand (Some b) (set_in r (set_w w (set_size size (set_token (sb_token s - 1) (set_out (sb_out s + 1) s)))))) ->
  sb_inv s'.
Proof.
  intros [[] [Hx Hh]] Ht (size & n & d & r & w & Hr & Hb & ->). apply ReadFill_ok in Hr as (_ & Hrest & Heof & _).
  rewrite Hh in *. cbn [list_of length app] in *. rewrite ?app_nil_r in *.
  assert (Hnone : Forall (fun b => b_err b = None) (list_of (sb_cur s) ++ sb_ready s)).
  { eapply Forall_impl; [exact iv_err0|]. intros c Hc. cbn in Hc. destruct (b_err c); [|done]. exfalso. rewrite Hx in Hc. by discriminate Hc. }
  split; cbn; try done.
  - lia.
  - lia.
  - destruct iv_exited0. split; [done|]. congruence.
  - apply Forall_app. split; [done|]. apply Forall_singleton. rewrite Hb. split; [by eexists|done].
  - rewrite app_assoc. by apply err_last_app.
  - rewrite app_assoc. apply Forall_app. split; [|by apply Forall_singleton].
    eapply Forall_impl; [exact Hnone|]. intros c Hc He. cbn in Hc. congruence.
  - destruct iv_seq0 as [(past & Hc & Hp & Ho)|[Hc [(? & _ & _)|Hd]]]; [left|congruence|right; by split; [|right]].
    exists past. cbn. rewrite Hh in Hc. unfold bufs in *. cbn in *. rewrite Hb. cbn. split; [|done]. by rewrite app_nil_r, <- Hrest.
Qed.

Lemma send_ready_inv s b : sb_inv s -> sb_exited s = false -> sb_hand s = Some b ->
  let s' := set_hand None (set_ready (sb_ready s ++ [b]) s) in
  match b_err b with Some _ => sb_inv (set_exited true (set_readyClosed true s')) | None => sb_inv s' end.
Proof.
  intros [] Hx Hh s'. rewrite Hh in *. cbn [list_of length] in *.
  assert (Hcommon : forall x, (b_err b <> None -> x = true) -> sb_inv (set_exited x (set_readyClosed x s'))).
  { intros x Hbx. subst s'. split; cbn; rewrite ?length_app, ?app_nil_r; cbn [length]; try done.
    - lia.
    - lia.
    - intros Hc. destruct (iv_closed0 Hc) as (? & _). congruence.
    - rewrite app_assoc. apply Forall_app. split; [|by apply Forall_singleton].
      eapply Forall_impl; [exact iv_err0|]. intros c Hc Hce. specialize (Hc Hce). congruence.
    - destruct iv_seq0 as [(past & Hc & Hp & Ho)|[Hc [(? & _ & _)|Hd]]]; [left|congruence|right; by split; [|right]].
      exists past. cbn. split; [|done]. rewrite Hh in Hc. rewrite Hc. unfold bufs. rewrite fmap_app, concat_app. cbn.
      by rewrite app_nil_r, <- !app_assoc. }
  destruct (b_err b) eqn:Hb; [by apply Hcommon|]. specialize (Hcommon false ltac:(done)).
  assert (Heq : set_exited false (set_readyClosed false s') = s'); [|by rewrite Heq in Hcommon].
  subst s'. destruct s. cbn in *. destruct iv_exited0. unfold set_exited, set_readyClosed, set_hand, set_ready. cbn. f_equal; congruence.
Qed.

Lemma fill_buffers_ok rounds : forall s0 s, G 0 s0 s -> filling s ->
  WP 0 (fill_buffers rounds) (fun _ s0 s => G 0 s0 s) s0 s.
Proof.
  induction rounds as [|rounds IH]; intros s0 s Hg Hs; cbn [fill_buffers]; [done|].
  apply wp_bind. unfold select_token. cbn [wp runs]. split; [done|]. intros s1 Hr Hi1 He. cbn [runs].
  assert (Hs1 : filling s1).
  { destruct Hs as (_ & Hx & Hh), Hr as (_ & _ & _ & Hf & _). specialize (Hf eq_refl Hx). unfold filler_state in Hf. by split; [|split; congruence]. }
  clear s Hg Hs Hr. set (s2 := set_choice (drop 1 (sb_choice s1)) s1).
  assert (Hs2 : filling s2) by (destruct Hs1 as [[] []]; by split; [split|]).
  assert (Hsame : sb_exit s2 = sb_exit s1 /\ sb_exited s2 = sb_exited s1 /\ sb_buffers s2 = sb_buffers s1 /\ holder_state s2 = holder_state s1 /\ sb_token s2 = sb_token s1)
    by by subst s2.
  clearbody s2. destruct Hsame as (E1 & E2 & E3 & E4 & E5). destruct (if (0 <? sb_token s1)%nat && sb_exit s1 then default true (head (sb_choice s1)) else sb_exit s1) eqn:Hstop.
  { unfold leave, modify. cbn. apply filler_guarantee; cbn; try done. apply leave_inv; [apply Hs2|apply Hs2]. }
  assert (Ht : (0 < sb_token s2)%nat).
  { rewrite E5. destruct (Nat.ltb_spec 0 (sb_token s1)); [done|]. cbn in He, Hstop. congruence. }
  apply wp_bind. cbn [wp modify runs]. apply wp_bind. cbn [wp get runs]. apply wp_bind.
  set (s3 := set_token _ _). set (n := Z.to_nat _).
  assert (Hs3 : exists size, wp sb_inv rely 0 (if sb_size s3 <? BufferSize then modify (set_size (sb_size s3 * 2)) else mret tt)
      (fun (_ : unit) (s0 s : st) => s0 = s1 /\ s = set_size size s3) s1 s3).
  { destruct (sb_size s3 <? BufferSize); [by exists (sb_size s3 * 2)|]. exists (sb_size s3). cbn. split; [done|]. subst s3. by destruct s2. }
  destruct Hs3 as [size Hs3]. eapply wp_mono; [|exact Hs3]. intros _ s0' s' [-> ->]. clear Hs3.
  destruct (ReadFill_total (S n) n (sb_in s2) (sb_w s2) ltac:(lia)) as ([[[d err] r] w] & Hread & _).
  apply wp_bind. unfold wp at 1, buffer_read at 1. subst s3. cbn [sb_in sb_w set_size set_token set_out]. rewrite Hread. cbn [runs].
  set (b := mkBuffer (Some d) err 0). set (s4 := set_hand _ _).
  assert (Hi4 : sb_inv s4).
  { apply (fill_round s2 b); [done|done|]. by exists size, n, d, r, w. }
  assert (Hx4 : sb_exited s4 = false /\ sb_hand s4 = Some b) by (split; [apply Hs2|done]).
  assert (Hg4 : G 0 s1 s4) by (apply filler_guarantee; cbn; congruence || done).
  clearbody s4. apply wp_bind. unfold send_ready, wait_for. cbn [wp runs]. split; [exact Hg4|]. intros s5 Hr5 Hi5 He5. cbn [runs].
  assert (Hs5 : sb_exited s5 = false /\ sb_hand s5 = Some b).
  { destruct Hx4 as [Hx Hh], Hr5 as (_ & _ & _ & Hf & _). specialize (Hf eq_refl Hx). unfold filler_state in Hf. split; congruence. }
  destruct Hs5 as [Hx5 Hh5]. pose proof (send_ready_inv s5 b Hi5 Hx5 Hh5) as Hi6. cbn zeta in Hi6. destruct (b_err b) as [e|] eqn:Hb.
  - cbn. by apply filler_guarantee.
  - apply IH; [by apply filler_guarantee|]. by split.
Qed.

(** ** The clients *)
Section client.
Context (me : nat) (not_filler : me <> 0%nat).

(** The section so far: [me] had the mutex or nobody did, and the filling
    goroutine's part is untouched. *)
Definition own s0 s : Prop :=
  (sb_mu s0 = None \/ sb_mu s0 = Some me) /\ sb_exit s = sb_exit s0 /\ sb_exited s = sb_exited s0 /\ sb_buffers s = sb_buffers s0 /\
  (sb_exited s0 = false -> filler_state s = filler_state s0).

Lemma own_guarantee s0 s : sb_inv s -> own s0 s -> G me s0 s.
Proof.
  intros Hi (Hm & He & Hx & Hb & Hf). split; [done|]. intros j Hj. split_and!; try congruence.
  - auto.
  - intros Hmj. destruct Hm; congruence.
Qed.

(** [me] has the mutex, and the state is as between two statements. *)
Record held s : Prop := {
  hd_inv : sb_inv s;
  hd_mu : sb_mu s = Some me;
  hd_drain : sb_drain s = None;
  hd_owed : sb_owed s = 0%nat;
  hd_cur : sb_cur s = None \/ live (sb_cur s) = 1%nat;
}.

(** Bringing a state to the next section. *)
Lemma rely_own s s1 : rely me s s1 -> sb_mu s = Some me -> own s1 s1 /\ holder_state s1 = holder_state s.
Proof. intros (_ & _ & _ & _ & Hh) Hm. specialize (Hh Hm). split; [|done]. unfold holder_state in Hh. split_and!; try done. right. congruence. Qed.

Lemma held_rely s s1 : held s -> rely me s s1 -> sb_inv s1 -> held s1 /\ own s1 s1 /\ holder_state s1 = holder_state s.
Proof.
  intros [] Hr Hi. destruct (rely_own s s1 Hr hd_mu0) as [Ho Hh]. split; [|done]. unfold holder_state in Hh. injection Hh as ? ? ? ? ? ? ?.
  split; congruence.
Qed.

Lemma mu_Lock_wp (Q : unit -> st -> st -> Prop) s0 s : G me s0 s ->
  (forall s0 s, own s0 s -> held s -> Q tt s0 s) -> WP me (mu_Lock me) Q s0 s.
Proof.
  intros Hg HQ. unfold mu_Lock, wait_for. split; [done|]. intros s1 Hr Hi He. apply bool_decide_eq_true in He. cbn. apply HQ.
  - split_and!; try done. by left.
  - destruct Hi. destruct (iv_free0 He) as (? & ? & ?). split; try done. split; try done. cbn. intros j Hj. congruence.
Qed.

Lemma mu_Unlock_wp (Q : unit -> st -> st -> Prop) s0 s : own s0 s -> held s ->
  (forall s0 s, G me s0 s -> Q tt s0 s) -> WP me mu_Unlock Q s0 s.
Proof.
  intros Ho [[]] HQ. cbn. apply HQ, own_guarantee; [|exact Ho]. split; try done. cbn. intros j Hj. congruence.
Qed.

(** *** The order of the stream *)
Lemma err_last_ext l l' : b_err <$> l' = b_err <$> l -> err_last l -> err_last l'.
Proof.
  intros He Hl l1 b l2 -> Hb. rewrite fmap_app in He. cbn in He.
  symmetry in He. apply fmap_app_inv in He as (k1 & k2' & Hk1 & Hk2 & ->). destruct k2' as [|c k2]; [done|]. injection Hk2 as Hc Hk2.
  destruct l2 as [|x l2]; [done|]. assert (k2 = []) as ->; [|done]. apply (Hl k1 c k2); [done|congruence].
Qed.

Lemma err_last_suffix l1 l2 : err_last (l1 ++ l2) -> err_last l2.
Proof. intros He a b c -> Hb. by apply (He (l1 ++ a) b c); [rewrite <- app_assoc|]. Qed.

Lemma err_last_head b l : err_last (b :: l) -> b_err b <> None -> l = [].
Proof. intros He Hb. by apply (He [] b l). Qed.

Lemma bufs_cons b l : bufs (b :: l) = default [] (b_buf b) ++ bufs l.
Proof. done. Qed.
Lemma held_in_order s b : held s -> sb_cur s = Some b -> in_order s.
Proof.
  intros [[]] Hc. destruct iv_seq0 as [?|[? _]]; [done|congruence].
Qed.

Lemma held_live s b : held s -> sb_cur s = Some b -> is_Some (b_buf b).
Proof. intros [_ _ _ _ [Hc|Hl]] Hb; [congruence|]. rewrite Hb in Hl. cbn in Hl. destruct (b_buf b); [by eexists|done]. Qed.

(** The error of an exhausted current buffer is that of the end. *)
Lemma held_end s b : held s -> sb_cur s = Some b -> isEmpty (Some b) = true -> b_err b = Some io_EOF ->
  log_pos (sb_log s) = Z.of_nat (length content).
Proof.
  intros Hh Hc He Hb. destruct (held_in_order s b Hh Hc) as (past & Hcont & Hp & Ho). destruct (held_live s b Hh Hc) as [buf Hbuf].
  destruct Hh as [[] _ _ _ _]. rewrite Hc in *. cbn in *. rewrite Hbuf in *. cbn in *. apply Nat.leb_le in He.
  assert (Hnil : sb_ready s ++ list_of (sb_hand s) = []) by (eapply err_last_head; [exact iv_last0|congruence]).
  apply Forall_cons in iv_ended0 as [Hrest _]. specialize (Hrest Hb). apply app_nil in Hnil as [Hr Hn]. rewrite Hr, Hn, Hrest in Hcont.
  unfold bufs in Hcont. cbn in Hcont. rewrite !app_nil_r in Hcont. rewrite Hcont, length_app. lia.
Qed.

Lemma set_err_held s b : held s -> sb_cur s = Some b -> isEmpty (Some b) = true -> held (set_err (b_err b) s).
Proof.
  intros Hh Hc He. pose proof (held_end s b Hh Hc He) as Hend. destruct Hh as [[] ? ? ? ?]. split; [|done..]. split; done.
Qed.

Lemma log_eof_held s : held s -> log_pos (sb_log s) = Z.of_nat (length content) -> held (log_event Eof s).
Proof. intros [[] ? ? ? ?] Hp. split; [|done..]. split; done. Qed.

(** Handing out the next bytes of the current buffer. *)
Lemma advance_held s b n : held s -> sb_cur s = Some b -> (n <= length (contents b))%nat ->
  held (log_event (Got (take n (contents b))) (advance n s)).
Proof.
  intros Hh Hc Hn. destruct (held_in_order s b Hh Hc) as (past & Hcont & Hp & Ho). destruct (held_live s b Hh Hc) as [buf Hbuf].
  assert (Hlen : length (take n (contents b)) = n) by (rewrite length_take; lia).
  unfold contents in *. rewrite length_drop in Hn. rewrite Hc in Ho, Hcont, Hp. cbn in Ho, Hcont, Hp. rewrite Hbuf in *. cbn in *.
  destruct Hh as [[] Hmu Hdr How _].
  assert (Hd : take n (drop (b_offset b) buf) = slice (log_pos (sb_log s)) (log_pos (sb_log s) + Z.of_nat n) content).
  { unfold slice. replace (Z.to_nat (log_pos (sb_log s) + Z.of_nat n - log_pos (sb_log s))) with n by lia.
    rewrite Hp, Hcont. replace (Z.to_nat _) with (length past + b_offset b)%nat by lia.
    rewrite <- drop_drop, drop_app_length, drop_app_le by lia. rewrite take_app_le; [done|]. rewrite length_drop. lia. }
  split; try done; cbn; rewrite ?Hc; [|right; cbn; by rewrite Hbuf]. split; cbn; rewrite ?Hc; cbn; rewrite ?Hbuf; try done.
  - rewrite Hc in iv_tokens0. cbn in iv_tokens0. by rewrite Hbuf in iv_tokens0.
  - rewrite Hc in iv_out0. cbn in iv_out0. by rewrite Hbuf in iv_out0.
  - congruence.
  - intros j Hj. congruence.
  - intros Hcl. destruct (iv_closed0 Hcl) as (_ & _ & ?). congruence.
  - eapply err_last_ext; [|exact iv_last0]. by rewrite Hc.
  - rewrite Hc in iv_err0. cbn in iv_err0. apply Forall_cons in iv_err0 as [? ?]. by constructor.
  - rewrite Hc in iv_ended0. cbn in iv_ended0. apply Forall_cons in iv_ended0 as [? ?]. by constructor.
  - split; [done|]. by rewrite Hlen.
  - left. exists past. cbn. rewrite Hc. cbn. rewrite Hbuf. cbn. split_and!; [done|rewrite Hlen; lia|lia].
  - intros He. specialize (iv_eof0 He). rewrite Hlen. apply (f_equal length) in Hd. rewrite Hlen in Hd. unfold slice in Hd.
    rewrite length_take, length_drop in Hd. lia.
Qed.
(** *** Taking the next buffer *)

(** The mutex held, [n] tokens to send for buffers already put. *)
Record putting (n : nat) s : Prop := {
  pt_inv : sb_inv s;
  pt_mu : sb_mu s = Some me;
  pt_drain : sb_drain s = None;
  pt_owed : sb_owed s = n;
}.

Lemma put_cur_putting s b : held s -> sb_cur s = Some b -> isEmpty (Some b) = true ->
  putting 1 (set_owed (sb_owed s + 1) (put_cur s)) /\ live (sb_cur (put_cur s)) = 0%nat.
Proof.
  intros Hh Hc He. destruct (held_in_order s b Hh Hc) as (past & Hcont & Hp & Ho). destruct (held_live s b Hh Hc) as [buf Hbuf].
  destruct Hh as [[] Hmu Hdr How _]. unfold put_cur. rewrite Hc in *. split; [|done]. split; cbn; try done; [|lia].
  cbn in He, Hcont, Hp, Ho. rewrite Hbuf in *. cbn in *. rewrite ?Hbuf in *. apply Nat.leb_le in He. split; cbn; try done.
  - lia.
  - lia.
  - congruence.
  - intros j Hj. congruence.
  - intros Hcl. destruct (iv_closed0 Hcl) as (_ & _ & ?). congruence.
  - eapply err_last_ext; [|exact iv_last0]. done.
  - apply Forall_cons in iv_err0 as [? ?]. by constructor.
  - apply Forall_cons in iv_ended0 as [? ?]. by constructor.
  - left. exists (past ++ buf). cbn. rewrite Hcont, <- app_assoc, length_app. split_and!; [done|lia|lia].
Qed.

Lemma send_token_wp n (Q : unit -> st -> st -> Prop) s0 s : own s0 s -> putting (S n) s ->
  (forall s0 s', own s0 s' -> putting n s' -> sb_cur s' = sb_cur s -> sb_err s' = sb_err s -> sb_log s' = sb_log s -> Q tt s0 s') ->
  WP me send_token Q s0 s.
Proof.
  intros Ho [Hi Hmu Hdr How] HQ. unfold send_token, wait_for. split; [by apply own_guarantee|]. intros s1 Hr Hi1 _. cbn.
  destruct (rely_own s s1 Hr Hmu) as [Ho1 Hh]. injection Hh as H1 H2 H3 H4 H5 H6 H7.
  apply HQ; cbn; try done. split; cbn; try congruence; [|lia]. destruct Hi1. split; cbn; try done; [lia|].
  intros Hm. congruence.
Qed.

Lemma drop_cur_held s : putting 0 s -> sb_cur s = None \/ live (sb_cur s) = 0%nat -> held (set_cur None s) .
Proof.
  intros [[] Hmu Hdr How] Hl. assert (Hlive : live (sb_cur s) = 0%nat) by (destruct Hl as [->|?]; done).
  split; cbn; try done; [|by left]. split; cbn; try done.
  - lia.
  - lia.
  - intros Hm. congruence.
  - intros j Hj. congruence.
  - intros Hcl. destruct (iv_closed0 Hcl) as (? & ? & ?). by split_and!.
  - by eapply err_last_suffix.
  - by apply Forall_app in iv_err0 as [_ ?].
  - by apply Forall_app in iv_ended0 as [_ ?].
  - destruct iv_seq0 as [(past & Hcont & Hp & Ho)|[Hc Hd]]; [left|right; split; [done|]; destruct Hd as [(? & ? & ?)|?]; [by left|congruence]].
    exists past. cbn. destruct (sb_cur s) as [b|]; [|done]. cbn in *. destruct (b_buf b); [done|]. cbn in *. by split_and!.
Qed.

Lemma receive_wp (Q : bool -> st -> st -> Prop) s0 s : own s0 s -> held s -> sb_cur s = None ->
  (forall ok s0 s', own s0 s' -> held s' -> (if ok : bool then is_Some (sb_cur s') else sb_cur s' = None) -> sb_err s' = sb_err s -> Q ok s0 s') ->
  WP me receive Q s0 s.
Proof.
  intros Ho Hh Hc HQ. unfold receive. split; [by apply own_guarantee; [apply Hh|]|]. intros s1 Hr Hi1 He.
  destruct (held_rely s s1 Hh Hr Hi1) as (Hh1 & Ho1 & Hst). injection Hst as _ Hc1 Herr _ _ _ _. rewrite Hc in Hc1.
  destruct (sb_ready s1) as [|b ready] eqn:Hready; cbn; apply HQ; try done.
  destruct Hh1 as [[] Hmu Hdr How _]. rewrite Hready, Hc1 in *. cbn in *.
  apply Forall_cons in iv_bufs0 as [[[buf Hbuf] Hoff] Hbufs]. split; cbn; try done; [|right; cbn; by rewrite Hbuf].
  split; cbn; rewrite ?Hbuf; try done; try congruence.
  - lia.
  - lia.
  - intros Hcl. destruct (iv_closed0 Hcl) as (_ & ? & ?). congruence.
  - left. destruct iv_seq0 as [(past & Hcont & Hp & Hoc)|[_ [(_ & ? & _)|?]]]; [|congruence..].
    exists past. rewrite Hc1, Hready in *. rewrite bufs_cons, Hbuf in Hcont. cbn in *. rewrite Hbuf, Hoff, Hcont, <- app_assoc.
    split_and!; [done|lia|lia].
Qed.

Lemma fill_wp (Q : option error -> st -> st -> Prop) s0 s : own s0 s -> held s ->
  (forall s0 s b, own s0 s -> held s -> sb_cur s = Some b -> Q None s0 s) ->
  (forall s0 s err, own s0 s -> held s -> (err = io_EOF -> sb_err s = Some io_EOF) -> Q (Some err) s0 s) ->
  WP me fill Q s0 s.
Proof.
  intros Ho Hh Hnone Hsome. unfold fill. apply wp_bind. cbn [wp get runs]. destruct (isEmpty (sb_cur s)) eqn:He.
  2: { cbn. destruct (sb_cur s) as [b|] eqn:Hc; [|done]. by apply (Hnone s0 s b). }
  assert (Hrec : forall s0 s, own s0 s -> held s -> sb_cur s = None ->
    WP me (ok ← receive; if (ok : bool) then mret None else err ← get sb_err; mret (Some (default ErrorStreamAbandoned err))) Q s0 s).
  { clear - Hnone Hsome not_filler. intros s0 s Ho Hh Hc. apply wp_bind. apply receive_wp; [done..|].
    intros [] s0' s' Ho' Hh' Hc' Herr; cbn.
    - destruct Hc' as [b Hc']. by apply (Hnone s0' s' b).
    - apply Hsome; [done..|]. destruct (sb_err s') as [e|]; cbn; [by intros ->|done]. }
  apply wp_bind. destruct (sb_cur s) as [b|] eqn:Hc; [|cbn; by apply Hrec].
  apply wp_bind. cbn [wp modify runs]. destruct (put_cur_putting s b Hh Hc He) as [Hp Hl].
  apply wp_bind. eapply send_token_wp; [|exact Hp|].
  - unfold put_cur. rewrite Hc. exact Ho.
  - intros s1 s2 Ho2 Hp2 Hc2 _ _. cbn [wp modify runs]. apply Hrec; [exact Ho2| |done].
    apply drop_cur_held; [done|]. right. rewrite Hc2. exact Hl.
Qed.

(** *** Reading *)
Lemma take_length_self {A} n (l : list A) : take n l = take (length (take n l)) l.
Proof. rewrite length_take. destruct (decide (n <= length l)%nat); [f_equal; lia|]. rewrite !take_ge by lia. done. Qed.

(** The end reported, and the mutex given back. *)
Lemma eof_unlock_wp {A} (a : A) err (Q : A -> st -> st -> Prop) s0 s : own s0 s -> held s ->
  (err = Some io_EOF -> log_pos (sb_log s) = Z.of_nat (length content)) -> (forall a s0 s, G me s0 s -> Q a s0 s) ->
  WP me ((if is_eof err then modify (log_event Eof) else mret tt);; mu_Unlock;; mret a) Q s0 s.
Proof.
  intros Ho Hh Herr HQ. apply wp_bind. unfold is_eof. destruct (bool_decide _) eqn:He.
  - cbn [wp modify runs]. apply wp_bind, mu_Unlock_wp; [exact Ho| |intros; by apply HQ].
    apply bool_decide_eq_true in He. by apply log_eof_held; [|apply Herr].
  - cbn [wp mret locked_ret runs]. apply wp_bind, mu_Unlock_wp; [done..|]. intros. by apply HQ.
Qed.

Lemma unlock_wp {A} (a : A) (Q : A -> st -> st -> Prop) s0 s : own s0 s -> held s ->
  (forall a s0 s, G me s0 s -> Q a s0 s) -> WP me (mu_Unlock;; mret a) Q s0 s.
Proof. intros Ho Hh HQ. apply wp_bind, mu_Unlock_wp; [done..|]. intros. by apply HQ. Qed.

Lemma Read_wp n (Q : list byte * option error -> st -> st -> Prop) s0 s : G me s0 s ->
  (forall a s0 s, G me s0 s -> Q a s0 s) -> WP me (Read me n) Q s0 s.
Proof.
  intros Hg HQ. unfold Read. apply wp_bind, mu_Lock_wp; [done|]. clear s0 s Hg. intros s0 s Ho Hh.
  apply wp_bind, fill_wp; [done..| |]; clear s0 s Ho Hh.
  2: { intros s0 s err Ho Hh Herr. apply eof_unlock_wp; try done. intros [= He]. destruct Hh as [[] ? ? ? ?]. auto. }
  intros s0 s b Ho Hh Hc. apply wp_bind. cbn [wp get runs]. apply wp_bind. cbn [wp modify runs]. unfold cur_contents. rewrite Hc.
  set (d := take n (contents b)). set (s1 := log_event _ _).
  assert (Hh1 : held s1).
  { subst s1 d. rewrite (take_length_self n (contents b)) at 1. apply advance_held; [done..|]. rewrite length_take. lia. }
  assert (Hc1 : sb_cur s1 = Some (increment (length d) b)) by (cbn; by rewrite Hc).
  assert (Ho1 : own s0 s1) by exact Ho. clearbody s1. apply wp_bind. cbn [wp get runs].
  destruct (isEmpty (sb_cur s1)) eqn:He; [|by apply unlock_wp].
  apply wp_bind. cbn [wp modify runs]. apply wp_bind. cbn [wp get runs]. unfold cur_err. rewrite Hc1 in *.
  apply eof_unlock_wp; [exact Ho1| | |done].
  - by apply set_err_held.
  - by apply (held_end s1 _ Hh1 Hc1).
Qed.

Lemma sink_Write_wp d (Q : nat * option error -> st -> st -> Prop) s0 s : own s0 s -> held s ->
  (forall k err s', (k <= length d)%nat -> (err = None -> k = length d) -> own s0 s' -> held s' -> sb_cur s' = sb_cur s -> Q (k, err) s0 s') ->
  WP me (sink_Write d) Q s0 s.
Proof.
  intros Ho Hh HQ. unfold wp, sink_Write, with_state. cbv beta. destruct (sb_sink s) as [|[k err] sink].
  - cbn. by apply HQ.
  - assert (Hh' : held (set_sink sink s)) by (destruct Hh as [[] ? ? ? ?]; by split; [split|..]).
    destruct (Nat.ltb_spec k (length d)); cbn; by apply HQ; [lia|..].
Qed.

Lemma WriteTo_loop_wp rounds (Q : Z * option error -> st -> st -> Prop) : (forall a s0 s, G me s0 s -> Q a s0 s) ->
  forall n s0 s, own s0 s -> held s -> WP me (WriteTo_loop rounds n) Q s0 s.
Proof.
  intros HQ. induction rounds as [|rounds IH]; intros n s0 s Ho Hh; cbn [WriteTo_loop].
  { split; [by apply own_guarantee; [apply Hh|]|]. done. }
  apply wp_bind, fill_wp; [done..| |]; clear dependent s; clear s0.
  2: { intros s0 s err Ho Hh Herr. destruct (is_eof (Some err)) eqn:He; [|by apply unlock_wp].
    apply wp_bind. cbn [wp modify runs]. apply unlock_wp; [exact Ho| |done]. apply bool_decide_eq_true in He.
    apply log_eof_held; [done|]. destruct Hh as [[] ? ? ? ?]. injection He as ->. auto. }
  intros s0 s b Ho Hh Hc. apply wp_bind. cbn [wp get runs]. unfold cur_contents. rewrite Hc.
  apply wp_bind, sink_Write_wp; [done..|]. intros k err s1 Hk Hfull Ho1 Hh1 Hc1. rewrite Hc in Hc1.
  apply wp_bind. cbn [wp modify runs]. set (s2 := log_event _ _).
  assert (Hh2 : held s2) by (by apply advance_held).
  assert (Hc2 : sb_cur s2 = Some (increment k b)) by (cbn; by rewrite Hc1).
  assert (Ho2 : own s0 s2) by exact Ho1. clearbody s2. destruct err as [err|]; [by apply unlock_wp|].
  apply wp_bind. cbn [wp get runs]. unfold cur_err. rewrite Hc2. cbn [b_err increment]. destruct (b_err b) as [err|] eqn:Hb; [|by apply IH].
  assert (He2 : isEmpty (Some (increment k b)) = true).
  { rewrite (Hfull eq_refl). cbn. unfold contents. rewrite length_drop. apply Nat.leb_le. lia. }
  apply wp_bind. cbn [wp modify runs].
  assert (Hh3 : held (set_err (Some err) s2)).
  { rewrite <- Hb. change (b_err b) with (b_err (increment k b)). by apply set_err_held. }
  destruct (is_eof (Some err)) eqn:He; [|by apply unlock_wp].
  apply wp_bind. cbn [wp modify runs]. apply unlock_wp; [exact Ho2| |done]. apply bool_decide_eq_true in He.
  apply log_eof_held; [done|]. change (log_pos (sb_log s2) = Z.of_nat (length content)). apply (held_end s2 (increment k b)); [done..|]. cbn. congruence.
Qed.

(** *** Stopping *)
Lemma StopBuffering_wp (Q : unit -> st -> st -> Prop) s0 s : G me s0 s -> (forall a s0 s, G me s0 s -> Q a s0 s) ->
  WP me StopBuffering Q s0 s.
Proof.
  intros Hg HQ. unfold StopBuffering. apply wp_bind. cbn [wp get runs]. destruct (sb_exit s); [by apply HQ|].
  apply wp_bind. unfold wait_for. cbn [wp runs]. split; [done|]. intros s1 _ Hi1 _. cbn [runs wp]. clear s0 s Hg.
  assert (Hg : G me s1 (close_exit s1)).
  { split; [destruct Hi1; unfold close_exit; by destruct (sb_exit s1); split|].
    intros j Hj. unfold close_exit. destruct (sb_exit s1) eqn:He; by split_and!. }
  split; [done|]. intros s2 _ Hi2 _. cbn. apply HQ. split; [done|]. intros j Hj. apply rely_refl.
Qed.

Record draining s : Prop := {
  dr_inv : sb_inv s;
  dr_mu : sb_mu s = Some me;
  dr_drain : sb_drain s = Some me;
  dr_owed : sb_owed s = 0%nat;
}.

Definition start_drain s : st := set_drain (Some me) (match sb_cur s with Some _ => set_cur None (put_cur s) | None => s end).

Lemma start_drain_ok s : held s -> draining (start_drain s).
Proof.
  intros [[] Hmu Hdr How Hl]. unfold start_drain, put_cur. destruct (sb_cur s) as [b|] eqn:Hc; split; cbn; try done.
  - assert (Hlive : live (Some b) = 1%nat) by (destruct Hl; done). cbn in Hlive. destruct (b_buf b) as [buf|] eqn:Hbuf; [|done].
    split; cbn; try done.
    + cbn in *. rewrite Hbuf in *. lia.
    + cbn in *. rewrite Hbuf in *. lia.
    + congruence.
    + by intros j [= <-].
    + intros Hcl. destruct (iv_closed0 Hcl) as (_ & _ & ?). congruence.
    + by eapply err_last_suffix.
    + by apply Forall_app in iv_err0 as [_ ?].
    + by apply Forall_app in iv_ended0 as [_ ?].
    + right. split; [done|]. by right.
  - split; cbn; rewrite ?Hc; try done.
    + congruence.
    + by intros j [= <-].
    + right. split; [done|]. by right.
Qed.

Lemma drain_ready_wp rounds (Q : unit -> st -> st -> Prop) :
  (forall s0 s, own s0 s -> draining s -> dead s -> Q tt s0 s) ->
  forall s0 s, own s0 s -> draining s -> WP me (drain_ready rounds) Q s0 s.
Proof.
  intros HQ. induction rounds as [|rounds IH]; intros s0 s Ho Hd; cbn [drain_ready].
  { split; [by apply own_guarantee; [apply Hd|]|]. done. }
  apply wp_bind. split; [by apply own_guarantee; [apply Hd|]|]. intros s1 Hr Hi1 He. destruct Hd as [_ Hmu Hdr How].
  destruct (rely_own s s1 Hr Hmu) as [Ho1 Hh]. injection Hh as H1 _ _ H4 H5 _ _. rewrite Hmu in H1. rewrite How in H4. rewrite Hdr in H5.
  assert (Hd1 : draining s1) by by split. destruct (sb_ready s1) as [|b ready] eqn:Hready; cbn.
  - apply HQ; [done..|]. destruct Hi1. destruct (iv_drain0 _ H5) as [_ ?], iv_exited0 as [? _]. cbn in He. split_and!; congruence.
  - apply IH; [exact Ho1|]. destruct Hi1. destruct (iv_drain0 _ H5) as [_ Hc]. rewrite Hready, Hc in *. cbn in *. split; cbn; try done.
    split; cbn; rewrite ?Hc; cbn; try done.
    + lia.
    + lia.
    + intros Hcl. destruct (iv_closed0 Hcl) as (_ & ? & _). congruence.
    + by apply Forall_cons in iv_bufs0 as [_ ?].
    + by eapply (err_last_suffix [b]).
    + by apply Forall_cons in iv_err0 as [_ ?].
    + by apply Forall_cons in iv_ended0 as [_ ?].
    + right. split; [done|]. right. congruence.
Qed.

Lemma Abandon_wp rounds (Q : unit -> st -> st -> Prop) s0 s : G me s0 s ->
  (forall s0 s, own s0 s -> sb_inv s -> dead s -> Q tt s0 s) -> WP me (Abandon me rounds) Q s0 s.
Proof.
  intros Hg HQ. unfold Abandon. apply wp_bind, StopBuffering_wp; [done|]. clear s0 s Hg. intros _ s0 s Hg.
  apply wp_bind, mu_Lock_wp; [done|]. clear s0 s Hg. intros s0 s Ho Hh. apply wp_bind. cbn [wp modify runs].
  change (set_drain _ _) with (start_drain s). pose proof (start_drain_ok s Hh) as Hd.
  assert (Hod : own s0 (start_drain s)) by (unfold start_drain, put_cur; by destruct (sb_cur s)).
  apply wp_bind, drain_ready_wp; [|done..]. clear s0 s Ho Hh Hd Hod. intros s0 s Ho [[] Hmu Hdr How] Hd. cbn.
  apply HQ; [exact Ho| |exact Hd]. split; cbn; try done.
  - intros _. split_and!; try done. left. apply Hd.
  - right. split; [apply Hd|]. by left.
Qed.

Lemma Close_wp rounds (Q : option error -> st -> st -> Prop) s0 s : G me s0 s ->
  (forall a s0 s, G me s0 s -> Q a s0 s) -> WP me (Close me rounds) Q s0 s.
Proof.
  intros Hg HQ. unfold Close. apply wp_bind, Abandon_wp; [done|]. clear s0 s Hg. intros s0 s Ho Hi Hd.
  apply wp_bind. cbn [wp get runs]. destruct (sb_closed s); [by apply HQ, own_guarantee|].
  apply wp_bind. cbn [wp modify runs]. unfold wp, with_state. cbn. destruct (rc_Close (sb_in s) (sb_w s)) as [err w]. cbn. apply HQ, own_guarantee.
  - destruct Hi. by split.
  - destruct Ho as (Hm & He & Hx & Hb & Hf). split_and!; try done. intros Hx0. destruct Hd as (Hx' & _). congruence.
Qed.

(** *** Skipping *)
Definition fresh (b : buffer) : Prop := is_Some (b_buf b) /\ b_offset b = 0%nat.

Record skips (cur0 : option buffer) (ready0 : list buffer) (puts0 passed0 : nat) (cur : option buffer) (ready : list buffer) (puts passed : nat) : Prop := {
  sk_seq : exists gone, cur_buf cur0 ++ bufs ready0 = gone ++ cur_buf cur ++ bufs ready /\
    (length gone + cur_off cur + passed0 = cur_off cur0 + passed)%nat;
  sk_count : (length ready0 + live cur0 + puts0 = length ready + live cur + puts)%nat;
  sk_errs : exists k, b_err <$> (list_of cur0 ++ ready0) = k ++ (b_err <$> (list_of cur ++ ready));
  sk_fresh : Forall fresh ready;
  sk_off : (cur_off cur <= length (cur_buf cur))%nat;
  sk_live : cur = None \/ live cur = 1%nat;
}.

Lemma skips_trans c0 r0 p0 q0 c1 r1 p1 q1 c2 r2 p2 q2 :
  skips c0 r0 p0 q0 c1 r1 p1 q1 -> skips c1 r1 p1 q1 c2 r2 p2 q2 -> skips c0 r0 p0 q0 c2 r2 p2 q2.
Proof.
  intros [(g1 & Hg1 & Hn1) Hc1 (k1 & Hk1) _ _ _] [(g2 & Hg2 & Hn2) Hc2 (k2 & Hk2) Hf Ho Hl]. split; try done.
  - exists (g1 ++ g2). rewrite Hg1, Hg2, <- app_assoc, length_app. split; [done|lia].
  - lia.
  - exists (k1 ++ k2). by rewrite Hk1, Hk2, <- app_assoc.
Qed.

Lemma isEmpty_contents b buf : b_buf b = Some buf -> (b_offset b <= length buf)%nat -> isEmpty (Some b) = true ->
  length buf = b_offset b.
Proof. intros Hb Ho He. cbn in He. rewrite Hb in He. cbn in He. apply Nat.leb_le in He. lia. Qed.

(** Within the current buffer. *)
Lemma skips_advance b ready puts passed n : is_Some (b_buf b) -> Forall fresh ready ->
  (b_offset b + n <= length (default [] (b_buf b)))%nat ->
  skips (Some b) ready puts passed (Some (increment n b)) ready puts (passed + n).
Proof.
  intros [buf Hb] Hf Hn. split; cbn; rewrite ?Hb in *; cbn in *; try done.
  - exists []. cbn. split; [done|lia].
  - by exists [].
  - by right.
Qed.

(** To the next buffer, or to none. *)
Lemma skips_next b ready puts passed : is_Some (b_buf b) -> Forall fresh ready -> (b_offset b = length (default [] (b_buf b)))%nat ->
  skips (Some b) ready puts passed (head ready) (tail ready) (S puts) passed.
Proof.
  intros [buf Hb] Hf Hn. assert (Htl : Forall fresh (tail ready)) by (destruct ready; [done|by apply Forall_cons in Hf as [_ ?]]).
  destruct ready as [|c ready]; cbn in *; rewrite ?Hb in *; cbn in *.
  - split; cbn; rewrite ?Hb; cbn; try done; [| |by left]; [|by exists [b_err b]].
    exists buf. unfold bufs. cbn. rewrite !app_nil_r. split; [done|lia].
  - apply Forall_cons in Hf as [[[cbuf Hc] Hco] _]. split; cbn; rewrite ?Hb, ?Hc, ?Hco; cbn; try done.
    + exists buf. unfold bufs. cbn. rewrite ?Hc. split; [done|lia].
    + by exists [b_err b].
    + lia.
    + by right.
Qed.

Lemma skip_from_ok ready : forall cur skip puts passed ok cur' ready' puts' passed' err,
  skip_from ready cur skip puts passed = (ok, cur', ready', puts', passed', err) ->
  is_Some (b_buf cur) -> (b_offset cur <= length (default [] (b_buf cur)))%nat -> Forall fresh ready ->
  skips (Some cur) ready puts passed cur' ready' puts' passed' /\
  (forall e, err = Some e -> exists b, cur' = Some b /\ b_err b = Some e /\ isEmpty (Some b) = true).
Proof.
  induction ready as [|b ready IH]; intros cur skip puts passed ok cur' ready' puts' passed' err Hs [buf Hb] Ho Hf; cbn [skip_from] in Hs.
  all: set (n := min (length (contents cur)) skip) in *.
  all: assert (Hn : (b_offset cur + n <= length buf)%nat) by (subst n; unfold contents; rewrite length_drop, Hb in *; cbn in *; lia).
  all: pose proof (skips_advance cur _ puts passed n ltac:(by eexists) Hf ltac:(by rewrite Hb)) as Had.
  all: destruct (Nat.eqb_spec (skip - n) 0) as [Hz|Hz]; [injection Hs as <- <- <- <- <- <-; split; [exact Had|]; intros e He|].
  1,3: exists (increment n cur); change (isEmpty (Some (increment n cur))) with (length (default [] (b_buf cur)) - (b_offset cur + n) <=? 0)%nat;
    destruct (_ <=? 0)%nat; [done|discriminate He].
  all: assert (Hend : (b_offset (increment n cur) = length (default [] (b_buf (increment n cur))))%nat)
    by (subst n; cbn; unfold contents in *; rewrite length_drop, Hb in *; cbn in *; lia).
  all: destruct (b_err (increment n cur)) as [e|] eqn:Hce;
    [injection Hs as <- <- <- <- <- <-; split; [exact Had|]; intros e' [= <-]; eexists; split_and!; [done|done|];
     unfold isEmpty; apply Nat.leb_le; lia|].
  all: pose proof (skips_next (increment n cur) _ puts (passed + n) ltac:(by eexists) Hf Hend) as Hnext.
  - injection Hs as <- <- <- <- <- <-. split; [by eapply skips_trans|done].
  - apply Forall_cons in Hf as [[Hbb Hb0] Hf]. apply IH in Hs as [Hs Herr]; [|done|lia|done]. split; [|done].
    eapply skips_trans; [exact Had|]. by eapply skips_trans.
Qed.

Lemma log_ok_pos log : log_ok content log -> 0 <= log_pos log.
Proof. induction log as [|[d|k|] log IH]; cbn; intros Hl; [done|..]; destruct Hl as [Hl ?]; specialize (IH Hl); lia. Qed.

Lemma held_fresh s : held s -> Forall fresh (sb_ready s).
Proof. intros [[] _ _ _ _]. by apply Forall_app in iv_bufs0 as [? _]. Qed.

Lemma skip_buffers_ok k s ok cur ready puts passed err : held s -> skip_buffers k s = (ok, cur, ready, puts, passed, err) ->
  skips (sb_cur s) (sb_ready s) 0 0 cur ready puts passed /\
  (forall e, err = Some e -> exists b, cur = Some b /\ b_err b = Some e /\ isEmpty (Some b) = true).
Proof.
  intros Hh Hs. pose proof (held_fresh s Hh) as Hf. unfold skip_buffers in Hs. destruct (sb_cur s) as [b|] eqn:Hc.
  - destruct (held_live s b Hh Hc) as [buf Hb]. destruct (held_in_order s b Hh Hc) as (_ & _ & _ & Ho). rewrite Hc in Ho. cbn in Ho. rewrite Hb in Ho. cbn in Ho.
    destruct (isEmpty (Some b)) eqn:He; [|eapply skip_from_ok; [exact Hs|by eexists|by rewrite Hb|done]].
    pose proof (isEmpty_contents b buf Hb Ho He) as Hlen.
    pose proof (skips_next b (sb_ready s) 0 0 ltac:(by eexists) Hf ltac:(by rewrite Hb)) as Hnext. destruct (sb_ready s) as [|c ready0]; [by injection Hs as <- <- <- <- <- <-|].
    apply Forall_cons in Hf as [[Hcb Hc0] Hf]. apply skip_from_ok in Hs as [Hs Herr]; [|done|lia|done]. split; [|done]. by eapply skips_trans.
  - destruct (sb_ready s) as [|c ready0].
    + injection Hs as <- <- <- <- <- <-. split; [|done]. split; try done; [by exists []|by exists []|by left].
    + apply Forall_cons in Hf as [[[cbuf Hcb] Hc0] Hf]. apply skip_from_ok in Hs as [Hs Herr]; [|by eexists|lia|done]. split; [|done].
      eapply skips_trans; [|exact Hs]. split; cbn; rewrite ?Hcb, ?Hc0; try done; cbn; [|lia|by exists []|lia|by right].
      exists []. unfold bufs. cbn. by rewrite ?Hcb.
Qed.

Lemma Forall_errs (P : option error -> Prop) l l' k : b_err <$> l = k ++ (b_err <$> l') ->
  Forall (fun b => P (b_err b)) l -> Forall (fun b => P (b_err b)) l'.
Proof.
  intros He Hl. apply (Forall_fmap b_err P l) in Hl. rewrite He in Hl. apply Forall_app in Hl as [_ Hl]. by apply (Forall_fmap b_err P l') in Hl.
Qed.

Lemma err_last_errs l l' k : b_err <$> l = k ++ (b_err <$> l') -> err_last l -> err_last l'.
Proof.
  intros He Hl. apply fmap_app_inv in He as (m1 & m2 & _ & Hm & ->). eapply err_last_ext; [exact Hm|]. by eapply err_last_suffix.
Qed.

Definition skip_to cur ready puts passed s : st :=
  log_event (Skipped (Z.of_nat passed)) (set_cur cur (set_ready ready (set_out (sb_out s - puts) (set_owed (sb_owed s + puts) s)))).

Lemma skip_to_putting s cur ready puts passed : held s -> sb_err s = None ->
  skips (sb_cur s) (sb_ready s) 0 0 cur ready puts passed -> putting puts (skip_to cur ready puts passed s).
Proof.
  intros [[] Hmu Hdr How _] Herr [(gone & Hseq & Hn) Hcount (k & Hk) Hf Ho Hl].
  assert (Hdead : dead s -> dead (skip_to cur ready puts passed s)).
  { intros (Hx & Hr & Hc). rewrite Hr, Hc in Hcount. cbn in Hcount. split; [done|]. split; cbn.
    - by apply nil_length_inv; lia.
    - destruct Hl as [?|?]; [done|lia]. }
  assert (Hk' : b_err <$> (list_of (sb_cur s) ++ sb_ready s ++ list_of (sb_hand s)) = k ++ (b_err <$> (list_of cur ++ ready ++ list_of (sb_hand s)))).
  { rewrite !app_assoc, !fmap_app. rewrite fmap_app in Hk. rewrite Hk, fmap_app. by rewrite <- !app_assoc. }
  split; cbn; try done; [|lia]. split; cbn; try done.
  - lia.
  - lia.
  - congruence.
  - intros j Hj. congruence.
  - auto.
  - apply Forall_app. split; [exact Hf|]. by apply Forall_app in iv_bufs0 as [_ ?].
  - by eapply err_last_errs.
  - by apply (Forall_errs (fun e => e <> None -> sb_exited s = true) _ _ _ Hk).
  - by apply (Forall_errs (fun e => e = Some io_EOF -> rc_rest (sb_in s) = []) _ _ _ Hk').
  - split; [done|]. pose proof (log_ok_pos _ iv_log0). lia.
  - destruct iv_seq0 as [(past & Hcont & Hp & Hoff)|[Hc [Hd|?]]]; [left|right|congruence].
    + exists (past ++ gone). cbn. rewrite Hcont, (app_assoc (cur_buf (sb_cur s))), Hseq, <- !app_assoc, length_app. split_and!; [done|lia|done].
    + specialize (Hdead Hd). split; [apply Hdead|by left].
  - congruence.
Qed.

Lemma settle_held s n : putting n s -> sb_cur s = None \/ live (sb_cur s) = 1%nat -> held (set_owed 0 s).
Proof.
  intros [[] Hmu Hdr How] Hl. split; try done. split; cbn; try done. lia.
Qed.

Lemma send_tokens_wp n (Q : unit -> st -> st -> Prop) : forall s0 s, own s0 s -> putting n s ->
  (forall s0 s', own s0 s' -> putting 0 s' -> sb_cur s' = sb_cur s -> sb_err s' = sb_err s -> sb_log s' = sb_log s -> Q tt s0 s') ->
  WP me (send_tokens n) Q s0 s.
Proof.
  induction n as [|n IH]; intros s0 s Ho Hp HQ; cbn [send_tokens]; [by apply HQ|].
  apply wp_bind. eapply send_token_wp; [exact Ho|exact Hp|]. intros s1 s2 Ho2 Hp2 Hc He Hl. apply IH; [done..|].
  intros s3 s4 Ho4 Hp4 Hc4 He4 Hl4. apply HQ; congruence || done.
Qed.

(** Back within the current buffer. *)
Lemma back_held s b skip : held s -> sb_cur s = Some b -> sb_err s = None -> skip < 0 -> 0 <= Z.of_nat (b_offset b) + skip ->
  held (log_event (Skipped skip) (set_cur (Some (mkBuffer (b_buf b) (b_err b) (Z.to_nat (Z.of_nat (b_offset b) + skip)))) s)).
Proof.
  intros Hh Hc Herr Hs Hoff. destruct (held_in_order s b Hh Hc) as (past & Hcont & Hp & Ho). destruct (held_live s b Hh Hc) as [buf Hbuf].
  destruct Hh as [[] Hmu Hdr How _]. rewrite Hc in *. cbn in *. rewrite Hbuf in *. cbn in *.
  split; cbn; try done; [|by right]. split; cbn; try done.
  - congruence.
  - intros j Hj. congruence.
  - intros Hcl. destruct (iv_closed0 Hcl) as (_ & _ & ?). congruence.
  - by eapply err_last_ext; [|exact iv_last0].
  - apply Forall_cons in iv_err0 as [? ?]. by constructor.
  - apply Forall_cons in iv_ended0 as [? ?]. by constructor.
  - split; [done|lia].
  - left. exists past. cbn. split_and!; [done|lia|lia].
  - congruence.
Qed.

Lemma SkipBytes_locked_wp skip (Q : bool -> st -> st -> Prop) s0 s : own s0 s -> held s ->
  (forall ok s0 s, own s0 s -> held s -> Q ok s0 s) -> WP me (SkipBytes_locked skip) Q s0 s.
Proof.
  intros Ho Hh HQ. unfold SkipBytes_locked. apply wp_bind. cbn [wp get runs id].
  destruct (bool_decide (sb_err s = None)) eqn:Herr; cbn [negb]; [|by apply HQ]. apply bool_decide_eq_true in Herr.
  destruct (Z.ltb_spec skip 0) as [Hneg|Hpos].
  { destruct (sb_cur s) as [b|] eqn:Hc; [|by apply HQ]. destruct (Z.leb_spec 0 (Z.of_nat (b_offset b) + skip)); [|by apply HQ].
    apply wp_bind. cbn [wp modify runs]. apply HQ; [exact Ho|]. by apply back_held. }
  destruct (_ <=? skip); [by apply HQ|]. apply wp_bind. cbn [wp get runs].
  destruct (skip_buffers (Z.to_nat skip) s) as [[[[[ok cur] ready] puts] passed] err] eqn:Hskip.
  destruct (skip_buffers_ok _ _ _ _ _ _ _ _ Hh Hskip) as [Hsk Hend]. pose proof (sk_live _ _ _ _ _ _ _ _ Hsk) as Hlive.
  pose proof (skip_to_putting s cur ready puts passed Hh Herr Hsk) as Hp. apply wp_bind. cbn [wp modify runs]. change (log_event _ _) with (skip_to cur ready puts passed s).
  assert (Hsettle : forall n s0 s', own s0 s' -> putting n s' -> sb_cur s' = cur ->
    WP me (modify (fun s => set_owed 0 (match err with Some err => set_err (Some err) s | None => s end));; mret ok) Q s0 s').
  { intros n s1 s' Ho' Hp' Hc'. apply wp_bind. cbn [wp modify runs]. rewrite <- Hc' in Hlive. pose proof (settle_held s' n Hp' Hlive) as Hh'.
    destruct err as [err|]; cbn; [|by apply HQ]. destruct (Hend err eq_refl) as (b & Hb & Hbe & He). apply HQ; [exact Ho'|].
    change (set_owed 0 (set_err (Some err) s')) with (set_err (Some err) (set_owed 0 s')). rewrite <- Hbe. apply set_err_held; [done| |done]. cbn. congruence. }
  apply wp_bind. destruct ok; [|by eapply Hsettle].
  eapply send_tokens_wp; [exact Ho|exact Hp|]. intros s1 s2 Ho2 Hp2 Hc2 _ _. by eapply Hsettle.
Qed.

Lemma SkipBytes_wp rounds skip (Q : bool -> st -> st -> Prop) s0 s : G me s0 s -> (forall a s0 s, G me s0 s -> Q a s0 s) ->
  WP me (SkipBytes me rounds skip) Q s0 s.
Proof.
  intros Hg HQ. unfold SkipBytes. apply wp_bind, mu_Lock_wp; [done|]. clear s0 s Hg. intros s0 s Ho Hh.
  apply wp_bind, SkipBytes_locked_wp; [done..|]. clear s0 s Ho Hh. intros ok s0 s Ho Hh.
  apply wp_bind, mu_Unlock_wp; [done..|]. clear s0 s Ho Hh. intros s0 s Hg. apply wp_bind. destruct ok; [by apply HQ|].
  apply Abandon_wp; [done|]. intros s1 s' Ho Hi _. by apply HQ, own_guarantee.
Qed.

Lemma run_op_wp op (Q : unit -> st -> st -> Prop) s0 s : G me s0 s -> (forall a s0 s, G me s0 s -> Q a s0 s) ->
  WP me (run_op me op) Q s0 s.
Proof.
  intros Hg HQ. destruct op; cbn [run_op].
  - apply wp_bind, Read_wp; [done|]. intros. by apply HQ.
  - apply wp_bind. unfold WriteTo. apply wp_bind, mu_Lock_wp; [done|]. intros. apply WriteTo_loop_wp; [|done..]. intros. by apply HQ.
  - apply wp_bind, SkipBytes_wp; [done|]. intros. by apply HQ.
  - by apply StopBuffering_wp.
  - apply Abandon_wp; [done|]. intros. by apply HQ, own_guarantee.
  - apply wp_bind, Close_wp; [done|]. intros. by apply HQ.
Qed.

Lemma run_ops_wp ops : forall s0 s, G me s0 s -> WP me (run_ops me ops) (fun _ s0 s => G me s0 s) s0 s.
Proof.
  induction ops as [|op ops IH]; intros s0 s Hg; cbn [run_ops]; [done|].
  apply wp_bind, run_op_wp; [done|]. intros _ s1 s2 Hg2. by apply IH.
Qed.

End client.

(** ** All together *)
Lemma init_inv rd w sink choice : rc_rest rd = content -> sb_inv (init rd w buffers sink choice).
Proof.
  intros Hr. split; cbn; try done.
  - lia.
  - intros _. split; [done|]. split; [done|by left].
  - by intros l1 b l2 Hl; destruct l1.
  - left. exists []. cbn. by rewrite Hr.
Qed.

Lemma goroutines_sound rounds clients s i p : sb_inv s -> sb_exited s = false -> sb_hand s = None ->
  reader_goroutines rounds clients !! i = Some p -> sound sb_inv rely i (fun _ => True) p s.
Proof.
  intros Hi Hx Hh. unfold reader_goroutines. destruct i as [|i]; intros Hp.
  - injection Hp as <-. intros s1 Hr Hi1 _. destruct Hr as (_ & _ & _ & Hf & _). specialize (Hf eq_refl Hx). unfold filler_state in Hf.
    assert (Hs1 : filling s1) by (split; [done|split; congruence]).
    assert (Hg : G 0 s1 s1) by (split; [done|]; intros; apply rely_refl).
    pose proof (fill_buffers_ok rounds s1 s1 Hg Hs1) as Hwp. unfold wp in Hwp. destruct (fill_buffers rounds s1) as [s2 p2].
    eapply runs_mono; [|exact Hwp]. done.
  - rewrite lookup_cons_ne_0 in Hp by done. cbn [pred] in Hp. rewrite list_lookup_imap in Hp. destruct (clients !! i) as [ops|]; [|done]. injection Hp as <-.
    apply sound_with_lock. clear s Hi Hx Hh. intros s Hi. eapply wp_mono; [|apply run_ops_wp; [done|]].
    + done.
    + split; [done|]. intros. apply rely_refl.
Qed.

Lemma reader_reachable rd w sink choice rounds clients c : rc_rest rd = content ->
  rtc par_step (init rd w buffers sink choice, reader_goroutines rounds clients) c -> sb_inv (fst c).
Proof.
  intros Hr Hc. eapply (par_rely sb_inv rely rely_refl rely_trans _ c (fun _ _ => True)); [done|exact Hc|by apply init_inv|].
  intros i p Hp. eapply goroutines_sound; [by apply init_inv|done..|exact Hp].
Qed.
End invariant.

(** The bytes handed out. *)
Fixpoint log_bytes (log : list event) : list byte :=
  match log with
  | [] => []
  | Got d :: log => log_bytes log ++ d
  | _ :: log => log_bytes log
  end.
Definition is_skip (e : event) : bool := match e with Skipped _ => true | _ => false end.

Lemma log_ok_prefix content log : log_ok content log -> existsb is_skip log = false ->
  log_pos log = Z.of_nat (length (log_bytes log)) /\ log_bytes log `prefix_of` content /\ (Eof ∈ log -> log_bytes log = content).
Proof.
  induction log as [|e log IH]; cbn; [intros; split_and!; [done|apply prefix_nil|set_solver]|].
  intros [Hl He] Hs. apply orb_false_iff in Hs as [Hse Hs]. destruct (IH Hl Hs) as (Hp & [k Hk] & Hend). destruct e as [d|?|]; cbn in *; [|done|].
  - assert (Hpre : log_bytes log ++ d `prefix_of` content).
    { exists (drop (length d) k). rewrite He, Hk. rewrite <- app_assoc. f_equal. unfold slice. rewrite Hp.
      replace (Z.to_nat (_ - _)) with (length d) by lia. rewrite Nat2Z.id, drop_app_length.
      assert (Hle : (length d <= length k)%nat).
      { rewrite He, Hk. unfold slice. rewrite Hp, Nat2Z.id, drop_app_length, length_take. lia. }
      rewrite length_take, Nat.min_l by done. by rewrite take_drop. }
    rewrite length_app. split_and!; [lia|done|]. intros Hin. apply elem_of_cons in Hin as [Hin|Hin]; [done|]. specialize (Hend Hin).
    rewrite Hend in *. destruct Hpre as [k2 Hk2]. assert (d = []) as -> by (apply (f_equal length) in Hk2; rewrite !length_app in Hk2; destruct d; [done|cbn in *; lia]).
    by rewrite app_nil_r.
  - split_and!; [done|by exists k|]. intros _. assert (length k = 0%nat) by (rewrite Hk, length_app in He; lia).
    apply nil_length_inv in H. rewrite Hk, H. by rewrite app_nil_r.
Qed.

Lemma log_ends log : existsb (fun e => match e with Eof => true | _ => false end) log = true -> Eof ∈ log.
Proof. intros Hl. apply existsb_exists in Hl as ([| |] & Hin & He); try done. by apply list_elem_of_In. Qed.

(** ** Theorems *)

(** C20. streambuf_delivers_in_order: whatever the goroutines that read, copy,
    skip, stop, abandon and close the stream, and however they and the filling
    goroutine interleave, what is handed out is at every moment the stream's own
    bytes at the position reached, the end is reported at the end only, and
    without skips the bytes handed out are the beginning of the stream, the whole
    of it once the end has been reported. *)
Theorem streambuf_delivers_in_order {W R} `{ReaderProgress W R} `{!ReaderOK W R} (rd : R) (w : W) n sink choice s rounds clients c :
  New rd w n sink choice = inr s -> rtc par_step (s, reader_goroutines rounds clients) c ->
  log_ok (rc_rest rd) (sb_log (fst c)) /\
  (existsb is_skip (sb_log (fst c)) = false ->
   log_bytes (sb_log (fst c)) `prefix_of` rc_rest rd /\ (Eof ∈ sb_log (fst c) -> log_bytes (sb_log (fst c)) = rc_rest rd)).
Proof.
  unfold New. destruct (n <=? 0); [done|]. intros [= <-] Hc. apply (reader_reachable (rc_rest rd)) in Hc; [|done].
  destruct Hc. split; [done|]. intros Hs. by destruct (log_ok_prefix _ _ iv_log0 Hs) as (_ & ? & ?).
Qed.

(** C22. streambuf_buffers_are_accounted: in every interleaving at most [buffers]
    buffers are out of the pool, the tokens and the buffers in flight never
    exceed what the channels hold, so that no send waits (the filling goroutine
    always finds room for the buffer in its hand, a consumer for the token of a
    buffer it has put), and once [Close] has closed the stream every buffer is
    back in the pool. *)
Theorem streambuf_buffers_are_accounted {W R} `{ReaderProgress W R} `{!ReaderOK W R} (rd : R) (w : W) n sink choice s rounds clients c :
  New rd w n sink choice = inr s -> rtc par_step (s, reader_goroutines rounds clients) c ->
  let s := fst c in
  (sb_out s <= Z.to_nat n)%nat /\ (sb_token s + sb_owed s + sb_out s <= sb_buffers s)%nat /\
  (sb_hand s <> None -> (length (sb_ready s) < sb_buffers s)%nat) /\ ((0 < sb_owed s)%nat -> (sb_token s < sb_buffers s)%nat) /\
  (sb_inClosed s = true -> sb_out s = 0%nat).
Proof.
  unfold New. destruct (n <=? 0); [done|]. intros [= <-] Hc. apply (reader_reachable (rc_rest rd)) in Hc; [|done]. cbn zeta.
  destruct Hc. rewrite iv_buffers0 in *. split_and!.
  - lia.
  - lia.
  - destruct (sb_hand (fst c)); cbn in *; [lia|done].
  - lia.
  - intros Hcl. destruct (iv_closed0 Hcl) as (Hx & Hr & Hcur), iv_exited0 as [_ Hh]. by rewrite iv_out0, Hr, Hcur, (Hh Hx).
Qed.

(** ** A run

    A stream of 5,000 bytes, two buffers, a consumer that reads it to the end and
    closes it. *)
Definition stream_demo : list byte := replicate 5000 x61.
Definition stream_start : Reader script (list byte) := init stream_demo (mkScript [(1000%nat, None)]) 2 [] [].
Definition stream_goroutines : list (proc (Reader script (list byte)) unit) :=
  reader_goroutines 5 [[OpRead 3000; OpRead 3000; OpRead 3000; OpClose 5]].
Definition stream_end : par (Reader script (list byte)) :=
  par_exec (concat (replicate 20 [0; 1]%nat)) (stream_start, stream_goroutines).

Lemma stream_reaches : rtc par_step (stream_start, stream_goroutines) stream_end.
Proof. exact (par_exec_steps (concat (replicate 20 [0; 1]%nat)) (stream_start, stream_goroutines)). Qed.

Lemma streambuf_delivers_in_order_witness :
  (log_ok (rc_rest stream_demo) (sb_log (fst stream_end)) /\
   (existsb is_skip (sb_log (fst stream_end)) = false ->
    log_bytes (sb_log (fst stream_end)) `prefix_of` rc_rest stream_demo /\
    (Eof ∈ sb_log (fst stream_end) -> log_bytes (sb_log (fst stream_end)) = rc_rest stream_demo))) /\
  existsb is_skip (sb_log (fst stream_end)) = false /\ Eof ∈ sb_log (fst stream_end).
Proof.
  split; [exact (streambuf_delivers_in_order stream_demo (mkScript [(1000%nat, None)]) 2 [] [] stream_start 5
    [[OpRead 3000; OpRead 3000; OpRead 3000; OpClose 5]] stream_end eq_refl stream_reaches)|].
  split; [vm_compute; reflexivity|]. apply log_ends. vm_compute. reflexivity.
Defined.

Lemma streambuf_buffers_are_accounted_witness :
  (let s := fst stream_end in
   (sb_out s <= Z.to_nat 2)%nat /\ (sb_token s + sb_owed s + sb_out s <= sb_buffers s)%nat /\
   (sb_hand s <> None -> (length (sb_ready s) < sb_buffers s)%nat) /\ ((0 < sb_owed s)%nat -> (sb_token s < sb_buffers s)%nat) /\
   (sb_inClosed s = true -> sb_out s = 0%nat)) /\ sb_inClosed (fst stream_end) = true.
Proof.
  split; [exact (streambuf_buffers_are_accounted stream_demo (mkScript [(1000%nat, None)]) 2 [] [] stream_start 5
    [[OpRead 3000; OpRead 3000; OpRead 3000; OpClose 5]] stream_end eq_refl stream_reaches)|].
  vm_compute. reflexivity.
Defined.
