(* ===== verification/Parallel.v ===== *)
(** * The parallel chunk reader (src/internal/engine/chunkstream/parallel.go)

    An object is read through several ranged streams at once, each filled by a
    goroutine of its own and read in the order of the offsets.  A place where a
    goroutine waits (for the mutex, for more bytes, for a stream to stop) or reads
    from the origin ends a section; between two of them it runs alone.

    The paged buffer of a stream is the byte string with a position that
    [ReadWriter] refines ([st_data], [st_out]); the pool is taken to have pages, of
    [BufferSize] bytes.  That whoever waits for more bytes is woken, sooner or
    later and perhaps for nothing, is all that is used of [WaitWrite]. *)
From stdpp Require Import base numbers list relations strings.
From Stdlib Require Import ZArith Lia Init.Byte.
From S2P Require Import Prelude.
From S2P Require Import GoIO.
From S2P Require Import ObjectIO.
From S2P Require Import Sequential.
From S2P Require Import Interleave.

Local Open Scope Z_scope.
Local Open Scope go_scope.
Local Open Scope list_scope.

(** ** State *)

(** [st_data], [st_out] and [st_closed] are [rw]: what has been stored, the position
    of the reads, whether it is closed; [st_err] is what is in the channel [err],
    [st_done] that something has been sent on it. *)
Record stream (R : Type) := mkStream {
  st_offset : Z;
  st_size : Z;
  st_readBytes : Z;
  st_data : list byte;
  st_out : nat;
  st_rc : option (RetryReader R);
  st_err : option (option error);
  st_done : bool;
  st_cancelled : bool;
  st_closed : bool;
}.
Arguments mkStream {R}.
Arguments st_offset {R}. Arguments st_size {R}. Arguments st_readBytes {R}. Arguments st_data {R}.
Arguments st_out {R}. Arguments st_rc {R}. Arguments st_err {R}. Arguments st_done {R}.
Arguments st_cancelled {R}. Arguments st_closed {R}.

(** [pl_heap] are all streams ever made, [pl_streams] those of [cr.streams];
    [pl_ctxErr] is [cr.ctx.Err()], [pl_mu] who holds the mutex, [pl_choice] whether
    a read of the origin notices that its context has been cancelled.  [pl_log]
    is what the calls have answered, latest first. *)
Inductive event :=
| DidRead (n : nat) (d : list byte) (err : option error)
| DidSeek (offset whence : Z) (pos : Z) (err : option error).

Record parallel (W : Type) (R : Type) := mkParallel {
  pl_w : W;
  pl_chunkSize : Z;
  pl_nstreams : Z;
  pl_endStream : Z;
  pl_offset : Z;
  pl_streams : list nat;
  pl_heap : list (stream R);
  pl_closed : bool;
  pl_ctxErr : option error;
  pl_mu : option nat;
  pl_choice : list bool;
  pl_log : list event;
}.
Arguments mkParallel {W R}.
Arguments pl_w {W R}. Arguments pl_chunkSize {W R}. Arguments pl_nstreams {W R}. Arguments pl_endStream {W R}.
Arguments pl_offset {W R}. Arguments pl_streams {W R}. Arguments pl_heap {W R}. Arguments pl_closed {W R}.
Arguments pl_ctxErr {W R}. Arguments pl_mu {W R}. Arguments pl_choice {W R}. Arguments pl_log {W R}.

Section setters.
Context {W R : Type}.
Definition st_set_readBytes (v : Z) (s : stream R) : stream R :=
  mkStream (st_offset s) (st_size s) v (st_data s) (st_out s) (st_rc s) (st_err s) (st_done s) (st_cancelled s) (st_closed s).
Definition st_set_data (v : list byte) (s : stream R) : stream R :=
  mkStream (st_offset s) (st_size s) (st_readBytes s) v (st_out s) (st_rc s) (st_err s) (st_done s) (st_cancelled s) (st_closed s).
Definition st_set_out (v : nat) (s : stream R) : stream R :=
  mkStream (st_offset s) (st_size s) (st_readBytes s) (st_data s) v (st_rc s) (st_err s) (st_done s) (st_cancelled s) (st_closed s).
Definition st_set_rc (v : option (RetryReader R)) (s : stream R) : stream R :=
  mkStream (st_offset s) (st_size s) (st_readBytes s) (st_data s) (st_out s) v (st_err s) (st_done s) (st_cancelled s) (st_closed s).
Definition st_set_err (v : option (option error)) (s : stream R) : stream R :=
  mkStream (st_offset s) (st_size s) (st_readBytes s) (st_data s) (st_out s) (st_rc s) v (st_done s) (st_cancelled s) (st_closed s).
Definition st_set_done (v : bool) (s : stream R) : stream R :=
  mkStream (st_offset s) (st_size s) (st_readBytes s) (st_data s) (st_out s) (st_rc s) (st_err s) v (st_cancelled s) (st_closed s).
Definition st_set_cancelled (v : bool) (s : stream R) : stream R :=
  mkStream (st_offset s) (st_size s) (st_readBytes s) (st_data s) (st_out s) (st_rc s) (st_err s) (st_done s) v (st_closed s).
Definition st_set_closed (v : bool) (s : stream R) : stream R :=
  mkStream (st_offset s) (st_size s) (st_readBytes s) (st_data s) (st_out s) (st_rc s) (st_err s) (st_done s) (st_cancelled s) v.
Definition pl_set_w (v : W) (s : parallel W R) : parallel W R :=
  mkParallel v (pl_chunkSize s) (pl_nstreams s) (pl_endStream s) (pl_offset s) (pl_streams s) (pl_heap s) (pl_closed s) (pl_ctxErr s) (pl_mu s) (pl_choice s) (pl_log s).
Definition pl_set_endStream (v : Z) (s : parallel W R) : parallel W R :=
  mkParallel (pl_w s) (pl_chunkSize s) (pl_nstreams s) v (pl_offset s) (pl_streams s) (pl_heap s) (pl_closed s) (pl_ctxErr s) (pl_mu s) (pl_choice s) (pl_log s).
Definition pl_set_offset (v : Z) (s : parallel W R) : parallel W R :=
  mkParallel (pl_w s) (pl_chunkSize s) (pl_nstreams s) (pl_endStream s) v (pl_streams s) (pl_heap s) (pl_closed s) (pl_ctxErr s) (pl_mu s) (pl_choice s) (pl_log s).
Definition pl_set_streams (v : list nat) (s : parallel W R) : parallel W R :=
  mkParallel (pl_w s) (pl_chunkSize s) (pl_nstreams s) (pl_endStream s) (pl_offset s) v (pl_heap s) (pl_closed s) (pl_ctxErr s) (pl_mu s) (pl_choice s) (pl_log s).
Definition pl_set_heap (v : list (stream R)) (s : parallel W R) : parallel W R :=
  mkParallel (pl_w s) (pl_chunkSize s) (pl_nstreams s) (pl_endStream s) (pl_offset s) (pl_streams s) v (pl_closed s) (pl_ctxErr s) (pl_mu s) (pl_choice s) (pl_log s).
Definition pl_set_closed (v : bool) (s : parallel W R) : parallel W R :=
  mkParallel (pl_w s) (pl_chunkSize s) (pl_nstreams s) (pl_endStream s) (pl_offset s) (pl_streams s) (pl_heap s) v (pl_ctxErr s) (pl_mu s) (pl_choice s) (pl_log s).
Definition pl_set_ctxErr (v : option error) (s : parallel W R) : parallel W R :=
  mkParallel (pl_w s) (pl_chunkSize s) (pl_nstreams s) (pl_endStream s) (pl_offset s) (pl_streams s) (pl_heap s) (pl_closed s) v (pl_mu s) (pl_choice s) (pl_log s).
Definition pl_set_mu (v : option nat) (s : parallel W R) : parallel W R :=
  mkParallel (pl_w s) (pl_chunkSize s) (pl_nstreams s) (pl_endStream s) (pl_offset s) (pl_streams s) (pl_heap s) (pl_closed s) (pl_ctxErr s) v (pl_choice s) (pl_log s).
Definition pl_set_choice (v : list bool) (s : parallel W R) : parallel W R :=
  mkParallel (pl_w s) (pl_chunkSize s) (pl_nstreams s) (pl_endStream s) (pl_offset s) (pl_streams s) (pl_heap s) (pl_closed s) (pl_ctxErr s) (pl_mu s) v (pl_log s).
Definition pl_set_log (v : list event) (s : parallel W R) : parallel W R :=
  mkParallel (pl_w s) (pl_chunkSize s) (pl_nstreams s) (pl_endStream s) (pl_offset s) (pl_streams s) (pl_heap s) (pl_closed s) (pl_ctxErr s) (pl_mu s) (pl_choice s) v.
End setters.

Section parallel_reader.
Context {W R : Type} `{Object W R} (isNoLowLevelRetryError : error -> bool) (ctx : option Config) (bufferpool_BufferSize : Z).
Notation st := (parallel W R).
Implicit Types s : st.

(** [newParallel]: the size of the chunks, a multiple of the buffer size. *)
Definition newParallel (w : W) (chunkSize nstreams : Z) (choice : list bool) : st :=
  let chunkSize := if chunkSize <? 0 then bufferpool_BufferSize else chunkSize in
  let newChunkSize := bufferpool_BufferSize *! (chunkSize ÷ bufferpool_BufferSize) in
  let newChunkSize := if newChunkSize <? chunkSize then newChunkSize +! bufferpool_BufferSize else newChunkSize in
  mkParallel w newChunkSize nstreams 0 0 [] [] false None None choice [].

(** [New] (chunkstream/reader.go): which reader an object gets. *)
Definition New (w : W) (initialChunkSize maxChunkSize streams : Z) (choice : list bool) : sequential R + st :=
  let initialChunkSize := if initialChunkSize <=? 0 then -1 else initialChunkSize in
  let maxChunkSize := if negb (maxChunkSize =? -1) && (maxChunkSize <? initialChunkSize) then initialChunkSize else maxChunkSize in
  let streams := if streams <? 0 then 0 else streams in
  if (streams <=? 1) || (obj_Size <? 0) then inl (newSequential initialChunkSize maxChunkSize)
  else inr (newParallel w initialChunkSize streams choice).

Definition on_stream (i : nat) (f : stream R -> stream R) s : st := pl_set_heap (alter f i (pl_heap s)) s.
Definition wait_until (enabled : st -> bool) : locked st unit := fun s => (s, Step enabled (fun s => (s, Done tt))).
(** What never goes on. *)
Definition stuck {A} (a : A) : locked st A := fun s => (s, Step (fun _ => false) (fun s => (s, Done a))).

(** ** The goroutine of a stream *)

(** Whether an operation on the origin fails because the stream's context is done. *)
Definition ctx_Err (i : nat) s : option error :=
  match pl_heap s !! i with
  | Some x => if st_cancelled x then Some context_Canceled else pl_ctxErr s
  | None => None
  end.
Definition notices_cancel (i : nat) : locked st (option error) :=
  with_state (fun s => (if default false (head (pl_choice s)) then ctx_Err i s else None, pl_set_choice (drop 1 (pl_choice s)) s)).

(** [s.err <- err]. *)
Definition send_err (i : nat) (err : option error) : locked st unit := modify (on_stream i (fun x => st_set_done true (st_set_err (Some err) x))).

Definition stream_get {A} (i : nat) (f : stream R -> A) (dflt : A) s : A := match pl_heap s !! i with Some x => f x | None => dflt end.

(** The room in the last page. *)
Definition page_room (stored : nat) : nat := Z.to_nat (bufferpool_BufferSize - Z.of_nat stored mod bufferpool_BufferSize).
Definition retry_fuel (room : nat) : nat := room + Z.to_nat (LowLevelRetries (GetConfig ctx)) + 2.

(** [r.Read(page)] and the bookkeeping of [ReadFrom]: the error of the read. *)
Definition read_page (i : nat) : locked st (option error) := fun s =>
  match pl_heap s !! i with
  | Some x =>
      match st_rc x with
      | Some h =>
          let room := page_room (length (st_data x)) in
          match RetryReader_Read isNoLowLevelRetryError (retry_fuel room) room h (pl_w s) with
          | Ret (d, err, h, w) => (on_stream i (fun x => st_set_data (st_data x ++ d) (st_set_rc (Some h) x)) (pl_set_w w s), Done err)
          | _ => stuck None s
          end
      | None => stuck None s
      end
  | None => stuck None s
  end.

(** [s.rw.ReadFrom(s.rc)], a page per round. *)
Fixpoint ReadFrom_loop (rounds i : nat) : locked st (option error) :=
  match rounds with
  | 0%nat => stuck None
  | S rounds =>
      wait_until (fun _ => true);;
      cancel ← notices_cancel i;
      match cancel with
      | Some err => mret (Some err)
      | None =>
          err ← read_page i;
          match err with
          | None => ReadFrom_loop rounds i
          | Some err => mret (if bool_decide (err = io_EOF) then None else Some err)
          end
      end
  end.
Definition ReadFrom (rounds i : nat) : locked st (option error) :=
  closed ← get (stream_get i st_closed false);
  if (closed : bool) then mret (Some io_ErrClosedPipe) else ReadFrom_loop rounds i.

Definition readFrom (rounds i : nat) : locked st unit :=
  cancel ← notices_cancel i;
  match cancel with
  | Some err => send_err i (Some (Wrap "parallel chunked reader: failed to open stream" err))
  | None =>
    res ← with_state (fun s =>
      match pl_heap s !! i with
      | Some x =>
          let '(res, w) := OpenRetrying ctx (Some (mkSpan (st_offset x) (st_offset x +! st_size x -! 1))) (pl_w s) in
          (res, pl_set_w w s)
      | None => (inl (Errorf "no stream"), s)
      end);
    match res with
    | inl err => send_err i (Some (Wrap "parallel chunked reader: failed to open stream" err))
    | inr rc =>
        modify (on_stream i (st_set_rc (Some rc)));;
        err ← ReadFrom rounds i;
        send_err i err
    end
  end.

(** It runs once its stream has been made. *)
Definition stream_goroutine (rounds i : nat) : proc st unit := Step (fun s => (i <? length (pl_heap s))%nat) (readFrom rounds i).

(** ** Streams *)
Definition newStream (offset size : Z) s : nat * st :=
  (length (pl_heap s), pl_set_heap (pl_heap s ++ [mkStream offset size 0 [] 0 None None false false false]) s).

Definition eof (i : nat) s : bool := stream_get i st_size 0 s <=? stream_get i st_readBytes 0 s.

(** [s.rw.Read(p)], [n] what is left of [p]: the bytes and the error. *)
Definition rw_Read (i n : nat) : locked st (list byte * option error) :=
  with_state (fun s =>
    if stream_get i st_closed true s then (([], Some io_ErrClosedPipe), s)
    else
      let d := stream_get i (fun x => take n (drop (st_out x) (st_data x))) [] s in
      ((d, if (length d <? n)%nat then Some io_EOF else None), on_stream i (fun x => st_set_out (st_out x + length d) x) s)).

(** [rounds] of the loop. *)
Fixpoint stream_read_loop (rounds i n : nat) (acc : list byte) : locked st (list byte * option error) :=
  match rounds with
  | 0%nat => stuck (acc, None)
  | S rounds =>
      '(d, readErr) ← rw_Read i (n - length acc);
      modify (on_stream i (fun x => st_set_readBytes (st_readBytes x +! Z.of_nat (length d)) x));;
      let acc := acc ++ d in
      match (match readErr with Some err => if bool_decide (err = io_EOF) then None else Some err | None => None end) with
      | Some err => mret (acc, Some err)
      | None =>
          ended ← get (eof i);
          if (ended : bool) then mret (acc, Some io_EOF)
          else if (n <=? length acc)%nat then mret (acc, None)
          else
            wait_until (fun _ => true);;
            err ← get (ctx_Err i);
            match err with Some err => mret (acc, Some err) | None => stream_read_loop rounds i n acc end
      end
  end.
Definition stream_read (rounds i n : nat) : locked st (list byte * option error) :=
  if (n =? 0)%nat then mret ([], None) else stream_read_loop rounds i n [].

Definition orErr (perr newErr : option error) : option error := match perr with None => newErr | Some _ => perr end.

Definition stream_close (i : nat) : locked st (option error) :=
  modify (on_stream i (st_set_cancelled true));;
  wait_until (stream_get i (fun x => bool_decide (is_Some (st_err x))) false);;
  err ← with_state (fun s => (stream_get i (fun x => default None (st_err x)) None s, on_stream i (st_set_err None) s));
  modify (on_stream i (st_set_closed true));;
  closeErr ← with_state (fun s =>
    match stream_get i st_rc None s with
    | Some h => let '(err, h, w) := RetryReader_Close h (pl_w s) in (err, on_stream i (st_set_rc (Some h)) (pl_set_w w s))
    | None => (None, s)
    end);
  let err := orErr err closeErr in
  mret (match err with
        | None => None
        | Some e =>
            if errors_Is e context_Canceled then Some ErrorStreamAbandoned
            else if bool_decide (e = io_EOF) then None
            else Some (Wrap "parallel chunked reader: failed to read stream" e)
        end).

(** ** The reader *)

(** [n] more streams, up to the end of the object. *)
Fixpoint open_streams (n : nat) s : st :=
  match n with
  | 0%nat => s
  | S n =>
      let chunkSize := pl_chunkSize s in
      let newEndStream := pl_endStream s +! chunkSize in
      let '(chunkSize, newEndStream) :=
        if obj_Size <? newEndStream then (obj_Size -! pl_endStream s, pl_endStream s +! (obj_Size -! pl_endStream s)) else (chunkSize, newEndStream) in
      let '(i, s) := newStream (pl_endStream s) chunkSize s in
      let s := pl_set_endStream newEndStream (pl_set_streams (pl_streams s ++ [i]) s) in
      if obj_Size <=? pl_endStream s then s else open_streams n s
  end.

Definition _open : locked st (option error) :=
  with_state (fun s =>
    if obj_Size <? 0 then (Some (Errorf "parallel chunked reader: can't use multiple threads for unknown sized object"), s)
    else if obj_Size <=? pl_endStream s then (None, s)
    else (None, open_streams (Z.to_nat (pl_nstreams s - Z.of_nat (length (pl_streams s)))) s)).

Definition _popStream : locked st (option error) :=
  streams ← get pl_streams;
  match streams with
  | [] => mret None
  | i :: _ =>
      err ← stream_close i;
      modify (fun s => pl_set_streams (tail (pl_streams s)) s);;
      mret err
  end.

(** [rounds]: one for each stream, and one more. *)
Fixpoint popStreams_loop (rounds : nat) (err : option error) : locked st (option error) :=
  match rounds with
  | 0%nat => mret err
  | S rounds =>
      streams ← get pl_streams;
      match streams with
      | [] => mret err
      | _ => newErr ← _popStream; popStreams_loop rounds (orErr err newErr)
      end
  end.
Definition _popStreams : locked st (option error) :=
  rounds ← get (fun s => length (pl_streams s));
  err ← popStreams_loop rounds None;
  modify (pl_set_streams []);;
  mret err.

Section methods.
Context (me : nat).
Definition mu_Lock : locked st unit := fun s => (s, Step (fun s => bool_decide (pl_mu s = None)) (fun s => (pl_set_mu (Some me) s, Done tt))).
Definition mu_Unlock : locked st unit := modify (pl_set_mu None).

Definition log_event (e : event) s : st := pl_set_log (e :: pl_log s) s.

Fixpoint Read_loop (rounds n : nat) (acc : list byte) : locked st (list byte * option error) :=
  match rounds with
  | 0%nat => stuck (acc, None)
  | S rounds =>
      if (n <=? length acc)%nat then mret (acc, None)
      else
        err ← _open;
        match err with
        | Some err => mret (acc, Some err)
        | None =>
            streams ← get pl_streams;
            match streams with
            | [] => mret (acc, Some io_EOF)
            | i :: _ =>
                '(d, readErr) ← stream_read rounds i (n - length acc);
                modify (fun s => pl_set_offset (pl_offset s +! Z.of_nat (length d)) s);;
                let acc := acc ++ d in
                match readErr with
                | Some err =>
                    if bool_decide (err = io_EOF) then
                      err ← _popStream;
                      match err with Some err => mret (acc, Some err) | None => Read_loop rounds n acc end
                    else mret (acc, Some err)
                | None => Read_loop rounds n acc
                end
            end
        end
  end.

Definition Read (rounds n : nat) : locked st (list byte * option error) :=
  mu_Lock;;
  closed ← get pl_closed;
  res ← (if (closed : bool) then mret ([], Some ErrorFileClosed)
    else
      res ← Read_loop rounds n [];
      modify (log_event (DidRead n (fst res) (snd res)));;
      mret res);
  mu_Unlock;; mret res.

Definition Close : locked st (option error) :=
  mu_Lock;;
  closed ← get pl_closed;
  if (closed : bool) then mu_Unlock;; mret (Some ErrorFileClosed)
  else
    modify (pl_set_closed true);;
    err ← _popStreams;
    mu_Unlock;; mret err.

(** The streams before [newOffset] go; [rounds]: one for each stream. *)
Fixpoint pop_before (rounds : nat) (newOffset : Z) : locked st unit :=
  match rounds with
  | 0%nat => mret tt
  | S rounds =>
      streams ← get pl_streams;
      match streams with
      | [] => mret tt
      | i :: _ =>
          ends ← get (stream_get i (fun x => st_offset x +! st_size x) 0);
          if ends <=? newOffset then _popStream;; pop_before rounds newOffset else mret tt
      end
  end.

(** [for stream.rw.Size() < streamOffset { stream.rw.WaitWrite(cr.ctx) }] *)
Fixpoint wait_stored (rounds i : nat) (streamOffset : Z) : locked st unit :=
  match rounds with
  | 0%nat => stuck tt
  | S rounds =>
      stored ← get (stream_get i (fun x => Z.of_nat (length (st_data x))) 0);
      if stored <? streamOffset then wait_until (fun _ => true);; wait_stored rounds i streamOffset else mret tt
  end.

Definition rw_Seek (i : nat) (offset : Z) : locked st (option error) :=
  with_state (fun s =>
    if stream_get i (fun x => Z.of_nat (length (st_data x))) 0 s <? offset then (Some errSeekPastEnd, s)
    else (None, on_stream i (st_set_out (Z.to_nat offset)) s)).

(** Once [cr.offset] has been set. *)
Definition seek_streams (rounds : nat) (newOffset : Z) : locked st (option error) :=
  count ← get (fun s => length (pl_streams s));
  pop_before count newOffset;;
  streams ← get pl_streams;
  match streams with
  | [] => modify (fun s => pl_set_endStream (pl_offset s) s);; mret None
  | i :: _ =>
      start ← get (stream_get i st_offset 0);
      if newOffset <? start then
        _popStreams;;
        modify (fun s => pl_set_endStream (pl_offset s) s);; mret None
      else
        let streamOffset := newOffset -! start in
        modify (on_stream i (st_set_readBytes streamOffset));;
        wait_stored rounds i streamOffset;;
        err ← rw_Seek i streamOffset;
        mret (match err with Some err => Some (Wrap "parallel chunked reader: failed to seek stream" err) | None => None end)
  end.

Definition Seek_locked (rounds : nat) (offset whence : Z) : locked st (Z * option error) :=
  current ← get pl_offset;
  let newOffset := (if whence =? io_SeekStart then 0 else if whence =? io_SeekEnd then obj_Size else current) +! offset in
  if (newOffset <? 0) || (obj_Size <=? newOffset) then mret (0, Some ErrorInvalidSeek)
  else if newOffset =? current then mret (current, None)
  else
    modify (pl_set_offset newOffset);;
    err ← seek_streams rounds newOffset;
    mret (newOffset, err).

Definition Seek (rounds : nat) (offset whence : Z) : locked st (Z * option error) :=
  mu_Lock;;
  closed ← get pl_closed;
  res ← (if (closed : bool) then mret (0, Some ErrorFileClosed)
    else
      res ← Seek_locked rounds offset whence;
      modify (log_event (DidSeek offset whence (fst res) (snd res)));;
      mret res);
  mu_Unlock;; mret res.
Definition RangeSeek (rounds : nat) (offset whence length : Z) : locked st (Z * option error) := Seek rounds offset whence.

Definition Open : locked st (option error) := mu_Lock;; err ← _open; mu_Unlock;; mret err.
End methods.

(** ** Goroutines *)
Inductive parallel_op := OpRead (rounds n : nat) | OpSeek (rounds : nat) (offset whence : Z) | OpClose | OpOpen | OpCancel.

(** [OpCancel]: whoever made [cr.ctx] cancels it. *)
Definition run_op (me : nat) (op : parallel_op) : locked st unit :=
  match op with
  | OpRead rounds n => Read me rounds n;; mret tt
  | OpSeek rounds offset whence => Seek me rounds offset whence;; mret tt
  | OpClose => Close me;; mret tt
  | OpOpen => Open me;; mret tt
  | OpCancel => wait_until (fun _ => true);; modify (pl_set_ctxErr (Some context_Canceled))
  end.
Fixpoint run_ops (me : nat) (ops : list parallel_op) : locked st unit :=
  match ops with [] => mret tt | op :: ops => run_op me op;; run_ops me ops end.

(** The clients, and then the goroutines of [nstream] streams. *)
Definition parallel_goroutines (rounds nstream : nat) (clients : list (list parallel_op)) : list (proc st unit) :=
  imap (fun i ops => with_lock (run_ops i ops)) clients ++ map (stream_goroutine rounds) (seq 0 nstream).
End parallel_reader.

(** ** What the callers see: a cursor over the bytes of the object *)
Definition seek_target (size pos offset whence : Z) : Z :=
  (if whence =? io_SeekStart then 0 else if whence =? io_SeekEnd then size else pos) + offset.

Definition answers (content : list byte) (pos : Z) (e : event) (pos' : Z) : Prop :=
  match e with
  | DidRead n d err =>
      (length d <= n)%nat /\ pos' = pos + Z.of_nat (length d) /\ d = slice pos pos' content /\
      (err = None -> length d = n) /\ (err = Some io_EOF -> pos' = Z.of_nat (length content))
  | DidSeek offset whence r err =>
      let target := seek_target (Z.of_nat (length content)) pos offset whence in
      if (0 <=? target) && (target <? Z.of_nat (length content)) then err = None /\ r = target /\ pos' = target
      else err = Some ErrorInvalidSeek /\ pos' = pos
  end.

(** [pos] is where the cursor stands after the answers [log]. *)
Inductive cursor (content : list byte) : list event -> Z -> Prop :=
| cursor_start : cursor content [] 0
| cursor_step log pos e pos' : cursor content log pos -> answers content pos e pos' -> cursor content (e :: log) pos'.
