(* ===== verification/ParallelOrder.v ===== *)
(** * The parallel reader delivers the object in order

    The theorems on [Parallel]: a rely-guarantee proof ([Interleave]) over the
    callers, who own the queue of streams while they hold the mutex, and the
    goroutines of the streams, who own what they have stored until they are done. *)
From stdpp Require Import base numbers list relations strings.
From Stdlib Require Import ZArith Lia Init.Byte.
From S2P Require Import Prelude.
From S2P Require Import GoIO.
From S2P Require Import ObjectIO.
From S2P Require Import Sequential.
From S2P Require Import Interleave.
From S2P Require Import Parallel.

Local Open Scope Z_scope.
Local Open Scope go_scope.
Local Open Scope list_scope.

(** ** The invariant *)
Section invariant.
Context {W R : Type} (content : list byte) `{Hok : ObjectOK W R content}.
Context (isNoLowLevelRetryError : error -> bool) (ctx : option Config) (bufferpool_BufferSize chunk nstreams : Z) (K : nat).
Notation st := (parallel W R).
Notation size := (Z.of_nat (length content)).
Implicit Types (s : st) (x : stream R) (h : list (stream R)).

Definition stream_span x : option Span := Some (mkSpan (st_offset x) (st_offset x +! st_size x -! 1)).

Record stream_inv x : Prop := {
  si_range : 0 <= st_offset x /\ 0 < st_size x /\ st_offset x + st_size x <= size;
  si_len : (st_out x <= length (st_data x))%nat /\ Z.of_nat (length (st_data x)) <= st_size x;
  si_data : st_data x = slice (st_offset x) (st_offset x + Z.of_nat (length (st_data x))) content;
  si_done : st_done x = false -> st_err x = None /\ st_closed x = false /\
    match st_rc x with
    | None => st_data x = []
    | Some r => rr_inv content r /\ rr_baseSpan r = stream_span x /\ rr_offset r = Z.of_nat (length (st_data x))
    end;
}.

(** The streams [js] lie one after the other between [start] and [ends]. *)
Fixpoint chain h (start : Z) (js : list nat) (ends : Z) : Prop :=
  match js with
  | [] => start = ends
  | j :: js => exists x, h !! j = Some x /\ st_offset x = start /\ st_closed x = false /\ st_cancelled x = false /\ chain h (start + st_size x) js ends
  end.
Definition unread h (j : nat) : Prop := exists x, h !! j = Some x /\ st_out x = 0%nat /\ st_readBytes x = 0.

(** The first stream stands at the offset of the reader. *)
Definition at_offset h (offset : Z) (js : list nat) (ends : Z) : Prop :=
  match js with
  | [] => offset = ends
  | j :: _ => exists x, h !! j = Some x /\ st_readBytes x = Z.of_nat (st_out x) /\ st_offset x + Z.of_nat (st_out x) = offset
  end.

Record queue h (js : list nat) (ends : Z) : Prop := {
  qu_chain : exists start, chain h start js ends;
  qu_nodup : NoDup js;
  qu_unread : Forall (unread h) (tail js);
}.
Definition idle s : Prop :=
  queue (pl_heap s) (pl_streams s) (pl_endStream s) /\ at_offset (pl_heap s) (pl_offset s) (pl_streams s) (pl_endStream s) /\
  0 <= pl_offset s <= size.

Record pl_inv s : Prop := {
  iv_params : pl_chunkSize s = chunk /\ pl_nstreams s = nstreams;
  iv_streams : Forall stream_inv (pl_heap s);
  iv_log : exists pos, cursor content (pl_log s) pos /\ (pl_mu s = None -> pos = pl_offset s);
  iv_free : pl_mu s = None -> pl_closed s = true \/ idle s;
  iv_ctx : pl_ctxErr s <> Some io_EOF;
  iv_end : 0 <= pl_endStream s <= size;
}.

(** ** Who owns what

    A stream's goroutine owns what it has stored until it is done, whoever holds
    the mutex the rest. *)
Definition producer_part x := (st_offset x, st_size x, st_data x, st_rc x, st_err x, st_done x, st_closed x).
Definition consumer_part x := (st_offset x, st_size x, st_readBytes x, st_out x, st_cancelled x, st_closed x).
Definition fresh x : Prop := st_done x = false /\ st_rc x = None.

Definition stream_stable (j : nat) h h' : Prop :=
  match h !! j with
  | Some x => st_done x = false -> exists x', h' !! j = Some x' /\ producer_part x' = producer_part x
  | None => forall x', h' !! j = Some x' -> fresh x'
  end.
Definition holder_state s := (pl_mu s, pl_offset s, pl_endStream s, pl_streams s, pl_closed s, pl_log s, consumer_part <$> pl_heap s).

(** The first [K] goroutines are the callers. *)
Definition rely (i : nat) s s' : Prop :=
  (pl_mu s = Some i -> holder_state s' = holder_state s) /\ ((K <= i)%nat -> stream_stable (i - K) (pl_heap s) (pl_heap s')).

Lemma stream_stable_refl j h : stream_stable j h h.
Proof. unfold stream_stable. destruct (h !! j) eqn:Hj; [|congruence]. intros _. by eexists. Qed.
Lemma stream_stable_trans j h1 h2 h3 : stream_stable j h1 h2 -> stream_stable j h2 h3 -> stream_stable j h1 h3.
Proof.
  unfold stream_stable. intros H1 H2. destruct (h1 !! j) as [x|] eqn:Hj.
  - intros Hd. destruct (H1 Hd) as (x' & Hx' & Hp). rewrite Hx' in H2. assert (Hd' : st_done x' = false) by (unfold producer_part in Hp; congruence).
    destruct (H2 Hd') as (x2 & ? & ?). exists x2. split; [done|congruence].
  - intros x3 Hx3. destruct (h2 !! j) as [x2|] eqn:Hj2; [|by apply H2]. destruct (H1 x2 eq_refl) as [Hd Hr].
    destruct (H2 Hd) as (x' & Hx' & Hp). assert (x' = x3) as -> by congruence. unfold producer_part in Hp. split; congruence.
Qed.

Lemma pl_rely_refl i s : rely i s s.
Proof. split; [done|]. intros _. apply stream_stable_refl. Qed.
Lemma pl_rely_trans i s1 s2 s3 : rely i s1 s2 -> rely i s2 s3 -> rely i s1 s3.
Proof.
  intros [A1 A2] [B1 B2]. split.
  - intros Hm. specialize (A1 Hm). rewrite B1; [done|]. unfold holder_state in A1. congruence.
  - intros HK. eapply stream_stable_trans; auto.
Qed.

Notation G := (guarantee pl_inv rely).
Notation WP := (wp pl_inv rely).

(** ** Streams that agree *)
Definition agree h h' (k : nat) : Prop := consumer_part <$> h' !! k = consumer_part <$> h !! k.

Lemma agree_lookup h h' k x : agree h h' k -> h !! k = Some x -> exists x', h' !! k = Some x' /\ consumer_part x' = consumer_part x.
Proof. unfold agree. intros Ha Hx. rewrite Hx in Ha. destruct (h' !! k) as [x'|] eqn:E; [|done]. cbn in Ha. exists x'. split; congruence. Qed.

Lemma agree_all h h' k : consumer_part <$> h' = consumer_part <$> h -> agree h h' k.
Proof. intros Hp. unfold agree. by rewrite <- !list_lookup_fmap, Hp. Qed.

Lemma chain_agree h h' js : Forall (agree h h') js -> forall start ends, chain h start js ends -> chain h' start js ends.
Proof.
  induction 1 as [|j js Hj _ IH]; intros start ends; cbn; [done|]. intros (x & Hx & Ho & Hc & Hcc & Hr).
  destruct (agree_lookup _ _ _ _ Hj Hx) as (x' & Hx' & Hp). unfold consumer_part in Hp. injection Hp as ? H2 ? ? ? ?.
  exists x'. split_and!; try congruence. rewrite H2. by apply IH.
Qed.

Lemma unread_agree h h' js : Forall (agree h h') js -> Forall (unread h) js -> Forall (unread h') js.
Proof.
  intros Ha Hu. eapply Forall_impl; [apply Forall_and; split; [exact Ha|exact Hu]|]. intros j [Hj (x & Hx & ? & ?)].
  destruct (agree_lookup _ _ _ _ Hj Hx) as (x' & Hx' & Hp). unfold consumer_part in Hp. injection Hp as ? ? ? ? ? ?.
  exists x'. split_and!; congruence.
Qed.

Lemma at_offset_agree h h' offset js ends : Forall (agree h h') js -> at_offset h offset js ends -> at_offset h' offset js ends.
Proof.
  intros Ha. destruct js as [|j js]; [done|]. apply Forall_cons in Ha as [Ha _]. intros (x & Hx & ? & ?).
  destruct (agree_lookup _ _ _ _ Ha Hx) as (x' & Hx' & Hp). unfold consumer_part in Hp. injection Hp as ? ? ? ? ? ?.
  exists x'. split_and!; congruence.
Qed.

Lemma queue_agree h h' js ends : Forall (agree h h') js -> queue h js ends -> queue h' js ends.
Proof.
  intros Ha [[start Hc] Hn Hu]. split; try done.
  - exists start. by eapply chain_agree.
  - eapply unread_agree; [|done]. destruct js; [done|]. apply Forall_cons in Ha as [_ Ha]. exact Ha.
Qed.

Lemma idle_agree s s' : holder_state s' = holder_state s -> idle s -> idle s'.
Proof.
  unfold holder_state. intros [= _ Ho He Hs _ _ Hp] (Hq & Ha & Hr).
  assert (Hag : Forall (agree (pl_heap s) (pl_heap s')) (pl_streams s)) by (apply Forall_forall; intros; by apply agree_all).
  unfold idle. rewrite Ho, He, Hs. split_and!; [by eapply queue_agree|by eapply at_offset_agree|apply Hr..].
Qed.

Lemma inv_agree s s' : pl_inv s -> holder_state s' = holder_state s -> Forall stream_inv (pl_heap s') -> pl_ctxErr s' = pl_ctxErr s ->
  pl_chunkSize s' = pl_chunkSize s -> pl_nstreams s' = pl_nstreams s -> pl_inv s'.
Proof.
  intros [] Hh Hst Hc H1 H2. pose proof (idle_agree s s' Hh) as Hid. unfold holder_state in Hh. injection Hh as Hm Ho He Hs Hcl Hl Hp.
  destruct iv_params0. split; try congruence; [split; congruence| |].
  - rewrite Hl, Hm, Ho. done.
  - rewrite Hm, Hcl. intros Hf. destruct (iv_free0 Hf); auto.
Qed.

Lemma stream_inv_at s j x : pl_inv s -> pl_heap s !! j = Some x -> stream_inv x.
Proof. intros [] Hx. by eapply Forall_lookup_1. Qed.

(** ** The goroutine of stream [j] *)
Section producer.
Context (j : nat).
Notation me := (K + j)%nat.

(** What it has done since [s0]. *)
Definition filled s0 s : Prop := holder_state s = holder_state s0 /\ forall k, k <> j -> pl_heap s !! k = pl_heap s0 !! k.

Lemma filled_refl s : filled s s.
Proof. done. Qed.

Lemma filled_guarantee s0 s : pl_inv s -> filled s0 s -> G me s0 s.
Proof.
  intros Hi [Hh Hk]. split; [done|]. intros i Hne. split; [done|]. intros HK. unfold stream_stable. rewrite Hk by lia.
  destruct (pl_heap s0 !! (i - K)%nat); [|done]. intros _. by eexists.
Qed.

Lemma filled_on_stream s0 s f : filled s0 s -> pl_inv s -> (forall x, consumer_part (f x) = consumer_part x) ->
  (forall x, pl_heap s !! j = Some x -> stream_inv x -> stream_inv (f x)) -> filled s0 (on_stream j f s) /\ pl_inv (on_stream j f s).
Proof.
  intros [Hh Hk] Hi Hc Hf.
  assert (Hp : consumer_part <$> alter f j (pl_heap s) = consumer_part <$> pl_heap s).
  { apply list_eq. intros k. rewrite !list_lookup_fmap. destruct (decide (k = j)) as [->|Hne].
    - rewrite list_lookup_alter_eq. destruct (pl_heap s !! j); [|done]. cbn. by rewrite Hc.
    - by rewrite list_lookup_alter_ne. }
  assert (Hh' : holder_state (on_stream j f s) = holder_state s) by (unfold holder_state; cbn; by rewrite Hp).
  split; [split; [congruence|]|].
  - intros k Hne. cbn. rewrite list_lookup_alter_ne by done. by apply Hk.
  - eapply inv_agree; [exact Hi|exact Hh'| |done..]. cbn. apply Forall_alter; [apply Hi|done].
Qed.

(** The goroutine is under way: [r] is its reader. *)
Definition filling (r : option (RetryReader R)) s : Prop := pl_inv s /\ exists x, pl_heap s !! j = Some x /\ st_done x = false /\ st_rc x = r.

Lemma filling_rely r s s1 : filling r s -> rely me s s1 -> pl_inv s1 -> filling r s1.
Proof.
  intros (_ & x & Hx & Hd & Hr) [_ Hs] Hi. split; [done|]. specialize (Hs ltac:(lia)). replace (me - K)%nat with j in Hs by lia.
  unfold stream_stable in Hs. rewrite Hx in Hs. destruct (Hs Hd) as (x' & Hx' & Hp). unfold producer_part in Hp. exists x'. split_and!; congruence.
Qed.

Lemma send_err_wp err s0 s : filled s0 s -> pl_inv s -> WP me (send_err j err) (fun _ s0 s => G me s0 s) s0 s.
Proof.
  intros Hf Hi. unfold send_err. cbn. destruct (filled_on_stream s0 s (fun x => st_set_done true (st_set_err (Some err) x)) Hf Hi) as [Hf' Hi']; [done| |by apply filled_guarantee].
  intros x _ []. by split.
Qed.

Lemma notices_cancel_wp (Q : option error -> st -> st -> Prop) s0 s r : filled s0 s -> filling r s ->
  (forall e s', filled s0 s' -> filling r s' -> Q e s0 s') -> WP me (notices_cancel j) Q s0 s.
Proof.
  intros [Hh Hk] [Hi Hx] HQ. unfold notices_cancel, with_state. cbn. apply HQ; [by split|]. split; [|done]. by eapply inv_agree; [exact Hi|done|apply Hi|done..].
Qed.

Context (retries : 0 <= LowLevelRetries (GetConfig ctx) < MaxInt64) (in_range : size + chunk + bufferpool_BufferSize <= MaxInt64).

(** The bytes of a stream are those of its span. *)
Lemma stream_bytes x : stream_inv x -> span_ok (stream_span x) /\ span_bytes content (stream_span x) = slice (st_offset x) (st_offset x + st_size x) content.
Proof.
  intros [(Ho & Hs & He) _ _ _]. pose proof (obj_Size_max (content := content)) as Hmax. unfold stream_span. i64_norm. split.
  - cbn. unfold MaxInt64 in *. lia.
  - unfold span_bytes. cbn. destruct (Z.ltb_spec (st_offset x + st_size x - 1) 0); [lia|]. f_equal. lia.
Qed.

Lemma page_stored x r n d err r' w' : stream_inv x -> st_done x = false -> st_rc x = Some r -> read_post content r n (d, err, r', w') ->
  stream_inv (st_set_data (st_data x ++ d) (st_set_rc (Some r') x)).
Proof.
  intros Hx Hd Hr (Hi' & Hb & _ & _ & _ & Ho & Hsl & _). pose proof (stream_bytes x Hx) as [_ Hbytes].
  destruct Hx as [(Ho0 & Hs & He) [Hl1 Hl2] Hdata Hdone]. destruct (Hdone Hd) as (Herr & Hcl & Hrr). rewrite Hr in Hrr. destruct Hrr as (Hi & Hb0 & Hoff).
  rewrite Hb0, Hbytes, Ho, Hoff in Hsl. pose proof (ri_offset _ _ (ri_core _ _ Hi')) as Hr'. rewrite Hb, Hb0, Hbytes, Ho, Hoff, length_slice in Hr' by lia.
  split; cbn.
  - done.
  - rewrite length_app. lia.
  - rewrite length_app, Nat2Z.inj_add, Z.add_assoc, <- (slice_app _ (st_offset x + Z.of_nat (length (st_data x)))) by lia.
    rewrite <- Hdata at 1. f_equal. rewrite Hsl at 1. rewrite slice_slice by lia. f_equal; lia.
  - intros _. split_and!; try done; [by rewrite Hb, Hb0|]. rewrite length_app. lia.
Qed.

Lemma read_page_wp (Q : option error -> st -> st -> Prop) s0 s r : filled s0 s -> filling (Some r) s -> rr_err r = None ->
  (forall s' r', filled s0 s' -> filling (Some r') s' -> rr_err r' = None -> Q None s0 s') ->
  (forall e s', filled s0 s' -> pl_inv s' -> Q (Some e) s0 s') -> WP me (read_page isNoLowLevelRetryError ctx bufferpool_BufferSize j) Q s0 s.
Proof.
  intros Hf (Hi & x & Hx & Hd & Hr) He HQ HQe. unfold read_page, wp. rewrite Hx, Hr.
  pose proof (stream_inv_at _ _ _ Hi Hx) as Hxi. destruct (si_done _ Hxi Hd) as (_ & _ & Hrr). rewrite Hr in Hrr. destruct Hrr as (Hri & _ & _).
  destruct (RetryReader_Read _ _ _ r (pl_w s)) as [[[[d err] r'] w']| |] eqn:Hread.
  - apply (Read_correct content) in Hread; [|done|by rewrite He]. pose proof (page_stored x r _ d err r' w' Hxi Hd Hr Hread) as Hnew.
    destruct (filled_on_stream s0 (pl_set_w w' s) (fun x => st_set_data (st_data x ++ d) (st_set_rc (Some r') x))) as [Hf' Hi'].
    + done.
    + by eapply inv_agree; [exact Hi|done|apply Hi|done..].
    + done.
    + cbn. intros x1 Hx1 _. congruence.
    + cbn. destruct err as [e|]; [by apply HQe|]. apply (HQ _ r'); [done| |by apply Hread]. split; [done|]. cbn. rewrite list_lookup_alter_eq, Hx. by eexists.
  - unfold stuck. cbn. split; [by apply filled_guarantee|done].
  - unfold stuck. cbn. split; [by apply filled_guarantee|done].
Qed.

Lemma ReadFrom_loop_wp (Q : option error -> st -> st -> Prop) rounds : forall s0 s r, filled s0 s -> filling (Some r) s -> rr_err r = None ->
  (forall e s0 s', filled s0 s' -> pl_inv s' -> Q e s0 s') -> WP me (ReadFrom_loop isNoLowLevelRetryError ctx bufferpool_BufferSize rounds j) Q s0 s.
Proof.
  induction rounds as [|rounds IH]; intros s0 s r Hf Hs He HQ; cbn [ReadFrom_loop].
  - unfold stuck. cbn. split; [apply filled_guarantee; [apply Hs|done]|done].
  - apply wp_bind. apply wp_step; [apply filled_guarantee; [apply Hs|done]|]. intros s1 Hr Hi _. cbn [wp runs].
    assert (Hs1 : filling (Some r) s1) by (by eapply filling_rely). clear s0 s Hf Hs Hr.
    apply wp_bind. eapply notices_cancel_wp; [apply filled_refl|exact Hs1|]. intros [e|] s2 Hf2 Hs2; [apply HQ; [done|apply Hs2]|].
    apply wp_bind. eapply read_page_wp; [exact Hf2|exact Hs2|done| |].
    + intros s3 r' Hf3 Hs3 He3. by eapply IH.
    + intros e s3 Hf3 Hs3. cbn. by apply HQ.
Qed.

Lemma filling_started_inv x r : stream_inv x -> st_done x = false -> st_rc x = None -> rr_inv content r -> rr_offset r = 0 -> rr_baseSpan r = stream_span x -> stream_inv (st_set_rc (Some r) x).
Proof.
  intros [] Hd Hn Hi Ho Hb. destruct (si_done0 Hd) as (? & ? & Hdata). rewrite Hn in Hdata. split; try done. cbn. intros _. rewrite Hdata. by split_and!.
Qed.

Lemma readFrom_wp rounds s0 s : filled s0 s -> filling None s -> WP me (readFrom isNoLowLevelRetryError ctx bufferpool_BufferSize rounds j) (fun _ s0 s => G me s0 s) s0 s.
Proof.
  intros Hf Hs. unfold readFrom. apply wp_bind. eapply notices_cancel_wp; [done..|]. clear s Hf Hs. intros [e|] s Hf Hs; [apply send_err_wp; [done|apply Hs]|].
  destruct Hs as (Hi & x & Hx & Hd & Hr). apply wp_bind. unfold with_state, wp. rewrite Hx. pose proof (stream_inv_at _ _ _ Hi Hx) as Hxi.
  change (Some (mkSpan _ _)) with (stream_span x). destruct (stream_bytes x Hxi) as [Hspan _].
  destruct (OpenRetrying ctx (stream_span x) (pl_w s)) as [[err|r] w'] eqn:Hopen; cbn.
  - apply send_err_wp; [done|]. by eapply inv_agree; [exact Hi|done|apply Hi|done..].
  - apply (OpenRetrying_inv content) in Hopen as (Hri & He & Ho & Hb & _); [|done..].
    destruct (filled_on_stream s0 (pl_set_w w' s) (st_set_rc (Some r))) as [Hf' Hi'].
    + done.
    + by eapply inv_agree; [exact Hi|done|apply Hi|done..].
    + done.
    + cbn. intros x1 Hx1 _. assert (x1 = x) as -> by congruence. by apply filling_started_inv.
    + apply wp_bind. cbn [wp modify runs]. set (s2 := on_stream _ _ _) in *.
      assert (Hx2 : pl_heap s2 !! j = Some (st_set_rc (Some r) x)) by (subst s2; cbn; by rewrite list_lookup_alter_eq, Hx).
      clearbody s2. apply wp_bind. unfold ReadFrom. apply wp_bind. cbn [wp get runs].
      assert (Hc : stream_get j st_closed false s2 = false) by (unfold stream_get; rewrite Hx2; cbn; by apply (si_done _ Hxi Hd)).
      rewrite Hc. eapply ReadFrom_loop_wp; [exact Hf'| |exact He|].
      * split; [done|]. by eexists.
      * intros e s0' s' Hf3 Hi3. by apply send_err_wp.
Qed.

Lemma stream_goroutine_sound rounds s : (pl_heap s !! j = None) -> sound pl_inv rely me (fun _ => True) (stream_goroutine isNoLowLevelRetryError ctx bufferpool_BufferSize rounds j) s.
Proof.
  intros Hn. unfold stream_goroutine. cbn. intros s1 [_ Hst] Hi He. apply Nat.ltb_lt in He. specialize (Hst ltac:(lia)).
  replace (me - K)%nat with j in Hst by lia. unfold stream_stable in Hst. rewrite Hn in Hst. destruct (lookup_lt_is_Some_2 _ _ He) as [x Hx].
  destruct (Hst x Hx) as [Hd Hr]. pose proof (readFrom_wp rounds s1 s1 (filled_refl s1)) as Hw. unfold wp in Hw.
  destruct (readFrom _ _ _ _ _ s1) as [s2 p2]. eapply runs_mono; [|apply Hw]; [done|]. split; [done|]. by eexists.
Qed.
End producer.

(** ** The callers *)
Section client.
Context (me : nat) (me_client : (me < K)%nat).

(** The section so far: [me] had the mutex or nobody did, and what the streams'
    goroutines own is untouched. *)
Definition own s0 s : Prop := (pl_mu s0 = None \/ pl_mu s0 = Some me) /\ forall k, stream_stable k (pl_heap s0) (pl_heap s).
Definition held s : Prop := pl_inv s /\ pl_mu s = Some me.

(** Only stream [j] and what does not concern the queue has changed. *)
Definition same_fields s s' : Prop :=
  pl_offset s' = pl_offset s /\ pl_endStream s' = pl_endStream s /\ pl_streams s' = pl_streams s /\ pl_closed s' = pl_closed s /\ pl_log s' = pl_log s.
Definition only (j : nat) s s' : Prop := same_fields s s' /\ forall k, k <> j -> agree (pl_heap s) (pl_heap s') k.

Lemma pl_own_guarantee s0 s : pl_inv s -> own s0 s -> G me s0 s.
Proof. intros Hi [Hm Hk]. split; [done|]. intros j Hj. split; [intros; destruct Hm; congruence|]. intros _. apply Hk. Qed.

Lemma own_refl s : pl_mu s = Some me -> own s s.
Proof. intros. split; [by right|]. intros. apply stream_stable_refl. Qed.

Lemma pl_held_rely s s1 : held s -> rely me s s1 -> pl_inv s1 -> held s1 /\ own s1 s1 /\ holder_state s1 = holder_state s.
Proof.
  intros [_ Hm] [Hh _] Hi. specialize (Hh Hm). assert (Hm1 : pl_mu s1 = Some me) by (unfold holder_state in Hh; congruence).
  split_and!; [by split|by apply own_refl|done].
Qed.

Lemma only_refl j s : only j s s.
Proof. done. Qed.
Lemma only_trans j s1 s2 s3 : only j s1 s2 -> only j s2 s3 -> only j s1 s3.
Proof.
  intros [(?&?&?&?&?) A2] [(?&?&?&?&?) B2]. split; [split_and!; congruence|]. intros k Hk. unfold agree in *. by rewrite B2, A2.
Qed.
Lemma only_holder j s s' : holder_state s' = holder_state s -> only j s s'.
Proof. unfold holder_state. intros [=]. split; [by split_and!|]. intros k _. by apply agree_all. Qed.

Lemma own_on_stream j f s0 s : own s0 s -> (forall x, pl_heap s !! j = Some x -> st_done x = false -> producer_part (f x) = producer_part x) ->
  own s0 (on_stream j f s).
Proof.
  intros [Hm Hk] Hf. split; [done|]. intros k. eapply stream_stable_trans; [apply Hk|]. unfold stream_stable. cbn. destruct (decide (k = j)) as [->|Hne].
  - rewrite list_lookup_alter_eq. destruct (pl_heap s !! j) as [x|] eqn:Hx; [|done]. intros Hd. eexists. split; [done|]. by apply Hf.
  - rewrite list_lookup_alter_ne by done. destruct (pl_heap s !! k); [|done]. intros _. by eexists.
Qed.

Lemma held_upd s s' : held s -> Forall stream_inv (pl_heap s') -> pl_mu s' = pl_mu s -> pl_log s' = pl_log s -> pl_ctxErr s' = pl_ctxErr s ->
  pl_chunkSize s' = pl_chunkSize s -> pl_nstreams s' = pl_nstreams s -> 0 <= pl_endStream s' <= size -> held s'.
Proof.
  intros [[[Hp1 Hp2] ? [pos [Hpos _]] ? ? ?] Hm] Hst Hm' Hl Hc H1 H2 Hend. split; [|congruence]. split; try congruence.
  - split; congruence.
  - exists pos. rewrite Hl. split; [done|congruence].
Qed.

Lemma held_on_stream j f s : held s -> (forall x, pl_heap s !! j = Some x -> stream_inv x -> stream_inv (f x)) -> held (on_stream j f s).
Proof. intros Hh Hf. eapply held_upd; [done| |done..|apply Hh]. apply Forall_alter; [apply Hh|done]. Qed.

Lemma only_on_stream j f s : only j s (on_stream j f s).
Proof. split; [done|]. intros k Hk. unfold agree. cbn. by rewrite list_lookup_alter_ne. Qed.

(** Waiting while the mutex is held. *)
Lemma held_wait (Q : unit -> st -> st -> Prop) enabled s0 s : own s0 s -> held s ->
  (forall s1, own s1 s1 -> held s1 -> holder_state s1 = holder_state s -> enabled s1 = true -> Q tt s1 s1) -> WP me (wait_until enabled) Q s0 s.
Proof.
  intros Ho Hh HQ. apply wp_step; [apply pl_own_guarantee; [apply Hh|done]|]. intros s1 Hr Hi He. cbn.
  destruct (pl_held_rely s s1 Hh Hr Hi) as (? & ? & ?). by apply HQ.
Qed.

Lemma held_stuck {A} (a : A) (Q : A -> st -> st -> Prop) s0 s : own s0 s -> held s -> WP me (stuck a) Q s0 s.
Proof. intros Ho Hh. apply wp_step; [apply pl_own_guarantee; [apply Hh|done]|done]. Qed.

Lemma pl_mu_Lock_wp (Q : unit -> st -> st -> Prop) s0 s : G me s0 s ->
  (forall s0 s, own s0 s -> held s -> (pl_closed s = true \/ idle s) -> cursor content (pl_log s) (pl_offset s) -> Q tt s0 s) -> WP me (mu_Lock me) Q s0 s.
Proof.
  intros Hg HQ. unfold mu_Lock. split; [done|]. intros s1 _ Hi He. apply bool_decide_eq_true in He. cbn.
  pose proof Hi as [Hp Hst [pos [Hpos Hfree]] Hid Hctx Hend]. specialize (Hfree He). subst pos. apply HQ; [| |by apply Hid|done].
  - split; [by left|]. intros. apply stream_stable_refl.
  - split; [|done]. split; try done. exists (pl_offset s1). by split.
Qed.

Lemma pl_mu_Unlock_wp (Q : unit -> st -> st -> Prop) s0 s : own s0 s -> held s -> (pl_closed s = true \/ idle s) -> cursor content (pl_log s) (pl_offset s) ->
  (forall s0 s, G me s0 s -> Q tt s0 s) -> WP me mu_Unlock Q s0 s.
Proof.
  intros Ho [[] Hm] Hid Hc HQ. cbn. apply HQ, pl_own_guarantee; [|exact Ho]. split; try done. by exists (pl_offset s).
Qed.

(** *** Closing streams *)
Lemma stream_close_wp (Q : option error -> st -> st -> Prop) j s0 s : own s0 s -> held s ->
  (forall err s0 s', own s0 s' -> held s' -> only j s s' -> err <> Some io_EOF -> Q err s0 s') -> WP me (stream_close j) Q s0 s.
Proof.
  intros Ho Hh HQ. unfold stream_close. apply wp_bind. cbn [wp modify runs]. set (s1 := on_stream _ _ _).
  assert (Ho1 : own s0 s1) by (by apply own_on_stream). assert (Hh1 : held s1) by (apply held_on_stream; [done|]; intros x _ []; by split).
  assert (Hs1 : only j s s1) by apply only_on_stream. clearbody s1. clear Ho Hh.
  apply wp_bind. apply held_wait; [done..|]. intros s2 Ho2 Hh2 Hs2 He. apply (only_holder j) in Hs2.
  assert (Hx : exists x, pl_heap s2 !! j = Some x /\ st_done x = true).
  { unfold stream_get in He. destruct (pl_heap s2 !! j) as [x|] eqn:Hx; [|done]. exists x. split; [done|]. apply bool_decide_eq_true in He.
    destruct (st_done x) eqn:Hd; [done|]. destruct (si_done x (stream_inv_at _ _ _ (proj1 Hh2) Hx) Hd) as (Hn & _). rewrite Hn in He. by destruct He. }
  pose proof (only_trans _ _ _ _ Hs1 Hs2) as Hs. clear s1 Ho1 Hh1 Hs1 He Hs2. clear s0. rename s2 into s0.
  assert (Hstep : forall f s', own s0 s' -> held s' -> only j s s' -> (exists x, pl_heap s' !! j = Some x /\ st_done x = true) ->
    (forall x, st_done x = true -> st_done (f x) = true /\ (stream_inv x -> stream_inv (f x))) ->
    let s' := on_stream j f s' in own s0 s' /\ held s' /\ only j s s' /\ (exists x, pl_heap s' !! j = Some x /\ st_done x = true)).
  { intros f s' H1 H2 H3 (x & Hx' & Hd) Hf. cbn zeta. split_and!.
    - apply own_on_stream; [done|]. intros y Hy. congruence.
    - apply held_on_stream; [done|]. intros y Hy. assert (y = x) as -> by congruence. by apply Hf.
    - eapply only_trans; [done|]. apply only_on_stream.
    - exists (f x). cbn. rewrite list_lookup_alter_eq, Hx'. split; [done|]. by apply Hf. }
  apply wp_bind. cbn [wp with_state runs]. destruct (Hstep (st_set_err None) s0 Ho2 Hh2 Hs Hx) as (Ho3 & Hh3 & Hs3 & Hx3).
  { intros x Hd. split; [done|]. intros []. split; try done. cbn. congruence. }
  set (s3 := on_stream _ _ _) in *. clearbody s3. set (err := stream_get _ _ _ _). clearbody err.
  apply wp_bind. cbn [wp modify runs]. destruct (Hstep (st_set_closed true) s3 Ho3 Hh3 Hs3 Hx3) as (Ho4 & Hh4 & Hs4 & Hx4).
  { intros x Hd. split; [done|]. intros []. split; try done. cbn. congruence. }
  set (s4 := on_stream _ _ _) in *. clearbody s4. apply wp_bind.
  assert (Hclose : forall Q' : option error -> st -> st -> Prop, (forall e s', own s0 s' -> held s' -> only j s s' -> Q' e s0 s') ->
    WP me (with_state (fun s => match stream_get j st_rc None s with
      | Some h => let '(err, h, w) := RetryReader_Close h (pl_w s) in (err, on_stream j (st_set_rc (Some h)) (pl_set_w w s))
      | None => (None, s) end)) Q' s0 s4).
  { intros Q' HQ'. unfold with_state, wp. destruct (stream_get j st_rc None s4) as [r|]; [|by apply HQ'].
    destruct (RetryReader_Close r (pl_w s4)) as [[e r'] w']. cbn.
    destruct (Hstep (st_set_rc (Some r')) (pl_set_w w' s4)) as (? & ? & ? & _); [done|by eapply held_upd; [exact Hh4|apply Hh4|done..|apply Hh4]|done|done| |by apply HQ'].
    intros x Hd. split; [done|]. intros []. split; try done. cbn. congruence. }
  apply Hclose. intros e s5 Ho5 Hh5 Hs5. cbn. apply HQ; [done..|]. destruct (orErr err e) as [e'|]; [|done].
  destruct (errors_Is e' context_Canceled); [done|]. by case_bool_decide.
Qed.

(** Streams [gone] have been closed and taken from the queue. *)
Definition popped (gone : list nat) s s' : Prop :=
  pl_offset s' = pl_offset s /\ pl_endStream s' = pl_endStream s /\ pl_closed s' = pl_closed s /\ pl_log s' = pl_log s /\
  pl_streams s = gone ++ pl_streams s' /\ forall k, k ∉ gone -> agree (pl_heap s) (pl_heap s') k.

Lemma popped_refl s : popped [] s s.
Proof. done. Qed.
Lemma popped_trans l1 l2 s1 s2 s3 : popped l1 s1 s2 -> popped l2 s2 s3 -> popped (l1 ++ l2) s1 s3.
Proof.
  intros (?&?&?&?&A1&A2) (?&?&?&?&B1&B2). split_and!; try congruence.
  - by rewrite A1, B1, app_assoc.
  - intros k Hk. rewrite elem_of_app in Hk. unfold agree in *. rewrite B2, A2; naive_solver.
Qed.

(** What is left of the queue. *)
Lemma popped_queue gone s s' : popped gone s s' -> queue (pl_heap s) (pl_streams s) (pl_endStream s) ->
  queue (pl_heap s') (pl_streams s') (pl_endStream s') /\ Forall (agree (pl_heap s) (pl_heap s')) (pl_streams s') /\
  (gone <> [] -> Forall (unread (pl_heap s')) (pl_streams s')).
Proof.
  intros (_&He&_&_&Hs&Ha) [[start Hc] Hn Hu]. rewrite He, Hs in *. apply NoDup_app in Hn as (_ & Hdisj & Hn).
  assert (Hag : Forall (agree (pl_heap s) (pl_heap s')) (pl_streams s')).
  { apply Forall_forall. intros k Hk. apply Ha. intros Hg. by apply (Hdisj k). }
  assert (Hut : Forall (unread (pl_heap s')) (tail (pl_streams s')) /\ (gone <> [] -> Forall (unread (pl_heap s')) (pl_streams s'))).
  { destruct gone as [|j gone]; cbn in Hu.
    - split; [|done]. eapply unread_agree; [|done]. destruct (pl_streams s'); [done|]. apply Forall_cons in Hag as [_ ?]. done.
    - apply Forall_app in Hu as [_ Hu]. assert (Hall : Forall (unread (pl_heap s')) (pl_streams s')) by (by eapply unread_agree).
      split; [|done]. destruct (pl_streams s'); [done|]. by apply Forall_cons in Hall as []. }
  split_and!; try done; [|apply Hut]. split; try done; [|apply Hut].
  clear Hu Hut Hdisj Ha Hs. revert start Hc. induction gone as [|j gone IH]; intros start Hc.
  - exists start. by eapply chain_agree.
  - destruct Hc as (x & _ & _ & _ & _ & Hc). by eapply IH.
Qed.

Lemma popStream_wp (Q : option error -> st -> st -> Prop) j js s0 s : own s0 s -> held s -> pl_streams s = j :: js ->
  (forall err s0 s', own s0 s' -> held s' -> popped [j] s s' -> err <> Some io_EOF -> Q err s0 s') -> WP me _popStream Q s0 s.
Proof.
  intros Ho Hh Hs HQ. unfold _popStream. apply wp_bind. cbn [wp get runs]. rewrite Hs. apply wp_bind. apply stream_close_wp; [done..|].
  intros err s0' s1 Ho1 Hh1 [(?&?&Hs1&?&?) Ha1] He. apply wp_bind. cbn. apply HQ; [done|by eapply held_upd; [exact Hh1|apply Hh1|done..|apply Hh1]| |done].
  split_and!; try done; cbn; [by rewrite Hs1, Hs|]. intros k Hk. apply Ha1. set_solver.
Qed.

Lemma popStreams_loop_wp (Q : option error -> st -> st -> Prop) s : forall rounds err s0 s1 gone, own s0 s1 -> held s1 -> popped gone s s1 -> err <> Some io_EOF ->
  (length (pl_streams s1) <= rounds)%nat ->
  (forall err gone s0 s', own s0 s' -> held s' -> popped gone s s' -> err <> Some io_EOF -> pl_streams s' = [] -> Q err s0 s') ->
  WP me (popStreams_loop rounds err) Q s0 s1.
Proof.
  induction rounds as [|rounds IH]; intros err s0 s1 gone Ho Hh Hp He Hl HQ; cbn [popStreams_loop].
  - cbn. eapply HQ; [done..|]. destruct (pl_streams s1); [done|cbn in Hl; lia].
  - apply wp_bind. cbn [wp get runs]. destruct (pl_streams s1) as [|j js] eqn:Hs; [by eapply HQ|].
    apply wp_bind. eapply popStream_wp; [done..|]. intros e s0' s2 Ho2 Hh2 Hp2 He2. eapply IH; [done|done|by eapply popped_trans| |  |done].
    + destruct err; done.
    + destruct Hp2 as (_&_&_&_&Hs2&_). rewrite Hs in Hs2. cbn in Hs2, Hl. injection Hs2 as Hs2. rewrite <- Hs2. lia.
Qed.

Lemma popStreams_wp (Q : option error -> st -> st -> Prop) s0 s : own s0 s -> held s ->
  (forall err gone s0 s', own s0 s' -> held s' -> popped gone s s' -> err <> Some io_EOF -> pl_streams s' = [] -> Q err s0 s') -> WP me _popStreams Q s0 s.
Proof.
  intros Ho Hh HQ. unfold _popStreams. apply wp_bind. cbn [wp get runs]. apply wp_bind.
  eapply popStreams_loop_wp; [done|done|apply popped_refl|done|done|]. intros err gone s0' s' Ho' Hh' Hp He Hn. apply wp_bind. cbn.
  eapply HQ; [done|by eapply held_upd; [exact Hh'|apply Hh'|done..|apply Hh']| |done|done].
  destruct Hp as (?&?&?&?&Hs&?). split_and!; try done; cbn. by rewrite Hs, Hn, app_nil_r.
Qed.

(** *** More streams *)
Context (chunk_pos : 0 < chunk) (in_range : size + chunk + bufferpool_BufferSize <= MaxInt64) (buffer_pos : 0 < bufferpool_BufferSize).

Lemma chain_app h js1 js2 ends : forall start, chain h start (js1 ++ js2) ends <-> exists mid, chain h start js1 mid /\ chain h mid js2 ends.
Proof.
  induction js1 as [|j js1 IH]; intros start; cbn; [naive_solver|]. setoid_rewrite IH. naive_solver.
Qed.

Lemma chain_lookup h js : forall start ends, chain h start js ends -> Forall (fun j => (j < length h)%nat) js.
Proof.
  induction js as [|j js IH]; intros start ends; cbn; [done|]. intros (x & Hx & _ & _ & _ & Hc). constructor; [by eapply lookup_lt_Some|by eapply IH].
Qed.

(** A new stream at the end of the queue. *)
Definition grown (n : Z) s : st :=
  pl_set_endStream (pl_endStream s + n) (pl_set_streams (pl_streams s ++ [length (pl_heap s)])
    (pl_set_heap (pl_heap s ++ [mkStream (pl_endStream s) n 0 [] 0 None None false false false]) s)).

Lemma grown_held s n : 0 < n -> pl_endStream s + n <= size -> held s -> held (grown n s) /\ (forall s0, own s0 s -> own s0 (grown n s)).
Proof.
  intros Hn He Hh. pose proof (iv_end _ (proj1 Hh)) as Hend. split.
  - eapply held_upd; [exact Hh| |done..|cbn; lia]. cbn. apply Forall_app. split; [apply Hh|]. apply Forall_singleton. split; cbn; [lia|lia| |done].
    by rewrite slice_nil by lia.
  - intros s0 [Hm Hk]. split; [done|]. intros k. eapply stream_stable_trans; [apply Hk|]. unfold stream_stable. cbn. destruct (pl_heap s !! k) as [y|] eqn:Hy.
    + intros _. exists y. split; [|done]. by apply lookup_app_l_Some.
    + intros y' Hy'. apply lookup_app_Some in Hy' as [?|[_ Hy']]; [congruence|]. apply list_lookup_singleton_Some in Hy' as [_ <-]. done.
Qed.

Lemma grown_idle s n : idle s -> idle (grown n s).
Proof.
  intros (Hq & Hat & Hoff). destruct Hq as [[start Hc] Hnd Hu]. unfold grown. set (x := mkStream _ _ _ _ _ _ _ _ _ _).
  assert (Hnew : (pl_heap s ++ [x]) !! length (pl_heap s) = Some x) by (by rewrite lookup_app_r, Nat.sub_diag).
  assert (Hlt : Forall (fun j => (j < length (pl_heap s))%nat) (pl_streams s)) by (by eapply chain_lookup).
  assert (Hag : Forall (agree (pl_heap s) (pl_heap s ++ [x])) (pl_streams s)).
  { eapply Forall_impl; [exact Hlt|]. intros j Hj. unfold agree. cbn in Hj. by rewrite lookup_app_l. }
  split_and!; cbn; [split| |lia..].
  - exists start. apply chain_app. exists (pl_endStream s). split; [by eapply chain_agree|]. cbn. exists x. by split_and!.
  - apply NoDup_app. split_and!; [done| |apply NoDup_singleton]. intros j Hj Hj2. apply list_elem_of_singleton in Hj2 as ->.
    rewrite Forall_forall in Hlt. specialize (Hlt _ Hj). lia.
  - assert (Hux : unread (pl_heap s ++ [x]) (length (pl_heap s))) by (exists x; by split_and!).
    destruct (pl_streams s) as [|j js]; cbn in *; [done|]. apply Forall_cons in Hag as [_ Hag]. apply Forall_app. split; [by eapply unread_agree|by apply Forall_singleton].
  - destruct (pl_streams s) as [|j js]; cbn in *.
    + exists x. split_and!; [done|done|cbn; lia].
    + apply (at_offset_agree _ _ _ (j :: js) (pl_endStream s) Hag Hat).
Qed.

(** [_open] changes the queue only. *)
Definition opened s s' : Prop :=
  (idle s -> idle s') /\ (forall s0, own s0 s -> own s0 s') /\ pl_offset s' = pl_offset s /\ pl_closed s' = pl_closed s /\ pl_log s' = pl_log s.

Lemma open_streams_ok n : forall s, held s -> pl_endStream s < size ->
  held (open_streams n s) /\ opened s (open_streams n s) /\ ((0 < n)%nat \/ pl_streams s <> [] -> pl_streams (open_streams n s) <> []).
Proof.
  induction n as [|n IH]; intros s Hh He; cbn [open_streams]; [split_and!; try done; intros [?|?]; [lia|done]|].
  pose proof (proj1 Hh) as [[Hcs _] _ _ _ _ Hend]. pose proof (obj_Size_max (content := content)) as Hmax. rewrite (obj_Size_ok (content := content)).
  rewrite Hcs. i64_norm.
  assert (Hm : exists m, (if size <? pl_endStream s + chunk then (size - pl_endStream s, pl_endStream s + (size - pl_endStream s)) else (chunk, pl_endStream s + chunk)) = (m, pl_endStream s + m) /\
    0 < m /\ pl_endStream s + m <= size).
  { destruct (Z.ltb_spec size (pl_endStream s + chunk)); [exists (size - pl_endStream s)|exists chunk]; (split; [|lia]); done. }
  destruct Hm as (m & -> & Hm0 & Hm1). cbn [newStream]. destruct (grown_held s m Hm0 Hm1 Hh) as [Hh1 Ho1].
  change (pl_set_endStream _ _) with (grown m s). assert (Hs1 : opened s (grown m s)) by (split; [apply grown_idle|by split_and!]).
  assert (Hne : pl_streams (grown m s) <> []) by (cbn; by destruct (pl_streams s)).
  destruct (Z.leb_spec size (pl_endStream (grown m s))) as [Hle|Hlt]; [by split_and!|].
  destruct (IH _ Hh1 Hlt) as (Hh2 & (Hi2 & Ho2 & ? & ? & ?) & Hn2). destruct Hs1 as (? & ? & ? & ? & ?). split_and!; [done| |intros _; apply Hn2; by right].
  split_and!; [auto|auto|congruence..].
Qed.

Lemma open_wp (Q : option error -> st -> st -> Prop) s0 s : 0 < nstreams -> own s0 s -> held s ->
  (forall s', held s' -> opened s s' -> (pl_streams s' = [] -> pl_endStream s' = size) -> Q None s0 s') -> WP me _open Q s0 s.
Proof.
  intros Hns Ho Hh HQ. unfold _open, with_state, wp. rewrite (obj_Size_ok (content := content)). destruct (Z.ltb_spec size 0); [lia|].
  pose proof (iv_end _ (proj1 Hh)) as Hend. destruct (Z.leb_spec size (pl_endStream s)) as [He|He]; cbn.
  - apply HQ; try done. lia.
  - destruct (open_streams_ok (Z.to_nat (pl_nstreams s - Z.of_nat (length (pl_streams s)))) s Hh He) as (?&?&Hn1).
    apply HQ; auto. intros Hn. exfalso. pose proof (proj1 Hh) as [[_ Hcn] _ _ _ _ _]. apply Hn1; [|done].
    destruct (pl_streams s) eqn:Hs; [left; cbn; lia|by right].
Qed.

(** *** Reading a stream *)

(** Stream [j], of [z] bytes from [o] on, has been read up to [base + length d], the
    bytes from [base] on being [d]. *)
Definition reads_at (j : nat) (o z base : Z) (d : list byte) s : Prop :=
  exists x, pl_heap s !! j = Some x /\ consumer_part x = (o, z, Z.of_nat (st_out x), st_out x, false, false) /\
    0 <= base /\ base + Z.of_nat (length d) = o + Z.of_nat (st_out x) /\ d = slice base (base + Z.of_nat (length d)) content.

Lemma reads_at_holder j o z base d s s' : holder_state s' = holder_state s -> reads_at j o z base d s -> reads_at j o z base d s'.
Proof.
  unfold holder_state. intros [= _ _ _ _ _ _ Hp] (x & Hx & Hc & Hr). destruct (agree_lookup _ _ j x (agree_all _ _ j Hp) Hx) as (x' & Hx' & Hc').
  exists x'. rewrite Hc', Hc. unfold consumer_part in Hc', Hc. split; [done|]. assert (st_out x' = st_out x) as -> by congruence. done.
Qed.

(** [rw.Read], and [readBytes] with it. *)
Lemma rw_Read_wp (Q : list byte * option error -> st -> st -> Prop) j o z base acc n s0 s : own s0 s -> held s -> reads_at j o z base acc s ->
  (forall d err s', own s0 (on_stream j (fun x => st_set_readBytes (st_readBytes x +! Z.of_nat (length d)) x) s') ->
    held (on_stream j (fun x => st_set_readBytes (st_readBytes x +! Z.of_nat (length d)) x) s') -> only j s s' ->
    reads_at j o z base (acc ++ d) (on_stream j (fun x => st_set_readBytes (st_readBytes x +! Z.of_nat (length d)) x) s') -> (length d <= n)%nat ->
    (err = None \/ err = Some io_EOF) -> Q (d, err) s0 s') -> WP me (rw_Read j n) Q s0 s.
Proof.
  intros Ho Hh (x & Hx & Hc & Hb & Hpos & Hacc) HQ. unfold rw_Read, with_state, wp, stream_get. rewrite Hx.
  pose proof Hc as Hc'. unfold consumer_part in Hc'. injection Hc' as E1 E2 E3 E4 E5. rewrite E5.
  set (d := take n (drop (st_out x) (st_data x))). pose proof (stream_inv_at _ _ _ (proj1 Hh) Hx) as [(Hr1 & Hr2 & Hr3) [Hl1 Hl2] Hdata _].
  pose proof (obj_Size_max (content := content)) as Hmax.
  assert (Hd : (length d <= n)%nat /\ (st_out x + length d <= length (st_data x))%nat) by (subst d; rewrite length_take, length_drop; lia).
  assert (Hsl : d = slice (o + Z.of_nat (st_out x)) (o + Z.of_nat (st_out x) + Z.of_nat (length d)) content).
  { assert (Hd2 : d = slice (Z.of_nat (st_out x)) (Z.of_nat (st_out x) + Z.of_nat (length d)) (st_data x)).
    { unfold slice. rewrite Nat2Z.id. replace (Z.to_nat _) with (length d) by lia. subst d. by rewrite take_length_take. }
    rewrite Hd2 at 1. rewrite Hdata, slice_slice by lia. f_equal; lia. }
  assert (Hget : (st_readBytes x +! Z.of_nat (length d)) = Z.of_nat (st_out x + length d)) by (rewrite E3; i64_norm; lia).
  apply HQ; [| | | |by apply Hd|by case_match; [right|left]].
  - apply own_on_stream; [by apply own_on_stream|done].
  - apply held_on_stream; [apply held_on_stream; [done|]|].
    + intros y Hy [? [? ?] ? ?]. assert (y = x) as -> by congruence. split; try done. cbn. lia.
    + intros y _ []. by split.
  - apply only_on_stream.
  - exists (st_set_readBytes (Z.of_nat (st_out x + length d)) (st_set_out (st_out x + length d) x)). cbn. rewrite !list_lookup_alter_eq, Hx. cbn. split_and!.
    + by rewrite Hget.
    + unfold consumer_part. cbn. by rewrite E1, E2, E4, E5.
    + done.
    + rewrite length_app. lia.
    + rewrite length_app, Nat2Z.inj_add, Z.add_assoc, <- (slice_app _ (base + Z.of_nat (length acc))) by lia. rewrite <- Hacc. f_equal. rewrite Hsl at 1. f_equal; lia.
Qed.

Lemma stream_read_loop_wp (Q : list byte * option error -> st -> st -> Prop) j o z base n s : forall rounds acc s0 s1,
  own s0 s1 -> held s1 -> only j s s1 -> reads_at j o z base acc s1 -> (length acc <= n)%nat ->
  (forall d err s0 s', own s0 s' -> held s' -> only j s s' -> reads_at j o z base d s' -> (length d <= n)%nat -> (err = None -> length d = n) ->
    (err = Some io_EOF -> base + Z.of_nat (length d) = o + z) -> Q (d, err) s0 s') ->
  WP me (stream_read_loop rounds j n acc) Q s0 s1.
Proof.
  induction rounds as [|rounds IH]; intros acc s0 s1 Ho Hh Hs Hr Hl HQ; cbn [stream_read_loop]; [by apply held_stuck|].
  apply wp_bind. eapply rw_Read_wp; [done..|]. intros d err s2 Ho2 Hh2 Hs2 Hr2 Hd He. apply wp_bind. cbn [wp modify runs].
  set (s3 := on_stream _ _ s2) in *.
  assert (Hs3 : only j s s3) by (eapply only_trans; [exact Hs|eapply only_trans; [exact Hs2|apply only_on_stream]]).
  clearbody s3. clear s1 Ho Hh Hs Hr s2 Hs2.
  assert (Hnone : (match err with Some err => if bool_decide (err = io_EOF) then None else Some err | None => None end) = None) by (by destruct He as [->| ->]).
  rewrite Hnone. apply wp_bind. cbn [wp get runs]. pose proof Hr2 as (x & Hx & Hc & _ & Hpos & _).
  unfold eof at 1, stream_get. rewrite Hx. pose proof (stream_inv_at _ _ _ (proj1 Hh2) Hx) as [_ [Hl1 Hl2] _ _].
  unfold consumer_part in Hc. injection Hc as E1 E2 E3 E4 E5. rewrite length_app in *.
  destruct (Z.leb_spec (st_size x) (st_readBytes x)) as [Hend|Hend].
  { cbn. apply HQ; try done; rewrite length_app; [lia|]. lia. }
  destruct (Nat.leb_spec n (length acc + length d)) as [Hfull|Hfull].
  { cbn. apply HQ; try done; rewrite length_app; lia. }
  apply wp_bind. apply held_wait; [done..|]. intros s4 Ho4 Hh4 Hs4 _. pose proof (reads_at_holder _ _ _ _ _ _ _ Hs4 Hr2) as Hr4.
  pose proof (only_trans _ _ _ _ Hs3 (only_holder j _ _ Hs4)) as Hs5. clear x Hx Hpos Hl1 Hl2 E1 E2 E3 E4 E5 Hend.
  apply wp_bind. cbn [wp get runs]. pose proof Hr4 as (x & Hx & Hc & _). unfold consumer_part in Hc. injection Hc as _ _ _ E4 _.
  unfold ctx_Err. rewrite Hx, E4. destruct (pl_ctxErr s4) as [e|] eqn:Hctx.
  - cbn. apply HQ; try done; rewrite ?length_app; [lia|]. intros [= ->]. by destruct (iv_ctx _ (proj1 Hh4)).
  - eapply IH; [done..| |done]. rewrite length_app. lia.
Qed.

(** The queue once its first stream has been read. *)
Lemma only_queue j js s s' o z base d : held s' -> queue (pl_heap s) (j :: js) (pl_endStream s) -> pl_streams s = j :: js -> only j s s' ->
  (exists x, pl_heap s !! j = Some x /\ st_offset x = o /\ st_size x = z) -> reads_at j o z base d s' ->
  queue (pl_heap s') (pl_streams s') (pl_endStream s').
Proof.
  intros Hh [[start Hc] Hn Hu] Hs [(_ & He & Hst & _ & _) Ha] (x & Hx & Hxo & Hxz) (x' & Hx' & Hc' & _). rewrite He, Hst, Hs.
  unfold consumer_part in Hc'. injection Hc' as E1 E2 _ E4 E5. cbn in *. apply NoDup_cons in Hn as [Hnj Hn].
  assert (Hag : Forall (agree (pl_heap s) (pl_heap s')) js) by (apply Forall_forall; intros k Hk; apply Ha; by intros ->).
  split; try done.
  - destruct Hc as (x0 & Hx0 & Hxs & _ & _ & Hc). assert (x0 = x) as -> by congruence. exists start, x'. split_and!; try congruence.
    rewrite E2, <- Hxz. by eapply chain_agree.
  - by apply NoDup_cons.
  - cbn. by eapply unread_agree.
Qed.

(** *** Read, Close, Open *)
Lemma idle_head s j js : held s -> idle s -> pl_streams s = j :: js -> exists o z, reads_at j o z (pl_offset s) [] s /\
  (exists x, pl_heap s !! j = Some x /\ st_offset x = o /\ st_size x = z).
Proof.
  intros Hh ([[start Hc] _ _] & Hat & Hoff) Hs. rewrite Hs in *. destruct Hat as (x & Hx & Hrb & Hp). cbn in Hc.
  destruct Hc as (x0 & Hx0 & _ & Hcl & Hca & _). assert (x0 = x) as -> by congruence. exists (st_offset x), (st_size x).
  split; [|by exists x]. exists x. split_and!; try done; cbn; [|lia|lia|by rewrite slice_nil by lia].
  unfold consumer_part. by rewrite Hrb, Hcl, Hca.
Qed.

Lemma reads_at_range j o z base d s : held s -> reads_at j o z base d s -> 0 <= base + Z.of_nat (length d) <= size.
Proof.
  intros Hh (x & Hx & Hc & Hb & Hp & _). pose proof (stream_inv_at _ _ _ (proj1 Hh) Hx) as [(Hr1 & Hr2 & Hr3) [Hl1 Hl2] _ _].
  unfold consumer_part in Hc. injection Hc as E1 E2 _ _ _. lia.
Qed.

(** The reader's offset follows the stream. *)
Lemma advance_idle s s' j js o z d : held s' -> idle s -> pl_streams s = j :: js -> only j s s' ->
  (exists x, pl_heap s !! j = Some x /\ st_offset x = o /\ st_size x = z) -> reads_at j o z (pl_offset s) d s' ->
  let s'' := pl_set_offset (pl_offset s' +! Z.of_nat (length d)) s' in
  held s'' /\ idle s'' /\ pl_offset s'' = pl_offset s + Z.of_nat (length d) /\
  (pl_offset s'' = o + z -> forall s3, held s3 -> popped [j] s'' s3 -> idle s3).
Proof.
  intros Hh (Hq & Hat & Hoff) Hs Ho Hx Hr s''. pose proof (obj_Size_max (content := content)) as Hmax.
  pose proof (reads_at_range _ _ _ _ _ _ Hh Hr) as Hrange. rewrite Hs in Hq.
  pose proof (only_queue _ _ _ _ _ _ _ _ Hh Hq Hs Ho Hx Hr) as Hq'. destruct Ho as [(Eo & Ee & Es & _) _].
  assert (Hoff' : pl_offset s'' = pl_offset s + Z.of_nat (length d)) by (subst s''; cbn; rewrite Eo; i64_norm; lia).
  destruct Hr as (x & Hxh & Hc & Hb & Hp & Hd). assert (Hh'' : held s'') by (eapply held_upd; [exact Hh|apply Hh|done..|apply Hh]).
  assert (Hi : idle s'').
  { unfold idle. rewrite Hoff'. split_and!; [done| |lia..]. change (pl_heap s'') with (pl_heap s'). change (pl_streams s'') with (pl_streams s'). rewrite Es, Hs. cbn. exists x.
    unfold consumer_part in Hc. injection Hc as E1 E2 E3 _ _. split_and!; [done|done|lia]. }
  split_and!; try done. intros Hend s3 Hh3 Hp3. destruct Hi as (Hq2 & _ & Hr2). pose proof Hq2 as [[start Hch] _ _].
  destruct (popped_queue _ _ _ Hp3 Hq2) as (Hq3 & Hag & Hun). specialize (Hun ltac:(done)). destruct Hp3 as (E1 & E2 & _ & _ & E5 & _).
  unfold idle. rewrite E1, E2 in *. split_and!; [done| |lia..].
  rewrite E5 in Hch. destruct Hch as (x0 & Hx0 & Hst0 & _ & _ & Hch). change (pl_heap s'') with (pl_heap s') in Hx0. assert (x0 = x) as -> by congruence.
  unfold consumer_part in Hc. injection Hc as F1 F2 _ _ _. assert (Hmid : start + st_size x = pl_offset s'') by lia. rewrite Hmid in Hch.
  apply (chain_agree _ _ _ Hag) in Hch. destruct (pl_streams s3) as [|k ks]; [done|]. cbn in Hch |- *. destruct Hch as (y & Hy & Hyo & _).
  apply Forall_cons in Hun as [(y' & Hy' & Hy1 & Hy2) _]. assert (y' = y) as -> by congruence. exists y. split_and!; [done|lia|lia].
Qed.

(** The mutex held between two operations of the reader. *)
Definition ready s : Prop := held s /\ idle s /\ pl_closed s = false.

Context (streams_pos : 0 < nstreams).

Lemma Read_loop_wp (Q : list byte * option error -> st -> st -> Prop) n pos log : 0 <= pos -> forall rounds acc s0 s, own s0 s -> ready s -> pl_log s = log ->
  pl_offset s = pos + Z.of_nat (length acc) -> acc = slice pos (pos + Z.of_nat (length acc)) content -> (length acc <= n)%nat ->
  (forall d err s0 s', own s0 s' -> ready s' -> pl_log s' = log -> answers content pos (DidRead n d err) (pl_offset s') -> Q (d, err) s0 s') ->
  WP me (Read_loop rounds n acc) Q s0 s.
Proof.
  intros Hpos. induction rounds as [|rounds IH]; intros acc s0 s Ho (Hh & Hi & Hcl) Hlog Hoff Hacc Hl HQ; cbn [Read_loop]; [by apply held_stuck|].
  assert (Hans : forall err, err <> Some io_EOF -> (err = None -> length acc = n) -> answers content pos (DidRead n acc err) (pl_offset s)).
  { intros err He Hn. split_and!; try done. by rewrite Hoff. }
  destruct (Nat.leb_spec n (length acc)) as [Hfull|Hfull].
  { cbn. apply HQ; [done..|]. apply Hans; [done|lia]. }
  apply wp_bind. apply open_wp; [done..|]. intros s1 Hh1 (Hi1 & Ho1 & Eo & Ec & El) Hempty. specialize (Hi1 Hi). specialize (Ho1 _ Ho). apply wp_bind. cbn [wp get runs].
  destruct (pl_streams s1) as [|j js] eqn:Hs1.
  { cbn. apply HQ; [done|by split_and!; try congruence|congruence|]. rewrite Eo. split_and!; try done; [by rewrite Hoff|]. intros _.
    destruct Hi1 as (_ & Hat & _). rewrite Hs1 in Hat. cbn in Hat. rewrite <- Eo, Hat. by apply Hempty. }
  destruct (idle_head _ _ _ Hh1 Hi1 Hs1) as (o & z & Hr & Hx). apply wp_bind. unfold stream_read.
  destruct (Nat.eqb_spec (n - length acc) 0); [lia|].
  eapply stream_read_loop_wp; [exact Ho1|exact Hh1|apply only_refl|exact Hr|cbn; lia|].
  intros d err s0' s2 Ho2 Hh2 Hon Hr2 Hdl Hdn Hde. apply wp_bind. cbn [wp modify runs].
  destruct (advance_idle _ _ _ _ _ _ _ Hh2 Hi1 Hs1 Hon Hx Hr2) as (Hh3 & Hi3 & Hoff3 & Hpop).
  assert (Hs3 : pl_closed s2 = false /\ pl_log s2 = log /\ pl_streams s2 = j :: js) by (destruct Hon as [(?&?&?&?&?) _]; split_and!; congruence).
  assert (Hd : acc ++ d = slice pos (pos + Z.of_nat (length (acc ++ d))) content).
  { destruct Hr2 as (_ & _ & _ & _ & _ & Hd). rewrite length_app, Nat2Z.inj_add, Z.add_assoc, <- (slice_app _ (pos + Z.of_nat (length acc))) by lia.
    rewrite <- Hacc. f_equal. rewrite Hd at 1. f_equal; lia. }
  set (s3 := pl_set_offset _ _) in *. assert (Ho3 : own s0' s3) by exact Ho2. change (pl_closed s2) with (pl_closed s3) in Hs3. change (pl_log s2) with (pl_log s3) in Hs3.
  change (pl_streams s2) with (pl_streams s3) in Hs3.
  clearbody s3. destruct Hs3 as (Hc3 & Hl3 & Hst3). assert (Hoff3' : pl_offset s3 = pos + Z.of_nat (length (acc ++ d))) by (rewrite length_app; lia).
  assert (Hlen : (length (acc ++ d) <= n)%nat) by (rewrite length_app; lia).
  clear s2 Ho2 Hh2 Hon Hr2 Hans. destruct err as [e|]; [|by eapply IH].
  case_bool_decide as He; [|].
  - subst e. apply wp_bind. eapply popStream_wp; [done..|]. intros perr s0'' s4 Ho4 Hh4 Hp4 Hne. pose proof Hp4 as (Eo4 & _ & Ec4 & El4 & _).
    assert (Hi4 : idle s4) by (eapply Hpop; [rewrite Hoff3; by apply Hde|done|done]).
    assert (Hr4 : ready s4) by (split_and!; [done..|congruence]).
    destruct perr as [e|]; [|eapply IH; [done..|congruence|congruence|done|done|done]].
    cbn. apply HQ; [done|done|congruence|]. split_and!; try done; congruence.
  - cbn. apply HQ; [done|done|done|]. split_and!; try done; congruence.
Qed.

Lemma held_log e s pos : held s -> cursor content (e :: pl_log s) pos -> held (log_event e s).
Proof. intros [[] Hm] Hc. split; [|done]. split; try done. exists pos. split; [done|]. cbn. congruence. Qed.

(** Bringing a call to its end. *)
Lemma finish_wp {A} (res : A) s0 s : own s0 s -> held s -> (pl_closed s = true \/ idle s) -> cursor content (pl_log s) (pl_offset s) ->
  WP me (mu_Unlock;; mret res) (fun _ s0 s => G me s0 s) s0 s.
Proof. intros. apply wp_bind. by eapply pl_mu_Unlock_wp. Qed.

Lemma answered_wp {A} (res : A) e s0 s pos : own s0 s -> ready s -> cursor content (pl_log s) pos -> answers content pos e (pl_offset s) ->
  WP me (mu_Unlock;; mret res) (fun _ s0 s => G me s0 s) s0 (log_event e s).
Proof.
  intros Ho (Hh & Hi & Hc) Hcur Ha. assert (cursor content (e :: pl_log s) (pl_offset s)) by (by eapply cursor_step).
  apply finish_wp; [done|by eapply held_log|by right|done].
Qed.

Lemma pl_Read_wp rounds n s0 s : G me s0 s -> WP me (Read me rounds n) (fun _ s0 s => G me s0 s) s0 s.
Proof.
  intros Hg. unfold Read. apply wp_bind. apply pl_mu_Lock_wp; [done|]. clear s0 s Hg. intros s0 s Ho Hh Hci Hcur.
  apply wp_bind. cbn [wp get runs]. destruct (pl_closed s) eqn:Hc; [apply wp_bind; apply finish_wp; rewrite ?Hc; auto|].
  destruct Hci as [?|Hi]; [congruence|]. apply wp_bind, wp_bind.
  eapply Read_loop_wp; [apply Hi|done|by split_and!|done|cbn; lia|cbn; by rewrite slice_nil by lia|cbn; lia|].
  intros d err s1 s2 Ho2 Hr2 Hlog Ha. apply wp_bind. cbn [wp modify runs mret locked_ret fst snd]. eapply answered_wp; [done|done|by rewrite Hlog|done].
Qed.

Lemma pl_Close_wp s0 s : G me s0 s -> WP me (Close me) (fun _ s0 s => G me s0 s) s0 s.
Proof.
  intros Hg. unfold Close. apply wp_bind. apply pl_mu_Lock_wp; [done|]. clear s0 s Hg. intros s0 s Ho Hh Hci Hcur.
  apply wp_bind. cbn [wp get runs]. destruct (pl_closed s) eqn:Hc; [apply finish_wp; rewrite ?Hc; auto|].
  apply wp_bind. cbn [wp modify runs]. apply wp_bind. eapply popStreams_wp; [done|by eapply held_upd; [exact Hh|apply Hh|done..|apply Hh]|].
  intros err gone s1 s2 Ho2 Hh2 (E1 & E2 & E3 & E4 & _) _ _. apply finish_wp; [done|done|left; by rewrite E3|]. by rewrite E4, E1.
Qed.

Lemma Open_wp s0 s : G me s0 s -> WP me (Open me) (fun _ s0 s => G me s0 s) s0 s.
Proof.
  intros Hg. unfold Open. apply wp_bind. apply pl_mu_Lock_wp; [done|]. clear s0 s Hg. intros s0 s Ho Hh Hci Hcur. apply wp_bind.
  apply open_wp; [done..|]. intros s1 Hh1 (Hi1 & Ho1 & Eo & Ec & El) _. apply finish_wp; [by apply Ho1|done| |congruence].
  destruct Hci; [left; congruence|right; auto].
Qed.

(** *** Seek *)
Lemma ends_at j s : pl_inv s -> stream_get j (fun x => st_offset x +! st_size x) 0 s = stream_get j (fun x => st_offset x + st_size x) 0 s.
Proof.
  intros Hi. unfold stream_get. destruct (pl_heap s !! j) as [x|] eqn:Hx; [|done]. pose proof (stream_inv_at _ _ _ Hi Hx) as [(?&?&?) _ _ _].
  pose proof (obj_Size_max (content := content)). by i64_norm.
Qed.

Lemma pop_before_wp (Q : unit -> st -> st -> Prop) new s : forall rounds s0 s1 gone, own s0 s1 -> held s1 -> popped gone s s1 -> (length (pl_streams s1) <= rounds)%nat ->
  (forall gone s0 s', own s0 s' -> held s' -> popped gone s s' ->
    match pl_streams s' with [] => True | j :: _ => new < stream_get j (fun x => st_offset x + st_size x) 0 s' end -> Q tt s0 s') ->
  WP me (pop_before rounds new) Q s0 s1.
Proof.
  induction rounds as [|rounds IH]; intros s0 s1 gone Ho Hh Hp Hl HQ; cbn [pop_before].
  - cbn. eapply HQ; [done..|]. destruct (pl_streams s1); [done|cbn in Hl; lia].
  - apply wp_bind. cbn [wp get runs]. destruct (pl_streams s1) as [|j js] eqn:Hs; [eapply HQ; [done..|by rewrite Hs]|].
    apply wp_bind. cbn [wp get runs]. rewrite ends_at by apply Hh. destruct (Z.leb_spec (stream_get j (fun x => st_offset x + st_size x) 0 s1) new) as [Hle|Hlt].
    + apply wp_bind. eapply popStream_wp; [done..|]. intros e s0' s2 Ho2 Hh2 Hp2 _. eapply IH; [done|done|by eapply popped_trans| |done].
      destruct Hp2 as (_&_&_&_&Hs2&_). rewrite Hs in Hs2. cbn in Hs2, Hl. injection Hs2 as Hs2. rewrite <- Hs2. lia.
    + cbn. eapply HQ; [done..|]. by rewrite Hs.
Qed.

Lemma wait_stored_wp (Q : unit -> st -> st -> Prop) j v k s : forall rounds s0 s1, own s0 s1 -> held s1 -> only j s s1 ->
  (exists x, pl_heap s1 !! j = Some x /\ consumer_part x = v) ->
  (forall s0 s' x, own s0 s' -> held s' -> only j s s' -> pl_heap s' !! j = Some x -> consumer_part x = v -> k <= Z.of_nat (length (st_data x)) -> Q tt s0 s') ->
  WP me (wait_stored rounds j k) Q s0 s1.
Proof.
  induction rounds as [|rounds IH]; intros s0 s1 Ho Hh Hon (x & Hx & Hv) HQ; cbn [wait_stored]; [by apply held_stuck|].
  apply wp_bind. cbn [wp get runs]. unfold stream_get. rewrite Hx. destruct (Z.ltb_spec (Z.of_nat (length (st_data x))) k) as [Hlt|Hge].
  - apply wp_bind. apply held_wait; [done..|]. intros s2 Ho2 Hh2 Hs2 _. apply IH; [done|done| | |done].
    + eapply only_trans; [done|by apply only_holder].
    + unfold holder_state in Hs2. injection Hs2 as _ _ _ _ _ _ Hp. destruct (agree_lookup _ _ j x (agree_all _ _ j Hp) Hx) as (x' & Hx' & Hc'). exists x'. split; congruence.
  - cbn. by eapply HQ.
Qed.

(** With no streams, the next one starts at the offset. *)
Lemma restart_ready s : held s -> pl_streams s = [] -> pl_closed s = false -> 0 <= pl_offset s <= size ->
  ready (pl_set_endStream (pl_offset s) s).
Proof.
  intros Hh Hs Hc Hoff. split_and!; [by eapply held_upd; [exact Hh|apply Hh|done..]| |done].
  unfold idle. cbn. rewrite Hs. split_and!; [|done|lia..]. split; [by eexists|apply NoDup_nil_2|done].
Qed.

Lemma seek_streams_wp (Q : option error -> st -> st -> Prop) rounds new s0 s : own s0 s -> held s -> pl_offset s = new -> 0 <= new < size -> pl_closed s = false ->
  queue (pl_heap s) (pl_streams s) (pl_endStream s) ->
  (forall s0 s', own s0 s' -> ready s' -> pl_offset s' = new -> pl_log s' = pl_log s -> Q None s0 s') -> WP me (seek_streams rounds new) Q s0 s.
Proof.
  intros Ho Hh Hoff Hnew Hc Hq HQ. unfold seek_streams. apply wp_bind. cbn [wp get runs]. apply wp_bind.
  eapply pop_before_wp; [done|done|apply popped_refl|done|]. intros gone s0' s1 Ho1 Hh1 Hp1 Hhead.
  destruct (popped_queue _ _ _ Hp1 Hq) as (Hq1 & _ & _). pose proof Hp1 as (E1 & E2 & E3 & E4 & _). apply wp_bind. cbn [wp get runs].
  destruct (pl_streams s1) as [|j js] eqn:Hs1.
  { cbn. apply HQ; [done|apply restart_ready; [done..|congruence|lia]|cbn; lia|done]. }
  pose proof Hq1 as [[start Hch] _ _]. destruct Hch as (x & Hx & Hst & Hcl & Hca & Hch). unfold stream_get in Hhead. rewrite Hx in Hhead.
  apply wp_bind. cbn [wp get runs]. assert (Hgx : stream_get j st_offset 0 s1 = st_offset x) by (unfold stream_get; by rewrite Hx).
  rewrite !Hgx. destruct (Z.ltb_spec new (st_offset x)) as [Hlt|Hge].
  { apply wp_bind. eapply popStreams_wp; [done..|]. intros err gone2 s0'' s2 Ho2 Hh2 (F1 & F2 & F3 & F4 & _) _ Hs2. apply wp_bind. cbn.
    apply HQ; [done|apply restart_ready; [done..|congruence|lia]|cbn; lia|cbn; congruence]. }
  pose proof (stream_inv_at _ _ _ (proj1 Hh1) Hx) as [(Hr1 & Hr2 & Hr3) _ _ _]. pose proof (obj_Size_max (content := content)) as Hmax.
  assert (Hso : new -! st_offset x = new - st_offset x) by (i64_norm; done). rewrite !Hso.
  apply wp_bind. cbn [wp modify runs]. apply wp_bind.
  eapply (wait_stored_wp _ j (st_offset x, st_size x, new - st_offset x, st_out x, false, false) _ s1); [by apply own_on_stream| |apply only_on_stream| |].
  { apply held_on_stream; [done|]. intros y _ []. by split. }
  { eexists. cbn. rewrite list_lookup_alter_eq, Hx. split; [done|]. unfold consumer_part. cbn. by rewrite Hcl, Hca. }
  intros s0'' s2 y Ho2 Hh2 Hon Hy Hv Hlen. apply wp_bind. unfold rw_Seek, with_state, wp, stream_get. rewrite Hy.
  destruct (Z.ltb_spec (Z.of_nat (length (st_data y))) (new - st_offset x)); [lia|]. cbn [runs mret locked_ret].
  set (f := st_set_out _). pose proof (only_trans _ _ _ _ Hon (only_on_stream j f s2)) as Hon3.
  assert (Ho3 : own s0'' (on_stream j f s2)) by (by apply own_on_stream).
  assert (Hh3 : held (on_stream j f s2)).
  { apply held_on_stream; [done|]. intros y0 Hy0 [? [? ?] ? ?]. assert (y0 = y) as -> by congruence. split; try done. cbn. lia. }
  assert (Hy3 : pl_heap (on_stream j f s2) !! j = Some (f y)) by (cbn; by rewrite list_lookup_alter_eq, Hy).
  unfold consumer_part in Hv. injection Hv as V1 V2 V3 V4 V5 V6.
  assert (Hr3' : reads_at j (st_offset x) (st_size x) new [] (on_stream j f s2)).
  { exists (f y). subst f. split; [done|]. cbn. split_and!; [|lia|lia|by rewrite slice_nil by lia].
    unfold consumer_part. cbn. rewrite V1, V2, V3, V5, V6. by rewrite Z2Nat.id by lia. }
  set (s3 := on_stream j f s2) in *. clearbody s3. pose proof Hon3 as [(F1 & F2 & F3 & F4 & F5) _].
  apply HQ; [done| |congruence|congruence]. split_and!; [done| |congruence]. unfold idle. split_and!.
  - eapply (only_queue j js s1 s3 (st_offset x) (st_size x)); [done|done|done|done|by exists x|exact Hr3'].
  - rewrite F3, Hs1. exists (f y). split_and!; [done|subst f; cbn; rewrite V3; lia|subst f; cbn; lia].
  - lia.
  - lia.
Qed.

Lemma Seek_locked_wp (Q : Z * option error -> st -> st -> Prop) rounds offset whence s0 s : in64 offset -> own s0 s -> ready s ->
  (forall r err s0 s', own s0 s' -> ready s' -> pl_log s' = pl_log s -> answers content (pl_offset s) (DidSeek offset whence r err) (pl_offset s') -> Q (r, err) s0 s') ->
  WP me (Seek_locked rounds offset whence) Q s0 s.
Proof.
  intros Hin Ho (Hh & Hi & Hc) HQ. unfold Seek_locked. apply wp_bind. cbn [wp get runs]. rewrite (obj_Size_ok (content := content)).
  pose proof (obj_Size_max (content := content)) as Hmax. pose proof Hi as (Hq & Hat & Hoff).
  set (base := if whence =? io_SeekStart then 0 else if whence =? io_SeekEnd then size else pl_offset s).
  assert (Hbase : 0 <= base <= size) by (subst base; repeat case_match; lia).
  assert (Htarget : seek_target size (pl_offset s) offset whence = base + offset) by done.
  assert (Hdec : (base +! offset <? 0) || (size <=? base +! offset) = negb ((0 <=? base + offset) && (base + offset <? size)) /\
    ((0 <=? base + offset) && (base + offset <? size) = true -> base +! offset = base + offset)).
  { pose proof (i64_range (base + offset)) as Hrg. destruct (i64_congr (base + offset)) as [k Hk]. unfold in64 in *. unfold MaxInt64, MinInt64 in *.
    destruct (Z.leb_spec 0 (base + offset)), (Z.ltb_spec (base + offset) size), (Z.ltb_spec (base +! offset) 0), (Z.leb_spec size (base +! offset)); cbn; split; (done || lia). }
  destruct Hdec as [Hcond Heq]. rewrite Hcond. unfold answers in HQ. rewrite Htarget in HQ. 
  destruct ((0 <=? base + offset) && (base + offset <? size)) eqn:Hin2; cbn [negb].
  - rewrite Heq by done. apply andb_prop in Hin2 as [H1 H2]. apply Z.leb_le in H1. apply Z.ltb_lt in H2.
    destruct (Z.eqb_spec (base + offset) (pl_offset s)) as [He|Hne]; [cbn; apply HQ; [done|by split_and!|done|by split_and!]|].
    apply wp_bind. cbn [wp modify runs]. apply wp_bind. eapply seek_streams_wp; [done|by eapply held_upd; [exact Hh|apply Hh|done..|apply Hh]|done|lia|done|done|].
    intros s0' s' Ho' Hr' E1 E2. cbn. apply HQ; [done..|]. by split_and!.
  - cbn. apply HQ; [done|by split_and!|done|done].
Qed.

Lemma Seek_wp rounds offset whence s0 s : in64 offset -> G me s0 s -> WP me (Seek me rounds offset whence) (fun _ s0 s => G me s0 s) s0 s.
Proof.
  intros Hin Hg. unfold Seek. apply wp_bind. apply pl_mu_Lock_wp; [done|]. clear s0 s Hg. intros s0 s Ho Hh Hci Hcur.
  apply wp_bind. cbn [wp get runs]. destruct (pl_closed s) eqn:Hc; [apply wp_bind; apply finish_wp; rewrite ?Hc; auto|].
  destruct Hci as [?|Hi]; [congruence|]. apply wp_bind, wp_bind. eapply Seek_locked_wp; [done|done|by split_and!|].
  intros r err s1 s2 Ho2 Hr2 Hlog Ha. apply wp_bind. cbn [wp modify runs mret locked_ret fst snd]. eapply answered_wp; [done|done|by rewrite Hlog|done].
Qed.

(** *** All the operations *)
Definition op_ok (op : parallel_op) : Prop := match op with OpSeek _ offset _ => in64 offset | _ => True end.

Lemma cancel_wp s0 s : G me s0 s -> WP me (wait_until (fun _ => true);; modify (pl_set_ctxErr (Some context_Canceled))) (fun _ s0 s => G me s0 s) s0 s.
Proof.
  intros Hg. apply wp_bind. apply wp_step; [done|]. intros s1 Hr Hi He. cbn. split; [destruct Hi; by split|]. intros j _. split; [done|]. intros _. apply stream_stable_refl.
Qed.

Lemma pl_run_ops_wp ops : Forall op_ok ops -> forall s0 s, G me s0 s -> WP me (run_ops me ops) (fun _ s0 s => G me s0 s) s0 s.
Proof.
  induction 1 as [|op ops Hop _ IH]; intros s0 s Hg; cbn [run_ops]; [done|]. apply wp_bind.
  eapply (wp_mono pl_inv rely me _ (fun _ s0 s => G me s0 s)); [intros a s0' s' Hg'; by apply IH|].
  destruct op; cbn [run_op]; [..|by apply cancel_wp]; apply wp_bind; (eapply wp_mono; [|]; [|by (apply pl_Read_wp || apply Seek_wp || apply pl_Close_wp || apply Open_wp)]; done).
Qed.

Lemma client_sound ops s : Forall op_ok ops -> sound pl_inv rely me (fun _ => True) (with_lock (run_ops me ops)) s.
Proof.
  intros Hops. apply sound_with_lock. intros s1 Hi. eapply (wp_mono pl_inv rely me _ (fun _ s0 s => G me s0 s)); [by intros a s0 s' Hg|]. apply pl_run_ops_wp; [done|].
  split; [done|]. intros j _. apply pl_rely_refl.
Qed.
End client.

Context (retries : 0 <= LowLevelRetries (GetConfig ctx) < MaxInt64) (buffer_pos : 0 < bufferpool_BufferSize) (chunk_pos : 0 < chunk)
  (in_range : size + chunk + bufferpool_BufferSize <= MaxInt64) (streams_pos : 0 < nstreams).

Lemma pl_init_inv (w : W) choice : pl_inv (mkParallel w chunk nstreams 0 0 [] [] false None None choice []).
Proof.
  split; try done; cbn; [exists 0; by split; [constructor|]| |lia]. intros _. right. split_and!; cbn; try lia. split; [by eexists|apply NoDup_nil_2|done].
Qed.

Lemma parallel_reachable (w : W) choice rounds nstream clients (c : par st) : length clients = K -> Forall (Forall op_ok) clients ->
  rtc par_step (mkParallel w chunk nstreams 0 0 [] [] false None None choice [],
    parallel_goroutines isNoLowLevelRetryError ctx bufferpool_BufferSize rounds nstream clients) c -> pl_inv (fst c).
Proof.
  intros HK Hops Hc. eapply (par_rely pl_inv rely pl_rely_refl pl_rely_trans _ _ (fun _ _ => True)) in Hc as [Hi _]; [done|done|apply pl_init_inv|].
  intros i p. cbn. unfold parallel_goroutines. intros Hp. apply lookup_app_Some in Hp as [Hp|[Hge Hp]].
  - rewrite list_lookup_imap in Hp. destruct (clients !! i) as [ops|] eqn:Hops'; [|done]. injection Hp as <-.
    apply client_sound; try done; [apply lookup_lt_Some in Hops'; lia|]. by eapply (Forall_lookup_1 _ _ _ _ Hops).
  - rewrite length_imap in Hge, Hp. rewrite list_lookup_fmap in Hp. destruct (seq 0 nstream !! (i - length clients)%nat) as [k|] eqn:Hk; [|done]. injection Hp as <-.
    apply lookup_seq in Hk as [-> _]. rewrite HK. replace i with (K + (0 + (i - K)))%nat at 1 by lia. by apply stream_goroutine_sound.
Qed.
End invariant.

(** [New] makes chunks of a positive size. *)
Lemma New_chunk {W R} `{Object W R} B (w : W) initial limit streams choice s : 0 < B -> initial + 2 * B <= MaxInt64 -> 2 * B <= MaxInt64 -> New B w initial limit streams choice = inr s ->
  exists chunk nstreams, s = mkParallel w chunk nstreams 0 0 [] [] false None None choice [] /\ 0 < chunk /\ chunk <= Z.max initial B + B /\ 1 < nstreams.
Proof.
  intros HB Hmax HB2. unfold New. destruct (Z.leb_spec (if streams <? 0 then 0 else streams) 1) as [|Hn]; [done|]. destruct (obj_Size <? 0); [done|]. intros [= <-].
  unfold newParallel. eexists _, _. split; [reflexivity|]. cbn. split_and!; [| |done].
  all: set (c := if (if initial <=? 0 then -1 else initial) <? 0 then B else (if initial <=? 0 then -1 else initial)).
  all: assert (Hc : 0 < c /\ c <= Z.max initial B /\ c <= MaxInt64 - 2 * B \/ c = B) by (subst c; destruct (Z.leb_spec initial 0); cbn; [by right|]; destruct (Z.ltb_spec initial 0); lia).
  all: assert (Hq : c ÷ B = c / B) by (apply Z.quot_div_nonneg; lia); rewrite Hq; pose proof (Z.div_mod c B ltac:(lia)); pose proof (Z.mod_pos_bound c B ltac:(lia)).
  all: assert (Hm : B *! (c / B) = B * (c / B)) by (apply i64_id; unfold in64, MinInt64, MaxInt64 in *; nia); rewrite Hm.
  all: destruct (Z.ltb_spec (B * (c / B)) c); [|nia]; rewrite i64_id by (unfold in64, MinInt64, MaxInt64 in *; nia); nia.
Qed.

(** ** A stream whose goroutine has failed *)
Section stalled.
Context {W R : Type} `{Object W R} (me : nat).
Notation st := (parallel W R).
Implicit Types s : st.

(** [m] alone never comes to an end. *)
Definition endless {A} (m : locked st A) s : Prop := let '(s', p) := m s in run_proc p s' = None.

Lemma endless_now {A B} (m : locked st A) (k : A -> locked st B) s s1 a : m s = (s1, Done a) -> endless (k a) s1 -> endless (m ≫= k) s.
Proof. intros Hm Hk. unfold endless, mbind, locked_bind. by rewrite Hm. Qed.

Lemma endless_wait {B} (k : unit -> locked st B) s : endless (k tt) s -> endless (wait_until (fun _ => true) ≫= k) s.
Proof. unfold endless, mbind, locked_bind. cbn. destruct (k tt s) as [s' p]. done. Qed.

Lemma endless_lock {B} (k : unit -> locked st B) s : pl_mu s = None -> endless (k tt) (pl_set_mu (Some me) s) -> endless (mu_Lock me ≫= k) s.
Proof. intros Hm. unfold endless, mu_Lock, mbind, locked_bind. cbn. rewrite bool_decide_true by done. by destruct (k tt (pl_set_mu (Some me) s)) as [s' p]. Qed.

Lemma endless_with_lock {A} (m : locked st A) s : endless m s -> run_proc (with_lock m) s = None.
Proof. unfold endless. cbn. by destruct (m s). Qed.

Lemma endless_bind {A B} (m : locked st A) (k : A -> locked st B) s : endless m s -> endless (m ≫= k) s.
Proof.
  unfold endless, mbind, locked_bind. destruct (m s) as [s1 p]. revert s1.
  induction p as [a|enabled section IH] using proc_section_ind; intros s1; cbn; [done|]. destruct (enabled s1); [|done].
  specialize (IH s1). destruct (section s1) as [s2 p2]. intros Hp. apply IH in Hp. cbn in *. destruct (proc_bind p2 k s2). exact Hp.
Qed.

(** Stream [j] will have no more bytes, and they are fewer than are asked for. *)
Definition stalled (j n : nat) (acc : list byte) s : Prop :=
  pl_ctxErr s = None /\ exists x, pl_heap s !! j = Some x /\ st_closed x = false /\ st_cancelled x = false /\
    st_readBytes x = Z.of_nat (st_out x) /\ (st_out x <= length (st_data x))%nat /\ Z.of_nat (length (st_data x)) < st_size x <= MaxInt64 /\
    (length acc + (length (st_data x) - st_out x) < n)%nat.

Lemma stream_read_endless j n rounds : forall acc s, stalled j n acc s -> endless (stream_read_loop rounds j n acc) s.
Proof.
  induction rounds as [|rounds IH]; intros acc s (Hctx & x & Hx & Hcl & Hca & Hrb & Hout & Hlen & Hn); cbn [stream_read_loop]; [done|].
  set (d := take (n - length acc) (drop (st_out x) (st_data x))).
  assert (Hd : length d = (length (st_data x) - st_out x)%nat) by (subst d; rewrite length_take, length_drop; lia).
  eapply endless_now.
  { unfold rw_Read, with_state, stream_get. rewrite Hx, Hcl. fold d. reflexivity. }
  assert (He : (if (length d <? n - length acc)%nat then Some io_EOF else None) = Some io_EOF) by (destruct (Nat.ltb_spec (length d) (n - length acc)); [done|lia]).
  rewrite He. clear He. eapply endless_now; [reflexivity|]. cbn match. rewrite bool_decide_true by done. set (s1 := on_stream _ _ (on_stream _ _ s)).
  set (y := st_set_readBytes (Z.of_nat (length (st_data x))) (st_set_out (length (st_data x)) x)).
  assert (Hy : pl_heap s1 !! j = Some y).
  { assert (Hrd : st_readBytes x +! Z.of_nat (length d) = Z.of_nat (length (st_data x))) by (rewrite Hrb, Hd; i64_norm; lia).
    assert (Ho : (st_out x + length d)%nat = length (st_data x)) by lia.
    subst s1 y. cbn. rewrite !list_lookup_alter_eq, Hx. cbn. by rewrite Hrd, Ho. }
  assert (Hs1 : stalled j n (acc ++ d) s1).
  { split; [done|]. exists y. split; [done|]. subst y. cbn. split_and!; try done; rewrite ?length_app; lia. }
  clearbody s1. eapply endless_now; [reflexivity|]. unfold eof, stream_get. rewrite Hy. subst y. cbn [st_size st_readBytes st_set_readBytes st_set_out].
  destruct (Z.leb_spec (st_size x) (Z.of_nat (length (st_data x)))); [lia|]. rewrite length_app. destruct (Nat.leb_spec n (length acc + length d)); [lia|].
  apply endless_wait. eapply endless_now; [reflexivity|]. unfold ctx_Err. rewrite Hy. cbn [st_cancelled st_set_readBytes st_set_out]. rewrite Hca.
  pose proof Hs1 as [Hc1 _]. rewrite Hc1. by apply IH.
Qed.

Lemma open_streams_prefix n : forall s j x, pl_heap s !! j = Some x -> pl_heap (open_streams n s) !! j = Some x /\
  pl_ctxErr (open_streams n s) = pl_ctxErr s /\ exists js, pl_streams (open_streams n s) = pl_streams s ++ js.
Proof.
  induction n as [|n IH]; intros s j x Hx; cbn [open_streams]; [split_and!; [done|done|exists []; by rewrite app_nil_r]|].
  destruct (if obj_Size <? _ then _ else _) as [m e]. cbn [newStream]. set (s1 := pl_set_endStream _ _).
  assert (H1 : pl_heap s1 !! j = Some x) by (subst s1; cbn; by apply lookup_app_l_Some).
  assert (H2 : exists k, pl_streams s1 = pl_streams s ++ [k] /\ pl_ctxErr s1 = pl_ctxErr s) by (subst s1; cbn; by eexists).
  clearbody s1. destruct H2 as (k & H2 & H3). destruct (obj_Size <=? pl_endStream s1); [by split_and!; [|congruence|eexists]|].
  destruct (IH s1 j x H1) as (? & ? & js & Hjs). split_and!; [done|congruence|]. exists (k :: js). by rewrite Hjs, H2, <- app_assoc.
Qed.
End stalled.

(** ** Theorems *)

(** C21. parallel_delivers_in_order: however many callers read, seek, close and
    cancel, and however they and the goroutines of the streams interleave, with
    whatever errors of the origin, the answers are those of a cursor over the
    object's bytes: a read returns the bytes at the position and moves it by their
    number, all it asked for unless it fails, [io.EOF] only at the end; a seek to a
    position of the object moves there, any other is refused and moves nothing.
    While nobody holds the mutex the reader's offset is that position. *)
Theorem parallel_delivers_in_order {W R} content `{Hok : ObjectOK W R content} no_retry ctx B (w : W) initial limit streams choice s rounds nstream clients c :
  0 < B -> 0 <= LowLevelRetries (GetConfig ctx) < MaxInt64 -> Z.of_nat (length content) + Z.max initial 1 + 3 * B <= MaxInt64 ->
  Forall (Forall op_ok) clients -> New B w initial limit streams choice = inr s ->
  rtc par_step (s, parallel_goroutines no_retry ctx B rounds nstream clients) c ->
  exists pos, cursor content (pl_log (fst c)) pos /\ (pl_mu (fst c) = None -> pl_offset (fst c) = pos).
Proof.
  intros HB Hll Hmax Hops Hnew Hc. apply New_chunk in Hnew as (chunk & n & -> & H1 & H2 & H3); [|lia..].
  apply (parallel_reachable content no_retry ctx B chunk n (length clients)) in Hc; [|done|done|done|lia|lia|done|done].
  destruct Hc as [_ _ [pos [Hcur Hpos]] _ _ _]. exists pos. split; [done|]. intros Hm. symmetry. auto.
Qed.

(** The goroutine of stream [j] has ended with part of the stream stored, less than
    the [n] bytes a caller wants. *)
Definition ended_early {W R} (j n : nat) (s : parallel W R) : Prop :=
  exists x, pl_heap s !! j = Some x /\ st_done x = true /\ st_closed x = false /\ st_cancelled x = false /\
    st_readBytes x = Z.of_nat (st_out x) /\ (st_out x <= length (st_data x))%nat /\ Z.of_nat (length (st_data x)) < st_size x <= MaxInt64 /\
    (length (st_data x) - st_out x < n)%nat.

(** C38. parallel_Read_never_returns: when the goroutine of the first stream has
    ended before its stream was complete (the origin failed for good), a [Read] that
    asks for more than was stored never returns: it polls the stream for ever with
    the mutex held, since nothing in it looks at the error the goroutine left. *)
Theorem parallel_Read_never_returns {W R} `{Object W R} me (s : parallel W R) j js rounds n :
  0 <= obj_Size -> pl_mu s = None -> pl_closed s = false -> pl_ctxErr s = None -> pl_streams s = j :: js -> ended_early j n s ->
  run_proc (with_lock (Read me rounds n)) s = None.
Proof.
  intros Hsz Hm Hc Hctx Hs (x & Hx & _ & Hcl & Hca & Hrb & Hout & Hlen & Hn).
  assert (Hread : endless (Read_loop rounds n []) (pl_set_mu (Some me) s)).
  { destruct rounds as [|rounds]; [done|]. cbn [Read_loop length]. destruct (Nat.leb_spec n 0); [lia|].
    set (s1 := pl_set_mu (Some me) s). assert (Ho : exists s2 js', _open s1 = (s2, Done None) /\ pl_streams s2 = j :: js' /\ stalled j n [] s2).
    { unfold _open, with_state. destruct (Z.ltb_spec obj_Size 0); [lia|].
      assert (Hst : forall s2 : parallel W R, pl_heap s2 !! j = Some x -> pl_ctxErr s2 = None -> stalled j n [] s2) by (intros; split; [done|]; exists x; split_and!; try done; cbn; lia).
      destruct (obj_Size <=? pl_endStream s1); [exists s1, js; split_and!; [done|done|by apply Hst]|].
      destruct (open_streams_prefix (Z.to_nat (pl_nstreams s1 - Z.of_nat (length (pl_streams s1)))) s1 j x Hx) as (Hy & Hcy & ks & Hks).
      eexists _, (js ++ ks). split_and!; [reflexivity|by rewrite Hks; subst s1; cbn; rewrite Hs|apply Hst; [done|by rewrite Hcy]]. }
    destruct Ho as (s2 & js' & Ho & Hs2 & Hst). eapply endless_now; [exact Ho|]. eapply endless_now; [reflexivity|]. rewrite Hs2.
    apply endless_bind. unfold stream_read. rewrite Nat.sub_0_r. destruct (Nat.eqb_spec n 0); [lia|]. by apply stream_read_endless. }
  apply endless_with_lock. unfold Read. apply endless_lock; [done|]. eapply endless_now; [reflexivity|]. cbn [pl_closed pl_set_mu]. rewrite Hc.
  by apply endless_bind, endless_bind.
Qed.

(** ** Runs

    The ten bytes of the demonstration object through two streams of four bytes, the
    origin failing once. *)
Definition parallel_start : parallel script (list byte) := newParallel 2 (mkScript [(0, None); (1, Some (Errorf "reset"))]%nat) 3 2 [].
Definition parallel_ops : list parallel_op := [OpRead 20 5; OpSeek 20 2 io_SeekStart; OpSeek 20 1 io_SeekEnd; OpRead 20 4; OpRead 20 20; OpClose].
Definition parallel_end : par (parallel script (list byte)) :=
  par_exec (concat (replicate 40 [0; 1; 2; 3; 4; 5; 6]%nat)) (parallel_start, parallel_goroutines (fun _ => false) None 2 20 6 [parallel_ops]).

Lemma parallel_reaches : rtc par_step (parallel_start, parallel_goroutines (fun _ => false) None 2 20 6 [parallel_ops]) parallel_end.
Proof. exact (par_exec_steps _ _). Qed.

Lemma parallel_delivers_in_order_witness :
  (exists pos, cursor demo_content (pl_log (fst parallel_end)) pos /\ (pl_mu (fst parallel_end) = None -> pl_offset (fst parallel_end) = pos)) /\
  pl_mu (fst parallel_end) = None /\ pl_offset (fst parallel_end) = 10 /\
  pl_log (fst parallel_end) = [DidRead 20 [x06; x07; x08; x09] (Some io_EOF); DidRead 4 [x02; x03; x04; x05] None;
    DidSeek 1 io_SeekEnd 0 (Some ErrorInvalidSeek); DidSeek 2 io_SeekStart 2 None; DidRead 5 [x00; x01; x02; x03; x04] None].
Proof.
  split; [|split_and!; vm_compute; reflexivity].
  apply (parallel_delivers_in_order demo_content (fun _ => false) None 2 (mkScript [(0, None); (1, Some (Errorf "reset"))]%nat) 3 (-1) 2 [] parallel_start 20 6 [parallel_ops]).
  - reflexivity.
  - split; [discriminate|reflexivity].
  - discriminate.
  - repeat constructor; discriminate.
  - reflexivity.
  - exact parallel_reaches.
Defined.

(** An origin that fails after a byte, with no retry left: the goroutine ends, with
    its error in the channel. *)
Definition failed_ctx : option Config := Some (mkConfig 0 0 false 1).
Definition failed_goroutines : list (proc (parallel script (list byte)) unit) := parallel_goroutines (fun _ => false) failed_ctx 2 20 2 [[OpOpen]].
Definition failed_end : par (parallel script (list byte)) :=
  par_exec [0; 0; 1; 1; 1]%nat (newParallel 2 (mkScript [(1, Some (Errorf "reset"))]%nat) 3 2 [], failed_goroutines).

Lemma parallel_Read_never_returns_witness :
  (exists x, pl_heap (fst failed_end) !! 0%nat = Some x /\ st_err x = Some (Some (Errorf "reset")) /\ st_data x = [x00]) /\
  forall rounds, run_proc (with_lock (Read 0 rounds 4)) (fst failed_end) = None.
Proof.
  split; [eexists; split_and!; vm_compute; reflexivity|]. intros rounds.
  apply (parallel_Read_never_returns 0 (fst failed_end) 0 [1%nat] rounds 4); [discriminate|vm_compute; reflexivity..|].
  eexists. split; [vm_compute; reflexivity|]. cbn. unfold MaxInt64. split_and!; (reflexivity || lia).
Defined.
