(* ===== verification/Options.v ===== *)
(** * The cache options (cache/options.go) *)
From stdpp Require Import base numbers strings.
From Stdlib Require Import ZArith Lia.
From S2P Require Import Prelude.

Local Open Scope Z_scope.

Definition mebi : Z := 1024 * 1024.

(** [time.Duration] constants, in nanoseconds. *)
Definition time_Second : Z := 1000000000.
Definition time_Hour : Z := 3600 * time_Second.

Record Options := mkOptions {
  CachePollInterval : Z;
  CacheMaxAge : Z;
  CacheMaxSize : Z;
  CacheMinFreeSpace : Z;
  CacheShardDepth : Z;
  ChunkSize : Z;
  ChunkSizeLimit : Z;
  ChunkStreams : Z;
  ReadAhead : Z;
  OptBufferSize : Z;
  HandleCaching : Z;
  OptLowLevelRetries : Z;
}.

Definition DefaultOptions : Options := {|
  CachePollInterval := 60 * time_Second;
  CacheMaxAge := time_Hour;
  CacheMaxSize := -1;
  CacheMinFreeSpace := -1;
  CacheShardDepth := 1;
  ChunkSize := 128 * mebi;
  ChunkSizeLimit := -1;
  ChunkStreams := 0;
  ReadAhead := 0;
  OptBufferSize := 16 * mebi;
  HandleCaching := 5 * time_Second;
  OptLowLevelRetries := 10;
|}.

Definition validate (opt : Options) : option error :=
  if (CachePollInterval opt <? 0) || (CacheMaxAge opt <? 0) || (CacheMaxSize opt <? -1) ||
     (CacheMinFreeSpace opt <? -1) || (CacheShardDepth opt <? 0) || (16 <? CacheShardDepth opt) ||
     (ChunkSizeLimit opt <? -1) || (ReadAhead opt <? 0) || (OptBufferSize opt <? 0) ||
     (HandleCaching opt <? 0) || (OptLowLevelRetries opt <? 0)
  then Some (Errorf "cache: invalid negative option") else None.

Lemma DefaultOptions_valid : validate DefaultOptions = None.
Proof. reflexivity. Qed.
