(* ===== verification/Item.v ===== *)
(** * A cached object (cache/item.go)

    One sparse data file and its metadata: the ranges that are present, the
    handle, the number of readers, the grace period, the coordination of resets
    with accesses.  Every method is a [locked] computation on the state of the
    item and of its files; where the code unlocks the item (to close its
    downloaders, to download, to wait) the computation leaves a [Step] at which
    other goroutines run. *)
From stdpp Require Import base numbers list relations strings pretty.
From Stdlib Require Import ZArith Lia Init.Byte Ascii.
From S2P Require Import Prelude.
From S2P Require Import GoText.
From S2P Require Import Ranges.
From S2P Require Import GoIO.
From S2P Require Import ObjectIO.
From S2P Require Import SourceObject.
From S2P Require Import Interleave.
From S2P Require Import Options.

Local Open Scope Z_scope.
Local Open Scope go_scope.

(** ** State *)
Record itemInfo := mkInfo {
  InfoKey : string;
  InfoATime : Z;
  InfoSize : Z;
  InfoRs : list Range;
  InfoFingerprint : string;
}.

(** What a metadata file holds: something JSON cannot decode, or an [itemInfo]
    (encoding and decoding are the standard library's and round-trip). *)
Inductive metafile := Corrupt | Stored (info : itemInfo).

(** What the operating system does to a call: [None] lets it succeed, [Some
    (n, e)] makes it fail with [e] (a write or a read after [n] bytes). *)
Definition fault : Type := option (nat * error).

(** The item, the objects and downloaders it made, its files and its world.
    [it_object] is the item's pointer into [it_objects]; [it_dls] are the
    downloaders whose goroutines may still run, each with the object pointer it
    was made with, [it_downloaders] the item's own.  [it_data] and
    [it_metaFile] are the files at [dataPath] and [metaPath]; the open handle
    refers to [it_data].  [it_faults] scripts the failures of the coming system
    calls, [it_rmFaults] those of [os.Remove]. *)
Record item (O : Type) := mkItem {
  it_fd : bool;
  it_info : itemInfo;
  it_meta : Metadata;
  it_object : option nat;
  it_downloaders : option nat;
  it_loaded : bool;
  it_opens : Z;
  it_graceTimer : bool;
  it_closing : bool;
  it_pendingAccesses : Z;
  it_beingReset : bool;
  it_objects : list (sourceObject O);
  it_dls : list (nat * nat);
  it_next : nat;
  it_data : option (list byte);
  it_metaFile : option metafile;
  it_faults : list fault;
  it_rmFaults : list fault;
  it_clock : Z;
}.
Arguments mkItem {O}.
Arguments it_fd {O}. Arguments it_info {O}. Arguments it_meta {O}. Arguments it_object {O}.
Arguments it_downloaders {O}. Arguments it_loaded {O}. Arguments it_opens {O}. Arguments it_graceTimer {O}.
Arguments it_closing {O}. Arguments it_pendingAccesses {O}. Arguments it_beingReset {O}. Arguments it_objects {O}.
Arguments it_dls {O}. Arguments it_next {O}. Arguments it_data {O}. Arguments it_metaFile {O}.
Arguments it_faults {O}. Arguments it_rmFaults {O}. Arguments it_clock {O}.

Section setters.
Context {O : Type}.
Implicit Types s : item O.
Definition set_fd (v : bool) s : item O :=
  mkItem v (it_info s) (it_meta s) (it_object s) (it_downloaders s) (it_loaded s) (it_opens s) (it_graceTimer s) (it_closing s) (it_pendingAccesses s) (it_beingReset s) (it_objects s) (it_dls s) (it_next s) (it_data s) (it_metaFile s) (it_faults s) (it_rmFaults s) (it_clock s).
Definition set_info (v : itemInfo) s : item O :=
  mkItem (it_fd s) v (it_meta s) (it_object s) (it_downloaders s) (it_loaded s) (it_opens s) (it_graceTimer s) (it_closing s) (it_pendingAccesses s) (it_beingReset s) (it_objects s) (it_dls s) (it_next s) (it_data s) (it_metaFile s) (it_faults s) (it_rmFaults s) (it_clock s).
Definition set_meta (v : Metadata) s : item O :=
  mkItem (it_fd s) (it_info s) v (it_object s) (it_downloaders s) (it_loaded s) (it_opens s) (it_graceTimer s) (it_closing s) (it_pendingAccesses s) (it_beingReset s) (it_objects s) (it_dls s) (it_next s) (it_data s) (it_metaFile s) (it_faults s) (it_rmFaults s) (it_clock s).
Definition set_object (v : option nat) s : item O :=
  mkItem (it_fd s) (it_info s) (it_meta s) v (it_downloaders s) (it_loaded s) (it_opens s) (it_graceTimer s) (it_closing s) (it_pendingAccesses s) (it_beingReset s) (it_objects s) (it_dls s) (it_next s) (it_data s) (it_metaFile s) (it_faults s) (it_rmFaults s) (it_clock s).
Definition set_downloaders (v : option nat) s : item O :=
  mkItem (it_fd s) (it_info s) (it_meta s) (it_object s) v (it_loaded s) (it_opens s) (it_graceTimer s) (it_closing s) (it_pendingAccesses s) (it_beingReset s) (it_objects s) (it_dls s) (it_next s) (it_data s) (it_metaFile s) (it_faults s) (it_rmFaults s) (it_clock s).
Definition set_loaded (v : bool) s : item O :=
  mkItem (it_fd s) (it_info s) (it_meta s) (it_object s) (it_downloaders s) v (it_opens s) (it_graceTimer s) (it_closing s) (it_pendingAccesses s) (it_beingReset s) (it_objects s) (it_dls s) (it_next s) (it_data s) (it_metaFile s) (it_faults s) (it_rmFaults s) (it_clock s).
Definition set_opens (v : Z) s : item O :=
  mkItem (it_fd s) (it_info s) (it_meta s) (it_object s) (it_downloaders s) (it_loaded s) v (it_graceTimer s) (it_closing s) (it_pendingAccesses s) (it_beingReset s) (it_objects s) (it_dls s) (it_next s) (it_data s) (it_metaFile s) (it_faults s) (it_rmFaults s) (it_clock s).
Definition set_graceTimer (v : bool) s : item O :=
  mkItem (it_fd s) (it_info s) (it_meta s) (it_object s) (it_downloaders s) (it_loaded s) (it_opens s) v (it_closing s) (it_pendingAccesses s) (it_beingReset s) (it_objects s) (it_dls s) (it_next s) (it_data s) (it_metaFile s) (it_faults s) (it_rmFaults s) (it_clock s).
Definition set_closing (v : bool) s : item O :=
  mkItem (it_fd s) (it_info s) (it_meta s) (it_object s) (it_downloaders s) (it_loaded s) (it_opens s) (it_graceTimer s) v (it_pendingAccesses s) (it_beingReset s) (it_objects s) (it_dls s) (it_next s) (it_data s) (it_metaFile s) (it_faults s) (it_rmFaults s) (it_clock s).
Definition set_pendingAccesses (v : Z) s : item O :=
  mkItem (it_fd s) (it_info s) (it_meta s) (it_object s) (it_downloaders s) (it_loaded s) (it_opens s) (it_graceTimer s) (it_closing s) v (it_beingReset s) (it_objects s) (it_dls s) (it_next s) (it_data s) (it_metaFile s) (it_faults s) (it_rmFaults s) (it_clock s).
Definition set_beingReset (v : bool) s : item O :=
  mkItem (it_fd s) (it_info s) (it_meta s) (it_object s) (it_downloaders s) (it_loaded s) (it_opens s) (it_graceTimer s) (it_closing s) (it_pendingAccesses s) v (it_objects s) (it_dls s) (it_next s) (it_data s) (it_metaFile s) (it_faults s) (it_rmFaults s) (it_clock s).
Definition set_objects (v : list (sourceObject O)) s : item O :=
  mkItem (it_fd s) (it_info s) (it_meta s) (it_object s) (it_downloaders s) (it_loaded s) (it_opens s) (it_graceTimer s) (it_closing s) (it_pendingAccesses s) (it_beingReset s) v (it_dls s) (it_next s) (it_data s) (it_metaFile s) (it_faults s) (it_rmFaults s) (it_clock s).
Definition set_dls (v : list (nat * nat)) s : item O :=
  mkItem (it_fd s) (it_info s) (it_meta s) (it_object s) (it_downloaders s) (it_loaded s) (it_opens s) (it_graceTimer s) (it_closing s) (it_pendingAccesses s) (it_beingReset s) (it_objects s) v (it_next s) (it_data s) (it_metaFile s) (it_faults s) (it_rmFaults s) (it_clock s).
Definition set_next (v : nat) s : item O :=
  mkItem (it_fd s) (it_info s) (it_meta s) (it_object s) (it_downloaders s) (it_loaded s) (it_opens s) (it_graceTimer s) (it_closing s) (it_pendingAccesses s) (it_beingReset s) (it_objects s) (it_dls s) v (it_data s) (it_metaFile s) (it_faults s) (it_rmFaults s) (it_clock s).
Definition set_data (v : option (list byte)) s : item O :=
  mkItem (it_fd s) (it_info s) (it_meta s) (it_object s) (it_downloaders s) (it_loaded s) (it_opens s) (it_graceTimer s) (it_closing s) (it_pendingAccesses s) (it_beingReset s) (it_objects s) (it_dls s) (it_next s) v (it_metaFile s) (it_faults s) (it_rmFaults s) (it_clock s).
Definition set_metaFile (v : option metafile) s : item O :=
  mkItem (it_fd s) (it_info s) (it_meta s) (it_object s) (it_downloaders s) (it_loaded s) (it_opens s) (it_graceTimer s) (it_closing s) (it_pendingAccesses s) (it_beingReset s) (it_objects s) (it_dls s) (it_next s) (it_data s) v (it_faults s) (it_rmFaults s) (it_clock s).
Definition set_faults (v : list fault) s : item O :=
  mkItem (it_fd s) (it_info s) (it_meta s) (it_object s) (it_downloaders s) (it_loaded s) (it_opens s) (it_graceTimer s) (it_closing s) (it_pendingAccesses s) (it_beingReset s) (it_objects s) (it_dls s) (it_next s) (it_data s) (it_metaFile s) v (it_rmFaults s) (it_clock s).
Definition set_rmFaults (v : list fault) s : item O :=
  mkItem (it_fd s) (it_info s) (it_meta s) (it_object s) (it_downloaders s) (it_loaded s) (it_opens s) (it_graceTimer s) (it_closing s) (it_pendingAccesses s) (it_beingReset s) (it_objects s) (it_dls s) (it_next s) (it_data s) (it_metaFile s) (it_faults s) v (it_clock s).
Definition set_clock (v : Z) s : item O :=
  mkItem (it_fd s) (it_info s) (it_meta s) (it_object s) (it_downloaders s) (it_loaded s) (it_opens s) (it_graceTimer s) (it_closing s) (it_pendingAccesses s) (it_beingReset s) (it_objects s) (it_dls s) (it_next s) (it_data s) (it_metaFile s) (it_faults s) (it_rmFaults s) v.
End setters.

(** ** Fingerprints *)

Section item.
(** [hex(sha256(...))] is the standard library's. *)
Context {O : Type} (sha256_hex : string -> string) (opt : Options) (key : string).
Implicit Types s : item O.

Definition newline : string := String.String (ascii_of_nat 10) String.EmptyString.

Definition metadataFingerprint (meta : Metadata) : string :=
  let etag := strings_TrimSpace (ETag meta) in
  let etag := if strings_HasPrefix etag "W/" then ""%string else etag in
  if bool_decide (etag = ""%string) && Time_IsZero (LastModified meta) then ""%string
  else sha256_hex (pretty (MetaSize meta) +:+ newline +:+ etag +:+ newline +:+
                   pretty (i64 (LastModified meta)) +:+ newline).

(** ** The operating system *)
Definition pop_fault s : option (nat * error) * item O :=
  match it_faults s with
  | [] => (None, s)
  | f :: fs => (f, set_faults fs s)
  end.

Definition syscall : locked (item O) (option error) :=
  with_state (fun s => let '(f, s) := pop_fault s in (snd <$> f, s)).

Definition os_Remove {A} (file : item O -> option A) (remove : item O -> item O) : locked (item O) (option error) :=
  with_state (fun s =>
    match it_rmFaults s with
    | Some (_, err) :: fs => (Some err, set_rmFaults fs s)
    | fs =>
        let s := set_rmFaults (drop 1 fs) s in
        match file s with Some _ => (None, remove s) | None => (Some os_ErrNotExist, s) end
    end).
Definition os_Remove_data : locked (item O) (option error) := os_Remove it_data (set_data None).
Definition os_Remove_meta : locked (item O) (option error) := os_Remove it_metaFile (set_metaFile None).

(** [os.Stat(dataPath)]. *)
Definition os_Stat_data : locked (item O) (option error) :=
  err ← syscall;
  match err with
  | Some err => mret (Some err)
  | None => get (fun s => match it_data s with Some _ => None | None => Some os_ErrNotExist end)
  end.

(** [os.OpenFile(dataPath, O_CREATE|O_RDWR)], stored in [item.fd]. *)
Definition os_OpenFile_data : locked (item O) (option error) :=
  err ← syscall;
  match err with
  | Some err => mret (Some err)
  | None => modify (fun s => set_fd true (set_data (Some (default [] (it_data s))) s));; mret None
  end.

(** [fd.Truncate(size)] cuts or extends with zeros. *)
Definition truncate_file (size : Z) (d : list byte) : list byte :=
  take (Z.to_nat size) d ++ replicate (Z.to_nat size - length d) x00.
Definition fd_Truncate (size : Z) : locked (item O) (option error) :=
  err ← syscall;
  match err with
  | Some err => mret (Some err)
  | None => modify (fun s => set_data (truncate_file size <$> it_data s) s);; mret None
  end.

(** Bytes written at [off]; a gap before [off] reads as zeros. *)
Definition write_file (off : Z) (b d : list byte) : list byte :=
  let o := Z.to_nat off in
  take o d ++ replicate (o - length d) x00 ++ b ++ drop (o + length b) d.

Definition ErrInvalid : error := Errorf "invalid argument".

(** [fd.WriteAt(b, off)] and [fd.ReadAt(b, off)] with [len(b) = n]; a nil handle
    is [os.ErrInvalid]. *)
Definition fd_WriteAt (b : list byte) (off : Z) s : nat * option error * item O :=
  if it_fd s then
    let '(f, s) := pop_fault s in
    let nn := match f with Some (n, _) => min n (length b) | None => length b end in
    (nn, snd <$> f, set_data (write_file off (take nn b) <$> it_data s) s)
  else (0%nat, Some ErrInvalid, s).

Definition fd_ReadAt (n : nat) (off : Z) s : list byte * option error * item O :=
  if it_fd s then
    let '(f, s) := pop_fault s in
    let d := slice off (off + Z.of_nat n) (default [] (it_data s)) in
    match f with
    | Some (k, err) => (take k d, Some err, s)
    | None => (d, if (length d <? n)%nat then Some io_EOF else None, s)
    end
  else ([], Some ErrInvalid, s).

(** The error of a step of a sequence ends it. *)
Definition check (msg : string) (m : locked (item O) (option error)) (k : locked (item O) (option error))
  : locked (item O) (option error) :=
  err ← m;
  match err with Some err => mret (Some (Wrap msg err)) | None => k end.

(** ** Downloaders *)

(** [scheduler.New] starts downloaders on the item's object. *)
Definition createDownloadersLocked : locked (item O) unit :=
  modify (fun s =>
    match it_downloaders s, it_object s with
    | None, Some ref =>
        if InfoSize (it_info s) <=? 0 then s
        else set_downloaders (Some (it_next s)) (set_dls ((it_next s, ref) :: it_dls s) (set_next (S (it_next s)) s))
    | _, _ => s
    end).

(** [item.downloaders = nil; item.mu.Unlock(); err := dls.Close(nil);
    item.mu.Lock()]: until [Close] has returned the goroutines of [dls] may
    write to the item, and other goroutines may take its mutex. *)
Definition closeDownloaders (dls : nat) : locked (item O) (option error) :=
  modify (set_downloaders None);;
  unlock_until (fun _ => true);;
  modify (fun s => set_dls (filter (fun d => fst d <> dls) (it_dls s)) s);;
  syscall.

(** ** Metadata *)
Definition now (info : itemInfo) s : itemInfo :=
  mkInfo (InfoKey info) (it_clock s) (InfoSize info) (InfoRs info) (InfoFingerprint info).

(** [itemInfo{Key: item.key, ATime: time.Now()}]. *)
Definition freshInfo s : itemInfo := mkInfo key (it_clock s) 0 [] "".
Definition zeroInfo : itemInfo := mkInfo "" zeroTime 0 [] "".

Definition set_Rs (rs : list Range) s : item O :=
  let i := it_info s in set_info (mkInfo (InfoKey i) (InfoATime i) (InfoSize i) rs (InfoFingerprint i)) s.

(** A failed [os.Open(metaPath)] other than for a missing file is an error; what
    cannot be decoded is removed together with the data. *)
Definition loadLocked : locked (item O) (option error) :=
  err ← syscall;
  match err with
  | Some err => mret (Some err)
  | None =>
      file ← get it_metaFile;
      match file with
      | None => modify (fun s => set_info (freshInfo s) s);; mret None
      | Some Corrupt =>
          os_Remove_meta;; os_Remove_data;;
          modify (fun s => set_info (freshInfo s) s);; mret None
      | Some (Stored info) =>
          if bool_decide (InfoKey info = key) then modify (set_info info);; mret None
          else mret (Some (Errorf "metadata key does not match"))
      end
  end.

(** A temporary file is written, synced and renamed; a failure removes it. *)
Definition saveLocked : locked (item O) (option error) :=
  check "cache: create metadata directory" syscall (
  check "cache: create metadata temp file" syscall (
  check "cache: encode metadata" syscall (
  check "cache: sync metadata" syscall (
  check "cache: close metadata" syscall (
  check "cache: chmod metadata" syscall (
  check "cache: replace metadata" syscall (
  modify (fun s => set_metaFile (Some (Stored (it_info s))) s);; mret None))))))).

Definition closeFDLocked : locked (item O) (option error) :=
  fd ← get it_fd;
  if (fd : bool) then err ← syscall; modify (set_fd false);; mret err
  else mret None.

(** ** Resets *)
Definition ignore_missing (err : option error) : option error :=
  match err with Some e => if errors_Is e os_ErrNotExist then None else err | None => None end.

Definition resetLocked : locked (item O) (option error) :=
  dls ← get it_downloaders;
  err ← match dls with Some dls => closeDownloaders dls | None => mret None end;
  match err with
  | Some err => mret (Some err)
  | None =>
      err ← closeFDLocked;
      match err with
      | Some err => mret (Some err)
      | None =>
          err ← os_Remove_data;
          match ignore_missing err with
          | Some err => mret (Some err)
          | None =>
              err ← os_Remove_meta;
              match ignore_missing err with
              | Some err => mret (Some err)
              | None =>
                  modify (fun s => set_object None (set_info (freshInfo s) s));; mret None
              end
          end
      end
  end.

(** [finishReset] and the returns that use it: a reset that ran out of space
    stays pending. *)
Definition finishReset (spaceFreed : Z) (err : error) : locked (item O) (bool * Z * option error) :=
  (if IsNoSpace (Some err) then mret tt else modify (set_beingReset false));;
  mret (false, spaceFreed, Some err).

Definition resetForSpace_inUse : locked (item O) (bool * Z * option error) :=
  modify (set_beingReset true);;
  dls ← get it_downloaders;
  err ← match dls with Some dls => closeDownloaders dls | None => mret None end;
  fd ← get it_fd;
  err ← (if (fd : bool) then
           cerr ← syscall; modify (set_fd false);;
           mret (match err with Some _ => err | None => cerr end)
         else mret None);
  match err with
  | Some err => modify (set_beingReset false);; mret (false, 0, Some err)
  | None =>
      spaceFreed ← get (fun s => Ranges_Size (InfoRs (it_info s)));
      os_Remove_data;; os_Remove_meta;; modify (set_Rs []);;
      err ← syscall;
      match err with Some err => finishReset spaceFreed err | None =>
      err ← os_OpenFile_data;
      match err with Some err => finishReset spaceFreed err | None =>
      size ← get (fun s => InfoSize (it_info s));
      err ← fd_Truncate size;
      match err with Some err => syscall;; modify (set_fd false);; finishReset spaceFreed err | None =>
      err ← saveLocked;
      match err with Some err => finishReset spaceFreed err | None =>
      createDownloadersLocked;;
      modify (set_beingReset false);;
      mret (false, spaceFreed, None)
      end end end end
  end.

Definition resetForSpace_locked : locked (item O) (bool * Z * option error) :=
  s ← get id;
  if (it_opens s =? 0) && negb (it_graceTimer s) then
    let spaceFreed := Ranges_Size (InfoRs (it_info s)) in
    err ← match it_downloaders s with Some dls => closeDownloaders dls | None => mret None end;
    match err with
    | Some err => mret (false, 0, Some err)
    | None =>
        closeFDLocked;; os_Remove_data;; os_Remove_meta;;
        modify (fun s => set_object None (set_loaded false (set_info zeroInfo s)));;
        mret (true, spaceFreed, None)
    end
  else if it_graceTimer s || (0 <? it_pendingAccesses s) then mret (false, 0, None)
  else if (Ranges_Size (InfoRs (it_info s)) =? 0) && negb (it_beingReset s) then mret (false, 0, None)
  else resetForSpace_inUse.

(** ** Opening and closing *)

(** The checks of the content's version, before the files are touched. *)
Definition openLocked_version (meta : Metadata) : locked (item O) (option error) :=
  let fingerprint := metadataFingerprint meta in
  s ← get id;
  let info := it_info s in
  if 0 <? it_opens s then
    if bool_decide (InfoFingerprint info = fingerprint) then mret None
    else mret (Some (Wrap "cache: object changed" ErrObjectChanged))
  else if negb (Ranges_Size (InfoRs info) =? 0) &&
          (bool_decide (fingerprint = ""%string) || bool_decide (InfoFingerprint info = ""%string) ||
           negb (bool_decide (InfoFingerprint info = fingerprint)))
  then
    err ← resetLocked;
    match err with Some err => mret (Some (Wrap "cache: reset changed object" err)) | None => mret None end
  else mret None.

(** [item.fd == nil]: metadata without its data file is not trusted. *)
Definition openLocked_fd : locked (item O) (option error) :=
  fd ← get it_fd;
  if (fd : bool) then mret None
  else
    statErr ← os_Stat_data;
    modify (fun s =>
      if match statErr with Some e => errors_Is e os_ErrNotExist | None => false end &&
         negb (Ranges_Size (InfoRs (it_info s)) =? 0) then set_Rs [] s else s);;
    check "cache: open data file" os_OpenFile_data (mret None).

(** The data file gets the size of the object. *)
Definition openLocked_size (meta : Metadata) : locked (item O) (option error) :=
  check "cache: stat data file" syscall (
  d ← get it_data;
  if Z.of_nat (length (default [] d)) =? MetaSize meta then mret None
  else
    check "cache: truncate data file" (fd_Truncate (MetaSize meta)) (
    modify (fun s => set_Rs (Ranges_Intersection (InfoRs (it_info s)) (mkRange 0 (MetaSize meta))) s);;
    mret None)).

(** [item.object] is made on the first open and updated in place afterwards, so
    running downloaders see the new origin. *)
Definition set_origin (origin : O) (meta : Metadata) s : item O :=
  match it_object s with
  | Some ref => set_objects (alter (fun o => sourceObject_update o origin meta) ref (it_objects s)) s
  | None => set_object (Some (length (it_objects s))) (set_objects (it_objects s ++ [mkSourceObject origin meta]) s)
  end.

Definition openLocked (origin : O) (meta : Metadata) : locked (item O) (option error) :=
  closing ← get it_closing;
  (if (closing : bool) then unlock_until (fun s => negb (it_closing s)) else mret tt);;
  modify (set_graceTimer false);;
  loaded ← get it_loaded;
  err ← (if (loaded : bool) then mret None
         else check "cache: load" loadLocked (modify (set_loaded true);; mret None));
  match err with Some err => mret (Some err) | None =>
  err ← openLocked_version meta;
  match err with Some err => mret (Some err) | None =>
  check "cache: create data shard" syscall (
  check "cache: create metadata shard" syscall (
  err ← openLocked_fd;
  match err with Some err => mret (Some err) | None =>
  err ← openLocked_size meta;
  match err with Some err => mret (Some err) | None =>
  modify (set_origin origin meta);;
  modify (set_meta meta);;
  modify (fun s => set_info (mkInfo key (it_clock s) (MetaSize meta) (InfoRs (it_info s)) (metadataFingerprint meta)) s);;
  createDownloadersLocked;;
  err ← saveLocked;
  match err with Some err => mret (Some err) | None =>
  modify (fun s => set_opens (it_opens s + 1) s);; mret None
  end end end))
  end end.

Definition actualCloseLocked : locked (item O) (option error) :=
  dls ← get it_downloaders;
  err ← match dls with Some dls => closeDownloaders dls | None => mret None end;
  closeErr ← closeFDLocked;
  saveErr ← saveLocked;
  mret (match err, closeErr, saveErr with
        | Some _, _, _ => err
        | None, Some _, _ => closeErr
        | _, _, _ => saveErr
        end).

(** ** Accesses *)
Definition not_reset s : bool := negb (it_beingReset s).
Definition add_pending (n : Z) : locked (item O) unit :=
  modify (fun s => set_pendingAccesses (it_pendingAccesses s + n) s).

Definition preAccess : proc (item O) unit := Step not_reset (add_pending 1).
Definition postAccess : proc (item O) unit := with_lock (add_pending (-1)).

(** From one method that takes the mutex to the next. *)
Definition locking {A} (p : proc (item O) A) : locked (item O) A := fun s => (s, p).

Definition release_locked : locked (item O) (option error) :=
  modify (fun s => set_info (now (it_info s) s) s);;
  modify (fun s => set_opens (it_opens s - 1) s);;
  opens ← get it_opens;
  if opens <? 0 then mret (Some os_ErrClosed)
  else if 0 <? opens then mret None
  else if 0 <? HandleCaching opt then modify (set_graceTimer true);; mret None
  else actualCloseLocked.

Definition release : locked (item O) (option error) :=
  locking preAccess;; err ← locking (with_lock release_locked); locking postAccess;; mret err.

Definition closeAfterGrace_locked : locked (item O) unit :=
  s ← get id;
  if (0 <? it_opens s) || negb (it_graceTimer s) then mret tt
  else
    modify (set_graceTimer false);;
    modify (set_closing true);;
    actualCloseLocked;;
    modify (set_closing false).

Definition HasRange (r : Range) s : bool := Ranges_Present (InfoRs (it_info s)) r.

Definition FindMissing (r : Range) s : Range :=
  Range_Clip (Ranges_FindMissing (InfoRs (it_info s)) r) (InfoSize (it_info s)).

(** The loop of [WriteAtNoOverwrite] over the found ranges; [b[:size]] panics
    when it is out of range. *)
Fixpoint WriteAt_ranges (frs : list FoundRange) (b : list byte) (off n skipped : Z) s
  : run (Z * Z * option error * item O) :=
  match frs with
  | [] => Ret (n, skipped, None, s)
  | fr :: frs =>
      if negb (Pos (FR_R fr) =? off) then Ret (n, skipped, Some (Errorf "cache: internal range offset mismatch"), s)
      else
        let size := Size (FR_R fr) in
        if (size <? 0) || (Z.of_nat (length b) <? size) then Panic
        else if FR_Present fr then
          WriteAt_ranges frs (drop (Z.to_nat size) b) (off +! size) (n +! size) (skipped +! size) s
        else
          let '(nn, err, s) := fd_WriteAt (take (Z.to_nat size) b) off s in
          let err := match err with
                     | None => if Z.of_nat nn =? size then None else Some (Errorf "cache: short write")
                     | _ => err end in
          let s := set_Rs (Ranges_Insert (InfoRs (it_info s)) (mkRange off (Z.of_nat nn))) s in
          match err with
          | Some _ => Ret (n +! Z.of_nat nn, skipped, err, s)
          | None => WriteAt_ranges frs (drop nn b) (off +! Z.of_nat nn) (n +! Z.of_nat nn) skipped s
          end
  end.

(** [(n, skipped, err)] and the item. *)
Definition WriteAtNoOverwrite (b : list byte) (off : Z) s : run (Z * Z * option error * item O) :=
  let r := mkRange off (Z.of_nat (length b)) in
  WriteAt_ranges (Ranges_FindAll (InfoRs (it_info s)) r) b off 0 0 s.

(** ** Reading *)

(** The item's view of its downloaders ([scheduler.Downloaders]): both calls run
    without the item's mutex and change the item only through its methods. *)
Class Scheduler := {
  sch_EnsureDownloader : nat -> Range -> item O -> option error * item O;
  sch_Download : nat -> Range -> item O -> option error * item O;
}.

Section reading.
Context `{Scheduler}.

(** A call made with the mutex released, which is then taken again. *)
Definition unlocked_call (call : item O -> option error * item O) : locked (item O) (option error) :=
  err ← locking (with_lock (with_state call)); unlock_until (fun _ => true);; mret err.

Definition ensureLocked (r : Range) : locked (item O) (option error) :=
  s ← get id;
  let size := InfoSize (it_info s) in
  let r := if size <? Range_End r then mkRange (Pos r) (size -! Pos r) else r in
  let present := Ranges_Present (InfoRs (it_info s)) r in
  (if negb present && bool_decide (it_downloaders s = None) then createDownloadersLocked else mret tt);;
  dls ← get it_downloaders;
  if present then
    match dls with
    | None => locking (with_lock (mret None))
    | Some dls => unlocked_call (sch_EnsureDownloader dls r)
    end
  else
    match dls with
    | None => locking (with_lock (mret (Some (Errorf "cache: scheduler is not available"))))
    | Some dls => unlocked_call (sch_Download dls r)
    end.

Definition readAtOnce (n : nat) (off : Z) : locked (item O) (list byte * option error) :=
  fd ← get it_fd;
  if negb (fd : bool) then mret ([], Some (Errorf "cache: item file is not open"))
  else if off <? 0 then mret ([], Some io_EOF)
  else
    err ← ensureLocked (mkRange off (Z.of_nat n));
    match err with
    | Some err => mret ([], Some err)
    | None =>
        modify (fun s => set_info (now (it_info s) s) s);;
        with_state (fun s => let '(d, err, s) := fd_ReadAt n off s in ((d, err), s))
    end.

(** [err.Error() == "no space left on device"]. *)
Definition no_space_text (err : error) : bool :=
  bool_decide (err = syscall_ENOSPC) || bool_decide (err = Errorf "no space left on device").

(** Retries wait for the cleaner ([KickCleaner]) without the mutex. *)
Fixpoint readAt_loop (retries n : nat) (off : Z) (res : list byte * option error)
  : locked (item O) (list byte * option error) :=
  match retries with
  | 0%nat => mret res
  | S retries =>
      locking preAccess;;
      res ← locking (with_lock (readAtOnce n off));
      locking postAccess;;
      match snd res with
      | None => mret res
      | Some err =>
          if errors_Is err io_EOF then mret res
          else if negb (IsNoSpace (Some err)) && negb (no_space_text err) then mret res
          else unlock_until (fun _ => true);; readAt_loop retries n off res
      end
  end.

Definition readAt (n : nat) (off : Z) : locked (item O) (list byte * option error) :=
  readAt_loop (Z.to_nat (OptLowLevelRetries opt)) n off ([], None).

(** A reader keeps the metadata of its opening and an offset of its own. *)
Record Reader := mkReader { rd_meta : Metadata; rd_off : Z }.

Definition Reader_Read (n : nat) (r : Reader) : locked (item O) (list byte * option error * Reader) :=
  if (n =? 0)%nat then mret ([], None, r)
  else if MetaSize (rd_meta r) <=? rd_off r then mret ([], Some io_EOF, r)
  else
    '(d, err) ← readAt n (rd_off r);
    mret (d, err, mkReader (rd_meta r) (rd_off r +! Z.of_nat (length d))).

Definition Reader_ReadAt (n : nat) (off : Z) (r : Reader) : locked (item O) (list byte * option error) := readAt n off.
Definition Reader_Size (r : Reader) : Z := MetaSize (rd_meta r).
Definition Reader_Metadata (r : Reader) : Metadata := rd_meta r.
Definition Reader_Close (r : Reader) : locked (item O) (option error) := release.
End reading.
End item.

Arguments Scheduler : clear implicits.

(** ** What downloaders do to an item *)

Section downloads.
Context {O : Type} (content_of : O -> list byte).

(** A goroutine of downloaders [dls] writes the bytes of its object it has read
    from [off] on, at most [len]; nothing once [Close] has returned. *)
Definition downloader_origin (dls : nat) (s : item O) : option O :=
  match filter (fun d => fst d = dls) (it_dls s) with
  | (_, ref) :: _ => so_origin <$> it_objects s !! ref
  | [] => None
  end.

Definition downloader_write (dls : nat) (off len : Z) (s : item O) : item O :=
  match downloader_origin dls s with
  | Some origin =>
      match WriteAtNoOverwrite (slice off (off + len) (content_of origin)) off s with
      | Ret (_, _, _, s') => s'
      | _ => s
      end
  | None => s
  end.

Definition fetch (s s' : item O) : Prop :=
  exists dls off len, 0 <= off <= MaxInt64 /\ s' = downloader_write dls off len s.

(** What [scheduler.Downloaders] promises at all times: it only fetches. *)
Class SchedulerOK `{Scheduler O} := {
  sch_EnsureDownloader_ok : forall dls r s err s', sch_EnsureDownloader dls r s = (err, s') -> rtc fetch s s';
  sch_Download_fetches : forall dls r s err s', sch_Download dls r s = (err, s') -> rtc fetch s s';
}.

(** And while nobody calls its [Close]: a [Download] that succeeds has left the
    range present (clipped to the size of the object). *)
Class SchedulerDelivers `{Scheduler O} := {
  sch_Download_ok : forall dls r s s', sch_Download dls r s = (None, s') -> HasRange (Range_Clip r (InfoSize (it_info s))) s' = true;
}.
End downloads.

(** ** Invariants *)
Notation item_Rs s := (InfoRs (it_info s)).

(** The byte of the data file at an offset. *)
Definition file_at {O} (s : item O) (x : Z) : option byte :=
  match it_data s with Some d => d !! Z.to_nat x | None => None end.

(** Every byte flagged present is on disk, and is the content's. *)
Definition trusted {O} (content : list byte) (s : item O) : Prop :=
  wf (item_Rs s) /\ forall x, covers (item_Rs s) x ->
    0 <= x < Z.of_nat (length content) /\ file_at s x = content !! Z.to_nat x.

(** Only the data, the ranges and the fault scripts differ. *)
Definition frame {O} (s s' : item O) : Prop :=
  s' = set_data (it_data s') (set_faults (it_faults s') (set_Rs (item_Rs s') s)).

#[export] Instance covers_dec rs x : Decision (covers rs x).
Proof. unfold covers. apply Exists_dec. intros r. unfold elem_of, Range_elem. apply _. Defined.

(** What [WriteAtNoOverwrite] promises, for the [n] bytes it took of [b]. *)
Record wrote_at {O} (b : list byte) (off : Z) (s : item O) (n skipped : Z) (err : option error) (s' : item O) : Prop := {
  wa_n : 0 <= n <= Z.of_nat (length b);
  wa_err : err = None -> n = Z.of_nat (length b);
  wa_skipped : skipped = Z.of_nat (length (filter (covers (item_Rs s)) (seqZ off n)));
  wa_wf : wf (item_Rs s');
  wa_rs : forall x, covers (item_Rs s') x <-> covers (item_Rs s) x \/ off <= x < off + n;
  wa_keep : forall x, 0 <= x -> covers (item_Rs s) x \/ ~ off <= x < off + n ->
    is_Some (file_at s x) -> file_at s' x = file_at s x;
  wa_new : forall x, off <= x < off + n -> ~ covers (item_Rs s) x -> file_at s' x = b !! Z.to_nat (x - off);
  wa_frame : frame s s';
}.

Section writing.
Context {O : Type}.
Implicit Types s : item O.

Lemma frame_refl s : frame s s.
Proof. unfold frame. by destruct s as [? [] ]. Qed.

Lemma frame_trans s1 s2 s3 : frame s1 s2 -> frame s2 s3 -> frame s1 s3.
Proof. unfold frame. intros H12 H23. rewrite H23, H12. by destruct s1. Qed.

Lemma write_file_lookup off b d x : 0 <= off -> 0 <= x ->
  write_file off b d !! Z.to_nat x =
    if decide (off <= x < off + Z.of_nat (length b)) then b !! Z.to_nat (x - off)
    else if decide (x < Z.of_nat (length d)) then d !! Z.to_nat x
    else if decide (x < off) then Some x00 else None.
Proof.
  intros Ho Hx. unfold write_file. set (o := Z.to_nat off). set (i := Z.to_nat x).
  assert (Hlt : length (take o d ++ replicate (o - length d) x00) = o).
  { rewrite length_app, length_take, length_replicate. lia. }
  rewrite app_assoc. destruct (decide (x < off)).
  - rewrite lookup_app_l by lia. rewrite decide_False by lia.
    destruct (decide (x < Z.of_nat (length d))).
    + rewrite lookup_app_l by (rewrite length_take; lia). apply lookup_take_lt. lia.
    + rewrite lookup_app_r by (rewrite length_take; lia). rewrite lookup_replicate_2; [done|]. rewrite length_take. lia.
  - rewrite lookup_app_r by lia. rewrite Hlt.
    destruct (decide (off <= x < off + Z.of_nat (length b))).
    + rewrite lookup_app_l by lia. f_equal. lia.
    + rewrite lookup_app_r by lia. rewrite lookup_drop. destruct (decide (x < Z.of_nat (length d))).
      * f_equal. lia.
      * apply lookup_ge_None. lia.
Qed.

Lemma filter_all {A} (P : A -> Prop) `{!forall x, Decision (P x)} (l : list A) : (forall x, x ∈ l -> P x) -> filter P l = l.
Proof.
  induction l as [|a l IH]; intros Hall; [done|]. rewrite filter_cons_True by (apply Hall; set_solver).
  rewrite IH; [done|]. intros. apply Hall. set_solver.
Qed.

Lemma filter_none {A} (P : A -> Prop) `{!forall x, Decision (P x)} (l : list A) : (forall x, x ∈ l -> ~ P x) -> filter P l = [].
Proof.
  induction l as [|a l IH]; intros Hall; [done|]. rewrite filter_cons_False by (apply Hall; set_solver).
  apply IH. intros. apply Hall. set_solver.
Qed.

Lemma filter_ext_in {A} (P Q : A -> Prop) `{!forall x, Decision (P x)} `{!forall x, Decision (Q x)} (l : list A) :
  (forall x, x ∈ l -> P x <-> Q x) -> filter P l = filter Q l.
Proof.
  induction l as [|a l IH]; intros Hall; [done|].
  assert (Hl : filter P l = filter Q l) by (apply IH; intros; apply Hall; set_solver).
  assert (Ha : P a <-> Q a) by (apply Hall; set_solver).
  destruct (decide (P a)); [rewrite !filter_cons_True|rewrite !filter_cons_False]; try tauto. by rewrite Hl.
Qed.
End writing.

(** An open handle has a file behind it. *)
Definition file_ok {O} (s : item O) : Prop := it_fd s = true -> is_Some (it_data s).

Section write_proofs.
Context {O : Type}.
Implicit Types s : item O.

Lemma seqZ_app m n1 n2 : 0 <= n1 -> 0 <= n2 -> seqZ m (n1 + n2) = seqZ m n1 ++ seqZ (m + n1) n2.
Proof. intros. by rewrite seqZ_app. Qed.

Lemma wrote_at_app b1 b2 off s n1 k1 s1 n2 k2 err s2 :
  0 <= off -> wrote_at b1 off s n1 k1 None s1 -> wrote_at b2 (off + Z.of_nat (length b1)) s1 n2 k2 err s2 ->
  wrote_at (b1 ++ b2) off s (n1 + n2) (k1 + k2) err s2.
Proof.
  intros Ho [N1 E1 K1 W1 R1 P1 C1 F1] [N2 E2 K2 W2 R2 P2 C2 F2]. specialize (E1 eq_refl). subst n1.
  split.
  - rewrite length_app. lia.
  - intros He. specialize (E2 He). rewrite length_app. lia.
  - rewrite seqZ_app, filter_app, length_app by lia. rewrite K1, K2.
    rewrite (filter_ext_in (covers (item_Rs s1)) (covers (item_Rs s)) (seqZ (off + Z.of_nat (length b1)) n2)); [lia|].
    intros x Hx%elem_of_seqZ. rewrite R1. split; [|tauto]. intros [|]; [done|lia].
  - done.
  - intros x. rewrite R2, R1. split; [intros [[|]|]|intros [|]]; [tauto|right; lia|right; lia|tauto|].
    destruct (decide (x < off + Z.of_nat (length b1))); [left; right; lia|right; lia].
  - intros x Hx Hc Hs. assert (H1 : file_at s1 x = file_at s x).
    { apply P1; [done| |done]. destruct Hc; [tauto|right; lia]. }
    rewrite <- H1. apply P2; [done| |by rewrite H1]. rewrite R1. destruct Hc; [tauto|right; lia].
  - intros x Hx Hc. destruct (decide (x < off + Z.of_nat (length b1))) as [Hlt|Hge].
    + assert (H1 : file_at s1 x = b1 !! Z.to_nat (x - off)) by (apply C1; [lia|done]).
      rewrite lookup_app_l by lia. rewrite <- H1. apply P2; [lia| |].
      * left. rewrite R1. right. lia.
      * rewrite H1. apply lookup_lt_is_Some. lia.
    + rewrite lookup_app_r by lia. rewrite C2; [f_equal; lia|lia|]. rewrite R1. intros [|]; [done|lia].
  - by eapply frame_trans.
Qed.

(** An error ends the write with what came before it. *)
Lemma wrote_at_stop b1 b2 off s n k err s' : err <> None ->
  wrote_at b1 off s n k err s' -> wrote_at (b1 ++ b2) off s n k err s'.
Proof.
  intros He [N E K W R P C F]. split; try done.
  - rewrite length_app. lia.
  - intros x Hx Hc. rewrite lookup_app_l by lia. by apply C.
Qed.

Lemma wrote_at_skip b off s : wf (item_Rs s) ->
  (forall x, off <= x < off + Z.of_nat (length b) -> covers (item_Rs s) x) ->
  wrote_at b off s (Z.of_nat (length b)) (Z.of_nat (length b)) None s.
Proof.
  intros Hwf Hall. split; try done.
  - lia.
  - rewrite filter_all; [rewrite length_seqZ; lia|]. intros x Hx%elem_of_seqZ. apply Hall. lia.
  - intros x. split; [tauto|]. intros [|]; [done|]. by apply Hall.
  - intros x Hx Hc. by apply Hall in Hx.
  - apply frame_refl.
Qed.

Lemma pop_fault_eq s : exists f fs, pop_fault s = (f, set_faults fs s).
Proof.
  unfold pop_fault. destruct (it_faults s) as [|f fs] eqn:E; [|by do 2 eexists].
  exists None, []. f_equal. rewrite <- E. by destruct s.
Qed.

Lemma fd_WriteAt_spec b off s nn err s' : 0 <= off -> file_ok s -> fd_WriteAt b off s = (nn, err, s') ->
  (nn <= length b)%nat /\ item_Rs s' = item_Rs s /\ frame s s' /\
  (forall x, off <= x < off + Z.of_nat nn -> file_at s' x = b !! Z.to_nat (x - off)) /\
  (forall x, 0 <= x -> ~ off <= x < off + Z.of_nat nn -> is_Some (file_at s x) -> file_at s' x = file_at s x).
Proof.
  intros Ho Hok. unfold fd_WriteAt. destruct (it_fd s) eqn:Hfd.
  - destruct (Hok Hfd) as [d Hd]. destruct (pop_fault_eq s) as (f & fs & ->).
    set (k := match f with Some (n, _) => min n (length b) | None => length b end).
    assert (Hk : (k <= length b)%nat) by (subst k; destruct f as [[]|]; lia).
    intros [= <- <- <-]. clearbody k. cbn. split; [done|]. split; [done|]. split; [by destruct s as [? [] ]|].
    unfold file_at. cbn. rewrite Hd. cbn. split.
    + intros x Hx. rewrite write_file_lookup by lia. rewrite length_take, Nat.min_l by lia.
      rewrite decide_True by lia. apply lookup_take_lt. lia.
    + intros x Hx Hn [v Hv]. rewrite write_file_lookup by lia. rewrite length_take, Nat.min_l by lia.
      rewrite decide_False by lia. apply lookup_lt_Some in Hv as Hlt. by rewrite decide_True by lia.
  - intros [= <- <- <-]. split; [lia|]. split; [done|]. split; [apply frame_refl|]. split; [lia|done].
Qed.

Lemma file_ok_frame s s' : file_ok s -> frame s s' -> (is_Some (it_data s) -> is_Some (it_data s')) -> file_ok s'.
Proof. unfold file_ok. intros Hok -> Hd. cbn. auto. Qed.

Lemma fd_WriteAt_data b off s nn err s' : fd_WriteAt b off s = (nn, err, s') -> is_Some (it_data s) -> is_Some (it_data s').
Proof.
  unfold fd_WriteAt. destruct (it_fd s); [|by intros [= <- <- <-]].
  destruct (pop_fault_eq s) as (f & fs & ->). intros [= <- <- <-] [d Hd]. cbn. rewrite Hd. by eexists.
Qed.

Lemma WriteAt_ranges_spec frs : forall b off n0 k0 s,
  wf (item_Rs s) -> file_ok s -> 0 <= off -> off + Z.of_nat (length b) <= MaxInt64 ->
  0 <= k0 <= n0 -> n0 + Z.of_nat (length b) <= MaxInt64 ->
  tiles off frs (off + Z.of_nat (length b)) -> Forall (found_ok (item_Rs s)) frs ->
  exists n skipped err s', WriteAt_ranges frs b off n0 k0 s = Ret (n0 + n, k0 + skipped, err, s') /\
    wrote_at b off s n skipped err s'.
Proof.
  induction frs as [|[[p sz] present] frs IH]; intros b off n0 k0 s Hwf Hok Ho Hmax Hk0 Hn0 Ht Hf; cbn [WriteAt_ranges].
  { cbn in Ht. assert (length b = 0%nat) as Hb by lia. apply nil_length_inv in Hb as ->.
    exists 0, 0, None, s. rewrite !Z.add_0_r. split; [done|]. by apply (wrote_at_skip [] off s Hwf); cbn; lia. }
  cbn [tiles FR_R Pos Size] in Ht. destruct Ht as (-> & Hsz & Ht). pose proof (tiles_covers _ _ _ Ht) as (Hle & _).
  apply Forall_cons in Hf as [[_ Hfr] Hf]. cbn [FR_R FR_Present Pos Size negb] in *.
  rewrite Z.eqb_refl. cbn [negb].
  destruct (Z.ltb_spec sz 0), (Z.ltb_spec (Z.of_nat (length b)) sz); try lia. cbn [orb].
  set (k := Z.to_nat sz). assert (Hk : Z.of_nat k = sz /\ (k <= length b)%nat) by lia.
  pose proof (take_drop k b) as Hsplit. set (b1 := take k b) in *. set (b2 := drop k b) in *.
  assert (Hl1 : Z.of_nat (length b1) = sz) by (subst b1; rewrite length_take; lia).
  assert (Hl2 : Z.of_nat (length b2) = Z.of_nat (length b) - sz) by (subst b2; rewrite length_drop; lia).
  assert (Hmem : forall x, x ∈ mkRange off sz <-> off <= x < off + sz) by (intros; done).
  destruct present.
  - rewrite !i64_id by i64_side.
    destruct (IH b2 (off + sz) (n0 + sz) (k0 + sz) s) as (n & skipped & err & s' & Hw & Hws); try done; try lia.
    { by replace (off + sz + Z.of_nat (length b2)) with (off + Z.of_nat (length b)) by lia. }
    rewrite Hw. exists (sz + n), (sz + skipped), err, s'. rewrite !Z.add_assoc. split; [done|].
    rewrite <- Hsplit. eapply wrote_at_app; [done| |by rewrite Hl1].
    rewrite <- Hl1. apply wrote_at_skip; [done|]. intros x Hx. apply Hfr; [|done]. apply Hmem. lia.
  - destruct (fd_WriteAt b1 off s) as [[nn werr] s1] eqn:Hw1.
    pose proof (fd_WriteAt_spec _ _ _ _ _ _ Ho Hok Hw1) as (Hnn & Hrs1 & Hfr1 & Hnew & Hkeep).
    rewrite Hrs1. set (rs' := Ranges_Insert (item_Rs s) (mkRange off (Z.of_nat nn))).
    set (s2 := set_Rs rs' s1).
    destruct (Insert_correct (item_Rs s) (mkRange off (Z.of_nat nn)) Hwf) as [Hwf' Hcov'].
    { unfold in_bounds, MinInt64, MaxInt64 in *. cbn. lia. }
    fold rs' in Hwf', Hcov'.
    assert (Hmiss : forall x, off <= x < off + sz -> ~ covers (item_Rs s) x).
    { intros x Hx Hc. apply Hfr in Hc; [done|]. apply Hmem. lia. }
    set (err := match werr with None => _ | _ => werr end).
    assert (Hw2 : wrote_at b1 off s (Z.of_nat nn) 0 err s2).
    { split.
      - lia.
      - subst err. destruct werr; [done|]. destruct (Z.eqb_spec (Z.of_nat nn) sz); [lia|done].
      - rewrite filter_none; [done|]. intros x Hx%elem_of_seqZ. apply Hmiss. lia.
      - done.
      - intros x. apply Hcov'.
      - intros x Hx Hc Hs. apply Hkeep; [done| |done]. destruct Hc as [Hc|]; [|done]. intros Hin. by eapply Hmiss; [|exact Hc]; lia.
      - intros x Hx _. by apply Hnew.
      - subst s2. rewrite Hfr1. by destruct s as [? [] ]. }
    rewrite !i64_id by i64_side.
    destruct err as [e|] eqn:He.
    + exists (Z.of_nat nn), 0, (Some e), s2. rewrite Z.add_0_r. split; [done|].
      rewrite <- Hsplit. by apply wrote_at_stop.
    + assert (Hnsz : Z.of_nat nn = sz) by (pose proof (wa_err _ _ _ _ _ _ _ Hw2 eq_refl); lia).
      destruct (IH b2 (off + Z.of_nat nn) (n0 + Z.of_nat nn) k0 s2) as (n & skipped & err2 & s' & Hw & Hws); try lia.
      * done.
      * eapply file_ok_frame; [exact Hok|apply Hw2|]. intros Hd. subst s2. cbn. by eapply fd_WriteAt_data.
      * rewrite Hnsz. by replace (off + sz + Z.of_nat (length b2)) with (off + Z.of_nat (length b)) by lia.
      * subst s2. cbn. apply Forall_forall. intros fr Hin.
        pose proof (proj1 (Forall_forall _ _) Hf fr Hin) as [Hv Hp]. split; [done|]. intros x Hx. rewrite Hcov', <- Hp by done.
        split; [|tauto]. intros [|Hx2]; [done|]. exfalso.
        destruct (tiles_covers _ _ _ Ht) as (_ & _ & Hall). pose proof (proj1 (Forall_forall _ _) Hall fr Hin x Hx).
        unfold elem_of, Range_elem in Hx2. cbn in Hx2. lia.
      * replace (drop nn b) with b2 by (subst b2; f_equal; lia). rewrite Hw.
        exists (Z.of_nat nn + n), (0 + skipped), err2, s'. rewrite Z.add_assoc. split; [f_equal|].
        rewrite <- Hsplit. eapply wrote_at_app; [done|exact Hw2|].
        by replace (off + Z.of_nat (length b1)) with (off + Z.of_nat nn) by lia.
Qed.

Lemma WriteAtNoOverwrite_spec b off s :
  wf (item_Rs s) -> file_ok s -> 0 <= off -> off + Z.of_nat (length b) <= MaxInt64 ->
  exists n skipped err s', WriteAtNoOverwrite b off s = Ret (n, skipped, err, s') /\ wrote_at b off s n skipped err s'.
Proof.
  intros Hwf Hok Ho Hmax. unfold WriteAtNoOverwrite.
  destruct (FindAll_correct (item_Rs s) (mkRange off (Z.of_nat (length b))) Hwf) as (Ht & Hf & _).
  { unfold in_bounds, MinInt64, MaxInt64 in *. cbn. lia. }
  cbn [Pos Size] in Ht. rewrite Z.max_r in Ht by lia.
  by apply (WriteAt_ranges_spec _ b off 0 0 s); try lia.
Qed.
End write_proofs.

(** ** Integrity: one version of the object, any interleaving *)

(** One attempt of [Cache.Open] on the item. *)
Definition open_attempt {O} (sha256_hex : string -> string) (key : string) (origin : O) (meta : Metadata)
  : locked (item O) (option error) :=
  locking (Step not_reset (fun s => (s, Done tt)));;
  add_pending 1;;
  err ← openLocked sha256_hex key origin meta;
  add_pending (-1);;
  mret err.

Section integrity.
Context {O : Type} (content_of : O -> list byte) (sha256_hex : string -> string) (opt : Options) (key : string).
Context `{!Scheduler O} `{!SchedulerOK content_of}.
Context (content : list byte) (mine : string -> Prop).
Implicit Types s : item O.

(** The ranges of a metadata file hold for the data file. *)
Definition stored_ok (i : itemInfo) s : Prop :=
  forall x, covers (InfoRs i) x -> 0 <= x < Z.of_nat (length content) /\ file_at s x = content !! Z.to_nat x.

(** A metadata file of another version, not loaded yet. *)
Definition foreign (i : itemInfo) s : Prop :=
  ~ (mine (InfoFingerprint i) /\ InfoFingerprint i <> ""%string) /\
  it_opens s <= 0 /\ it_downloaders s = None /\ it_fd s = false.

(** Between critical sections a metadata file that is still to be loaded may be
    another version's, or no metadata at all. *)
Definition inv_file (m : metafile) s : Prop :=
  match m with
  | Corrupt => it_fd s = false
  | Stored i => wf (InfoRs i) /\ (stored_ok i s \/ foreign i s)
  end.
Definition settled_file (m : metafile) s : Prop :=
  match m with Corrupt => False | Stored i => wf (InfoRs i) /\ stored_ok i s end.

Definition disk (P : metafile -> item O -> Prop) s : Prop := forall m, it_metaFile s = Some m -> P m s.

(** The objects that the item or its running downloaders point to. *)
Definition live s (ref : nat) : Prop := it_object s = Some ref \/ ref ∈ snd <$> it_dls s.
Definition objects_ok s : Prop :=
  forall ref o, live s ref -> it_objects s !! ref = Some o -> content_of (so_origin o) = content.

Record inv_with (P : metafile -> item O -> Prop) s : Prop := {
  iv_trusted : trusted content s;
  iv_file : file_ok s;
  iv_objects : objects_ok s;
  iv_rm : Forall (eq None) (it_rmFaults s);
  iv_disk : it_loaded s = false -> disk P s;
}.

(** [settled] is the state after the version check. *)
Definition inv : item O -> Prop := inv_with inv_file.
Definition settled : item O -> Prop := inv_with settled_file.

Lemma settled_inv s : settled s -> inv s.
Proof.
  intros []. split; try done. intros Hl m Hm. specialize (iv_disk0 Hl m Hm).
  destruct m; cbn in *; tauto.
Qed.

(** No other objects, and no pointers to them but those that were there. *)
Definition same_objects s s' : Prop :=
  it_objects s' = it_objects s /\ (it_object s' = it_object s \/ it_object s' = None) /\ it_dls s' ⊆ it_dls s.

Lemma same_objects_ok s s' : same_objects s s' -> objects_ok s -> objects_ok s'.
Proof.
  intros (H1 & H2 & H3) Hok ref o Hl. rewrite H1. apply Hok. destruct Hl as [Hl|Hl].
  - left. by destruct H2 as [H2|H2]; rewrite H2 in Hl.
  - right. apply list_elem_of_fmap in Hl as (d & -> & Hd). apply list_elem_of_fmap. exists d. split; [done|]. by apply H3.
Qed.

(** Fields the invariant does not look at. *)
Definition same_view s s' : Prop :=
  item_Rs s' = item_Rs s /\ it_data s' = it_data s /\ it_fd s' = it_fd s /\ same_objects s s' /\
  it_rmFaults s' = it_rmFaults s /\ it_loaded s' = it_loaded s /\ it_metaFile s' = it_metaFile s /\
  (it_opens s' <= 0 \/ it_opens s' <= it_opens s) /\ it_downloaders s' = it_downloaders s.

Lemma stored_ok_data i s s' : it_data s' = it_data s -> stored_ok i s -> stored_ok i s'.
Proof. unfold stored_ok, file_at. by intros ->. Qed.

Lemma trusted_data s s' : item_Rs s' = item_Rs s -> it_data s' = it_data s -> trusted content s -> trusted content s'.
Proof. unfold trusted, file_at. by intros -> ->. Qed.

Lemma inv_view s s' : same_view s s' -> inv s -> inv s'.
Proof.
  intros (V1 & V2 & V3 & V4 & V5 & V6 & V7 & V8 & V9) []. split.
  - by eapply trusted_data.
  - unfold file_ok. by rewrite V3, V2.
  - by eapply same_objects_ok.
  - by rewrite V5.
  - unfold disk. rewrite V6, V7. intros Hl m Hm. specialize (iv_disk0 Hl m Hm).
    destruct m as [|i]; cbn in *; [by rewrite V3|]. destruct iv_disk0 as [? [Hs|Hf]]; (split; [done|]).
    + left. by eapply stored_ok_data.
    + right. unfold foreign in *. rewrite V9, V3. destruct Hf as (? & ? & ? & ?). split_and!; try done. lia.
Qed.

Lemma settled_view s s' : same_view s s' -> settled s -> settled s'.
Proof.
  intros (V1 & V2 & V3 & V4 & V5 & V6 & V7 & V8 & V9) []. split.
  - by eapply trusted_data.
  - unfold file_ok. by rewrite V3, V2.
  - by eapply same_objects_ok.
  - by rewrite V5.
  - unfold disk. rewrite V6, V7. intros Hl m Hm. specialize (iv_disk0 Hl m Hm).
    destruct m as [|i]; cbn in *; [done|]. destruct iv_disk0 as [? Hs]. split; [done|]. by eapply stored_ok_data.
Qed.

(** A settled state does not care about handles, opens and downloaders. *)
Definition same_data s s' : Prop :=
  item_Rs s' = item_Rs s /\ it_data s' = it_data s /\ (it_fd s' = true -> it_fd s = true) /\
  same_objects s s' /\ it_rmFaults s' = it_rmFaults s /\ it_loaded s' = it_loaded s /\
  it_metaFile s' = it_metaFile s.

(** [same_view] and [same_data] of record updates. *)
Ltac view := intros; unfold same_view, same_data, same_objects; cbn; split_and!;
  first [done | lia | by left | by right; lia | by right | by apply list_subseteq_filter | idtac].

Lemma settled_data s s' : same_data s s' -> settled s -> settled s'.
Proof.
  intros (V1 & V2 & V3 & V4 & V5 & V6 & V7) []. split.
  - by eapply trusted_data.
  - unfold file_ok. rewrite V2. auto.
  - by eapply same_objects_ok.
  - by rewrite V5.
  - unfold disk. rewrite V6, V7. intros Hl m Hm. specialize (iv_disk0 Hl m Hm).
    destruct m as [|i]; cbn in *; [done|]. destruct iv_disk0 as [? Hs]. split; [done|]. by eapply stored_ok_data.
Qed.

(** Rules for the steps that only change what the invariant does not see. *)
Definition stable (P : item O -> Prop) : Prop := forall s s', same_view s s' -> P s -> P s'.

Lemma inv_stable : stable inv.
Proof. intros s s'. apply inv_view. Qed.
Lemma settled_stable : stable settled.
Proof. intros s s'. apply settled_view. Qed.

Lemma triple_syscall P : stable P -> triple inv P syscall (fun _ s => P s).
Proof.
  intros HP. unfold syscall. apply triple_with_state. intros s a s' Hs.
  destruct (pop_fault_eq s) as (f & fs & ->). intros [= <- <-]. eapply HP; [|done]. view.
Qed.

Lemma triple_check P msg m k Q : triple inv P m (fun _ s => Q s) -> triple inv Q k (fun _ s => Q s) ->
  triple inv P (check msg m k) (fun _ s => Q s).
Proof.
  intros Hm Hk. unfold check. eapply triple_bind; [exact Hm|]. intros [err|]; cbn; [|exact Hk].
  eapply triple_weaken; [apply triple_ret|done|]. by intros ? ? [_ ?].
Qed.

Lemma triple_mret {A} (a : A) P : triple inv P (mret a) (fun _ s => P s).
Proof. by intros s Hs. Qed.

Lemma save_inv P : stable P -> (forall s, P s -> P (set_metaFile (Some (Stored (it_info s))) s)) ->
  triple inv P saveLocked (fun _ s => P s).
Proof.
  intros HP Hsave. unfold saveLocked. repeat (apply triple_check; [by apply triple_syscall|]).
  eapply triple_bind; [apply (triple_modify inv _ P P); exact Hsave|]. intros []. apply triple_mret.
Qed.

Lemma store_info P s : inv_with P s -> settled (set_metaFile (Some (Stored (it_info s))) s).
Proof.
  intros []. split; try done. intros _ m [= <-]. done.
Qed.

Lemma saveLocked_inv : triple inv inv saveLocked (fun _ s => inv s).
Proof.
  apply save_inv; [apply inv_stable|]. intros s Hs. apply settled_inv. by eapply store_info.
Qed.
Lemma saveLocked_settled : triple inv settled saveLocked (fun _ s => settled s).
Proof. apply save_inv; [apply settled_stable|]. intros s Hs. by eapply store_info. Qed.

(** Writes of the version's own bytes keep everything. *)
Hypothesis content_max : Z.of_nat (length content) <= MaxInt64.

Lemma wrote_own_bytes off len s n skipped err s' x :
  0 <= off -> 0 <= x -> wrote_at (slice off (off + len) content) off s n skipped err s' ->
  is_Some (file_at s x) \/ off <= x < off + n ->
  (file_at s x = content !! Z.to_nat x \/ ~ is_Some (file_at s x) \/ (off <= x < off + n /\ ~ covers (item_Rs s) x)) ->
  x < Z.of_nat (length content) -> (covers (item_Rs s) x -> is_Some (file_at s x)) ->
  file_at s' x = content !! Z.to_nat x.
Proof.
  intros Ho Hx [N E K W R P C F] Hin Hat Hlt Hcov.
  destruct (decide (off <= x < off + n)) as [Hw|Hw].
  - destruct (decide (covers (item_Rs s) x)) as [Hc|Hc].
    + destruct Hat as [Hat|[Hat|[_ Hat]]]; [|by destruct Hat; apply Hcov|done].
      rewrite <- Hat. apply P; [done|by left|]. by apply Hcov.
    + rewrite C by done. unfold slice. unfold slice in N. rewrite length_take, length_drop in N.
      rewrite lookup_take_lt by lia. rewrite lookup_drop. f_equal. lia.
  - destruct Hin as [Hin|]; [|done]. destruct Hat as [Hat|[Hat|[? _]]]; [|done|done].
    rewrite <- Hat. apply P; [done|by right|done].
Qed.

Lemma frame_view s s' : frame s s' ->
  it_fd s' = it_fd s /\ same_objects s s' /\ it_rmFaults s' = it_rmFaults s /\ it_loaded s' = it_loaded s /\
  it_metaFile s' = it_metaFile s /\ it_opens s' = it_opens s /\ it_downloaders s' = it_downloaders s.
Proof. unfold same_objects. intros ->. split_and!; try done. by left. Qed.

Lemma wrote_own_inv off len s n skipped err s' : 0 <= off ->
  wrote_at (slice off (off + len) content) off s n skipped err s' ->
  (is_Some (it_data s) -> is_Some (it_data s')) -> inv s -> inv s'.
Proof.
  intros Ho Hw Hd []. pose proof Hw as [N E K W R P C F].
  pose proof (frame_view _ _ F) as (F1 & F2 & F3 & F4 & F5 & F6 & F7).
  destruct iv_trusted0 as [Hwf Ht].
  assert (Hcov : forall x, covers (item_Rs s) x -> is_Some (file_at s x)).
  { intros x Hx. destruct (Ht x Hx) as [Hb ->]. apply lookup_lt_is_Some. lia. }
  assert (Hn : off + n <= Z.of_nat (length content) \/ n = 0).
  { unfold slice in N. rewrite length_take, length_drop in N. lia. }
  assert (Hold : forall x, 0 <= x < Z.of_nat (length content) -> file_at s x = content !! Z.to_nat x ->
                 file_at s' x = content !! Z.to_nat x).
  { intros x Hx Hat. eapply wrote_own_bytes; eauto; [lia| |lia]. left. rewrite Hat. apply lookup_lt_is_Some. lia. }
  split.
  - split; [done|]. intros x Hx. apply R in Hx. destruct (decide (covers (item_Rs s) x)) as [Hc|Hc].
    + destruct (Ht x Hc) as [Hb Hat]. split; [done|]. by apply Hold.
    + destruct Hx as [|Hx]; [done|]. split; [lia|].
      eapply wrote_own_bytes; eauto; lia.
  - unfold file_ok. rewrite F1. intros Hf. by apply Hd, iv_file0.
  - by eapply same_objects_ok.
  - by rewrite F3.
  - unfold disk. rewrite F4, F5. intros Hl m Hm. specialize (iv_disk0 Hl m Hm).
    destruct m as [|i]; cbn in *; [congruence|]. destruct iv_disk0 as [? [Hs|Hf]]; (split; [done|]).
    + left. intros x Hx. destruct (Hs x Hx) as [Hb Hat]. split; [done|]. by apply Hold.
    + right. unfold foreign in *. by rewrite F1, F6, F7.
Qed.

Lemma WriteAt_ranges_data frs : forall b off n k s n' k' err s',
  WriteAt_ranges frs b off n k s = Ret (n', k', err, s') -> is_Some (it_data s) -> is_Some (it_data s').
Proof.
  induction frs as [|fr frs IH]; intros b off n k s n' k' err s'; cbn [WriteAt_ranges]; [by intros [= <- <- <- <-]|].
  destruct (negb _); [by intros [= <- <- <- <-]|]. destruct (_ || _); [done|].
  destruct (FR_Present fr); [apply IH|].
  destruct (fd_WriteAt _ _ _) as [[nn e] s1] eqn:Hw. intros Hr Hd. pose proof (fd_WriteAt_data _ _ _ _ _ _ Hw Hd) as Hd1.
  destruct (match e with None => _ | _ => _ end); [by injection Hr as <- <- <- <-|]. by eapply IH.
Qed.

Lemma downloader_origin_content s dls origin : objects_ok s -> downloader_origin dls s = Some origin -> content_of origin = content.
Proof.
  intros Hall. unfold downloader_origin. destruct (filter _ _) as [|[d ref] l] eqn:Hf; [done|].
  destruct (it_objects s !! ref) as [o|] eqn:Ho; [|done]. intros [= <-]. apply (Hall ref o); [right|done].
  assert (Hin : (d, ref) ∈ filter (fun d => fst d = dls) (it_dls s)) by (rewrite Hf; apply list_elem_of_here).
  apply list_elem_of_filter in Hin as [_ Hin]. apply list_elem_of_fmap. by exists (d, ref).
Qed.

Lemma fetch_inv s s' : fetch content_of s s' -> inv s -> inv s'.
Proof.
  intros (dls & off & len & Ho & ->) Hinv. unfold downloader_write. pose proof Hinv as [[Hwf _] Hfile Hobj _ _].
  destruct (downloader_origin dls s) as [origin|] eqn:Hdo; [|done].
  rewrite (downloader_origin_content _ _ _ Hobj Hdo).
  destruct (decide (slice off (off + len) content = [])) as [Hnil|Hne].
  { rewrite Hnil. unfold WriteAtNoOverwrite. replace (Ranges_FindAll _ _) with (@nil FoundRange) by done. done. }
  destruct (WriteAtNoOverwrite_spec (slice off (off + len) content) off s Hwf Hfile) as (n & k & err & s' & Hw & Hwa).
  - lia.
  - assert (Hin : off < Z.of_nat (length content)).
    { destruct (decide (off < Z.of_nat (length content))); [done|]. destruct Hne. unfold slice.
      rewrite drop_ge by lia. apply take_nil. }
    unfold slice. rewrite length_take, length_drop. lia.
  - rewrite Hw. eapply wrote_own_inv; [|exact Hwa| |done]; [lia|].
    unfold WriteAtNoOverwrite in Hw. intros. by eapply WriteAt_ranges_data.
Qed.

Lemma fetches_inv s s' : rtc (fetch content_of) s s' -> inv s -> inv s'.
Proof. induction 1; eauto using fetch_inv. Qed.

(** A change the invariant does not see. *)
Lemma modify_view (P : item O -> Prop) f : stable P -> (forall s, same_view s (f s)) ->
  triple inv P (modify f) (fun _ s => P s).
Proof. intros HP Hf. apply triple_modify. intros s Hs. by eapply HP. Qed.

Lemma modify_settled f : (forall s, same_data s (f s)) -> triple inv settled (modify f) (fun _ s => settled s).
Proof. intros Hf. apply triple_modify. intros s Hs. by eapply settled_data. Qed.

Lemma triple_get_state {A} (f : item O -> A) P Q (k : A -> locked (item O) Q) R :
  (forall a, triple inv (fun s => P s /\ a = f s) (k a) R) -> triple inv P (get f ≫= k) R.
Proof.
  intros Hk. eapply triple_bind; [apply triple_get|]. intros a.
  eapply triple_weaken; [apply Hk| |done]. intros s [-> ?]. done.
Qed.

Lemma triple_if {A} (b : bool) P (m1 m2 : locked (item O) A) Q :
  (b = true -> triple inv P m1 Q) -> (b = false -> triple inv P m2 Q) -> triple inv P (if b then m1 else m2) Q.
Proof. destruct b; auto. Qed.

Lemma triple_unlock_inv enabled P : (forall s, P s -> inv s) -> triple inv P (unlock_until enabled) (fun _ s => inv s).
Proof. intros HP. eapply triple_weaken; [by apply triple_unlock|done|]. by intros _ s [? _]. Qed.

Lemma triple_pre {A} (P P' : item O -> Prop) (m : locked (item O) A) Q :
  triple inv P' m Q -> (forall s, P s -> P' s) -> triple inv P m Q.
Proof. intros. by eapply triple_weaken. Qed.

Lemma triple_post {A} P (m : locked (item O) A) (Q Q' : A -> item O -> Prop) :
  triple inv P m Q' -> (forall a s, Q' a s -> Q a s) -> triple inv P m Q.
Proof. intros. by eapply triple_weaken. Qed.

Lemma triple_done {A} (a : A) (P : item O -> Prop) (Q : A -> item O -> Prop) :
  (forall s, P s -> Q a s) -> triple inv P (mret a) Q.
Proof. intros HPQ s Hs. by apply HPQ. Qed.


Lemma set_fd_false_inv s : inv s -> inv (set_fd false s).
Proof.
  intros []. split; try done. intros Hl m Hm. specialize (iv_disk0 Hl m Hm).
  destruct m as [|i]; [done|]. cbn in *. unfold foreign in *. cbn. tauto.
Qed.

Lemma set_downloaders_None_inv s : inv s -> inv (set_downloaders None s).
Proof.
  intros []. split; try done. intros Hl m Hm. specialize (iv_disk0 Hl m Hm).
  destruct m as [|i]; [done|]. cbn in *. unfold foreign in *. cbn. tauto.
Qed.

Lemma closeDownloaders_inv dls P : (forall s, P s -> inv s) -> stable inv ->
  triple inv P (closeDownloaders dls) (fun _ s => inv s).
Proof.
  intros HP _. unfold closeDownloaders.
  eapply triple_bind.
  { apply (triple_modify inv _ P inv). intros s Hs. by apply set_downloaders_None_inv, HP. }
  intros []. eapply triple_bind; [by apply triple_unlock_inv|]. intros [].
  eapply triple_bind; [apply modify_view; [apply inv_stable|view]|]. intros [].
  apply triple_syscall, inv_stable.
Qed.

Lemma closeOwn_inv P dls : (forall s, P s -> inv s) ->
  triple inv P (match dls with Some dls => closeDownloaders dls | None => mret None end) (fun _ s => inv s).
Proof.
  intros HP. destruct dls; [by apply closeDownloaders_inv; [|apply inv_stable]|].
  eapply triple_post; [eapply triple_pre; [apply (triple_mret None inv)|done]|done].
Qed.

Lemma closeFD_inv : triple inv inv closeFDLocked (fun _ s => inv s).
Proof.
  unfold closeFDLocked. apply triple_get_state. intros fd. apply triple_if; intros Hfd.
  - eapply triple_bind; [eapply triple_pre; [apply (triple_syscall inv inv_stable)|by intros s []]|].
    intros err. cbn beta. eapply triple_bind; [apply (triple_modify inv _ inv inv), set_fd_false_inv|].
    intros []. apply (triple_mret err).
  - eapply triple_pre; [apply triple_mret|by intros s []].
Qed.

(** Removing both files, with the handle closed. *)
Definition stripped s : Prop :=
  it_fd s = false /\ objects_ok s /\ Forall (eq None) (it_rmFaults s).

Lemma inv_stripped s : inv s -> it_fd s = false -> stripped s.
Proof. by intros []. Qed.

Lemma closeFD_closed : triple inv inv closeFDLocked (fun _ s => inv s /\ it_fd s = false).
Proof.
  intros s Hs. pose proof (closeFD_inv s Hs) as Hc. revert Hc.
  unfold closeFDLocked, get, mbind, locked_bind. cbn [proc_bind]. destruct (it_fd s) eqn:Hfd; [|done].
  unfold syscall, with_state, modify, mret, locked_ret. cbn. destruct (pop_fault_eq s) as (f & fs & ->). done.
Qed.

Lemma Remove_spec {A} (file : item O -> option A) remove (P Q : item O -> Prop) :
  (forall s, P s -> Forall (eq None) (it_rmFaults s)) ->
  (forall s, P s -> Q (remove s)) -> (forall s, P s -> file s = None -> Q s) ->
  (forall s fs, Forall (eq None) fs -> P s -> P (set_rmFaults fs s)) ->
  triple inv P (os_Remove file remove) (fun err s => Q s /\ ignore_missing err = None).
Proof.
  intros Hrm Hrem Hnone Hfs. unfold os_Remove. apply triple_with_state. intros s a s' Hs.
  specialize (Hrm s Hs).
  destruct (it_rmFaults s) as [|f fs]; cbn.
  - pose proof (Hfs s [] ltac:(by apply Forall_nil) Hs) as Hs0.
    destruct (file _) eqn:Hf; intros [= <- <-]; auto.
  - apply Forall_cons in Hrm as [<- Hrm]. pose proof (Hfs s fs Hrm Hs) as Hs0. cbn.
    destruct (file _) eqn:Hf; intros [= <- <-]; auto.
Qed.

Lemma stripped_rm s fs : Forall (eq None) fs -> stripped s -> stripped (set_rmFaults fs s).
Proof. intros Hfs (? & ? & ?). done. Qed.

Lemma stripped_drop s s' : it_objects s' = it_objects s -> it_object s' = None -> it_dls s' = it_dls s -> it_fd s' = it_fd s ->
  it_rmFaults s' = it_rmFaults s -> stripped s -> stripped s'.
Proof.
  intros H1 H2 H3 H4 H5 (Hf & Ho & Hr). unfold stripped. rewrite H4, H5. split_and!; try done.
  eapply same_objects_ok; [|exact Ho]. split_and!; [done|by right|by rewrite H3].
Qed.

Lemma Remove_data_stripped Q : (forall s fs, Q s -> Q (set_rmFaults fs s)) -> (forall s, Q s -> Q (set_data None s)) ->
  triple inv (fun s => stripped s /\ Q s) os_Remove_data (fun err s => (stripped s /\ Q s) /\ ignore_missing err = None).
Proof.
  intros HQ1 HQ2. apply Remove_spec.
  - by intros s [(_ & _ & ?) _].
  - intros s [(? & ? & ?) ?]. split; [done|auto].
  - done.
  - intros s fs Hfs [Hs ?]. split; [by apply stripped_rm|auto].
Qed.

Lemma Remove_meta_stripped :
  triple inv stripped os_Remove_meta (fun err s => (stripped s /\ it_metaFile s = None) /\ ignore_missing err = None).
Proof.
  apply Remove_spec.
  - by intros s (_ & _ & ?).
  - by intros s (? & ? & ?).
  - done.
  - apply stripped_rm.
Qed.

(** Without metadata and ranges the state is settled, whatever the data. *)
Lemma stripped_settled s : stripped s -> it_metaFile s = None -> item_Rs s = [] -> settled s.
Proof.
  intros (Hfd & Ho & Hr) Hm Hrs. split; try done.
  - split; [rewrite Hrs; apply wf_nil|]. intros x. rewrite Hrs. by intros ?%covers_nil.
  - intros Hf. congruence.
  - intros _ m. by rewrite Hm.
Qed.

(** ** Loading and the version check *)

(** Just loaded: the metadata of another version. *)
Definition just_foreign s : Prop :=
  stripped s /\ wf (item_Rs s) /\ foreign (it_info s) s /\ it_loaded s = true.
Definition just_loaded s : Prop := (inv s /\ it_loaded s = true) \/ just_foreign s.

Lemma inv_loaded_settled s : inv s -> it_loaded s = true -> settled s.
Proof. intros [] Hl. split; try done. congruence. Qed.

Lemma set_loaded_inv s : inv s -> just_loaded (set_loaded true s).
Proof. intros []. left. by split. Qed.

Lemma fresh_inv s : inv s -> inv (set_info (freshInfo key s) s).
Proof.
  intros []. split; try done. split; [apply wf_nil|]. by intros x ?%covers_nil.
Qed.

Lemma load_stored i s : inv s -> it_loaded s = false -> it_metaFile s = Some (Stored i) ->
  just_loaded (set_loaded true (set_info i s)).
Proof.
  intros Hinv Hl Hm. pose proof Hinv as []. specialize (iv_disk0 Hl _ Hm) as [Hwf [Hok|Hf]].
  - left. split; [|done]. by split.
  - right. split; [|split; [done|split; [done|done]]]. split; [apply Hf|done].
Qed.

Lemma loadLocked_spec :
  triple inv (fun s => inv s /\ it_loaded s = false) (loadLocked key)
    (fun err s => match err with Some _ => inv s | None => just_loaded (set_loaded true s) end).
Proof.
  unfold loadLocked. eapply triple_bind.
  { apply (triple_syscall (fun s => inv s /\ it_loaded s = false)). intros s s' Hv [Hi Hl]. split; [by eapply inv_view|].
    by destruct Hv as (_ & _ & _ & _ & _ & -> & _). }
  intros [err|]; cbn beta iota.
  { apply triple_done. by intros s []. }
  apply triple_get_state. intros [[|i]|].
  - eapply triple_bind; [eapply triple_pre; [apply Remove_meta_stripped|]|].
    { intros s [[Hi Hl] Hm]. apply inv_stripped; [done|]. by apply (iv_disk _ _ Hi Hl Corrupt). }
    intros err1. eapply triple_bind.
    { eapply triple_pre; [apply (Remove_data_stripped (fun s => it_metaFile s = None)); done|by intros s [? _]]. }
    intros err2. eapply triple_bind.
    { apply (triple_modify inv _ _ (fun s => just_loaded (set_loaded true s))). intros s [[Hs Hm] _].
      apply set_loaded_inv, settled_inv, stripped_settled; done. }
    intros []. by apply triple_done.
  - apply triple_if; intros Hkey.
    + eapply triple_bind.
      { apply (triple_modify inv _ _ (fun s => just_loaded (set_loaded true s))). intros s [[Hs Hl] Hm]. by apply load_stored. }
      intros []. by apply triple_done.
    + apply triple_done. by intros s [[] _].
  - eapply triple_bind.
    { apply (triple_modify inv _ _ (fun s => just_loaded (set_loaded true s))). intros s [[Hs Hl] Hm].
      by apply set_loaded_inv, fresh_inv. }
    intros []. by apply triple_done.
Qed.

(** ** The reset of another version's item *)
Definition ends_settled (err : option error) s : Prop := if err then inv s else settled s.

(** Both removals and the fresh info that follows them. *)
Lemma remove_both_spec (k : locked (item O) (option error)) :
  triple inv (fun s => stripped s /\ it_metaFile s = None) k ends_settled ->
  triple inv stripped
    (err ← os_Remove_data;
     match ignore_missing err with
     | Some err => mret (Some err)
     | None =>
         err ← os_Remove_meta;
         match ignore_missing err with Some err => mret (Some err) | None => k end
     end) ends_settled.
Proof.
  intros Hk. eapply triple_bind.
  { eapply triple_pre; [apply (Remove_data_stripped (fun _ => True)); done|]. done. }
  intros err1. destruct (ignore_missing err1) eqn:He1; [intros s [_ Hx]; congruence|].
  eapply triple_bind; [eapply triple_pre; [apply Remove_meta_stripped|by intros s [[? _] _]]|].
  intros err2. destruct (ignore_missing err2) eqn:He2; [intros s [_ Hx]; congruence|].
  eapply triple_pre; [exact Hk|]. by intros s [? _].
Qed.

Lemma triple_bind_ret {A B} (a : A) (k : A -> locked (item O) B) P R :
  triple inv P (k a) R -> triple inv P (mret a ≫= k) R.
Proof. done. Qed.

Lemma resetLocked_spec : triple inv just_loaded (resetLocked key) ends_settled.
Proof.
  unfold resetLocked. apply triple_get_state. intros dls.
  assert (Htail : triple inv stripped
    (err ← os_Remove_data;
     match ignore_missing err with
     | Some err => mret (Some err)
     | None =>
         err ← os_Remove_meta;
         match ignore_missing err with
         | Some err => mret (Some err)
         | None => modify (fun s => set_object None (set_info (freshInfo key s) s));; mret None
         end
     end) ends_settled).
  { apply remove_both_spec. eapply triple_bind; [apply (triple_modify inv _ _ settled)|intros []; by apply triple_done].
    intros s [Hs Hm]. apply stripped_settled; [by apply (stripped_drop s)|done..]. }
  destruct dls as [dls|].
  - eapply triple_bind; [apply (closeDownloaders_inv dls); [|apply inv_stable]|].
    { intros s [[[Hi _]|[_ [_ [(_ & _ & Hd & _) _]]]] Hdls]; [done|congruence]. }
    intros [err|]; cbn beta iota; [by apply triple_done|].
    eapply triple_bind; [apply closeFD_closed|]. intros [err|]; cbn beta iota; [by apply triple_done; intros s []|].
    eapply triple_pre; [exact Htail|]. by intros s [? ?]; apply inv_stripped.
  - apply triple_bind_ret. cbn beta iota. eapply triple_bind.
    + instantiate (1 := fun err s => if err then inv s else stripped s).
      intros s [[[Hi Hl]|(Hst & _ & (_ & _ & _ & Hfd) & _)] _].
      * pose proof (closeFD_closed s Hi) as Hc. destruct (closeFDLocked s) as [s' p].
        eapply proc_triple_mono; [|exact Hc]. intros [err|] s2 [? ?]; [done|by apply inv_stripped].
      * unfold closeFDLocked, get, mbind, locked_bind. cbn [proc_bind]. by rewrite Hfd.
    + intros [err|]; cbn beta iota; [by apply triple_done|exact Htail].
Qed.

Lemma foreign_empty s : just_foreign s -> Ranges_Size (item_Rs s) = 0 -> settled s.
Proof.
  intros (Hst & Hwf & _ & Hl) Hz.
  assert (Hnil : item_Rs s = []) by by apply Size_nil.
  destruct Hst as (Hfd & Ho & Hr). split; try done.
  - split; [done|]. intros x. rewrite Hnil. by intros ?%covers_nil.
  - intros Hf. congruence.
  - congruence.
Qed.

(** After the version check the ranges are this version's, or gone. *)
Lemma openLocked_version_spec meta : mine (metadataFingerprint sha256_hex meta) ->
  triple inv just_loaded (openLocked_version sha256_hex key meta) ends_settled.
Proof.
  intros Hmine. unfold openLocked_version. apply triple_get_state. intros s0. cbv zeta. cbn [id].
  set (fp := metadataFingerprint sha256_hex meta) in *.
  assert (Hsettle : forall s, just_loaded s -> s0 = id s -> ~ just_foreign s -> settled s).
  { intros s [[Hi Hl]|Hf] _ Hn; [by apply inv_loaded_settled|done]. }
  apply triple_if; intros Hop.
  { apply Z.ltb_lt in Hop. assert (Hnf : forall s, s0 = id s -> ~ just_foreign s).
    { intros s -> (_ & _ & (_ & Ho & _) & _). cbn in Hop. lia. }
    apply triple_if; intros Hfp; apply triple_done; intros s [Hs He]; [|apply settled_inv]; apply Hsettle; auto. }
  apply triple_if; intros Hres.
  { eapply triple_bind; [eapply triple_pre; [apply resetLocked_spec|by intros s []]|].
    intros [err|]; by apply triple_done. }
  apply triple_done. intros s [Hs ->]. cbn [id] in *. cbn.
  destruct Hs as [[Hi Hl]|Hf]; [by apply inv_loaded_settled|].
  apply foreign_empty; [done|]. destruct (Z.eqb_spec (Ranges_Size (item_Rs s)) 0) as [|Hne]; [done|]. exfalso.
  cbn [negb andb] in Hres. apply orb_false_iff in Hres as [[Hf1 Hf2]%orb_false_iff Hf3].
  destruct Hf as (_ & _ & (Hnot & _) & _). apply Hnot.
  apply bool_decide_eq_false in Hf1, Hf2. apply negb_false_iff, bool_decide_eq_true in Hf3. rewrite Hf3. done.
Qed.

(** ** Opening the file *)
Lemma triple_check_msg P Q msg m k : triple inv P m (fun (err : option error) s => if err then inv s else P s) ->
  triple inv P k Q -> (forall err s, inv s -> Q (Some err) s) -> triple inv P (check msg m k) Q.
Proof.
  intros Hm Hk HQ. unfold check. eapply triple_bind; [exact Hm|]. intros [err|]; cbn beta iota; [|exact Hk].
  apply triple_done. auto.
Qed.

Lemma syscall_settled : triple inv settled syscall (fun (err : option error) s => if err then inv s else settled s).
Proof.
  eapply triple_post; [apply (triple_syscall settled settled_stable)|]. intros [err|] s; [apply settled_inv|done].
Qed.

Lemma set_Rs_nil_settled s : settled s -> settled (set_Rs [] s).
Proof. intros []. split; try done. split; [apply wf_nil|]. by intros x ?%covers_nil. Qed.

Lemma OpenFile_settled : triple inv settled os_OpenFile_data ends_settled.
Proof.
  unfold os_OpenFile_data. eapply triple_bind; [apply syscall_settled|].
  intros [err|]; cbn beta iota; [by apply triple_done|].
  eapply triple_bind; [apply (triple_modify inv _ _ settled)|intros []; by apply triple_done].
  intros s [].
  assert (Hat : forall x, is_Some (file_at s x) -> file_at (set_fd true (set_data (Some (default [] (it_data s))) s)) x = file_at s x).
  { intros x. unfold file_at. cbn. destruct (it_data s); [done|]. by intros []. }
  assert (Hc : forall x, 0 <= x < Z.of_nat (length content) /\ file_at s x = content !! Z.to_nat x ->
    0 <= x < Z.of_nat (length content) /\
    file_at (set_fd true (set_data (Some (default [] (it_data s))) s)) x = content !! Z.to_nat x).
  { intros x [Hb Hx]. split; [done|]. rewrite Hat; [done|]. rewrite Hx. apply lookup_lt_is_Some. lia. }
  split; try done.
  - destruct iv_trusted0 as [Hwf Ht]. split; [done|]. intros x Hx. by apply Hc, Ht.
  - intros _. by eexists.
  - intros Hl m Hm. specialize (iv_disk0 Hl m Hm). destruct m as [|i]; cbn in *; [done|].
    destruct iv_disk0 as [Hwf Hs]. split; [done|]. intros x Hx. by apply Hc, Hs.
Qed.

Lemma openLocked_fd_spec : triple inv settled openLocked_fd ends_settled.
Proof.
  unfold openLocked_fd. apply triple_get_state. intros fd. apply triple_if; intros Hfd.
  { apply triple_done. by intros s [? _]. }
  eapply triple_bind.
  { instantiate (1 := fun (_ : option error) (s : item O) => settled s). unfold os_Stat_data.
    eapply triple_bind; [eapply triple_pre; [apply (triple_syscall settled settled_stable)|by intros s []]|].
    intros [err|]; cbn beta iota; [by apply triple_done|]. intros s Hs. done. }
  intros statErr. eapply triple_bind.
  { apply (triple_modify inv _ _ settled). intros s Hs. destruct (_ && _); [by apply set_Rs_nil_settled|done]. }
  intros []. unfold check. eapply triple_bind; [apply OpenFile_settled|].
  intros [err|]; cbn beta iota; by apply triple_done.
Qed.

Lemma truncate_file_lookup n d i : i < n -> is_Some (d !! Z.to_nat i) -> 0 <= i ->
  truncate_file n d !! Z.to_nat i = d !! Z.to_nat i.
Proof.
  intros Hi [v Hv] H0. apply lookup_lt_Some in Hv as Hlt. unfold truncate_file.
  rewrite lookup_app_l by (rewrite length_take; lia). apply lookup_take_lt. lia.
Qed.

(** Cutting the file to the size of the content loses no byte of it. *)
Lemma truncate_settled s : settled s ->
  settled (set_data (truncate_file (Z.of_nat (length content)) <$> it_data s) s).
Proof.
  intros []. set (s' := set_data _ _).
  assert (Hc : forall x, 0 <= x < Z.of_nat (length content) /\ file_at s x = content !! Z.to_nat x ->
    0 <= x < Z.of_nat (length content) /\ file_at s' x = content !! Z.to_nat x).
  { intros x [Hb Hx]. split; [done|]. subst s'. unfold file_at in *. cbn.
    assert (Hin : is_Some (content !! Z.to_nat x)) by (apply lookup_lt_is_Some; lia).
    destruct (it_data s) as [d|]; cbn; [|by rewrite <- Hx in Hin; destruct Hin].
    rewrite truncate_file_lookup; [done|lia|by rewrite Hx|lia]. }
  split; try done.
  - destruct iv_trusted0 as [Hwf Ht]. split; [done|]. intros x Hx. by apply Hc, Ht.
  - intros Hf. destruct (iv_file0 Hf) as [d Hd]. subst s'. cbn. rewrite Hd. by eexists.
  - intros Hl m Hm. specialize (iv_disk0 Hl m Hm). destruct m as [|i]; cbn in *; [done|].
    destruct iv_disk0 as [Hwf Hs]. split; [done|]. intros x Hx. by apply Hc, Hs.
Qed.

Lemma set_Rs_subset_settled s rs : settled s -> wf rs -> (forall x, covers rs x -> covers (item_Rs s) x) ->
  settled (set_Rs rs s).
Proof. intros [] Hwf Hsub. split; try done. split; [done|]. intros x Hx. by apply iv_trusted0, Hsub. Qed.

Lemma Truncate_settled : triple inv settled (fd_Truncate (Z.of_nat (length content))) ends_settled.
Proof.
  unfold fd_Truncate. eapply triple_bind; [apply syscall_settled|].
  intros [err|]; cbn beta iota; [by apply triple_done|].
  eapply triple_bind; [apply (triple_modify inv _ _ settled), truncate_settled|]. intros []. by apply triple_done.
Qed.

Lemma openLocked_size_spec meta : MetaSize meta = Z.of_nat (length content) ->
  triple inv settled (openLocked_size meta) ends_settled.
Proof.
  intros Hsize. unfold openLocked_size. rewrite Hsize. apply triple_check_msg; [apply syscall_settled| |done].
  apply triple_get_state. intros d. apply triple_if; intros Heq; [apply triple_done; by intros s [? _]|].
  eapply triple_pre; [apply triple_check_msg; [apply Truncate_settled| |done]|by intros s [? _]].
  eapply triple_bind; [apply (triple_modify inv _ _ settled)|intros []; by apply triple_done].
  intros s Hs.
  destruct (Intersection_correct (item_Rs s) (mkRange 0 (Z.of_nat (length content)))) as [Hwf Hcov]; [apply Hs| |].
  { unfold in_bounds, MinInt64, MaxInt64 in *. cbn. lia. }
  apply set_Rs_subset_settled; [done|done|]. intros x Hx. by apply Hcov in Hx as [? _].
Qed.

(** ** The methods *)
Lemma set_origin_objects origin meta s : content_of origin = content -> objects_ok s -> objects_ok (set_origin origin meta s).
Proof.
  intros Ho Hok ref o. unfold set_origin, live. destruct (it_object s) as [r|] eqn:Hr; cbn; rewrite ?Hr.
  - destruct (decide (ref = r)) as [->|Hne].
    + rewrite list_lookup_alter, decide_True by done. intros _. destruct (it_objects s !! r); [|done]. by intros [= <-].
    + rewrite list_lookup_alter_ne by done. intros Hl. apply Hok. unfold live. by rewrite Hr.
  - intros Hl. destruct (decide (ref = length (it_objects s))) as [->|Hne].
    + rewrite list_lookup_middle by done. by intros [= <-].
    + intros Hlook. apply (Hok ref); [destruct Hl as [[= Hl]|Hl]; [by destruct Hne|by right]|].
      apply lookup_lt_Some in Hlook as Hlt. rewrite length_app in Hlt. cbn in Hlt. by rewrite lookup_app_l in Hlook by lia.
Qed.

Lemma set_origin_settled origin meta s : content_of origin = content -> settled s -> settled (set_origin origin meta s).
Proof.
  intros Ho Hs. pose proof (set_origin_objects origin meta s Ho (iv_objects _ _ Hs)) as Hobj. revert Hobj. destruct Hs.
  unfold set_origin. by destruct (it_object s).
Qed.

Lemma createDownloaders_objects s s' : createDownloadersLocked s = (s', Done tt) -> objects_ok s -> objects_ok s'.
Proof.
  unfold createDownloadersLocked, modify. intros [= <-] Hok. destruct (it_downloaders s); [done|].
  destruct (it_object s) as [r|] eqn:Hr; [|done]. destruct (_ <=? _); [done|]. intros ref o Hl. apply Hok.
  destruct Hl as [Hl|[->|Hl]%elem_of_cons]; [by left|by left|by right].
Qed.

Lemma createDownloaders_settled : triple inv settled createDownloadersLocked (fun _ s => settled s).
Proof.
  intros s Hs. pose proof (createDownloaders_objects s _ eq_refl (iv_objects _ _ Hs)) as Hok. revert Hok. destruct Hs. cbn.
  by destruct (it_downloaders s), (it_object s); try destruct (_ <=? _).
Qed.

(** With an open handle, or loaded, no foreign metadata is waiting. *)
Lemma createDownloaders_open s0 s : it_fd s0 = true -> inv s0 -> s = s0 ->
  let '(s', p) := createDownloadersLocked s in proc_triple inv (fun _ s => inv s /\ it_fd s = true) p s'.
Proof.
  intros Hfd Hinv ->. pose proof (createDownloaders_objects s0 _ eq_refl (iv_objects _ _ Hinv)) as Hok. revert Hok.
  unfold createDownloadersLocked, modify. cbn. destruct (it_downloaders s0), (it_object s0); try destruct (_ <=? _); try done.
  intros Hok. split; [|done]. destruct Hinv. split; try done. intros Hl m Hm. specialize (iv_disk0 Hl m Hm).
  destruct m as [|i]; cbn in *; [done|]. destruct iv_disk0 as [Hwf [Hs|Hf]]; (split; [done|]); [by left|].
  destruct Hf as (_ & _ & _ & Hf). congruence.
Qed.

(** From the size check on. *)
Lemma open_tail_inv origin meta : content_of origin = content ->
  triple inv settled
    (modify (set_origin origin meta);; modify (set_meta meta);;
     modify (fun s => set_info (mkInfo key (it_clock s) (MetaSize meta) (InfoRs (it_info s)) (metadataFingerprint sha256_hex meta)) s);;
     createDownloadersLocked;;
     err ← saveLocked;
     match err with
     | Some err => mret (Some err)
     | None => modify (fun s => set_opens (it_opens s + 1) s);; mret None
     end) (fun _ s => inv s).
Proof.
  intros Horig. eapply triple_bind; [apply (triple_modify inv _ _ settled); by intros s; apply set_origin_settled|]. intros [].
  eapply triple_bind; [apply (modify_settled (set_meta meta)); by view|]. intros [].
  eapply triple_bind; [apply (modify_settled (fun s => set_info _ s)); by view|]. intros [].
  eapply triple_bind; [apply createDownloaders_settled|]. intros [].
  eapply triple_bind; [apply saveLocked_settled|].
  intros [err|]; cbn beta iota; [apply triple_done; apply settled_inv|].
  eapply triple_bind; [apply (modify_settled (fun s => set_opens (it_opens s + 1) s)); by view|]. intros [].
  apply triple_done. apply settled_inv.
Qed.

Lemma openLocked_inv origin meta :
  content_of origin = content -> MetaSize meta = Z.of_nat (length content) ->
  mine (metadataFingerprint sha256_hex meta) ->
  triple inv inv (openLocked sha256_hex key origin meta) (fun _ s => inv s).
Proof.
  intros Horig Hsize Hmine. unfold openLocked. apply triple_get_state. intros closing.
  eapply triple_bind.
  { instantiate (1 := fun (_ : unit) (s : item O) => inv s). apply triple_if; intros Hc.
    - apply triple_unlock_inv. by intros s [? _].
    - apply triple_done. by intros s [? _]. }
  intros []. eapply triple_bind; [apply modify_view; [apply inv_stable|by view]|]. intros [].
  apply triple_get_state. intros loaded. eapply triple_bind.
  { instantiate (1 := fun (err : option error) (s : item O) => if err then inv s else just_loaded s).
    apply triple_if; intros Hl; [by apply triple_done; intros s [? ->]; left|].
    unfold check. eapply triple_bind; [eapply triple_pre; [apply loadLocked_spec|by intros s [? ->]]|].
    intros [err|]; cbn beta iota; [by apply triple_done|].
    eapply triple_bind; [by apply (triple_modify inv _ _ just_loaded)|]. intros []. by apply triple_done. }
  intros [err|]; cbn beta iota; [by apply triple_done|].
  eapply triple_bind; [by apply openLocked_version_spec|].
  intros [err|]; cbn beta iota; [by apply triple_done|].
  eapply triple_pre; [|intros s Hs; exact Hs].
  apply triple_check_msg; [apply syscall_settled| |done].
  apply triple_check_msg; [apply syscall_settled| |done].
  eapply triple_bind; [apply openLocked_fd_spec|]. intros [err|]; cbn beta iota; [by apply triple_done|].
  eapply triple_bind; [by apply openLocked_size_spec|]. intros [err|]; cbn beta iota; [by apply triple_done|].
  by apply open_tail_inv.
Qed.

Lemma actualClose_inv : triple inv inv actualCloseLocked (fun _ s => inv s).
Proof.
  unfold actualCloseLocked. apply triple_get_state. intros dls.
  eapply triple_bind; [apply closeOwn_inv; by intros s []|]. intros err.
  eapply triple_bind; [apply closeFD_inv|]. intros closeErr.
  eapply triple_bind; [apply saveLocked_inv|]. intros saveErr. by apply triple_done.
Qed.

Lemma locking_inv {A} (p : proc (item O) A) P (Q : A -> item O -> Prop) : (forall s, P s -> inv s) ->
  (forall s, inv s -> proc_triple inv Q p s) -> triple inv P (locking p) Q.
Proof. intros HP Hp s Hs. by apply Hp, HP. Qed.

Lemma with_lock_inv {A} (m : locked (item O) A) P (Q : A -> item O -> Prop) : (forall s, P s -> inv s) ->
  triple inv inv m Q -> triple inv P (locking (with_lock m)) Q.
Proof. intros HP Hm. apply locking_inv; [done|]. intros s Hs. split; [done|]. intros s1 H1 _. by apply Hm. Qed.

Lemma Step_inv {A} enabled (m : locked (item O) A) P (Q : A -> item O -> Prop) : (forall s, P s -> inv s) ->
  triple inv inv m Q -> triple inv P (locking (Step enabled m)) Q.
Proof. intros HP Hm. apply locking_inv; [done|]. intros s Hs. split; [done|]. intros s1 H1 _. by apply Hm. Qed.

Lemma add_pending_inv n : triple inv inv (add_pending n) (fun _ s => inv s).
Proof. unfold add_pending. apply modify_view; [apply inv_stable|]. by view. Qed.

Lemma open_attempt_inv origin meta :
  content_of origin = content -> MetaSize meta = Z.of_nat (length content) ->
  mine (metadataFingerprint sha256_hex meta) ->
  triple inv inv (open_attempt sha256_hex key origin meta) (fun _ s => inv s).
Proof.
  intros. unfold open_attempt. eapply triple_bind; [apply (Step_inv _ _ _ (fun _ => inv)); [done|by intros s Hs]|]. intros [].
  eapply triple_bind; [apply add_pending_inv|]. intros [].
  eapply triple_bind; [by apply openLocked_inv|]. intros err.
  eapply triple_bind; [apply add_pending_inv|]. intros []. by apply triple_done.
Qed.

Lemma release_inv : triple inv inv (release opt) (fun _ s => inv s).
Proof.
  unfold release. eapply triple_bind; [apply (Step_inv _ _ _ (fun _ => inv)); [done|apply add_pending_inv]|]. intros [].
  eapply triple_bind.
  { apply (with_lock_inv _ _ (fun _ => inv)); [done|]. unfold release_locked.
    eapply triple_bind; [apply modify_view; [apply inv_stable|by view]|]. intros [].
    eapply triple_bind; [apply modify_view; [apply inv_stable|by view]|]. intros [].
    apply triple_get_state. intros opens. apply triple_if; intros H1; [by apply triple_done; intros s []|].
    apply triple_if; intros H2; [by apply triple_done; intros s []|].
    apply triple_if; intros H3; [|eapply triple_pre; [apply actualClose_inv|by intros s []]].
    eapply triple_bind; [eapply triple_pre; [apply modify_view; [apply inv_stable|by view]|by intros s []]|].
    intros []. by apply triple_done. }
  intros err. eapply triple_bind; [apply (with_lock_inv _ _ (fun _ => inv)); [done|apply add_pending_inv]|]. intros [].
  by apply triple_done.
Qed.

Lemma closeAfterGrace_inv : triple inv inv closeAfterGrace_locked (fun _ s => inv s).
Proof.
  unfold closeAfterGrace_locked. apply triple_get_state. intros s0. apply triple_if; intros Hc; [by apply triple_done; intros s []|].
  eapply triple_bind; [eapply triple_pre; [apply modify_view; [apply inv_stable|by view]|by intros s []]|]. intros [].
  eapply triple_bind; [apply modify_view; [apply inv_stable|by view]|]. intros [].
  eapply triple_bind; [apply actualClose_inv|]. intros err. apply modify_view; [apply inv_stable|by view].
Qed.

(** No ranges, no metadata: what is on disk does not matter. *)
Record blank s : Prop := {
  bl_file : file_ok s;
  bl_Rs : item_Rs s = [];
  bl_meta : it_metaFile s = None;
  bl_objects : objects_ok s;
  bl_rm : Forall (eq None) (it_rmFaults s);
}.

Lemma blank_settled s : blank s -> settled s.
Proof.
  intros []. split; try done.
  - split; [rewrite bl_Rs0; apply wf_nil|]. intros x. rewrite bl_Rs0. by intros ?%covers_nil.
  - intros _ m. by rewrite bl_meta0.
Qed.

Lemma stripped_blank s : stripped s -> it_metaFile s = None -> item_Rs s = [] -> blank s.
Proof. intros (Hfd & ? & ?) ? ?. split; try done. intros Hf. congruence. Qed.

Definition ends_blank (err : option error) s : Prop := blank s.

Lemma syscall_blank : triple inv blank syscall ends_blank.
Proof.
  unfold syscall. apply triple_with_state. intros s a s' Hs.
  destruct (pop_fault_eq s) as (f & fs & ->). intros [= <- <-]. by destruct Hs.
Qed.

Lemma OpenFile_blank : triple inv blank os_OpenFile_data ends_blank.
Proof.
  unfold os_OpenFile_data. eapply triple_bind; [apply syscall_blank|]. intros [err|]; cbn beta iota; [by apply triple_done|].
  eapply triple_bind; [apply (triple_modify inv _ _ blank)|intros []; by apply triple_done].
  intros s []. split; try done. intros _. by eexists.
Qed.

Lemma Truncate_blank size : triple inv blank (fd_Truncate size) ends_blank.
Proof.
  unfold fd_Truncate. eapply triple_bind; [apply syscall_blank|]. intros [err|]; cbn beta iota; [by apply triple_done|].
  eapply triple_bind; [apply (triple_modify inv _ _ blank)|intros []; by apply triple_done].
  intros s []. split; try done. intros Hf. destruct (bl_file0 Hf) as [d Hd]. cbn. rewrite Hd. by eexists.
Qed.

Lemma finishReset_inv P freed err : (forall s, P s -> settled s) -> triple inv P (finishReset freed err) (fun _ s => inv s).
Proof.
  intros HP. unfold finishReset. eapply triple_bind.
  { instantiate (1 := fun (_ : unit) (s : item O) => inv s).
    apply triple_if; intros _; [apply triple_done|apply (triple_modify inv _ _ inv)]; intros s Hs; [by apply settled_inv, HP|].
    apply settled_inv. eapply settled_data; [|by apply HP]. by view. }
  intros []. by apply triple_done.
Qed.

(** Both files of a closed item go, and what follows starts from nothing. *)
Lemma remove_all_spec {A} f (k : locked (item O) A) (Q : A -> item O -> Prop) :
  (forall s, stripped s -> it_metaFile s = None -> blank (f s)) -> triple inv blank k Q ->
  triple inv stripped (os_Remove_data;; os_Remove_meta;; modify f;; k) Q.
Proof.
  intros Hf Hk. eapply triple_bind.
  { eapply triple_pre; [apply (Remove_data_stripped (fun _ => True)); done|]. done. }
  intros err1. eapply triple_bind; [eapply triple_pre; [apply Remove_meta_stripped|by intros s [[? _] _]]|].
  intros err2. eapply triple_bind; [apply (triple_modify inv _ _ blank)|intros []; exact Hk].
  intros s [[? ?] _]. auto.
Qed.

Lemma resetForSpace_inUse_inv : triple inv inv resetForSpace_inUse (fun _ s => inv s).
Proof.
  unfold resetForSpace_inUse. eapply triple_bind; [apply modify_view; [apply inv_stable|by view]|]. intros [].
  apply triple_get_state. intros dls. eapply triple_bind; [apply closeOwn_inv; by intros s []|]. intros err0.
  apply triple_get_state. intros fd. eapply triple_bind.
  { instantiate (1 := fun (err : option error) (s : item O) => inv s /\ it_fd s = false).
    apply triple_if; intros Hfd; [|apply triple_done; by intros s [? ->]].
    eapply triple_bind; [eapply triple_pre; [apply (triple_syscall inv inv_stable)|by intros s []]|]. intros cerr.
    eapply triple_bind; [apply (triple_modify inv _ _ (fun s => inv s /\ it_fd s = false))|intros []; by apply triple_done].
    intros s Hs. split; [by apply set_fd_false_inv|done]. }
  intros [err|]; cbn beta iota.
  { eapply triple_bind; [eapply triple_pre; [apply modify_view; [apply inv_stable|by view]|by intros s []]|].
    intros []. by apply triple_done. }
  apply triple_get_state. intros freed.
  eapply triple_pre; [apply remove_all_spec|intros s [[? ?] _]; by apply inv_stripped].
  { intros s Hs Hm. by apply stripped_blank. }
  eapply triple_bind; [apply syscall_blank|]. intros [err|]; cbn beta iota; [apply finishReset_inv, blank_settled|].
  eapply triple_bind; [apply OpenFile_blank|]. intros [err|]; cbn beta iota; [apply finishReset_inv, blank_settled|].
  apply triple_get_state. intros size.
  eapply triple_bind; [eapply triple_pre; [apply Truncate_blank|by intros s []]|]. intros [err|]; cbn beta iota.
  { eapply triple_bind; [apply syscall_blank|]. intros err1.
    eapply triple_bind; [apply (triple_modify inv _ _ blank)|intros []; apply finishReset_inv, blank_settled].
    by intros s []. }
  eapply triple_bind; [eapply triple_pre; [apply saveLocked_settled|intros s Hs; by apply blank_settled]|].
  intros [err|]; cbn beta iota; [by apply finishReset_inv|].
  eapply triple_bind; [apply createDownloaders_settled|]. intros [].
  eapply triple_bind; [apply (modify_settled (set_beingReset false)); by view|]. intros [].
  apply triple_done, settled_inv.
Qed.

Lemma resetForSpace_inv : triple inv inv resetForSpace_locked (fun _ s => inv s).
Proof.
  unfold resetForSpace_locked. apply triple_get_state. intros s0. apply triple_if; intros Hc.
  - cbv zeta. eapply triple_bind; [apply closeOwn_inv; by intros s []|].
    intros [err|]; cbn beta iota; [by apply triple_done|].
    eapply triple_bind; [apply closeFD_closed|]. intros cerr.
    eapply triple_pre; [apply remove_all_spec|intros s [? ?]; by apply inv_stripped].
    + intros s Hs Hm. apply stripped_blank; [by apply (stripped_drop s)|done..].
    + apply triple_done. intros s Hs. by apply settled_inv, blank_settled.
  - apply triple_if; intros H1; [by apply triple_done; intros s []|].
    apply triple_if; intros H2; [by apply triple_done; intros s []|].
    eapply triple_pre; [apply resetForSpace_inUse_inv|by intros s []].
Qed.

(** ** Reading *)
Lemma unlocked_call_inv call P : (forall s, P s -> inv s) ->
  (forall s err s', call s = (err, s') -> rtc (fetch content_of) s s') ->
  triple inv P (unlocked_call call) (fun _ s => inv s).
Proof.
  intros HP Hcall. unfold unlocked_call. eapply triple_bind.
  { apply (with_lock_inv _ _ (fun _ => inv)); [done|]. apply triple_with_state. intros s err s' Hs He.
    eapply fetches_inv; [by eapply Hcall|done]. }
  intros err. eapply triple_bind; [by apply triple_unlock_inv|]. intros []. by apply triple_done.
Qed.

Lemma ensureLocked_inv r : triple inv (fun s => inv s /\ it_fd s = true) (ensureLocked r) (fun _ s => inv s).
Proof.
  unfold ensureLocked. apply triple_get_state. intros s0. cbv zeta. cbn [id].
  eapply triple_bind.
  { instantiate (1 := fun (_ : unit) (s : item O) => inv s). apply triple_if; intros Hc; [|by apply triple_done; intros s [[? _] _]].
    intros s [[Hi Hfd] _]. pose proof (createDownloaders_open s s Hfd Hi eq_refl) as Ht.
    destruct (createDownloadersLocked s) as [s' p]. eapply proc_triple_mono; [|exact Ht]. by intros [] ? []. }
  intros []. apply triple_get_state. intros dls.
  assert (Hret : forall err : option error, triple inv (fun s => inv s /\ dls = it_downloaders s) (locking (with_lock (mret err))) (fun _ s => inv s)).
  { intros err. apply with_lock_inv; [by intros s []|]. by apply triple_done. }
  apply triple_if; intros Hp; destruct dls as [dls|]; try apply Hret.
  - apply unlocked_call_inv; [by intros s []|]. intros s err s' He. by eapply sch_EnsureDownloader_ok.
  - apply unlocked_call_inv; [by intros s []|]. intros s err s' He. by eapply sch_Download_fetches.
Qed.

Lemma ReadAt_eq n off s : exists d err fs, fd_ReadAt n off s = (d, err, set_faults fs s).
Proof.
  unfold fd_ReadAt. destruct (it_fd s).
  - destruct (pop_fault_eq s) as (f & fs & ->). destruct f as [[k err]|]; by do 3 eexists.
  - do 2 eexists. exists (it_faults s). f_equal. by destruct s.
Qed.

Lemma readAtOnce_inv n off : triple inv inv (readAtOnce n off) (fun _ s => inv s).
Proof.
  unfold readAtOnce. apply triple_get_state. intros fd.
  apply triple_if; intros Hfd; [by apply triple_done; intros s []|].
  apply triple_if; intros Hoff; [by apply triple_done; intros s []|].
  eapply triple_bind.
  { eapply triple_pre; [apply ensureLocked_inv|]. intros s [? ->]. split; [done|]. by destruct (it_fd s). }
  intros [err|]; cbn beta iota; [by apply triple_done|].
  eapply triple_bind; [apply modify_view; [apply inv_stable|by view]|]. intros [].
  apply triple_with_state. intros s a s' Hs. destruct (ReadAt_eq n off s) as (d & err & fs & ->). intros [= <- <-].
  eapply inv_view; [|done]. by view.
Qed.

Lemma readAt_loop_inv retries n off : forall res, triple inv inv (readAt_loop retries n off res) (fun _ s => inv s).
Proof.
  induction retries as [|retries IH]; intros res; cbn [readAt_loop]; [by apply triple_done|].
  eapply triple_bind; [apply (Step_inv _ _ _ (fun _ => inv)); [done|apply add_pending_inv]|]. intros [].
  eapply triple_bind; [apply (with_lock_inv _ _ (fun _ => inv)); [done|apply readAtOnce_inv]|]. intros res'.
  eapply triple_bind; [apply (with_lock_inv _ _ (fun _ => inv)); [done|apply add_pending_inv]|]. intros [].
  destruct (snd res') as [err|]; [|by apply triple_done].
  apply triple_if; intros H1; [by apply triple_done|]. apply triple_if; intros H2; [by apply triple_done|].
  eapply triple_bind; [by apply triple_unlock_inv|]. intros []. apply IH.
Qed.
End integrity.

(** An update of a field that the invariant does not look at. *)
Ltac keep_view := unfold same_view, same_objects; cbn; split_and!; first [done | by left | by right | lia].

(** ** Goroutines on an item *)

(** What may run on an item: an attempt of [Cache.Open], a read, a [Close], the
    grace timer, the cleaner's reset, a downloader's write, the clock. *)
Inductive item_op (O : Type) :=
| OpOpen (origin : O) (meta : Metadata)
| OpRead (n : nat) (off : Z)
| OpRelease
| OpGrace
| OpReset
| OpFetch (dls : nat) (off len : Z)
| OpTick (t : Z).
Arguments OpOpen {O}. Arguments OpRead {O}. Arguments OpRelease {O}. Arguments OpGrace {O}.
Arguments OpReset {O}. Arguments OpFetch {O}. Arguments OpTick {O}.

Definition item_goroutine {O} `{Scheduler O} (content_of : O -> list byte) (sha256_hex : string -> string)
    (opt : Options) (key : string) (op : item_op O) : proc (item O) unit :=
  match op with
  | OpOpen origin meta => with_lock (open_attempt sha256_hex key origin meta;; mret tt)
  | OpRead n off => with_lock (readAt opt n off;; mret tt)
  | OpRelease => with_lock (release opt;; mret tt)
  | OpGrace => with_lock closeAfterGrace_locked
  | OpReset => with_lock (resetForSpace_locked;; mret tt)
  | OpFetch dls off len => with_lock (modify (downloader_write content_of dls off len))
  | OpTick t => with_lock (modify (set_clock t))
  end.

(** [newItem] on whatever the files hold; the calls fail as the two scripts say. *)
Definition newItem {O} (data : option (list byte)) (metaFile : option metafile) (faults rmFaults : list fault) (clock : Z) : item O :=
  mkItem false zeroInfo (mkMetadata 0 "" zeroTime "") None None false 0 false false 0 false [] [] 0 data metaFile faults rmFaults clock.

Section theorems.
Context {O : Type} (content_of : O -> list byte) (sha256_hex : string -> string) (opt : Options) (key : string).
Context `{!Scheduler O} `{!SchedulerOK content_of}.

(** The fingerprints of the objects being opened. *)
Definition fingerprints (ops : list (item_op O)) : list string :=
  ops ≫= (fun op => match op with OpOpen _ meta => [metadataFingerprint sha256_hex meta] | _ => [] end).

(** Every opened object is the same content. *)
Definition one_version (content : list byte) (ops : list (item_op O)) : Prop :=
  Forall (fun op => match op with
    | OpOpen origin meta => content_of origin = content /\ MetaSize meta = Z.of_nat (length content)
    | OpFetch _ off _ => 0 <= off <= MaxInt64
    | _ => True end) ops.

(** The files a previous process left: metadata whose fingerprint one of the
    opened objects has describes the data file. *)
Definition consistent_files (content : list byte) (ops : list (item_op O)) (data : option (list byte))
    (metaFile : option metafile) : Prop :=
  match metaFile with
  | Some (Stored i) => wf (InfoRs i) /\
      (InfoFingerprint i <> ""%string -> InfoFingerprint i ∈ fingerprints ops ->
       forall x, covers (InfoRs i) x -> 0 <= x < Z.of_nat (length content) /\
         (match data with Some d => d !! Z.to_nat x | None => None end) = content !! Z.to_nat x)
  | _ => True
  end.

Lemma elem_of_fingerprints ops origin meta : OpOpen origin meta ∈ ops -> metadataFingerprint sha256_hex meta ∈ fingerprints ops.
Proof. intros Hin. unfold fingerprints. apply list_elem_of_bind. exists (OpOpen origin meta). split; [set_solver|done]. Qed.

Lemma newItem_inv content ops data metaFile faults rmFaults clock : Forall (eq None) rmFaults -> consistent_files content ops data metaFile ->
  inv content_of content (fun f => f ∈ fingerprints ops) (newItem data metaFile faults rmFaults clock).
Proof.
  intros Hrm Hc. split; cbn; try done.
  - split; [apply wf_nil|]. by intros x ?%covers_nil.
  - intros _ m Hm. cbn in Hm. subst metaFile. destruct m as [|i]; cbn; [done|]. destruct Hc as [Hwf Hc]. split; [done|].
    destruct (decide (InfoFingerprint i = ""%string)) as [He|He]; [right; split; [by intros []|done]|].
    destruct (decide (InfoFingerprint i ∈ fingerprints ops)) as [Hin|Hin]; [|right; split; [by intros []|done]].
    left. intros x Hx. by apply Hc.
Qed.

Lemma goroutines_keep content ops op : Z.of_nat (length content) <= MaxInt64 -> one_version content ops -> op ∈ ops ->
  keeps (inv content_of content (fun f => f ∈ fingerprints ops)) (item_goroutine content_of sha256_hex opt key op).
Proof.
  intros Hmax Hone Hin. pose proof (proj1 (Forall_forall _ _) Hone op Hin) as Hop.
  set (I := inv content_of content (fun f => f ∈ fingerprints ops)).
  assert (Htt : forall A (m : locked (item O) A), triple I I m (fun _ => I) -> triple I I (m;; mret tt) (fun _ => I)).
  { intros A m Hm. eapply triple_bind; [exact Hm|]. intros a s Hs. done. }
  destruct op as [origin meta|n off| | | |dls off len|t]; cbn [item_goroutine]; apply keeps_with_lock.
  - destruct Hop as [Ho Hs]. apply Htt, open_attempt_inv; try done. by eapply elem_of_fingerprints.
  - apply Htt. by apply readAt_loop_inv.
  - apply Htt. unshelve eapply release_inv; assumption.
  - unshelve eapply closeAfterGrace_inv; assumption.
  - apply Htt. unshelve eapply resetForSpace_inv; assumption.
  - apply triple_modify. intros s Hs. eapply fetch_inv; [done| |exact Hs]. by exists dls, off, len.
  - apply modify_view; [apply inv_stable|]. intros s0. keep_view.
Qed.

Lemma goroutines_inv content ops data metaFile faults rmFaults clock s ps :
  Z.of_nat (length content) <= MaxInt64 -> Forall (eq None) rmFaults -> one_version content ops -> consistent_files content ops data metaFile ->
  rtc par_step (newItem data metaFile faults rmFaults clock, item_goroutine content_of sha256_hex opt key <$> ops) (s, ps) ->
  inv content_of content (fun f => f ∈ fingerprints ops) s.
Proof.
  intros Hmax Hrm Hone Hfiles Hr.
  apply (par_invariant (inv content_of content (fun f => f ∈ fingerprints ops)) _ _ Hr); cbn.
  - by apply newItem_inv.
  - apply Forall_fmap, Forall_forall. intros op Hin. by apply goroutines_keep.
Qed.

(** What a read of a present range finds. *)
Lemma read_present content (s : item O) n off : trusted content s -> it_fd s = true -> 0 <= off -> off + Z.of_nat n <= MaxInt64 ->
  it_faults s = [] -> HasRange (mkRange off (Z.of_nat n)) s = true ->
  fd_ReadAt n off s = (slice off (off + Z.of_nat n) content, None, s) /\
  length (slice off (off + Z.of_nat n) content) = n.
Proof.
  intros [Hwf Ht] Hfd Ho Hmax Hnf Hp. unfold HasRange in Hp. rewrite Present_correct in Hp; [|done|].
  2:{ unfold in_bounds, MinInt64, MaxInt64 in *. cbn. lia. }
  assert (Hall : forall i, (i < n)%nat -> (Z.to_nat off + i < length content)%nat /\
    file_at s (off + Z.of_nat i) = content !! (Z.to_nat off + i)%nat).
  { intros i Hi. destruct (Ht (off + Z.of_nat i)) as [Hb Hat].
    { apply Hp. unfold elem_of, Range_elem. cbn. lia. }
    replace (Z.to_nat (off + Z.of_nat i)) with (Z.to_nat off + i)%nat in Hat by lia. split; [lia|done]. }
  assert (Hlen : length (slice off (off + Z.of_nat n) content) = n).
  { unfold slice. rewrite length_take, length_drop. destruct n as [|n]; [lia|].
    destruct (Hall n ltac:(lia)). lia. }
  split; [|done]. unfold fd_ReadAt, pop_fault. rewrite Hfd, Hnf.
  assert (Heq : slice off (off + Z.of_nat n) (default [] (it_data s)) = slice off (off + Z.of_nat n) content).
  { apply list_eq. intros i. unfold slice. replace (Z.to_nat (off + Z.of_nat n - off)) with n by lia.
    destruct (decide (i < n)%nat) as [Hi|Hi].
    - rewrite !lookup_take_lt, !lookup_drop by done. destruct (Hall i Hi) as [Hb Hat]. rewrite <- Hat.
      unfold file_at. replace (Z.to_nat (off + Z.of_nat i)) with (Z.to_nat off + i)%nat by lia.
      destruct (it_data s); [done|]. unfold file_at in Hat.
      destruct (lookup_lt_is_Some_2 content (Z.to_nat off + i)%nat) as [v Hv]; [lia|].
      destruct (Hall i Hi) as [_ Hx]. unfold file_at in Hx. destruct (it_data s); [done|]. done.
    - rewrite !lookup_take_ge by lia. done. }
  rewrite Heq, Hlen, Nat.ltb_irrefl. done.
Qed.
End theorems.

(** ** A reader on its own *)
Definition run_locked {S A} (m : locked S A) (s : S) : option (A * S) := let '(s', p) := m s in run_proc p s'.

Lemma run_bind {S A B} (m : locked S A) (k : A -> locked S B) s :
  run_locked (m ≫= k) s = match run_locked m s with Some (a, s1) => run_locked (k a) s1 | None => None end.
Proof.
  unfold run_locked, mbind, locked_bind. destruct (m s) as [s1 p]. clear s m. revert s1.
  induction p as [a|enabled section IH] using proc_section_ind; intros s1; cbn; [done|].
  destruct (enabled s1); [|done]. specialize (IH s1). destruct (section s1) as [s2 p2]. apply IH.
Qed.

Section reading.
Context {O : Type} (content_of : O -> list byte) (opt : Options).
Context `{!Scheduler O} `{!SchedulerOK content_of} `{!SchedulerDelivers (O:=O)}.
Context (content : list byte).
Hypothesis content_max : Z.of_nat (length content) <= MaxInt64.
Implicit Types s : item O.

(** Opened on [content], nothing wrong with the system, no reset under way. *)
Record ready s : Prop := {
  rd_inv : inv content_of content (fun _ => True) s;
  rd_fd : it_fd s = true;
  rd_object : is_Some (it_object s);
  rd_reset : it_beingReset s = false;
  rd_size : InfoSize (it_info s) = Z.of_nat (length content);
  rd_data : forall d, it_data s = Some d -> length d = length content;
  rd_faults : it_faults s = [];
}.

Lemma WriteAt_ranges_quiet N frs : forall b off n k s n' k' err s',
  WriteAt_ranges frs b off n k s = Ret (n', k', err, s') -> it_faults s = [] -> 0 <= off ->
  off + Z.of_nat (length b) <= Z.of_nat N -> Z.of_nat N <= MaxInt64 ->
  (forall d, it_data s = Some d -> length d = N) ->
  it_faults s' = [] /\ (forall d, it_data s' = Some d -> length d = N).
Proof.
  induction frs as [|fr frs IH]; intros b off n k s n' k' err s'; cbn [WriteAt_ranges]; [by intros [= <- <- <- <-]|].
  destruct (negb _); [by intros [= <- <- <- <-]|].
  destruct (Z.ltb_spec (Size (FR_R fr)) 0), (Z.ltb_spec (Z.of_nat (length b)) (Size (FR_R fr))); try done. cbn [orb].
  intros Hw Hf Ho Hb HN Hd. destruct (FR_Present fr).
  - eapply IH; [exact Hw|done| | |done|done]; rewrite i64_id by i64_side; [lia|]. rewrite length_drop. lia.
  - destruct (fd_WriteAt (take (Z.to_nat (Size (FR_R fr))) b) off s) as [[nn e] s1] eqn:H1.
    assert (Hs1 : it_faults s1 = [] /\ (forall d, it_data s1 = Some d -> length d = N) /\ (nn <= length b)%nat).
    { unfold fd_WriteAt in H1. destruct (it_fd s); [|by injection H1 as <- <- <-; split_and!; try done; lia].
      unfold pop_fault in H1. rewrite Hf in H1. injection H1 as <- <- <-. cbn.
      split; [done|]. split; [|rewrite length_take; lia]. intros d. destruct (it_data s) as [d0|]; [|done]. cbn. intros [= <-].
      specialize (Hd d0 eq_refl). unfold write_file.
      repeat first [rewrite length_app | rewrite length_take | rewrite length_replicate | rewrite length_drop]. lia. }
    destruct Hs1 as (Hf1 & Hd1 & Hnn).
    destruct (match e with None => _ | _ => _ end) as [e'|]; [by injection Hw as <- <- <- <-|].
    eapply IH; [exact Hw|done| | |done|done]; rewrite i64_id by i64_side; [lia|]. rewrite length_drop. lia.
Qed.

Lemma fetch_ready s s' : fetch content_of s s' -> ready s ->
  ready s' /\ (forall x, covers (item_Rs s) x -> covers (item_Rs s') x).
Proof.
  intros Hf []. pose proof (fetch_inv content_of content (fun _ => True) content_max _ _ Hf rd_inv0) as Hinv'.
  destruct Hf as (dls & off & len & Ho & ->). revert Hinv'. unfold downloader_write.
  destruct (downloader_origin dls s) as [origin|] eqn:Hdo; [|by intros].
  rewrite (downloader_origin_content _ _ _ _ _ (iv_objects _ _ _ _ rd_inv0) Hdo).
  set (b := slice off (off + len) content).
  destruct (WriteAtNoOverwrite b off s) as [[[[n k] err] s']| |] eqn:Hw; [|by intros..]. intros Hinv'.
  destruct (decide (b = [])) as [Hb|Hb].
  { rewrite Hb in Hw. unfold WriteAtNoOverwrite in Hw. cbn [length] in Hw.
    replace (Ranges_FindAll _ _) with (@nil FoundRange) in Hw by done. cbn in Hw. injection Hw as <- <- <- <-. by split. }
  assert (Hlen : off + Z.of_nat (length b) <= Z.of_nat (length content)).
  { destruct (decide (off < Z.of_nat (length content))); [|destruct Hb; subst b; unfold slice; rewrite drop_ge by lia; apply take_nil].
    subst b. unfold slice. rewrite length_take, length_drop. lia. }
  destruct (WriteAtNoOverwrite_spec b off s) as (n1 & k1 & err1 & s1 & Hw1 & Hspec);
    [apply rd_inv0|apply rd_inv0|lia|lia|].
  rewrite Hw in Hw1. injection Hw1 as <- <- <- <-. pose proof (wa_frame _ _ _ _ _ _ _ Hspec) as Hfr.
  unfold WriteAtNoOverwrite in Hw.
  destruct (WriteAt_ranges_quiet (length content) _ _ _ _ _ _ _ _ _ _ Hw rd_faults0 ltac:(lia) Hlen content_max rd_data0) as [Hf' Hd'].
  split; [|intros x Hx; apply (wa_rs _ _ _ _ _ _ _ Hspec); by left].
  split; try done; rewrite Hfr; done.
Qed.

Lemma fetches_ready s s' : rtc (fetch content_of) s s' -> ready s ->
  ready s' /\ (forall x, covers (item_Rs s) x -> covers (item_Rs s') x).
Proof.
  induction 1 as [s|s1 s2 s3 Hf _ IH]; intros Hr; [done|].
  destruct (fetch_ready _ _ Hf Hr) as [Hr2 H12]. destruct (IH Hr2) as [Hr3 H23]. split; [done|auto].
Qed.

(** Fields of the item a ready state does not look at. *)
Lemma ready_view s s' : same_view s s' -> it_object s' = it_object s -> it_beingReset s' = it_beingReset s -> InfoSize (it_info s') = InfoSize (it_info s) ->
  it_faults s' = it_faults s -> ready s -> ready s'.
Proof.
  intros Hv H0 H1 H2 H3 []. split; try congruence; [by eapply inv_view|..].
  - by destruct Hv as (_ & _ & -> & _).
  - by destruct Hv as (_ & -> & _).
Qed.

(** The file of a ready item agrees with the content where the ranges say so. *)
Lemma read_ready s n off : ready s -> 0 <= off ->
  (forall x, off <= x < off + Z.of_nat n -> x < Z.of_nat (length content) -> covers (item_Rs s) x) ->
  fd_ReadAt n off s =
    (let d := slice off (off + Z.of_nat n) content in (d, if (length d <? n)%nat then Some io_EOF else None, s)).
Proof.
  intros [[[Hwf Ht] Hfile _ _ _] Hfd _ _ _ Hdata Hnf] Ho Hcov. unfold fd_ReadAt, pop_fault. rewrite Hfd, Hnf.
  destruct (Hfile Hfd) as [d Hd]. specialize (Hdata d Hd). rewrite Hd. cbn [default].
  cbv zeta. assert (Heq : slice off (off + Z.of_nat n) d = slice off (off + Z.of_nat n) content).
  2:{ unfold id. by rewrite Heq. }
  apply list_eq. intros i. unfold slice. replace (Z.to_nat (off + Z.of_nat n - off)) with n by lia.
  destruct (decide (i < n)%nat) as [Hi|Hi]; [|by rewrite !lookup_take_ge by lia].
  rewrite !lookup_take_lt, !lookup_drop by done.
  destruct (decide (Z.to_nat off + i < length content)%nat) as [Hlt|Hge].
  - destruct (Ht (off + Z.of_nat i)) as [_ Hat]; [apply Hcov; lia|]. unfold file_at in Hat. rewrite Hd in Hat.
    replace (Z.to_nat (off + Z.of_nat i)) with (Z.to_nat off + i)%nat in Hat by lia. done.
  - by rewrite !(proj2 (lookup_ge_None _ _)) by lia.
Qed.

(** What a read of [n] bytes at [off] gives: those bytes of the content, and the
    end of the file when there are fewer. *)
Definition exact_read (n : nat) (off : Z) : list byte * option error :=
  let d := slice off (off + Z.of_nat n) content in (d, if (length d <? n)%nat then Some io_EOF else None).

(** [err] is what the downloaders of an opened item answered to a request for [r]. *)
Definition download_failed (r : Range) (err : error) : Prop :=
  exists dls s s', ready s /\ (sch_Download dls r s = (Some err, s') \/ sch_EnsureDownloader dls r s = (Some err, s')).

(** The part of a read that lies in the object. *)
Definition read_request (n : nat) (off : Z) : Range := mkRange off (Z.min (Z.of_nat n) (Z.of_nat (length content) - off)).

(** A read gives what the content has, or the error of its download and nothing. *)
Definition read_result (n : nat) (off : Z) (res : list byte * option error) : Prop :=
  res = exact_read n off \/ off < Z.of_nat (length content) /\ exists err, res = ([], Some err) /\ download_failed (read_request n off) err.

Lemma unlocked_call_run call s : exists err s1, call s = (err, s1) /\ run_locked (unlocked_call call) s = Some (err, s1).
Proof. unfold unlocked_call. rewrite run_bind. cbn. unfold with_state. destruct (call s) as [err s1]. cbn. by do 2 eexists. Qed.

Lemma createDownloaders_ready s : ready s -> 0 < Z.of_nat (length content) ->
  exists s', createDownloadersLocked s = (s', Done tt) /\ ready s' /\ item_Rs s' = item_Rs s /\ is_Some (it_downloaders s').
Proof.
  intros Hr Hpos. pose proof Hr as []. pose proof (createDownloaders_open content_of content (fun _ => True) s s rd_fd0 rd_inv0 eq_refl) as Ht.
  unfold createDownloadersLocked, modify in *. cbn in Ht. destruct Ht as [Hi' Hfd']. eexists. split; [done|].
  destruct rd_object0 as [ref Href]. rewrite Href in *. destruct (it_downloaders s) as [d|] eqn:Hd.
  - split; [done|]. split; [done|]. rewrite Hd. by eexists.
  - destruct (Z.leb_spec (InfoSize (it_info s)) 0); [lia|]. split; [|split; [done|by eexists]]. split; first [done|by eexists].
Qed.

(** [ensureLocked] asks for what the object has of the range. *)
Lemma clipped_request n off : 0 <= off < Z.of_nat (length content) -> off + Z.of_nat n <= MaxInt64 ->
  let r := mkRange off (Z.of_nat n) in
  (if Z.of_nat (length content) <? Range_End r then mkRange (Pos r) (Z.of_nat (length content) -! Pos r) else r) = read_request n off.
Proof.
  intros Ho Hmax. cbn zeta. unfold Range_End, read_request. cbn [Pos Size]. rewrite !i64_id by i64_side.
  destruct (Z.ltb_spec (Z.of_nat (length content)) (off + Z.of_nat n)); f_equal; lia.
Qed.

Lemma request_ok n off : 0 <= off < Z.of_nat (length content) -> off + Z.of_nat n <= MaxInt64 ->
  in_bounds (read_request n off) /\ Range_Clip (read_request n off) (Z.of_nat (length content)) = read_request n off /\
  forall x, x ∈ read_request n off <-> off <= x < off + Z.of_nat n /\ x < Z.of_nat (length content).
Proof.
  intros Ho Hmax. unfold read_request. split; [unfold in_bounds; cbn; i64_side|]. split.
  - unfold Range_Clip, Range_End. cbn [Pos Size]. rewrite i64_id by i64_side. destruct (Z.leb_spec (off + Z.min (Z.of_nat n) (Z.of_nat (length content) - off)) (Z.of_nat (length content))); [done|lia].
  - intros x. unfold elem_of, Range_elem. cbn. lia.
Qed.

Lemma ensureLocked_run s n off : ready s -> 0 <= off < Z.of_nat (length content) -> off + Z.of_nat n <= MaxInt64 ->
  exists err s', run_locked (ensureLocked (mkRange off (Z.of_nat n))) s = Some (err, s') /\ ready s' /\
    match err with
    | None => forall x, off <= x < off + Z.of_nat n -> x < Z.of_nat (length content) -> covers (item_Rs s') x
    | Some err => download_failed (read_request n off) err
    end.
Proof.
  intros Hr Ho Hmax. unfold ensureLocked. rewrite run_bind. cbn [run_locked get run_proc id].
  cbv zeta. rewrite (rd_size _ Hr), clipped_request by done. destruct (request_ok n off Ho Hmax) as (Hbnd & Hclip & Hmem). set (r := read_request n off) in *.
  assert (Hcovers : forall s', ready s' -> Ranges_Present (item_Rs s') r = true ->
    forall x, off <= x < off + Z.of_nat n -> x < Z.of_nat (length content) -> covers (item_Rs s') x).
  { intros s' Hs' Hp x Hx Hlt. eapply (proj1 (Present_correct _ _ _ Hbnd)); [exact Hp|by apply Hmem].
    Unshelve. apply Hs'. }
  clearbody r. rewrite run_bind.
  assert (Hc : exists s1, run_locked (if negb (Ranges_Present (item_Rs s) r) && bool_decide (it_downloaders s = None)
      then createDownloadersLocked else mret tt) s = Some (tt, s1) /\ ready s1 /\ item_Rs s1 = item_Rs s /\
      (Ranges_Present (item_Rs s) r = false -> is_Some (it_downloaders s1))).
  { destruct (Ranges_Present (item_Rs s) r); cbn [negb andb]; [by exists s|]. case_bool_decide as Hd.
    - destruct (createDownloaders_ready s Hr ltac:(lia)) as (s1 & Hc & ? & ? & ?).
      exists s1. unfold run_locked. by rewrite Hc.
    - exists s. split_and!; try done. intros _. destruct (it_downloaders s); [by eexists|done]. }
  destruct Hc as (s1 & -> & Hr1 & Hrs1 & Hdls). rewrite run_bind. cbn [run_locked get run_proc].
  destruct (Ranges_Present (item_Rs s) r) eqn:Hp.
  - assert (Hcov1 : forall x, off <= x < off + Z.of_nat n -> x < Z.of_nat (length content) -> covers (item_Rs s1) x).
    { apply Hcovers; [done|]. by rewrite Hrs1. }
    destruct (it_downloaders s1) as [dls|]; [|by exists None, s1].
    destruct (unlocked_call_run (sch_EnsureDownloader dls r) s1) as (err & s2 & Hcall & Hrun). rewrite Hrun.
    pose proof (sch_EnsureDownloader_ok content_of _ _ _ _ _ Hcall) as Hfetch.
    destruct (fetches_ready _ _ Hfetch Hr1) as [Hr2 Hmono]. exists err, s2. split; [done|]. split; [done|].
    destruct err; [|auto]. exists dls, s1, s2. auto.
  - destruct (Hdls eq_refl) as [dls ->].
    destruct (unlocked_call_run (sch_Download dls r) s1) as (err & s2 & Hcall & Hrun). rewrite Hrun.
    pose proof (sch_Download_fetches content_of _ _ _ _ _ Hcall) as Hfetch. destruct (fetches_ready _ _ Hfetch Hr1) as [Hr2 _].
    exists err, s2. split; [done|]. split; [done|]. destruct err; [exists dls, s1, s2; auto|].
    apply Hcovers; [done|]. apply sch_Download_ok in Hcall. by rewrite (rd_size _ Hr1), Hclip in Hcall.
Qed.

Lemma readAtOnce_run s n off : ready s -> 0 <= off < Z.of_nat (length content) -> off + Z.of_nat n <= MaxInt64 ->
  exists res s', run_locked (readAtOnce n off) s = Some (res, s') /\ ready s' /\ read_result n off res.
Proof.
  intros Hr Ho Hmax. unfold readAtOnce. rewrite run_bind. cbn [run_locked get run_proc]. rewrite (rd_fd _ Hr). cbn [negb].
  destruct (Z.ltb_spec off 0); [lia|]. rewrite run_bind.
  destruct (ensureLocked_run s n off Hr Ho Hmax) as (err & s1 & -> & Hr1 & Hcov).
  destruct err as [err|]; [do 2 eexists; split; [done|]; split; [done|]; right; split; [lia|by eexists]|].
  rewrite run_bind. cbn [run_locked modify run_proc]. unfold with_state.
  set (s2 := set_info _ s1). assert (Hr2 : ready s2) by (eapply ready_view; [| | | | |exact Hr1]; try done; keep_view).
  assert (Hcov2 : forall x, off <= x < off + Z.of_nat n -> x < Z.of_nat (length content) -> covers (item_Rs s2) x) by by apply Hcov.
  unfold run_locked. rewrite (read_ready s2 n off Hr2 ltac:(lia) Hcov2). cbv zeta. do 2 eexists. split; [done|]. split; [done|]. by left.
Qed.

Lemma readAt_loop_run retries n off : 0 <= off < Z.of_nat (length content) -> off + Z.of_nat n <= MaxInt64 -> forall res s,
  ready s -> (retries = 0%nat -> read_result n off res) ->
  exists res' s', run_locked (readAt_loop retries n off res) s = Some (res', s') /\ ready s' /\ read_result n off res'.
Proof.
  intros Ho Hmax. induction retries as [|retries IH]; intros res s Hr Hres; cbn [readAt_loop].
  { exists res, s. split; [done|]. split; [done|]. by apply Hres. }
  rewrite run_bind. unfold locking at 1, preAccess. cbn [run_locked run_proc]. unfold not_reset. rewrite (rd_reset _ Hr). cbn [negb].
  cbn [add_pending modify run_proc]. set (s1 := set_pendingAccesses _ s).
  assert (Hr1 : ready s1) by (eapply ready_view; [| | | | |exact Hr]; try done; keep_view).
  rewrite run_bind. destruct (readAtOnce_run s1 n off Hr1 Ho Hmax) as (res' & s2 & Hrun & Hr2 & Hres').
  unfold locking at 1, with_lock, run_locked at 1. cbn [run_proc].
  unfold run_locked in Hrun. destruct (readAtOnce n off s1) as [s1' p]. rewrite Hrun.
  rewrite run_bind. unfold locking, postAccess, with_lock. cbn [run_locked run_proc add_pending modify].
  set (s3 := set_pendingAccesses _ s2). assert (Hr3 : ready s3) by (eapply ready_view; [| | | | |exact Hr2]; try done; keep_view).
  assert (Hret : exists res0 s', run_locked (mret res' : locked (item O) (list byte * option error)) s3 = Some (res0, s') /\
    ready s' /\ read_result n off res0) by (exists res', s3; done).
  destruct (snd res') as [err|]; [|exact Hret].
  destruct (errors_Is _ _); [exact Hret|]. destruct (negb _ && _); [exact Hret|].
  rewrite run_bind. cbn [run_locked unlock_until run_proc]. by apply IH.
Qed.

Lemma readAt_run s n off : ready s -> 0 < OptLowLevelRetries opt -> 0 <= off < Z.of_nat (length content) -> off + Z.of_nat n <= MaxInt64 ->
  exists res s', run_locked (readAt opt n off) s = Some (res, s') /\ ready s' /\ read_result n off res.
Proof. intros Hr Hpos Ho Hmax. unfold readAt. apply readAt_loop_run; [done..|]. lia. Qed.

Lemma length_exact_read n off : 0 <= off -> length (fst (exact_read n off)) = Nat.min n (length content - Z.to_nat off).
Proof. intros Ho. unfold exact_read, slice. cbn. rewrite length_take, length_drop. lia. Qed.

(** Nothing asked, or nothing left. *)
Lemma exact_read_nil n off : 0 <= off -> n = 0%nat \/ Z.of_nat (length content) <= off ->
  exact_read n off = ([], if (n =? 0)%nat then None else Some io_EOF).
Proof.
  intros Ho Hn. pose proof (length_exact_read n off Ho) as Hl. unfold exact_read in *. cbn [fst] in Hl.
  destruct (slice off _ content) as [|b d]; [|cbn in Hl; lia]. by destruct n.
Qed.

Lemma Reader_Read_run s n r : ready s -> 0 < OptLowLevelRetries opt -> MetaSize (rd_meta r) = Z.of_nat (length content) ->
  0 <= rd_off r -> rd_off r + Z.of_nat n <= MaxInt64 ->
  exists d err s', run_locked (Reader_Read opt n r) s = Some (d, err, mkReader (rd_meta r) (rd_off r + Z.of_nat (length d)), s') /\
    ready s' /\ read_result n (rd_off r) (d, err).
Proof.
  intros Hr Hpos Hsize Ho Hmax. unfold Reader_Read.
  assert (Hsame : mkReader (rd_meta r) (rd_off r + Z.of_nat 0) = r) by (rewrite Z.add_0_r; by destruct r).
  destruct (Nat.eqb_spec n 0) as [->|Hn].
  { exists [], None, s. cbn [length]. rewrite Hsame. split; [done|]. split; [done|]. left. rewrite exact_read_nil; [done..|]. by left. }
  rewrite Hsize. destruct (Z.leb_spec (Z.of_nat (length content)) (rd_off r)).
  { exists [], (Some io_EOF), s. cbn [length]. rewrite Hsame. split; [done|]. split; [done|]. left.
    rewrite exact_read_nil; [by destruct n|done|by right]. }
  rewrite run_bind. destruct (readAt_run s n (rd_off r) Hr Hpos ltac:(lia) Hmax) as ([d err] & s' & -> & Hr' & Hres).
  assert (Hlen : (length d <= n)%nat).
  { destruct Hres as [Heq|(_ & e & Heq & _)]; [|injection Heq as -> ->; cbn; lia]. pose proof (length_exact_read n _ Ho) as Hl. rewrite <- Heq in Hl. cbn in Hl. lia. }
  exists d, err, s'. cbn [run_locked mret locked_ret run_proc]. rewrite i64_id by i64_side. done.
Qed.
End reading.

(** ** Concrete objects for the witnesses *)

(** An object is its bytes; the downloaders fetch on the spot. *)
#[export] Instance sync_Scheduler : Scheduler (list byte) := {
  sch_EnsureDownloader dls r s := (None, s);
  sch_Download dls r s :=
    if (Pos r <? 0) || (MaxInt64 <? Pos r) then (Some context_Canceled, s)
    else
      let s' := downloader_write id dls (Pos r) (Size r) s in
      (if HasRange (Range_Clip r (InfoSize (it_info s))) s' then None else Some context_Canceled, s');
}.

#[export] Instance sync_SchedulerOK : SchedulerOK (O:=list byte) id.
Proof.
  split.
  - intros dls r s err s' [= <- <-]. apply rtc_refl.
  - intros dls r s err s'. cbn. destruct (_ || _) eqn:Ho; [intros [= _ <-]; apply rtc_refl|].
    apply orb_false_iff in Ho as [Hneg%Z.ltb_ge Hmax%Z.ltb_ge]. intros [= _ <-]. apply rtc_once. by exists dls, (Pos r), (Size r).
Defined.

#[export] Instance sync_SchedulerDelivers : SchedulerDelivers (O:=list byte).
Proof. split. intros dls r s s'. cbn. destruct (_ || _); [done|]. by destruct (HasRange _ _) eqn:Hp; intros [= <-]. Defined.

Definition demo_old : list byte := [x00; x01; x02; x03].
Definition demo_new : list byte := [x10; x11; x12; x13].
Definition meta_old : Metadata := mkMetadata 4 "old" zeroTime "".
Definition meta_new : Metadata := mkMetadata 4 "new" zeroTime "".

Definition demo_goroutine (opt : Options) : item_op (list byte) -> proc (item (list byte)) unit :=
  item_goroutine id id opt "key".
Definition demo_run (opt : Options) (ops : list (item_op (list byte))) (schedule : list nat) : item (list byte) :=
  fst (par_exec schedule (newItem None None [] [] 0, demo_goroutine opt <$> ops)).

(** [Options.HandleCaching = 0]. *)
Definition no_grace : Options :=
  mkOptions (60 * time_Second) time_Hour (-1) (-1) 1 (128 * mebi) (-1) 0 0 (16 * mebi) 0 10.

(** ** Properties *)

(** C2. As long as every object opened under the key is of one content, the
    files left by an earlier process do not claim otherwise under its fingerprints,
    and no [os.Remove] fails ([rmFaults] has no failure): however opens, reads,
    closes, the grace timer, the cleaner's resets and the downloaders' writes
    interleave, and whichever of the other system calls fail, a byte the item
    trusts is on disk and is the origin's byte; so a read of a present range
    returns exactly the origin's bytes.  [item_version_race_mixes_bytes] and
    [item_failed_removal_serves_zeros] say what happens without the first and the
    last condition. *)
Theorem item_trusted_bytes_are_origin_bytes {O} `{!Scheduler O} (content_of : O -> list byte) `{!SchedulerOK content_of}
    sha256_hex opt key content ops data metaFile faults rmFaults clock (s : item O) ps :
  Z.of_nat (length content) <= MaxInt64 -> Forall (eq None) rmFaults -> one_version content_of content ops ->
  consistent_files sha256_hex content ops data metaFile ->
  rtc par_step (newItem data metaFile faults rmFaults clock, item_goroutine content_of sha256_hex opt key <$> ops) (s, ps) ->
  trusted content s /\
  (forall n off, it_fd s = true -> it_faults s = [] -> 0 <= off -> off + Z.of_nat n <= MaxInt64 ->
     HasRange (mkRange off (Z.of_nat n)) s = true ->
     fd_ReadAt n off s = (slice off (off + Z.of_nat n) content, None, s)).
Proof.
  intros Hmax Hrm Hone Hfiles Hr.
  pose proof (goroutines_inv content_of sha256_hex opt key content ops data metaFile faults rmFaults clock s ps Hmax Hrm Hone Hfiles Hr) as [Ht _ _ _ _].
  split; [exact Ht|]. intros n off Hfd Hnf Ho Hb Hp. by destruct (read_present content s n off) as [-> _].
Qed.

Lemma item_trusted_bytes_are_origin_bytes_witness :
  let ops := [OpOpen demo_old meta_old; OpRead 2 1; OpReset; OpRead 3 1; OpRelease; OpFetch 0 0 9] in
  let s := demo_run DefaultOptions ops [0; 0; 0; 1; 1; 1; 1; 1; 2; 2; 2; 3; 3; 3; 3; 3; 3; 5; 4; 4; 4]%nat in
  InfoRs (it_info s) = [mkRange 0 4] /\ trusted demo_old s /\
  fd_ReadAt 2 1 s = ([x01; x02], None, s).
Proof.
  intros ops s. split; [vm_compute; reflexivity|].
  destruct (item_trusted_bytes_are_origin_bytes (O:=list byte) id id DefaultOptions "key" demo_old ops None None [] [] 0 s
    (snd (par_exec [0; 0; 0; 1; 1; 1; 1; 1; 2; 2; 2; 3; 3; 3; 3; 3; 3; 5; 4; 4; 4]%nat
      (newItem None None [] [] 0, demo_goroutine DefaultOptions <$> ops)))) as [Ht Hread].
  - vm_compute. discriminate.
  - by apply Forall_nil.
  - unfold one_version, ops. repeat (apply Forall_cons; split); try apply Forall_nil; try exact Logic.I;
      try (split; vm_compute; reflexivity). unfold MaxInt64. split; lia.
  - exact Logic.I.
  - unfold s, demo_run. rewrite <- surjective_pairing. apply par_exec_steps.
  - split; [exact Ht|].
    assert (Hs : slice 1 (1 + Z.of_nat 2) demo_old = [x01; x02]) by reflexivity. rewrite <- Hs.
    apply (Hread 2%nat 1); try (vm_compute; reflexivity); unfold MaxInt64; lia.
Defined.

(** C15. [WriteAtNoOverwrite] returns (its slice expressions are in range), takes
    a prefix of [n] bytes, all of them unless the write fails; the ranges gain
    exactly those [n] offsets; bytes that were present keep their value and the
    missing ones get the new one; [skipped] counts the offsets that were present;
    nothing else of the item changes. *)
Theorem item_WriteAtNoOverwrite_spec {O} (s : item O) b off :
  wf (item_Rs s) -> file_ok s -> 0 <= off -> off + Z.of_nat (length b) <= MaxInt64 ->
  exists n skipped err s', WriteAtNoOverwrite b off s = Ret (n, skipped, err, s') /\
    wrote_at b off s n skipped err s'.
Proof. apply WriteAtNoOverwrite_spec. Qed.

(** The second of two system calls fails after one byte. *)
Lemma item_WriteAtNoOverwrite_spec_witness :
  let s := set_faults [None; Some (1%nat, syscall_ENOSPC)]
             (set_fd true (set_Rs [mkRange 2 1] (newItem (O:=unit) (Some [x00; x00; xff]) None [] [] 0))) in
  exists n skipped err s', WriteAtNoOverwrite [x01; x02; x03; x04; x05] 1 s = Ret (n, skipped, err, s') /\
    wrote_at [x01; x02; x03; x04; x05] 1 s n skipped err s' /\
    n = 3 /\ skipped = 1 /\ err = Some syscall_ENOSPC /\ it_data s' = Some [x00; x01; xff; x03].
Proof.
  intros s. destruct (item_WriteAtNoOverwrite_spec s [x01; x02; x03; x04; x05] 1) as (n & skipped & err & s' & Hw & Hspec).
  - change (wf [mkRange 2 1]). solve_ranges.
  - intros _. by eexists.
  - lia.
  - cbn. unfold MaxInt64. lia.
  - exists n, skipped, err, s'. split; [exact Hw|]. split; [exact Hspec|].
    vm_compute in Hw. injection Hw as <- <- <- <-. done.
Defined.

(** C3. On an opened item of a working system that nobody closes meanwhile, a
    reader's [Read] is not blocked and returns.  It gives the [n] bytes that the
    object has at the reader's offset, or those up to its end with [io.EOF], and
    nothing else; or no bytes and the error that the downloaders gave for the
    part of the read that is in the object.  The reader moves past the bytes,
    the item stays as opened. *)
Theorem item_Read_exact {O} `{!Scheduler O} (content_of : O -> list byte) `{!SchedulerOK content_of} `{!SchedulerDelivers (O:=O)}
    opt content (s : item O) n r :
  Z.of_nat (length content) <= MaxInt64 -> ready content_of content s -> 0 < OptLowLevelRetries opt ->
  MetaSize (rd_meta r) = Z.of_nat (length content) -> 0 <= rd_off r -> rd_off r + Z.of_nat n <= MaxInt64 ->
  exists d err s', run_locked (Reader_Read opt n r) s = Some (d, err, mkReader (rd_meta r) (rd_off r + Z.of_nat (length d)), s') /\
    ready content_of content s' /\
    (d = slice (rd_off r) (rd_off r + Z.of_nat n) content /\ err = (if (length d <? n)%nat then Some io_EOF else None) \/
     d = [] /\ rd_off r < Z.of_nat (length content) /\
       exists e, err = Some e /\ download_failed content_of content (read_request content n (rd_off r)) e).
Proof.
  intros Hmax Hr Hpos Hsize Ho Hn. destruct (Reader_Read_run content_of opt content Hmax s n r Hr Hpos Hsize Ho Hn) as (d & err & s' & Hrun & Hr' & Hres).
  exists d, err, s'. split; [exact Hrun|]. split; [exact Hr'|].
  destruct Hres as [[= -> ->]|(Hlt & e & [= -> ->] & Hf)]; [by left|right; eauto].
Qed.

(** Three bytes asked at offset 2 of a four-byte object that nobody has read. *)
Lemma item_Read_exact_witness :
  let s := demo_run DefaultOptions [OpOpen demo_old meta_old] [0; 0; 0]%nat in
  exists s', run_locked (Reader_Read DefaultOptions 3 (mkReader meta_old 2)) s =
      Some ([x02; x03], Some io_EOF, mkReader meta_old 4, s') /\
    ready id demo_old s' /\ InfoRs (it_info s') = [mkRange 2 2].
Proof.
  intros s. destruct (item_Read_exact (O:=list byte) id DefaultOptions demo_old s 3 (mkReader meta_old 2))
    as (d & err & s' & Hrun & Hr & _).
  - vm_compute. discriminate.
  - let v := eval vm_compute in (demo_run DefaultOptions [OpOpen demo_old meta_old] [0; 0; 0]%nat) in
      replace s with v by (vm_compute; reflexivity).
    split; try reflexivity; cbn.
    + split; cbn; try done.
      * split; [solve_ranges|]. intros x Hx. by apply Exists_nil in Hx.
      * intros _. by eexists.
      * intros [|ref] o _ [= <-]; reflexivity.
    + by eexists.
    + intros d [= <-]. reflexivity.
  - reflexivity.
  - reflexivity.
  - cbn. lia.
  - vm_compute. discriminate.
  - exists s'. assert (Hd : d = [x02; x03] /\ err = Some io_EOF /\ InfoRs (it_info s') = [mkRange 2 2]).
    { vm_compute in Hrun. injection Hrun; intros; by subst. }
    destruct Hd as (-> & -> & Hrs). by split_and!.
Defined.

(** C36. Two opens that find different versions of the object can mix them.  In
    the grace period an open with the new validators finds the old ranges and
    starts a reset, which releases the item while it stops the downloaders; an
    open that still has the old validators succeeds in between; the first open
    then empties the item and goes on with the new fingerprint, but the
    downloaders of the second open keep running, and what they write (bytes of
    the old version) is trusted as the new one's. *)
Theorem item_version_race_mixes_bytes :
  exists ops schedule,
    let s := demo_run DefaultOptions ops schedule in
    it_opens s = 2 /\ InfoFingerprint (it_info s) = metadataFingerprint id meta_new /\
    HasRange (mkRange 0 4) s = true /\ it_data s = Some demo_old /\ ~ trusted demo_new s.
Proof.
  exists [OpOpen demo_old meta_old; OpFetch 0 0 2; OpRelease; OpOpen demo_new meta_new; OpOpen demo_old meta_old; OpFetch 1 0 4].
  exists [0; 0; 0; 1; 2; 2; 2; 2; 3; 3; 4; 4; 3; 5]%nat.
  intros s. do 4 (split; [vm_compute; reflexivity|]).
  assert (Hrs : item_Rs s = [mkRange 0 4]) by (vm_compute; reflexivity).
  assert (Hd : file_at s 0 = Some x00) by (vm_compute; reflexivity).
  intros [_ Ht]. destruct (Ht 0) as [_ Hat].
  - rewrite Hrs. apply Exists_cons_hd. unfold elem_of, Range_elem. cbn. lia.
  - rewrite Hd in Hat. discriminate Hat.
Qed.

(** Resets of an open item do not look at the errors of [os.Remove]: when the
    metadata cannot be removed and the new ones cannot be saved either, the old ones
    stay beside the new, empty data file, and the next process trusts its zeros. *)
Definition old_files : itemInfo := mkInfo "key" 0 4 [mkRange 0 4] (metadataFingerprint id meta_old).
Definition input_output_error : fault := Some (0%nat, Errorf "input/output error").

Lemma item_failed_removal_serves_zeros :
  consistent_files id demo_old [OpOpen demo_old meta_old; OpReset] (Some demo_old) (Some (Stored old_files)) /\
  let s := fst (par_exec [0; 0; 0; 1; 1; 1; 1]%nat
      (newItem (Some demo_old) (Some (Stored old_files)) (replicate 19 None ++ [input_output_error]) [None; input_output_error] 0,
       demo_goroutine DefaultOptions <$> [OpOpen demo_old meta_old; OpReset])) in
  let s' := fst (par_exec [0; 0; 0]%nat
      (newItem (it_data s) (it_metaFile s) [] [] 0, demo_goroutine DefaultOptions <$> [OpOpen demo_old meta_old])) in
  HasRange (mkRange 0 4) s' = true /\ fd_ReadAt 4 0 s' = ([x00; x00; x00; x00], None, s').
Proof.
  split; [|split; vm_compute; reflexivity]. split; [cbn; solve_ranges|]. intros _ _ x Hx. apply Exists_cons in Hx as [Hx|[]%Exists_nil].
  split; [exact Hx|done].
Qed.

(** A reader's [Close] and the cleaner can leave the key unusable: while the
    closing of the last reader has released the item to stop its downloaders, the
    cleaner takes the item for unused, removes its files and clears its info; the
    close then saves that empty info, and every later open finds metadata of
    another key and fails. *)
Lemma item_close_race_loses_key :
  exists ops schedule,
    let s := demo_run no_grace ops schedule in
    it_metaFile s = Some (Stored zeroInfo) /\
    (forall origin meta faults clock, exists s',
       openLocked id "key" origin meta (newItem (O:=list byte) (it_data s) (it_metaFile s) (None :: faults) [] clock)
       = (s', Done (Some (Wrap "cache: load" (Errorf "metadata key does not match"))))).
Proof.
  exists [OpOpen demo_old meta_old; OpRelease; OpReset], [0; 0; 0; 1; 1; 1; 2; 1]%nat.
  cbn zeta. split; [vm_compute; reflexivity|].
  replace (it_metaFile _) with (Some (Stored zeroInfo)) by (vm_compute; reflexivity).
  replace (it_data _) with (@None (list byte)) by (vm_compute; reflexivity).
  intros origin meta faults clock. by eexists.
Qed.
