(* ===== verification/Scheduler.v ===== *)
(** * The downloaders of an item (internal/engine/scheduler/scheduler.go)

    [Downloaders] turns requests for ranges into running downloaders: a request
    is served by a downloader that is about to reach it, or by a new one;
    downloaders write what they fetch into the item, and every write looks
    whether a waiting request is now complete.

    A method that takes [dls.mu] is one critical section, given up where the code
    gives it up ([Download] waiting for its channel, [Close] waiting for a
    downloader); the locks of a downloader and of the item are taken inside it
    and released at once.  The goroutine of a downloader is a sequence of such
    sections: take the next block from the input, wait until it is wanted, write
    it, wake the waiters.  The slice [dls.dls] is a view of a backing array, since
    [Close] goes through it while others compact it in place. *)
From stdpp Require Import base numbers list relations strings.
From Stdlib Require Import ZArith Lia Init.Byte.
From S2P Require Import Prelude Ranges Interleave.

Local Open Scope Z_scope.
Local Open Scope go_scope.
Local Open Scope list_scope.

(** ** The interfaces *)

(** The [Item] interface of the package. *)
Class CacheItem (I : Type) := {
  ci_FindMissing : Range -> I -> Range;
  ci_HasRange : Range -> I -> bool;
  ci_WriteAtNoOverwrite : list byte -> Z -> I -> Z * Z * option error * I;
}.

(** The bytes [b] are those of [content] from [off] on. *)
Definition of_content (content : list byte) (off : Z) (b : list byte) : Prop := b = slice off (off + Z.of_nat (length b)) content.

(** What it promises: [ci_covers] are the offsets it holds, of an object of
    [ci_size] bytes, and what it relies on: it is only given bytes of [content]. *)
Class CacheItemOK (I : Type) `{CacheItem I} (content : list byte) := {
  ci_ok : I -> Prop;
  ci_size : I -> Z;
  ci_covers : I -> Z -> Prop;
  ci_size_ok : forall it, ci_ok it -> 0 <= ci_size it <= MaxInt64;
  ci_FindMissing_ok : forall r it, ci_ok it -> in_bounds r -> 0 <= Size r -> Pos r <= ci_size it ->
    let out := ci_FindMissing r it in
    Pos r <= Pos out <= ci_size it /\ 0 <= Size out /\
    Pos out + Size out = Z.min (Pos r + Size r) (ci_size it) /\
    (forall x, Pos r <= x < Pos out -> ci_covers it x) /\
    (0 < Size out -> ~ ci_covers it (Pos out));
  ci_HasRange_ok : forall r it, ci_ok it -> in_bounds r ->
    ci_HasRange r it = true <-> (forall x, x ∈ r -> ci_covers it x);
  ci_Write_ok : forall b off it n skipped err it', ci_ok it -> 0 <= off -> off + Z.of_nat (length b) <= ci_size it -> of_content content off b ->
    ci_WriteAtNoOverwrite b off it = (n, skipped, err, it') ->
    ci_ok it' /\ ci_size it' = ci_size it /\ 0 <= skipped <= n /\ n <= Z.of_nat (length b) /\
    (err = None -> n = Z.of_nat (length b)) /\
    (forall x, ci_covers it' x <-> ci_covers it x \/ off <= x < off + n);
}.

(** What a downloader reads: the block that [WriteTo] is handing to [Write] and
    those that follow, how the input ends ([None]: [io.EOF]), and for a buffered
    input how many blocks still come after [StopBuffering]. *)
Record downloadInput := mkInput {
  in_async : bool;
  in_cur : list byte;
  in_blocks : list (list byte);
  in_err : option error;
  in_left : nat;
}.

(** The source object behind the chunked reader; [or_Seek] is [in0.Seek(offset, 0)]
    followed by all that the input will deliver. *)
Class Origin (W : Type) := {
  or_Size : W -> Z;
  or_Seek : Z -> W -> (error + list (list byte) * option error * nat) * W;
}.

(** It delivers bytes of [content] from the offset on, and none past its end. *)
Class OriginOK (W : Type) `{Origin W} (content : list byte) := {
  or_Seek_ok : forall offset w res w', or_Seek offset w = (res, w') -> or_Size w' = or_Size w /\
    match res with
    | inr (blocks, _, _) => 0 <= offset -> offset <= or_Size w ->
        offset + Z.of_nat (length (concat blocks)) <= or_Size w /\ of_content content offset (concat blocks)
    | inl _ => True
    end;
}.

(** ** State *)
Record SchedConfig := mkSchedConfig { SC_ChunkSize : Z; SC_ChunkSizeLimit : Z; SC_ChunkStreams : Z; SC_ReadAhead : Z }.

Definition maxSkipBytes : Z := 1024 * 1024.
Definition maxErrorCount : Z := 10.
Definition minWindow : Z := 1024 * 1024.
Definition streambuf_BufferSize : Z := 1024 * 1024.

(** A request that waits on the channel [wt_errChan]. *)
Record waiter := mkWaiter { wt_r : Range; wt_errChan : nat }.

(** [dl_quit] and [stop] are one flag, since [_stop] closes the channel when it
    sets it; [dl_waiting] is set while [Write] waits to be kicked, [dl_done] when
    the goroutine has ended. *)
Record downloader := mkDownloader {
  dl_start : Z;
  dl_offset : Z;
  dl_maxOffset : Z;
  dl_in : option downloadInput;
  dl_skipped : Z;
  dl_closed : bool;
  dl_stop : bool;
  dl_waiting : bool;
  dl_done : bool;
}.

(** A slice of pointers: the elements [0 .. sl_len - 1] of a backing array. *)
Record slice_header := mkSlice { sl_array : nat; sl_len : nat }.

(** [sd_heap] are the downloaders ever made; [sd_chans] the channels of the
    [Download] calls, each with the range asked for and what was sent. *)
Record sched (I W : Type) := mkSched {
  sd_item : I;
  sd_src : W;
  sd_heap : list downloader;
  sd_arrays : list (list nat);
  sd_dls : slice_header;
  sd_waiters : list waiter;
  sd_chans : list (Range * option (option error));
  sd_errorCount : Z;
  sd_lastErr : option error;
  sd_cancelled : bool;
  sd_ticker : bool;
}.
Arguments mkSched {I W}.
Arguments sd_item {I W}. Arguments sd_src {I W}. Arguments sd_heap {I W}. Arguments sd_arrays {I W}.
Arguments sd_dls {I W}. Arguments sd_waiters {I W}. Arguments sd_chans {I W}. Arguments sd_errorCount {I W}.
Arguments sd_lastErr {I W}. Arguments sd_cancelled {I W}. Arguments sd_ticker {I W}.

Section updates.
Context {I W : Type}.
Implicit Types s : sched I W.

Definition sd_set_item (it : I) s : sched I W := mkSched it (sd_src s) (sd_heap s) (sd_arrays s) (sd_dls s) (sd_waiters s) (sd_chans s)
  (sd_errorCount s) (sd_lastErr s) (sd_cancelled s) (sd_ticker s).
Definition sd_set_src (w : W) s : sched I W := mkSched (sd_item s) w (sd_heap s) (sd_arrays s) (sd_dls s) (sd_waiters s) (sd_chans s)
  (sd_errorCount s) (sd_lastErr s) (sd_cancelled s) (sd_ticker s).
Definition sd_set_heap h s : sched I W := mkSched (sd_item s) (sd_src s) h (sd_arrays s) (sd_dls s) (sd_waiters s) (sd_chans s)
  (sd_errorCount s) (sd_lastErr s) (sd_cancelled s) (sd_ticker s).
Definition sd_set_dls arrays d s : sched I W := mkSched (sd_item s) (sd_src s) (sd_heap s) arrays d (sd_waiters s) (sd_chans s)
  (sd_errorCount s) (sd_lastErr s) (sd_cancelled s) (sd_ticker s).
Definition sd_set_waiters ws chans s : sched I W := mkSched (sd_item s) (sd_src s) (sd_heap s) (sd_arrays s) (sd_dls s) ws chans
  (sd_errorCount s) (sd_lastErr s) (sd_cancelled s) (sd_ticker s).
Definition sd_set_errors n e s : sched I W := mkSched (sd_item s) (sd_src s) (sd_heap s) (sd_arrays s) (sd_dls s) (sd_waiters s) (sd_chans s)
  n e (sd_cancelled s) (sd_ticker s).
Definition sd_set_cancelled c t s : sched I W := mkSched (sd_item s) (sd_src s) (sd_heap s) (sd_arrays s) (sd_dls s) (sd_waiters s) (sd_chans s)
  (sd_errorCount s) (sd_lastErr s) c t.

(** A change of one downloader. *)
Definition on_dl (i : nat) (f : downloader -> downloader) s := sd_set_heap (alter f i (sd_heap s)) s.
Definition dl_get {A} (i : nat) (f : downloader -> A) (dflt : A) s : A := match sd_heap s !! i with Some d => f d | None => dflt end.
End updates.

Definition dl_set_in inp (d : downloader) := mkDownloader (dl_start d) (dl_offset d) (dl_maxOffset d) inp (dl_skipped d)
  (dl_closed d) (dl_stop d) (dl_waiting d) (dl_done d).
Definition dl_set_max m (d : downloader) := mkDownloader (dl_start d) (dl_offset d) m (dl_in d) (dl_skipped d)
  (dl_closed d) (dl_stop d) (dl_waiting d) (dl_done d).
Definition dl_set_pos o k (d : downloader) := mkDownloader (dl_start d) o (dl_maxOffset d) (dl_in d) k
  (dl_closed d) (dl_stop d) (dl_waiting d) (dl_done d).
Definition dl_set_flags c st w dn (d : downloader) := mkDownloader (dl_start d) (dl_offset d) (dl_maxOffset d) (dl_in d) (dl_skipped d)
  c st w dn.

(** ** Operations *)
Section operations.
Context {I W : Type} `{CacheItem I} `{Origin W}.

(** [cfg] is [opt], [window] is [objectio.GetConfig(dls.ctx).BufferSize];
    [append_cap] is the capacity the run-time system gives to a slice that
    [append] has to grow (the language leaves it open). *)
Context (cfg : SchedConfig) (BufferSize : Z) (append_cap : nat -> nat).
Implicit Types s : sched I W.

(** [newDownloadInput]: how many buffers, hence whether the input is buffered. *)
Definition newDownloadInput_buffers (size bufferSize : Z) : Z :=
  if (bufferSize <=? size) || (size =? -1) then Z.quot bufferSize streambuf_BufferSize else Z.quot size streambuf_BufferSize.

Definition HasBuffer (inp : downloadInput) : bool := in_async inp.

Definition newDownloadInput (raw : list (list byte) * option error * nat) (size bufferSize : Z) : downloadInput :=
  let '(blocks, err, rest) := raw in
  mkInput (0 <? newDownloadInput_buffers size bufferSize) [] blocks err rest.

(** [New]: no downloader, no waiter, the ticker runs. *)
Definition Downloaders_New (it : I) (src : W) : sched I W :=
  mkSched it src [] [[]] (mkSlice 0 0) [] [] 0 None false true.

Definition _countErrors (n : Z) (err : option error) s : sched I W :=
  match err with
  | None =>
      if n =? 0 then s
      else if sd_errorCount s =? 0 then s else sd_set_errors 0 None s
  | Some _ => sd_set_errors (sd_errorCount s +! 1) err s
  end.

Definition getRange (i : nat) s : Z * Z := (dl_get i dl_start 0 s, dl_get i dl_offset 0 s).
Definition closed (i : nat) s : bool := dl_get i dl_closed true s.

(** The kick is what lets [Write] see the new [maxOffset]. *)
Definition setRange (r : Range) (i : nat) s : sched I W :=
  let maxOffset := Range_End r in
  on_dl i (fun d => if dl_maxOffset d <? maxOffset then dl_set_max maxOffset d else d) s.

Definition _stop (i : nat) s : sched I W :=
  on_dl i (fun d => if dl_stop d then d else dl_set_flags (dl_closed d) true (dl_waiting d) (dl_done d) d) s.

(** [close]: whatever closing the input says, the result is nil. *)
Definition dl_close (i : nat) s : option error * sched I W :=
  (None, on_dl i (fun d => dl_set_in None (dl_set_flags true (dl_stop d) (dl_waiting d) (dl_done d) d)) s).

(** The elements of a slice, and [append]: in place while the capacity allows,
    else in a new array. *)
Definition slice_elems (sl : slice_header) s : list nat := take (sl_len sl) (default [] (sd_arrays s !! sl_array sl)).

Definition append_dls (i : nat) s : sched I W :=
  let sl := sd_dls s in
  let a := default [] (sd_arrays s !! sl_array sl) in
  if (sl_len sl <? length a)%nat
  then sd_set_dls (<[sl_array sl := <[sl_len sl := i]> a]> (sd_arrays s)) (mkSlice (sl_array sl) (S (sl_len sl))) s
  else
    let a' := take (sl_len sl) a ++ i :: replicate (append_cap (sl_len sl) - S (sl_len sl)) 0%nat in
    sd_set_dls (sd_arrays s ++ [a']) (mkSlice (length (sd_arrays s)) (S (sl_len sl))) s.

(** [_removeClosed] compacts the array under the slice. *)
Definition _removeClosed s : sched I W :=
  let sl := sd_dls s in
  let live := filter (fun i => closed i s = false) (slice_elems sl s) in
  sd_set_dls (alter (fun a => live ++ drop (length live) a) (sl_array sl) (sd_arrays s)) (mkSlice (sl_array sl) (length live)) s.

(** [downloader.open], on a downloader that is not yet in the heap. *)
Definition dl_open (offset : Z) (d : downloader) s : option error * downloader * sched I W :=
  let size := or_Size (sd_src s) in
  if size <? 0 then (Some (Errorf "can't open unknown sized file"), d, s)
  else
    let '(res, w) := or_Seek offset (sd_src s) in
    let s := sd_set_src w s in
    match res with
    | inl err => (Some (Wrap "cache reader: failed to open source" err), d, s)
    | inr raw =>
        let d := dl_set_in (Some (newDownloadInput raw size BufferSize)) d in
        (None, dl_set_pos offset (dl_skipped d) d, s)
    end.

Definition _newDownloader (r : Range) s : option error * sched I W :=
  let d := mkDownloader (Pos r) (Pos r) (Range_End r) None 0 false false false false in
  match dl_open (dl_offset d) d s with
  | (Some err, _, s) => (Some (Wrap "failed to open downloader" err), s)
  | (None, d, s) =>
      let i := length (sd_heap s) in
      (None, append_dls i (sd_set_heap (sd_heap s ++ [d]) s))
  end.

(** The first downloader that is about to reach [r]. *)
Fixpoint find_downloader (ids : list nat) (r : Range) (window : Z) s : option nat :=
  match ids with
  | [] => None
  | i :: ids =>
      let '(start, offset) := getRange i s in
      if (start <=? Pos r) && (Pos r <? offset +! window) then Some i else find_downloader ids r window s
  end.

(** What [_ensureDownloader] looks for: whether a new downloader may be started,
    and the range. *)
Definition ensure_target (r : Range) (it : I) : bool * Range :=
  let window := BufferSize in
  let r := if 0 <? SC_ReadAhead cfg then mkRange (Pos r) (Size r +! SC_ReadAhead cfg) else r in
  let r := ci_FindMissing r it in
  if Range_IsEmpty r then
    let rWindow := mkRange (Pos r) (Size r +! window) in
    let rWindowClipped := ci_FindMissing rWindow it in
    if Range_IsEmpty rWindowClipped then (false, mkRange (Range_End rWindow) 0)
    else (true, mkRange (Pos rWindowClipped) 0)
  else (true, r).

Definition _ensureDownloader (r : Range) s : option error * sched I W :=
  let '(startNew, r) := ensure_target r (sd_item s) in
  let window := if BufferSize <? minWindow then minWindow else BufferSize in
  let s := _removeClosed s in
  match find_downloader (slice_elems (sd_dls s) s) r window s with
  | Some i => (None, setRange r i s)
  | None =>
      if negb startNew then (None, s)
      else if Size r =? 0 then (None, s)
      else
        match _newDownloader r s with
        | (Some err, s) => (Some (Wrap "failed to start downloader" err), _countErrors 0 (Some err) s)
        | (None, s) => (None, s)
        end
  end.

(** [waiter.errChan <- v]. *)
Definition send (w : waiter) (v : option error) (chans : list (Range * option (option error))) :=
  alter (fun c => (fst c, Some v)) (wt_errChan w) chans.

Definition _closeWaiters (err : option error) s : sched I W :=
  sd_set_waiters [] (foldl (fun chans w => send w err chans) (sd_chans s) (sd_waiters s)) s.

Definition waiter_present (w : waiter) s : bool := ci_HasRange (Range_Clip (wt_r w) (or_Size (sd_src s))) (sd_item s).

Definition _dispatchWaiters s : sched I W :=
  sd_set_waiters (filter (fun w => waiter_present w s = false) (sd_waiters s))
    (foldl (fun chans w => if waiter_present w s then send w None chans else chans) (sd_chans s) (sd_waiters s)) s.

Fixpoint ensure_all (ws : list waiter) s : sched I W :=
  match ws with
  | [] => s
  | w :: ws => ensure_all ws (snd (_ensureDownloader (wt_r w) s))
  end.

Definition kickWaiters s : option error * sched I W :=
  let s := _dispatchWaiters s in
  if (length (sd_waiters s) =? 0)%nat then (None, s)
  else
    let s := ensure_all (sd_waiters s) s in
    if IsNoSpace (sd_lastErr s) then (sd_lastErr s, _closeWaiters (sd_lastErr s) s)
    else if maxErrorCount <? sd_errorCount s then (sd_lastErr s, _closeWaiters (sd_lastErr s) s)
    else (None, s).

(** *** The goroutine of a downloader *)

(** What the input gives next: a block ([None]), or its end.  What [Write] has
    left of a block a buffered input hands over again; [io.Copy] does not.  After
    [StopBuffering] a buffered input runs dry and reports that it was abandoned. *)
Definition next_block (i : nat) s : option (option error) * sched I W :=
  match dl_get i dl_in None s with
  | None => (Some (Some ErrorStreamAbandoned), s)
  | Some inp =>
      let stopped := dl_get i dl_stop false s && HasBuffer inp in
      if (0 <? length (in_cur inp))%nat then (if HasBuffer inp then None else Some (Some io_ErrShortWrite), s)
      else if stopped && (in_left inp =? 0)%nat then (Some (Some ErrorStreamAbandoned), s)
      else
        match in_blocks inp with
        | [] => (Some (in_err inp), s)
        | p :: blocks =>
            (None, on_dl i (dl_set_in (Some (mkInput (in_async inp) p blocks (in_err inp)
                      (if stopped then pred (in_left inp) else in_left inp)))) s)
        end
  end.

Definition set_waiting (i : nat) (b : bool) s : sched I W :=
  on_dl i (fun d => dl_set_flags (dl_closed d) (dl_stop d) b (dl_done d) d) s.

(** [Write] goes on when the block is wanted or the downloader stops. *)
Definition write_ready (i : nat) s : bool :=
  let '(_, offset) := getRange i s in (offset <? dl_get i dl_maxOffset 0 s) || dl_get i dl_stop false s.

(** The rest of [Write], after the loop and up to [dl.mu.Unlock]: [p] is the block
    that [WriteTo] is handing over, which then counts [n] bytes of it as taken. *)
Definition took (n skipped : Z) (d : downloader) : downloader :=
  dl_set_in ((fun inp => mkInput (in_async inp) (drop (Z.to_nat n) (in_cur inp)) (in_blocks inp) (in_err inp) (in_left inp)) <$> dl_in d)
    (dl_set_pos (dl_offset d +! n) (if skipped =? n then dl_skipped d +! skipped else 0) d).

Definition write_section (i : nat) s : (Z * option error) * sched I W :=
  let p := match dl_get i dl_in None s with Some inp => in_cur inp | None => [] end in
  let '(n, skipped, err, it) := ci_WriteAtNoOverwrite p (dl_get i dl_offset 0 s) (sd_item s) in
  let s := on_dl i (took n skipped) (sd_set_item it s) in
  let s := if negb (dl_get i dl_stop false s) && (maxSkipBytes <? dl_get i dl_skipped 0 s) then _stop i s else s in
  let hasBuffer := match dl_get i dl_in None s with Some inp => HasBuffer inp | None => false end in
  ((n, if dl_get i dl_stop false s && negb hasBuffer then Some ErrorStreamAbandoned else err), s).

(** [Write]; the deferred [kickWaiters] runs after the locks are released. *)
Definition Write (i : nat) : locked (sched I W) (Z * option error) :=
  modify (set_waiting i true);;
  unlock_until (write_ready i);;
  modify (set_waiting i false);;
  '(n, err) ← with_state (write_section i);
  if n <=? 0 then mret (n, err)
  else
    unlock_until (fun _ => true);;
    waitErr ← with_state kickWaiters;
    unlock_until (fun _ => true);;
    mret (n, match err with None => waitErr | Some _ => err end).

(** [in.WriteTo(dl)]: a block at a time; the fuel is the number of blocks. *)
Fixpoint WriteTo (i : nat) (fuel : nat) (n : Z) : locked (sched I W) (Z * option error) :=
  match fuel with
  | O => mret (n, None)
  | S fuel =>
      unlock_until (fun _ => true);;
      ended ← with_state (next_block i);
      match ended with
      | Some err => mret (n, err)
      | None =>
          '(k, err) ← Write i;
          match err with
          | Some err => mret (n +! k, Some err)
          | None => WriteTo i fuel (n +! k)
          end
      end
  end.

(** What [download] makes of the result of [WriteTo]. *)
Definition download_result : Z * option error -> locked (sched I W) (Z * option error) := fun '(n, err) =>
  match err with
  | Some e => if errors_Is e ErrorStreamAbandoned then mret (n, None)
              else mret (n, Some (Wrap "cache reader: failed to write cached bytes" e))
  | None => mret (n, None)
  end.

Definition download (i : nat) : locked (sched I W) (Z * option error) :=
  fuel ← get (fun s => match dl_get i dl_in None s with Some inp => S (length (in_blocks inp)) | None => O end);
  res ← WriteTo i fuel 0;
  download_result res.

(** The goroutine that [_newDownloader] starts for downloader [i]. *)
Definition downloader_exit (i : nat) : Z * option error -> locked (sched I W) unit := fun '(n, err) =>
  unlock_until (fun _ => true);;
  with_state (dl_close i);;
  unlock_until (fun _ => true);;
  modify (_countErrors n err);;
  unlock_until (fun _ => true);;
  with_state kickWaiters;;
  modify (on_dl i (fun d => dl_set_flags (dl_closed d) (dl_stop d) (dl_waiting d) true d)).

Definition downloader_goroutine (i : nat) : proc (sched I W) unit :=
  Step (fun s => bool_decide (i < length (sd_heap s))%nat) (res ← download i; downloader_exit i res).

(** *** The methods of [Downloaders] *)

Definition EnsureDownloader (r : Range) : locked (sched I W) (option error) := with_state (_ensureDownloader r).

Definition make_chan (r : Range) s : nat * sched I W :=
  (length (sd_chans s), sd_set_waiters (sd_waiters s) (sd_chans s ++ [(r, None)]) s).
Definition received (c : nat) s : option (option error) :=
  match sd_chans s !! c with Some (_, v) => v | None => None end.

Definition Download (r : Range) : locked (sched I W) (option error) :=
  errChan ← with_state (make_chan r);
  err ← with_state (_ensureDownloader r);
  match err with
  | Some err => mret (Some err)
  | None =>
      modify (fun s => sd_set_waiters (sd_waiters s ++ [mkWaiter r errChan]) (sd_chans s) s);;
      unlock_until (fun s => bool_decide (is_Some (received errChan s)));;
      get (fun s => default None (received errChan s))
  end.

(** [stopAndClose], without [dls.mu]. *)
Definition stopAndClose (i : nat) : locked (sched I W) (option error) :=
  unlock_until (fun _ => true);;
  modify (_stop i);;
  unlock_until (fun s => dl_get i dl_done true s);;
  with_state (dl_close i).

(** The loop of [Close] reads the array as it is when it comes to an element. *)
Fixpoint Close_loop (array j n : nat) (err : option error) : locked (sched I W) (option error) :=
  match n with
  | O => mret err
  | S n =>
      i ← get (fun s => default 0%nat (default [] (sd_arrays s !! array) !! j));
      closeErr ← stopAndClose i;
      unlock_until (fun _ => true);;
      Close_loop array (S j) n (match err with None => closeErr | Some _ => err end)
  end.

(** [dls.wg.Wait()] waits for the ticker's goroutine, which sees the cancelled
    context. *)
Definition Close (inErr : option error) : locked (sched I W) (option error) :=
  modify (fun s => sd_set_cancelled true (sd_ticker s) s);;
  unlock_until (fun _ => true);;
  modify _removeClosed;;
  sl ← get sd_dls;
  err ← Close_loop (sl_array sl) 0 (sl_len sl) None;
  unlock_until sd_cancelled;;
  modify (fun s => sd_set_cancelled (sd_cancelled s) false s);;
  unlock_until (fun s => negb (sd_ticker s));;
  modify (fun s => sd_set_dls (sd_arrays s ++ [[]]) (mkSlice (length (sd_arrays s)) 0) s);;
  modify _dispatchWaiters;;
  modify (_closeWaiters inErr);;
  mret err.

(** *** The goroutines around them *)

(** A caller of a method, a firing of the ticker, a firing of the idle timer of
    a downloader that waits in [Write]. *)
Inductive sched_op :=
| OpDownload (r : Range)
| OpEnsure (r : Range)
| OpClose (err : option error)
| OpTicker
| OpIdle (i : nat).

Definition sched_goroutine (op : sched_op) : proc (sched I W) unit :=
  match op with
  | OpDownload r => with_lock (Download r;; mret tt)
  | OpEnsure r => with_lock (EnsureDownloader r;; mret tt)
  | OpClose err => with_lock (Close err;; mret tt)
  | OpTicker => Step sd_ticker (with_state kickWaiters;; mret tt)
  | OpIdle i => Step (fun s => dl_get i dl_waiting false s && negb (write_ready i s)) (modify (_stop i))
  end.

(** The callers [ops], and the goroutines of the first [n] downloaders. *)
Definition sched_goroutines (n : nat) (ops : list sched_op) : list (proc (sched I W) unit) :=
  (sched_goroutine <$> ops) ++ (downloader_goroutine <$> seq 0 n).
End operations.

(** ** Invariant *)
Lemma of_content_nil content off : of_content content off [].
Proof. unfold of_content. cbn. by rewrite slice_nil by lia. Qed.

Lemma of_content_app content off b1 b2 : 0 <= off -> of_content content off (b1 ++ b2) ->
  of_content content off b1 /\ of_content content (off + Z.of_nat (length b1)) b2.
Proof.
  unfold of_content. intros Ho Hb. symmetry in Hb. apply slice_app_inv in Hb as [Hb2 Hb1]; [|done].
  rewrite length_app in Hb2. split; [done|]. rewrite Hb2 at 1. f_equal. lia.
Qed.

Lemma of_content_drop content off (n : nat) b : 0 <= off -> (n <= length b)%nat -> of_content content off b -> of_content content (off + Z.of_nat n) (drop n b).
Proof.
  intros Ho Hn. rewrite <- (take_drop n b) at 1. intros Hb. apply of_content_app in Hb as [_ Hb]; [|done].
  by rewrite length_take, Nat.min_l in Hb.
Qed.

Section proofs.
Context {I W : Type} {content : list byte} `{CacheItemOK I content} `{!Origin W} `{!OriginOK W content}.
Context (cfg : SchedConfig) (BufferSize : Z) (append_cap : nat -> nat) (size : Z).
Hypothesis append_cap_ok : forall n, (n < append_cap n)%nat.
Hypothesis window_ok : 0 <= BufferSize /\ 0 <= SC_ReadAhead cfg /\ 0 <= size /\
  size + SC_ReadAhead cfg + Z.max BufferSize minWindow <= MaxInt64.
Implicit Types s : sched I W.

(** A request inside the object. *)
Definition req_ok (r : Range) : Prop := 0 <= Pos r /\ 0 < Size r /\ Pos r + Size r <= size.

Definition present (it : I) (r : Range) : Prop := forall x, x ∈ r -> ci_covers it x.

(** What a downloader still has to write. *)
Definition remaining (d : downloader) : Z :=
  match dl_in d with Some inp => Z.of_nat (length (in_cur inp) + length (concat (in_blocks inp))) | None => 0 end.

(** ... as one piece. *)
Definition to_write (d : downloader) : list byte := match dl_in d with Some inp => in_cur inp ++ concat (in_blocks inp) | None => [] end.

Lemma length_to_write d : Z.of_nat (length (to_write d)) = remaining d.
Proof. unfold to_write, remaining. destruct (dl_in d); [by rewrite length_app|done]. Qed.

(** The block being handed over comes first; of what is left, the first [n] bytes go. *)
Lemma to_write_took n skipped d : 0 <= n <= Z.of_nat (length (match dl_in d with Some inp => in_cur inp | None => [] end)) ->
  to_write (took n skipped d) = drop (Z.to_nat n) (to_write d).
Proof.
  unfold to_write, took. cbn. destruct (dl_in d) as [inp|]; cbn; [|by rewrite drop_nil].
  intros Hn. by rewrite drop_app_le by lia.
Qed.

(** A downloader leaves nothing missing behind it, stays inside the object, and
    what it is going to write is the content from its offset on. *)
Record dl_ok (it : I) (d : downloader) : Prop := {
  do_pos : 0 <= dl_start d <= dl_offset d;
  do_room : dl_offset d + remaining d <= size;
  do_behind : forall x, dl_start d <= x < dl_offset d -> ci_covers it x;
  do_content : of_content content (dl_offset d) (to_write d);
}.

Lemma write_content it d : dl_ok it d -> of_content content (dl_offset d) (match dl_in d with Some inp => in_cur inp | None => [] end).
Proof.
  intros [? _ _ Hc]. unfold to_write in Hc. destruct (dl_in d); [|apply of_content_nil]. by apply of_content_app in Hc as [Hc _]; [|lia].
Qed.

Definition slice_ok s : Prop := exists a, sd_arrays s !! sl_array (sd_dls s) = Some a /\ (sl_len (sd_dls s) <= length a)%nat /\
  Forall (fun i => (i < length (sd_heap s))%nat) (take (sl_len (sd_dls s)) a).

Definition pending_ok (chans : list (Range * option (option error))) (w : waiter) : Prop :=
  req_ok (wt_r w) /\ chans !! wt_errChan w = Some (wt_r w, None).

Record sched_inv s : Prop := {
  si_item : ci_ok (sd_item s);
  si_size : ci_size (sd_item s) = size;
  si_src : or_Size (sd_src s) = size;
  si_heap : Forall (dl_ok (sd_item s)) (sd_heap s);
  si_dls : slice_ok s;
  si_waiters : Forall (pending_ok (sd_chans s)) (sd_waiters s);
  si_nodup : NoDup (wt_errChan <$> sd_waiters s);
  si_answers : forall c r, sd_chans s !! c = Some (r, Some None) -> req_ok r -> present (sd_item s) r \/ sd_cancelled s = true;
  si_errors : sd_errorCount s <> 0 -> is_Some (sd_lastErr s);
  si_ticker : sd_ticker s = false -> sd_cancelled s = true;
}.

Lemma remaining_nonneg d : 0 <= remaining d.
Proof. unfold remaining. destruct (dl_in d); lia. Qed.

Lemma dl_ok_same it d d' : dl_start d' = dl_start d -> dl_offset d' = dl_offset d -> dl_in d' = dl_in d \/ dl_in d' = None ->
  dl_ok it d -> dl_ok it d'.
Proof.
  intros H1' H2' H3 []. assert (remaining d' <= remaining d).
  { pose proof (remaining_nonneg d). unfold remaining in *. by destruct H3 as [->| ->]. }
  split; rewrite ?H1', ?H2'; [done|lia|done|]. unfold to_write in *. destruct H3 as [->| ->]; [done|]. apply of_content_nil.
Qed.

Lemma inv_on_dl i f s : (forall d, sd_heap s !! i = Some d -> dl_ok (sd_item s) d -> dl_ok (sd_item s) (f d)) ->
  sched_inv s -> sched_inv (on_dl i f s).
Proof.
  intros Hf []. split; try done; cbn; [by apply Forall_alter|].
  destruct si_dls0 as (a & Ha & Hl & Hall). exists a. cbn. by rewrite length_alter.
Qed.

Lemma inv_stop i s : sched_inv s -> sched_inv (_stop i s).
Proof. apply inv_on_dl. intros d _. destruct (dl_stop d); [by intros|]. apply dl_ok_same; auto. Qed.
Lemma inv_setRange r i s : sched_inv s -> sched_inv (setRange r i s).
Proof. apply inv_on_dl. intros d _. destruct (_ <? _); [|by intros]. apply dl_ok_same; auto. Qed.
Lemma inv_set_waiting i b s : sched_inv s -> sched_inv (set_waiting i b s).
Proof. apply inv_on_dl. intros d _. apply dl_ok_same; auto. Qed.
Lemma inv_dl_close i s : sched_inv s -> sched_inv (snd (dl_close i s)).
Proof. apply inv_on_dl. intros d _. apply dl_ok_same; auto. Qed.
Lemma inv_countErrors n err s : sched_inv s -> sched_inv (_countErrors n err s).
Proof. intros []. unfold _countErrors. destruct err; [by split|]. destruct (_ =? _); [by split|]. destruct (_ =? _); by split. Qed.
Lemma inv_cancelled b s : sched_inv s -> sched_inv (sd_set_cancelled true b s).
Proof. intros []. split; try done. intros. by right. Qed.
Lemma inv_ticker b s : sched_inv s -> sd_cancelled s = true -> sched_inv (sd_set_cancelled (sd_cancelled s) b s).
Proof. intros []. by split. Qed.

Lemma slice_elems_ok s : sched_inv s -> Forall (fun i => (i < length (sd_heap s))%nat) (slice_elems (sd_dls s) s).
Proof. intros [_ _ _ _ (a & Ha & _ & Hall)]. unfold slice_elems. by rewrite Ha. Qed.

Lemma inv_removeClosed s : sched_inv s -> sched_inv (_removeClosed s).
Proof.
  intros Hs. pose proof (slice_elems_ok _ Hs) as Hel. destruct Hs. split; try done.
  destruct si_dls0 as (a & Ha & Hl & Hall). unfold slice_ok, _removeClosed. cbn.
  set (live := filter _ _). exists (live ++ drop (length live) a). rewrite list_lookup_alter_eq, Ha. split; [done|].
  rewrite length_app, take_app_length. split; [lia|]. apply Forall_forall. intros x Hx. apply list_elem_of_filter in Hx as [_ Hx]. by eapply Forall_forall in Hel.
Qed.

Lemma removeClosed_elems s : sched_inv s ->
  slice_elems (sd_dls (_removeClosed s)) (_removeClosed s) = filter (fun i => closed i s = false) (slice_elems (sd_dls s) s).
Proof.
  intros [_ _ _ _ (a & Ha & _)]. unfold slice_elems at 1, _removeClosed. cbn.
  rewrite list_lookup_alter_eq, Ha. cbn. apply take_app_length.
Qed.

Lemma append_dls_elems i s : (exists a, sd_arrays s !! sl_array (sd_dls s) = Some a /\ (sl_len (sd_dls s) <= length a)%nat) ->
  slice_elems (sd_dls (append_dls append_cap i s)) (append_dls append_cap i s) = slice_elems (sd_dls s) s ++ [i].
Proof.
  intros (a & Ha & Hl). unfold append_dls, slice_elems. rewrite Ha. cbn [default id].
  destruct (Nat.ltb_spec (sl_len (sd_dls s)) (length a)) as [Hlt|Hge]; cbn [sd_set_dls sd_dls sd_arrays sl_array sl_len].
  - rewrite list_lookup_insert_eq by (by eapply lookup_lt_Some). cbn.
    by rewrite (take_S_r _ _ i), take_insert_ge by (done || by apply list_lookup_insert_eq).
  - rewrite lookup_app_r, Nat.sub_diag by done. cbn [lookup list_lookup default id].
    rewrite (cons_middle i (take _ a)), (app_assoc (take _ a)). rewrite take_app_le; [|rewrite length_app, length_take; cbn; lia].
    apply take_ge. rewrite length_app, length_take. cbn. lia.
Qed.

Lemma inv_append_dls d s : dl_ok (sd_item s) d -> sched_inv s ->
  sched_inv (append_dls append_cap (length (sd_heap s)) (sd_set_heap (sd_heap s ++ [d]) s)).
Proof.
  intros Hd []. destruct si_dls0 as (a & Ha & Hl & Hall). unfold append_dls. cbn [sd_set_heap sd_dls sd_arrays]. rewrite Ha. cbn [default id].
  assert (Hall' : Forall (fun i => (i < length (sd_heap s ++ [d]))%nat) (take (sl_len (sd_dls s)) a ++ [length (sd_heap s)])).
  { apply Forall_app. rewrite length_app. cbn. split; [|constructor; [lia|done]]. eapply Forall_impl; [exact Hall|]. cbn. lia. }
  assert (Hheap : Forall (dl_ok (sd_item s)) (sd_heap s ++ [d])) by (apply Forall_app; auto).
  destruct (Nat.ltb_spec (sl_len (sd_dls s)) (length a)) as [Hlt|Hge]; split; try done.
  - exists (<[sl_len (sd_dls s):=length (sd_heap s)]> a). cbn. rewrite list_lookup_insert by (by eapply lookup_lt_Some).
    rewrite length_insert. split; [by rewrite decide_True by (split; [done|by eapply lookup_lt_Some])|]. split; [lia|].
    by rewrite (take_S_r _ _ (length (sd_heap s))), take_insert_ge by (done || by apply list_lookup_insert_eq).
  - eexists. cbn. rewrite lookup_app_r, Nat.sub_diag by done. split; [done|].
    pose proof (append_cap_ok (sl_len (sd_dls s))). rewrite length_app, length_take. cbn. rewrite length_replicate. split; [lia|].
    rewrite (cons_middle (length (sd_heap s)) (take _ a)), (app_assoc (take _ a)). rewrite take_app_le; [|rewrite length_app, length_take; cbn; lia].
    rewrite (take_ge (_ ++ _)); [done|]. rewrite length_app, length_take. cbn. lia.
Qed.

(** *** Answering *)
Lemma send_lookup w v chans c : send w v chans !! c = if decide (wt_errChan w = c) then (fun p => (fst p, Some v)) <$> chans !! c else chans !! c.
Proof. unfold send. rewrite list_lookup_alter. by destruct (decide _) as [->|]. Qed.

(** Waiters on distinct channels, some of them answered with [v]. *)
Lemma send_all (p : waiter -> bool) v ws : forall chans, NoDup (wt_errChan <$> ws) -> Forall (pending_ok chans) ws ->
  let chans' := foldl (fun chans w => if p w then send w v chans else chans) chans ws in
  (forall w, w ∈ ws -> chans' !! wt_errChan w = Some (wt_r w, if p w then Some v else None)) /\
  (forall c, c ∉ wt_errChan <$> ws -> chans' !! c = chans !! c).
Proof.
  induction ws as [|w ws IH]; intros chans Hnd Hall; cbn.
  { split; [|done]. intros w Hw. by apply elem_of_nil in Hw. }
  cbn in Hnd. apply NoDup_cons in Hnd as [Hni Hnd]. apply Forall_cons in Hall as [[Hr Hw] Hall].
  set (chans1 := if p w then send w v chans else chans).
  assert (H1c : forall c, c <> wt_errChan w -> chans1 !! c = chans !! c).
  { intros c Hc. subst chans1. destruct (p w); [|done]. rewrite send_lookup. by rewrite decide_False by congruence. }
  assert (H1w : chans1 !! wt_errChan w = Some (wt_r w, if p w then Some v else None)).
  { subst chans1. destruct (p w); [|done]. by rewrite send_lookup, decide_True, Hw by done. }
  assert (Hall1 : Forall (pending_ok chans1) ws).
  { apply Forall_forall. intros u Hu. eapply Forall_forall in Hall as [? Hu']; [|exact Hu]. split; [done|].
    rewrite H1c; [done|]. intros He. apply Hni. rewrite <- He. by apply list_elem_of_fmap_2. }
  destruct (IH chans1 Hnd Hall1) as [IHin IHout]. split.
  - intros u [->|Hu]%elem_of_cons; [|by apply IHin]. by rewrite IHout.
  - intros c Hc. apply not_elem_of_cons in Hc as [Hne Hc]. rewrite IHout by done. by apply H1c.
Qed.

Lemma present_mono it it' r : (forall x, ci_covers it x -> ci_covers it' x) -> present it r -> present it' r.
Proof. intros Hm Hp x Hx. by apply Hm, Hp. Qed.

Lemma req_in_bounds r : req_ok r -> in_bounds r.
Proof. unfold req_ok, in_bounds, MinInt64. unfold minWindow in *. lia. Qed.

Lemma waiter_present_spec w s : sched_inv s -> req_ok (wt_r w) -> waiter_present w s = true <-> present (sd_item s) (wt_r w).
Proof.
  intros [] Hr. unfold waiter_present. rewrite si_src0.
  assert (Hc : Range_Clip (wt_r w) size = wt_r w).
  { pose proof (req_in_bounds _ Hr). unfold Range_Clip. rewrite Range_End_eq by done. by rewrite (proj2 (Z.leb_le _ _)) by apply Hr. }
  rewrite Hc. by apply ci_HasRange_ok; [|apply req_in_bounds].
Qed.

Lemma waiter_unique s u w : sched_inv s -> u ∈ sd_waiters s -> w ∈ sd_waiters s -> wt_errChan u = wt_errChan w -> u = w.
Proof.
  intros [] Hu Hw He. apply list_elem_of_lookup in Hu as [i Hi], Hw as [j Hj].
  assert (i = j) as ->; [|congruence]. apply (NoDup_lookup (wt_errChan <$> sd_waiters s) i j (wt_errChan u)); [done|..];
    rewrite list_lookup_fmap, ?Hi, ?Hj; cbn; congruence.
Qed.

(** Answering some of the waiters with a value that is true of them. *)
Lemma inv_answer (p : waiter -> bool) v s : sched_inv s ->
  (forall w, w ∈ sd_waiters s -> p w = true -> v = None -> present (sd_item s) (wt_r w) \/ sd_cancelled s = true) ->
  let chans' := foldl (fun chans w => if p w then send w v chans else chans) (sd_chans s) (sd_waiters s) in
  sched_inv (sd_set_waiters (filter (fun w => p w = false) (sd_waiters s)) chans' s) /\
  (forall w, w ∈ sd_waiters s -> p w = true -> chans' !! wt_errChan w = Some (wt_r w, Some v)) /\
  (forall c, c ∉ wt_errChan <$> sd_waiters s -> chans' !! c = sd_chans s !! c).
Proof.
  intros Hs Hv chans'. destruct (send_all p v (sd_waiters s) (sd_chans s)) as [Hin Hout]; [apply Hs..|]. fold chans' in Hin, Hout.
  assert (Hlen : forall c r a, chans' !! c = Some (r, Some a) -> sd_chans s !! c = Some (r, Some a) \/
    exists w, w ∈ sd_waiters s /\ p w = true /\ r = wt_r w /\ a = v).
  { intros c r a Hc. destruct (decide (c ∈ wt_errChan <$> sd_waiters s)) as [Hel|Hel]; [|left; by rewrite <- Hout].
    apply list_elem_of_fmap in Hel as (w & -> & Hw). rewrite Hin in Hc by done. destruct (p w) eqn:Hp; [|done].
    injection Hc as <- <-. right. by exists w. }
  split_and!; [|intros w Hw Hp; rewrite Hin by done; by rewrite Hp|exact Hout].
  destruct Hs. split; try done; cbn.
  - apply Forall_forall. intros w Hw. apply list_elem_of_filter in Hw as [Hp Hw]. eapply Forall_forall in si_waiters0 as [? _]; [|exact Hw].
    split; [done|]. rewrite Hin by done. by rewrite Hp.
  - eapply sublist_NoDup; [exact si_nodup0|]. apply fmap_sublist, sublist_filter.
  - intros c r Hc Hr. apply Hlen in Hc as [Hc|(w & Hw & Hp & -> & Hvn)]; [by eapply si_answers0|by apply Hv].
Qed.

Lemma inv_dispatch s : sched_inv s ->
  sched_inv (_dispatchWaiters s) /\
  (forall w, w ∈ sd_waiters s -> present (sd_item s) (wt_r w) ->
     sd_chans (_dispatchWaiters s) !! wt_errChan w = Some (wt_r w, Some None)) /\
  (forall w, w ∈ sd_waiters (_dispatchWaiters s) <-> w ∈ sd_waiters s /\ ~ present (sd_item s) (wt_r w)).
Proof.
  intros Hs. assert (Hpr : forall w, w ∈ sd_waiters s -> waiter_present w s = true <-> present (sd_item s) (wt_r w)).
  { intros w Hw. apply waiter_present_spec; [done|]. destruct Hs. by eapply Forall_forall in si_waiters0 as [? _]. }
  destruct (inv_answer (fun w => waiter_present w s) None s Hs) as (Hi & Hin & _).
  { intros w Hw Hp _. left. by apply Hpr. }
  split_and!; [exact Hi| |].
  - intros w Hw Hp. apply Hin; [done|]. by apply Hpr.
  - intros w. cbn. rewrite list_elem_of_filter. split.
    + intros [Hp Hw]. split; [done|]. rewrite <- Hpr by done. by rewrite Hp.
    + intros [Hw Hp]. split; [|done]. apply not_true_is_false. by rewrite Hpr.
Qed.

Lemma inv_closeWaiters err s : sched_inv s -> (err = None -> sd_cancelled s = true) ->
  sched_inv (_closeWaiters err s) /\
  (forall w, w ∈ sd_waiters s -> sd_chans (_closeWaiters err s) !! wt_errChan w = Some (wt_r w, Some err)).
Proof.
  intros Hs Hc. destruct (inv_answer (fun _ => true) err s Hs) as (Hi & Hin & _); [intros; right; auto|].
  assert (Hf : filter (fun w : waiter => true = false) (sd_waiters s) = []).
  { apply elem_of_nil_inv. intros w Hw. by apply list_elem_of_filter in Hw as [? _]. }
  rewrite Hf in Hi. split; [exact Hi|]. intros w Hw. by apply Hin.
Qed.

(** *** Starting downloaders *)

Lemma ensure_target_spec r it : ci_ok it -> ci_size it = size -> req_ok r ->
  let '(startNew, t) := ensure_target cfg BufferSize r it in
  0 <= Pos t /\ 0 <= Size t /\ Range_End t = Pos t + Size t /\
  (Size t <> 0 -> Pos t + Size t <= size /\ ~ ci_covers it (Pos t)) /\
  (~ present it r -> startNew = true /\ Pos r <= Pos t < Pos r + Size r /\ 0 < Size t /\
    Pos r + Size r <= Pos t + Size t /\ (forall x, Pos r <= x < Pos t -> ci_covers it x)).
Proof.
  intros Hit Hsz Hr. unfold ensure_target. set (r1 := if 0 <? SC_ReadAhead cfg then _ else r).
  unfold req_ok, minWindow in *.
  assert (Hr1 : Pos r1 = Pos r /\ Size r <= Size r1 /\ in_bounds r1).
  { subst r1. unfold in_bounds. zcase; cbn; rewrite ?i64_id by i64_side; i64_side. }
  destruct Hr1 as (Hp1 & Hs1 & Hb1). clearbody r1.
  pose proof (ci_FindMissing_ok r1 it Hit Hb1 ltac:(lia) ltac:(lia)) as Hm. rewrite Hsz in Hm. cbn zeta in Hm.
  set (out := ci_FindMissing r1 it) in *. clearbody out. destruct Hm as (Hpo & Hso & Heo & Hcov & Hgap).
  destruct (Range_IsEmpty out) eqn:He; unfold Range_IsEmpty in He.
  - apply Z.leb_le in He. assert (Hpres : present it r).
    { intros x Hx. apply Hcov. unfold elem_of, Range_elem in Hx. lia. }
    set (rw := mkRange _ _). assert (Hrw : Pos rw = Pos out /\ Size rw = BufferSize).
    { subst rw. cbn. rewrite i64_id by i64_side. lia. }
    destruct Hrw as [Hprw Hsrw]. assert (Hbrw : in_bounds rw) by (unfold in_bounds; rewrite Hprw, Hsrw; i64_side).
    pose proof (ci_FindMissing_ok rw it Hit Hbrw ltac:(lia) ltac:(lia)) as Hm2. rewrite Hsz in Hm2. cbn zeta in Hm2.
    set (c := ci_FindMissing rw it) in *. clearbody c. destruct Hm2 as (Hpc & _).
    destruct (Range_IsEmpty c); unfold Range_End; cbn; rewrite ?Hprw, ?Hsrw; i64_norm;
      (split_and!; [lia|lia|lia|lia|done]).
  - apply Z.leb_gt in He. unfold Range_End. rewrite i64_id by i64_side. split_and!; try lia; [intros _; split; [lia|apply Hgap; lia]|].
    intros Hnp. assert (Hlt : Pos out < Pos r + Size r).
    { destruct (decide (Pos out < Pos r + Size r)); [done|]. destruct Hnp. intros x Hx. apply Hcov.
      unfold elem_of, Range_elem in Hx. lia. }
    split_and!; try done; try lia. intros x Hx. apply Hcov. lia.
Qed.

Lemma find_downloader_spec ids r window s i : find_downloader ids r window s = Some i ->
  i ∈ ids /\ dl_get i dl_start 0 s <= Pos r < dl_get i dl_offset 0 s +! window.
Proof.
  induction ids as [|j ids IH]; cbn; [done|]. unfold getRange.
  destruct ((_ <=? _) && _) eqn:Hc; [|intros Hf; destruct (IH Hf); split; [by right|done]].
  intros [= <-]. apply andb_prop in Hc as [?%Z.leb_le ?%Z.ltb_lt]. split; [left|done].
Qed.

Lemma inv_newDownloader r s : sched_inv s -> 0 <= Pos r -> 0 <= Size r -> Pos r + Size r <= size ->
  let '(err, s') := _newDownloader BufferSize append_cap r s in
  sched_inv s' /\ sd_item s' = sd_item s /\ sd_waiters s' = sd_waiters s /\ sd_chans s' = sd_chans s /\
  sd_cancelled s' = sd_cancelled s /\ sd_errorCount s' = sd_errorCount s /\ sd_lastErr s' = sd_lastErr s /\
  (forall i, i ∈ slice_elems (sd_dls s) s -> i ∈ slice_elems (sd_dls s') s') /\ sd_heap s `prefix_of` sd_heap s' /\
  (err = None -> exists d, sd_heap s' = sd_heap s ++ [d] /\ length (sd_heap s) ∈ slice_elems (sd_dls s') s' /\
    dl_start d = Pos r /\ dl_offset d = Pos r /\ dl_maxOffset d = Range_End r /\ dl_closed d = false /\ dl_stop d = false).
Proof.
  intros Hs Hp Hsz Hend. unfold _newDownloader, dl_open. cbn [dl_offset].
  rewrite (si_src _ Hs), (proj2 (Z.ltb_ge size 0)) by lia.
  destruct (or_Seek (Pos r) (sd_src s)) as [res w] eqn:Hseek. pose proof (or_Seek_ok _ _ _ _ Hseek) as [Hw Hres].
  assert (Hs1 : sched_inv (sd_set_src w s)).
  { destruct Hs. split; try done. cbn. congruence. }
  destruct res as [err|[[blocks err] n]]; [by split_and!|].
  set (d := dl_set_pos _ _ _). assert (Hd : dl_ok (sd_item s) d).
  { subst d. rewrite (si_src _ Hs) in Hres. destruct (Hres Hp ltac:(lia)) as [Hroom Hcont].
    split; cbn; [lia| |lia|exact Hcont]. unfold remaining. cbn. lia. }
  split_and!; try (by unfold append_dls; destruct (_ <? _)%nat).
  - by apply (inv_append_dls d (sd_set_src w s)).
  - intros i Hi. rewrite append_dls_elems; [apply elem_of_app; by left|]. destruct Hs as [_ _ _ _ (a & Ha & Hl & _)]. by exists a.
  - unfold append_dls. destruct (_ <? _)%nat; by exists [d].
  - intros _. exists d. split; [by unfold append_dls; destruct (_ <? _)%nat|]. split; [|done].
    rewrite append_dls_elems; [apply elem_of_app; right; by left|]. destruct Hs as [_ _ _ _ (a & Ha & Hl & _)]. by exists a.
Qed.

(** A downloader still runs that has yet to come to the first missing byte of
    the range, which is near, and may go past the end of the range. *)
Definition window : Z := Z.max BufferSize minWindow.
Definition served s (r : Range) : Prop := exists i d p,
  i ∈ slice_elems (sd_dls s) s /\ sd_heap s !! i = Some d /\ dl_closed d = false /\
  Pos r <= p < Pos r + Size r /\ ~ ci_covers (sd_item s) p /\ (forall x, Pos r <= x < p -> ci_covers (sd_item s) x) /\
  dl_start d <= p /\ dl_offset d <= p < dl_offset d + window /\ Pos r + Size r <= dl_maxOffset d.

(** What the others of the running downloaders notice. *)
Definition keeps_dls s s' : Prop := forall i d, i ∈ slice_elems (sd_dls s) s -> sd_heap s !! i = Some d -> dl_closed d = false ->
  i ∈ slice_elems (sd_dls s') s' /\ exists d', sd_heap s' !! i = Some d' /\ dl_closed d' = false /\
    dl_start d' = dl_start d /\ dl_offset d' = dl_offset d /\ dl_maxOffset d <= dl_maxOffset d'.

Lemma served_keeps s s' r : sd_item s' = sd_item s -> keeps_dls s s' -> served s r -> served s' r.
Proof.
  intros Hit Hk (i & d & p & Hi & Hd & Hc & Hp & Hn & Hcov & Hst & Ho & Hm).
  destruct (Hk i d Hi Hd Hc) as (Hi' & d' & Hd' & Hc' & Hst' & Ho' & Hm'). exists i, d', p. rewrite Hit, Hst', Ho'.
  split_and!; try done; lia.
Qed.

Lemma keeps_trans s1 s2 s3 : keeps_dls s1 s2 -> keeps_dls s2 s3 -> keeps_dls s1 s3.
Proof.
  intros H12 H23 i d Hi Hd Hc. destruct (H12 i d Hi Hd Hc) as (Hi2 & d2 & Hd2 & Hc2 & Hst2 & Ho2 & Hm2).
  destruct (H23 i d2 Hi2 Hd2 Hc2) as (Hi3 & d3 & Hd3 & Hc3 & Hst3 & Ho3 & Hm3). split; [done|]. exists d3. split_and!; try done; lia.
Qed.

Lemma removeClosed_keeps s : sched_inv s -> keeps_dls s (_removeClosed s).
Proof.
  intros Hs i d Hi Hd Hc. rewrite removeClosed_elems by done. split; [|exists d; by split_and!].
  apply list_elem_of_filter. split; [|done]. unfold closed, dl_get. by rewrite Hd.
Qed.

Record same_client s s' : Prop := {
  sc_item : sd_item s' = sd_item s;
  sc_waiters : sd_waiters s' = sd_waiters s;
  sc_chans : sd_chans s' = sd_chans s;
  sc_cancelled : sd_cancelled s' = sd_cancelled s;
}.

Lemma ensure_spec r s : sched_inv s -> req_ok r ->
  let '(err, s') := _ensureDownloader cfg BufferSize append_cap r s in
  sched_inv s' /\ same_client s s' /\ keeps_dls s s' /\
  match err with
  | None => sd_errorCount s' = sd_errorCount s /\ sd_lastErr s' = sd_lastErr s /\ (~ present (sd_item s) r -> served s' r)
  | Some _ => sd_errorCount s' = sd_errorCount s +! 1 /\ is_Some (sd_lastErr s')
  end.
Proof.
  intros Hs Hr. unfold _ensureDownloader. pose proof (ensure_target_spec r (sd_item s) (si_item _ Hs) (si_size _ Hs) Hr) as Ht.
  destruct (ensure_target cfg BufferSize r (sd_item s)) as [startNew t]. destruct Ht as (Hp & Hsz & Hend & Hin & Hmiss).
  assert (Hwin : (if BufferSize <? minWindow then minWindow else BufferSize) = window).
  { unfold window. destruct (Z.ltb_spec BufferSize minWindow); lia. }
  rewrite Hwin. pose proof (inv_removeClosed _ Hs) as Hs1. pose proof (removeClosed_keeps _ Hs) as Hk1.
  pose proof (removeClosed_elems _ Hs) as Hel.
  assert (Hc1 : same_client s (_removeClosed s)) by done. set (s1 := _removeClosed s) in *.
  destruct (find_downloader _ t window s1) as [i|] eqn:Hf.
  - apply find_downloader_spec in Hf as [Hi Hpos]. split; [by apply inv_setRange|]. split; [done|].
    assert (Hd : exists d, sd_heap s !! i = Some d /\ dl_closed d = false).
    { rewrite Hel in Hi. apply list_elem_of_filter in Hi as [Hcl Hi]. unfold closed, dl_get in Hcl. destruct (sd_heap s !! i) as [d|]; [|done]. by exists d. }
    destruct Hd as (d & Hd & Hcl). unfold dl_get in Hpos. cbn in Hpos. rewrite Hd in Hpos.
    pose proof (Forall_lookup_1 _ _ _ _ (si_heap _ Hs) Hd) as [Hdp Hdr Hdb]. pose proof (remaining_nonneg d) as Hrem.
    assert (Hw : dl_offset d +! window = dl_offset d + window) by (apply i64_id; unfold window in *; i64_side).
    rewrite Hw in Hpos.
    assert (Hset : keeps_dls s1 (setRange t i s1) /\ exists d', sd_heap (setRange t i s1) !! i = Some d' /\
      dl_closed d' = false /\ dl_start d' = dl_start d /\ dl_offset d' = dl_offset d /\ Range_End t <= dl_maxOffset d').
    { unfold setRange, on_dl. cbn. split.
      - intros j dj Hj Hdj Hcj. split; [done|]. cbn. rewrite list_lookup_alter. cbn in Hdj. destruct (decide (i = j)) as [->|]; [|exists dj; split_and!; [done..|lia]].
        rewrite Hdj. cbn. eexists. split; [done|]. destruct (Z.ltb_spec (dl_maxOffset dj) (Range_End t)); cbn; split_and!; (done || lia).
      - rewrite list_lookup_alter_eq, Hd. cbn. eexists. split; [done|].
        destruct (Z.ltb_spec (dl_maxOffset d) (Range_End t)); cbn; split_and!; (done || lia). }
    destruct Hset as (Hk2 & d' & Hd' & Hcl' & Hst' & Ho' & Hm'). split; [by eapply keeps_trans|].
    split; [done|]. split; [done|]. intros Hnp. destruct (Hmiss Hnp) as (_ & Hpt & Hst & Hle & Hcov).
    destruct (Hin ltac:(lia)) as [_ Hnc]. exists i, d', (Pos t). rewrite Hst', Ho'.
    split_and!; try done; try lia.
    destruct (decide (dl_offset d <= Pos t)) as [|Hlt]; [done|]. destruct Hnc. apply Hdb. lia.
  - destruct (negb startNew) eqn:Hsn.
    { split_and!; try done. intros Hnp. destruct (Hmiss Hnp) as [-> _]. done. }
    destruct (Z.eqb_spec (Size t) 0) as [Hz|Hnz].
    { split_and!; try done. intros Hnp. destruct (Hmiss Hnp) as (_ & _ & ? & _). lia. }
    destruct (Hin Hnz) as [Hin1 Hnc]. pose proof (inv_newDownloader t s1 Hs1 Hp Hsz Hin1) as Hnew.
    destruct (_newDownloader BufferSize append_cap t s1) as [[err|] s2]; destruct Hnew as (Hs2 & Hit & Hw2 & Hch & Hca & He & Hl & Hel2 & Hpre & Hnew).
    + split; [by apply inv_countErrors|]. split; [by split|]. cbn. rewrite He. split; [|done].
      eapply keeps_trans; [exact Hk1|]. intros i d Hi Hd Hc. split; [by apply Hel2|]. exists d.
      split; [by eapply prefix_lookup_Some|by split_and!].
    + split; [done|]. split; [by split|]. split; [|split; [done|split; [done|]]].
      * eapply keeps_trans; [exact Hk1|]. intros i d Hi Hd Hc. split; [by apply Hel2|]. exists d.
        split; [by eapply prefix_lookup_Some|by split_and!].
      * intros Hnp. destruct (Hnew eq_refl) as (d & Hh & Hi & Hst & Ho & Hm & Hcl & _).
        destruct (Hmiss Hnp) as (_ & Hpt & _ & Hle & Hcov).
        exists (length (sd_heap s)), d, (Pos t). cbn in Hh. rewrite Hh, Hst, Ho, Hm, Hend, Hit. cbn.
        rewrite lookup_app_r, Nat.sub_diag by done. unfold window. split_and!; try done; try lia.
        unfold minWindow. lia.
Qed.

Lemma ensure_all_spec ws : forall s, sched_inv s -> Forall (fun w => req_ok (wt_r w)) ws ->
  let s' := ensure_all cfg BufferSize append_cap ws s in
  sched_inv s' /\ same_client s s' /\ keeps_dls s s' /\
  exists failed, sd_errorCount s' = Nat.iter (length failed) (fun n => n +! 1) (sd_errorCount s) /\
    failed `sublist_of` ws /\ (failed = [] -> sd_lastErr s' = sd_lastErr s) /\
    forall w, w ∈ ws -> present (sd_item s) (wt_r w) \/ served s' (wt_r w) \/ w ∈ failed.
Proof.
  induction ws as [|w ws IH]; intros s Hs Hall; cbn.
  { split; [done|]. split; [done|]. split; [intros i d ???; split; [done|]; exists d; split_and!; done || lia|].
    exists []. split; [done|]. split; [constructor|]. split; [done|]. intros w Hw. by apply elem_of_nil in Hw. }
  apply Forall_cons in Hall as [Hr Hall]. pose proof (ensure_spec (wt_r w) s Hs Hr) as He.
  destruct (_ensureDownloader cfg BufferSize append_cap (wt_r w) s) as [err s1]. destruct He as (Hs1 & Hc1 & Hk1 & He).
  destruct (IH s1 Hs1 Hall) as (Hs2 & Hc2 & Hk2 & failed & Hcount & Hsub & Hlast & Hw). cbn [snd]. set (s2 := ensure_all _ _ _ ws s1) in *.
  split; [done|]. split; [destruct Hc1, Hc2; split; congruence|]. split; [by eapply keeps_trans|].
  destruct Hc1 as [Hit1 _ _ _]. destruct Hc2 as [Hit2 _ _ _].
  assert (Hor : present (sd_item s) (wt_r w) \/ ~ present (sd_item s) (wt_r w)).
  { destruct (ci_HasRange (wt_r w) (sd_item s)) eqn:Hh; [left|right];
      rewrite <- (ci_HasRange_ok _ _ (si_item _ Hs) (req_in_bounds _ Hr)); [done|by rewrite Hh]. }
  destruct err as [err|].
  - destruct He as [He _]. exists (w :: failed). rewrite Hcount, He. split; [cbn [length]; by rewrite Nat.iter_succ_r|]. split; [by constructor|]. split; [done|].
    intros u [->|Hu]%elem_of_cons; [right; right; by left|]. rewrite <- Hit1. destruct (Hw u Hu) as [|[|]]; auto. right. right. by right.
  - destruct He as (He & Hl & Hsv). exists failed. rewrite Hcount, He. split; [done|]. split; [by constructor|]. split; [intros; rewrite Hlast, Hl by done; done|].
    intros u [->|Hu]%elem_of_cons; [|rewrite <- Hit1; by apply Hw].
    destruct Hor as [Hp|Hnp]; [by left|]. right. left. eapply served_keeps; [exact Hit2|exact Hk2|]. by apply Hsv.
Qed.

Lemma kick_spec s : sched_inv s ->
  let '(err, s') := kickWaiters cfg BufferSize append_cap s in
  sched_inv s' /\ sd_item s' = sd_item s /\ sd_cancelled s' = sd_cancelled s /\
  (forall w, w ∈ sd_waiters s -> present (sd_item s) (wt_r w) -> sd_chans s' !! wt_errChan w = Some (wt_r w, Some None)) /\
  match err with
  | None => (forall w, w ∈ sd_waiters s' <-> w ∈ sd_waiters s /\ ~ present (sd_item s) (wt_r w)) /\
      exists failed, sd_errorCount s' = Nat.iter (length failed) (fun n => n +! 1) (sd_errorCount s) /\
        failed `sublist_of` sd_waiters s' /\ forall w, w ∈ sd_waiters s' -> served s' (wt_r w) \/ w ∈ failed
  | Some e => sd_waiters s' = [] /\ sd_lastErr s' = Some e /\ (IsNoSpace (Some e) = true \/ maxErrorCount < sd_errorCount s') /\
      forall w, w ∈ sd_waiters s -> ~ present (sd_item s) (wt_r w) -> sd_chans s' !! wt_errChan w = Some (wt_r w, Some (Some e))
  end.
Proof.
  intros Hs. unfold kickWaiters. destruct (inv_dispatch s Hs) as (Hs1 & Hans & Hrest). set (s1 := _dispatchWaiters s) in *.
  destruct (Nat.eqb_spec (length (sd_waiters s1)) 0) as [Hz|Hnz].
  { apply nil_length_inv in Hz. split; [done|]. split; [done|]. split; [done|]. split; [done|]. split; [done|].
    exists []. split; [done|]. split; [apply sublist_nil_l|]. rewrite Hz. intros w Hw. by apply elem_of_nil in Hw. }
  assert (Hall : Forall (fun w => req_ok (wt_r w)) (sd_waiters s1)).
  { eapply Forall_impl; [apply Hs1|]. by intros w [? _]. }
  destruct (ensure_all_spec (sd_waiters s1) s1 Hs1 Hall) as (Hs2 & [Hit2 Hw2 Hch2 Hca2] & _ & failed & Hcount & Hsub & _ & Hsv).
  set (s2 := ensure_all _ _ _ (sd_waiters s1) s1) in *.
  assert (Hclose : forall e, sd_lastErr s2 = Some e -> IsNoSpace (Some e) = true \/ maxErrorCount < sd_errorCount s2 ->
    let s' := _closeWaiters (Some e) s2 in
    sched_inv s' /\ sd_item s' = sd_item s /\ sd_cancelled s' = sd_cancelled s /\
    (forall w, w ∈ sd_waiters s -> present (sd_item s) (wt_r w) -> sd_chans s' !! wt_errChan w = Some (wt_r w, Some None)) /\
    sd_waiters s' = [] /\ sd_lastErr s' = Some e /\ (IsNoSpace (Some e) = true \/ maxErrorCount < sd_errorCount s') /\
    forall w, w ∈ sd_waiters s -> ~ present (sd_item s) (wt_r w) -> sd_chans s' !! wt_errChan w = Some (wt_r w, Some (Some e))).
  { intros e Hl Hor. destruct (inv_answer (fun _ => true) (Some e) s2 Hs2) as (_ & Hin & Hout); [done|].
    destruct (inv_closeWaiters (Some e) s2 Hs2) as [Hs3 _]; [done|]. split; [done|]. split; [done|]. split; [done|].
    split; [|split; [done|split; [done|split; [done|]]]].
    - intros w Hw Hp. cbn. rewrite Hout, Hch2; [by apply Hans|]. rewrite Hw2. intros Hel.
      apply list_elem_of_fmap in Hel as (u & He & Hu). apply Hrest in Hu as [Hu Hnu].
      by rewrite (waiter_unique s w u Hs Hw Hu He) in Hp.
    - intros w Hw Hnp. apply Hin; [|done]. rewrite Hw2. by apply Hrest. }
  destruct (IsNoSpace (sd_lastErr s2)) eqn:Hns.
  { destruct (sd_lastErr s2) as [e|] eqn:Hl; [|done]. apply Hclose; auto. }
  destruct (Z.ltb_spec maxErrorCount (sd_errorCount s2)) as [Hgt|Hle].
  { destruct (si_errors _ Hs2) as [e He]; [unfold maxErrorCount in Hgt; lia|]. rewrite He. apply Hclose; auto. }
  split; [done|]. split; [by rewrite Hit2|]. split; [by rewrite Hca2|]. split; [intros w Hw Hp; rewrite Hch2; by apply Hans|].
  rewrite Hw2. split; [done|]. exists failed. split; [done|]. split; [done|]. intros w Hw. destruct (Hsv w Hw) as [Hp|]; [|done].
  exfalso. by apply Hrest in Hw as [_ ?].
Qed.

(** *** The goroutine of a downloader *)
Lemma inv_next_block i s : sched_inv s -> sched_inv (snd (next_block i s)).
Proof.
  intros Hs. unfold next_block, dl_get. destruct (sd_heap s !! i) as [d|] eqn:Hd; [|done].
  destruct (dl_in d) as [inp|] eqn:Hin; [|done]. destruct (Nat.ltb_spec 0 (length (in_cur inp))) as [|Hcur]; [by destruct (HasBuffer inp)|].
  apply Nat.le_0_r, nil_length_inv in Hcur. destruct (_ && (in_left inp =? 0)%nat); [done|].
  destruct (in_blocks inp) as [|p blocks] eqn:Hb; [done|]. apply inv_on_dl; [|done].
  intros d' Hd' []. rewrite Hd in Hd'. injection Hd' as <-.
  assert (Hto : forall k, to_write (dl_set_in (Some (mkInput (in_async inp) p blocks (in_err inp) k)) d) = to_write d).
  { intros k. unfold to_write. cbn. by rewrite Hin, Hcur, Hb. }
  split; rewrite <- ?length_to_write, ?Hto, ?length_to_write; try done.
Qed.

Lemma inv_item it s : ci_ok it -> ci_size it = size -> (forall x, ci_covers (sd_item s) x -> ci_covers it x) ->
  sched_inv s -> sched_inv (sd_set_item it s).
Proof.
  intros Hit Hsz Hm []. split; try done; cbn.
  - eapply Forall_impl; [exact si_heap0|]. intros d []. split; auto.
  - intros c r Hc Hr. destruct (si_answers0 c r Hc Hr); [left; by eapply present_mono|by right].
Qed.

Lemma write_spec i s : sched_inv s -> let '(_, s') := write_section i s in
  sched_inv s' /\ (forall x, ci_covers (sd_item s) x -> ci_covers (sd_item s') x).
Proof.
  intros Hs. unfold write_section. set (p := match dl_get i dl_in None s with Some inp => in_cur inp | None => [] end).
  set (off := dl_get i dl_offset 0 s). destruct (ci_WriteAtNoOverwrite p off (sd_item s)) as [[[n skipped] err] it] eqn:Hw.
  assert (Hroom : 0 <= off /\ off + Z.of_nat (length p) <= size /\ of_content content off p).
  { subst p off. unfold dl_get. destruct (sd_heap s !! i) as [d|] eqn:Hd; [|cbn; split_and!; [lia|lia|apply of_content_nil]].
    pose proof (Forall_lookup_1 _ _ _ _ (si_heap _ Hs) Hd) as Hok. pose proof (write_content _ _ Hok) as Hc. destruct Hok as [Hdp Hdr _ _].
    split_and!; [lia| |exact Hc]. unfold remaining in Hdr. destruct (dl_in d); cbn; lia. }
  apply ci_Write_ok in Hw as (Hit & Hsz & Hk & Hn & Hfull & Hcov); [|apply Hs|lia|rewrite (si_size _ Hs); lia|apply Hroom].
  assert (Hm : forall x, ci_covers (sd_item s) x -> ci_covers it x) by (intros x Hx; apply Hcov; by left).
  assert (Hs1 : sched_inv (sd_set_item it s)).
  { apply inv_item; try done. by rewrite Hsz, (si_size _ Hs). }
  assert (Hs2 : sched_inv (on_dl i (took n skipped) (sd_set_item it s))).
  { apply inv_on_dl; [|done]. cbn. intros d Hd [Hp1 Hr1 Hb1 Hc1]. pose proof (remaining_nonneg d) as Hrem.
    assert (Hoff : off = dl_offset d) by (subst off; unfold dl_get; by rewrite Hd).
    assert (Hpd : p = match dl_in d with Some inp => in_cur inp | None => [] end) by (subst p; unfold dl_get; by rewrite Hd).
    assert (Hto : to_write (took n skipped d) = drop (Z.to_nat n) (to_write d)) by (apply to_write_took; rewrite <- Hpd; lia).
    assert (Hlen : Z.of_nat (length p) <= remaining d /\ remaining (took n skipped d) = remaining d - n).
    {      clearbody p. subst p. unfold remaining. cbn. destruct (dl_in d); cbn in *; [rewrite length_drop|]; lia. }
    destruct Hlen as [Hl1 Hl2]. assert (Hi : i64 (dl_offset d + n) = dl_offset d + n) by (apply i64_id; unfold minWindow in *; i64_side).
    assert (Ho : dl_offset (took n skipped d) = dl_offset d + n) by done.
    split; rewrite ?Ho, ?Hl2, ?Hto; [cbn; lia|lia| |].
    - cbn. intros x Hx. destruct (decide (x < dl_offset d)); [apply Hb1; lia|]. apply Hcov. right. lia.
    - rewrite <- (Z2Nat.id n) at 1 by lia. apply of_content_drop; [lia|pose proof (length_to_write d); lia|done]. }
  set (s2 := on_dl i (took n skipped) (sd_set_item it s)) in *.
  destruct (negb _ && _); (split; [|done]); [by apply inv_stop|done].
Qed.

(** *** All goroutines keep the invariant *)
Notation keeps_inv m := (triple sched_inv sched_inv m (fun _ => sched_inv)).

Lemma keeps_bind {A B} (m : locked (sched I W) A) (k : A -> locked (sched I W) B) :
  keeps_inv m -> (forall a, keeps_inv (k a)) -> keeps_inv (m ≫= k).
Proof. intros Hm Hk. by eapply triple_bind. Qed.
Lemma keeps_ret {A} (a : A) : keeps_inv (mret a : locked (sched I W) A).
Proof. by intros s Hs. Qed.
Lemma keeps_get {A} (f : sched I W -> A) : keeps_inv (get f).
Proof. by intros s Hs. Qed.
Lemma keeps_modify f : (forall s, sched_inv s -> sched_inv (f s)) -> keeps_inv (modify f).
Proof. intros Hf s Hs. by apply Hf. Qed.
Lemma keeps_with_state {A} (f : sched I W -> A * sched I W) : (forall s, sched_inv s -> sched_inv (snd (f s))) -> keeps_inv (with_state f).
Proof. intros Hf s Hs. unfold with_state. specialize (Hf s Hs). destruct (f s) as [a s']. exact Hf. Qed.
Lemma keeps_unlock enabled : keeps_inv (unlock_until enabled).
Proof. intros s Hs. cbn. split; [done|]. by intros s1 H1' _. Qed.

Lemma inv_kick s : sched_inv s -> sched_inv (snd (kickWaiters cfg BufferSize append_cap s)).
Proof. intros Hs. pose proof (kick_spec s Hs) as Hk. destruct (kickWaiters _ _ _ s). apply Hk. Qed.
Lemma inv_ensure r s : req_ok r -> sched_inv s -> sched_inv (snd (_ensureDownloader cfg BufferSize append_cap r s)).
Proof. intros Hr Hs. pose proof (ensure_spec r s Hs Hr) as He. destruct (_ensureDownloader _ _ _ r s). apply He. Qed.
Lemma inv_write i s : sched_inv s -> sched_inv (snd (write_section i s)).
Proof. intros Hs. pose proof (write_spec i s Hs) as Hw. destruct (write_section i s). apply Hw. Qed.

Ltac keeps :=
  repeat first
    [ apply keeps_ret | apply keeps_get | apply keeps_unlock
    | apply keeps_modify; intros ? ?; solve [auto using inv_stop, inv_set_waiting, inv_countErrors, inv_cancelled, inv_removeClosed]
    | apply keeps_with_state; intros ? ?; solve [auto using inv_next_block, inv_dl_close, inv_kick, inv_ensure, inv_write]
    | apply keeps_bind; [|intros ?]
    | match goal with |- triple _ _ (match ?x with _ => _ end) _ => destruct x end ].

Lemma WriteTo_keeps i fuel : forall n, keeps_inv (WriteTo cfg BufferSize append_cap i fuel n).
Proof. induction fuel as [|fuel IH]; intros n; cbn [WriteTo]; keeps; apply IH. Qed.

Lemma keeps_step {A} enabled (m : locked (sched I W) A) : keeps_inv m -> keeps sched_inv (Step enabled m).
Proof.
  intros Hm s Hs He. pose proof (keeps_with_lock _ _ Hm s Hs eq_refl) as Hk. exact Hk.
Qed.

Lemma downloader_goroutine_keeps i : keeps sched_inv (downloader_goroutine cfg BufferSize append_cap i).
Proof.
  apply keeps_step. unfold download, download_result, downloader_exit. keeps; [apply WriteTo_keeps|].
  apply keeps_modify. intros s. apply inv_on_dl. intros d _. apply dl_ok_same; auto.
Qed.

Lemma Download_keeps r : req_ok r -> keeps_inv (Download cfg BufferSize append_cap r).
Proof.
  intros Hr. unfold Download.
  set (Q := fun (c : nat) s => sched_inv s /\ sd_chans s !! c = Some (r, None) /\ c ∉ wt_errChan <$> sd_waiters s).
  eapply triple_bind with (Q := Q).
  { apply triple_with_state. intros s c s' Hs [= <- <-]. subst Q. cbn. split_and!.
    - destruct Hs. split; try done; cbn.
      + eapply Forall_impl; [exact si_waiters0|]. intros w [? Hw]. split; [done|]. by apply lookup_app_l_Some.
      + intros c r' Hc Hr'. apply lookup_app_Some in Hc as [Hc|[_ Hc]]; [by eapply si_answers0|].
        apply list_lookup_singleton_Some in Hc as [_ Hc]. done.
    - by rewrite lookup_app_r, Nat.sub_diag by done.
    - intros Hc. apply list_elem_of_fmap in Hc as (w & Hc & Hw). pose proof (si_waiters _ Hs) as Hws.
      eapply Forall_forall in Hws as [_ Hl]; [|exact Hw]. apply lookup_lt_Some in Hl. lia. }
  intros c. eapply triple_bind with (Q := fun _ => Q c).
  { apply triple_with_state. intros s err s' (Hs & Hc & Hn) He. pose proof (ensure_spec r s Hs Hr) as Hsp. rewrite He in Hsp.
    destruct Hsp as (Hs' & [_ Hw Hch _] & _). subst Q. cbn. by rewrite Hw, Hch. }
  intros [err|].
  { intros s (Hs & _). exact Hs. }
  eapply triple_bind with (Q := fun _ => sched_inv); [|intros _; keeps].
  apply triple_modify. intros s (Hs & Hc & Hn). destruct Hs. split; try done; cbn.
  - apply Forall_app. split; [done|]. by constructor.
  - rewrite fmap_app. apply NoDup_app. split; [done|]. split; [|cbn; apply NoDup_singleton].
    intros x Hx Hx'. cbn in Hx'. apply list_elem_of_singleton in Hx' as ->. done.
Qed.

Lemma Close_loop_keeps array n : forall j err, keeps_inv (Close_loop array j n err).
Proof.
  induction n as [|n IH]; intros j err; cbn [Close_loop]; unfold stopAndClose; keeps. apply IH.
Qed.

Lemma Close_keeps err : keeps_inv (Close err).
Proof.
  assert (Hend : forall err' : option error, keeps_inv (
    unlock_until sd_cancelled;;
    modify (fun s => sd_set_cancelled (sd_cancelled s) false s);;
    unlock_until (fun s => negb (sd_ticker s));;
    modify (fun s => sd_set_dls (sd_arrays s ++ [[]]) (mkSlice (length (sd_arrays s)) 0) s);;
    modify _dispatchWaiters;;
    modify (_closeWaiters err);;
    mret err')).
  { intros err'. set (C := fun s => sched_inv s /\ sd_cancelled s = true).
    eapply triple_bind with (Q := fun _ => C).
    { eapply triple_weaken; [apply (triple_unlock sched_inv sd_cancelled sched_inv)|..]; done. }
    intros _. eapply triple_bind with (Q := fun _ => sched_inv).
    { apply triple_modify. intros s [Hs Hc]. by apply inv_ticker. }
    intros _. eapply triple_bind with (Q := fun _ => C).
    { eapply triple_weaken; [apply (triple_unlock sched_inv (fun s => negb (sd_ticker s)) sched_inv)|..]; try done.
      intros _ s [Hs Ht]. split; [done|]. apply (si_ticker _ Hs). by apply negb_true_iff. }
    intros _. eapply triple_bind with (Q := fun _ => C).
    { apply triple_modify. intros s [[] Hc]. split; [|done]. split; try done.
      exists []. cbn. rewrite lookup_app_r, Nat.sub_diag by done. split_and!; [done|lia|by constructor]. }
    intros _. eapply triple_bind with (Q := fun _ => C).
    { apply triple_modify. intros s [Hs Hc]. split; [by apply inv_dispatch|done]. }
    intros _. eapply triple_bind with (Q := fun _ => sched_inv).
    { apply triple_modify. intros s [Hs Hc]. by apply inv_closeWaiters. }
    intros _. apply keeps_ret. }
  unfold Close. do 4 (apply keeps_bind; [keeps|intros ?]). apply keeps_bind; [apply Close_loop_keeps|exact Hend].
Qed.

Definition op_ok (op : sched_op) : Prop := match op with OpDownload r | OpEnsure r => req_ok r | _ => True end.

Lemma op_keeps op : op_ok op -> keeps sched_inv (sched_goroutine cfg BufferSize append_cap op).
Proof.
  intros Hop. destruct op as [r|r|err| |i]; cbn [sched_goroutine op_ok] in *; unfold with_lock; apply keeps_step.
  - apply keeps_bind; [by apply Download_keeps|intros; apply keeps_ret].
  - unfold EnsureDownloader. keeps.
  - apply keeps_bind; [apply Close_keeps|intros; apply keeps_ret].
  - keeps.
  - keeps.
Qed.

Lemma reachable_inv n ops it src s ps : ci_ok it -> ci_size it = size -> or_Size src = size -> Forall op_ok ops ->
  rtc par_step (Downloaders_New it src, sched_goroutines cfg BufferSize append_cap n ops) (s, ps) -> sched_inv s.
Proof.
  intros Hit Hsz Hsrc Hops Hr. refine (proj1 (par_invariant sched_inv _ _ Hr _ _)); cbn.
  - split; cbn; try done; try by constructor. exists []. split; [done|]. split; [cbn; lia|]. by constructor.
  - unfold sched_goroutines. apply Forall_app. split; apply Forall_fmap, Forall_forall; intros x Hx; cbn.
    + apply op_keeps. by apply (proj1 (Forall_forall op_ok ops) Hops).
    + apply downloader_goroutine_keeps.
Qed.

(** *** A request is answered *)

(** A goroutine on its own. *)
Definition proc_step (c c' : sched I W * proc (sched I W) unit) : Prop :=
  exists enabled section, snd c = Step enabled section /\ enabled (fst c) = true /\ c' = section (fst c).

Lemma proc_steps_par c c' ps i : rtc proc_step c c' -> ps !! i = Some (snd c) ->
  rtc par_step (fst c, ps) (fst c', <[i := snd c']> ps).
Proof.
  intros Hr. revert ps. induction Hr as [c|c1 c2 c3 Hst _ IH]; intros ps Hi; [by rewrite list_insert_id|].
  destruct Hst as (enabled & section & Hc & He & ->). destruct c1 as [s1 p1]. cbn in *. subst p1.
  eapply rtc_l; [by eapply par_section|]. replace (<[i:=snd c3]> ps) with (<[i:=snd c3]> (<[i:=snd (section s1)]> ps)) by apply list_insert_insert_eq.
  apply IH. apply list_lookup_insert_eq. by eapply lookup_lt_Some.
Qed.

(** A single request, and the downloader that was started for it: it has come to
    its offset without leaving a gap, hands over [cur], and [blocks] are still to
    come, up to the end of the object. *)
Record on_its_way (r : Range) (cur : list byte) (blocks : list (list byte)) (it : I) (d : downloader) : Prop := {
  ow_in : exists async left, dl_in d = Some (mkInput async cur blocks None left);
  ow_flags : dl_closed d = false /\ dl_stop d = false;
  ow_start : Pos r <= dl_start d <= dl_offset d;
  ow_offset : dl_offset d < Pos r + Size r;
  ow_rest : dl_offset d + Z.of_nat (length cur + length (concat blocks)) = size;
  ow_covered : forall x, Pos r <= x < dl_offset d -> ci_covers it x;
  ow_max : Pos r + Size r <= dl_maxOffset d;
  ow_skipped : 0 <= dl_skipped d <= dl_offset d - dl_start d;
}.

Record serving (r : Range) (cur : list byte) (blocks : list (list byte)) s : Prop := {
  sv_inv : sched_inv s;
  sv_heap : exists d, sd_heap s = [d] /\ on_its_way r cur blocks (sd_item s) d;
  sv_dls : slice_elems (sd_dls s) s = [0%nat];
  sv_waiters : sd_waiters s = [mkWaiter r 0];
  sv_errors : sd_errorCount s = 0 /\ sd_lastErr s = None;
}.

Lemma serving_next r p blocks s : serving r [] (p :: blocks) s -> exists s', next_block 0 s = (None, s') /\ serving r p blocks s'.
Proof.
  intros []. destruct sv_heap0 as (d & Hh & []). pose proof (inv_next_block 0 s sv_inv0) as Hi.
  unfold next_block, dl_get in *. rewrite Hh in *. cbn [lookup list_lookup] in *. destruct ow_in0 as (async & left_ & Hin).
  destruct ow_flags0 as [Hcl Hst]. rewrite Hin, Hst in *. cbn [andb in_blocks] in *. eexists. split; [done|]. split; try done.
  eexists. split; [cbn; by rewrite Hh|]. cbn in *. split; cbn; try done; [by do 2 eexists|].
  rewrite <- ow_rest0, length_app. done.
Qed.

Lemma serving_waiting r cur blocks b s : serving r cur blocks s -> serving r cur blocks (set_waiting 0 b s).
Proof.
  intros []. destruct sv_heap0 as (d & Hh & []). split; try done; [by apply inv_set_waiting|].
  eexists. cbn. rewrite Hh. split; [done|]. by split.
Qed.

Hypothesis write_ok : forall b off it n skipped err it', ci_WriteAtNoOverwrite b off it = (n, skipped, err, it') -> err = None.

Lemma serving_write r p blocks s : Size r <= maxSkipBytes -> serving r p blocks s ->
  exists err s', write_section 0 s = ((Z.of_nat (length p), err), s') /\ sched_inv s' /\ sd_waiters s' = [mkWaiter r 0] /\
    (present (sd_item s') r \/ err = None /\ serving r [] blocks s').
Proof.
  intros Hsize []. destruct sv_heap0 as (d & Hh & []). pose proof (write_spec 0 s sv_inv0) as Hw. revert Hw.
  destruct ow_in0 as (async & left_ & Hin).
  assert (Hp : match dl_get 0 dl_in None s with Some inp => in_cur inp | None => [] end = p) by (unfold dl_get; rewrite Hh; cbn; by rewrite Hin).
  assert (Ho : dl_get 0 dl_offset 0 s = dl_offset d) by (unfold dl_get; by rewrite Hh).
  unfold write_section. rewrite Hp, Ho. destruct (ci_WriteAtNoOverwrite p (dl_offset d) (sd_item s)) as [[[n skipped] err] it] eqn:Hw. intros Hspec.
  pose proof (write_ok _ _ _ _ _ _ _ Hw) as ->. pose proof (Forall_lookup_1 _ _ 0%nat d (si_heap _ sv_inv0) ltac:(by rewrite Hh)) as Hdok.
  pose proof (write_content _ _ Hdok) as Hcont. rewrite Hin in Hcont. cbn in Hcont. destruct Hdok as [Hdp Hdr Hdb _].
  pose proof Hw as Hw'. apply ci_Write_ok in Hw' as (Hit & Hsz & Hk & Hn & Hfull & Hcov); [|apply sv_inv0|lia|rewrite (si_size _ sv_inv0); lia|done].
  specialize (Hfull eq_refl). subst n. destruct ow_flags0 as [Hcl Hst].
  assert (Hoff : i64 (dl_offset d + Z.of_nat (length p)) = dl_offset d + Z.of_nat (length p)).
  { apply i64_id. unfold minWindow in *. i64_side. }
  set (s1 := on_dl 0 (took (Z.of_nat (length p)) skipped) (sd_set_item it s)) in *.
  assert (Hh1 : sd_heap s1 = [took (Z.of_nat (length p)) skipped d]) by (cbn; by rewrite Hh).
  destruct Hspec as [Hinv' Hmono]. do 2 eexists. split; [reflexivity|]. cbv zeta. split; [exact Hinv'|].
  split; [by destruct (negb _ && _)|].
  assert (Hitem : forall b : bool, sd_item (if b then _stop 0 s1 else s1) = it) by by intros [].
  rewrite Hitem. destruct (decide (dl_offset d + Z.of_nat (length p) < Pos r + Size r)) as [Hlt|Hge].
  - right. revert Hinv'. unfold dl_get. rewrite !Hh1. cbn [lookup list_lookup].
    set (d1 := took _ _ d). assert (Hd1 : dl_stop d1 = false /\ dl_in d1 = Some (mkInput async (drop (Z.to_nat (Z.of_nat (length p))) p) blocks None left_)).
    { subst d1. unfold took. rewrite Hin. cbn. by rewrite Hst. }
    destruct Hd1 as [Hs1 Hin1]. rewrite Hs1. cbn [negb andb].
    assert (Hskip : 0 <= dl_skipped d1 <= dl_offset d1 - dl_start d1).
    { subst d1. cbn. rewrite Hoff. unfold minWindow in *. destruct (Z.eqb_spec skipped (Z.of_nat (length p))); [|lia].
      rewrite i64_id by i64_side. lia. }
    assert (Hno : (maxSkipBytes <? dl_skipped d1) = false).
    { apply Z.ltb_ge. enough (dl_offset d1 = dl_offset d + Z.of_nat (length p)) by (subst d1; cbn in *; lia). by subst d1. }
    rewrite Hno. cbv iota. rewrite Hh1. fold d1. change ([d1] !! 0%nat) with (Some d1). cbv iota. rewrite Hs1. intros Hinv'. split; [done|]. split; try done.
    exists d1. split; [done|]. split.
    + rewrite Hin1, Nat2Z.id, drop_all. by do 2 eexists.
    + by rewrite Hs1.
    + subst d1. cbn. lia.
    + subst d1. cbn. lia.
    + subst d1. cbn. lia.
    + subst d1. cbn. rewrite Hoff. intros x Hx. apply Hcov. destruct (decide (x < dl_offset d)); [left; apply ow_covered0; lia|right; lia].
    + done.
    + done.
  - left. intros x Hx. unfold elem_of, Range_elem in Hx. apply Hcov.
    destruct (decide (x < dl_offset d)); [left; apply ow_covered0; lia|right; lia].
Qed.

Lemma serving_ensure r blocks s : req_ok r -> Size r <= maxSkipBytes -> serving r [] blocks s -> ~ present (sd_item s) r ->
  exists s', _ensureDownloader cfg BufferSize append_cap r s = (None, s') /\ serving r [] blocks s'.
Proof.
  intros Hr Hsize Hsv Hnp. pose proof Hsv as [Hs Hheap Hdls Hwt Herr]. pose proof (inv_ensure r s Hr Hs) as Hinv'.
  revert Hinv'. unfold _ensureDownloader. pose proof (ensure_target_spec r (sd_item s) (si_item _ Hs) (si_size _ Hs) Hr) as Ht.
  destruct (ensure_target cfg BufferSize r (sd_item s)) as [startNew t]. destruct Ht as (_ & _ & Hend & Hin & Hmiss).
  destruct (Hmiss Hnp) as (_ & Hpt & Hst & Hle & Hcov). destruct (Hin ltac:(lia)) as [Hin1 Hnc].
  destruct Hheap as (d & Hh & Hd). pose proof Hd as [_ [Hcl Hstop] Hstart Hoff Hrest Hcovd Hmax _].
  assert (Hel : slice_elems (sd_dls (_removeClosed s)) (_removeClosed s) = [0%nat]).
  { rewrite removeClosed_elems, Hdls by done. unfold closed, dl_get. rewrite filter_cons_True; [done|]. by rewrite Hh. }
  rewrite Hel. cbn [find_downloader]. unfold getRange, dl_get. cbn [sd_heap _removeClosed sd_set_dls]. rewrite Hh. cbn [lookup list_lookup].
  assert (Hge : dl_offset d <= Pos t).
  { destruct (decide (dl_offset d <= Pos t)); [done|]. destruct Hnc. apply Hcovd. lia. }
  pose proof Hr as Hr0. unfold maxSkipBytes, minWindow, req_ok in *.
  assert (Hi : forall w, Size r <= w <= Z.max BufferSize (1024 * 1024) -> (Pos t <? dl_offset d +! w) = true).
  { intros w Hw. rewrite i64_id by i64_side. apply Z.ltb_lt. lia. }
  rewrite (proj2 (Z.leb_le _ _)) by lia. cbn [andb]. rewrite Hi by (destruct (Z.ltb_spec BufferSize (1024 * 1024)); lia).
  cbn [snd]. intros Hinv'. eexists. split; [done|]. split; try done.
  - eexists. split; [cbn; by rewrite Hh|]. destruct Hd. cbn. destruct (Z.ltb_spec (dl_maxOffset d) (Range_End t)); split; try done. cbn. lia.
Qed.

Lemma serving_kick r blocks s : req_ok r -> Size r <= maxSkipBytes -> serving r [] blocks s -> ~ present (sd_item s) r ->
  exists s', kickWaiters cfg BufferSize append_cap s = (None, s') /\ serving r [] blocks s'.
Proof.
  intros Hr Hsize Hsv Hnp. pose proof Hsv as [Hs Hheap Hdls Hwt Herr]. unfold kickWaiters.
  assert (Hno : waiter_present (mkWaiter r 0) s = false).
  { apply not_true_is_false. by rewrite (waiter_present_spec (mkWaiter r 0) s Hs Hr). }
  assert (Hd : sd_waiters (_dispatchWaiters s) = [mkWaiter r 0]).
  { unfold _dispatchWaiters. cbn. rewrite Hwt. by rewrite filter_cons_True by done. }
  assert (Hsv1 : serving r [] blocks (_dispatchWaiters s)) by (split; try done; by apply inv_dispatch).
  rewrite Hd. cbn [length Nat.eqb ensure_all wt_r].
  destruct (serving_ensure r blocks (_dispatchWaiters s) Hr Hsize Hsv1 Hnp) as (s' & -> & Hsv'). cbn [snd].
  destruct (sv_errors _ _ _ _ Hsv') as [-> ->]. by exists s'.
Qed.

Definition answered (r : Range) s : Prop := sd_chans s !! 0%nat = Some (r, Some None) /\ present (sd_item s) r.

(** [K] is what goes on after [WriteTo]. *)
Lemma WriteTo_answers r (K : sched I W * proc (sched I W) (Z * option error) -> sched I W * proc (sched I W) unit) :
  (forall s enabled section, K (s, Step enabled section) = (s, Step enabled (fun s => K (section s)))) ->
  req_ok r -> Size r <= maxSkipBytes ->
  forall blocks fuel n s, (length blocks < fuel)%nat -> Forall (fun p => p <> []) blocks -> serving r [] blocks s ->
  exists c, rtc proc_step (K (WriteTo cfg BufferSize append_cap 0 fuel n s)) c /\ answered r (fst c).
Proof.
  intros HK Hr Hsize. induction blocks as [|p blocks IH]; intros fuel n s Hf Hne Hsv.
  { exfalso. destruct (sv_heap _ _ _ _ Hsv) as (d & _ & []). cbn in ow_rest0. destruct Hr as (_ & _ & Hr). lia. }
  destruct fuel as [|fuel]; [cbn in Hf; lia|]. apply Forall_cons in Hne as [Hp Hne]. cbn in Hf.
  destruct (serving_next r p blocks s Hsv) as (s1 & Hnext & Hsv1). 
  pose proof (serving_waiting _ _ _ true _ Hsv1) as Hsv2. pose proof (serving_waiting _ _ _ false _ Hsv2) as Hsv3.
  destruct (serving_write r p blocks _ Hsize Hsv3) as (err & s4 & Hwrite & Hs4 & Hw4 & Hor).
  assert (Hready : write_ready 0 (set_waiting 0 true s1) = true).
  { destruct (sv_heap _ _ _ _ Hsv2) as (d & Hh & []). unfold write_ready, getRange, dl_get. rewrite Hh. cbn.
    apply orb_true_iff. left. apply Z.ltb_lt. lia. }
  assert (Hlen : (Z.of_nat (length p) <=? 0) = false) by (apply Z.leb_gt; destruct p; [done|cbn; lia]).
  cbn [WriteTo]. cbv [mbind locked_bind unlock_until]. cbn [proc_bind].
  assert (Hsec : forall enabled section s0 c1, enabled s0 = true -> section s0 = c1 ->
    (exists c2, rtc proc_step (K c1) c2 /\ answered r (fst c2)) ->
    exists c2, rtc proc_step (K (s0, Step enabled section)) c2 /\ answered r (fst c2)).
  { intros enabled section s0 c1 He <- (c2 & H1' & H2'). exists c2. split; [|done]. rewrite HK. eapply rtc_l; [|exact H1'].
    by do 2 eexists. }
  eapply Hsec; [reflexivity| |].
  { cbn [fst]. unfold with_state at 1. rewrite Hnext. cbn [proc_bind]. unfold Write. cbv [mbind locked_bind modify unlock_until].
    cbn [proc_bind]. reflexivity. }
  eapply Hsec; [exact Hready| |].
  { cbn [fst proc_bind]. unfold with_state at 1. rewrite Hwrite. cbn [proc_bind]. rewrite Hlen. cbv [mbind locked_bind unlock_until].
    cbn [proc_bind]. reflexivity. }
  eapply Hsec; [reflexivity| |].
  { cbn [fst proc_bind]. unfold with_state. cbv [mbind locked_bind unlock_until]. reflexivity. }
  assert (Hpres : present (sd_item s4) r \/ ~ present (sd_item s4) r).
  { destruct (ci_HasRange r (sd_item s4)) eqn:Hh; [left|right];
      rewrite <- (ci_HasRange_ok _ _ (si_item _ Hs4) (req_in_bounds _ Hr)); [done|by rewrite Hh]. }
  destruct Hpres as [Hpres|Hnp].
  - pose proof (kick_spec s4 Hs4) as Hk. destruct (kickWaiters cfg BufferSize append_cap s4) as [waitErr s5].
    destruct Hk as (_ & Hit5 & _ & Hk & _). eexists. split; [apply rtc_refl|]. cbn. rewrite HK. cbn.
    split; [apply (Hk (mkWaiter r 0)); [rewrite Hw4; by left|done]|by rewrite Hit5].
  - destruct Hor as [?|[-> Hsv4]]; [done|]. destruct (serving_kick r blocks s4 Hr Hsize Hsv4 Hnp) as (s5 & -> & Hsv5).
    cbn [proc_bind]. eapply Hsec; [reflexivity|reflexivity|]. cbn [proc_bind].
    apply (IH fuel (n +! Z.of_nat (length p)) s5); [lia|done|done].
Qed.

Hypothesis seek_ok : forall offset (w : W), or_Size w = size -> 0 <= offset <= size ->
  exists blocks n w', or_Seek offset w = (inr (blocks, None, n), w') /\
    offset + Z.of_nat (length (concat blocks)) = size /\ Forall (fun p => p <> []) blocks.

Lemma Download_serves r it src : req_ok r -> ci_ok it -> ci_size it = size -> or_Size src = size -> ~ present it r ->
  exists s enabled section blocks, Download cfg BufferSize append_cap r (Downloaders_New it src) = (s, Step enabled section) /\
    serving r [] blocks s /\ Forall (fun p => p <> []) blocks.
Proof.
  intros Hr Hit Hsz Hsrc Hnp. 
  assert (Hs0 : sched_inv (Downloaders_New it src)).
  { split; cbn; try done; try by constructor. exists []. split; [done|]. split; [cbn; lia|]. by constructor. }
  pose proof (Download_keeps r Hr _ Hs0) as Hkeep. revert Hkeep.
  unfold Download. cbv [mbind locked_bind with_state make_chan modify unlock_until]. cbn [proc_bind].
  set (s0 := sd_set_waiters _ _ _). unfold _ensureDownloader.
  pose proof (ensure_target_spec r it Hit Hsz Hr) as Ht. change (sd_item s0) with it.
  destruct (ensure_target cfg BufferSize r it) as [startNew t]. destruct Ht as (Hp & _ & Hend & Hin & Hmiss).
  destruct (Hmiss Hnp) as (-> & Hpt & Hst & Hle & Hcov). destruct (Hin ltac:(lia)) as [Hin1 Hnc].
  cbn [negb]. assert (Hel : slice_elems (sd_dls (_removeClosed s0)) (_removeClosed s0) = []) by reflexivity.
  rewrite Hel. cbn [find_downloader]. rewrite (proj2 (Z.eqb_neq (Size t) 0)) by lia.
  unfold _newDownloader, dl_open. cbn [dl_offset]. change (or_Size (sd_src (_removeClosed s0))) with (or_Size src).
  rewrite Hsrc, (proj2 (Z.ltb_ge size 0)) by lia. change (sd_src (_removeClosed s0)) with src.
  destruct (seek_ok (Pos t) src Hsrc ltac:(lia)) as (blocks & n & w & -> & Hlen & Hne).
  cbn. intros [Hinv' _]. do 3 eexists. exists blocks. split; [done|]. split; [|done].
  split; try done; try exact Hinv'.
  eexists. split; [done|]. cbn. split; cbn; try done; try lia. by do 2 eexists.
Qed.

Lemma Download_answered r it src : req_ok r -> Size r <= maxSkipBytes -> ci_ok it -> ci_size it = size -> or_Size src = size ->
  ~ present it r ->
  exists s ps, rtc par_step (Downloaders_New it src, sched_goroutines cfg BufferSize append_cap 1 [OpDownload r]) (s, ps) /\
    answered r s.
Proof.
  intros Hr Hsize Hit Hsz Hsrc Hnp. destruct (Download_serves r it src Hr Hit Hsz Hsrc Hnp) as (s & e & f & blocks & Hd & Hsv & Hne).
  unfold sched_goroutines. cbn [fmap list_fmap seq app].
  set (worker := downloader_goroutine cfg BufferSize append_cap 0).
  set (k := fun _ : option error => (mret tt : locked (sched I W) unit)).
  set (client := Step e (fun s => let '(s2, p2) := f s in proc_bind p2 k s2)).
  assert (H1s : par_step (Downloaders_New it src, [sched_goroutine cfg BufferSize append_cap (OpDownload r); worker])
    (s, [client; worker])).
  { pose proof (par_section (Downloaders_New it src) [sched_goroutine cfg BufferSize append_cap (OpDownload r); worker] 0
      (fun _ => true) (Download cfg BufferSize append_cap r ≫= k) eq_refl eq_refl) as Hst.
    unfold mbind, locked_bind in Hst. rewrite Hd in Hst. exact Hst. }
  destruct (sv_heap _ _ _ _ Hsv) as (d & Hh & [(async & n & Hin) _ _ _ _ _ _ _]).
  assert (Hrun : exists c, rtc proc_step (s, worker) c /\ answered r (fst c)).
  { destruct (WriteTo_answers r (fun c => let '(s1, p1) := (let '(s2, p2) := c in proc_bind p2 (download_result) s2) in
      proc_bind p1 (downloader_exit cfg BufferSize append_cap 0) s1) (fun _ _ _ => eq_refl) Hr Hsize blocks (S (length blocks)) 0 s)
      as (c & Hc & Ha); [lia|done|done|].
    exists c. split; [|done]. eapply rtc_l; [|exact Hc]. do 2 eexists. split; [reflexivity|]. cbn [fst]. split.
    - apply bool_decide_eq_true_2. rewrite Hh. cbn. lia.
    - unfold download. unfold mbind, locked_bind, get. cbn [proc_bind]. unfold dl_get. rewrite Hh. cbn [lookup list_lookup]. rewrite Hin. done. }
  destruct Hrun as ([s' p'] & Hrun & Ha). exists s', [client; p']. split; [|done].
  eapply rtc_l; [exact H1s|]. exact (proc_steps_par _ _ [client; worker] 1 Hrun eq_refl).
Qed.
End proofs.

(** ** Properties *)

(** The bounds under which offsets do not overflow. *)
Definition sched_bounds (cfg : SchedConfig) (BufferSize size : Z) : Prop :=
  0 <= BufferSize /\ 0 <= SC_ReadAhead cfg /\ 0 <= size /\ size + SC_ReadAhead cfg + Z.max BufferSize minWindow <= MaxInt64.

(** C5. Whatever the interleaving of requests, downloaders, tickers and idle
    timers, and whatever the source delivers: a request that was told that it
    succeeded has its range in the item, unless [Close] was called; a request
    that waits has not been answered, and no two wait on one channel; a
    downloader leaves nothing missing between its start and its offset, and does
    not pass the end of the object. *)
Theorem scheduler_answers_are_true {I W} {content} `{CacheItemOK I content} `{!Origin W} `{!OriginOK W content} cfg BufferSize append_cap size n ops (it : I) (src : W) s ps :
  (forall k, (k < append_cap k)%nat) -> sched_bounds cfg BufferSize size ->
  ci_ok it -> ci_size it = size -> or_Size src = size -> Forall (op_ok size) ops ->
  rtc par_step (Downloaders_New it src, sched_goroutines cfg BufferSize append_cap n ops) (s, ps) ->
  (forall c r, sd_chans s !! c = Some (r, Some None) -> req_ok size r -> sd_cancelled s = false -> ci_HasRange r (sd_item s) = true) /\
  Forall (fun w => sd_chans s !! wt_errChan w = Some (wt_r w, None)) (sd_waiters s) /\ NoDup (wt_errChan <$> sd_waiters s) /\
  Forall (fun d => 0 <= dl_start d <= dl_offset d /\ dl_offset d <= size /\
    forall x, dl_start d <= x < dl_offset d -> ci_covers (sd_item s) x) (sd_heap s).
Proof.
  intros Hcap Hb Hit Hsz Hsrc Hops Hr. pose proof (reachable_inv _ _ _ size Hcap Hb n ops it src s ps Hit Hsz Hsrc Hops Hr) as Hs.
  split_and!.
  - intros c r Hc Hr0 Hcl. pose proof (si_answers _ _ Hs c r Hc Hr0) as [Hp|Hp]; [|congruence].
    apply ci_HasRange_ok; [apply Hs|by eapply req_in_bounds|done].
  - eapply Forall_impl; [apply Hs|]. by intros w [_ ?].
  - apply Hs.
  - eapply Forall_impl; [apply Hs|]. intros d []. split; [done|]. split; [|done].
    unfold remaining in *. destruct (dl_in d); lia.
Qed.

(** C7. What a kick does, in any reachable state.  Requests whose range is there
    succeed.  Without an error the others keep waiting, and each of them is
    served (a downloader still runs that has yet to come to its first missing
    byte, is near it and may go past the end of the range) or starting its
    downloader failed and was counted; with an error every other request gets
    it, and it is a full disk or the last of more than ten errors. *)
Theorem scheduler_kick_serves_all {I W} {content} `{CacheItemOK I content} `{!Origin W} `{!OriginOK W content} cfg BufferSize append_cap size n ops (it : I) (src : W) s ps :
  (forall k, (k < append_cap k)%nat) -> sched_bounds cfg BufferSize size ->
  ci_ok it -> ci_size it = size -> or_Size src = size -> Forall (op_ok size) ops ->
  rtc par_step (Downloaders_New it src, sched_goroutines cfg BufferSize append_cap n ops) (s, ps) ->
  let '(err, s') := kickWaiters cfg BufferSize append_cap s in
  (forall w, w ∈ sd_waiters s -> present (sd_item s) (wt_r w) -> sd_chans s' !! wt_errChan w = Some (wt_r w, Some None)) /\
  match err with
  | None => (forall w, w ∈ sd_waiters s' <-> w ∈ sd_waiters s /\ ~ present (sd_item s) (wt_r w)) /\
      exists failed, sd_errorCount s' = Nat.iter (length failed) (fun n => i64 (n + 1)) (sd_errorCount s) /\
        failed `sublist_of` sd_waiters s' /\ forall w, w ∈ sd_waiters s' -> served BufferSize s' (wt_r w) \/ w ∈ failed
  | Some e => sd_waiters s' = [] /\ sd_lastErr s' = Some e /\ (IsNoSpace (Some e) = true \/ maxErrorCount < sd_errorCount s') /\
      forall w, w ∈ sd_waiters s -> ~ present (sd_item s) (wt_r w) -> sd_chans s' !! wt_errChan w = Some (wt_r w, Some (Some e))
  end.
Proof.
  intros Hcap Hb Hit Hsz Hsrc Hops Hr. pose proof (reachable_inv _ _ _ size Hcap Hb n ops it src s ps Hit Hsz Hsrc Hops Hr) as Hs.
  pose proof (kick_spec _ _ _ size Hcap Hb s Hs) as Hk. destruct (kickWaiters cfg BufferSize append_cap s) as [err s'].
  destruct Hk as (_ & _ & _ & Hk & Hrest). by split.
Qed.

(** C8. A request for up to a mebibyte that is missing is answered: there is a
    run of the caller and the downloader started for it at the end of which it
    succeeds, if the source delivers the rest of the object from wherever it is
    opened and the item's writes do not fail. *)
Theorem scheduler_Download_is_answered {I W} {content} `{CacheItemOK I content} `{!Origin W} `{!OriginOK W content} cfg BufferSize append_cap size (it : I) (src : W) r :
  (forall k, (k < append_cap k)%nat) -> sched_bounds cfg BufferSize size ->
  ci_ok it -> ci_size it = size -> or_Size src = size ->
  (forall b off (it : I) n skipped err it', ci_WriteAtNoOverwrite b off it = (n, skipped, err, it') -> err = None) ->
  (forall offset (w : W), or_Size w = size -> 0 <= offset <= size ->
    exists blocks n w', or_Seek offset w = (inr (blocks, None, n), w') /\
      offset + Z.of_nat (length (concat blocks)) = size /\ Forall (fun p => p <> []) blocks) ->
  req_ok size r -> Size r <= maxSkipBytes -> ci_HasRange r it = false ->
  exists s ps, rtc par_step (Downloaders_New it src, sched_goroutines cfg BufferSize append_cap 1 [OpDownload r]) (s, ps) /\
    sd_chans s !! 0%nat = Some (r, Some None) /\ present (sd_item s) r.
Proof.
  intros Hcap Hb Hit Hsz Hsrc Hw Hseek Hr Hsize Hno.
  destruct (Download_answered cfg BufferSize append_cap size Hcap Hb Hw Hseek r it src Hr Hsize Hit Hsz Hsrc) as (s & ps & Hrun & Ha).
  { rewrite <- (ci_HasRange_ok r it Hit) by (by eapply req_in_bounds). by rewrite Hno. }
  by exists s, ps.
Qed.
