(* ===== verification/ItemScheduler.v ===== *)
(** * The cached item as the item of the downloaders

    [Item] has the three methods that the scheduler asks for
    (src/cache/item.go 476-524), and keeps the promises of the interface. *)
From stdpp Require Import base numbers list relations strings.
From Stdlib Require Import ZArith Lia Init.Byte Strings.Byte.
From S2P Require Import Prelude.
From S2P Require Import Ranges.
From S2P Require Import Interleave.
From S2P Require Import SourceObject.
From S2P Require Import Item.
From S2P Require Import Scheduler.

Local Open Scope Z_scope.
Local Open Scope go_scope.
Local Open Scope list_scope.

#[export] Instance item_CacheItem O : CacheItem (item O) := {
  ci_FindMissing := FindMissing;
  ci_HasRange := HasRange;
  ci_WriteAtNoOverwrite b off s :=
    match WriteAtNoOverwrite b off s with Ret res => res | _ => (0, 0, Some (Errorf "panic"), s) end;
}.

Record item_serves {O} (s : item O) : Prop := {
  is_wf : wf (item_Rs s);
  is_file : file_ok s;
  is_size : 0 <= InfoSize (it_info s) <= MaxInt64;
  is_inside : forall x, covers (item_Rs s) x -> x < InfoSize (it_info s);
}.

(** [FindMissing] cut to the size of the object. *)
Lemma clipped_missing rs size r : wf rs -> 0 <= size <= MaxInt64 -> (forall x, covers rs x -> x < size) ->
  in_bounds r -> 0 <= Size r -> Pos r <= size ->
  let out := Range_Clip (Ranges_FindMissing rs r) size in
  Pos r <= Pos out <= size /\ 0 <= Size out /\ Pos out + Size out = Z.min (Pos r + Size r) size /\
  (forall x, Pos r <= x < Pos out -> covers rs x) /\ (0 < Size out -> ~ covers rs (Pos out)).
Proof.
  intros Hwf Hsize Hin Hb Hs Hpos.
  destruct (FindMissing_correct rs r Hwf Hb) as (He & Hle & Hnn & Hcov & Hgap). specialize (Hnn Hs).
  set (out := Ranges_FindMissing rs r) in *. clearbody out.
  assert (Hout : Pos out <= size).
  { destruct (decide (Pos out = Pos r)); [lia|]. specialize (Hin (Pos out - 1) ltac:(apply Hcov; lia)). lia. }
  unfold in_bounds in Hb. assert (Hend : Range_End out = Pos out + Size out) by (apply Range_End_eq; unfold in_bounds; i64_side).
  cbv zeta. unfold Range_Clip. rewrite Hend. destruct (Z.leb_spec (Pos out + Size out) size).
  - split_and!; try done; lia.
  - i64_norm. zcase; [lia|]. cbn. split_and!; try done; try lia. intros. apply Hgap. lia.
Qed.

#[export] Program Instance item_CacheItemOK O content : CacheItemOK (item O) content := {
  ci_ok := item_serves;
  ci_size s := InfoSize (it_info s);
  ci_covers s := covers (item_Rs s);
}.
Next Obligation. by intros O content s []. Qed.
Next Obligation. intros O content r s [Hwf _ Hsize Hin] Hb Hs Hpos. by apply clipped_missing. Qed.
Next Obligation. intros O content r s [Hwf _ _ _] Hb. cbn. unfold HasRange. by apply Present_correct. Qed.
Next Obligation.
  intros O content b off s n skipped err s' [Hwf Hf Hs Hin] Ho Hmax _ Hw. cbn in Hmax, Hs, Hin. cbv [ci_WriteAtNoOverwrite item_CacheItem] in Hw.
  destruct (WriteAtNoOverwrite_spec b off s Hwf Hf Ho) as (n1 & k1 & err1 & s1 & Hw1 & [Hn He Hk Hwf' Hrs _ _ Hfr]); [lia|].
  rewrite Hw1 in Hw. injection Hw as <- <- <- <-.
  assert (Hsize : InfoSize (it_info s1) = InfoSize (it_info s)) by by rewrite Hfr.
  split_and!; try done; [|subst; lia|subst|..|lia].
  - split; [done| |by rewrite Hsize|].
    + eapply file_ok_frame; [exact Hf|exact Hfr|]. intros Hd. unfold WriteAtNoOverwrite in Hw1. by eapply WriteAt_ranges_data.
    + intros x Hx. rewrite Hsize. apply Hrs in Hx as [Hx|Hx]; [by apply Hin|lia].
  - pose proof (length_filter (covers (item_Rs s)) (seqZ off n1)) as Hle. rewrite length_seqZ in Hle. lia.
Qed.

(** ** A scripted source *)

(** An object of four bytes; each opening of the chunked reader takes the next
    entry of the script: an error, or the blocks and how they end. *)
Definition demo_bytes : list byte := [x00; x01; x02; x03].

Record scripted_source := mkSource { ss_size : Z; ss_script : list (error + list (list byte) * option error * nat) }.

#[local] Instance byte_eq_decision : EqDecision byte := Byte.byte_eq_dec.

#[export] Instance scripted_Origin : Origin scripted_source := {
  or_Size := ss_size;
  or_Seek offset w :=
    match ss_script w with
    | [] => (inr ([], None, 0%nat), w)
    | res :: script =>
        let w' := mkSource (ss_size w) script in
        match res with
        | inr (blocks, err, n) =>
            if (offset + Z.of_nat (length (concat blocks)) <=? ss_size w) &&
               bool_decide (concat blocks = slice offset (offset + Z.of_nat (length (concat blocks))) demo_bytes) then (inr (blocks, err, n), w') else (inr ([], err, n), w')
        | inl err => (inl err, w')
        end
    end;
}.

#[export] Instance scripted_OriginOK : OriginOK scripted_source demo_bytes.
Proof.
  split. intros offset w res w'. cbn. destruct (ss_script w) as [|[err|[[blocks err] n]] script].
  - intros [= <- <-]. cbn. split; [done|]. split; [lia|apply of_content_nil].
  - by intros [= <- <-].
  - destruct (Z.leb_spec (offset + Z.of_nat (length (concat blocks))) (ss_size w)); cbn [andb].
    + case_bool_decide; intros [= <- <-]; cbn; (split; [done|]; split; [lia|done || apply of_content_nil]).
    + intros [= <- <-]. cbn. split; [done|]. split; [lia|apply of_content_nil].
Qed.

(** An opened item of [size] bytes that holds [rs]. *)
Definition demo_item (size : Z) (rs : list Range) : item unit :=
  set_fd true (set_info (mkInfo "key" 0 size rs "v") (newItem (Some (replicate (Z.to_nat size) x00)) None [] [] 0)).

Definition sched_demo (cfg : SchedConfig) (BufferSize : Z) (it : item unit) (src : scripted_source) (n : nat)
    (ops : list sched_op) (schedule : list nat) : sched (item unit) scripted_source :=
  fst (par_exec schedule (Downloaders_New it src, sched_goroutines cfg BufferSize (fun n => S (2 * n)) n ops)).

(** An item whose writes do not fail, and a source that delivers everything in
    one block. *)
Record plain_item := mkPlain { pl_size : Z; pl_Rs : list Range }.

#[export] Instance plain_CacheItem : CacheItem plain_item := {
  ci_FindMissing r it := Range_Clip (Ranges_FindMissing (pl_Rs it) r) (pl_size it);
  ci_HasRange r it := Ranges_Present (pl_Rs it) r;
  ci_WriteAtNoOverwrite b off it :=
    (Z.of_nat (length b), Z.of_nat (length (filter (covers (pl_Rs it)) (seqZ off (Z.of_nat (length b))))), None,
     mkPlain (pl_size it) (Ranges_Insert (pl_Rs it) (mkRange off (Z.of_nat (length b)))));
}.

Record plain_ok (it : plain_item) : Prop := {
  pk_wf : wf (pl_Rs it);
  pk_size : 0 <= pl_size it <= MaxInt64;
  pk_inside : forall x, covers (pl_Rs it) x -> x < pl_size it;
}.

#[export] Program Instance plain_CacheItemOK content : CacheItemOK plain_item content := {
  ci_ok := plain_ok;
  ci_size := pl_size;
  ci_covers it := covers (pl_Rs it);
}.
Next Obligation. by intros content it []. Qed.
Next Obligation. intros content r it [] Hb Hs Hp. by apply clipped_missing. Qed.
Next Obligation. intros content r it [] Hb. cbn. by apply Present_correct. Qed.
Next Obligation.
  intros content b off it n skipped err it' [Hwf Hsize Hin] Ho Hmax _ [= <- <- <- <-]. cbn in *.
  assert (Hb : in_bounds (mkRange off (Z.of_nat (length b)))) by (unfold in_bounds; cbn; i64_side).
  destruct (Insert_correct _ _ Hwf Hb) as [Hwf' Hcov].
  pose proof (length_filter (covers (pl_Rs it)) (seqZ off (Z.of_nat (length b)))) as Hle. rewrite length_seqZ in Hle.
  split_and!; try done; try lia. split; try done. intros x Hx. apply Hcov in Hx as [Hx|Hx]; [by apply Hin|].
  unfold elem_of, Range_elem in Hx. cbn in *. lia.
Qed.

#[export] Instance whole_Origin : Origin unit := {
  or_Size _ := 4;
  or_Seek offset w := (inr (if offset <? 4 then [slice offset 4 demo_bytes] else [], None, 0%nat), w);
}.
#[export] Instance whole_OriginOK : OriginOK unit demo_bytes.
Proof.
  split. intros offset w res w' [= <- <-]. split; [done|]. cbn. intros Ho Hle. destruct (Z.ltb_spec offset 4); cbn [concat app].
  - rewrite app_nil_r. unfold of_content. rewrite length_slice by (cbn; lia). split; [lia|]. f_equal. lia.
  - split; [cbn; lia|apply of_content_nil].
Qed.

(** ** The scheduler keeps its promise to the item *)
Lemma clip_request size r : size <= MaxInt64 -> req_ok size r -> Range_Clip r size = r.
Proof.
  intros Hs Hr. unfold req_ok in Hr. unfold Range_Clip. rewrite Range_End_eq by (unfold in_bounds, MinInt64, MaxInt64 in *; lia).
  destruct (Z.leb_spec (Pos r + Size r) size); [done|lia].
Qed.

Section fetched.
Context {O : Type} (content_of : O -> list byte) (dls : nat) (origin : O) (it0 : item O).

(** What the downloaders [dls] may have made of the item: they serve [origin]. *)
Record fetched (s : item O) : Prop := {
  fe_serves : item_serves s;
  fe_fetch : rtc (fetch content_of) it0 s;
  fe_origin : downloader_origin dls s = Some origin;
}.

(** A write of bytes of the origin is a [fetch]. *)
Lemma write_fetches b off s n skipped err s' : fetched s -> 0 <= off <= MaxInt64 -> of_content (content_of origin) off b ->
  WriteAtNoOverwrite b off s = Ret (n, skipped, err, s') -> frame s s' -> item_serves s' -> fetched s'.
Proof.
  intros [_ Hf Hd] Ho Hb Hw Hfr Hs'. split; [done| |].
  - eapply rtc_r; [exact Hf|]. exists dls, off, (Z.of_nat (length b)). split; [done|]. unfold downloader_write. by rewrite Hd, <- Hb, Hw.
  - rewrite <- Hd, Hfr. done.
Qed.

(** The item with this promise instead of [item_serves]. *)
Program Definition fetched_CacheItemOK : CacheItemOK (item O) (content_of origin) := {|
  ci_ok := fetched;
  ci_size s := InfoSize (it_info s);
  ci_covers s := covers (item_Rs s);
|}.
Next Obligation. intros s [[]]. done. Qed.
Next Obligation. intros r s [Hs _ _]. by apply (ci_FindMissing_ok (CacheItemOK := item_CacheItemOK O (content_of origin))). Qed.
Next Obligation. intros r s [Hs _ _]. by apply (ci_HasRange_ok (CacheItemOK := item_CacheItemOK O (content_of origin))). Qed.
Next Obligation.
  intros b off s n skipped err s' Hs Ho Hmax Hb Hw. pose proof (fe_serves _ Hs) as Hsv. pose proof Hsv as [Hwf Hf Hsize _].
  pose proof (ci_Write_ok (CacheItemOK := item_CacheItemOK O (content_of origin)) b off s n skipped err s' Hsv Ho Hmax Hb Hw) as [Hsv' Hrest].
  cbn in Hmax. assert (Hoff : 0 <= off <= MaxInt64) by lia.
  split; [|exact Hrest]. destruct (WriteAtNoOverwrite_spec b off s Hwf Hf Ho) as (n1 & k1 & err1 & s1 & Hw1 & Hwa); [lia|].
  cbv [ci_WriteAtNoOverwrite item_CacheItem] in Hw. rewrite Hw1 in Hw. injection Hw as -> -> -> ->.
  eapply write_fetches; [exact Hs|exact Hoff|exact Hb|exact Hw1|apply Hwa|exact Hsv'].
Qed.
End fetched.

(** The invariant of the scheduler, over this reading of the item, and what follows
    from it. *)
Section promise.
Context {O W : Type} (content_of : O -> list byte) (dls : nat) (origin : O) `{!Origin W} `{!OriginOK W (content_of origin)}.
Context (cfg : SchedConfig) (BufferSize : Z) (append_cap : nat -> nat) (it : item O).
Notation size := (InfoSize (it_info it)).
Notation inv := (sched_inv (H0 := fetched_CacheItemOK content_of dls origin it) (content := content_of origin) size).

Lemma fetched_inv n ops (src : W) s ps : (forall k, (k < append_cap k)%nat) -> sched_bounds cfg BufferSize size ->
  item_serves it -> downloader_origin dls it = Some origin -> or_Size src = size -> Forall (op_ok size) ops ->
  rtc par_step (Downloaders_New it src, sched_goroutines cfg BufferSize append_cap n ops) (s, ps) -> inv s.
Proof.
  intros Hcap Hb Hit Hd Hsrc Hops. apply (reachable_inv (H0 := fetched_CacheItemOK content_of dls origin it) cfg BufferSize append_cap size Hcap Hb); try done.
Qed.

Lemma fetched_only s : inv s -> rtc (fetch content_of) it (sd_item s).
Proof. intros Hs. apply (si_item _ _ Hs). Qed.

Lemma fetched_answers s c r : inv s -> size <= MaxInt64 -> sd_chans s !! c = Some (r, Some None) -> req_ok size r -> sd_cancelled s = false ->
  HasRange (Range_Clip r size) (sd_item s) = true.
Proof.
  intros Hs Hmax Hc Hreq Hcl. rewrite (clip_request size r) by done. destruct (si_answers _ _ Hs c r Hc Hreq) as [Hp|Hp]; [|congruence].
  apply (ci_HasRange_ok (CacheItemOK := fetched_CacheItemOK content_of dls origin it)); [apply Hs| |done].
  unfold in_bounds, req_ok, MinInt64, MaxInt64 in *. lia.
Qed.
End promise.

(** C6. scheduler_keeps_its_promise: what the cached item relies on when it asks
    for a download is what the detailed scheduler does to it, in every interleaving
    of requests, downloaders, tickers and timers, over any source that delivers
    bytes of the object.  At all times ([SchedulerOK]) the item has only been
    changed by writes of bytes of that object at their place.  Until [Close] is
    called ([SchedulerDelivers]) a request that was told that it succeeded has its
    range; a request that [Close] answers may not have it
    ([scheduler_Close_reports_success]). *)
Theorem scheduler_keeps_its_promise {O W} (content_of : O -> list byte) dls origin `{!Origin W} `{!OriginOK W (content_of origin)}
    cfg BufferSize append_cap n ops (it : item O) (src : W) s ps :
  let size := InfoSize (it_info it) in
  (forall k, (k < append_cap k)%nat) -> sched_bounds cfg BufferSize size ->
  item_serves it -> downloader_origin dls it = Some origin -> or_Size src = size -> Forall (op_ok size) ops ->
  rtc par_step (Downloaders_New it src, sched_goroutines cfg BufferSize append_cap n ops) (s, ps) ->
  rtc (fetch content_of) it (sd_item s) /\
  (forall c r, sd_chans s !! c = Some (r, Some None) -> req_ok size r -> sd_cancelled s = false ->
    HasRange (Range_Clip r size) (sd_item s) = true).
Proof.
  intros size Hcap Hb Hit Hd Hsrc Hops Hr. pose proof (fetched_inv content_of dls origin cfg BufferSize append_cap it n ops src s ps Hcap Hb Hit Hd Hsrc Hops Hr) as Hs.
  split; [by eapply fetched_only|]. intros c r. by apply (fetched_answers _ _ _ _ _ _ _ Hs), Hit.
Qed.

(** ** What can go wrong *)

(** [Close(nil)], the only way the item calls it, tells the requests that
    still wait that they succeeded: a reader whose read is under way when the
    last handle is closed is sent on without its range, and reads zeros from the
    sparse file without an error.  The downloader that the kick of the stopped
    one has started in the meantime is not stopped. *)
Lemma scheduler_Close_reports_success :
  exists src ops schedule, let s := sched_demo (mkSchedConfig 4 (-1) 0 0) 0 (demo_item 4 []) src 1 ops schedule in
    sd_ticker s = false /\ slice_elems (sd_dls s) s = [] /\
    sd_chans s = [(mkRange 0 4, Some None)] /\ HasRange (mkRange 0 4) (sd_item s) = false /\
    fd_ReadAt 4 0 (sd_item s) = ([x00; x00; x00; x00], None, sd_item s) /\
    (exists d, sd_heap s !! 1%nat = Some d /\ dl_stop d = false /\ dl_closed d = false).
Proof.
  exists (mkSource 4 [inr ([], Some context_Canceled, 0%nat); inr ([], Some context_Canceled, 0%nat)]).
  exists [OpDownload (mkRange 0 4); OpClose None], ([0; 1; 1; 1] ++ replicate 8 2 ++ replicate 8 1)%nat.
  cbn zeta. do 5 (split; [vm_compute; reflexivity|]). eexists. split; [vm_compute; reflexivity|]. by split.
Qed.

(** [Close] can return while a downloader runs on.  It goes through the slice
    of downloaders, and gives up the mutex for each; the downloader it has just
    stopped kicks the waiters, which compacts the array under the loop, and the
    next downloader is passed over.  It then writes into the item after [Close]
    has returned. *)
Lemma scheduler_Close_skips_a_downloader :
  exists src ops schedule later,
    let run schedule := sched_demo (mkSchedConfig 4 (-1) 0 0) 0 (demo_item 4 []) src 3 ops schedule in
    let s := run schedule in let s' := run (schedule ++ later) in
    sd_ticker s = false /\ slice_elems (sd_dls s) s = [] /\ sd_waiters s = [] /\
    (exists d, sd_heap s !! 1%nat = Some d /\ dl_stop d = false /\ dl_closed d = false) /\
    HasRange (mkRange 1 1) (sd_item s) = false /\ HasRange (mkRange 1 1) (sd_item s') = true.
Proof.
  exists (mkSource 4 [inr ([], Some context_Canceled, 0%nat); inr ([[x01]], Some context_Canceled, 0%nat); inr ([], Some context_Canceled, 0%nat)]).
  exists [OpDownload (mkRange 2 1); OpDownload (mkRange 1 1); OpDownload (mkRange 0 1); OpClose None].
  exists ([0; 1; 2; 3; 3; 3] ++ replicate 8 4 ++ replicate 3 3 ++ replicate 8 6 ++ replicate 12 3)%nat, (replicate 9 5%nat).
  cbn zeta. do 3 (split; [vm_compute; reflexivity|]). split; [|split; vm_compute; reflexivity].
  eexists. split; [vm_compute; reflexivity|]. by split.
Qed.

(** The error count is only reset by a download that ends without an error,
    and a download fails when its kick finds too many errors: once more than ten
    have been counted, a request that takes more than one write fails with the
    old error although the source works again, its download is aborted after the
    first write, and that counts as one more error. *)
Lemma scheduler_errors_stick :
  exists src ops schedule, let s := sched_demo (mkSchedConfig 4 (-1) 0 0) 0 (demo_item 4 []) src 1 ops schedule in
    ss_script src = replicate 11 (inl (Errorf "dial")) ++ [inr ([[x00; x01]; [x02; x03]], None, 0%nat)] /\
    (exists e, sd_chans s !! 11%nat = Some (mkRange 0 4, Some (Some e)) /\ errors_Is e (Errorf "dial") = true) /\
    InfoRs (it_info (sd_item s)) = [mkRange 0 2] /\ sd_errorCount s = 12.
Proof.
  exists (mkSource 4 (replicate 11 (inl (Errorf "dial")) ++ [inr ([[x00; x01]; [x02; x03]], None, 0%nat)])).
  exists (replicate 12 (OpDownload (mkRange 0 4))), (seq 0 12 ++ replicate 12 12)%nat.
  cbn zeta. split; [reflexivity|]. split; [eexists; split; [vm_compute; reflexivity|reflexivity]|]. split; vm_compute; reflexivity.
Qed.

(** ** Witnesses *)
Definition demo_cfg : SchedConfig := mkSchedConfig 4 (-1) 0 0.
Definition demo_cap (n : nat) : nat := S (2 * n).
Lemma demo_cap_ok k : (k < demo_cap k)%nat.
Proof. unfold demo_cap. lia. Qed.
Lemma demo_bounds : sched_bounds demo_cfg 0 4.
Proof. unfold sched_bounds, minWindow, MaxInt64. cbn. lia. Qed.
Lemma demo_item_serves : item_serves (demo_item 4 []).
Proof.
  split; cbn; [by apply wf_nil|intros _; by eexists|unfold MaxInt64; lia|]. intros x Hx. by apply Exists_nil in Hx.
Qed.

(** A request of three bytes, delivered in blocks of one byte and more. *)
Definition demo_source : scripted_source := mkSource 4 [inr ([[x00]; [x01]; [x02; x03]], None, 0%nat)].
Definition demo_schedule : list nat := 0%nat :: replicate 16 1%nat.
Definition demo_par : par (sched (item unit) scripted_source) :=
  par_exec demo_schedule (Downloaders_New (demo_item 4 []) demo_source,
    sched_goroutines demo_cfg 0 demo_cap 1 [OpDownload (mkRange 0 3)]).

Lemma demo_par_reachable : rtc par_step (Downloaders_New (demo_item 4 []) demo_source,
  sched_goroutines demo_cfg 0 demo_cap 1 [OpDownload (mkRange 0 3)]) (fst demo_par, snd demo_par).
Proof. rewrite <- surjective_pairing. apply par_exec_steps. Qed.

Lemma scheduler_answers_are_true_witness :
  sd_chans (fst demo_par) = [(mkRange 0 3, Some None)] /\ HasRange (mkRange 0 3) (sd_item (fst demo_par)) = true.
Proof.
  assert (Hc : sd_chans (fst demo_par) = [(mkRange 0 3, Some None)]) by (vm_compute; reflexivity). split; [exact Hc|].
  pose proof (scheduler_answers_are_true demo_cfg 0 demo_cap 4 1 [OpDownload (mkRange 0 3)] (demo_item 4 []) demo_source
    (fst demo_par) (snd demo_par) demo_cap_ok demo_bounds) as Hthm.
  destruct (Hthm demo_item_serves eq_refl eq_refl) as (Ha & _); clear Hthm.
  - repeat constructor; cbn; lia.
  - exact demo_par_reachable.
  - assert (Hreq : req_ok 4 (mkRange 0 3)) by (unfold req_ok; cbn; lia).
    assert (Hcl : sd_cancelled (fst demo_par) = false) by (vm_compute; reflexivity).
    exact (Ha 0%nat (mkRange 0 3) (f_equal (fun l => l !! 0%nat) Hc) Hreq Hcl).
Defined.

(** The item as the downloaders [0] of an object see it. *)
Definition fetching_item : item unit := set_dls [(0, 0)]%nat (set_objects [mkSourceObject tt (mkMetadata 4 "v" zeroTime "")] (demo_item 4 [])).
Definition fetching_par : par (sched (item unit) scripted_source) :=
  par_exec demo_schedule (Downloaders_New fetching_item demo_source, sched_goroutines demo_cfg 0 demo_cap 1 [OpDownload (mkRange 0 3)]).

Lemma scheduler_keeps_its_promise_witness :
  rtc (fetch (fun _ : unit => demo_bytes)) fetching_item (sd_item (fst fetching_par)) /\
  HasRange (Range_Clip (mkRange 0 3) 4) (sd_item (fst fetching_par)) = true /\ it_data (sd_item (fst fetching_par)) = Some demo_bytes.
Proof.
  destruct (scheduler_keeps_its_promise (fun _ : unit => demo_bytes) 0 tt demo_cfg 0 demo_cap 1 [OpDownload (mkRange 0 3)] fetching_item demo_source
    (fst fetching_par) (snd fetching_par) demo_cap_ok demo_bounds) as [Hf Ha].
  - split; cbn; [by apply wf_nil|intros _; by eexists|unfold MaxInt64; lia|]. intros x Hx. by apply Exists_nil in Hx.
  - reflexivity.
  - reflexivity.
  - repeat constructor; cbn; lia.
  - rewrite <- surjective_pairing. apply par_exec_steps.
  - split; [exact Hf|]. split; [|vm_compute; reflexivity]. apply (Ha 0%nat); [vm_compute; reflexivity|unfold req_ok; cbn; lia|vm_compute; reflexivity].
Defined.

(** The kick after the first block: the request is not complete, and its
    downloader goes on. *)
Definition demo_mid : par (sched (item unit) scripted_source) :=
  par_exec [0; 1; 1; 1]%nat (Downloaders_New (demo_item 4 []) demo_source,
    sched_goroutines demo_cfg 0 demo_cap 1 [OpDownload (mkRange 0 3)]).

Lemma scheduler_kick_serves_all_witness :
  let '(err, s') := kickWaiters demo_cfg 0 demo_cap (fst demo_mid) in
  err = None /\ sd_waiters s' = [mkWaiter (mkRange 0 3) 0] /\ served (content := demo_bytes) 0 s' (mkRange 0 3).
Proof.
  pose proof (scheduler_kick_serves_all demo_cfg 0 demo_cap 4 1 [OpDownload (mkRange 0 3)] (demo_item 4 []) demo_source
    (fst demo_mid) (snd demo_mid) demo_cap_ok demo_bounds) as Hk. specialize (Hk demo_item_serves eq_refl eq_refl).
  assert (He : fst (kickWaiters demo_cfg 0 demo_cap (fst demo_mid)) = None) by (vm_compute; reflexivity).
  assert (Hw : sd_waiters (snd (kickWaiters demo_cfg 0 demo_cap (fst demo_mid))) = [mkWaiter (mkRange 0 3) 0]) by (vm_compute; reflexivity).
  assert (Hn : sd_errorCount (snd (kickWaiters demo_cfg 0 demo_cap (fst demo_mid))) = 0) by (vm_compute; reflexivity).
  assert (Hn0 : sd_errorCount (fst demo_mid) = 0) by (vm_compute; reflexivity).
  destruct (kickWaiters demo_cfg 0 demo_cap (fst demo_mid)) as [err s']. cbn [fst snd] in *. subst err.
  destruct Hk as (_ & _ & failed & Hf & Hsub & Hs).
  - repeat constructor; cbn; lia.
  - rewrite <- surjective_pairing. apply par_exec_steps.
  - split; [reflexivity|]. split; [exact Hw|]. destruct (Hs (mkWaiter (mkRange 0 3) 0)) as [Hsv|Hin]; [rewrite Hw; by left|exact Hsv|].
    exfalso. rewrite Hn, Hn0 in Hf. rewrite Hw in Hsub. apply sublist_length in Hsub.
    destruct failed as [|a [|b failed]]; [by apply elem_of_nil in Hin|discriminate Hf|cbn in Hsub; lia].
Defined.

Lemma scheduler_Download_is_answered_witness :
  exists s ps, rtc par_step (Downloaders_New (mkPlain 4 [mkRange 1 1]) tt,
      sched_goroutines demo_cfg 0 demo_cap 1 [OpDownload (mkRange 0 3)]) (s, ps) /\
    sd_chans s !! 0%nat = Some (mkRange 0 3, Some None) /\ present (content := demo_bytes) (sd_item s) (mkRange 0 3).
Proof.
  apply (scheduler_Download_is_answered demo_cfg 0 demo_cap 4 (mkPlain 4 [mkRange 1 1]) tt (mkRange 0 3) demo_cap_ok demo_bounds).
  - split; [cbn; solve_ranges|cbn; unfold MaxInt64; lia|]. intros x Hx. cbn in Hx. apply Exists_cons in Hx as [Hx|Hx]; [|by apply Exists_nil in Hx].
    unfold elem_of, Range_elem in Hx. cbn in *. lia.
  - reflexivity.
  - reflexivity.
  - intros b off it n skipped err it' [= <- <- <- <-]. reflexivity.
  - intros offset w _ Ho. cbn. do 3 eexists. split; [reflexivity|]. destruct (Z.ltb_spec offset 4); cbn [concat app].
    + rewrite app_nil_r. pose proof (length_slice offset 4 demo_bytes ltac:(lia) ltac:(cbn; lia)) as Hl. split; [lia|]. constructor; [|constructor].
      intros Hn. rewrite Hn in Hl. cbn in Hl. lia.
    + split; [cbn; lia|constructor].
  - unfold req_ok. cbn. lia.
  - unfold maxSkipBytes. cbn. lia.
  - vm_compute. reflexivity.
Defined.
