(* ===== verification/Pipeline.v ===== *)
(** * From the origin to the cached item

    The parts of a download put together: the origin of an object
    ([SourceObject]), the adapter of the engine, the sequential chunk reader
    ([Sequential]), the input that copies it to the downloader, the scheduler
    ([Scheduler]) and the cached item ([Item]).  [downloader.open]
    (src/internal/engine/scheduler/scheduler.go) makes the chunk reader and the
    input; here its reader is the sequential one.  [cached_http_bytes] puts the HTTP
    origin ([HttpSource]) in the place of the abstract one. *)
From stdpp Require Import base numbers list relations strings.
From Stdlib Require Import ZArith Lia Init.Byte.
From S2P Require Import Prelude.
From S2P Require Import Ranges.
From S2P Require Import GoIO.
From S2P Require Import Interleave.
From S2P Require Import HttpSource.
From S2P Require Import ObjectIO.
From S2P Require Import SourceObject.
From S2P Require Import Sequential.
From S2P Require Import Options.
From S2P Require Import Item.
From S2P Require Import Scheduler.
From S2P Require Import ItemScheduler.

Local Open Scope Z_scope.
Local Open Scope go_scope.
Local Open Scope list_scope.

(** ** The input of a downloader *)
Section input.
Context {W R : Type} `{Object W R} `{!RangeSeeker W R}.

(** The blocks that the copy of a reader hands over, [block] bytes at a time, and
    how it ends; [None] is the end of the file.  A round reads a block: as many
    rounds as there are blocks, and one for the end, are enough. *)
Fixpoint copy_blocks (rounds block : nat) (cr : sequential R) (w : W) : list (list byte) * option error * W :=
  match rounds with
  | 0%nat => ([], None, w)
  | S rounds =>
      match sequential_Read (S block) block cr w with
      | Ret (d, err, cr, w) =>
          let first := match d with [] => [] | _ => [d] end in
          match err with
          | None => let '(blocks, err, w) := copy_blocks rounds block cr w in (first ++ blocks, err, w)
          | Some io_EOF => (first, None, w)
          | Some err => (first, Some err, w)
          end
      | _ => ([], Some (Errorf "panic"), w)
      end
  end.

(** [chunkstream.New], [Seek] and what is read from there. *)
Definition chunk_open (initialChunkSize maxChunkSize : Z) (rounds block : nat) (offset : Z) (w : W) : (error + list (list byte) * option error * nat) * W :=
  let '(_, err, cr) := sequential_Seek offset io_SeekStart (newSequential initialChunkSize maxChunkSize) in
  match err with
  | Some err => (inl err, w)
  | None => let '(blocks, err, w) := copy_blocks rounds block cr w in (inr (blocks, err, 0%nat), w)
  end.

Definition chunk_Origin (initialChunkSize maxChunkSize : Z) (rounds block : nat) : Origin W := {|
  or_Size _ := obj_Size;
  or_Seek := chunk_open initialChunkSize maxChunkSize rounds block;
|}.
End input.

Section input_proofs.
Context {W R : Type} (content : list byte) `{Hok : ObjectOK W R content} `{!RangeSeeker W R} `{!RangeSeekerOK W R content} `{!ReaderProgress W R}.
Hypothesis Hsize : Z.of_nat (length content) <= MaxObject.

Lemma read_ok fuel n (cr : sequential R) w d err cr' w' : sq_inv content cr -> sequential_Read fuel n cr w = Ret (d, err, cr', w') ->
  sq_inv content cr' /\ sq_pos cr' = sq_pos cr + Z.of_nat (length d) /\ of_content content (sq_pos cr) d.
Proof.
  intros Hinv. unfold sequential_Read. destruct (sq_closed cr); [intros [= <- <- <- <-]; cbn; split_and!; [done|lia|apply of_content_nil]|].
  intros Hr. apply (seq_Read_loop_correct content Hsize) in Hr as (Hi & Hp & Hd & _ & _); [|done]. unfold of_content. by rewrite <- Hp.
Qed.

Lemma of_content_join off b1 b2 : 0 <= off -> of_content content off b1 -> of_content content (off + Z.of_nat (length b1)) b2 -> of_content content off (b1 ++ b2).
Proof.
  unfold of_content. intros Ho H1 H2. rewrite length_app, Nat2Z.inj_add, Z.add_assoc. rewrite H1 at 1. rewrite H2 at 1.
  apply slice_app; lia.
Qed.

Lemma copy_blocks_ok rounds block : forall (cr : sequential R) w blocks err w', sq_inv content cr -> copy_blocks rounds block cr w = (blocks, err, w') ->
  of_content content (sq_pos cr) (concat blocks).
Proof.
  induction rounds as [|rounds IH]; intros cr w blocks err w' Hinv; cbn [copy_blocks]; [intros [= <- <- <-]; apply of_content_nil|].
  destruct (sequential_Read (S block) block cr w) as [[[[d e] cr1] w1]| |] eqn:Hr; [|intros [= <- <- <-]; apply of_content_nil..].
  apply read_ok in Hr as (Hi & Hp & Hd); [|done]. set (first := match d with [] => [] | _ => [d] end).
  assert (Hfirst : concat first = d) by (subst first; destruct d; cbn; by rewrite ?app_nil_r).
  destruct e as [e|].
  - destruct e; intros [= <- <- <-]; by rewrite Hfirst.
  - destruct (copy_blocks rounds block cr1 w1) as [[blocks1 e1] w2] eqn:Hc. intros [= <- <- <-]. rewrite concat_app, Hfirst.
    apply of_content_join; [by eapply (sq_pos_nonneg content)|done|]. rewrite <- Hp. by eapply IH.
Qed.

Lemma of_content_length off b : 0 <= off <= Z.of_nat (length content) -> of_content content off b -> off + Z.of_nat (length b) <= Z.of_nat (length content).
Proof. unfold of_content. intros Ho Hb. apply (f_equal length) in Hb. unfold slice in Hb. rewrite length_take, length_drop in Hb. lia. Qed.

Lemma chunk_OriginOK initial limit rounds block : (initial = -1 \/ 0 < initial <= MaxChunk) -> (limit = -1 \/ initial <= limit) ->
  @OriginOK W (chunk_Origin initial limit rounds block) content.
Proof.
  intros Hi Hl. split. intros offset w res w' Hs. split; [done|]. destruct res as [e|[[blocks err] n]]; [done|]. cbn in Hs |- *.
  rewrite obj_Size_ok. intros Ho Hle. unfold chunk_open, sequential_Seek in Hs.
  pose proof (RangeSeek_inv content (newSequential initial limit) offset io_SeekStart (-1) Hsize (newSequential_inv content _ _ Hi Hl) ltac:(by left)
    ltac:(unfold in64, MaxObject, MinInt64, MaxInt64 in *; lia) ltac:(unfold MaxChunk; lia) eq_refl
    ltac:(unfold in64, MaxObject, MinInt64, MaxInt64 in *; cbn; lia)) as Hseek. cbn zeta in Hseek.
  destruct (sequential_RangeSeek offset io_SeekStart (-1) (newSequential initial limit)) as [[k e] cr] eqn:Hsk. change (io_SeekStart =? io_SeekStart) with true in Hseek. cbv iota in Hseek.
  destruct Hseek as (Hinv & Hin & Hout). destruct e as [e|]; [done|].
  destruct (decide (offset < Z.of_nat (length content))); [|destruct Hout as [? _]; [lia|done]]. destruct Hin as (_ & _ & Hpos); [lia|].
  destruct (copy_blocks rounds block cr w) as [[blocks1 e1] w2] eqn:Hc. injection Hs as -> -> _ _.
  apply copy_blocks_ok in Hc; [|done]. rewrite Hpos in Hc. split; [|done]. apply of_content_length; [lia|done].
Qed.
End input_proofs.

(** ** The item at the other end *)
Lemma max_object (content : list byte) : Z.of_nat (length content) <= MaxObject -> Z.of_nat (length content) <= MaxInt64.
Proof. unfold MaxObject, MaxInt64. lia. Qed.

Lemma ready_serves {O} (content_of : O -> list byte) content (it : item O) : Z.of_nat (length content) <= MaxInt64 -> ready content_of content it -> item_serves it.
Proof.
  intros Hmax [[[Hwf Ht] Hfile _ _ _] _ _ _ Hsize _ _]. split; [done|done|lia|]. intros x Hx. rewrite Hsize. by apply Ht.
Qed.

(** The item behind any origin that delivers its content. *)
Lemma download_path {O W} (content_of : O -> list byte) origin content (O1 : Origin W) (HO : OriginOK W content) cfg BufferSize append_cap n dls ops (it : item O) (src : W) s ps :
  content = content_of origin -> Z.of_nat (length content) <= MaxInt64 -> or_Size src = Z.of_nat (length content) ->
  (forall k, (k < append_cap k)%nat) -> sched_bounds cfg BufferSize (Z.of_nat (length content)) ->
  ready content_of content it -> downloader_origin dls it = Some origin -> Forall (op_ok (Z.of_nat (length content))) ops ->
  rtc par_step (Downloaders_New it src, sched_goroutines cfg BufferSize append_cap n ops) (s, ps) ->
  ready content_of content (sd_item s) /\
  (forall c r, sd_chans s !! c = Some (r, Some None) -> req_ok (Z.of_nat (length content)) r -> sd_cancelled s = false ->
    fd_ReadAt (Z.to_nat (Size r)) (Pos r) (sd_item s) = (slice (Pos r) (Pos r + Size r) content, None, sd_item s)).
Proof.
  intros Hcont Hmax Hsrc Hcap Hb Hit Hd Hops Hr. assert (Hsz : InfoSize (it_info it) = Z.of_nat (length content)) by apply Hit.
  rewrite <- Hsz in Hb, Hops. pose proof (ready_serves content_of content it Hmax Hit) as Hserve. subst content.
  pose proof (fetched_inv content_of dls origin cfg BufferSize append_cap it n ops src s ps Hcap Hb Hserve Hd ltac:(by rewrite Hsz) Hops Hr) as Hs.
  pose proof (fetched_only _ _ _ _ _ Hs) as Hf.
  destruct (fetches_ready content_of (content_of origin) Hmax _ _ Hf Hit) as [Hready _]. split; [done|]. intros c r Hc Hreq Hcl.
  pose proof (fetched_answers _ _ _ _ _ c r Hs) as Ha. rewrite Hsz, (clip_request _ r Hmax Hreq) in Ha. specialize (Ha Hmax Hc Hreq Hcl). unfold req_ok in Hreq.
  destruct (read_present (content_of origin) (sd_item s) (Z.to_nat (Size r)) (Pos r)) as [Hread _]; [apply Hready..|lia|lia|apply Hready| |].
  - rewrite Z2Nat.id by lia. by destruct r.
  - rewrite Hread, Z2Nat.id by lia. done.
Qed.

(** C1. cached_bytes_are_the_origins: the whole path of a download.  An opened
    item, the scheduler with its goroutines in any interleaving, the copying of
    blocks, the sequential chunk reader with any chunk sizes, the adapter and an
    origin that keeps to its contract, with any errors of it: the item stays sound
    in any case (what it trusts are the bytes of the origin), and as long as nobody
    has called [Close], once a request was told that it succeeded a read of its
    range in the file gives exactly the bytes of the origin.  [Close] tells the
    requests that still wait that they succeeded, without their range
    ([scheduler_Close_reports_success]). *)
Theorem cached_bytes_are_the_origins {W R O} `{SourceObject W R O} `{!ReaderOK W R} `{!ReaderProgress W R} `{!RangeSeeker W R}
    (content_of : O -> list byte) (obj : sourceObject O) content `{!SourceObjectOK W R O (so_origin obj) content} `{!RangeSeekerOK W R content}
    initial limit rounds block cfg BufferSize append_cap n dls ops (it : item O) (src : W) s ps :
  content = content_of (so_origin obj) -> MetaSize (so_meta obj) = Z.of_nat (length content) -> Z.of_nat (length content) <= MaxObject ->
  (initial = -1 \/ 0 < initial <= MaxChunk) -> (limit = -1 \/ initial <= limit) ->
  (forall k, (k < append_cap k)%nat) -> sched_bounds cfg BufferSize (Z.of_nat (length content)) ->
  ready content_of content it -> downloader_origin dls it = Some (so_origin obj) -> Forall (op_ok (Z.of_nat (length content))) ops ->
  let O1 := chunk_Origin (H0 := sourceObject_Object obj) initial limit rounds block in
  rtc par_step (Downloaders_New it src, sched_goroutines (H0 := O1) cfg BufferSize append_cap n ops) (s, ps) ->
  ready content_of content (sd_item s) /\
  (forall c r, sd_chans s !! c = Some (r, Some None) -> req_ok (Z.of_nat (length content)) r -> sd_cancelled s = false ->
    fd_ReadAt (Z.to_nat (Size r)) (Pos r) (sd_item s) = (slice (Pos r) (Pos r + Size r) content, None, sd_item s)).
Proof.
  intros Hcont Hmeta Hmax Hi Hl Hcap Hb Hit Hd Hops O1 Hr. pose proof (max_object content Hmax) as Hmax'.
  pose proof (sourceObject_OK obj content Hmeta Hmax') as Hobj.
  by eapply (download_path content_of (so_origin obj) content O1 (chunk_OriginOK (H0 := sourceObject_Object obj) content Hmax initial limit rounds block Hi Hl)).
Qed.

(** Chunks of four bytes and more read in blocks of three; the origin's stream
    gives one to four bytes at a time.  Five bytes are asked for at offset 2. *)
Definition pipe_item : item unit := set_object (Some 0%nat) (set_dls [(0, 0)]%nat (set_objects [mkSourceObject tt (mkMetadata 10 "v1" zeroTime "")] (demo_item 10 []))).
Definition pipe_object : sourceObject unit := mkSourceObject tt (mkMetadata 10 "v1" zeroTime "").
Definition pipe_Origin : Origin script := chunk_Origin (H0 := sourceObject_Object pipe_object) 4 (-1) 20 3.
Definition pipe_start : par (sched (item unit) script) :=
  (Downloaders_New pipe_item (mkScript [(3, None); (0, None); (2, None)]%nat), sched_goroutines (H0 := pipe_Origin) demo_cfg 0 demo_cap 1 [OpDownload (mkRange 2 5)]).
Definition pipe_par : par (sched (item unit) script) := par_exec (0%nat :: replicate 40 1%nat) pipe_start.

Lemma pipe_ready : ready (fun _ : unit => demo_content) demo_content pipe_item.
Proof.
  split; cbn; try done; [|by intros d [= <-]]. split; cbn; try done.
  - split; [by apply wf_nil|]. intros x Hx. by apply Exists_nil in Hx.
  - intros _. by eexists.
Qed.

Lemma cached_bytes_are_the_origins_witness :
  sd_chans (fst pipe_par) = [(mkRange 2 5, Some None)] /\
  fd_ReadAt 5 2 (sd_item (fst pipe_par)) = (slice 2 7 demo_content, None, sd_item (fst pipe_par)).
Proof.
  assert (Hc : sd_chans (fst pipe_par) = [(mkRange 2 5, Some None)]) by (vm_compute; reflexivity). split; [exact Hc|].
  destruct (cached_bytes_are_the_origins (fun _ : unit => demo_content) pipe_object demo_content 4 (-1) 20 3 demo_cfg 0 demo_cap 1 0
    [OpDownload (mkRange 2 5)] pipe_item (mkScript [(3, None); (0, None); (2, None)]%nat) (fst pipe_par) (snd pipe_par)) as [_ Hread].
  - reflexivity.
  - reflexivity.
  - cbn. unfold MaxObject. lia.
  - unfold MaxChunk. lia.
  - by left.
  - exact demo_cap_ok.
  - unfold sched_bounds, minWindow, MaxInt64. cbn. lia.
  - exact pipe_ready.
  - reflexivity.
  - repeat constructor; cbn; lia.
  - rewrite <- surjective_pairing. unfold pipe_par, pipe_start. apply par_exec_steps.
  - apply (Hread 0%nat (mkRange 2 5)); [by rewrite Hc|unfold req_ok; cbn; lia|vm_compute; reflexivity].
Defined.

(** The same with an HTTP server for the origin: [o] was opened on the
    representation [v], which has a strong validator. *)
Corollary cached_http_bytes {W R} `{HTTPServerOK W R} `{!ReaderProgress W R} `{!RangeSeeker W R} (o : HttpSource.Object) v `{!RangeSeekerOK W R (v_content v)} ctx
    initial limit rounds block cfg BufferSize append_cap n dls ops (it : item HttpSource.Object) (src : W) s ps :
  opened_on o v -> v_size v <= MaxObject ->
  (initial = -1 \/ 0 < initial <= MaxChunk) -> (limit = -1 \/ initial <= limit) ->
  (forall k, (k < append_cap k)%nat) -> sched_bounds cfg BufferSize (v_size v) ->
  ready (fun _ => v_content v) (v_content v) it -> downloader_origin dls it = Some o -> Forall (op_ok (v_size v)) ops ->
  let O1 := chunk_Origin (H0 := @sourceObject_Object W R _ _ (http_SourceObject ctx) (mkSourceObject o (ho_meta o))) initial limit rounds block in
  rtc par_step (Downloaders_New it src, sched_goroutines (H0 := O1) cfg BufferSize append_cap n ops) (s, ps) ->
  forall c r, sd_chans s !! c = Some (r, Some None) -> req_ok (v_size v) r -> sd_cancelled s = false ->
    fd_ReadAt (Z.to_nat (Size r)) (Pos r) (sd_item s) = (slice (Pos r) (Pos r + Size r) (v_content v), None, sd_item s).
Proof.
  intros Ho Hmax Hi Hl Hcap Hb Hit Hd Hops O1 Hr. pose proof (max_object (v_content v) Hmax) as Hmax'.
  pose proof (http_origin_OK ctx o v Ho Hmax') as Hsrc. assert (Hsize : MetaSize (ho_meta o) = v_size v) by apply Ho.
  pose proof (@sourceObject_OK W R _ _ (http_SourceObject ctx) (mkSourceObject o (ho_meta o)) (v_content v) _ Hsrc Hsize Hmax') as Hobj.
  by eapply (download_path (fun _ => v_content v) o (v_content v) O1 (chunk_OriginOK (Hok := Hobj) (v_content v) Hmax initial limit rounds block Hi Hl)).
Qed.
