(* ===== verification/Cache.v ===== *)
(** * The cache (src/cache/cache.go)

    The map of items, opening by key, the cleaner's passes over the items (age,
    quota, failed resets) and the statistics.  The operations run here one after
    the other, on the items of [Item]; what their interleaving does to the map
    and to the locks of the cache is the subject of [CacheLocks]. *)
From stdpp Require Import base numbers list gmap strings sorting.
From Stdlib Require Import ZArith Lia Init.Byte.
From S2P Require Import Prelude.
From S2P Require Import Ranges.
From S2P Require Import SourceObject.
From S2P Require Import Interleave.
From S2P Require Import Options.
From S2P Require Import Item.

Local Open Scope Z_scope.
Local Open Scope go_scope.
Local Open Scope list_scope.

(** ** State *)

(** [c_gone] are the items the map has lost, by their key: an item is reached by
    whoever still points to it, its files by the next item of that key.  [c_du] is
    what the coming calls of [diskspace.New] say, the bytes available ([None]: an
    error). *)
Record cache (O : Type) := mkCache {
  c_items : gmap string (item O);
  c_gone : gmap string (item O);
  c_failedResets : gmap string error;
  c_closed : bool;
  c_closeErr : option error;
  c_du : list (option Z);
  c_now : Z;
}.
Arguments mkCache {O}. Arguments c_items {O}. Arguments c_gone {O}. Arguments c_failedResets {O}.
Arguments c_closed {O}. Arguments c_closeErr {O}. Arguments c_du {O}. Arguments c_now {O}.

Record Stats := mkStats { StatsItems : Z; OpenItems : Z; CachedBytes : Z }.

(** What the cleaner knows of an item when it plans. *)
Record cacheCandidate := mkCandidate {
  cd_key : string;
  cd_atime : Z;
  cd_size : Z;
  cd_opens : Z;
  cd_grace : bool;
}.

Definition cd_cleared (cd : cacheCandidate) : cacheCandidate := mkCandidate (cd_key cd) (cd_atime cd) 0 (cd_opens cd) (cd_grace cd).

(** The order in which [range] visits the keys of a map, and [sort.Slice], which
    does not keep the order of equal elements. *)
Class GoOrder := {
  range_keys : forall V, gmap string V -> list string;
  sort_Slice : (cacheCandidate -> cacheCandidate -> bool) -> list cacheCandidate -> list cacheCandidate;
}.
Class GoOrderOK `{GoOrder} := {
  range_keys_ok : forall V (m : gmap string V), range_keys V m ≡ₚ (map_to_list m).*1;
  sort_Slice_perm : forall less l, sort_Slice less l ≡ₚ l;
  sort_Slice_sorted : forall (f : cacheCandidate -> Z) l,
    StronglySorted (fun a b => f a <= f b) (sort_Slice (fun a b => f a <? f b) l);
}.

Section updates.
Context {O : Type}.
Implicit Types c : cache O.
Definition c_set_items items c : cache O := mkCache items (c_gone c) (c_failedResets c) (c_closed c) (c_closeErr c) (c_du c) (c_now c).
Definition c_set_gone gone c : cache O := mkCache (c_items c) gone (c_failedResets c) (c_closed c) (c_closeErr c) (c_du c) (c_now c).
Definition c_set_failed failed c : cache O := mkCache (c_items c) (c_gone c) failed (c_closed c) (c_closeErr c) (c_du c) (c_now c).
Definition c_set_closed closed c : cache O := mkCache (c_items c) (c_gone c) (c_failedResets c) closed (c_closeErr c) (c_du c) (c_now c).
Definition c_set_closeErr err c : cache O := mkCache (c_items c) (c_gone c) (c_failedResets c) (c_closed c) err (c_du c) (c_now c).
Definition c_set_du du c : cache O := mkCache (c_items c) (c_gone c) (c_failedResets c) (c_closed c) (c_closeErr c) du (c_now c).

(** [delete(c.items, key)]. *)
Definition c_delete (key : string) c : cache O :=
  match c_items c !! key with
  | Some it => c_set_gone (<[key := it]> (c_gone c)) (c_set_items (delete key (c_items c)) c)
  | None => c
  end.
End updates.

(** ** The cleaner *)
Section cleaner.
Context {O : Type} `{GoOrder} (opt : Options).
Implicit Types c : cache O.

(** [item.resetForSpace()] of the item under [key]. *)
Definition reset (key : string) c : (bool * Z * option error) * cache O :=
  match c_items c !! key with
  | Some it =>
      match run_locked resetForSpace_locked it with
      | Some (res, it) => (res, c_set_items (<[key := it]> (c_items c)) c)
      | None => ((false, 0, None), c)
      end
  | None => ((false, 0, None), c)
  end.

Definition candidate_of (key : string) (it : item O) : cacheCandidate :=
  mkCandidate key (InfoATime (it_info it)) (Ranges_Size (InfoRs (it_info it))) (it_opens it) (it_graceTimer it).

Definition snapshotCandidates c : list cacheCandidate * Z :=
  let items := omap (fun key => candidate_of key <$> c_items c !! key) (range_keys _ (c_items c)) in
  (items, fold_left (fun used cd => used +! cd_size cd) items 0).

Definition minFreeSpaceQuotaOK c : bool * cache O :=
  if CacheMinFreeSpace opt <=? 0 then (true, c)
  else
    match c_du c with
    | Some available :: du => (CacheMinFreeSpace opt <=? available, c_set_du du c)
    | du => (true, c_set_du (drop 1 du) c)
    end.

Definition quotasOK (used : Z) c : bool * cache O :=
  let maxSizeOK := (CacheMaxSize opt <=? 0) || (used <=? CacheMaxSize opt) in
  if maxSizeOK then minFreeSpaceQuotaOK c else (false, c).

Definition removeUnused (key : string) c : (bool * Z) * cache O :=
  let '(removed, freed, err, c) := reset key c in
  match err with
  | Some _ => ((false, 0), c)
  | None => if (removed : bool) then ((true, freed), c_delete key c) else ((false, 0), c)
  end.

Definition haveQuotas : bool := (0 <? CacheMaxSize opt) || (0 <? CacheMinFreeSpace opt).

Definition rememberFailedReset (key : string) (err : error) c : cache O :=
  c_set_failed (<[key := err]> (c_failedResets c)) c.

(** The first loop of [clean]: unused items not accessed for too long. *)
Fixpoint clean_aged (cutoff : Z) (items : list cacheCandidate) (used : Z) c : list cacheCandidate * Z * cache O :=
  match items with
  | [] => ([], used, c)
  | cd :: items =>
      let '(cd, used, c) :=
        if (cd_opens cd =? 0) && negb (cd_grace cd) && (cd_atime cd <? cutoff) then
          let '((removed, freed), c) := removeUnused (cd_key cd) c in
          if (removed : bool) then (cd_cleared cd, used -! freed, c) else (cd, used, c)
        else (cd, used, c) in
      let '(items, used, c) := clean_aged cutoff items used c in
      (cd :: items, used, c)
  end.

(** The second: unused items, oldest first, while over quota. *)
Fixpoint clean_unused (items : list cacheCandidate) (used : Z) c : list cacheCandidate * Z * cache O :=
  match items with
  | [] => ([], used, c)
  | cd :: rest =>
      let '(ok, c) := quotasOK used c in
      if ok then (items, used, c)
      else
        let '(cd, used, c) :=
          if (cd_size cd =? 0) || negb (cd_opens cd =? 0) || cd_grace cd then (cd, used, c)
          else
            let '((removed, freed), c) := removeUnused (cd_key cd) c in
            if (removed : bool) then (cd_cleared cd, used -! freed, c) else (cd, used, c) in
        let '(rest, used, c) := clean_unused rest used c in
        (cd :: rest, used, c)
  end.

(** The third: the contents of open items too. *)
Fixpoint clean_open (items : list cacheCandidate) (used : Z) c : cache O :=
  match items with
  | [] => c
  | cd :: items =>
      let '(ok, c) := quotasOK used c in
      if ok then c
      else if cd_size cd =? 0 then clean_open items used c
      else
        let '(removed, freed, err, c) := reset (cd_key cd) c in
        let used := used -! freed in
        match err with
        | Some err => clean_open items used (rememberFailedReset (cd_key cd) err c)
        | None => clean_open items used (if (removed : bool) then c_delete (cd_key cd) c else c)
        end
  end.

Fixpoint retry_resets (keys : list string) c : cache O :=
  match keys with
  | [] => c
  | key :: keys =>
      let '(removed, _, err, c) := reset key c in
      let c := if (removed : bool) then c_delete key c else c in
      let c :=
        match err with
        | Some e => if IsNoSpace err then c_set_failed (<[key := e]> (c_failedResets c)) c
                    else c_set_failed (delete key (c_failedResets c)) c
        | None => c_set_failed (delete key (c_failedResets c)) c
        end in
      retry_resets keys c
  end.

(** Resets that failed are tried again; those without an item are forgotten. *)
Definition retryFailedResets c : cache O :=
  let keys := filter (fun key => is_Some (c_items c !! key)) (range_keys _ (c_failedResets c)) in
  retry_resets keys (c_set_failed (filter (fun kv => is_Some (c_items c !! kv.1)) (c_failedResets c)) c).

(** The flags of the kick protocol, cleared at the end, are in [CacheLocks]. *)
Definition clean c : cache O :=
  let '(items, used) := snapshotCandidates c in
  let '(items, used, c) :=
    if 0 <? CacheMaxAge opt then clean_aged (c_now c -! CacheMaxAge opt) items used c else (items, used, c) in
  let '(ok, c) := quotasOK used c in
  let c :=
    if ok then c
    else
      let items := sort_Slice (fun a b => cd_atime a <? cd_atime b) items in
      let '(items, used, c) := clean_unused items used c in
      clean_open items used c in
  if haveQuotas then retryFailedResets c else c.

(** ** Statistics *)
Definition stats_add (st : Stats) (it : item O) : Stats :=
  mkStats (StatsItems st) (if it_opens it =? 0 then OpenItems st else OpenItems st +! 1)
    (CachedBytes st +! Ranges_Size (InfoRs (it_info it))).

Definition Cache_Stats c : Stats :=
  let items := omap (fun key => c_items c !! key) (range_keys _ (c_items c)) in
  fold_left stats_add items (mkStats (Z.of_nat (length items)) 0 0).
End cleaner.

(** ** Resets of an item on a working system *)
Section resets.
Context {O : Type}.
Implicit Types s : item O.

Definition unused s : bool := (it_opens s =? 0) && negb (it_graceTimer s).
Definition held s : bool := it_graceTimer s || (0 <? it_pendingAccesses s).
Definition item_size s : Z := Ranges_Size (InfoRs (it_info s)).

(** What only the cleaner looks at. *)
Record same_use s s' : Prop := {
  su_opens : it_opens s' = it_opens s;
  su_grace : it_graceTimer s' = it_graceTimer s;
  su_pending : it_pendingAccesses s' = it_pendingAccesses s;
  su_atime : InfoATime (it_info s') = InfoATime (it_info s);
  su_faults : it_faults s' = it_faults s;
}.

Lemma same_use_refl s : same_use s s.
Proof. by split. Qed.
Lemma same_use_trans s1 s2 s3 : same_use s1 s2 -> same_use s2 s3 -> same_use s1 s3.
Proof. intros [] []. split; congruence. Qed.

(** A step that ends without an error and leaves the item's use and size alone. *)
Definition calm {A} (m : locked (item O) A) : Prop := forall s, it_faults s = [] ->
  exists a s', run_locked m s = Some (a, s') /\ same_use s s' /\ it_info s' = it_info s.
Definition succeeds (m : locked (item O) (option error)) : Prop := forall s, it_faults s = [] ->
  exists s', run_locked m s = Some (None, s') /\ same_use s s' /\ it_info s' = it_info s.

Lemma syscall_succeeds : succeeds syscall.
Proof.
  intros s Hs. exists s. unfold run_locked, syscall, with_state, pop_fault. rewrite Hs. by split_and!; [|apply same_use_refl|].
Qed.

Lemma modify_calm f : (forall s, same_use s (f s) /\ it_info (f s) = it_info s) -> calm (modify f).
Proof. intros Hf s Hs. exists tt, (f s). split; [done|apply Hf]. Qed.

(** Runs the first step of a sequence by a lemma about it. *)
Ltac no_faults := repeat match goal with H : same_use ?a ?b |- it_faults ?b = [] => rewrite (su_faults _ _ H) end; assumption.
Ltac run_step L :=
  rewrite run_bind;
  match goal with
  | |- context [run_locked _ ?s] =>
      let s' := fresh "s" in let Hrun := fresh "Hrun" in let Hu := fresh "Hu" in let Hi := fresh "Hi" in
      first [ destruct (L s) as (? & s' & Hrun & Hu & Hi); [no_faults|]
            | destruct (L s) as (s' & Hrun & Hu & Hi); [no_faults|] ];
      rewrite Hrun; clear Hrun; cbv beta iota
  end.

Lemma closeDownloaders_succeeds dls : succeeds (closeDownloaders dls).
Proof.
  intros s Hs. unfold closeDownloaders. do 3 (rewrite run_bind; cbn [run_locked modify unlock_until run_proc]).
  set (s1 := set_dls _ _). destruct (syscall_succeeds s1 Hs) as (s' & Hrun & Hu & Hi). exists s'. split; [exact Hrun|].
  split; [|by rewrite Hi]. destruct Hu. by split.
Qed.

Lemma closeFD_succeeds : succeeds closeFDLocked.
Proof.
  intros s Hs. unfold closeFDLocked. rewrite run_bind. cbn [run_locked get run_proc]. destruct (it_fd s).
  - run_step syscall_succeeds. eexists. split; [done|]. split; [destruct Hu; by split|done].
  - exists s. split; [done|]. by split; [apply same_use_refl|].
Qed.

Lemma os_Remove_calm {A} (file : item O -> option A) remove :
  (forall s, same_use s (remove s) /\ it_info (remove s) = it_info s) -> calm (os_Remove file remove).
Proof.
  intros Hr s Hs. unfold run_locked, os_Remove, with_state.
  destruct (it_rmFaults s) as [|[[n err]|] fs]; [|by do 2 eexists|].
  - destruct (file _); [|by do 2 eexists].
    set (s1 := set_rmFaults _ s). destruct (Hr s1) as [Hu Hi]. do 2 eexists. split; [done|]. split; [|by rewrite Hi]. destruct Hu. by split.
  - destruct (file _); [|by do 2 eexists].
    set (s1 := set_rmFaults _ s). destruct (Hr s1) as [Hu Hi]. do 2 eexists. split; [done|]. split; [|by rewrite Hi]. destruct Hu. by split.
Qed.

Lemma Remove_data_calm : calm os_Remove_data.
Proof. apply os_Remove_calm. intros s. by split; [split|]. Qed.
Lemma Remove_meta_calm : calm os_Remove_meta.
Proof. apply os_Remove_calm. intros s. by split; [split|]. Qed.

Lemma succeeds_bind (m k : locked (item O) (option error)) : succeeds m -> succeeds k ->
  succeeds (err ← m; match err with Some err => mret (Some err) | None => k end).
Proof.
  intros Hm Hk s Hs. run_step Hm. rename s0 into s1.
  destruct (Hk s1) as (s2 & Hrun & Hu2 & Hi2); [destruct Hu; congruence|]. exists s2. split; [exact Hrun|].
  split; [by eapply same_use_trans|congruence].
Qed.

Lemma succeeds_check msg m k : succeeds m -> succeeds k -> succeeds (check msg m k).
Proof.
  intros Hm Hk s Hs. unfold check. run_step Hm. rename s0 into s1.
  destruct (Hk s1) as (s2 & Hrun & Hu2 & Hi2); [destruct Hu; congruence|]. exists s2. split; [exact Hrun|].
  split; [by eapply same_use_trans|congruence].
Qed.

Lemma modify_succeeds f : (forall s, same_use s (f s) /\ it_info (f s) = it_info s) -> succeeds (modify f;; mret None).
Proof. intros Hf s Hs. exists (f s). split; [done|apply Hf]. Qed.

Lemma OpenFile_succeeds : succeeds os_OpenFile_data.
Proof. apply succeeds_bind; [apply syscall_succeeds|]. apply modify_succeeds. intros s. by split; [split|]. Qed.
Lemma Truncate_succeeds size : succeeds (fd_Truncate size).
Proof. apply succeeds_bind; [apply syscall_succeeds|]. apply modify_succeeds. intros s. by split; [split|]. Qed.
Lemma saveLocked_succeeds : succeeds saveLocked.
Proof.
  unfold saveLocked. repeat (apply succeeds_check; [apply syscall_succeeds|]). apply modify_succeeds. intros s. by split; [split|].
Qed.
Lemma createDownloaders_calm : calm createDownloadersLocked.
Proof.
  apply modify_calm. intros s. destruct (it_downloaders s), (it_object s); try (by split; [split|]).
  destruct (_ <=? _); by split; [split|].
Qed.

(** On a working system a reset always goes through: an item out of use is
    emptied and given up, one that is held is left alone, any other is emptied in
    place. *)
Lemma reset_calm s : it_faults s = [] -> exists s',
  run_locked resetForSpace_locked s = Some (
    if unused s then (true, item_size s, None)
    else if held s || ((item_size s =? 0) && negb (it_beingReset s)) then (false, 0, None)
    else (false, item_size s, None), s') /\
  it_faults s' = [] /\ it_opens s' = it_opens s /\ it_graceTimer s' = it_graceTimer s /\
  it_pendingAccesses s' = it_pendingAccesses s /\
  (if negb (unused s) && (held s || ((item_size s =? 0) && negb (it_beingReset s))) then (s' = s) else (item_size s' = 0)).
Proof.
  intros Hs. unfold resetForSpace_locked. rewrite run_bind. cbn [run_locked get run_proc id].
  fold (unused s) (held s) (item_size s). destruct (unused s) eqn:Hu.
  { rewrite run_bind. assert (Hdls : exists s1, run_locked (match it_downloaders s with Some dls => closeDownloaders dls | None => mret None end) s
        = Some (None, s1) /\ same_use s s1 /\ it_info s1 = it_info s).
    { destruct (it_downloaders s) as [dls|]; [by apply closeDownloaders_succeeds|]. exists s. by split_and!; [|apply same_use_refl|]. }
    destruct Hdls as (s1 & Hrun1 & Hu1 & Hi1). rewrite Hrun1. cbv beta iota.
    run_step closeFD_succeeds. run_step Remove_data_calm. run_step Remove_meta_calm.
    rewrite run_bind. cbn [run_locked modify run_proc mret locked_ret]. eexists. split; [done|].
    assert (Huse : same_use s s3) by eauto using same_use_trans. destruct Huse. cbn. split_and!; try congruence; try done. }
  destruct (held s) eqn:Hh; [by exists s; split_and!|]. cbn [orb].
  change (Ranges_Size (InfoRs (it_info s))) with (item_size s).
  destruct ((item_size s =? 0) && negb (it_beingReset s)) eqn:Hz; [by exists s; split_and!|].
  unfold resetForSpace_inUse. rewrite run_bind. cbn [run_locked modify run_proc].
  set (s0 := set_beingReset true s). assert (Hu0 : same_use s s0) by by split. assert (Hi0 : it_info s0 = it_info s) by done. clearbody s0.
  rewrite run_bind. cbn [run_locked get run_proc]. rewrite run_bind.
  assert (Hdls : exists s1, run_locked (match it_downloaders s0 with Some dls => closeDownloaders dls | None => mret None end) s0
      = Some (None, s1) /\ same_use s0 s1 /\ it_info s1 = it_info s0).
  { destruct (it_downloaders s0) as [dls|]; [apply closeDownloaders_succeeds; no_faults|]. exists s0. by split_and!; [|apply same_use_refl|]. }
  destruct Hdls as (s1 & Hrun1 & Hu1 & Hi1). rewrite Hrun1. cbv beta iota. rewrite run_bind. cbn [run_locked get run_proc]. rewrite run_bind.
  assert (Hfd : exists s2, run_locked (if it_fd s1 then cerr ← syscall; modify (set_fd false);; mret cerr
      else mret None) s1 = Some (None, s2) /\ same_use s1 s2 /\ it_info s2 = it_info s1).
  { destruct (it_fd s1); [|exists s1; by split_and!; [|apply same_use_refl|]].
    run_step syscall_succeeds. eexists. split; [done|]. split; [destruct Hu2; by split|done]. }
  destruct Hfd as (s2 & Hrun2 & Hu2 & Hi2). rewrite Hrun2. cbv beta iota. rewrite run_bind. cbn [run_locked get run_proc].
  run_step Remove_data_calm. run_step Remove_meta_calm. rewrite run_bind. cbn [run_locked modify run_proc].
  set (s5 := set_Rs [] s4). assert (Hu5 : same_use s4 s5) by by split. assert (Hsz5 : item_size s5 = 0) by done.
  assert (Hfreed : Ranges_Size (InfoRs (it_info s2)) = item_size s) by (unfold item_size; congruence). rewrite Hfreed. clearbody s5.
  run_step @syscall_succeeds. run_step OpenFile_succeeds. rewrite run_bind. cbn [run_locked get run_proc].
  run_step (Truncate_succeeds (InfoSize (it_info s7))). run_step saveLocked_succeeds. run_step createDownloaders_calm.
  rewrite run_bind. cbn [run_locked modify run_proc]. eexists. split; [reflexivity|].
  assert (Huse : same_use s s10) by eauto 20 using same_use_trans. destruct Huse. cbn.
  split_and!; try congruence. unfold item_size in *. cbn. congruence.
Qed.
End resets.

(** ** The cleaner on a working system *)
Section cleaning.
Context {O : Type} `{GoOrderOK} (opt : Options).
Implicit Types c : cache O.
Implicit Types m : gmap string (item O).

Definition total m : Z := map_fold (fun _ it acc => item_size it + acc) 0 m.

(** Nothing fails, and sizes are sizes. *)
Definition working m : Prop := map_Forall (fun _ it => it_faults it = [] /\ 0 <= item_size it) m.

Lemma total_empty : total ∅ = 0.
Proof. apply map_fold_empty. Qed.

Lemma total_insert m key it : m !! key = None -> total (<[key := it]> m) = item_size it + total m.
Proof. intros Hk. unfold total. rewrite map_fold_insert_L; [done| |done]. intros. lia. Qed.

Lemma total_delete m key it : m !! key = Some it -> total (delete key m) = total m - item_size it.
Proof.
  intros Hk. rewrite <- (insert_delete_id m key it Hk) at 2. rewrite total_insert by apply lookup_delete_eq. lia.
Qed.

Lemma total_replace m key it it' : m !! key = Some it -> total (<[key := it']> m) = total m - item_size it + item_size it'.
Proof.
  intros Hk. rewrite <- (insert_delete_eq m key it'). rewrite total_insert by apply lookup_delete_eq. rewrite (total_delete _ _ _ Hk). lia.
Qed.

Lemma total_nonneg m : working m -> 0 <= total m.
Proof.
  induction m as [|key it m Hk IH] using map_ind; intros Hw; [by rewrite total_empty|].
  rewrite total_insert by done. apply map_Forall_insert in Hw as [[_ Hs] Hw]; [|done]. specialize (IH Hw). lia.
Qed.

Lemma total_mono m m' : working m' -> (forall key it, m !! key = Some it -> item_size it <> 0 -> m' !! key = Some it) -> total m <= total m'.
Proof.
  revert m'. induction m as [|key it m Hk IH] using map_ind; intros m' Hw Hsub; [rewrite total_empty; by apply total_nonneg|].
  rewrite total_insert by done. destruct (decide (item_size it = 0)) as [->|Hne].
  - apply IH; [done|]. intros k x Hkx. apply Hsub. rewrite lookup_insert_ne; [done|]. intros ->. congruence.
  - pose proof (Hsub key it (lookup_insert_eq _ _ _) Hne) as Hk'. rewrite <- (insert_delete_id m' key it Hk'), total_insert by apply lookup_delete_eq.
    specialize (IH (delete key m')). enough (total m <= total (delete key m')) by lia. apply IH; [by apply map_Forall_delete|].
    intros k x Hkx Hx. assert (Hne' : key <> k) by (intros ->; congruence). rewrite lookup_delete_ne by done. apply Hsub; [by rewrite lookup_insert_ne|done].
Qed.

Lemma working_insert m key it : working m -> it_faults it = [] -> 0 <= item_size it -> working (<[key := it]> m).
Proof. intros. by apply map_Forall_insert_2. Qed.
Lemma working_delete m key : working m -> working (delete key m).
Proof. apply map_Forall_delete. Qed.

(** A reset frees what the item gives up. *)
Lemma reset_spec key c it : working (c_items c) -> c_items c !! key = Some it ->
  exists it', reset key c = ((unused it, item_size it - item_size it', None), c_set_items (<[key := it']> (c_items c)) c) /\
    it_faults it' = [] /\ it_opens it' = it_opens it /\ it_graceTimer it' = it_graceTimer it /\
    it_pendingAccesses it' = it_pendingAccesses it /\ 0 <= item_size it' <= item_size it /\
    (unused it = true -> item_size it' = 0) /\ (item_size it' <> 0 -> it' = it /\ held it = true) /\
    (unused it = false -> it' = it \/ held it = false).
Proof.
  intros Hw Hk. destruct (Hw key it Hk) as [Hf Hs]. destruct (reset_calm it Hf) as (it' & Hrun & Hf' & Ho & Hg & Hp & Hsz).
  exists it'. unfold reset. rewrite Hk, Hrun. destruct (unused it) eqn:Hu; cbn [negb andb] in Hsz.
  - rewrite Hsz, Z.sub_0_r. split_and!; (done || lia).
  - destruct (held it || ((item_size it =? 0) && negb (it_beingReset it))) eqn:Hh.
    + subst it'. rewrite Z.sub_diag. split_and!; try (done || lia); [|by left]. intros Hne. split; [done|].
      apply orb_true_iff in Hh as [|Hh]; [done|]. apply andb_true_iff in Hh as [?%Z.eqb_eq _]. lia.
    + rewrite Hsz, Z.sub_0_r. apply orb_false_iff in Hh as [Hh _]. split_and!; first [done | lia | by right].
Qed.

Lemma removeUnused_spec key c it : working (c_items c) -> c_items c !! key = Some it -> unused it = true ->
  exists c', removeUnused key c = ((true, item_size it), c') /\ c_items c' = delete key (c_items c) /\ c_failedResets c' = c_failedResets c /\
    c_now c' = c_now c.
Proof.
  intros Hw Hk Hu. destruct (reset_spec key c it Hw Hk) as (it' & Hr & _ & _ & _ & _ & _ & Hz & _ & _). specialize (Hz Hu).
  unfold removeUnused. rewrite Hr, Hz, Z.sub_0_r, Hu. eexists. split; [done|]. unfold c_delete. cbn. rewrite lookup_insert_eq. cbn.
  by rewrite delete_insert_eq.
Qed.

(** What the cleaner plans with: an entry with a size is an item of the map. *)
Definition cand_ok m (cd : cacheCandidate) : Prop := cd_size cd <> 0 -> exists it, m !! cd_key cd = Some it /\
  cd_size cd = item_size it /\ cd_opens cd = it_opens it /\ cd_grace cd = it_graceTimer it.

Context (maxSize : 0 < CacheMaxSize opt) (noMinFree : CacheMinFreeSpace opt <= 0).

Lemma quotasOK_spec used c : quotasOK opt used c = (used <=? CacheMaxSize opt, c).
Proof.
  unfold quotasOK, minFreeSpaceQuotaOK. rewrite (proj2 (Z.leb_gt (CacheMaxSize opt) 0)), (proj2 (Z.leb_le (CacheMinFreeSpace opt) 0)) by lia.
  cbn [orb]. by destruct (used <=? CacheMaxSize opt).
Qed.

Definition evictable (cd : cacheCandidate) : bool := negb (cd_size cd =? 0) && (cd_opens cd =? 0) && negb (cd_grace cd).
Definition mark (cd : cacheCandidate) : cacheCandidate := if evictable cd then cd_cleared cd else cd.
Definition evict (cds : list cacheCandidate) m : gmap string (item O) :=
  foldl (fun m cd => if evictable cd then delete (cd_key cd) m else m) m cds.

Lemma evict_cons cd cds m : evict (cd :: cds) m = evict cds (if evictable cd then delete (cd_key cd) m else m).
Proof. done. Qed.
Lemma mark_cons cd cds : mark <$> cd :: cds = (if evictable cd then cd_cleared cd else cd) :: (mark <$> cds).
Proof. done. Qed.

Lemma evict_lookup cds : forall m key,
  evict cds m !! key = if decide (key ∈ cd_key <$> filter (fun cd => evictable cd = true) cds) then None else m !! key.
Proof.
  induction cds as [|cd cds IH]; intros m key; cbn [evict foldl]; [by rewrite decide_False by apply not_elem_of_nil|].
  fold (evict cds). change (foldl _ ?m' cds) with (evict cds m'). rewrite IH. destruct (evictable cd) eqn:He.
  - rewrite filter_cons_True by done. cbn. destruct (decide (key ∈ cd_key <$> _)) as [Hin|Hni].
    + by rewrite decide_True by (by right).
    + destruct (decide (cd_key cd = key)) as [->|Hne].
      * rewrite lookup_delete_eq. by rewrite decide_True by left.
      * rewrite lookup_delete_ne by done. rewrite decide_False; [done|]. by intros [->|]%elem_of_cons.
  - by rewrite filter_cons_False by (by rewrite He).
Qed.

Lemma evictable_item m cd : cand_ok m cd -> evictable cd = true -> exists it, m !! cd_key cd = Some it /\ cd_size cd = item_size it /\ unused it = true.
Proof.
  unfold evictable. intros Hok He. apply andb_true_iff in He as [He Hg]. apply andb_true_iff in He as [Hs Ho].
  destruct Hok as (it & Hk & Hsz & Hop & Hgr); [by intros Hz; rewrite Hz in Hs|]. exists it. split_and!; [done..|].
  unfold unused. by rewrite <- Hop, <- Hgr, Ho, Hg.
Qed.

Lemma cand_ok_other m m' cd : m' !! cd_key cd = m !! cd_key cd -> cand_ok m cd -> cand_ok m' cd.
Proof. intros Hm Hok Hne. rewrite Hm. by apply Hok. Qed.

Lemma keys_unique (cd : cacheCandidate) (cds : list cacheCandidate) : NoDup (cd_key <$> cd :: cds) -> forall u, u ∈ cds -> cd_key u <> cd_key cd.
Proof. cbn. intros Hnd u Hu He. apply NoDup_cons in Hnd as [Hni _]. apply Hni. rewrite <- He. by apply list_elem_of_fmap_2. Qed.

Lemma clean_unused_spec cds : forall c, working (c_items c) -> NoDup (cd_key <$> cds) -> Forall (cand_ok (c_items c)) cds ->
  0 <= total (c_items c) <= MaxInt64 ->
  exists pre post c', cds = pre ++ post /\
    clean_unused opt cds (total (c_items c)) c = ((mark <$> pre) ++ post, total (c_items c'), c') /\
    c_items c' = evict pre (c_items c) /\ c_failedResets c' = c_failedResets c /\ working (c_items c') /\
    0 <= total (c_items c') <= total (c_items c) /\ (post = [] \/ total (c_items c') <= CacheMaxSize opt) /\
    (forall p1 cd p2, pre = p1 ++ cd :: p2 -> CacheMaxSize opt < total (evict p1 (c_items c))).
Proof.
  induction cds as [|cd cds IH]; intros c Hw Hnd Hok Ht; cbn [clean_unused].
  { exists [], [], c. split_and!; try (done || lia || by left). by intros [] ? ?. }
  rewrite quotasOK_spec. destruct (Z.leb_spec (total (c_items c)) (CacheMaxSize opt)) as [Hle|Hgt].
  { exists [], (cd :: cds), c. split_and!; try (done || lia || by right). by intros [] ? ?. }
  pose proof (keys_unique _ _ Hnd) as Huniq. apply NoDup_cons in Hnd as [_ Hnd]. apply Forall_cons in Hok as [Hcd Hok].
  assert (Hev : (cd_size cd =? 0) || negb (cd_opens cd =? 0) || cd_grace cd = negb (evictable cd)).
  { unfold evictable. by destruct (cd_size cd =? 0), (cd_opens cd =? 0), (cd_grace cd). }
  rewrite Hev. destruct (evictable cd) eqn:He; cbn [negb].
  - destruct (evictable_item _ _ Hcd He) as (it & Hk & Hsz & Hu).
    destruct (removeUnused_spec (cd_key cd) c it Hw Hk Hu) as (c1 & Hr & Hi1 & Hf1 & _). rewrite Hr. cbv beta iota.
    pose proof (total_delete _ _ _ Hk) as Htd. destruct (Hw _ _ Hk) as [_ Hpos].
    assert (Hw1 : working (c_items c1)) by (rewrite Hi1; by apply working_delete).
    pose proof (total_nonneg _ Hw1) as Hnn. rewrite <- Hi1 in Htd. rewrite i64_id by i64_side. rewrite <- Htd.
    destruct (IH c1) as (pre & post & c' & -> & Hrun & Hi' & Hf' & Hw' & Ht' & Hp' & Hover); [done|done| |lia|].
    { eapply Forall_impl; [apply Forall_and; split; [exact Hok|apply Forall_forall; exact Huniq]|]. cbn.
      intros u [Hu1 Hu2]. eapply cand_ok_other; [|exact Hu1]. rewrite Hi1. by apply lookup_delete_ne. }
    exists (cd :: pre), post, c'. rewrite Hrun, evict_cons, mark_cons, He, <- Hi1. split_and!; try (done || lia || congruence).
    intros [|u p1] u' p2; [done|]. intros [= -> ->]. rewrite evict_cons, He, <- Hi1. by eapply Hover.
  - destruct (IH c Hw Hnd Hok Ht) as (pre & post & c' & -> & Hrun & Hi' & Hf' & Hw' & Ht' & Hp' & Hover).
    exists (cd :: pre), post, c'. rewrite Hrun, evict_cons, mark_cons, He. split_and!; try (done || lia).
    intros [|u p1] u' p2; [done|]. intros [= -> ->]. rewrite evict_cons, He. by eapply Hover.
Qed.

(** Items disappear, or are emptied when they are in use. *)
Definition after m m' : Prop := forall key it', m' !! key = Some it' ->
  m !! key = Some it' \/ is_Some (m !! key) /\ unused it' = false /\ item_size it' = 0.

Lemma after_refl m : after m m.
Proof. intros key it' Hk. by left. Qed.
Lemma after_trans m1 m2 m3 : after m1 m2 -> after m2 m3 -> after m1 m3.
Proof.
  intros H12 H23 key it' Hk. destruct (H23 key it' Hk) as [Hk2|([it2 Hk2] & Hu & Hz)]; [by apply H12|].
  right. split; [|done]. destruct (H12 key it2 Hk2) as [->|[? _]]; [by eexists|done].
Qed.
Lemma after_sub m m' : (forall key it', m' !! key = Some it' -> m !! key = Some it') -> after m m'.
Proof. intros Hs key it' Hk. left. by apply Hs. Qed.

(** What is left of an item that gives up its bytes: nothing of an unused one; one
    in use stays, without bytes, unless it is held. *)
Definition gives_up (it : item O) (left : option (item O)) : Prop :=
  if unused it then left = None
  else held it = false /\ exists it', left = Some it' /\ unused it' = false /\ item_size it' = 0.

(** Items stay as they are, but those that [why] gives a reason for. *)
Definition fate (why : string -> item O -> Prop) m m' : Prop :=
  forall key it, m !! key = Some it -> m' !! key = Some it \/ why key it /\ gives_up it (m' !! key).

Lemma fate_refl why m : fate why m m.
Proof. intros key it Hk. by left. Qed.

Lemma fate_trans (w1 w2 w : string -> item O -> Prop) m1 m2 m3 : fate w1 m1 m2 -> fate w2 m2 m3 -> after m2 m3 ->
  (forall key it, w1 key it -> w key it) -> (forall key it, m1 !! key = Some it -> m2 !! key = Some it -> w2 key it -> w key it) -> fate w m1 m3.
Proof.
  intros H12 H23 Haft Hw1 Hw2 key it Hk. destruct (H12 key it Hk) as [Hk2|[Hwhy Hg]].
  - destruct (H23 key it Hk2) as [|[Hwhy Hg]]; [by left|right]. split; [by apply Hw2|done].
  - right. split; [by apply Hw1|]. unfold gives_up in *. destruct (unused it).
    + destruct (m3 !! key) as [it3|] eqn:Hk3; [|done]. destruct (Haft key it3 Hk3) as [Hk2|[[? Hk2] _]]; congruence.
    + destruct Hg as (Hh & it2 & Hk2 & Hu2 & Hz2). split; [done|]. destruct (H23 key it2 Hk2) as [Hk3|[_ Hg]]; [by exists it2|].
      unfold gives_up in Hg. rewrite Hu2 in Hg. apply Hg.
Qed.

Lemma reset_and_drop_spec key c it : working (c_items c) -> c_items c !! key = Some it ->
  exists freed c1, reset key c = ((unused it, freed, None), c1) /\
    let c' := if unused it then c_delete key c1 else c1 in
    working (c_items c') /\ total (c_items c') = total (c_items c) - freed /\ 0 <= freed <= total (c_items c) /\
    c_failedResets c' = c_failedResets c /\
    (forall key', key' <> key -> c_items c' !! key' = c_items c !! key') /\
    after (c_items c) (c_items c') /\
    (forall it', c_items c' !! key = Some it' -> item_size it' <> 0 -> it' = it /\ held it = true) /\
    (c_items c' !! key = Some it \/ gives_up it (c_items c' !! key)).
Proof.
  intros Hw Hk. destruct (reset_spec key c it Hw Hk) as (it' & Hr & Hf' & Ho & Hg & _ & Hsz & Hz & Hh & Hheld). destruct (Hw _ _ Hk) as [_ Hpos].
  pose proof (total_delete _ _ _ Hk) as Htd. pose proof (total_nonneg _ (working_delete _ key Hw)) as Hnn.
  do 2 eexists. split; [exact Hr|]. destruct (unused it) eqn:Hu.
  - specialize (Hz eq_refl). unfold c_delete. cbn. rewrite lookup_insert_eq. cbn. rewrite delete_insert_eq. split_and!.
    + by apply working_delete.
    + lia.
    + lia.
    + lia.
    + done.
    + intros key' Hne. by rewrite lookup_delete_ne.
    + apply after_sub. intros key' it2. by intros [_ ?]%lookup_delete_Some.
    + intros it2. by rewrite lookup_delete_eq.
    + right. unfold gives_up. by rewrite Hu, lookup_delete_eq.
  - cbn. split_and!.
    + apply working_insert; [done..|lia].
    + rewrite (total_replace _ _ _ _ Hk). lia.
    + lia.
    + lia.
    + done.
    + intros key' Hne. by rewrite lookup_insert_ne.
    + intros key' it2 [[<- <-]|[_ Hk2]]%lookup_insert_Some; [|by left].
      destruct (decide (item_size it' = 0)) as [Hz0|Hnz]; [|left; by destruct (Hh Hnz) as [-> _]].
      right. split; [by eexists|]. split; [unfold unused in *; by rewrite Ho, Hg|done].
    + intros it2. rewrite lookup_insert_eq. intros [= <-] Hne. destruct (Hh Hne) as [-> ?]. done.
    + rewrite lookup_insert_eq. destruct (Hheld eq_refl) as [->|Hnh]; [by left|right]. unfold gives_up. rewrite Hu. split; [done|].
      exists it'. split; [done|]. split; [unfold unused in *; by rewrite Ho, Hg|]. destruct (decide (item_size it' = 0)); [done|].
      destruct (Hh n) as [_ ?]. congruence.
Qed.

(** Why the third loop resets an item: the bytes that are left then are over the
    quota, and of those it has been to only held items have any. *)
Definition reset_for (cds : list cacheCandidate) m (key : string) : Prop :=
  exists p1 cd p2 m1, cds = p1 ++ cd :: p2 /\ cd_key cd = key /\ cd_size cd <> 0 /\ CacheMaxSize opt < total m1 /\ after m m1 /\
    forall u it1, u ∈ p1 -> cd_size u <> 0 -> m1 !! cd_key u = Some it1 -> item_size it1 <> 0 -> held it1 = true.

Lemma clean_open_spec cds : forall c, working (c_items c) -> NoDup (cd_key <$> cds) -> Forall (cand_ok (c_items c)) cds ->
  0 <= total (c_items c) <= MaxInt64 ->
  let c' := clean_open opt cds (total (c_items c)) c in
  working (c_items c') /\ 0 <= total (c_items c') <= total (c_items c) /\ c_failedResets c' = c_failedResets c /\
  after (c_items c) (c_items c') /\ (forall key, key ∉ cd_key <$> cds -> c_items c' !! key = c_items c !! key) /\
  (total (c_items c') <= CacheMaxSize opt \/
   forall cd it', cd ∈ cds -> cd_size cd <> 0 -> c_items c' !! cd_key cd = Some it' -> item_size it' <> 0 -> held it' = true) /\
  fate (fun key _ => reset_for cds (c_items c) key) (c_items c) (c_items c').
Proof.
  induction cds as [|cd cds IH]; intros c Hw Hnd Hok Ht; cbn [clean_open].
  { split_and!; try done; try lia; [apply after_refl| |apply fate_refl]. right. intros cd it' Hin. by apply elem_of_nil in Hin. }
  rewrite quotasOK_spec. destruct (Z.leb_spec (total (c_items c)) (CacheMaxSize opt)) as [Hle|Hgt].
  { split_and!; try done; try lia; [apply after_refl|apply fate_refl]. }
  pose proof (keys_unique _ _ Hnd) as Huniq. pose proof Hnd as Hnd0. apply NoDup_cons in Hnd as [Hni Hnd]. apply Forall_cons in Hok as [Hcd Hok].
  destruct (Z.eqb_spec (cd_size cd) 0) as [Hz|Hnz].
  { destruct (IH c Hw Hnd Hok Ht) as (Hw' & Ht' & Hf' & Haft & Hoth & Hpost & Hfate). split_and!; try done; try lia.
    - intros key Hkey. apply Hoth. intros Hin. apply Hkey. by right.
    - destruct Hpost as [|Hpost]; [by left|]. right. intros u it' [->|Hu]%elem_of_cons; [done|by apply Hpost].
    - eapply (fate_trans (fun _ _ => False)); [apply fate_refl|exact Hfate|exact Haft|done|]. intros key it _ _ (p1 & u & p2 & m1 & -> & Hku & Hnz & Hm & Ha & Hheld).
      exists (cd :: p1), u, p2, m1. split_and!; try done. intros u1 it1 [->|Hin]%elem_of_cons; [done|by apply Hheld]. }
  destruct (Hcd Hnz) as (it & Hk & _). destruct (reset_and_drop_spec (cd_key cd) c it Hw Hk) as (freed & c1 & Hr & Hspec).
  rewrite Hr. set (c2 := if unused it then c_delete (cd_key cd) c1 else c1) in *.
  destruct Hspec as (Hw2 & Ht2 & Hfr & Hf2 & Hoth2 & Haft2 & Hown2 & Hfate2). rewrite i64_id by i64_side. rewrite <- Ht2.
  destruct (IH c2) as (Hw' & Ht' & Hf' & Haft & Hoth & Hpost & Hfate); [done|done| |lia|].
  { eapply Forall_impl; [apply Forall_and; split; [exact Hok|apply Forall_forall; exact Huniq]|]. cbn.
    intros u [Hu1 Hu2]. eapply cand_ok_other; [|exact Hu1]. by apply Hoth2. }
  split_and!; try done; try lia; try congruence.
  - by eapply after_trans.
  - intros key Hkey. rewrite Hoth by (intros Hin; apply Hkey; by right). apply Hoth2. intros ->. apply Hkey. by left.
  - destruct Hpost as [|Hpost]; [by left|]. right. intros u it' [->|Hu]%elem_of_cons; [|by apply Hpost].
    intros _. rewrite Hoth by done. intros Hit Hne. by destruct (Hown2 it' Hit Hne) as [-> ?].
  - eapply (fate_trans _ _ _ _ (c_items c2)); [|exact Hfate|exact Haft| |].
    + instantiate (1 := fun key _ => reset_for (cd :: cds) (c_items c) key). intros key it0 Hk0. destruct (decide (key = cd_key cd)) as [->|Hne].
      * rewrite Hk in Hk0. injection Hk0 as <-. destruct Hfate2 as [|Hg]; [by left|right]. split; [|done].
        exists [], cd, cds, (c_items c). split_and!; try done; [apply after_refl|]. intros u it1 Hin. by apply elem_of_nil in Hin.
      * left. by rewrite Hoth2.
    + done.
    + intros key it0 _ _ (p1 & u & p2 & m1 & -> & Hku & Hnz' & Hm & Ha & Hheld).
      exists (cd :: p1), u, p2, m1. split_and!; try done; [by eapply after_trans|]. intros u1 it1 [->|Hin]%elem_of_cons; [|by apply Hheld].
      intros _ Hk1 Hne1. destruct (Ha _ _ Hk1) as [Hk2|(_ & _ & ?)]; [|done]. by destruct (Hown2 it1 Hk2 Hne1) as [-> ?].
Qed.

(** *** The plan *)
Definition entry (kv : string * item O) : cacheCandidate := candidate_of kv.1 kv.2.
Definition snap_ok m (cd : cacheCandidate) : Prop := exists it, m !! cd_key cd = Some it /\ cd = candidate_of (cd_key cd) it.

Lemma snap_cand m cd : snap_ok m cd -> cand_ok m cd.
Proof. intros (it & Hk & ->) _. by exists it. Qed.

Lemma keys_entries m l : Forall (fun kv => m !! kv.1 = Some kv.2) l ->
  omap (fun key => candidate_of key <$> m !! key) l.*1 = entry <$> l.
Proof.
  induction 1 as [|[key it] l Hk Hl IH]; [done|]. cbn in *. rewrite Hk. cbn. f_equal. exact IH.
Qed.

Definition sum_sizes (l : list cacheCandidate) : Z := foldr (fun cd acc => cd_size cd + acc) 0 l.

Lemma sum_sizes_perm l k : l ≡ₚ k -> sum_sizes l = sum_sizes k.
Proof. unfold sum_sizes. induction 1; cbn in *; lia. Qed.

Lemma sum_sizes_nonneg l : Forall (fun cd => 0 <= cd_size cd) l -> 0 <= sum_sizes l.
Proof. unfold sum_sizes. induction 1; cbn; lia. Qed.

Lemma fold_sizes l : forall a, 0 <= a -> Forall (fun cd => 0 <= cd_size cd) l -> a + sum_sizes l <= MaxInt64 ->
  fold_left (fun used cd => used +! cd_size cd) l a = a + sum_sizes l.
Proof.
  induction l as [|cd l IH]; intros a Ha Hpos Hmax; [cbn; lia|]. apply Forall_cons in Hpos as [Hp Hpos].
  pose proof (sum_sizes_nonneg l Hpos). change (sum_sizes (cd :: l)) with (cd_size cd + sum_sizes l) in *. cbn [fold_left].
  rewrite i64_id by i64_side. rewrite IH; [lia|lia|done|lia].
Qed.

Lemma total_entries m : total m = sum_sizes (entry <$> map_to_list m).
Proof.
  unfold total, sum_sizes. rewrite map_fold_foldr. induction (map_to_list m) as [|[key it] l IH]; cbn; [done|]. by rewrite IH.
Qed.

Lemma snapshot_spec c : working (c_items c) -> total (c_items c) <= MaxInt64 ->
  exists items, snapshotCandidates c = (items, total (c_items c)) /\ items ≡ₚ entry <$> map_to_list (c_items c) /\
    NoDup (cd_key <$> items) /\ Forall (snap_ok (c_items c)) items.
Proof.
  intros Hw Hmax. unfold snapshotCandidates. set (m := c_items c) in *. set (items := omap _ _).
  assert (Hall : Forall (fun kv => m !! kv.1 = Some kv.2) (map_to_list m)).
  { apply Forall_forall. intros [key it] Hin. by apply elem_of_map_to_list in Hin. }
  assert (Hp : items ≡ₚ entry <$> map_to_list m).
  { rewrite <- (keys_entries m _ Hall). apply omap_Permutation, range_keys_ok. }
  exists items. split; [|split; [exact Hp|split]].
  - f_equal. rewrite fold_sizes.
    + by rewrite (sum_sizes_perm _ _ Hp), <- total_entries.
    + lia.
    + rewrite Hp. apply Forall_fmap. eapply Forall_impl; [exact Hall|]. intros [key it] Hk. by apply (Hw key it).
    + rewrite (sum_sizes_perm _ _ Hp), <- total_entries. lia.
  - rewrite Hp, <- list_fmap_compose. apply NoDup_fst_map_to_list.
  - rewrite Hp. apply Forall_fmap. eapply Forall_impl; [exact Hall|]. intros [key it] Hk. by exists it.
Qed.

Definition aged (cutoff : Z) (cd : cacheCandidate) : bool := (cd_opens cd =? 0) && negb (cd_grace cd) && (cd_atime cd <? cutoff).
Definition mark_aged (cutoff : Z) (cd : cacheCandidate) : cacheCandidate := if aged cutoff cd then cd_cleared cd else cd.

Lemma mark_aged_cons cutoff cd cds : mark_aged cutoff <$> cd :: cds = (if aged cutoff cd then cd_cleared cd else cd) :: (mark_aged cutoff <$> cds).
Proof. done. Qed.

Lemma clean_aged_spec cutoff cds : forall c, working (c_items c) -> NoDup (cd_key <$> cds) -> Forall (snap_ok (c_items c)) cds ->
  0 <= total (c_items c) <= MaxInt64 ->
  exists c', clean_aged cutoff cds (total (c_items c)) c = (mark_aged cutoff <$> cds, total (c_items c'), c') /\
    working (c_items c') /\ 0 <= total (c_items c') <= total (c_items c) /\ c_failedResets c' = c_failedResets c /\
    (forall cd, cd ∈ cds -> c_items c' !! cd_key cd = if aged cutoff cd then None else c_items c !! cd_key cd) /\
    (forall key, key ∉ cd_key <$> cds -> c_items c' !! key = c_items c !! key).
Proof.
  induction cds as [|cd cds IH]; intros c Hw Hnd Hok Ht; cbn [clean_aged].
  { exists c. split_and!; try done; try lia. intros cd Hin. by apply elem_of_nil in Hin. }
  pose proof (keys_unique _ _ Hnd) as Huniq. apply NoDup_cons in Hnd as [Hni Hnd]. apply Forall_cons in Hok as [(it & Hk & Hcd) Hok].
  fold (aged cutoff cd). rewrite mark_aged_cons. destruct (aged cutoff cd) eqn:Ha.
  - assert (Hu : unused it = true).
    { unfold aged in Ha. apply andb_true_iff in Ha as [Ha _]. rewrite Hcd in Ha. exact Ha. }
    destruct (removeUnused_spec (cd_key cd) c it Hw Hk Hu) as (c1 & Hr & Hi1 & Hf1 & _). rewrite Hr. cbv beta iota.
    pose proof (total_delete _ _ _ Hk) as Htd. destruct (Hw _ _ Hk) as [_ Hpos].
    assert (Hw1 : working (c_items c1)) by (rewrite Hi1; by apply working_delete).
    pose proof (total_nonneg _ Hw1) as Hnn. rewrite <- Hi1 in Htd. rewrite i64_id by i64_side. rewrite <- Htd.
    assert (Hsame : forall u, u ∈ cds -> c_items c1 !! cd_key u = c_items c !! cd_key u).
    { intros u Hin. rewrite Hi1. apply lookup_delete_ne. intros He. by apply (Huniq u Hin). }
    destruct (IH c1) as (c' & Hrun & Hw' & Ht' & Hf' & Hin' & Hout'); [done|done| |lia|].
    { apply Forall_forall. intros u Hu'. eapply Forall_forall in Hok as (it' & Hk' & Hcd'); [|exact Hu'].
      exists it'. by rewrite Hsame. }
    rewrite Hrun. exists c'. split_and!; try done; try lia; try congruence.
    + intros u [->|Hu']%elem_of_cons; [|by rewrite Hin', Hsame]. by rewrite Ha, Hout', Hi1, lookup_delete_eq.
    + intros key Hkey. rewrite Hout' by (intros Hin; apply Hkey; by right). rewrite Hi1. apply lookup_delete_ne. intros <-. apply Hkey. by left.
  - destruct (IH c Hw Hnd Hok Ht) as (c' & Hrun & Hw' & Ht' & Hf' & Hin' & Hout'). rewrite Hrun. exists c'. split_and!; try done; try lia.
    + intros u [->|Hu']%elem_of_cons; [by rewrite Ha, Hout'|by apply Hin'].
    + intros key Hkey. apply Hout'. intros Hin. apply Hkey. by right.
Qed.

(** What is planned for the items of the map. *)
Definition covered_by m (cds : list cacheCandidate) : Prop :=
  forall key it, m !! key = Some it -> item_size it <> 0 -> exists cd, cd ∈ cds /\ cd_key cd = key /\ cd_size cd = item_size it /\
    cd_opens cd = it_opens it /\ cd_grace cd = it_graceTimer it /\ cd_atime cd = InfoATime (it_info it).

Lemma cleared_ok m cd : cand_ok m (cd_cleared cd).
Proof. by intros Hne. Qed.

(** After the first loop. *)
Lemma aged_plan c : working (c_items c) -> total (c_items c) <= MaxInt64 ->
  exists items used c1,
    (let '(items, used) := snapshotCandidates c in
     if 0 <? CacheMaxAge opt then clean_aged (c_now c -! CacheMaxAge opt) items used c else (items, used, c)) = (items, used, c1) /\
    used = total (c_items c1) /\ working (c_items c1) /\ 0 <= total (c_items c1) <= total (c_items c) /\
    c_failedResets c1 = c_failedResets c /\
    NoDup (cd_key <$> items) /\ Forall (cand_ok (c_items c1)) items /\ covered_by (c_items c1) items /\
    (forall key it, c_items c1 !! key = Some it -> c_items c !! key = Some it /\
       (0 < CacheMaxAge opt -> unused it = true -> c_now c -! CacheMaxAge opt <= InfoATime (it_info it))) /\
    (forall key it, c_items c !! key = Some it -> c_items c1 !! key = None -> 0 < CacheMaxAge opt /\ unused it = true /\
       InfoATime (it_info it) < c_now c -! CacheMaxAge opt).
Proof.
  intros Hw Hmax. pose proof (total_nonneg _ Hw) as Hnn. destruct (snapshot_spec c Hw Hmax) as (items0 & Hsnap & Hperm & Hnd & Hok). rewrite Hsnap.
  assert (Hall : forall key it, c_items c !! key = Some it -> candidate_of key it ∈ items0).
  { intros key it Hk. rewrite Hperm. apply list_elem_of_fmap. exists (key, it). split; [done|]. by apply elem_of_map_to_list. }
  destruct (Z.ltb_spec 0 (CacheMaxAge opt)) as [Hage|Hage].
  - set (cutoff := c_now c -! CacheMaxAge opt).
    destruct (clean_aged_spec cutoff items0 c Hw Hnd Hok ltac:(lia)) as (c1 & Hrun & Hw1 & Ht1 & Hf1 & Hin1 & Hout1).
    assert (Hkeep : forall key it, c_items c1 !! key = Some it -> c_items c !! key = Some it /\ aged cutoff (candidate_of key it) = false).
    { intros key it Hk. destruct (c_items c !! key) as [it0|] eqn:Hk0.
      - pose proof (Hin1 _ (Hall _ _ Hk0)) as Hl. cbn in Hl. rewrite Hk, Hk0 in Hl.
        destruct (aged cutoff (candidate_of key it0)) eqn:Ha; [done|]. injection Hl as ->. done.
      - rewrite Hout1, Hk0 in Hk; [done|]. intros Hin. apply list_elem_of_fmap in Hin as (cd & -> & Hcd).
        eapply Forall_forall in Hok as (it' & Hk' & _); [|exact Hcd]. congruence. }
    exists (mark_aged cutoff <$> items0), (total (c_items c1)), c1. rewrite Hrun. split_and!; try done; try lia.
    + rewrite <- list_fmap_compose. erewrite list_fmap_ext; [exact Hnd|]. intros i cd _. unfold mark_aged. cbn. by destruct (aged cutoff cd).
    + apply Forall_fmap, Forall_forall. intros cd Hcd. cbn. unfold mark_aged. destruct (aged cutoff cd) eqn:Ha; [apply cleared_ok|].
      eapply cand_ok_other; [|eapply snap_cand; by eapply Forall_forall in Hok]. by rewrite (Hin1 cd Hcd), Ha.
    + intros key it Hk Hne. destruct (Hkeep key it Hk) as [Hk0 Ha]. exists (candidate_of key it). split; [|done].
      apply list_elem_of_fmap. exists (candidate_of key it). split; [unfold mark_aged; by rewrite Ha|by apply Hall].
    + intros key it Hk. destruct (Hkeep key it Hk) as [Hk0 Ha]. split; [done|]. intros _ Hu.
      unfold aged in Ha. cbn in Ha. fold (unused it) in Ha. rewrite Hu in Ha. cbn in Ha. by apply Z.ltb_ge in Ha.
    + intros key it Hk0 Hk. pose proof (Hin1 _ (Hall _ _ Hk0)) as Hl. cbn in Hl. rewrite Hk, Hk0 in Hl.
      destruct (aged cutoff (candidate_of key it)) eqn:Ha; [|done]. unfold aged in Ha. apply andb_true_iff in Ha as [Hu ?%Z.ltb_lt].
      by split_and!.
  - exists items0, (total (c_items c)), c. split_and!; try done; try lia.
    + eapply Forall_impl; [exact Hok|]. intros cd. apply snap_cand.
    + intros key it Hk Hne. exists (candidate_of key it). split; [by apply Hall|done].
    + intros key it Hk. split; [done|lia].
    + intros key it Hk0 Hk. congruence.
Qed.

(** The resets that failed in earlier passes. *)
Lemma retry_spec keys : forall c, working (c_items c) ->
  let c' := retry_resets keys c in
  working (c_items c') /\ 0 <= total (c_items c') <= total (c_items c) /\ after (c_items c) (c_items c') /\
  fate (fun key _ => key ∈ keys) (c_items c) (c_items c').
Proof.
  induction keys as [|key keys IH]; intros c Hw; cbn [retry_resets].
  { split; [done|]. pose proof (total_nonneg _ Hw). split; [lia|]. split; [apply after_refl|apply fate_refl]. }
  destruct (c_items c !! key) as [it|] eqn:Hk.
  - destruct (reset_and_drop_spec key c it Hw Hk) as (freed & c1 & Hr & Hw1 & Ht1 & Hfr & _ & Hoth & Haft & _ & Hfate). rewrite Hr.
    set (c2 := if unused it then c_delete key c1 else c1) in *.
    destruct (IH (c_set_failed (delete key (c_failedResets c2)) c2) Hw1) as (Hw' & Ht' & Haft' & Hfate'). cbn in Ht', Haft', Hfate'.
    split; [done|]. split; [lia|]. split; [by eapply after_trans|]. eapply (fate_trans (fun k _ => k = key) _ _ _ (c_items c2)); [|exact Hfate'|exact Haft'| |].
    + intros k x Hkx. destruct (decide (k = key)) as [->|Hne]; [|left; by rewrite Hoth]. rewrite Hk in Hkx. injection Hkx as <-.
      destruct Hfate as [|Hg]; [by left|by right].
    + intros k x ->. by left.
    + intros k x _ _ Hin. by right.
  - unfold reset. rewrite Hk. destruct (IH (c_set_failed (delete key (c_failedResets c)) c) Hw) as (Hw' & Ht' & Haft' & Hfate'). cbn in Ht', Haft', Hfate'.
    split; [done|]. split; [lia|]. split; [done|]. eapply (fate_trans (fun _ _ => False) _ _ _ (c_items c)); [apply fate_refl|exact Hfate'|exact Haft'|done|].
    intros k x _ _ Hin. by right.
Qed.

Lemma retryFailedResets_spec c : working (c_items c) ->
  let c' := retryFailedResets c in
  working (c_items c') /\ 0 <= total (c_items c') <= total (c_items c) /\ after (c_items c) (c_items c') /\
  fate (fun key _ => is_Some (c_failedResets c !! key)) (c_items c) (c_items c').
Proof.
  intros Hw. unfold retryFailedResets. set (keys := filter _ _). destruct (retry_spec keys (c_set_failed (filter (fun kv => is_Some (c_items c !! kv.1)) (c_failedResets c)) c) Hw) as (Hw' & Ht' & Haft & Hfate).
  split; [exact Hw'|]. split; [exact Ht'|]. split; [exact Haft|]. eapply (fate_trans (fun _ _ => False) _ _ _ (c_items c)); [apply fate_refl|exact Hfate|exact Haft|done|].
  intros key it _ _ Hin. apply list_elem_of_filter in Hin as [_ Hin]. rewrite (range_keys_ok error) in Hin.
  apply list_elem_of_fmap in Hin as ([k e] & -> & Hin). apply elem_of_map_to_list in Hin. by eexists.
Qed.

Lemma sort_perm cds : sort_Slice (fun a b => cd_atime a <? cd_atime b) cds ≡ₚ cds.
Proof. apply sort_Slice_perm. Qed.

Lemma covered_perm m cds cds' : cds' ≡ₚ cds -> covered_by m cds -> covered_by m cds'.
Proof. intros Hp Hc key it Hk Hne. destruct (Hc key it Hk Hne) as (cd & Hin & ?). exists cd. by rewrite Hp. Qed.

Lemma key_inj (cds : list cacheCandidate) cd u : NoDup (cd_key <$> cds) -> cd ∈ cds -> u ∈ cds -> cd_key cd = cd_key u -> cd = u.
Proof.
  intros Hnd [i Hi]%list_elem_of_lookup [j Hj]%list_elem_of_lookup Hk.
  assert (i = j) as ->; [|congruence]. eapply (NoDup_lookup _ i j (cd_key cd) Hnd); rewrite list_lookup_fmap; [by rewrite Hi|by rewrite Hj, Hk].
Qed.

(** After the second loop the plan still covers what is left. *)
Lemma evict_plan pre post m : NoDup (cd_key <$> pre ++ post) -> Forall (cand_ok m) (pre ++ post) -> covered_by m (pre ++ post) ->
  let cds := (mark <$> pre) ++ post in
  NoDup (cd_key <$> cds) /\ Forall (cand_ok (evict pre m)) cds /\ covered_by (evict pre m) cds.
Proof.
  intros Hnd Hok Hcov cds.
  assert (Hkeys : cd_key <$> cds = cd_key <$> pre ++ post).
  { unfold cds. rewrite !fmap_app, <- list_fmap_compose. f_equal. apply list_fmap_ext. intros i cd _. cbn. unfold mark. by destruct (evictable cd). }
  assert (Hkept : forall cd, cd ∈ pre ++ post -> (cd ∈ pre -> evictable cd = false) -> evict pre m !! cd_key cd = m !! cd_key cd).
  { intros cd Hin Hne. rewrite evict_lookup. apply decide_False. intros Hkey. apply list_elem_of_fmap in Hkey as (u & Hku & Hu).
    apply list_elem_of_filter in Hu as [Heu Hu]. assert (cd = u) as ->; [|by rewrite Hne in Heu].
    apply (key_inj _ _ _ Hnd); [done|apply elem_of_app; by left|done]. }
  split; [by rewrite Hkeys|]. rewrite Forall_forall in Hok. split.
  - apply Forall_app. split; [apply Forall_fmap|]; apply Forall_forall; intros cd Hin.
    + cbn. unfold mark. destruct (evictable cd) eqn:He; [apply cleared_ok|]. eapply cand_ok_other; [apply Hkept|apply Hok]; [|done|]; apply elem_of_app; by left.
    + eapply cand_ok_other; [apply Hkept|apply Hok]; try (apply elem_of_app; by right). intros Hpre. exfalso.
      rewrite fmap_app in Hnd. apply NoDup_app in Hnd as (_ & Hdis & _). by apply (Hdis (cd_key cd)); apply list_elem_of_fmap_2.
  - intros key it Hk Hne. assert (Hk0 : m !! key = Some it) by (rewrite evict_lookup in Hk; by destruct (decide _)).
    destruct (Hcov key it Hk0 Hne) as (cd & Hin & Hkey & Hrest). exists cd. split; [|done]. unfold cds. apply elem_of_app in Hin as [Hin|Hin]; apply elem_of_app.
    + left. apply list_elem_of_fmap. exists cd. split; [|done]. unfold mark. destruct (evictable cd) eqn:He; [|done]. exfalso.
      rewrite evict_lookup, decide_True in Hk; [done|]. rewrite <- Hkey. apply list_elem_of_fmap_2. by apply list_elem_of_filter.
    + by right.
Qed.

Lemma entry_in m items key it : covered_by m items -> Forall (cand_ok m) items -> m !! key = Some it -> item_size it <> 0 ->
  exists cd, cd ∈ items /\ cd_key cd = key /\ evictable cd = unused it /\ cd_atime cd = InfoATime (it_info it).
Proof.
  intros Hcov Hok Hk Hne. destruct (Hcov key it Hk Hne) as (cd & Hin & Hkey & Hsz & Ho & Hg & Ha). exists cd. split_and!; try done.
  unfold evictable, unused. rewrite Hsz, Ho, Hg. by rewrite (proj2 (Z.eqb_neq _ _) Hne).
Qed.


(** What the loops have not come to when they come to an item, oldest first: all
    but older unused items when it is unused; then only items in use are left, and
    of the older ones only those that are held. *)
Definition not_before m (it : item O) : gmap string (item O) :=
  if unused it then filter (fun kv => unused kv.2 = true -> InfoATime (it_info it) <= InfoATime (it_info kv.2)) m
  else filter (fun kv => unused kv.2 = false /\ (held kv.2 = true \/ InfoATime (it_info it) <= InfoATime (it_info kv.2))) m.
Definition over_quota m (it : item O) : Prop := CacheMaxSize opt < total (not_before m it).

Lemma working_not_before m it : working m -> working (not_before m it).
Proof. intros Hw key x. unfold not_before. destruct (unused it); intros [Hk _]%map_lookup_filter_Some; by apply (Hw key). Qed.

Lemma before_in (p1 p2 : list cacheCandidate) cd u : StronglySorted (fun a b => cd_atime a <= cd_atime b) (p1 ++ cd :: p2) ->
  u ∈ p1 ++ cd :: p2 -> cd_atime u < cd_atime cd -> u ∈ p1.
Proof.
  intros Hs Hin Hlt. apply elem_of_app in Hin as [|[->|Hin]%elem_of_cons]; [done|lia|].
  replace (p1 ++ cd :: p2) with ((p1 ++ [cd]) ++ p2) in Hs by by rewrite <- app_assoc.
  pose proof (StronglySorted_app_1_elem_of _ _ _ cd u Hs) as Hle. cbn in Hle. enough (cd_atime cd <= cd_atime u) by lia.
  apply Hle; [apply elem_of_app; right; by left|done].
Qed.

Lemma sorted_mark cds : StronglySorted (fun a b => cd_atime a <= cd_atime b) cds -> StronglySorted (fun a b => cd_atime a <= cd_atime b) (mark <$> cds).
Proof.
  assert (Ha : forall u, cd_atime (mark u) = cd_atime u) by (intros u; unfold mark; by destruct (evictable u)).
  induction 1 as [|cd cds Hs IH Hall]; cbn; constructor; [done|]. apply Forall_fmap. eapply Forall_impl; [exact Hall|]. intros u. cbn. by rewrite !Ha.
Qed.

Lemma planned_atime m cds cd it : NoDup (cd_key <$> cds) -> Forall (cand_ok m) cds -> covered_by m cds -> cd ∈ cds -> cd_size cd <> 0 ->
  m !! cd_key cd = Some it -> cd_atime cd = InfoATime (it_info it).
Proof.
  intros Hnd Hok Hcov Hin Hnz Hk. destruct (proj1 (Forall_forall _ _) Hok cd Hin Hnz) as (x & Hx & Hsz & _). rewrite Hk in Hx. injection Hx as <-.
  destruct (Hcov (cd_key cd) it Hk) as (u & Hu & Hku & _ & _ & _ & <-); [congruence|]. f_equal. by apply (key_inj cds).
Qed.

(** An item that the second loop takes is over the quota. *)
Lemma evict_fate pre post m : working m -> NoDup (cd_key <$> pre ++ post) -> Forall (cand_ok m) (pre ++ post) -> covered_by m (pre ++ post) ->
  StronglySorted (fun a b => cd_atime a <= cd_atime b) (pre ++ post) ->
  (forall p1 cd p2, pre = p1 ++ cd :: p2 -> CacheMaxSize opt < total (evict p1 m)) -> fate (fun _ it => over_quota m it) m (evict pre m).
Proof.
  intros Hw Hnd Hok Hcov Hs Hover key it Hk. rewrite evict_lookup. destruct (decide _) as [Hin|]; [right|by left].
  apply list_elem_of_fmap in Hin as (cd & -> & Hcd). apply list_elem_of_filter in Hcd as [He Hcd].
  assert (Hall : cd ∈ pre ++ post) by (apply elem_of_app; by left).
  destruct (evictable_item m cd (proj1 (Forall_forall _ _) Hok cd Hall) He) as (x & Hx & Hsz & Hu). rewrite Hk in Hx. injection Hx as <-.
  assert (Hnz : cd_size cd <> 0) by (intros Hz; unfold evictable in He; by rewrite Hz in He).
  split; [|unfold gives_up; by rewrite Hu]. pose proof (planned_atime m _ cd it Hnd Hok Hcov Hall Hnz Hk) as Hat.
  apply list_elem_of_split in Hcd as (p1 & p2 & ->). unfold over_quota. eapply Z.lt_le_trans; [by eapply Hover|].
  apply total_mono; [by apply working_not_before|]. intros k y Hy Hny. unfold not_before. rewrite Hu.
  assert (Hky : m !! k = Some y) by (rewrite evict_lookup in Hy; by destruct (decide _)). apply map_lookup_filter_Some. split; [done|]. cbn.
  intros Huy. destruct (Z.le_gt_cases (InfoATime (it_info it)) (InfoATime (it_info y))) as [|Hlt]; [done|exfalso].
  destruct (entry_in m _ k y Hcov Hok Hky Hny) as (u & Hin & Hku & Heu & Hau). rewrite <- app_assoc in Hin, Hs. cbn [app] in Hin, Hs.
  assert (Hp1 : u ∈ p1) by (eapply before_in; [exact Hs|exact Hin|lia]). rewrite evict_lookup, decide_True in Hy; [done|].
  rewrite <- Hku. apply list_elem_of_fmap_2, list_elem_of_filter. by rewrite Heu.
Qed.

(** Nor does the third loop come to an item for nothing. *)
Lemma open_fate pre m key it : working m -> NoDup (cd_key <$> pre ++ []) -> Forall (cand_ok m) (pre ++ []) -> covered_by m (pre ++ []) ->
  StronglySorted (fun a b => cd_atime a <= cd_atime b) (pre ++ []) ->
  evict pre m !! key = Some it -> reset_for ((mark <$> pre) ++ []) (evict pre m) key -> over_quota m it.
Proof.
  intros Hw Hnd Hok Hcov Hs Hk (p1 & cd & p2 & m1 & Hcds & <- & Hnz & Hm & Haft & Hheld).
  destruct (evict_plan pre [] m Hnd Hok Hcov) as (Hnd' & Hok' & Hcov'). rewrite !app_nil_r in *. apply sorted_mark in Hs.
  assert (Hcd : cd ∈ mark <$> pre) by (rewrite Hcds; apply elem_of_app; right; by left).
  pose proof (planned_atime _ _ cd it Hnd' Hok' Hcov' Hcd Hnz Hk) as Hat.
  assert (Hgone : forall k x, evict pre m !! k = Some x -> item_size x <> 0 -> m !! k = Some x /\ unused x = false).
  { intros k x Hx Hnx. assert (Hkx : m !! k = Some x) by (rewrite evict_lookup in Hx; by destruct (decide _)). split; [done|].
    destruct (unused x) eqn:Hux; [exfalso|done]. destruct (entry_in m _ k x Hcov Hok Hkx Hnx) as (u & Hin & Hku & Heu & _).
    rewrite evict_lookup, decide_True in Hx; [done|]. rewrite <- Hku. apply list_elem_of_fmap_2, list_elem_of_filter. by rewrite Heu. }
  destruct (proj1 (Forall_forall _ _) Hok' cd Hcd Hnz) as (x & Hx & Hsz & _). rewrite Hk in Hx. injection Hx as <-.
  destruct (Hgone _ _ Hk) as [_ Hu]; [congruence|]. unfold over_quota. eapply Z.lt_le_trans; [exact Hm|].
  apply total_mono; [by apply working_not_before|]. intros k y Hy Hny. destruct (Haft k y Hy) as [Hy2|(_ & _ & ?)]; [|done].
  destruct (Hgone k y Hy2 Hny) as [Hky Huy]. unfold not_before. rewrite Hu. apply map_lookup_filter_Some. split; [done|]. cbn. split; [done|].
  destruct (Z.le_gt_cases (InfoATime (it_info it)) (InfoATime (it_info y))) as [|Hlt]; [by right|left].
  destruct (Hcov' k y Hy2 Hny) as (u & Hin & Hku & Hsu & _ & _ & Hau). rewrite Hcds in Hin, Hs.
  assert (Hp1 : u ∈ p1) by (eapply before_in; [exact Hs|exact Hin|lia]). apply (Hheld u y Hp1); [congruence|by rewrite Hku|done].
Qed.

(** The second and the third loop over a plan. *)
Lemma quota_loops items c : working (c_items c) -> total (c_items c) <= MaxInt64 ->
  NoDup (cd_key <$> items) -> Forall (cand_ok (c_items c)) items -> covered_by (c_items c) items ->
  StronglySorted (fun a b => cd_atime a <= cd_atime b) items ->
  exists pre post c2, items = pre ++ post /\ (post = [] \/ total (c_items c2) <= CacheMaxSize opt) /\ c_items c2 = evict pre (c_items c) /\
    let '(items', used, c2') := clean_unused opt items (total (c_items c)) c in
    let c' := clean_open opt items' used c2' in
    c2' = c2 /\ working (c_items c') /\ c_failedResets c' = c_failedResets c /\ after (c_items c) (c_items c') /\
    0 <= total (c_items c') <= total (c_items c) /\ (total (c_items c2) <= CacheMaxSize opt -> c' = c2) /\ after (c_items c2) (c_items c') /\
    (total (c_items c') <= CacheMaxSize opt \/
     forall key it', c_items c' !! key = Some it' -> item_size it' <> 0 -> held it' = true) /\
    fate (fun _ it => over_quota (c_items c) it) (c_items c) (c_items c').
Proof.
  intros Hw Hmax Hnd Hok Hcov Hs. pose proof (total_nonneg _ Hw) as Hnn.
  destruct (clean_unused_spec items c Hw Hnd Hok ltac:(lia)) as (pre & post & c2 & -> & Hrun & Hi2 & Hf2 & Hw2 & Ht2 & Hp2 & Hover).
  exists pre, post, c2. rewrite Hrun. cbv beta iota zeta. destruct (evict_plan pre post (c_items c) Hnd Hok Hcov) as (Hnd' & Hok' & Hcov'). rewrite <- Hi2 in Hok', Hcov'.
  destruct (clean_open_spec _ c2 Hw2 Hnd' Hok' ltac:(lia)) as (Hw' & Ht' & Hf' & Haft & _ & Hpost & Hfate).
  assert (Hsub : after (c_items c) (c_items c2)).
  { apply after_sub. intros key it'. rewrite Hi2, evict_lookup. by destruct (decide _). }
  split_and!; try done; try lia; try congruence.
  - by eapply after_trans.
  - intros Hle. destruct ((mark <$> pre) ++ post) as [|cd cds]; [done|]. cbn [clean_open]. rewrite quotasOK_spec. by rewrite (proj2 (Z.leb_le _ _) Hle).
  - destruct Hpost as [|Hpost]; [by left|]. right. intros key it' Hk Hne. destruct (Haft key it' Hk) as [Hk2|(_ & _ & Hz)]; [|done].
    destruct (Hcov' key it' Hk2 Hne) as (cd & Hin & <- & Hsz & _). apply (Hpost cd it' Hin); [by rewrite Hsz|done|done].
  - eapply (fate_trans (fun _ it => over_quota (c_items c) it) _ _ _ (c_items c2)); [rewrite Hi2; by eapply evict_fate|exact Hfate|exact Haft|done|]. cbn. intros key it _ Hk2 Hfor.
    destruct Hp2 as [->|Hle]; [rewrite Hi2 in Hk2, Hfor; apply (open_fate pre _ key); assumption|]. exfalso. destruct Hfor as (_ & _ & _ & m1 & _ & _ & _ & Hm & Ha & _).
    enough (total m1 <= total (c_items c2)) by lia. apply total_mono; [done|]. intros k x Hx Hnx. by destruct (Ha k x Hx) as [|(_ & _ & ?)].
Qed.

(** A pass, up to the resets that failed before. *)
Definition mid_clean c : cache O :=
  let '(items, used) := snapshotCandidates c in
  let '(items, used, c) :=
    if 0 <? CacheMaxAge opt then clean_aged (c_now c -! CacheMaxAge opt) items used c else (items, used, c) in
  let '(ok, c) := quotasOK opt used c in
  if ok then c
  else
    let items := sort_Slice (fun a b => cd_atime a <? cd_atime b) items in
    let '(items, used, c) := clean_unused opt items used c in
    clean_open opt items used c.

Lemma clean_mid c : clean opt c = retryFailedResets (mid_clean c).
Proof.
  unfold clean, mid_clean, haveQuotas. rewrite (proj2 (Z.ltb_lt 0 (CacheMaxSize opt)) maxSize). cbn [orb].
  destruct (snapshotCandidates c) as [items used]. destruct (if 0 <? CacheMaxAge opt then _ else _) as [[items' used'] c'].
  by destruct (quotasOK opt used' c') as [[] ?].
Qed.

(** The items after the first loop are those that are not too old. *)
Definition too_old c (it : item O) : Prop :=
  0 < CacheMaxAge opt /\ unused it = true /\ InfoATime (it_info it) < c_now c -! CacheMaxAge opt.

Instance too_old_dec c it : Decision (too_old c it).
Proof. unfold too_old. apply _. Defined.

Lemma mid_clean_spec c : working (c_items c) -> total (c_items c) <= MaxInt64 ->
  exists items c1 sorted,
    (forall key it, c_items c1 !! key = Some it <-> c_items c !! key = Some it /\ ~ too_old c it) /\
    working (c_items c1) /\ NoDup (cd_key <$> items) /\ Forall (cand_ok (c_items c1)) items /\ covered_by (c_items c1) items /\
    sorted = sort_Slice (fun a b => cd_atime a <? cd_atime b) items /\
    total (c_items c1) <= total (c_items c) /\
    let c' := mid_clean c in
    working (c_items c') /\ c_failedResets c' = c_failedResets c /\ after (c_items c1) (c_items c') /\ total (c_items c') <= total (c_items c) /\
    (total (c_items c1) <= CacheMaxSize opt /\ c' = c1 \/
     CacheMaxSize opt < total (c_items c1) /\ exists pre post, sorted = pre ++ post /\
       (post = [] \/ c_items c' = evict pre (c_items c1)) /\ after (evict pre (c_items c1)) (c_items c') /\
       (total (c_items c') <= CacheMaxSize opt \/
        forall key it', c_items c' !! key = Some it' -> item_size it' <> 0 -> held it' = true)) /\
    fate (fun _ it => over_quota (c_items c1) it) (c_items c1) (c_items c').
Proof.
  intros Hw Hmax. destruct (aged_plan c Hw Hmax) as (items & used & c1 & Hrun & -> & Hw1 & Ht1 & Hf1 & Hnd & Hok & Hcov & Hkeep & Hgone).
  exists items, c1, (sort_Slice (fun a b => cd_atime a <? cd_atime b) items). split; [|split_and!; [done..|lia|]].
  { intros key it. split.
    - intros Hk. destruct (Hkeep key it Hk) as [Hk0 Hage]. split; [done|]. intros (Hpos & Hu & Hlt). specialize (Hage Hpos Hu). lia.
    - intros [Hk Hno]. destruct (c_items c1 !! key) as [it1|] eqn:Hk1; [|by destruct Hno; apply (Hgone key)]. destruct (Hkeep key it1 Hk1) as [Hk0 _]. congruence. }
  assert (Hsub : after (c_items c) (c_items c1)) by (apply after_sub; intros key it Hk; apply (Hkeep key it Hk)).
  assert (Hmid : mid_clean c = let '(ok, c) := quotasOK opt (total (c_items c1)) c1 in if ok then c
    else let items := sort_Slice (fun a b => cd_atime a <? cd_atime b) items in
      let '(items, used, c) := clean_unused opt items (total (c_items c1)) c in clean_open opt items used c).
  { unfold mid_clean. destruct (snapshotCandidates c) as [items0 used0]. by rewrite Hrun. }
  rewrite Hmid, quotasOK_spec. destruct (Z.leb_spec (total (c_items c1)) (CacheMaxSize opt)) as [Hle|Hgt].
  { split_and!; try done; try lia; [apply after_refl|by left|apply fate_refl]. }
  cbv zeta. pose proof (sort_Slice_sorted cd_atime items) as Hss. set (items' := sort_Slice _ items) in *. pose proof (sort_perm items) as Hp. fold items' in Hp.
  destruct (quota_loops items' c1 Hw1) as (pre & post & c2 & Hsplit & Hpost & Hi2 & Hrest);
    [lia|by rewrite Hp|by rewrite Hp|by eapply covered_perm|exact Hss|].
  destruct (clean_unused opt items' _ c1) as [[items2 used2] c2']. destruct Hrest as (-> & Hw' & Hf' & Haft & Ht' & Heq & Haft2 & Hdone & Hfate).
  split_and!; try done; try lia; try congruence. right. split; [done|]. exists pre, post. rewrite Hi2 in *. split_and!; [done| |done..].
  destruct Hpost as [->|Hle]; [by left|]. right. by rewrite (Heq Hle).
Qed.

Lemma retryFailedResets_none c : c_failedResets c = ∅ -> retryFailedResets c = c.
Proof.
  intros Hf. unfold retryFailedResets. rewrite Hf, map_filter_empty. pose proof (range_keys_ok error ∅) as Hp.
  rewrite map_to_list_empty in Hp. apply Permutation_nil_r in Hp. rewrite Hp. destruct c. cbn in *. by rewrite Hf.
Qed.

(** The second loop takes a prefix of the sorted plan. *)
Lemma evicted_before items pre post m a ita b itb :
  NoDup (cd_key <$> items) -> Forall (cand_ok m) items -> covered_by m items -> pre ++ post ≡ₚ items ->
  StronglySorted (fun a b => cd_atime a <= cd_atime b) (pre ++ post) ->
  m !! a = Some ita -> unused ita = true -> item_size ita <> 0 -> is_Some (evict pre m !! a) ->
  m !! b = Some itb -> item_size itb <> 0 -> post = [] \/ evict pre m !! b = None ->
  InfoATime (it_info itb) <= InfoATime (it_info ita).
Proof.
  intros Hnd Hok Hcov Hperm Hss Ha Hua Hna [ita' Ha'] Hb Hnb Hb'.
  destruct (entry_in _ _ a ita Hcov Hok Ha Hna) as (cda & Hina & Hka & Hea & <-).
  destruct (entry_in _ _ b itb Hcov Hok Hb Hnb) as (cdb & Hinb & Hkb & _ & <-).
  assert (Hpost : cda ∈ post).
  { rewrite <- Hperm in Hina. apply elem_of_app in Hina as [Hina|]; [|done]. rewrite evict_lookup, decide_True in Ha'; [done|].
    rewrite <- Hka. apply list_elem_of_fmap_2, list_elem_of_filter. by rewrite Hea. }
  destruct Hb' as [->|Hb']; [by apply elem_of_nil in Hpost|]. rewrite evict_lookup in Hb'.
  destruct (decide _) as [Hb2|]; [|congruence]. apply list_elem_of_fmap in Hb2 as (u & Hku & Hu).
  apply list_elem_of_filter in Hu as [_ Hu].
  assert (u = cdb) as ->. { apply (key_inj _ _ _ Hnd); [|done|congruence]. rewrite <- Hperm. apply elem_of_app. by left. }
  exact (StronglySorted_app_1_elem_of _ _ _ _ _ Hss Hu Hpost).
Qed.

Lemma aged_fate c c1 : (forall key it, c_items c1 !! key = Some it <-> c_items c !! key = Some it /\ ~ too_old c it) ->
  c_items c1 = filter (fun kv => ~ too_old c kv.2) (c_items c) /\ fate (fun _ it => too_old c it) (c_items c) (c_items c1).
Proof.
  intros Hc1. split.
  - apply map_eq. intros key. apply option_eq. intros it. rewrite Hc1. by rewrite map_lookup_filter_Some.
  - intros key it Hk. destruct (decide (too_old c it)) as [Hold|Hno]; [right|left; by apply Hc1]. split; [done|]. unfold gives_up.
    pose proof Hold as (_ & -> & _). destruct (c_items c1 !! key) as [x|] eqn:Hx; [|done]. apply Hc1 in Hx as [Hx Hno]. congruence.
Qed.

(** C11. Theorem cache_clean_enforces_quota: over items whose system calls work, and
    with no minimum of free space asked for, a pass of the cleaner brings the known
    bytes within the size quota, or all that is left is held by accesses in
    progress or grace periods; no unused item older than the maximal age stays; an
    item that stays is as it was, unless it was in use and has been emptied.  No
    item in use is taken out of the map, and a held one keeps its bytes; an item
    gives up its bytes, an unused one by leaving the map, only because it is unused
    and too old, because its reset failed in an earlier pass, or because, of the
    items that are not too old, those that the loops come to after it (oldest
    first, the unused ones before those in use) or leave alone are over the quota
    together with it. *)
Theorem cache_clean_enforces_quota c : working (c_items c) -> total (c_items c) <= MaxInt64 ->
  let c' := clean opt c in
  (total (c_items c') <= CacheMaxSize opt \/
   forall key it', c_items c' !! key = Some it' -> item_size it' <> 0 -> held it' = true) /\
  (forall key it', c_items c' !! key = Some it' ->
     (c_items c !! key = Some it' /\ ~ too_old c it') \/
     (is_Some (c_items c !! key) /\ unused it' = false /\ item_size it' = 0)) /\
  (forall key it, c_items c !! key = Some it -> c_items c' !! key = Some it \/
     (if unused it then c_items c' !! key = None
      else held it = false /\ exists it', c_items c' !! key = Some it' /\ unused it' = false /\ item_size it' = 0) /\
     (too_old c it \/ is_Some (c_failedResets c !! key) \/ over_quota (filter (fun kv => ~ too_old c kv.2) (c_items c)) it)).
Proof.
  intros Hw Hmax c'. subst c'. rewrite clean_mid.
  destruct (mid_clean_spec c Hw Hmax) as (items & c1 & sorted & Hc1 & Hw1 & Hnd & Hok & Hcov & Hsort & Ht1 & Hwm & Hfm & Haft & Htm & Hcase & Hfate).
  destruct (retryFailedResets_spec (mid_clean c) Hwm) as (Hw' & Ht' & Haft' & Hfate'). destruct (aged_fate c c1 Hc1) as [Hi1 Hfate1].
  assert (Hafter : forall key it', c_items (retryFailedResets (mid_clean c)) !! key = Some it' ->
      (c_items (mid_clean c) !! key = Some it' /\ c_items c1 !! key = Some it') \/
      (is_Some (c_items c1 !! key) /\ unused it' = false /\ item_size it' = 0)).
  { intros key it' Hk. destruct (Haft' key it' Hk) as [Hk2|([it2 Hk2] & Hu & Hz)].
    - destruct (Haft key it' Hk2) as [Hk1|?]; [by left|by right].
    - right. split; [|done]. destruct (Haft key it2 Hk2) as [Hk1|[? _]]; [by eexists|done]. }
  split_and!.
  - destruct Hcase as [[Hle Heq]|(_ & pre & post & _ & _ & _ & [Hle|Hheld])].
    + left. rewrite Heq in *. lia.
    + left. lia.
    + right. intros key it' Hk Hne. destruct (Hafter key it' Hk) as [[Hk2 _]|(_ & _ & ?)]; [by apply (Hheld key)|done].
  - intros key it' Hk. destruct (Hafter key it' Hk) as [[_ Hk1]|([it1 Hk1] & ?)]; [left; by apply Hc1|right].
    split; [|done]. apply Hc1 in Hk1 as [Hk1 _]. by eexists.
  - set (why := fun key it => too_old c it \/ is_Some (c_failedResets c !! key) \/ over_quota (filter (fun kv => ~ too_old c kv.2) (c_items c)) it).
    assert (Hall : fate why (c_items c) (c_items (retryFailedResets (mid_clean c)))).
    { eapply fate_trans; [eapply fate_trans; [exact Hfate1|exact Hfate|exact Haft| |]|exact Hfate'|exact Haft'| |]; cbv beta.
      - instantiate (1 := why). intros key it Ho. by left.
      - intros key it _ _ Ho. unfold why. rewrite <- Hi1. by right; right.
      - done.
      - intros key it _ _ Hf. rewrite Hfm in Hf. by right; left. }
    intros key it Hk. destruct (Hall key it Hk) as [|[Hwhy Hg]]; [by left|right]. by split.
Qed.

(** C12. Theorem cache_clean_evicts_oldest_first: when no reset has failed before,
    the unused items a pass takes are the least recently accessed ones, and a
    cache within its quota loses only items that are too old. *)
Theorem cache_clean_evicts_oldest_first c : working (c_items c) -> total (c_items c) <= MaxInt64 -> c_failedResets c = ∅ ->
  let c' := clean opt c in
  (forall a ita b itb,
     c_items c !! a = Some ita -> unused ita = true -> item_size ita <> 0 -> is_Some (c_items c' !! a) ->
     c_items c !! b = Some itb -> unused itb = true -> item_size itb <> 0 -> c_items c' !! b = None ->
     InfoATime (it_info itb) <= InfoATime (it_info ita)) /\
  (total (c_items c) <= CacheMaxSize opt ->
   forall key it, c_items c !! key = Some it -> ~ too_old c it -> c_items c' !! key = Some it).
Proof.
  intros Hw Hmax Hfail c'. subst c'. rewrite clean_mid.
  destruct (mid_clean_spec c Hw Hmax) as (items & c1 & sorted & Hc1 & Hw1 & Hnd & Hok & Hcov & Hsort & Ht1 & Hwm & Hfm & Haft & Htm & Hcase & _).
  rewrite retryFailedResets_none by congruence. split.
  - intros a ita b itb Ha Hua Hna [ita' Ha'] Hb Hub Hnb Hb'.
    assert (Ha1 : c_items c1 !! a = Some ita).
    { destruct (Haft a ita' Ha') as [Hk|([ita1 Hk] & _)]; rewrite Hk; apply Hc1 in Hk as [? _]; congruence. }
    pose proof (proj1 (Hc1 _ _) Ha1) as [_ Hya]. destruct (decide (too_old c itb)) as [(Hage & _ & Hlt)|Hyb].
    { destruct (Z.le_gt_cases (InfoATime (it_info itb)) (InfoATime (it_info ita))); [done|]. destruct Hya. split_and!; try done. lia. }
    assert (Hb1 : c_items c1 !! b = Some itb) by by apply Hc1.
    destruct Hcase as [[_ Heq]|(_ & pre & post & Hsplit & Hev & Hafe & _)]; [rewrite Heq in Hb'; congruence|].
    rewrite Hsplit in Hsort. assert (Hperm : pre ++ post ≡ₚ items) by (rewrite Hsort; apply sort_perm).
    pose proof (sort_Slice_sorted cd_atime items) as Hss. rewrite <- Hsort in Hss.
    eapply (evicted_before items pre post (c_items c1) a ita b itb); try done.
    + destruct (Hafe a ita' Ha') as [->|([? ->] & _)]; by eexists.
    + destruct Hev as [->|Hev]; [by left|right; congruence].
  - intros Hle key it Hk Hno. assert (Hk1 : c_items c1 !! key = Some it) by by apply Hc1.
    destruct Hcase as [[_ ->]|(Hgt & _)]; [done|lia].
Qed.

End cleaning.

(** ** Witnesses *)

(** Maps ranged over in the order of their representation, [sort.Slice] as a
    merge sort. *)
Definition Slice_sort (less : cacheCandidate -> cacheCandidate -> bool) : list cacheCandidate -> list cacheCandidate :=
  @merge_sort _ (fun a b => less b a = false) (fun a b => decide (less b a = false)).

#[export] Instance some_order : GoOrder := {|
  range_keys V m := (map_to_list m).*1;
  sort_Slice := Slice_sort;
|}.

#[export] Instance some_order_ok : GoOrderOK.
Proof.
  split; [done|intros; apply merge_sort_Permutation|].
  intros f l. cbn.
  set (R := fun a b => (f b <? f a) = false).
  assert (Hs : StronglySorted R (Slice_sort (fun a b => f a <? f b) l)).
  { apply StronglySorted_merge_sort; unfold R.
    - intros a b c. rewrite !Z.ltb_ge. lia.
    - intros a b. rewrite !Z.ltb_ge. lia. }
  revert Hs. generalize (Slice_sort (fun a b => f a <? f b) l). induction 1 as [|a l' Hs IH Ha]; constructor; [done|].
  eapply Forall_impl; [exact Ha|]. intros b. apply Z.ltb_ge.
Qed.

Definition sized (size atime opens : Z) (pending : Z) : item (list byte) :=
  set_pendingAccesses pending (set_opens opens (set_info (mkInfo "" atime size [mkRange 0 size] "") (newItem (Some []) None [] [] 0))).

Definition small_cache : Options := mkOptions 0 100 8 (-1) 1 16 (-1) 0 0 16 0 10.

(** One item is too old, one is in use, and two are old enough to be evicted. *)
Definition full_cache : cache (list byte) :=
  mkCache (<["aged" := sized 3 5 0 0]> (<["used" := sized 4 200 1 0]> (<["old" := sized 6 150 0 0]> {["new" := sized 4 180 0 0]}))) ∅ ∅ false None [] 200.

Lemma full_cache_working : working (c_items full_cache) /\ total (c_items full_cache) = 17.
Proof.
  split; [|by vm_compute]. repeat (apply map_Forall_insert_2; [by split|]). apply map_Forall_empty.
Qed.

Lemma cache_clean_enforces_quota_witness :
  (forall key it', c_items (clean small_cache full_cache) !! key = Some it' -> ~ too_old small_cache full_cache it' \/ unused it' = false) /\
  (total (c_items (clean small_cache full_cache)) <= 8 \/
   forall key it', c_items (clean small_cache full_cache) !! key = Some it' -> item_size it' <> 0 -> held it' = true) /\
  is_Some (c_items (clean small_cache full_cache) !! "used") /\
  over_quota small_cache (filter (fun kv => ~ too_old small_cache full_cache kv.2) (c_items full_cache)) (sized 6 150 0 0).
Proof.
  destruct full_cache_working as [Hw Ht].
  destruct (cache_clean_enforces_quota small_cache ltac:(reflexivity) ltac:(discriminate) full_cache Hw ltac:(rewrite Ht; discriminate)) as (Hq & Hk & Hgone).
  split; [|split; [exact Hq|split]].
  - intros key it' Hit. destruct (Hk key it' Hit) as [[_ ?]|(_ & ? & _)]; [by left|by right].
  - destruct (Hgone "used" (sized 4 200 1 0) ltac:(by vm_compute)) as [->|[(_ & it' & -> & _) _]]; by eexists.
  - destruct (Hgone "old" (sized 6 150 0 0) ltac:(by vm_compute)) as [Hc|[_ [(_ & _ & Hlt)|[[e He]|Ho]]]]; [| | |exact Ho].
    + exfalso. vm_compute in Hc. discriminate Hc.
    + exfalso. vm_compute in Hlt. discriminate Hlt.
    + exfalso. vm_compute in He. discriminate He.
Defined.

Lemma cache_clean_evicts_oldest_first_witness :
  c_items (clean small_cache full_cache) !! "old" = None /\ is_Some (c_items (clean small_cache full_cache) !! "new") /\ 150 <= 180.
Proof.
  assert (Ho : c_items (clean small_cache full_cache) !! "old" = None) by by vm_compute.
  assert (Hn : is_Some (c_items (clean small_cache full_cache) !! "new")) by (vm_compute; by eexists).
  split; [exact Ho|]. split; [exact Hn|]. destruct full_cache_working as [Hw Ht].
  apply (proj1 (cache_clean_evicts_oldest_first small_cache ltac:(reflexivity) ltac:(discriminate) full_cache Hw ltac:(rewrite Ht; discriminate) eq_refl)
    "new" (sized 4 180 0 0) "old" (sized 6 150 0 0)); try done; reflexivity.
Defined.
