(* ===== verification/CacheOpen.v ===== *)
(** * Opening and closing (src/cache/cache.go, Open and Close)

    [Cache.Open] finds or makes the item of a key, opens it and hands out a
    reader; [Cache.Close] gives every item back to the disk.  As in [Cache], one
    operation runs after the other. *)
From stdpp Require Import base numbers list gmap strings.
From Stdlib Require Import ZArith Lia Init.Byte.
From S2P Require Import Prelude.
From S2P Require Import Ranges.
From S2P Require Import SourceObject.
From S2P Require Import Interleave.
From S2P Require Import Options.
From S2P Require Import Item.
From S2P Require Import Cache.

Local Open Scope Z_scope.
Local Open Scope go_scope.
Local Open Scope list_scope.

Section operations.
Context {O : Type} `{GoOrder} (sha256_hex : string -> string) (opt : Options).
Implicit Types c : cache O.

(** [newItem(c, key)]: over the files that are there. *)
Definition fresh_item (key : string) c : item O :=
  match c_gone c !! key with
  | Some old => newItem (it_data old) (it_metaFile old) (it_faults old) (it_rmFaults old) (c_now c)
  | None => newItem None None [] [] (c_now c)
  end.

(** [item := c.items[key]; if item == nil { ... }]. *)
Definition find_item (key : string) c : cache O :=
  match c_items c !! key with
  | Some _ => c
  | None => c_set_items (<[key := fresh_item key c]> (c_items c)) c
  end.

(** What [Open] holds a pointer to: the item it found, which a pass of the
    cleaner may take out of the map. *)
Definition pointed (key : string) c : option (item O) :=
  match c_items c !! key with Some it => Some it | None => c_gone c !! key end.

Definition update_pointed (key : string) (it : item O) c : cache O :=
  match c_items c !! key with
  | Some _ => c_set_items (<[key := it]> (c_items c)) c
  | None => c_set_gone (<[key := it]> (c_gone c)) c
  end.

(** [c.KickCleaner()] with nobody else about: the cleaner makes a pass. *)
Definition KickCleaner_alone c : cache O := if CachePollInterval opt <=? 0 then c else clean opt c.

(** [for range c.opt.LowLevelRetries]; [None]: waits for somebody else. *)
Fixpoint open_loop (retries : nat) (openErr : option error) (key : string) (origin : O) (meta : Metadata) c
  : option (option error * cache O) :=
  match retries with
  | 0%nat => Some (openErr, c)
  | S retries =>
      match pointed key c with
      | None => None
      | Some it =>
          match run_locked (open_attempt sha256_hex key origin meta) it with
          | None => None
          | Some (None, it) => Some (None, update_pointed key it c)
          | Some (Some err, it) =>
              let c := update_pointed key it c in
              if negb (IsNoSpace (Some err)) && negb (no_space_text err) then Some (Some err, c)
              else open_loop retries (Some err) key origin meta (KickCleaner_alone c)
          end
      end
  end.

Definition Cache_Open (key : string) (origin : O) (meta : Metadata) c : option ((Reader + error) * cache O) :=
  if bool_decide (key = ""%string) then Some (inr (Errorf "cache: empty cache key"), c)
  else if MetaSize meta <? 0 then Some (inr (Errorf "cache: object has unknown size"), c)
  else if c_closed c then Some (inr (Errorf "cache: closed"), c)
  else
    match open_loop (Z.to_nat (OptLowLevelRetries opt)) None key origin meta (find_item key c) with
    | None => None
    | Some (Some err, c) => Some (inr err, c)
    | Some (None, c) => Some (inl (mkReader meta 0), c)
    end.

(** A read through a reader of [key]. *)
Definition Cache_Read `{Scheduler O} (key : string) (n : nat) (r : Reader) c : option (list byte * option error * Reader * cache O) :=
  match pointed key c with
  | None => None
  | Some it =>
      match run_locked (Reader_Read opt n r) it with
      | None => None
      | Some (d, err, r, it) => Some (d, err, r, update_pointed key it c)
      end
  end.

(** [c.closeErr] keeps the first error. *)
Fixpoint close_items (keys : list string) c : option (cache O) :=
  match keys with
  | [] => Some c
  | key :: keys =>
      match c_items c !! key with
      | None => close_items keys c
      | Some it =>
          match run_locked actualCloseLocked (set_graceTimer false it) with
          | None => None
          | Some (err, it) =>
              let c := c_set_items (<[key := it]> (c_items c)) c in
              close_items keys
                (match err, c_closeErr c with Some _, None => c_set_closeErr err c | _, _ => c end)
          end
      end
  end.

(** [closeOnce]: only the first call does anything. *)
Definition Cache_Close c : option (option error * cache O) :=
  if c_closed c then Some (c_closeErr c, c)
  else
    let c := c_set_closed true c in
    match close_items (range_keys _ (c_items c)) c with
    | None => None
    | Some c => Some (c_closeErr c, c)
    end.
End operations.

(** ** Sequential runs *)
Definition ends {S A} (P : S -> Prop) (m : locked S A) (Q : A -> S -> Prop) : Prop :=
  forall s, P s -> exists a s', run_locked m s = Some (a, s') /\ Q a s'.

Section ends.
Context {S : Type}.

Lemma ends_bind {A B} (P : S -> Prop) (m : locked S A) (k : A -> locked S B) Q R :
  ends P m Q -> (forall a, ends (Q a) (k a) R) -> ends P (m ≫= k) R.
Proof. intros Hm Hk s Hs. destruct (Hm s Hs) as (a & s1 & Hr & Hq). rewrite run_bind, Hr. by apply Hk. Qed.

Lemma ends_mret {A} (a : A) (P : S -> Prop) (Q : A -> S -> Prop) : (forall s, P s -> Q a s) -> ends P (mret a) Q.
Proof. intros HQ s Hs. exists a, s. split; [done|by apply HQ]. Qed.

Lemma ends_modify f (P Q : S -> Prop) : (forall s, P s -> Q (f s)) -> ends P (modify f) (fun _ s => Q s).
Proof. intros HQ s Hs. exists tt, (f s). split; [done|by apply HQ]. Qed.

Lemma ends_unlock enabled (P : S -> Prop) : (forall s, P s -> enabled s = true) -> ends P (unlock_until enabled) (fun _ s => P s).
Proof. intros He s Hs. exists tt, s. split; [|done]. unfold run_locked, unlock_until. cbn. by rewrite He. Qed.

Lemma ends_pre {A} (P P' : S -> Prop) (m : locked S A) Q : (forall s, P s -> P' s) -> ends P' m Q -> ends P m Q.
Proof. intros HP Hm s Hs. by apply Hm, HP. Qed.

(** A step known to return [a]. *)
Lemma ends_step {A B} (a : A) (P P' : S -> Prop) (m : locked S A) (k : A -> locked S B) R :
  ends P m (fun b s => b = a /\ P' s) -> ends P' (k a) R -> ends P (m ≫= k) R.
Proof. intros Hm Hk. eapply ends_bind; [exact Hm|]. intros b s [-> Hs]. by apply Hk. Qed.

Lemma ends_then {B} (P P' : S -> Prop) f (k : unit -> locked S B) R :
  (forall s, P s -> P' (f s)) -> ends P' (k tt) R -> ends P (modify f ≫= k) R.
Proof. intros Hf Hk. eapply ends_bind; [by apply (ends_modify f P P')|]. by intros []. Qed.

(** Reading the state ends the step-by-step description of it. *)
Lemma ends_look {A B} (f : S -> A) (P : S -> Prop) (k : A -> locked S B) R :
  (forall a, ends (fun s => f s = a /\ P s) (k a) R) -> ends P (get f ≫= k) R.
Proof. intros Hk s Hs. rewrite run_bind. cbn. by apply (Hk (f s)). Qed.

(** What a triple promises of a run without interference. *)
Lemma triple_run {A} (I P : S -> Prop) (m : locked S A) Q s a s' : triple I P m Q -> P s -> run_locked m s = Some (a, s') -> Q a s'.
Proof.
  intros Hm Hs. specialize (Hm s Hs). unfold run_locked. destruct (m s) as [s1 p]. clear Hs. revert s1 Hm.
  induction p as [b|enabled section IH] using proc_section_ind; intros s1 Hp; cbn in *; [by intros [= <- <-]|].
  destruct Hp as [Hi Hp]. destruct (enabled s1) eqn:He; [|done]. specialize (Hp s1 Hi He). specialize (IH s1).
  destruct (section s1) as [s2 p2]. by apply IH.
Qed.
End ends.

(** ** Opening on a working system *)
Section opening.
Context {O : Type} (sha256_hex : string -> string) (key : string).
Implicit Types s : item O.

(** The downloaders that run are the item's own, on its object. *)
Definition owned s : Prop := Forall (fun d => it_downloaders s = Some (fst d) /\ it_object s = Some (snd d)) (it_dls s).

(** Nothing fails, nothing is under way. *)
Record idle (n p : Z) (l : bool) s : Prop := {
  id_faults : it_faults s = [];
  id_rmFaults : it_rmFaults s = [];
  id_reset : it_beingReset s = false;
  id_closing : it_closing s = false;
  id_opens : it_opens s = n;
  id_pending : it_pendingAccesses s = p;
  id_loaded : it_loaded s = l;
  id_owned : owned s;
}.
Context (n p : Z) (l : bool).

Lemma owned_None s : owned s -> it_downloaders s = None \/ it_object s = None -> it_dls s = [].
Proof. unfold owned. destruct (it_dls s) as [|d ds]; [done|]. intros [[H1 H2] _]%Forall_cons. rewrite H1, H2. by intros [|]. Qed.

Lemma syscall_ends (P : item O -> Prop) : (forall s, P s -> it_faults s = []) -> ends P syscall (fun err s => err = None /\ P s).
Proof.
  intros Hf s Hs. exists None, s. split; [|done]. unfold run_locked, syscall, with_state, pop_fault. by rewrite Hf.
Qed.

Lemma check_syscall msg (k : locked (item O) (option error)) P Q : (forall s, P s -> it_faults s = []) ->
  ends P k Q -> ends P (check msg syscall k) Q.
Proof. intros Hf Hk. eapply (ends_step None); [by apply syscall_ends|exact Hk]. Qed.

(** No downloaders run. *)
Definition alone s : Prop := idle n p l s /\ it_dls s = [] /\ it_downloaders s = None.

Lemma closeDownloaders_ends dls : ends (fun s => it_downloaders s = Some dls /\ idle n p l s) (closeDownloaders dls) (fun err s => err = None /\ alone s).
Proof.
  intros s [Hd []]. assert (Hnil : filter (fun d => fst d <> dls) (it_dls s) = []).
  { apply filter_none. intros d Hin. destruct (proj1 (Forall_forall _ _) id_owned0 d Hin) as [Ho _]. rewrite Hd in Ho. injection Ho as <-. by intros []. }
  exists None, (set_dls [] (set_downloaders None s)). split; [|split; [done|]; by split; [split; try done; by apply Forall_nil|]].
  unfold run_locked, closeDownloaders, modify, unlock_until, syscall, with_state, mbind, locked_bind, pop_fault. cbn. by rewrite Hnil, id_faults0.
Qed.

Lemma closeOwn_ends (dls : option nat) : ends (fun s => it_downloaders s = dls /\ idle n p l s)
  (match dls with Some dls => closeDownloaders dls | None => mret None end) (fun err s => err = None /\ alone s).
Proof.
  destruct dls; [apply closeDownloaders_ends|]. apply ends_mret. intros s [Hd Hs]. split; [done|]. split; [done|]. split; [|done].
  apply owned_None; [by destruct Hs|by left].
Qed.

(** No downloaders and no handle. *)
Definition shut s : Prop := alone s /\ it_fd s = false.

Lemma closeFD_ends : ends alone closeFDLocked (fun err s => err = None /\ shut s).
Proof.
  unfold closeFDLocked. apply ends_look. intros [].
  - eapply ends_pre with (P' := alone); [by intros ? []|]. eapply ends_step; [apply syscall_ends; by intros s [[] _]|].
    apply ends_then with (P' := shut); [|by apply ends_mret]. by intros s [[] ?].
  - apply ends_mret. by intros s [].
Qed.

(** A file that is not there is as good as one that has been removed. *)
Lemma Remove_ends {A B} (P P' : item O -> Prop) (file : item O -> option A) remove (k : option error -> locked (item O) B) R :
  (forall s, P s -> it_rmFaults s = []) -> (forall s, P s -> P' (remove s)) -> (forall s, P s -> file s = None -> P' s) ->
  (forall err, ignore_missing err = None -> ends P' (k err) R) -> ends P (os_Remove file remove ≫= k) R.
Proof.
  intros Hrm Hr Hn Hk s Hs. rewrite run_bind. unfold run_locked at 1, os_Remove, with_state. specialize (Hrm s Hs). rewrite Hrm. cbn [drop].
  assert (Heq : set_rmFaults [] s = s) by (destruct s; cbn in *; by subst). rewrite Heq.
  destruct (file s) eqn:Hf; cbn [run_proc]; apply Hk; auto.
Qed.

(** What the reset of an item leaves. *)
Record emptied s : Prop := {
  em_idle : idle n p l s;
  em_fd : it_fd s = false;
  em_meta : it_metaFile s = None;
  em_Rs : item_Rs s = [];
}.

Lemma resetLocked_ends : ends (idle n p l) (resetLocked key) (fun err s => err = None /\ emptied s).
Proof.
  unfold resetLocked. apply ends_look. intros dls. eapply ends_step; [apply closeOwn_ends|]. eapply ends_step; [apply closeFD_ends|].
  apply Remove_ends with (P' := shut); [by intros s [[[] _] _]|by intros s [[[] ?] ?]|done|]. intros err1 ->.
  apply Remove_ends with (P' := fun s => shut s /\ it_metaFile s = None); [by intros s [[[] _] _]|by intros s [[[] ?] ?]|done|]. intros err2 ->.
  apply ends_then with (P' := emptied); [|by apply ends_mret]. intros s [[[[] [Hd _]] ?] ?].
  split; try done. split; try done. unfold owned. cbn. rewrite Hd. by apply Forall_nil.
Qed.
End opening.

Section opened.
Context {O : Type} (sha256_hex : string -> string) (key : string).
Implicit Types s : item O.
Context (n p : Z).

Lemma loadLocked_ends l : ends (fun s => idle n p l s /\ (forall info, it_metaFile s = Some (Stored info) -> InfoKey info = key))
  (loadLocked key) (fun err s => err = None /\ idle n p l s).
Proof.
  unfold loadLocked. eapply (ends_step None); [apply syscall_ends; by intros s [[] _]|]. apply ends_look. intros [[|info]|].
  - eapply ends_pre with (P' := idle n p l); [by intros ? (_ & ? & _)|].
    do 2 (apply Remove_ends with (P' := idle n p l); [by intros s []|by intros s []|done|]; intros ? _).
    apply ends_then with (P' := idle n p l); [by intros ? []|by apply ends_mret].
  - intros s (Hm & Hs & Hk). rewrite bool_decide_true by by apply Hk. exists None, (set_info info s). split; [done|]. by destruct Hs.
  - eapply ends_pre with (P' := idle n p l); [by intros ? (_ & ? & _)|].
    apply ends_then with (P' := idle n p l); [by intros ? []|by apply ends_mret].
Qed.

(** The handle is open; the file has the size of the object. *)
Definition has_fd s : Prop := idle n p true s /\ it_fd s = true /\ is_Some (it_data s).
Definition has_size (size : Z) s : Prop := has_fd s /\ forall d, it_data s = Some d -> Z.of_nat (length d) = size.

Lemma openLocked_fd_ends : ends (fun s => idle n p true s /\ file_ok s) openLocked_fd (fun err s => err = None /\ has_fd s).
Proof.
  unfold openLocked_fd. apply ends_look. intros [].
  - apply ends_mret. intros s (Hfd & Hs & Hf). by split; [|split; [|split; [|apply Hf]]].
  - eapply ends_pre with (P' := idle n p true); [by intros ? (_ & ? & _)|].
    eapply ends_bind with (Q := fun _ => idle n p true).
    { unfold os_Stat_data. eapply ends_step; [apply syscall_ends; by intros s []|]. apply ends_pre with (P' := idle n p true); [done|].
      intros s Hs. by do 2 eexists. }
    intros err. apply ends_then with (P' := idle n p true); [intros ? []; by destruct (_ && _)|].
    eapply (ends_step None); [|by apply ends_mret]. unfold os_OpenFile_data. eapply ends_step; [apply syscall_ends; by intros s []|].
    apply ends_then with (P' := has_fd); [|by apply ends_mret]. intros s []. split; [by split|]. split; [done|]. by eexists.
Qed.

Lemma truncate_length size d : 0 <= size -> Z.of_nat (length (truncate_file size d)) = size.
Proof. intros Hs. unfold truncate_file. rewrite length_app, length_take, length_replicate. lia. Qed.

Lemma openLocked_size_ends meta : 0 <= MetaSize meta ->
  ends has_fd (openLocked_size meta) (fun err s => err = None /\ has_size (MetaSize meta) s).
Proof.
  intros Hsz. unfold openLocked_size. apply check_syscall; [by intros s [[] _]|]. apply ends_look. intros d.
  destruct (Z.eqb_spec (Z.of_nat (length (default [] d))) (MetaSize meta)) as [Heq|_].
  - apply ends_mret. intros s [<- Hs]. split; [done|]. split; [done|]. intros d Hd. by rewrite Hd in Heq.
  - eapply ends_pre with (P' := has_fd); [by intros ? []|]. eapply (ends_step None).
    + unfold fd_Truncate. eapply ends_step; [apply syscall_ends; by intros s [[] _]|].
      apply ends_then with (P' := has_size (MetaSize meta)); [|by apply ends_mret].
      intros s ([] & Hfd & [d0 Hd0]). split; [split; [by split|]|]; cbn; rewrite Hd0; [by split; [|eexists]|].
      intros d1 [= <-]. by apply truncate_length.
    + apply ends_then with (P' := has_size (MetaSize meta)); [|by apply ends_mret]. intros s [[[] ?] ?]. by split; [split; [split|]|].
Qed.

Lemma saveLocked_ends (P : item O -> Prop) : (forall s, P s -> it_faults s = []) ->
  (forall s, P s -> P (set_metaFile (Some (Stored (it_info s))) s)) -> ends P saveLocked (fun err s => err = None /\ P s).
Proof. intros Hf Hm. unfold saveLocked. do 7 (apply check_syscall; [done|]). apply ends_then with (P' := P); [done|by apply ends_mret]. Qed.

(** What a successful open leaves. *)
Record opened (origin : O) (meta : Metadata) s : Prop := {
  op_size : has_size (MetaSize meta) s;
  op_info : InfoSize (it_info s) = MetaSize meta /\ InfoFingerprint (it_info s) = metadataFingerprint sha256_hex meta /\ InfoKey (it_info s) = key;
  op_object : exists ref, it_object s = Some ref /\ forall o, it_objects s !! ref = Some o -> so_origin o = origin;
}.
End opened.

(** ** Opening an item of the right content *)
Section openable.
Context {O : Type} (content_of : O -> list byte) (sha256_hex : string -> string) (opt : Options) (key : string).
Context (content : list byte) (origin : O) (meta : Metadata).
Context (content_max : Z.of_nat (length content) <= MaxInt64) (is_origin : content_of origin = content)
  (is_size : MetaSize meta = Z.of_nat (length content)).
Implicit Types s : item O.

Notation fingerprint := (metadataFingerprint sha256_hex meta).

(** The invariant of the item for this version, whatever object it points to: the
    open replaces it. *)
Notation good := (inv (fun _ : O => content) content (fun f => f = fingerprint)).
Notation settled := (settled (fun _ : O => content) content).

(** Loaded with the ranges of another version, which nobody has open now. *)
Record outdated s : Prop := {
  od_loaded : it_loaded s = true;
  od_opens : it_opens s <= 0;
  od_wf : wf (item_Rs s);
  od_file : file_ok s;
  od_other : ~ (InfoFingerprint (it_info s) = fingerprint /\ InfoFingerprint (it_info s) <> ""%string);
}.

(** An item that [Open] can open: it belongs to the key, what it trusts or its
    files say of this version is true, or it is of another version, which then
    nobody has open. *)
Record openable s : Prop := {
  ob_inv : good s \/ outdated s;
  ob_idle : exists n p l, idle n p l s /\ (n <= 0 \/ l = true /\ InfoFingerprint (it_info s) = fingerprint);
  ob_key : it_loaded s = false -> forall info, it_metaFile s = Some (Stored info) -> InfoKey info = key;
}.

Lemma ends_and {A} (P P' : item O -> Prop) (m : locked (item O) A) Q Q' :
  ends P m Q -> triple good P' m Q' -> ends (fun s => P s /\ P' s) m (fun a s => Q a s /\ Q' a s).
Proof.
  intros Hm Ht s [Hs Hs']. destruct (Hm s Hs) as (a & s' & Hrun & HQ). exists a, s'. split; [done|]. split; [done|]. by eapply triple_run.
Qed.

Lemma ends_and_step {A B} (a : A) (P P' P1 P1' : item O -> Prop) (m : locked (item O) A) Q' (k : A -> locked (item O) B) R :
  ends P m (fun b s => b = a /\ P1 s) -> triple good P' m Q' -> (forall s, Q' a s -> P1' s) ->
  ends (fun s => P1 s /\ P1' s) (k a) R -> ends (fun s => P s /\ P' s) (m ≫= k) R.
Proof.
  intros Hm Ht Hq Hk. eapply ends_bind; [by eapply ends_and|]. intros b s [[-> H1] H2]. apply Hk. split; [done|by apply Hq].
Qed.

(** From the size check on. *)
Lemma open_finish n p :
  ends (fun s => has_size n p (MetaSize meta) s)
    (modify (set_origin origin meta);; modify (set_meta meta);;
     modify (fun s => set_info (mkInfo key (it_clock s) (MetaSize meta) (InfoRs (it_info s)) fingerprint) s);;
     createDownloadersLocked;;
     err ← saveLocked;
     match err with
     | Some err => mret (Some err)
     | None => modify (fun s => set_opens (it_opens s + 1) s);; mret None
     end)
    (fun err s => err = None /\ opened sha256_hex key (n + 1) p origin meta s).
Proof.
  set (obj := fun s => exists ref, it_object s = Some ref /\ forall o, it_objects s !! ref = Some o -> so_origin o = origin).
  set (P := opened (O:=O) sha256_hex key n p origin meta).
  apply ends_then with (P' := fun s => has_size n p (MetaSize meta) s /\ obj s).
  { intros s [[[] ?] ?]. unfold set_origin, obj. destruct (it_object s) as [ref|] eqn:Hr.
    - split; [by split; [split; [split|]|]|]. exists ref. split; [done|]. cbn. intros o.
      rewrite list_lookup_alter, decide_True by done. destruct (it_objects s !! ref); [|done]. by intros [= <-].
    - split; [split; [split; [split|]|]; try done|].
      + unfold owned. cbn. rewrite (owned_None s); [by apply Forall_nil|done|by right].
      + eexists. split; [done|]. cbn. intros o. rewrite list_lookup_middle by done. by intros [= <-]. }
  apply ends_then with (P' := fun s => has_size n p (MetaSize meta) s /\ obj s); [intros s [[[[] ?] ?] ?]; by split; [split; [split; [split|]|]|]|].
  apply ends_then with (P' := P); [intros s [[[[] ?] ?] ?]; by split; [split; [split; [split|]|]|..]|].
  unfold createDownloadersLocked. apply ends_then with (P' := P).
  { intros s Hs. destruct (it_downloaders s) eqn:Hd, (it_object s) as [ref|] eqn:Hr; try done. destruct (_ <=? _); [done|].
    destruct Hs as [[[[] ?] ?] ? Hobj]. split; [split; [split; [split|]|]| |]; try done. unfold owned. cbn.
    rewrite (owned_None s); [by apply Forall_singleton|done|by left]. }
  eapply (ends_step None).
  { apply (saveLocked_ends P); [by intros s [[[[] _] _] _]|]. intros s [[[[] ?] ?] ? ?]. by split; [split; [split; [split|]|]|..]. }
  apply ends_then with (P' := opened sha256_hex key (n + 1) p origin meta); [|by apply ends_mret].
  intros s [[[[] ?] ?] ? ?]. split; [split; [split; [split|]|]|..]; try done. cbn. lia.
Qed.

Lemma emptied_settled n p l s : emptied n p l s -> settled s.
Proof.
  intros [[] Hfd Hm Hrs]. split; [split|..].
  - rewrite Hrs. apply wf_nil.
  - intros x. rewrite Hrs. by intros ?%covers_nil.
  - intros Hf. congruence.
  - done.
  - rewrite id_rmFaults0. by apply Forall_nil.
  - intros _ m. by rewrite Hm.
Qed.

(** Nothing to reset: the ranges are this version's, or there are none. *)
Lemma kept_settled s : it_rmFaults s = [] -> good s /\ it_loaded s = true \/ outdated s -> Ranges_Size (item_Rs s) = 0 \/ InfoFingerprint (it_info s) = fingerprint /\ InfoFingerprint (it_info s) <> ""%string ->
  settled s.
Proof.
  intros Hrm [[[] Hl]|[Hl _ Hwf Hfile Hother]] Hkeep; [by split; try done; rewrite Hl|]. destruct Hkeep as [Hz|]; [|done].
  assert (Hnil : item_Rs s = []) by by apply Size_nil. split; [split; [done|]|done|done|rewrite Hrm; by apply Forall_nil|by rewrite Hl].
  intros x. rewrite Hnil. by intros ?%covers_nil.
Qed.

(** The check of the version leaves no byte of another one. *)
Lemma openLocked_version_ends n p :
  ends (fun s => idle n p true s /\ (n <= 0 \/ InfoFingerprint (it_info s) = fingerprint) /\ (good s \/ outdated s))
    (openLocked_version sha256_hex key meta) (fun err s => err = None /\ idle n p true s /\ settled s).
Proof.
  unfold openLocked_version. apply ends_look. intros s0. cbv zeta. cbn [id]. destruct (Z.ltb_spec 0 (it_opens s0)) as [Hpos|_].
  - intros s [<- [Hs [Hfp Hin]]]. cbn [id] in *. assert (Heq : InfoFingerprint (it_info s) = fingerprint) by (destruct Hfp; [destruct Hs; lia|done]).
    rewrite bool_decide_true by done. exists None, s. split; [done|]. split; [done|]. split; [done|].
    destruct Hin as [[]|[]]; [|lia]. split; try done. by rewrite (id_loaded _ _ _ _ Hs).
  - destruct (_ && _) eqn:Hreset.
    + eapply ends_pre with (P' := idle n p true); [by intros ? (_ & ? & _)|]. eapply ends_step; [apply resetLocked_ends|].
      apply ends_mret. intros s Hs. split; [done|]. split; [apply Hs|by eapply emptied_settled].
    + apply ends_mret. intros s [<- [Hs [_ Hin]]]. split; [done|]. split; [done|]. cbn [id] in *. apply kept_settled; [apply Hs|..].
      * destruct Hin; [left; split; [done|apply Hs]|by right].
      * apply andb_false_iff in Hreset as [Hz|Hf]; [left; by apply negb_false_iff, Z.eqb_eq in Hz|right].
        apply orb_false_iff in Hf as [[_ H2]%orb_false_iff H3]. apply bool_decide_eq_false in H2.
        by apply negb_false_iff, bool_decide_eq_true in H3.
Qed.

Lemma outdated_loaded s : just_loaded (fun _ : O => content) content (fun f => f = fingerprint) s -> good s \/ outdated s.
Proof.
  intros [[? _]|((Hfd & _ & _) & Hwf & (Hn & Ho & _ & _) & Hl)]; [by left|right]. split; try done. intros Hf. congruence.
Qed.

Definition enter n p l s : Prop :=
  idle n p l s /\ (n <= 0 \/ l = true /\ InfoFingerprint (it_info s) = fingerprint) /\
  (l = false -> forall info, it_metaFile s = Some (Stored info) -> InfoKey info = key) /\ (good s \/ outdated s).

Lemma openLocked_ends n p l :
  ends (enter n p l) (openLocked sha256_hex key origin meta) (fun err s => (err = None /\ opened sha256_hex key (n + 1) p origin meta s) /\ good s).
Proof.
  set (L := fun s => idle n p true s /\ (n <= 0 \/ InfoFingerprint (it_info s) = fingerprint) /\ (good s \/ outdated s)).
  unfold openLocked. apply ends_look. intros []; [intros s (Hc & [Hs _]); destruct Hs; congruence|].
  apply ends_step with (a := tt) (P' := enter n p l); [apply ends_mret; by intros s [_ Hs]|].
  apply ends_then with (P' := enter n p l).
  { intros s ([] & Hfp & Hk & Hi). split; [by split|]. split; [done|]. split; [done|]. destruct Hi as [Hi|[]]; [left|by right].
    eapply inv_view; [|exact Hi]. keep_view. }
  apply ends_look. intros loaded. eapply ends_step with (a := None) (P' := L).
  { destruct loaded.
    - apply ends_mret. intros s (Hl & Hs & Hfp & _ & Hi). split; [done|]. assert (l = true) as -> by (destruct Hs; congruence).
      split; [done|]. split; [|done]. destruct Hfp as [|[_ ?]]; [by left|by right].
    - apply ends_pre with (P' := fun s => (idle n p false s /\ n <= 0 /\ (forall info, it_metaFile s = Some (Stored info) -> InfoKey info = key)) /\
        good s /\ it_loaded s = false).
      { intros s (Hl & Hs & Hfp & Hk & Hi). assert (l = false) as -> by (destruct Hs; congruence). split.
        - split; [done|]. destruct Hfp as [?|[? _]]; [|done]. split; [done|by apply Hk].
        - split; [|done]. destruct Hi as [|[]]; [done|congruence]. }
      eapply ends_and_step with (a := None) (P1 := fun s => idle n p false s /\ n <= 0) (P1' := fun s => just_loaded (fun _ : O => content) content (fun f => f = fingerprint) (set_loaded true s)).
      + intros s (Hs & Hn & Hk). destruct (loadLocked_ends key n p false s (conj Hs Hk)) as (a & s' & Hrun & -> & Hs'). by exists None, s'.
      + by apply loadLocked_spec.
      + done.
      + apply ends_then with (P' := L); [|by apply ends_mret]. intros s [[[] Hn] Hj]. split; [by split|]. split; [by left|by apply outdated_loaded]. }
  eapply ends_step with (a := None); [apply openLocked_version_ends|].
  cbn beta iota. do 2 (apply check_syscall; [by intros s [[] _]|]).
  eapply ends_pre with (P' := fun s => (idle n p true s /\ file_ok s) /\ settled s).
  { intros s [? Hs]. split; [split; [done|apply Hs]|done]. }
  eapply ends_and_step with (a := None) (P1' := settled); [apply openLocked_fd_ends|by apply openLocked_fd_spec|by intros s Hs; exact Hs|].
  eapply ends_and_step with (a := None) (P1' := settled); [apply openLocked_size_ends; lia|by apply openLocked_size_spec|by intros s Hs; exact Hs|].
  apply ends_and; [apply open_finish|by apply open_tail_inv].
Qed.

Lemma opened_ready n p s : opened sha256_hex key n p origin meta s -> good s -> ready content_of content s.
Proof.
  intros [[[[] [Hfd Hd]] Hlen] [Hsz _] (ref & Hobj & Horig)] []. split; try done; [|congruence|].
  - split; try done; [|congruence]. intros r o [Hl|(d & -> & Hin)%list_elem_of_fmap] Ho.
    + rewrite Hobj in Hl. injection Hl as <-. by rewrite (Horig o Ho).
    + destruct (proj1 (Forall_forall _ _) id_owned0 d Hin) as [_ Hl]. rewrite Hobj in Hl. injection Hl as Hl. rewrite <- Hl in Ho. by rewrite (Horig o Ho).
  - intros d Hdd. specialize (Hlen d Hdd). lia.
Qed.

Lemma open_attempt_ends s : openable s -> exists s', run_locked (open_attempt sha256_hex key origin meta) s = Some (None, s') /\
  ready content_of content s' /\ good s' /\ it_opens s' = it_opens s + 1 /\ it_pendingAccesses s' = it_pendingAccesses s.
Proof.
  intros [Hi (n & p & l & Hs & Hfp) Hk].
  assert (He : ends (fun s0 => s0 = s) (open_attempt sha256_hex key origin meta)
    (fun err s => err = None /\ opened sha256_hex key (n + 1) p origin meta s /\ good s)).
  { unfold open_attempt. apply ends_step with (a := tt) (P' := fun s0 => s0 = s).
    { intros s0 ->. exists tt, s. split; [|done]. unfold run_locked, locking. cbn. unfold not_reset. by rewrite (id_reset _ _ _ _ Hs). }
    unfold add_pending. apply ends_then with (P' := enter n (p + 1) l).
    { intros s0 ->. split; [destruct Hs; split; try done; cbn; lia|]. split; [done|]. split; [intros ->; apply Hk; by destruct Hs|].
      destruct Hi as [Hi|[]]; [left; eapply inv_view; [|exact Hi]; keep_view|by right]. }
    eapply ends_bind; [apply openLocked_ends|]. intros err.
    apply ends_then with (P' := fun s => err = None /\ opened sha256_hex key (n + 1) p origin meta s /\ good s).
    - intros s0 [[-> [[[[] [Hfd Hd]] Hlen] Hinfo Hobj]] Hg]. split; [done|]. split; [|eapply inv_view; [|exact Hg]; keep_view].
      split; [split; [split; [split; try done; cbn; lia|done]|done]|done..].
    - apply ends_mret. by intros s0 [-> ?]. }
  destruct (He s eq_refl) as (err & s' & Hrun & -> & Ho & Hg). exists s'. split; [done|].
  split; [by eapply opened_ready|]. split; [done|]. destruct Ho as [[[[] _] _] _ _], Hs. split; congruence.
Qed.

(** Earlier metadata: they say something of this version only under its
    fingerprint. *)
Definition describes_data (i : itemInfo) (data : option (list byte)) : Prop :=
  wf (InfoRs i) /\
  (InfoFingerprint i = fingerprint -> InfoFingerprint i <> ""%string -> forall x, covers (InfoRs i) x -> 0 <= x < Z.of_nat (length content) /\
     (match data with Some d => d !! Z.to_nat x | None => None end) = content !! Z.to_nat x).

(** [newItem] over no files, or those of an earlier process, of any version. *)
Lemma fresh_openable data metaFile clock :
  match metaFile with Some (Stored i) => InfoKey i = key /\ describes_data i data | _ => True end ->
  openable (newItem data metaFile [] [] clock).
Proof.
  intros Hf. split.
  - left. split; cbn; try done.
    + split; [apply wf_nil|]. by intros x ?%covers_nil.
    + intros _ m Hm. cbn in Hm. subst metaFile. destruct m as [|i]; cbn; [done|]. destruct Hf as (Hk & Hwf & Hf). split; [done|].
      destruct (decide (InfoFingerprint i = ""%string)) as [He|He]; [right; split; [by intros []|done]|].
      destruct (decide (InfoFingerprint i = fingerprint)) as [Heq|Hne]; [left|right; split; [by intros []|done]].
      intros x Hx. by apply Hf.
  - exists 0, 0, false. split; [|left; lia]. split; try done. by apply Forall_nil.
  - cbn. intros _ info ->. apply Hf.
Qed.

(** What [loadExistingMeta] makes of the files, of any version. *)
Lemma loaded_openable data metaFile clock i : describes_data i data ->
  openable (set_loaded true (set_info i (newItem data metaFile [] [] clock))).
Proof.
  intros [Hwf Hd]. split.
  - destruct (decide (InfoFingerprint i = fingerprint /\ InfoFingerprint i <> ""%string)) as [[Heq Hne]|Hother]; [left|by right; split].
    split; cbn; try done. split; [done|]. intros x Hx. by apply Hd.
  - exists 0, 0, true. split; [|left; lia]. split; try done. by apply Forall_nil.
  - done.
Qed.

(** An item that has been opened, once more. *)
Lemma opened_openable n p s : opened sha256_hex key n p origin meta s -> good s -> openable s.
Proof.
  intros [[[Hs _] _] (_ & Hf & _) _] Hg. split; [by left| |].
  - exists n, p, true. split; [done|]. by right.
  - intros Hl. by rewrite (id_loaded _ _ _ _ Hs) in Hl.
Qed.

(** An item that this process has had open on another version, in its grace
    period or closed: whatever its ranges say of that version. *)
Lemma changed_openable n p s : idle n p true s -> n <= 0 -> wf (item_Rs s) -> file_ok s -> InfoFingerprint (it_info s) <> fingerprint ->
  openable s.
Proof.
  intros Hs Hn Hwf Hf Hother. split.
  - right. split; [apply Hs|by rewrite (id_opens _ _ _ _ Hs)|done|done|]. by intros [? _].
  - exists n, p, true. split; [done|by left].
  - intros Hl. by rewrite (id_loaded _ _ _ _ Hs) in Hl.
Qed.
End openable.

(** ** The cache *)
Section reads.
Context {O : Type} `{GoOrder} (content_of : O -> list byte) (sha256_hex : string -> string) (opt : Options) (key : string).
Context `{!Scheduler O} `{!SchedulerOK content_of} `{!SchedulerDelivers (O:=O)}.
Implicit Types c : cache O.

(** Reads one after the other, into buffers of the given sizes, up to the first
    error. *)
Fixpoint Cache_reads (sizes : list nat) (r : Reader) c : option (list byte * option error * Reader * cache O) :=
  match sizes with
  | [] => Some ([], None, r, c)
  | n :: sizes =>
      match Cache_Read opt key n r c with
      | None => None
      | Some (d, Some err, r, c) => Some (d, Some err, r, c)
      | Some (d, None, r, c) =>
          match Cache_reads sizes r c with
          | None => None
          | Some (d', err, r, c) => Some (d ++ d', err, r, c)
          end
      end
  end.

Lemma pointed_update it c : is_Some (pointed key c) -> pointed key (update_pointed key it c) = Some it.
Proof.
  unfold pointed, update_pointed. intros Hp. destruct (c_items c !! key) eqn:Hk; cbn; [by rewrite lookup_insert_eq|].
  by rewrite Hk, lookup_insert_eq.
Qed.

(** What reads of [sizes] bytes give from [off] on: what the content has there,
    and the end of the file when that is less than they ask for; or what they give
    before the one whose download fails, and its error. *)
Definition reads_result (content : list byte) (sizes : list nat) (off : Z) (d : list byte) (err : option error) : Prop :=
  (d, err) = exact_read content (sum_list sizes) off \/
  exists k n e, sizes !! k = Some n /\ (d, None) = exact_read content (sum_list (take k sizes)) off /\
    err = Some e /\ download_failed content_of content (read_request content n (off + Z.of_nat (length d))) e.

Lemma exact_read_full (content : list byte) n off : 0 <= off -> snd (exact_read content n off) = None -> length (fst (exact_read content n off)) = n.
Proof.
  intros Ho. pose proof (length_exact_read content n off Ho) as Hl. unfold exact_read in *. cbn [fst snd] in *.
  destruct (Nat.ltb_spec (length (slice off (off + Z.of_nat n) content)) n); [done|]. intros _. lia.
Qed.

Lemma exact_read_0 (content : list byte) n : exact_read content n 0 = (take n content, if (n <=? length content)%nat then None else Some io_EOF).
Proof.
  unfold exact_read, slice. rewrite Z.add_0_l, Z.sub_0_r, Nat2Z.id. change (drop (Z.to_nat 0) content) with content. rewrite length_take.
  destruct (Nat.ltb_spec (min n (length content)) n), (Nat.leb_spec n (length content)); (done || lia).
Qed.

(** A full read and what comes after it. *)
Lemma exact_read_app (content : list byte) n m off d d' err : 0 <= off -> (d, None) = exact_read content n off ->
  (d', err) = exact_read content m (off + Z.of_nat n) -> (d ++ d', err) = exact_read content (n + m) off.
Proof.
  intros Ho Hd Hd'. pose proof (exact_read_full content n off Ho) as Hn. rewrite <- Hd in Hn. cbn in Hn. specialize (Hn eq_refl).
  unfold exact_read in *. injection Hd as Hd _. injection Hd' as Hd' He.
  assert (Happ : slice off (off + Z.of_nat (n + m)) content = d ++ d') by (rewrite Hd, Hd', slice_app by lia; f_equal; lia).
  rewrite Happ, length_app, Hn. f_equal. rewrite He, <- Hd'.
  destruct (Nat.ltb_spec (length d') m), (Nat.ltb_spec (n + length d') (n + m)); (done || lia).
Qed.

(** A short read: more has nothing more. *)
Lemma exact_read_short (content : list byte) n m off d e : 0 <= off -> (d, Some e) = exact_read content n off -> (n <= m)%nat ->
  (d, Some e) = exact_read content m off.
Proof.
  intros Ho Hd Hm. pose proof (length_exact_read content n off Ho) as Hn. pose proof (length_exact_read content m off Ho) as Hm'.
  unfold exact_read in *. cbn [fst] in *. destruct (Nat.ltb_spec (length (slice off (off + Z.of_nat n) content)) n); [|done]. injection Hd as -> ->.
  destruct (Nat.ltb_spec (length (slice off (off + Z.of_nat m) content)) m); [|lia]. f_equal. by rewrite !slice_to_end by lia.
Qed.

Lemma Cache_reads_spec content sizes : Z.of_nat (length content) <= MaxInt64 -> 0 < OptLowLevelRetries opt -> forall r c it,
  pointed key c = Some it -> ready content_of content it -> MetaSize (rd_meta r) = Z.of_nat (length content) ->
  0 <= rd_off r -> rd_off r + Z.of_nat (sum_list sizes) <= MaxInt64 ->
  exists d err r' c', Cache_reads sizes r c = Some (d, err, r', c') /\ reads_result content sizes (rd_off r) d err.
Proof.
  intros Hmax Hretry. induction sizes as [|n sizes IH]; intros r c it Hp Hr Hsz Ho Hsum; cbn [Cache_reads sum_list_with id] in *.
  { exists [], None, r, c. split; [done|]. left. rewrite exact_read_nil; [done..|]. by left. }
  unfold Cache_Read. rewrite Hp.
  destruct (Reader_Read_run content_of opt content Hmax it n r Hr Hretry Hsz Ho ltac:(lia)) as (d & err & it' & Hrun & Hr' & Hres).
  rewrite Hrun. destruct Hres as [Hex|(Hlt & e & [= -> ->] & Hfail)].
  2:{ do 4 eexists. split; [done|]. right. exists 0%nat, n, e. cbn [take sum_list_with length]. rewrite exact_read_nil by (done || by left).
      by rewrite Z.add_0_r. }
  destruct err as [err|].
  { do 4 eexists. split; [done|]. left. eapply exact_read_short; [done|exact Hex|cbn; lia]. }
  pose proof (exact_read_full content n (rd_off r) Ho) as Hlen. rewrite <- Hex in Hlen. specialize (Hlen eq_refl). cbn [fst] in Hlen.
  destruct (IH (mkReader (rd_meta r) (rd_off r + Z.of_nat (length d))) (update_pointed key it' c) it') as (d' & err' & r' & c' & Hrs & Hd');
    [apply pointed_update; by eexists|done|done|cbn; lia|cbn; lia|].
  rewrite Hrs. exists (d ++ d'), err', r', c'. split; [done|]. cbn [rd_off] in Hd'. rewrite Hlen in Hd'.
  destruct Hd' as [Hd'|(k & m & e & Hk & Hd' & -> & Hfail)]; [left; by eapply exact_read_app|right].
  exists (S k), m, e. split; [done|]. split; [by eapply exact_read_app|]. split; [done|].
  rewrite length_app, Hlen, Nat2Z.inj_add, Z.add_assoc. exact Hfail.
Qed.

(** What a working [Open] leaves: the reader at the start, the item ready. *)
Lemma Cache_Open_ready (content : list byte) (origin : O) (meta : Metadata) (c : cache O) :
  Z.of_nat (length content) <= MaxInt64 -> content_of origin = content -> MetaSize meta = Z.of_nat (length content) ->
  0 < OptLowLevelRetries opt -> key <> ""%string -> c_closed c = false ->
  (forall it, pointed key (find_item key c) = Some it -> openable sha256_hex key content meta it) ->
  exists c' it, Cache_Open sha256_hex opt key origin meta c = Some (inl (mkReader meta 0), c') /\
    pointed key c' = Some it /\ ready content_of content it.
Proof.
  intros Hmax Ho Hsz Hretry Hkey Hcl Hob. unfold Cache_Open. rewrite bool_decide_false, Hcl by done.
  destruct (Z.ltb_spec (MetaSize meta) 0); [lia|]. destruct (Z.to_nat (OptLowLevelRetries opt)) as [|retries] eqn:Hn; [lia|]. cbn [open_loop].
  destruct (pointed key (find_item key c)) as [it|] eqn:Hp.
  2:{ unfold pointed, find_item in Hp. destruct (c_items c !! key) eqn:Hk; cbn in Hp; [by rewrite Hk in Hp|by rewrite lookup_insert_eq in Hp]. }
  destruct (open_attempt_ends content_of sha256_hex key content origin meta Hmax Ho Hsz it (Hob it eq_refl)) as (it' & Hrun & Hr & _). rewrite Hrun.
  eexists _, it'. split; [done|]. split; [|done]. apply pointed_update. by eexists.
Qed.
End reads.

(** C4. Theorem cache_Open_reads_the_object: on a working system, opening an
    object succeeds at the first attempt whatever the cache has under its key: no
    item, files of an earlier process, an item that [New] loaded from them, or one
    of this process, in use, in its grace period or closed; and of this version or
    of another one, unless that one is open (what is kept under this version's
    fingerprint has to be true of it).  Reads through the reader that it returns
    give the bytes of the object from its start, all that they ask for, or those
    up to its end with [io.EOF]; or, when the downloaders fail, those before the
    read that failed, with the error that the downloaders gave for it. *)
Theorem cache_Open_reads_the_object {O} `{GoOrder} `{!Scheduler O} (content_of : O -> list byte) `{!SchedulerOK content_of} `{!SchedulerDelivers (O:=O)}
    (sha256_hex : string -> string) (opt : Options) (key : string) (content : list byte) (origin : O) (meta : Metadata) (c : cache O) sizes :
  Z.of_nat (length content) <= MaxInt64 -> content_of origin = content -> MetaSize meta = Z.of_nat (length content) ->
  0 < OptLowLevelRetries opt -> key <> ""%string -> c_closed c = false ->
  (forall it, pointed key (find_item key c) = Some it -> openable sha256_hex key content meta it) ->
  Z.of_nat (sum_list sizes) <= MaxInt64 ->
  exists r c', Cache_Open sha256_hex opt key origin meta c = Some (inl r, c') /\
    exists d err r' c2, Cache_reads opt key sizes r c' = Some (d, err, r', c2) /\
      (d = take (sum_list sizes) content /\ err = (if (sum_list sizes <=? length content)%nat then None else Some io_EOF) \/
       exists k n e, sizes !! k = Some n /\ d = take (sum_list (take k sizes)) content /\ length d = sum_list (take k sizes) /\
         err = Some e /\ download_failed content_of content (read_request content n (Z.of_nat (length d))) e).
Proof.
  intros Hmax Ho Hsz Hretry Hkey Hcl Hob Hsum.
  destruct (Cache_Open_ready content_of sha256_hex opt key content origin meta c Hmax Ho Hsz Hretry Hkey Hcl Hob) as (c' & it & Hopen & Hp & Hr).
  exists (mkReader meta 0), c'. split; [done|].
  destruct (Cache_reads_spec content_of opt key content sizes Hmax Hretry (mkReader meta 0) c' it) as (d & err & r' & c2 & Hrs & Hd); [done..|].
  exists d, err, r', c2. split; [done|]. cbn [rd_off] in Hd. destruct Hd as [Hd|(k & n & e & Hk & Hd & -> & Hfail)].
  - left. rewrite exact_read_0 in Hd. by injection Hd.
  - right. exists k, n, e. rewrite exact_read_0 in Hd. injection Hd as Hd Hle. split_and!; try done.
    destruct (Nat.leb_spec (sum_list (take k sizes)) (length content)); [|done]. rewrite Hd, length_take. lia.
Qed.

(** A process left two bytes of the object; the next one reads all four. *)
Definition old_info (n : Z) : itemInfo := mkInfo "key" 7 4 [mkRange 0 n] (metadataFingerprint id meta_old).
Definition left_behind : cache (list byte) :=
  mkCache ∅ {["key" := newItem (Some [x00; x01; x00; x00]) (Some (Stored (old_info 2))) [] [] 0]} ∅ false None [] 10.

(** The old version was loaded; the new one is opened. *)
Definition loaded_old : cache (list byte) :=
  mkCache {["key" := set_loaded true (set_info (old_info 4) (newItem (Some demo_old) (Some (Stored (old_info 4))) [] [] 0))]} ∅ ∅ false None [] 10.

Lemma left_behind_openable it : pointed "key" (find_item "key" left_behind) = Some it -> openable id "key" demo_old meta_old it.
Proof.
  intros [= <-]. apply fresh_openable. split; [reflexivity|]. split; [cbn; solve_ranges|]. intros _ _ x Hx. apply Exists_cons in Hx as [Hx|[]%Exists_nil].
  assert (Hx2 : x = 0 \/ x = 1) by (unfold elem_of, Range_elem in Hx; cbn in Hx; lia).
  destruct Hx2 as [-> | ->]; (split; [cbn; lia|reflexivity]).
Qed.

Lemma loaded_old_openable it : pointed "key" (find_item "key" loaded_old) = Some it -> openable id "key" demo_new meta_new it.
Proof. intros [= <-]. apply loaded_openable. split; [cbn; solve_ranges|]. intros Heq. vm_compute in Heq. discriminate. Qed.

Lemma cache_Open_reads_the_object_witness :
  (exists r c', Cache_Open id DefaultOptions "key" demo_old meta_old left_behind = Some (inl r, c') /\
    exists r' c2, Cache_reads DefaultOptions "key" [3; 1]%nat r c' = Some (demo_old, None, r', c2)) /\
  (exists r c', Cache_Open id DefaultOptions "key" demo_new meta_new loaded_old = Some (inl r, c') /\
    exists r' c2, Cache_reads DefaultOptions "key" [3; 2]%nat r c' = Some (demo_new, Some io_EOF, r', c2)).
Proof.
  split.
  - destruct (cache_Open_reads_the_object id id DefaultOptions "key" demo_old demo_old meta_old left_behind [3; 1]%nat)
      as (r & c' & Hopen & d & err & r' & c2 & Hreads & _).
    1: vm_compute; discriminate.
    1-3: reflexivity.
    1: discriminate.
    1: reflexivity.
    1: apply left_behind_openable.
    1: vm_compute; discriminate.
    exists r, c'. split; [exact Hopen|]. exists r', c2. rewrite Hreads.
    assert (He : Cache_reads DefaultOptions "key" [3; 1]%nat r c' = Some (demo_old, None, r', c2)); [|by rewrite Hreads in He].
    vm_compute in Hopen. injection Hopen as <- <-. vm_compute in Hreads. injection Hreads as <- <- <- <-. by vm_compute.
  - destruct (cache_Open_reads_the_object id id DefaultOptions "key" demo_new demo_new meta_new loaded_old [3; 2]%nat)
      as (r & c' & Hopen & d & err & r' & c2 & Hreads & _).
    1: vm_compute; discriminate.
    1-3: reflexivity.
    1: discriminate.
    1: reflexivity.
    1: apply loaded_old_openable.
    1: vm_compute; discriminate.
    exists r, c'. split; [exact Hopen|]. exists r', c2. rewrite Hreads.
    assert (He : Cache_reads DefaultOptions "key" [3; 2]%nat r c' = Some (demo_new, Some io_EOF, r', c2)); [|by rewrite Hreads in He].
    vm_compute in Hopen. injection Hopen as <- <-. vm_compute in Hreads. injection Hreads as <- <- <- <-. by vm_compute.
Defined.

(** ** What goes wrong *)

(** [LowLevelRetries = 0] passes the validation of the options: then [Open] hands
    out a reader without opening anything, and its reads give no bytes and no
    error. *)
Lemma cache_zero_retries_reads_nothing {O} `{GoOrder} `{!Scheduler O} sha256_hex opt key (origin : O) meta c n :
  OptLowLevelRetries opt = 0 -> key <> ""%string -> 0 < MetaSize meta -> c_closed c = false -> n <> 0%nat ->
  exists c', Cache_Open sha256_hex opt key origin meta c = Some (inl (mkReader meta 0), c') /\ c' = find_item key c /\
    Cache_Read opt key n (mkReader meta 0) c' = Some ([], None, mkReader meta 0, update_pointed key (default (fresh_item key c) (c_items c !! key)) c').
Proof.
  intros Hz Hk Hs Hc Hn. exists (find_item key c). unfold Cache_Open, Cache_Read. rewrite bool_decide_false, Hc, Hz by done.
  destruct (Z.ltb_spec (MetaSize meta) 0); [lia|]. cbn [Z.to_nat open_loop]. split; [done|]. split; [done|].
  assert (Hp : pointed key (find_item key c) = Some (default (fresh_item key c) (c_items c !! key))).
  { unfold pointed, find_item. destruct (c_items c !! key) eqn:Hi; cbn; [by rewrite Hi|by rewrite lookup_insert_eq]. }
  rewrite Hp. unfold Reader_Read. rewrite (proj2 (Nat.eqb_neq n 0) Hn). cbn [rd_meta rd_off].
  destruct (Z.leb_spec (MetaSize meta) 0); [lia|]. rewrite run_bind. unfold readAt. by rewrite Hz.
Qed.

(** An item nobody has used for long; the disk is full when its file is opened. *)
Definition stale_item : item (list byte) :=
  set_faults [None; None; None; Some (0%nat, syscall_ENOSPC)]
    (set_loaded true (set_info (mkInfo "key" 5 4 [mkRange 0 4] (metadataFingerprint id meta_old)) (newItem (Some demo_old) None [] [] 200))).

(** C39. Theorem cache_Open_orphans_item: the pass of the cleaner that [Open] asks for when the
    disk is full can take the very item being opened out of the map: [Open] then
    goes on with an item the cache no longer knows, whose open file and bytes are
    in no statistics and out of the cleaner's reach; the next [Open] of the key
    makes a second item over the same files. *)
Theorem cache_Open_orphans_item :
  exists opt c r c' r2 c2,
    Cache_Open id opt "key" demo_old meta_old c = Some (inl r, c') /\
    c_items c' = ∅ /\ Cache_Stats c' = mkStats 0 0 0 /\ it_opens <$> pointed "key" c' = Some 1 /\
    Cache_Open id opt "key" demo_old meta_old c' = Some (inl r2, c2) /\
    it_opens <$> c_items c2 !! "key" = Some 1 /\ it_opens <$> c_gone c2 !! "key" = Some 1.
Proof.
  exists (mkOptions 1 100 (-1) (-1) 1 16 (-1) 0 0 16 0 10), (mkCache {["key" := stale_item]} ∅ ∅ false None [] 200).
  do 4 eexists. split; [vm_compute; reflexivity|]. split; [reflexivity|]. split; [vm_compute; reflexivity|]. split; [vm_compute; reflexivity|].
  split; [vm_compute; reflexivity|]. split; vm_compute; reflexivity.
Qed.
