(* ===== verification/CacheLoad.v ===== *)
(** * The files of the cache (src/cache/cache.go, New, loadExisting, pathsForKey)

    Where the files of a key are, and what a new cache makes of the files an
    earlier process left: metadata and data that do not belong together are
    removed, files under an old layout are moved, the rest become items. *)
From stdpp Require Import base numbers list gmap strings.
From Stdlib Require Import ZArith Lia Init.Byte.
From S2P Require Import Prelude.
From S2P Require Import GoText.
From S2P Require Import Ranges.
From S2P Require Import SourceObject.
From S2P Require Import Interleave.
From S2P Require Import Options.
From S2P Require Import Item.
From S2P Require Import Cache.

Local Open Scope Z_scope.
Local Open Scope go_scope.
Local Open Scope list_scope.

(** ** Paths *)

(** [name[start : start+2]] for the coming levels. *)
Fixpoint shard_parts (levels start : nat) (name : string) : run (list string) :=
  match levels with
  | 0%nat => Ret []
  | S levels =>
      if (start + 2 <=? String.length name)%nat
      then parts ← shard_parts levels (start + 2) name; Ret (String.substring start 2 name :: parts)
      else Panic
  end.

(** [filepath.Join] of clean parts. *)
Definition shardedPath (root name : string) (depth : Z) : run string :=
  parts ← shard_parts (Z.to_nat depth) 0 name;
  Ret (String.concat "/" (root :: parts ++ [name])).

Section paths.
Context (sha256_hex : string -> string) (opt : Options).

(** [hex.EncodeToString(sum[:16])]. *)
Definition key_name (key : string) : string := String.substring 0 32 (sha256_hex key).

Definition pathsForKey (data meta key : string) : run (string * string) :=
  d ← shardedPath data (key_name key) (CacheShardDepth opt);
  m ← shardedPath meta (key_name key +:+ ".json") (CacheShardDepth opt);
  Ret (d, m).
End paths.

(** The part below the root. *)
Fixpoint shards (levels start : nat) (name : string) : string :=
  match levels with
  | 0%nat => ""
  | S levels => String.substring start 2 name +:+ "/" +:+ shards levels (start + 2) name
  end.
Definition below (levels : nat) (name : string) : string := shards levels 0 name +:+ name.

Lemma shard_parts_spec levels : forall start name,
  (start + 2 * levels <= String.length name)%nat ->
  exists parts, shard_parts levels start name = Ret parts /\
    forall root, String.concat "/" (root :: parts ++ [name]) = root +:+ "/" +:+ (shards levels start name +:+ name).
Proof.
  induction levels as [|levels IH]; intros start name Hl; cbn [shard_parts shards]; [by exists []|].
  rewrite (proj2 (Nat.leb_le _ _)) by lia. destruct (IH (start + 2)%nat name ltac:(lia)) as (parts & -> & Hc).
  exists (String.substring start 2 name :: parts). split; [done|]. intros root.
  change (String.concat "/" (root :: (?p :: ?ps) ++ ?l)) with (root +:+ "/" +:+ String.concat "/" (p :: ps ++ l)).
  by rewrite Hc, !string_app_assoc.
Qed.

Lemma shard_parts_panic levels : forall start name, (start <= String.length name)%nat ->
  (String.length name < start + 2 * levels)%nat -> shard_parts levels start name = Panic.
Proof.
  induction levels as [|levels IH]; intros start name Hs Hl; cbn [shard_parts]; [lia|].
  destruct (Nat.leb_spec (start + 2) (String.length name)); [|done]. by rewrite IH by lia.
Qed.

Lemma shards_app levels : forall start name t, (start + 2 * levels <= String.length name)%nat ->
  shards levels start (name +:+ t) = shards levels start name.
Proof.
  induction levels as [|levels IH]; intros start name t Hl; cbn [shards]; [done|].
  by rewrite substring_app_l, IH by lia.
Qed.

Lemma length_shards levels : forall start name, (start + 2 * levels <= String.length name)%nat ->
  String.length (shards levels start name) = (3 * levels)%nat.
Proof.
  induction levels as [|levels IH]; intros start name Hl; cbn [shards]; [done|].
  rewrite !string_length_app, length_substring, IH by lia. cbn. lia.
Qed.

Lemma below_inj levels name1 name2 : String.length name1 = String.length name2 -> (2 * levels <= String.length name1)%nat ->
  below levels name1 = below levels name2 -> name1 = name2.
Proof.
  intros Hl H1 He. unfold below in He. apply (f_equal (fun s => String.substring (3 * levels) (String.length name1) s)) in He.
  rewrite <- (length_shards levels 0 name1) in He at 1 by lia. rewrite substring_app_r, substring_all in He.
  rewrite <- (length_shards levels 0 name2) in He by lia. by rewrite substring_app_r, Hl, substring_all in He.
Qed.

Section path_proofs.
Context (sha256_hex : string -> string) (opt : Options).
Context (sha_length : forall key, String.length (sha256_hex key) = 64%nat).

Lemma key_name_length key : String.length (key_name sha256_hex key) = 32%nat.
Proof. apply length_substring. rewrite sha_length. lia. Qed.

Notation depth := (Z.to_nat (CacheShardDepth opt)).
Definition key_path (key : string) : string := below depth (key_name sha256_hex key).

Lemma pathsForKey_eq data meta key : CacheShardDepth opt <= 16 ->
  pathsForKey sha256_hex opt data meta key = Ret (data +:+ "/" +:+ key_path key, meta +:+ "/" +:+ (key_path key +:+ ".json")).
Proof.
  intros Hd. unfold pathsForKey, shardedPath. pose proof (key_name_length key) as Hl.
  destruct (shard_parts_spec depth 0 (key_name sha256_hex key)) as (parts & -> & Hc); [lia|].
  destruct (shard_parts_spec depth 0 (key_name sha256_hex key +:+ ".json")) as (parts' & -> & Hc').
  { rewrite string_length_app. cbn. lia. }
  cbv beta iota delta [mbind Prelude.run_bind]. rewrite Hc, Hc', shards_app by lia. unfold key_path, below. by rewrite string_app_assoc.
Qed.
End path_proofs.

Lemma validate_depth opt : validate opt = None -> 0 <= CacheShardDepth opt <= 16.
Proof.
  unfold validate. destruct (_ || _) eqn:Hv; [done|]. intros _. rewrite !orb_false_iff, !Z.ltb_ge in Hv. lia.
Qed.

(** C24. Theorem pathsForKey_bounds: the paths of a key exist, without a slice out
    of range, exactly up to the shard depth that the options allow: the metadata
    file is the data file's name under the metadata root with [.json] after it,
    three bytes a level and 32 of the hash; different hashes have different
    paths. *)
Theorem pathsForKey_bounds (sha256_hex : string -> string) opt data meta key :
  (forall key, String.length (sha256_hex key) = 64%nat) ->
  (validate opt = None -> exists rel,
     pathsForKey sha256_hex opt data meta key = Ret (data +:+ "/" +:+ rel, meta +:+ "/" +:+ (rel +:+ ".json")) /\
     Z.of_nat (String.length rel) = 3 * CacheShardDepth opt + 32) /\
  (16 < CacheShardDepth opt -> pathsForKey sha256_hex opt data meta key = Panic) /\
  (forall key', validate opt = None -> pathsForKey sha256_hex opt data meta key' = pathsForKey sha256_hex opt data meta key ->
     key_name sha256_hex key' = key_name sha256_hex key).
Proof.
  intros Hsha. pose proof (key_name_length sha256_hex Hsha) as Hl. split_and!.
  - intros Hv. pose proof (validate_depth opt Hv) as Hd.
    exists (key_path sha256_hex opt key). split; [apply pathsForKey_eq; [done|lia]|]. unfold key_path, below.
    rewrite string_length_app, length_shards, Hl by (rewrite Hl; lia). lia.
  - intros Hd. unfold pathsForKey, shardedPath. rewrite (shard_parts_panic _ 0 (key_name sha256_hex key)); [done|lia|rewrite Hl; lia].
  - intros key' Hv. pose proof (validate_depth opt Hv) as Hd.
    rewrite !pathsForKey_eq by (done || lia). intros [= He _]. unfold key_path in He.
    eapply (inj (String.app data)), (inj (String.app "/")), below_inj in He; [done|by rewrite !Hl|rewrite Hl; lia].
Qed.

Lemma pathsForKey_bounds_witness :
  let sha := fun key : string => "0123456789abcdef0123456789abcdef0123456789abcdef0123456789abcdef"%string in
  pathsForKey sha DefaultOptions "/c/data" "/c/meta" "k" =
    Ret ("/c/data/01/0123456789abcdef0123456789abcdef", "/c/meta/01/0123456789abcdef0123456789abcdef.json")%string /\
  exists rel, pathsForKey sha DefaultOptions "/c/data" "/c/meta" "k" =
    Ret ("/c/data" +:+ "/" +:+ rel, "/c/meta" +:+ "/" +:+ (rel +:+ ".json")).
Proof.
  intros sha. split; [reflexivity|].
  destruct (proj1 (pathsForKey_bounds sha DefaultOptions "/c/data" "/c/meta" "k" (fun _ => eq_refl)) eq_refl) as (rel & He & _).
  by exists rel.
Defined.

(** ** The directory tree *)

(** Files are named by what follows [c.data] and [c.meta] in their paths; a data
    file has its contents and its modification time, [None] is something that is
    no regular file.  Directories exist as long as they hold files.  [l_faults]
    says of the coming system calls which ones fail. *)
Record loader := mkLoader {
  l_data : gmap string (option (list byte * Z));
  l_meta : gmap string metafile;
  l_faults : list bool;
  l_items : gmap string itemInfo;
}.

Definition l_set_data d l : loader := mkLoader d (l_meta l) (l_faults l) (l_items l).
Definition l_set_meta m l : loader := mkLoader (l_data l) m (l_faults l) (l_items l).
Definition l_set_faults f l : loader := mkLoader (l_data l) (l_meta l) f (l_items l).
Definition l_set_items i l : loader := mkLoader (l_data l) (l_meta l) (l_faults l) i.

(** Functions that return a value or an error. *)
Definition op (A : Type) : Type := loader -> run ((A + error) * loader).

#[export] Instance op_ret : MRet op := fun A a l => Ret (inl a, l).
#[export] Instance op_bind : MBind op := fun A B k m l =>
  match m l with
  | Ret (inl a, l) => k a l
  | Ret (inr err, l) => Ret (inr err, l)
  | Panic => Panic
  | OutOfFuel => OutOfFuel
  end.
Definition fail {A} (err : error) : op A := fun l => Ret (inr err, l).
(** The error as a value, for code that looks at it. *)
Definition try {A} (m : op A) : op (A + error) := fun l =>
  match m l with Ret (r, l) => Ret (inl r, l) | Panic => Panic | OutOfFuel => OutOfFuel end.
Definition lift {A} (m : run A) : op A := fun l =>
  match m with Ret a => Ret (inl a, l) | Panic => Panic | OutOfFuel => OutOfFuel end.
Definition look {A} (f : loader -> A) : op A := fun l => Ret (inl (f l), l).
Definition change (f : loader -> loader) : op unit := fun l => Ret (inl tt, f l).

Definition call : op unit := fun l =>
  match l_faults l with
  | true :: fs => Ret (inr (Errorf "input/output error"), l_set_faults fs l)
  | fs => Ret (inl tt, l_set_faults (drop 1 fs) l)
  end.

Definition dir_prefix (p : string) : string :=
  if bool_decide (String.substring (String.length p - 1) 1 p = "/"%string) then p else p +:+ "/".

(** Some file is below [p]; some file is where [p] needs a directory. *)
Definition is_dir {V} (m : gmap string V) (p : string) : bool := existsb (String.prefix (dir_prefix p)) (map_to_list m).*1.
Definition in_the_way {V} (m : gmap string V) (p : string) : bool := existsb (fun k => String.prefix (dir_prefix k) p) (map_to_list m).*1.

(** [os.Remove] of what may be a directory. *)
Definition remove_in {V} (get : loader -> gmap string V) (set : gmap string V -> loader -> loader) (p : string) : op unit :=
  call;;
  m ← look get;
  match m !! p with
  | Some _ => change (set (delete p m))
  | None => if is_dir m p then fail (Errorf "directory not empty") else fail os_ErrNotExist
  end.
Definition Remove_data : string -> op unit := remove_in l_data l_set_data.
Definition Remove_meta : string -> op unit := remove_in l_meta l_set_meta.

Definition ReadFile_meta (p : string) : op metafile :=
  call;;
  m ← look l_meta;
  match m !! p with
  | Some file => mret file
  | None => if is_dir m p then fail (Errorf "is a directory") else fail os_ErrNotExist
  end.

(** The size and modification time of a regular file. *)
Definition Stat_data (p : string) : op (option (Z * Z)) :=
  call;;
  m ← look l_data;
  match m !! p with
  | Some (Some (d, mtime)) => mret (Some (Z.of_nat (length d), mtime))
  | Some None => mret None
  | None => if is_dir m p then mret None else fail os_ErrNotExist
  end.
Definition Stat_meta (p : string) : op unit :=
  call;;
  m ← look l_meta;
  match m !! p with
  | Some _ => mret tt
  | None => if is_dir m p then mret tt else fail os_ErrNotExist
  end.

(** [os.MkdirAll(filepath.Dir(p))]. *)
Definition MkdirAll_in {V} (get : loader -> gmap string V) (p : string) : op unit :=
  call;;
  m ← look get;
  if in_the_way m p then fail (Errorf "not a directory") else mret tt.

Definition rename_in {V} (get : loader -> gmap string V) (set : gmap string V -> loader -> loader) (p q : string) : op unit :=
  call;;
  m ← look get;
  match m !! p with
  | Some v => if is_dir m q then fail (Errorf "file exists") else change (set (<[q := v]> (delete p m)))
  | None => fail os_ErrNotExist
  end.
Definition Rename_data : string -> string -> op unit := rename_in l_data l_set_data.
Definition Rename_meta : string -> string -> op unit := rename_in l_meta l_set_meta.

(** [filepath.Ext(p) == ".json"], and what is before it. *)
Definition json_stem (p : string) : option string :=
  let n := (String.length p - 5)%nat in
  if bool_decide (5 <= String.length p)%nat && bool_decide (String.substring n 5 p = ".json"%string)
  then Some (String.substring 0 n p) else None.

(** ** Loading *)
Definition missing (err : error) : bool := errors_Is err os_ErrNotExist.

(** [if err := os.Remove(p); err != nil && !errors.Is(err, os.ErrNotExist)]. *)
Definition remove_if_there (m : op unit) : op unit :=
  r ← try m;
  match r with inr err => if missing err then mret tt else fail err | inl _ => mret tt end.

(** What the item gets of the metadata. *)
Definition loaded_info (info : itemInfo) (mtime : Z) : itemInfo :=
  mkInfo (InfoKey info) (if Time_IsZero (InfoATime info) then mtime else InfoATime info) (InfoSize info)
    (Ranges_Intersection (InfoRs info) (mkRange 0 (InfoSize info))) (InfoFingerprint info).

Section loading.
Context `{GoOrder} (sha256_hex : string -> string) (opt : Options).

(** Files under a path the key does not have now: dropped when there is something
    at the right path, moved otherwise.  Answers whether they are in place. *)
Definition relocate (actualDataPath metaPath dataPath' metaPath' : string) : op bool :=
  r ← try (Stat_meta metaPath');
  match r with
  | inl _ => try (Remove_meta metaPath);; try (Remove_data actualDataPath);; mret false
  | inr err =>
      if negb (missing err) then fail err else
      r ← try (Stat_data dataPath');
      match r with
      | inl _ => try (Remove_meta metaPath);; try (Remove_data actualDataPath);; mret false
      | inr err =>
          if negb (missing err) then fail err else
          MkdirAll_in l_data dataPath';;
          MkdirAll_in l_meta metaPath';;
          Rename_data actualDataPath dataPath';;
          r ← try (Rename_meta metaPath metaPath');
          match r with
          | inl _ => mret true
          | inr err => try (Rename_data dataPath' actualDataPath);; fail err
          end
      end
  end.

(** The empty path for metadata that is not used. *)
Definition loadExistingMeta (metaPath : string) : op (option string) :=
  r ← try (ReadFile_meta metaPath);
  match r with
  | inr err => if missing err then mret None else fail err
  | inl Corrupt => Remove_meta metaPath;; mret None
  | inl (Stored info) =>
      if bool_decide (InfoKey info = ""%string) || (InfoSize info <? 0) then Remove_meta metaPath;; mret None else
      match json_stem metaPath with
      | None => fail (Errorf "cache: invalid metadata path")
      | Some actualDataPath =>
          r ← try (Stat_data actualDataPath);
          match r with
          | inr err => if missing err then Remove_meta metaPath;; mret None else fail err
          | inl stat =>
              match stat with
              | Some (size, mtime) =>
                  if negb (size =? InfoSize info) then
                    remove_if_there (Remove_meta metaPath);; remove_if_there (Remove_data actualDataPath);; mret None
                  else
                    '(expectedDataPath, expectedMetaPath) ← lift (pathsForKey sha256_hex opt "" "" (InfoKey info));
                    placed ← (if negb (bool_decide (actualDataPath = expectedDataPath)) || negb (bool_decide (metaPath = expectedMetaPath))
                              then relocate actualDataPath metaPath expectedDataPath expectedMetaPath else mret true);
                    if negb (placed : bool) then mret None
                    else
                      change (fun l => l_set_items (<[InfoKey info := loaded_info info mtime]> (l_items l)) l);;
                      mret (Some expectedDataPath)
              | None =>
                  remove_if_there (Remove_meta metaPath);; remove_if_there (Remove_data actualDataPath);; mret None
              end
          end
      end
  end.

(** The first [WalkDir]: what is no metadata goes. *)
Fixpoint walk_meta (paths : list string) : op (list string) :=
  match paths with
  | [] => mret []
  | p :: paths =>
      match json_stem p with
      | None => Remove_meta p;; walk_meta paths
      | Some _ => found ← walk_meta paths; mret (p :: found)
      end
  end.

Fixpoint load_all (metaPaths : list string) (knownData : list string) : op (list string) :=
  match metaPaths with
  | [] => mret knownData
  | p :: metaPaths =>
      dataPath ← loadExistingMeta p;
      load_all metaPaths (match dataPath with Some d => d :: knownData | None => knownData end)
  end.

(** The second: data that no item knows. *)
Fixpoint walk_data (paths knownData : list string) : op unit :=
  match paths with
  | [] => mret tt
  | p :: paths => (if bool_decide (p ∈ knownData) then mret tt else Remove_data p);; walk_data paths knownData
  end.

Definition loadExisting : op unit :=
  call;;
  paths ← look (fun l => range_keys _ (l_meta l));
  metaPaths ← walk_meta paths;
  knownData ← load_all metaPaths [];
  call;;
  paths ← look (fun l => range_keys _ (l_data l));
  walk_data paths knownData.

(** An item for what was loaded, over its files. *)
Definition loaded_item {O} (l : loader) (clock : Z) (key : string) (info : itemInfo) : item O :=
  let files :=
    match pathsForKey sha256_hex opt "" "" key with
    | Ret (d, m) => (fst <$> mjoin (l_data l !! d), l_meta l !! m)
    | _ => (None, None)
    end in
  set_loaded true (set_info info (newItem (fst files) (snd files) [] [] clock)).

(** [fmt.Errorf("...: %w", err)]. *)
Definition named {A} (msg : string) (m : op A) : op A :=
  r ← try m;
  match r with inl a => mret a | inr err => fail (Wrap msg err) end.

(** [New]: the error, or the cache and the files it left; the cleaner makes a
    pass before anything else when it is to run at all. *)
Definition Cache_New {O} (dir : string) (clock : Z) : op (cache O) :=
  if bool_decide (dir = ""%string) then fail (Errorf "cache: empty cache directory")
  else
    match validate opt with
    | Some err => fail err
    | None =>
        named "cache: create data root" call;;
        named "cache: create metadata root" call;;
        change (l_set_items ∅);;
        named "cache: load existing cache" loadExisting;;
        c ← look (fun l => mkCache (map_imap (fun key info => Some (loaded_item l clock key info)) (l_items l)) ∅ ∅ false None [] clock);
        mret (if 0 <? CachePollInterval opt then clean opt c else c)
    end.
End loading.

(** ** Effects of the file operations *)

(** Failed calls: none when none is scripted; none says that a file is missing. *)
Definition faulty {A} (F F' : list bool) (r : A + error) : Prop :=
  (F = [] -> F' = [] /\ exists a, r = inl a) /\ (forall err, r = inr err -> missing err = false).

Lemma call_spec D M F I : exists r F', call (mkLoader D M F I) = Ret (r, mkLoader D M F' I) /\ faulty F F' r.
Proof.
  unfold call. destruct F as [|[] F]; cbn; do 2 eexists; (split; [done|]); split; try done.
  - split; [done|]. by eexists.
  - by intros err [= <-].
Qed.

Lemma bind_spec {A B} (m : op A) (k : A -> op B) l r l' : m l = Ret (r, l') ->
  (m ≫= k) l = match r with inl a => k a l' | inr err => Ret (inr err, l') end.
Proof. intros Hm. unfold mbind, op_bind. rewrite Hm. by destruct r. Qed.

Lemma try_spec {A B} (m : op A) (k : A + error -> op B) l r l' : m l = Ret (r, l') -> (try m ≫= k) l = k r l'.
Proof. intros Hm. unfold mbind, op_bind, try. by rewrite Hm. Qed.

Lemma look_bind {A B} (f : loader -> A) (k : A -> op B) l : (look f ≫= k) l = k (f l) l.
Proof. done. Qed.

(** The outcome of an operation on one of the two trees. *)
Definition removed {V} (m : gmap string V) (p : string) (F F' : list bool) (r : unit + error) (m' : gmap string V) : Prop :=
  (r = inl tt /\ m' = delete p m \/ exists err, r = inr err /\ m' = m /\ (missing err = true -> m !! p = None)) /\
  (F = [] -> F' = [] /\ (is_Some (m !! p) -> r = inl tt)).
Definition renamed {V} (m : gmap string V) (p q : string) (F F' : list bool) (r : unit + error) (m' : gmap string V) : Prop :=
  (r = inl tt /\ (exists v, m !! p = Some v /\ m' = <[q := v]> (delete p m)) \/ exists err, r = inr err /\ m' = m) /\
  (F = [] -> F' = []).

Ltac run_call :=
  unfold remove_in, rename_in, MkdirAll_in, ReadFile_meta, Stat_data, Stat_meta;
  match goal with |- context [call ≫= _] =>
    let r := fresh "r" in let F := fresh "F" in let He := fresh "He" in let Hc := fresh "Hc" in let Hf := fresh "Hf" in
    edestruct call_spec as (r & F & Hc & Hf); rewrite (bind_spec _ _ _ _ _ Hc); clear Hc;
    destruct r as [[]|?]
  end.

Ltac failed_call Hf :=
  do 3 eexists; split; [reflexivity|]; split;
  [right; eexists; split; [reflexivity|]; try (split; [reflexivity|intros Hm; by rewrite (proj2 Hf _ eq_refl) in Hm]); try reflexivity
  |intros HF; exfalso; by destruct (proj1 Hf HF) as [_ [? ?]]].

Ltac run_tree := unfold mbind, op_bind, mret, op_ret, look, change, fail, l_set_meta, l_set_data; cbn.
Ltac nothing_failed Hf Hp := intros HF; destruct (proj1 Hf HF) as [-> _]; split; [done|]; rewrite ?Hp; first [done|by intros [? ?]].

Lemma Remove_meta_spec p D M F I : exists r F' M', Remove_meta p (mkLoader D M F I) = Ret (r, mkLoader D M' F' I) /\ removed M p F F' r M'.
Proof.
  unfold Remove_meta. run_call; [|failed_call Hf]. run_tree.
  destruct (M !! p) eqn:Hp; [|destruct (is_dir M p)]; do 3 eexists; (split; [reflexivity|]); (split; [|nothing_failed Hf Hp]);
    first [by left|right; eexists; by split_and!].
Qed.

Lemma Remove_data_spec p D M F I : exists r F' D', Remove_data p (mkLoader D M F I) = Ret (r, mkLoader D' M F' I) /\ removed D p F F' r D'.
Proof.
  unfold Remove_data. run_call; [|failed_call Hf]. run_tree.
  destruct (D !! p) eqn:Hp; [|destruct (is_dir D p)]; do 3 eexists; (split; [reflexivity|]); (split; [|nothing_failed Hf Hp]);
    first [by left|right; eexists; by split_and!].
Qed.

Lemma Rename_meta_spec p q D M F I : exists r F' M', Rename_meta p q (mkLoader D M F I) = Ret (r, mkLoader D M' F' I) /\ renamed M p q F F' r M'.
Proof.
  unfold Rename_meta. run_call; [|do 3 eexists; split; [reflexivity|]; split; [right; by eexists|intros HF; by destruct (proj1 Hf HF)]]. run_tree.
  destruct (M !! p) eqn:Hp; [destruct (is_dir M q)|]; do 3 eexists; (split; [reflexivity|]); (split; [|intros HF; by destruct (proj1 Hf HF)]);
    first [right; by eexists|left; split; [done|by eexists]].
Qed.

Lemma Rename_data_spec p q D M F I : exists r F' D', Rename_data p q (mkLoader D M F I) = Ret (r, mkLoader D' M F' I) /\ renamed D p q F F' r D'.
Proof.
  unfold Rename_data. run_call; [|do 3 eexists; split; [reflexivity|]; split; [right; by eexists|intros HF; by destruct (proj1 Hf HF)]]. run_tree.
  destruct (D !! p) eqn:Hp; [destruct (is_dir D q)|]; do 3 eexists; (split; [reflexivity|]); (split; [|intros HF; by destruct (proj1 Hf HF)]);
    first [right; by eexists|left; split; [done|by eexists]].
Qed.

Lemma MkdirAll_spec {V} (get : loader -> gmap string V) p D M F I :
  exists r F', MkdirAll_in get p (mkLoader D M F I) = Ret (r, mkLoader D M F' I) /\ (F = [] -> F' = []).
Proof.
  run_call; [|do 2 eexists; split; [reflexivity|]; intros HF; by destruct (proj1 Hf HF)]. run_tree.
  destruct (in_the_way _ p); do 2 eexists; (split; [reflexivity|]); intros HF; by destruct (proj1 Hf HF).
Qed.

(** Reading does not change the trees. *)
Lemma ReadFile_meta_spec p D M F I : exists r F', ReadFile_meta p (mkLoader D M F I) = Ret (r, mkLoader D M F' I) /\ (F = [] -> F' = []) /\
  match r with inl file => M !! p = Some file | inr err => (missing err = true -> M !! p = None) /\ (F = [] -> M !! p = None) end.
Proof.
  run_call.
  - run_tree. destruct (M !! p) eqn:Hp; [|destruct (is_dir M p)]; do 2 eexists; (split; [reflexivity|]); (split; [intros HF; by destruct (proj1 Hf HF)|done]).
  - do 2 eexists; split; [reflexivity|]. split; [intros HF; by destruct (proj1 Hf HF)|]. split; [by rewrite (proj2 Hf _ eq_refl)|].
    intros HF. by destruct (proj1 Hf HF) as [_ [? ?]].
Qed.

Lemma Stat_data_spec p D M F I : exists r F', Stat_data p (mkLoader D M F I) = Ret (r, mkLoader D M F' I) /\ (F = [] -> F' = []) /\
  match r with
  | inl (Some (size, mtime)) => exists d, D !! p = Some (Some (d, mtime)) /\ size = Z.of_nat (length d)
  | inl None => True
  | inr err => missing err = true -> D !! p = None
  end.
Proof.
  run_call.
  - run_tree. destruct (D !! p) as [[[d mtime]|]|] eqn:Hp; [| |destruct (is_dir D p)]; do 2 eexists; (split; [reflexivity|]);
      (split; [intros HF; by destruct (proj1 Hf HF)|]); try done. by exists d.
  - do 2 eexists; split; [reflexivity|]. split; [intros HF; by destruct (proj1 Hf HF)|]. by rewrite (proj2 Hf _ eq_refl).
Qed.

Lemma Stat_meta_spec p D M F I : exists r F', Stat_meta p (mkLoader D M F I) = Ret (r, mkLoader D M F' I) /\ (F = [] -> F' = []) /\
  match r with inl _ => True | inr err => missing err = true -> M !! p = None end.
Proof.
  run_call.
  - run_tree. destruct (M !! p) eqn:Hp; [|destruct (is_dir M p)]; do 2 eexists; (split; [reflexivity|]);
      (split; [intros HF; by destruct (proj1 Hf HF)|]); done.
  - do 2 eexists; split; [reflexivity|]. split; [intros HF; by destruct (proj1 Hf HF)|]. by rewrite (proj2 Hf _ eq_refl).
Qed.

(** ** One metadata file *)
Lemma substring_split n s : (n <= String.length s)%nat ->
  String.substring 0 n s +:+ String.substring n (String.length s - n) s = s.
Proof.
  revert n. unfold String.app. induction s as [|a s IH]; intros n Hn; cbn in *; [by assert (n = 0%nat) as -> by lia|].
  destruct n as [|n]; cbn; [by rewrite substring_all|]. by rewrite IH by lia.
Qed.

Lemma json_stem_Some p d : json_stem p = Some d -> p = d +:+ ".json".
Proof.
  unfold json_stem. destruct (bool_decide_reflect (5 <= String.length p)%nat) as [Hl|]; [|done]. cbn [andb].
  destruct (bool_decide_reflect (String.substring (String.length p - 5) 5 p = ".json"%string)) as [He|]; [|done]. intros [= <-].
  rewrite <- He. rewrite <- (substring_split (String.length p - 5) p) at 1 by lia. do 2 f_equal. lia.
Qed.

Lemma json_stem_app d : json_stem (d +:+ ".json") = Some d.
Proof.
  assert (Hn : (String.length (d +:+ ".json") - 5)%nat = String.length d) by (rewrite string_length_app; cbn; lia).
  unfold json_stem. rewrite Hn, !bool_decide_true.
  - cbn [andb]. rewrite substring_app_l by lia. by rewrite substring_all.
  - by rewrite substring_app_r.
  - rewrite string_length_app. cbn. lia.
Qed.

Section load_meta.
Context (sha256_hex : string -> string) (opt : Options).
Context (sha_length : forall key, String.length (sha256_hex key) = 64%nat) (depth_ok : CacheShardDepth opt <= 16).

(** The files of a key. *)
Definition kd (key : string) : string := "" +:+ "/" +:+ key_path sha256_hex opt key.
Definition km (key : string) : string := "" +:+ "/" +:+ (key_path sha256_hex opt key +:+ ".json").

Lemma km_kd key : km key = kd key +:+ ".json".
Proof. unfold km, kd. by rewrite !string_app_assoc. Qed.

Lemma paths_eq key : pathsForKey sha256_hex opt "" "" key = Ret (kd key, km key).
Proof. by apply pathsForKey_eq. Qed.

Ltac try_step L := let H := fresh "Hrun" in edestruct L as (? & ? & H & ?); rewrite (try_spec _ _ _ _ _ H); clear H.
Ltac try_change L := let H := fresh "Hrun" in edestruct L as (? & ? & ? & H & ?); rewrite (try_spec _ _ _ _ _ H); clear H.
Ltac do_step L := let H := fresh "Hrun" in edestruct L as (? & ? & H & ?); rewrite (bind_spec _ _ _ _ _ H); clear H.
Ltac do_change L := let H := fresh "Hrun" in edestruct L as (? & ? & ? & H & ?); rewrite (bind_spec _ _ _ _ _ H); clear H.

(** What became of the files at [p] and [d] when they are not used. *)
Definition dropped (p d : string) (D D' : gmap string (option (list byte * Z))) (M M' : gmap string metafile) (F F' : list bool) : Prop :=
  (F = [] -> F' = []) /\ (forall k, k <> p -> M' !! k = M !! k) /\ (forall k, k <> d -> D' !! k = D !! k) /\ (F = [] -> M' !! p = None) /\ M' ⊆ M.

Lemma removed_other {V} (m : gmap string V) p F F' r m' k : removed m p F F' r m' -> k <> p -> m' !! k = m !! k.
Proof. intros [[[_ ->]|(? & _ & -> & _)] _] Hk; [by apply lookup_delete_ne|done]. Qed.

Lemma removed_gone {V} (m : gmap string V) p F F' r m' : removed m p F F' r m' -> (r = inl tt \/ F = []) -> m' !! p = None.
Proof.
  intros [[[_ ->]|(err & -> & -> & Hm)] Hf] Hc; [apply lookup_delete_eq|]. destruct Hc as [?|HF]; [done|].
  destruct (m !! p) eqn:Hp; [|done]. destruct (Hf HF) as [_ Hr]. by discriminate Hr.
Qed.

Lemma removed_sub {V} (m : gmap string V) p F F' r m' : removed m p F F' r m' -> m' ⊆ m.
Proof. intros [[[_ ->]|(? & _ & -> & _)] _]; [apply delete_subseteq|done]. Qed.

Lemma removed_faults {V} (m : gmap string V) p F F' r m' : removed m p F F' r m' -> F = [] -> F' = [].
Proof. intros [_ Hf] HF. by apply Hf. Qed.

Lemma drop_both {B} p d D M F I (k : op B) :
  exists D' M' F', (try (Remove_meta p);; try (Remove_data d);; k) (mkLoader D M F I) = k (mkLoader D' M' F' I) /\ dropped p d D D' M M' F F'.
Proof.
  try_change Remove_meta_spec. try_change Remove_data_spec. do 3 eexists. split; [reflexivity|]. split_and!.
  - eauto using removed_faults.
  - intros. by eapply removed_other.
  - intros. by eapply removed_other.
  - intros. eapply removed_gone; eauto.
  - by eapply removed_sub.
Qed.

Lemma remove_if_there_spec {V} (m : gmap string V) (o : op unit) p l l' F F' r m' :
  o l = Ret (r, l') -> removed m p F F' r m' ->
  exists r', remove_if_there o l = Ret (r', l') /\ (r' = inl tt -> m' !! p = None).
Proof.
  intros Ho Hr. unfold remove_if_there. rewrite (try_spec _ _ _ _ _ Ho). destruct r as [[]|err].
  - exists (inl tt). split; [done|]. intros _. eapply removed_gone; eauto.
  - destruct (missing err) eqn:Hm; [|by eexists]. exists (inl tt). split; [done|]. intros _.
    destruct Hr as [[[? _]|(? & [= <-] & -> & Hn)] _]; [done|by apply Hn].
Qed.

Lemma drop_both_checked p d D M F I :
  exists r D' M' F', (remove_if_there (Remove_meta p);; remove_if_there (Remove_data d);; mret None : op (option string)) (mkLoader D M F I)
    = Ret (r, mkLoader D' M' F' I) /\ match r with inl a => a = None /\ dropped p d D D' M M' F F' | inr _ => True end.
Proof.
  destruct (Remove_meta_spec p D M F I) as (r1 & F1 & M1 & H1 & Hr1).
  destruct (remove_if_there_spec M (Remove_meta p) p _ _ _ _ _ _ H1 Hr1) as (r1' & H1' & Hg1). rewrite (bind_spec _ _ _ _ _ H1').
  destruct r1' as [[]|err]; [|by do 4 eexists].
  destruct (Remove_data_spec d D M1 F1 I) as (r2 & F2 & D2 & H2 & Hr2).
  destruct (remove_if_there_spec D (Remove_data d) d _ _ _ _ _ _ H2 Hr2) as (r2' & H2' & Hg2). rewrite (bind_spec _ _ _ _ _ H2').
  destruct r2' as [[]|err]; [|by do 4 eexists]. do 4 eexists. split; [reflexivity|]. split; [done|]. split_and!.
  - eauto using removed_faults.
  - intros. by eapply removed_other.
  - intros. by eapply removed_other.
  - intros. by apply Hg1.
  - by eapply removed_sub.
Qed.

Definition moved (p d p' d' : string) (D D' : gmap string (option (list byte * Z))) (M M' : gmap string metafile) : Prop :=
  M !! p' = None /\ D !! d' = None /\
  (exists v, M !! p = Some v /\ M' = <[p' := v]> (delete p M)) /\ (exists w, D !! d = Some w /\ D' = <[d' := w]> (delete d D)).

Lemma relocate_spec p d p' d' D M F I :
  exists r D' M' F', relocate d p d' p' (mkLoader D M F I) = Ret (r, mkLoader D' M' F' I) /\
    match r with
    | inl false => dropped p d D D' M M' F F'
    | inl true => (F = [] -> F' = []) /\ moved p d p' d' D D' M M'
    | inr _ => True
    end.
Proof.
  unfold relocate. destruct (Stat_meta_spec p' D M F I) as (r1 & F1 & H1 & Hf1 & Hr1). rewrite (try_spec _ _ _ _ _ H1).
  assert (Hdrop : forall F0, (F = [] -> F0 = []) -> exists r D' M' F',
    (try (Remove_meta p);; try (Remove_data d);; mret false : op bool) (mkLoader D M F0 I) = Ret (r, mkLoader D' M' F' I) /\
    match r with inl false => dropped p d D D' M M' F F' | inl true => (F = [] -> F' = []) /\ moved p d p' d' D D' M M' | inr _ => True end).
  { intros F0 HF0. destruct (drop_both p d D M F0 I (mret false : op bool)) as (D' & M' & F' & -> & (Ha & Hb & Hc & Hd & Hsub)). exists (inl false), D', M', F'.
    split; [done|]. split_and!; auto. }
  destruct r1 as [[]|err1]; [by apply Hdrop|]. destruct (missing err1) eqn:Hm1; [|by do 4 eexists]. cbn [negb].
  destruct (Stat_data_spec d' D M F1 I) as (r2 & F2 & H2 & Hf2 & Hr2). rewrite (try_spec _ _ _ _ _ H2).
  destruct r2 as [?|err2]; [apply Hdrop; auto|]. destruct (missing err2) eqn:Hm2; [|by do 4 eexists]. cbn [negb].
  destruct (MkdirAll_spec l_data d' D M F2 I) as (r3 & F3 & H3 & Hf3). rewrite (bind_spec _ _ _ _ _ H3). destruct r3; [|by do 4 eexists].
  destruct (MkdirAll_spec l_meta p' D M F3 I) as (r4 & F4 & H4 & Hf4). rewrite (bind_spec _ _ _ _ _ H4). destruct r4; [|by do 4 eexists].
  destruct (Rename_data_spec d d' D M F4 I) as (r5 & F5 & D5 & H5 & [Hr5 Hf5]). rewrite (bind_spec _ _ _ _ _ H5). destruct r5; [|by do 4 eexists].
  destruct Hr5 as [[_ Hw]|(? & ? & _)]; [|done].
  destruct (Rename_meta_spec p p' D5 M F5 I) as (r6 & F6 & M6 & H6 & [Hr6 Hf6]). rewrite (try_spec _ _ _ _ _ H6). destruct r6 as [[]|err6].
  - destruct Hr6 as [[_ Hv]|(? & ? & _)]; [|done]. do 4 eexists. split; [reflexivity|]. split; [auto 10|]. by repeat split; auto.
  - destruct (Rename_data_spec d' d D5 M6 F6 I) as (r7 & F7 & D7 & H7 & _). rewrite (try_spec _ _ _ _ _ H7). by do 4 eexists.
Qed.

(** What loading one metadata file does. *)
Definition taken (p d : string) (info : itemInfo) (d' : string) (D D' : gmap string (option (list byte * Z))) (M M' : gmap string metafile)
    (I I' : gmap string itemInfo) : Prop :=
  exists bytes mtime, M !! p = Some (Stored info) /\ InfoKey info <> ""%string /\ 0 <= InfoSize info /\
    D !! d = Some (Some (bytes, mtime)) /\ Z.of_nat (length bytes) = InfoSize info /\ d' = kd (InfoKey info) /\
    I' = <[InfoKey info := loaded_info info mtime]> I /\
    (p = km (InfoKey info) /\ D' = D /\ M' = M \/ p <> km (InfoKey info) /\ moved p d (km (InfoKey info)) (kd (InfoKey info)) D D' M M').

Lemma loadExistingMeta_spec p d D M F I : json_stem p = Some d ->
  exists r D' M' F' I', loadExistingMeta sha256_hex opt p (mkLoader D M F I) = Ret (r, mkLoader D' M' F' I') /\
    match r with
    | inl None => I' = I /\ dropped p d D D' M M' F F'
    | inl (Some d') => (F = [] -> F' = []) /\ exists info, taken p d info d' D D' M M' I I'
    | inr _ => True
    end.
Proof.
  intros Hstem. unfold loadExistingMeta. rewrite Hstem.
  destruct (ReadFile_meta_spec p D M F I) as (r0 & F0 & H0 & Hf0 & Hr0). rewrite (try_spec _ _ _ _ _ H0).
  assert (Hremove : forall F0, (F = [] -> F0 = []) -> exists r D' M' F' I',
    (Remove_meta p;; mret None : op (option string)) (mkLoader D M F0 I) = Ret (r, mkLoader D' M' F' I') /\
    match r with inl None => I' = I /\ dropped p d D D' M M' F F' | inl (Some d') => (F = [] -> F' = []) /\ exists info, taken p d info d' D D' M M' I I' | inr _ => True end).
  { intros F1 HF1. destruct (Remove_meta_spec p D M F1 I) as (r & F2 & M' & Hr & Hrem). rewrite (bind_spec _ _ _ _ _ Hr).
    destruct r as [[]|]; [|by do 5 eexists]. do 5 eexists. split; [reflexivity|]. split; [done|]. split_and!; [eauto using removed_faults|intros; by eapply removed_other|done| |by eapply removed_sub].
    intros _. eapply removed_gone; eauto. }
  destruct r0 as [[|info]|err0]; [by apply Hremove| |].
  2:{ destruct (missing err0) eqn:Hm; [|by do 5 eexists]. do 5 eexists. split; [reflexivity|]. split; [done|]. split_and!; try done. intros HF. by apply (proj2 Hr0). }
  destruct (bool_decide_reflect (InfoKey info = ""%string)) as [|Hkey]; [by apply Hremove|].
  destruct (Z.ltb_spec (InfoSize info) 0) as [|Hsize]; [by apply Hremove|]. cbn [orb].
  destruct (Stat_data_spec d D M F0 I) as (r1 & F1 & H1 & Hf1 & Hr1). rewrite (try_spec _ _ _ _ _ H1).
  assert (Hboth : forall F0, (F = [] -> F0 = []) -> exists r D' M' F' I',
    (remove_if_there (Remove_meta p);; remove_if_there (Remove_data d);; mret None : op (option string)) (mkLoader D M F0 I) = Ret (r, mkLoader D' M' F' I') /\
    match r with inl None => I' = I /\ dropped p d D D' M M' F F' | inl (Some d') => (F = [] -> F' = []) /\ exists info, taken p d info d' D D' M M' I I' | inr _ => True end).
  { intros F2 HF2. destruct (drop_both_checked p d D M F2 I) as (r & D' & M' & F' & -> & Hr). do 5 eexists. split; [reflexivity|].
    destruct r as [a|]; [|done]. destruct Hr as [-> (Ha & Hb & Hc & Hd & Hsub)]. split; [done|]. split_and!; auto. }
  destruct r1 as [[[size mtime]|]|err1]; [|apply Hboth; auto|destruct (missing err1); [apply Hremove; auto|by do 5 eexists]].
  destruct Hr1 as (bytes & Hbytes & ->). destruct (Z.eqb_spec (Z.of_nat (length bytes)) (InfoSize info)) as [Hlen|]; [|apply Hboth; auto]. cbn [negb].
  rewrite paths_eq. unfold lift at 1. unfold mbind at 1, op_bind at 1. cbv beta iota.
  assert (Hp : p = d +:+ ".json") by by apply json_stem_Some.
  assert (Hiff : negb (bool_decide (d = kd (InfoKey info))) || negb (bool_decide (p = km (InfoKey info))) = negb (bool_decide (p = km (InfoKey info)))).
  { destruct (bool_decide_reflect (p = km (InfoKey info))) as [He|He]; [|by rewrite orb_true_r]. rewrite bool_decide_true; [done|].
    rewrite km_kd, Hp in He. by apply string_app_inv_r in He. }
  rewrite Hiff. destruct (bool_decide_reflect (p = km (InfoKey info))) as [He|He]; cbn [negb].
  - unfold mbind, op_bind, mret, op_ret, change, l_set_items. cbn. do 5 eexists. split; [reflexivity|]. split; [auto|].
    exists info, bytes, mtime. split_and!; try done. by left.
  - destruct (relocate_spec p d (km (InfoKey info)) (kd (InfoKey info)) D M F1 I) as (r2 & D2 & M2 & F2 & H2 & Hr2). rewrite (bind_spec _ _ _ _ _ H2).
    destruct r2 as [[|]|]; [| |by do 5 eexists]; cbn [negb].
    + unfold mbind, op_bind, mret, op_ret, change, l_set_items. cbn. do 5 eexists. split; [reflexivity|]. destruct Hr2 as [Hf2 Hmv]. split; [auto|].
      exists info, bytes, mtime. split_and!; try done. by right.
    + do 5 eexists. split; [reflexivity|]. split; [done|]. destruct Hr2 as (Ha & Hb & Hc & Hd & Hsub). split_and!; auto.
Qed.

(** ** All of them *)

(** What the cache relies on for an item of [key] with [info]. *)
Definition backed (key : string) (info : itemInfo) (D : gmap string (option (list byte * Z))) (M : gmap string metafile) : Prop :=
  key <> ""%string /\ InfoKey info = key /\ 0 <= InfoSize info /\
  exists bytes mtime i, D !! kd key = Some (Some (bytes, mtime)) /\ Z.of_nat (length bytes) = InfoSize info /\
    M !! km key = Some (Stored i) /\ info = loaded_info i mtime.

(** Between two metadata files: [todo] are those to come, [calm] says that no
    call fails. *)
Record loading_ok (calm : Prop) (todo known : list string) (D : gmap string (option (list byte * Z))) (M : gmap string metafile)
    (F : list bool) (I : gmap string itemInfo) : Prop := {
  lo_items : forall key info, I !! key = Some info -> backed key info D M /\ kd key ∈ known;
  lo_nodup : NoDup todo;
  lo_todo : forall p, p ∈ todo -> is_Some (json_stem p) /\ is_Some (M !! p) /\ forall key, is_Some (I !! key) -> p <> km key;
  lo_calm : calm -> F = [];
  lo_meta : calm -> forall p, is_Some (M !! p) -> p ∈ todo \/ exists key, is_Some (I !! key) /\ p = km key;
  lo_stored : forall p i, M !! p = Some (Stored i) -> wf (InfoRs i) /\ InfoSize i <= MaxInt64;
  lo_known : forall d, d ∈ known -> exists key, is_Some (I !! key) /\ d = kd key;
}.

Lemma backed_other key info D M D' M' : backed key info D M -> D' !! kd key = D !! kd key -> M' !! km key = M !! km key -> backed key info D' M'.
Proof. intros (? & ? & ? & b & t & i & ?) HD HM. split_and!; try done. exists b, t, i. by rewrite HD, HM. Qed.

Lemma stem_kd p d key : json_stem p = Some d -> p <> km key -> kd key <> d.
Proof. intros Hs Hp He. apply Hp. by rewrite km_kd, He, (json_stem_Some _ _ Hs). Qed.

Lemma dropped_ok calm p d todo known D M F I D' M' F' : json_stem p = Some d ->
  loading_ok calm (p :: todo) known D M F I -> dropped p d D D' M M' F F' -> loading_ok calm todo known D' M' F' I.
Proof.
  intros Hs [] (Hf & HM & HD & Hp & Hsub). apply NoDup_cons in lo_nodup0 as [Hni Hnd].
  destruct (lo_todo0 p) as (_ & _ & Hpi); [by left|].
  split; try done.
  - intros key info Hk. destruct (lo_items0 key info Hk) as [Hb Hin]. split; [|done].
    assert (p <> km key) by (apply Hpi; by eexists). eapply backed_other; [exact Hb|apply HD; by eapply stem_kd|by apply HM].
  - intros q Hq. destruct (lo_todo0 q) as (? & Hqs & ?); [by right|]. rewrite HM; [done|]. by intros ->.
  - intros Hc. by apply Hf, lo_calm0.
  - intros Hc q Hq. assert (q <> p) by (intros ->; rewrite Hp in Hq by auto; by destruct Hq). rewrite HM in Hq by done.
    destruct (lo_meta0 Hc q Hq) as [[->|?]%elem_of_cons|?]; [done|by left|by right].
  - intros q i Hq. eapply lo_stored0, lookup_weaken; [exact Hq|exact Hsub].
Qed.

Lemma taken_ok calm p d info d' todo known D M F I D' M' F' I' : json_stem p = Some d ->
  loading_ok calm (p :: todo) known D M F I -> (F = [] -> F' = []) -> taken p d info d' D D' M M' I I' ->
  loading_ok calm todo (d' :: known) D' M' F' I'.
Proof.
  intros Hs [] Hf (bytes & mtime & HMp & Hkey & Hsize & HDd & Hlen & -> & -> & Hplace). apply NoDup_cons in lo_nodup0 as [Hni Hnd].
  destruct (lo_todo0 p) as (_ & _ & Hpi); [by left|]. set (key := InfoKey info) in *.
  assert (Hnew : D' !! kd key = Some (Some (bytes, mtime)) /\ M' !! km key = Some (Stored info)).
  { destruct Hplace as [(He & -> & ->)|(_ & _ & _ & (v & Hv & ->) & (w & Hw & ->))].
    - assert (Hd : d = kd key).
      { rewrite km_kd, (json_stem_Some _ _ Hs) in He. by apply string_app_inv_r in He. }
      by rewrite <- He, <- Hd.
    - rewrite !lookup_insert_eq. split; congruence. }
  assert (Hold : forall key' info', key' <> key -> I !! key' = Some info' -> D' !! kd key' = D !! kd key' /\ M' !! km key' = M !! km key').
  { intros key' info' Hne Hk. destruct (lo_items0 key' info' Hk) as [(_ & _ & _ & b & t & i & HDk & _ & HMk & _) _].
    assert (Hpk : p <> km key') by (apply Hpi; by eexists). destruct Hplace as [(_ & -> & ->)|(_ & HMn & HDn & (v & _ & ->) & (w & _ & ->))]; [done|].
    rewrite !lookup_insert_ne by congruence. rewrite !lookup_delete_ne; [done|done|]. intros He. by apply (stem_kd p d key' Hs). }
  assert (Htodo : forall q, is_Some (M !! q) -> q <> p -> M' !! q = M !! q).
  { intros q [x Hq] Hqp. destruct Hplace as [(_ & _ & ->)|(_ & HMn & _ & (v & _ & ->) & _)]; [done|].
    rewrite lookup_insert_ne by congruence. by rewrite lookup_delete_ne. }
  split; try done.
  - intros key' info' [[<- <-]|[Hne Hk]]%lookup_insert_Some.
    + split; [|by left]. split_and!; try done. exists bytes, mtime, info. by destruct Hnew.
    + destruct (lo_items0 key' info' Hk) as [Hb Hin]. split; [|by right]. destruct (Hold key' info'); [done..|]. by eapply backed_other.
  - intros q Hq. destruct (lo_todo0 q) as (? & Hqs & Hqi); [by right|]. assert (q <> p) by by intros ->. rewrite Htodo by done. split; [done|]. split; [done|].
    intros key' [x [[<- _]|[_ Hk]]%lookup_insert_Some]; [|apply Hqi; by eexists].
    destruct Hplace as [(<- & _ & _)|(_ & HMn & _)]; [done|]. intros ->. destruct Hqs. congruence.
  - auto.
  - intros Hc q Hq. destruct (decide (q = km key)) as [->|Hqk]; [right; exists key; split; [rewrite lookup_insert_eq; by eexists|done]|].
    assert (Hqs : is_Some (M !! q) /\ q <> p).
    { destruct Hplace as [(-> & _ & ->)|(_ & _ & _ & (v & _ & ->) & _)]; [by split|].
      rewrite lookup_insert_ne in Hq by done. destruct Hq as [x [Hqp Hq]%lookup_delete_Some]. split; [by eexists|done]. }
    destruct Hqs as [Hqs Hqp]. destruct (lo_meta0 Hc q Hqs) as [[->|?]%elem_of_cons|(key' & Hk' & ->)]; [done|by left|right].
    exists key'. split; [|done]. destruct (decide (key' = key)) as [->|]; [rewrite lookup_insert_eq; by eexists|by rewrite lookup_insert_ne].
  - intros q i Hq. destruct Hplace as [(_ & _ & ->)|(_ & _ & _ & (v & Hv & ->) & _)]; [by eapply lo_stored0|].
    apply lookup_insert_Some in Hq as [[_ ->]|[_ [_ Hq]%lookup_delete_Some]]; by eapply lo_stored0.
  - intros x [->|Hx]%elem_of_cons.
    + exists key. split; [rewrite lookup_insert_eq; by eexists|done].
    + destruct (lo_known0 x Hx) as (key' & Hk' & ->). exists key'. split; [|done].
      destruct (decide (key' = key)) as [->|]; [rewrite lookup_insert_eq; by eexists|by rewrite lookup_insert_ne].
Qed.

Lemma load_all_spec calm todo : forall known D M F I, loading_ok calm todo known D M F I ->
  exists r D' M' F' I', load_all sha256_hex opt todo known (mkLoader D M F I) = Ret (r, mkLoader D' M' F' I') /\
    forall known', r = inl known' -> loading_ok calm [] known' D' M' F' I'.
Proof.
  induction todo as [|p todo IH]; intros known D M F I Hok; cbn [load_all].
  { do 5 eexists. split; [reflexivity|]. by intros known' [= <-]. }
  destruct (lo_todo _ _ _ _ _ _ _ Hok p) as ([d Hs] & _ & _); [by left|].
  destruct (loadExistingMeta_spec p d D M F I Hs) as (r & D1 & M1 & F1 & I1 & H1 & Hr). rewrite (bind_spec _ _ _ _ _ H1).
  destruct r as [[d'|]|err]; [| |by do 5 eexists].
  - destruct Hr as [Hf (info & Ht)]. apply IH. by eapply taken_ok.
  - destruct Hr as [-> Hd]. apply IH. by eapply dropped_ok.
Qed.

Lemma elem_cons_skip (Q : Prop) (p q : string) paths : (q = p -> ~ Q) -> (q ∈ paths /\ Q <-> q ∈ p :: paths /\ Q).
Proof. intros Hp. rewrite elem_of_cons. split; [intros []; auto|]. intros [[He|?] HQ]; [by destruct (Hp He)|done]. Qed.

Lemma walk_meta_spec paths : forall D M F I, NoDup paths -> (forall p, p ∈ paths -> is_Some (M !! p)) ->
  exists r M' F', walk_meta paths (mkLoader D M F I) = Ret (r, mkLoader D M' F' I) /\ (F = [] -> F' = [] /\ exists found, r = inl found) /\
    forall found, r = inl found -> NoDup found /\ (forall p, p ∈ found <-> p ∈ paths /\ is_Some (json_stem p)) /\
      (forall p, M' !! p = if decide (p ∈ paths /\ json_stem p = None) then None else M !! p).
Proof.
  induction paths as [|p paths IH]; intros D M F I Hnd Hin; cbn [walk_meta].
  { do 3 eexists. split; [reflexivity|]. split; [by eauto|]. intros found [= <-]. split; [by apply NoDup_nil_2|]. split; [set_solver|].
    intros p. rewrite decide_False; [done|]. by intros [?%elem_of_nil _]. }
  apply NoDup_cons in Hnd as [Hni Hnd]. destruct (json_stem p) as [d|] eqn:Hs.
  - destruct (IH D M F I Hnd) as (r & M' & F' & H1 & Hf & Hr); [set_solver|]. rewrite (bind_spec _ _ _ _ _ H1).
    destruct r as [found|err]; do 3 eexists; (split; [reflexivity|]); [|split; [intros HF; by destruct (Hf HF) as [_ [? ?]]|done]].
    split; [intros HF; destruct (Hf HF); by eauto|]. intros found' [= <-]. destruct (Hr found eq_refl) as (Hnd' & Hmem & Hlk).
    split; [apply NoDup_cons; split; [rewrite Hmem; by intros [? _]|done]|]. split.
    + intros q. rewrite !elem_of_cons, Hmem. split; [|naive_solver]. intros [->|[? ?]]; [|by auto]. split; [by left|]. by eexists.
    + intros q. rewrite Hlk. apply decide_ext, elem_cons_skip. congruence.
  - destruct (Remove_meta_spec p D M F I) as (r0 & F0 & M0 & H0 & Hrem). rewrite (bind_spec _ _ _ _ _ H0).
    pose proof (proj2 Hrem) as Hnf. destruct r0 as [[]|err].
    2:{ do 3 eexists. split; [reflexivity|]. split; [|done]. intros HF. destruct (Hnf HF) as [_ Hr0]. discriminate Hr0. apply Hin. by left. }
    destruct Hrem as [[[_ ->]|(? & ? & _)] _]; [|done].
    destruct (IH D (delete p M) F0 I Hnd) as (r & M' & F' & H1 & Hf & Hr).
    { intros q Hq. rewrite lookup_delete_ne by (intros <-; done). apply Hin. by right. }
    rewrite H1. do 3 eexists. split; [reflexivity|]. split; [intros HF; apply Hf; by apply Hnf|]. intros found ->.
    destruct (Hr found eq_refl) as (Hnd' & Hmem & Hlk). split; [done|]. split.
    + intros q. rewrite Hmem, elem_of_cons. split; [naive_solver|]. intros [[->|?] Hq]; [|by auto]. by rewrite Hs in Hq; destruct Hq.
    + intros q. rewrite Hlk. destruct (decide (q = p)) as [->|Hqp].
      * rewrite lookup_delete_eq. rewrite (decide_True (P := p ∈ p :: paths /\ json_stem p = None)) by (split; [by left|done]). by destruct (decide _).
      * rewrite lookup_delete_ne by done. by apply decide_ext, elem_cons_skip.
Qed.

Lemma walk_data_spec known paths : forall D M F I,
  exists r D' F', walk_data paths known (mkLoader D M F I) = Ret (r, mkLoader D' M F' I) /\
    (F = [] -> NoDup paths -> (forall p, p ∈ paths -> is_Some (D !! p)) -> r = inl tt /\ F' = []) /\
    (r = inl tt -> forall p, D' !! p = if decide (p ∈ paths /\ p ∉ known) then None else D !! p).
Proof.
  induction paths as [|p paths IH]; intros D M F I; cbn [walk_data].
  { do 3 eexists. split; [reflexivity|]. split; [done|]. intros _ p. rewrite decide_False; [done|]. by intros [?%elem_of_nil _]. }
  destruct (bool_decide_reflect (p ∈ known)) as [Hk|Hk].
  - destruct (IH D M F I) as (r & D' & F' & H1 & Hf & Hr). exists r, D', F'. split; [exact H1|]. split.
    + intros HF [_ Hnd]%NoDup_cons Hin. apply Hf; [done..|]. intros q Hq. apply Hin. by right.
    + intros -> q. rewrite Hr by done. apply decide_ext, elem_cons_skip. intros -> ?. done.
  - destruct (Remove_data_spec p D M F I) as (r0 & F0 & D0 & H0 & Hrem). rewrite (bind_spec _ _ _ _ _ H0). pose proof (proj2 Hrem) as Hnf.
    destruct r0 as [[]|err].
    2:{ do 3 eexists. split; [reflexivity|]. split; [|done]. intros HF _ Hin. destruct (Hnf HF) as [_ Hr0]. discriminate Hr0. apply Hin. by left. }
    destruct Hrem as [[[_ ->]|(? & ? & _)] _]; [|done]. destruct (IH (delete p D) M F0 I) as (r & D' & F' & H1 & Hf & Hr). rewrite H1.
    do 3 eexists. split; [reflexivity|]. split.
    + intros HF [Hni Hnd]%NoDup_cons Hin. apply Hf; [by apply Hnf|done|]. intros q Hq. rewrite lookup_delete_ne by (intros <-; done). apply Hin. by right.
    + intros Hrt q. rewrite Hr by done. destruct (decide (q = p)) as [->|Hqp].
      * rewrite lookup_delete_eq. rewrite (decide_True (P := p ∈ p :: paths /\ p ∉ known)) by (split; [by left|done]). by destruct (decide _).
      * rewrite lookup_delete_ne by done. by apply decide_ext, elem_cons_skip.
Qed.

Lemma loaded_info_wf i mtime : wf (InfoRs i) -> 0 <= InfoSize i <= MaxInt64 ->
  wf (InfoRs (loaded_info i mtime)) /\ forall x, covers (InfoRs (loaded_info i mtime)) x -> 0 <= x < InfoSize i.
Proof.
  intros Hwf Hs. destruct (Intersection_correct (InfoRs i) (mkRange 0 (InfoSize i)) Hwf) as [Hw Hc].
  { unfold in_bounds, MinInt64, MaxInt64 in *. cbn. lia. }
  split; [done|].
  intros x Hx. apply Hc in Hx as [_ Hx]. unfold elem_of, Range_elem in Hx. cbn in Hx. lia.
Qed.

Context `{GoOrderOK}.

Lemma range_keys_spec {V} (m : gmap string V) : NoDup (range_keys _ m) /\ forall k, k ∈ range_keys _ m <-> is_Some (m !! k).
Proof.
  pose proof (range_keys_ok V m) as Hp. split; [rewrite Hp; apply NoDup_fst_map_to_list|]. intros k. rewrite Hp, list_elem_of_fmap. split.
  - intros ((k' & v) & -> & Hin%elem_of_map_to_list). by eexists.
  - intros [v Hv]. exists (k, v). split; [done|]. by apply elem_of_map_to_list.
Qed.

(** The metadata that is there when loading starts. *)
Definition sound_metadata (M : gmap string metafile) : Prop :=
  forall p i, M !! p = Some (Stored i) -> wf (InfoRs i) /\ InfoSize i <= MaxInt64.

Lemma loadExisting_spec D M F l : sound_metadata M -> loadExisting sha256_hex opt (mkLoader D M F ∅) = Ret (inl tt, l) ->
  exists known, loading_ok (F = []) [] known (l_data l) (l_meta l) (l_faults l) (l_items l) /\
    forall p, is_Some (l_data l !! p) -> p ∈ known.
Proof.
  intros Hsound. unfold loadExisting. destruct (call_spec D M F ∅) as (r0 & F0 & Hc0 & Hf0 & _). rewrite (bind_spec _ _ _ _ _ Hc0).
  destruct r0 as [[]|]; [|done]. rewrite look_bind. cbn [l_meta].
  destruct (range_keys_spec M) as [Hndm Hinm].
  destruct (walk_meta_spec (range_keys _ M) D M F0 ∅ Hndm) as (r1 & M1 & F1 & H1 & Hf1 & Hr1); [by intros p Hp; apply Hinm|].
  rewrite (bind_spec _ _ _ _ _ H1). destruct r1 as [found|]; [|done]. destruct (Hr1 found eq_refl) as (Hnd & Hmem & Hlk).
  assert (Hok : loading_ok (F = []) found [] D M1 F1 ∅).
  { split; try done.
    - intros p Hp. apply Hmem in Hp as [Hp Hs]. split; [done|]. split; [|by intros key [? ?]]. rewrite Hlk, decide_False; [by apply Hinm|].
      intros [_ Hn]. by rewrite Hn in Hs; destruct Hs.
    - intros HF. apply Hf1, Hf0, HF.
    - intros _ p [m Hp]. left. rewrite Hlk in Hp. destruct (decide _) as [|Hno]; [done|]. apply Hmem.
      assert (Hin : p ∈ range_keys _ M) by (apply Hinm; by eexists). split; [done|]. destruct (json_stem p) eqn:Hs; [by eexists|]. by destruct Hno.
    - intros p i Hp. rewrite Hlk in Hp. destruct (decide _); [done|by apply (Hsound p)].
    - by intros d ?%elem_of_nil. }
  destruct (load_all_spec (F = []) found [] D M1 F1 ∅ Hok) as (r2 & D2 & M2 & F2 & I2 & H2 & Hr2). rewrite (bind_spec _ _ _ _ _ H2).
  destruct r2 as [known|]; [|done]. specialize (Hr2 known eq_refl).
  destruct (call_spec D2 M2 F2 I2) as (r3 & F3 & H3 & Hf3 & _). rewrite (bind_spec _ _ _ _ _ H3). destruct r3 as [[]|]; [|done].
  rewrite look_bind. cbn [l_data]. destruct (range_keys_spec D2) as [Hndd Hind].
  destruct (walk_data_spec known (range_keys _ D2) D2 M2 F3 I2) as (r4 & D4 & F4 & H4 & Hf4 & Hr4). rewrite H4. intros [= -> <-]. cbn.
  specialize (Hr4 eq_refl). exists known. destruct Hr2. split.
  - split; try done.
    + intros key info Hk. destruct (lo_items0 key info Hk) as [Hb Hin]. split; [|done]. eapply backed_other; [exact Hb| |done].
      rewrite Hr4. apply decide_False. by intros [_ ?].
    + intros HF. destruct (Hf3 (lo_calm0 HF)) as [-> _]. by destruct (Hf4 eq_refl Hndd (fun p Hp => proj1 (Hind p) Hp)).
  - intros p [x Hp]. rewrite Hr4 in Hp. destruct (decide _) as [|Hno]; [done|]. destruct (decide (p ∈ known)) as [|Hk]; [done|]. destruct Hno.
    split; [|done]. apply Hind. by eexists.
Qed.

(** Every file in its place. *)
Record well_placed (D : gmap string (option (list byte * Z))) (M : gmap string metafile) : Prop := {
  wp_meta : forall p m, M !! p = Some m -> exists i bytes mtime, m = Stored i /\ p = km (InfoKey i) /\ InfoKey i <> ""%string /\
    0 <= InfoSize i /\ D !! kd (InfoKey i) = Some (Some (bytes, mtime)) /\ Z.of_nat (length bytes) = InfoSize i;
  wp_data : forall d, is_Some (D !! d) -> exists i, M !! km (InfoKey i) = Some (Stored i) /\ d = kd (InfoKey i);
}.

(** The item of the file [p]. *)
Definition placed (D : gmap string (option (list byte * Z))) (M : gmap string metafile) (p key : string) (info : itemInfo) : Prop :=
  exists i bytes mtime, p = km key /\ M !! p = Some (Stored i) /\ InfoKey i = key /\ D !! kd key = Some (Some (bytes, mtime)) /\
    info = loaded_info i mtime.

Lemma call_calm D M I : call (mkLoader D M [] I) = Ret (inl tt, mkLoader D M [] I).
Proof. done. Qed.

Lemma loadExistingMeta_placed p i bytes mtime D M I : M !! p = Some (Stored i) -> p = km (InfoKey i) -> InfoKey i <> ""%string ->
  0 <= InfoSize i -> D !! kd (InfoKey i) = Some (Some (bytes, mtime)) -> Z.of_nat (length bytes) = InfoSize i ->
  loadExistingMeta sha256_hex opt p (mkLoader D M [] I) = Ret (inl (Some (kd (InfoKey i))), mkLoader D M [] (<[InfoKey i := loaded_info i mtime]> I)).
Proof.
  intros HM Hp Hkey Hsize HD Hlen. unfold loadExistingMeta.
  assert (Hc0 : ReadFile_meta p (mkLoader D M [] I) = Ret (inl (Stored i), mkLoader D M [] I)).
  { unfold ReadFile_meta. rewrite (bind_spec _ _ _ _ _ (call_calm D M I)). run_tree. by rewrite HM. }
  rewrite (try_spec _ _ _ _ _ Hc0). rewrite bool_decide_false by done. destruct (Z.ltb_spec (InfoSize i) 0); [lia|]. cbn [orb].
  assert (Hstem : json_stem p = Some (kd (InfoKey i))) by by rewrite Hp, km_kd, json_stem_app. rewrite Hstem.
  assert (Hst : Stat_data (kd (InfoKey i)) (mkLoader D M [] I) = Ret (inl (Some (Z.of_nat (length bytes), mtime)), mkLoader D M [] I)).
  { unfold Stat_data. rewrite (bind_spec _ _ _ _ _ (call_calm D M I)). run_tree. by rewrite HD. }
  rewrite (try_spec _ _ _ _ _ Hst), Hlen, Z.eqb_refl. cbn [negb]. rewrite paths_eq. unfold lift at 1. unfold mbind at 1, op_bind at 1. cbv beta iota.
  rewrite !bool_decide_true by done. cbn [negb orb]. reflexivity.
Qed.

Lemma load_all_placed D M paths : well_placed D M -> forall known I, NoDup paths -> (forall p, p ∈ paths -> is_Some (M !! p)) ->
  (forall key, is_Some (I !! key) -> km key ∉ paths) ->
  exists known' I', load_all sha256_hex opt paths known (mkLoader D M [] I) = Ret (inl known', mkLoader D M [] I') /\
    (forall d, d ∈ known' <-> d ∈ known \/ exists key, d = kd key /\ km key ∈ paths) /\
    (forall key info, I' !! key = Some info <-> (exists p, p ∈ paths /\ placed D M p key info) \/ I !! key = Some info).
Proof.
  intros Hwp. induction paths as [|p paths IH]; intros known I Hnd Hin HI0; cbn [load_all].
  { exists known, I. split; [done|]. split; [intros d; set_solver|]. intros key info. set_solver. }
  apply NoDup_cons in Hnd as [Hni Hnd]. destruct (Hin p) as [m Hm]; [by left|].
  destruct (wp_meta _ _ Hwp p m Hm) as (i & bytes & mtime & -> & Hp & Hkey & Hsize & HD & Hlen).
  rewrite (bind_spec _ _ _ _ _ (loadExistingMeta_placed p i bytes mtime D M I Hm Hp Hkey Hsize HD Hlen)).
  assert (Hfresh : I !! InfoKey i = None).
  { destruct (I !! InfoKey i) eqn:Hk; [|done]. destruct (HI0 (InfoKey i)); [by eexists|]. rewrite <- Hp. by left. }
  destruct (IH (kd (InfoKey i) :: known) (<[InfoKey i := loaded_info i mtime]> I) Hnd) as (known' & I' & Hrun & Hk & HI); [set_solver| |].
  { intros key [x [[<- _]|[_ Hk]]%lookup_insert_Some]; [by rewrite <- Hp|]. intros Hin'. apply (HI0 key); [by eexists|by right]. }
  exists known', I'. split; [exact Hrun|]. split.
  - intros d. rewrite Hk, elem_of_cons. split.
    + intros [[->|?]|(key & -> & ?)]; [right; exists (InfoKey i); split; [done|by rewrite <- Hp; left]|by left|right; exists key; split; [done|by right]].
    + intros [?|(key & -> & [Heq|?]%elem_of_cons)]; [by left; right| |right; by exists key]. left. left.
      rewrite Hp, !km_kd in Heq. by apply string_app_inv_r in Heq.
  - intros key info. rewrite HI. split.
    + intros [(q & Hq & Hpl)|[[<- <-]|[_ Hk0]]%lookup_insert_Some]; [| |by right].
      * left. exists q. split; [by right|done].
      * left. exists p. split; [by left|]. by exists i, bytes, mtime.
    + intros [(q & [->|Hq]%elem_of_cons & Hpl)|Hk0]; [|left; by exists q|].
      * destruct Hpl as (i' & b' & t' & Hq' & HM' & Hki & HD' & ->). assert (i' = i) as -> by congruence. subst key.
        right. rewrite lookup_insert_eq. rewrite HD in HD'. by injection HD' as <- <-.
      * right. rewrite lookup_insert_ne; [done|]. intros <-. congruence.
Qed.

Lemma walk_data_known D M F I known paths : (forall p, p ∈ paths -> p ∈ known) ->
  walk_data paths known (mkLoader D M F I) = Ret (inl tt, mkLoader D M F I).
Proof.
  induction paths as [|p paths IH]; intros Hin; cbn [walk_data]; [done|]. rewrite bool_decide_true by (apply Hin; by left).
  apply IH. intros q Hq. apply Hin. by right.
Qed.

Lemma walk_meta_json D M F I paths : (forall p, p ∈ paths -> is_Some (json_stem p)) ->
  walk_meta paths (mkLoader D M F I) = Ret (inl paths, mkLoader D M F I).
Proof.
  induction paths as [|p paths IH]; intros Hin; cbn [walk_meta]; [done|]. destruct (Hin p) as [d ->]; [by left|].
  rewrite (bind_spec _ _ _ _ _ (IH (fun q Hq => Hin q (list_elem_of_further _ _ _ Hq)))). done.
Qed.

Lemma loadExisting_placed D M : well_placed D M ->
  exists I, loadExisting sha256_hex opt (mkLoader D M [] ∅) = Ret (inl tt, mkLoader D M [] I) /\
    forall key info, I !! key = Some info <-> placed D M (km key) key info.
Proof.
  intros Hwp. unfold loadExisting. rewrite (bind_spec _ _ _ _ _ (call_calm D M ∅)). rewrite look_bind. cbn [l_meta].
  destruct (range_keys_spec M) as [Hndm Hinm].
  assert (Hjson : forall p, p ∈ range_keys _ M -> is_Some (json_stem p)).
  { intros p Hp. apply Hinm in Hp as [m Hm]. destruct (wp_meta _ _ Hwp p m Hm) as (i & ? & ? & _ & -> & _).
    rewrite km_kd, json_stem_app. by eexists. }
  rewrite (bind_spec _ _ _ _ _ (walk_meta_json D M [] ∅ (range_keys _ M) Hjson)).
  destruct (load_all_placed D M (range_keys _ M) Hwp [] ∅ Hndm) as (known & I & Hrun & Hk & HI); [by intros p Hp; apply Hinm|by intros key [? ?]|].
  rewrite (bind_spec _ _ _ _ _ Hrun), (bind_spec _ _ _ _ _ (call_calm D M I)). rewrite look_bind. cbn [l_data].
  rewrite walk_data_known.
  2:{ intros d Hd. apply range_keys_spec in Hd. destruct (wp_data _ _ Hwp d Hd) as (i & HM & ->). apply Hk. right. exists (InfoKey i).
      split; [done|]. apply Hinm. by eexists. }
  exists I. split; [done|]. intros key info. rewrite HI. split.
  - intros [(p & _ & Hpl)|?]; [|done]. destruct Hpl as (i & b & t & -> & ?). by exists i, b, t.
  - intros Hpl. left. exists (km key). split; [|done]. apply Hinm. destruct Hpl as (i & b & t & _ & -> & _). by eexists.
Qed.

(** What loading without failing calls leaves is in its place. *)
Lemma loaded_well_placed D M l : sound_metadata M -> loadExisting sha256_hex opt (mkLoader D M [] ∅) = Ret (inl tt, l) ->
  l_faults l = [] /\ well_placed (l_data l) (l_meta l) /\
  forall key info, l_items l !! key = Some info <-> placed (l_data l) (l_meta l) (km key) key info.
Proof.
  intros Hsound Hrun. destruct (loadExisting_spec D M [] l Hsound Hrun) as (known & [] & Hall).
  assert (Hmeta : forall p, is_Some (l_meta l !! p) -> exists key, is_Some (l_items l !! key) /\ p = km key).
  { intros p Hp. destruct (lo_meta0 eq_refl p Hp) as [?%elem_of_nil|?]; done. }
  assert (Hback : forall key info, l_items l !! key = Some info -> exists i bytes mtime, l_data l !! kd key = Some (Some (bytes, mtime)) /\
    Z.of_nat (length bytes) = InfoSize i /\ l_meta l !! km key = Some (Stored i) /\ info = loaded_info i mtime /\ InfoKey i = key /\ key <> ""%string /\ 0 <= InfoSize i).
  { intros key info Hk. destruct (lo_items0 key info Hk) as [(Hne & Hik & Hsz & b & t & i & HD & Hlen & HM & ->) _].
    exists i, b, t. split_and!; try done. }
  split; [by apply lo_calm0|]. split; [split|].
  - intros p m Hp. destruct (Hmeta p) as (key & [info Hk] & ->); [by eexists|].
    destruct (Hback key info Hk) as (i & b & t & HD & Hlen & HM & _ & Hik & Hne & Hsz). exists i, b, t. subst key.
    split_and!; try done. congruence.
  - intros d Hd. destruct (lo_known0 d (Hall d Hd)) as (key & [info Hk] & ->).
    destruct (Hback key info Hk) as (i & b & t & HD & Hlen & HM & _ & Hik & Hne & Hsz). exists i. by rewrite Hik.
  - intros key info. split.
    + intros Hk. destruct (Hback key info Hk) as (i & b & t & HD & Hlen & HM & -> & Hik & Hne & Hsz). by exists i, b, t.
    + intros (i & b & t & _ & HM & Hik & HD & ->). destruct (Hmeta (km key)) as (key' & [info Hk] & Heq); [by eexists|].
      destruct (Hback key' info Hk) as (i' & b' & t' & HD' & Hlen & HM' & -> & Hik' & _). rewrite <- Heq in HM'.
      assert (i' = i) as -> by congruence. assert (key' = key) as -> by congruence. rewrite Hk. do 2 f_equal. congruence.
Qed.
End load_meta.

(** C13. Theorem loadExisting_items_are_backed: whatever files an earlier process
    left and whichever calls fail, when loading succeeds each item has its
    metadata and a data file of its size at the paths of its key, its ranges are
    well formed and inside the object, and there is no other data; when no call
    fails there is no other metadata either. *)
Theorem loadExisting_items_are_backed `{GoOrderOK} sha256_hex opt D M F l :
  (forall key, String.length (sha256_hex key) = 64%nat) -> validate opt = None -> sound_metadata M ->
  loadExisting sha256_hex opt (mkLoader D M F ∅) = Ret (inl tt, l) ->
  (forall key info, l_items l !! key = Some info ->
     backed sha256_hex opt key info (l_data l) (l_meta l) /\
     wf (InfoRs info) /\ forall x, covers (InfoRs info) x -> 0 <= x < InfoSize info) /\
  (forall d, is_Some (l_data l !! d) -> exists key, is_Some (l_items l !! key) /\ d = kd sha256_hex opt key) /\
  (F = [] -> forall p, is_Some (l_meta l !! p) -> exists key, is_Some (l_items l !! key) /\ p = km sha256_hex opt key).
Proof.
  intros Hsha Hv Hsound Hrun. pose proof (validate_depth opt Hv) as [_ Hd].
  destruct (loadExisting_spec sha256_hex opt Hsha Hd D M F l Hsound Hrun) as (known & [] & Hall). split_and!.
  - intros key info Hk. destruct (lo_items0 key info Hk) as [Hb _]. split; [done|].
    destruct Hb as (_ & _ & Hsz & b & t & i & _ & _ & HM & ->). destruct (lo_stored0 _ _ HM) as [Hwf Hmax]. exact (loaded_info_wf i t Hwf (conj Hsz Hmax)).
  - intros d Hd'. by apply lo_known0, Hall.
  - intros HF p Hp. destruct (lo_meta0 HF p Hp) as [?%elem_of_nil|?]; done.
Qed.

(** C23. Theorem loadExisting_reload: loading is idempotent: over the files that a
    load without failing calls has left, the next load changes nothing and finds
    the same items. *)
Theorem loadExisting_reload `{GoOrderOK} sha256_hex opt D M l :
  (forall key, String.length (sha256_hex key) = 64%nat) -> validate opt = None -> sound_metadata M ->
  loadExisting sha256_hex opt (mkLoader D M [] ∅) = Ret (inl tt, l) ->
  loadExisting sha256_hex opt (l_set_items ∅ l) = Ret (inl tt, l).
Proof.
  intros Hsha Hv Hsound Hrun. pose proof (validate_depth opt Hv) as [_ Hd].
  destruct (loaded_well_placed sha256_hex opt Hsha Hd D M l Hsound Hrun) as (Hf & Hwp & Hit). destruct l as [D' M' F' I']. cbn in *. subst F'.
  change (l_set_items ∅ (mkLoader D' M' [] I')) with (mkLoader D' M' [] ∅).
  destruct (loadExisting_placed sha256_hex opt Hsha Hd D' M' Hwp) as (I & -> & HI). do 3 f_equal. apply map_eq. intros key.
  apply option_eq. intros info. by rewrite HI, Hit.
Qed.

(** ** A directory after a change of the shard depth *)
Definition demo_sha (key : string) : string :=
  if bool_decide (key = "a"%string) then "aa00000000000000000000000000000000000000000000000000000000000000"
  else "bb00000000000000000000000000000000000000000000000000000000000000".
Definition demo_meta (key : string) (size : Z) : metafile := Stored (mkInfo key zeroTime size [mkRange 0 2; mkRange 3 5] "").

(** [a] is in place, [b] was stored without shards, there are a metadata file
    without data, a broken one, data without metadata and a temporary file. *)
Definition demo_tree (faults : list bool) : loader := mkLoader
  (<["/aa/aa000000000000000000000000000000" := Some ([x00; x01; x02; x03], 7)]>
   (<["/bb000000000000000000000000000000" := Some ([x04; x05; x06], 8)]> {["/cc/stray" := Some ([x07], 9)]}))
  (<["/aa/aa000000000000000000000000000000.json" := demo_meta "a" 4]>
   (<["/bb000000000000000000000000000000.json" := demo_meta "b" 3]>
    (<["/dd/nothing.json" := demo_meta "d" 4]> (<["/ee/broken.json" := Corrupt]> {["/aa/x.tmp" := Corrupt]}))))
  faults ∅.

Definition demo_loaded : loader := mkLoader
  (<["/aa/aa000000000000000000000000000000" := Some ([x00; x01; x02; x03], 7)]>
   {["/bb/bb000000000000000000000000000000" := Some ([x04; x05; x06], 8)]})
  (<["/aa/aa000000000000000000000000000000.json" := demo_meta "a" 4]>
   {["/bb/bb000000000000000000000000000000.json" := demo_meta "b" 3]})
  [] (<["a" := mkInfo "a" 7 4 [mkRange 0 2; mkRange 3 1] ""]> {["b" := mkInfo "b" 8 3 [mkRange 0 2] ""]}).

Lemma demo_loads : loadExisting demo_sha DefaultOptions (demo_tree []) = Ret (inl tt, demo_loaded).
Proof. vm_compute. reflexivity. Qed.

Lemma demo_sound : sound_metadata (l_meta (demo_tree [])).
Proof.
  assert (Hall : map_Forall (fun _ m => match m with Stored i => wf (InfoRs i) /\ InfoSize i <= MaxInt64 | Corrupt => True end) (l_meta (demo_tree []))).
  { repeat (apply map_Forall_insert_2; [first [done|split; [cbn; solve_ranges|vm_compute; discriminate]]|]). apply map_Forall_empty. }
  intros p i Hp. by apply (Hall p _ Hp).
Qed.

Lemma demo_sha_length key : String.length (demo_sha key) = 64%nat.
Proof. unfold demo_sha. by destruct (bool_decide _). Qed.

Lemma loadExisting_items_are_backed_witness :
  loadExisting demo_sha DefaultOptions (demo_tree []) = Ret (inl tt, demo_loaded) /\
  backed demo_sha DefaultOptions "b" (mkInfo "b" 8 3 [mkRange 0 2] "") (l_data demo_loaded) (l_meta demo_loaded).
Proof.
  split; [exact demo_loads|].
  apply (loadExisting_items_are_backed demo_sha DefaultOptions _ _ [] demo_loaded demo_sha_length eq_refl demo_sound demo_loads). reflexivity.
Defined.

Lemma loadExisting_reload_witness :
  loadExisting demo_sha DefaultOptions (l_set_items ∅ demo_loaded) = Ret (inl tt, demo_loaded).
Proof.
  exact (loadExisting_reload demo_sha DefaultOptions _ _ demo_loaded demo_sha_length eq_refl demo_sound demo_loads).
Defined.
