(* ===== verification/CacheLocks.v ===== *)
(** * The locks of the cleaner (src/cache/cache.go, KickCleaner, cleaner and clean)

    [Cache] runs the passes of the cleaner on their own; here are only the
    mutexes, the condition and the channel by which the goroutines of the cache
    wait for one another.  What runs between two waits is one section. *)
From stdpp Require Import base list relations.
From S2P Require Import Prelude.
From S2P Require Import Interleave.

(** ** State *)

(** [lk_kick] is the channel: [Offered] while a sender waits at it, [Taken] from
    the receive until that sender goes on.  [lk_tick] is a tick that has not been
    received, [lk_done] the end of the cache's context; [lk_prefer] says which
    ready case [select] takes.  [lk_waiting] counts the broadcasts. *)
Inductive channel := Idle | Offered | Taken.

Record locks := mkLocks {
  lk_kickerMu : bool;
  lk_mu : bool;
  lk_kick : channel;
  lk_cleanerKicked : bool;
  lk_outOfSpace : bool;
  lk_tick : bool;
  lk_done : bool;
  lk_prefer : bool;
  lk_broadcasts : nat;
}.

Definition set_kickerMu v s := mkLocks v (lk_mu s) (lk_kick s) (lk_cleanerKicked s) (lk_outOfSpace s) (lk_tick s) (lk_done s) (lk_prefer s) (lk_broadcasts s).
Definition set_mu v s := mkLocks (lk_kickerMu s) v (lk_kick s) (lk_cleanerKicked s) (lk_outOfSpace s) (lk_tick s) (lk_done s) (lk_prefer s) (lk_broadcasts s).
Definition set_kick v s := mkLocks (lk_kickerMu s) (lk_mu s) v (lk_cleanerKicked s) (lk_outOfSpace s) (lk_tick s) (lk_done s) (lk_prefer s) (lk_broadcasts s).
Definition set_cleanerKicked v s := mkLocks (lk_kickerMu s) (lk_mu s) (lk_kick s) v (lk_outOfSpace s) (lk_tick s) (lk_done s) (lk_prefer s) (lk_broadcasts s).
Definition set_outOfSpace v s := mkLocks (lk_kickerMu s) (lk_mu s) (lk_kick s) (lk_cleanerKicked s) v (lk_tick s) (lk_done s) (lk_prefer s) (lk_broadcasts s).
Definition set_tick v s := mkLocks (lk_kickerMu s) (lk_mu s) (lk_kick s) (lk_cleanerKicked s) (lk_outOfSpace s) v (lk_done s) (lk_prefer s) (lk_broadcasts s).
Definition cond_Broadcast s := mkLocks (lk_kickerMu s) (lk_mu s) (lk_kick s) (lk_cleanerKicked s) (lk_outOfSpace s) (lk_tick s) (lk_done s) (lk_prefer s) (S (lk_broadcasts s)).

(** [mu.Lock()] waits until it is free. *)
Definition wait_for (enabled : locks -> bool) (f : locks -> locks) : locked locks unit :=
  fun s => (s, Step enabled (fun s => (f s, Done tt))).
Definition kickerMu_Lock : locked locks unit := wait_for (fun s => negb (lk_kickerMu s)) (set_kickerMu true).
Definition kickerMu_Unlock : locked locks unit := modify (set_kickerMu false).
Definition mu_Lock : locked locks unit := wait_for (fun s => negb (lk_mu s)) (set_mu true).
Definition mu_Unlock : locked locks unit := modify (set_mu false).

(** [c.kick <- struct{}{}] on the unbuffered channel. *)
Definition is_idle s : bool := match lk_kick s with Idle => true | _ => false end.
Definition is_offered s : bool := match lk_kick s with Offered => true | _ => false end.
Definition is_taken s : bool := match lk_kick s with Taken => true | _ => false end.
Definition kick_send : locked locks unit := wait_for is_idle (set_kick Offered);; wait_for is_taken (set_kick Idle).

(** [cond.Wait()]: gives up [mu] until the next broadcast. *)
Definition cond_Wait : locked locks unit :=
  n ← get lk_broadcasts;
  mu_Unlock;;
  wait_for (fun s => (n <? lk_broadcasts s)%nat && negb (lk_mu s)) (set_mu true).

Section kick.
Context (poll : bool) (sections : nat).

(** [for c.outOfSpace { c.cond.Wait() }], up to [n] rounds. *)
Fixpoint await_space (n : nat) : locked locks unit :=
  match n with
  | 0%nat => mret tt
  | S n => out ← get lk_outOfSpace; if (out : bool) then cond_Wait;; await_space n else mret tt
  end.

Definition KickCleaner (rounds : nat) : locked locks unit :=
  if negb poll then mret tt
  else
    kickerMu_Lock;;
    kicked ← get lk_cleanerKicked;
    (if (kicked : bool) then mret tt
     else
       modify (set_cleanerKicked true);;
       mu_Lock;;
       modify (set_outOfSpace true);;
       kick_send;;
       mu_Unlock);;
    kickerMu_Unlock;;
    mu_Lock;;
    await_space rounds;;
    mu_Unlock.

(** The critical sections on [mu] of a pass: the snapshot of the items, the
    [sections] that the resets of this pass take, the end. *)
Fixpoint mu_sections (n : nat) : locked locks unit :=
  match n with 0%nat => mret tt | S n => mu_Lock;; mu_Unlock;; mu_sections n end.

Definition clean_pass (kicked : bool) : locked locks unit :=
  mu_Lock;; mu_Unlock;;
  mu_sections sections;;
  (if kicked then kickerMu_Lock;; modify (set_cleanerKicked false);; kickerMu_Unlock else mret tt);;
  mu_Lock;;
  modify (set_outOfSpace false);;
  modify cond_Broadcast;;
  mu_Unlock.

(** The loop of the cleaner, [n] rounds of it; the [select] receives a kick, a
    tick or the end of the context. *)
Inductive event := Kicked | Ticked | Stopped.
Definition ready_events s : list event :=
  (if is_offered s then [Kicked] else []) ++ (if lk_tick s then [Ticked] else []) ++ (if lk_done s then [Stopped] else []).
Definition pick_event s : event :=
  match (if lk_prefer s then rev (ready_events s) else ready_events s) with e :: _ => e | [] => Stopped end.
Definition receive s : locks :=
  match pick_event s with Kicked => set_kick Taken s | Ticked => set_tick false s | Stopped => s end.
Definition select : locked locks event :=
  fun s => (s, Step (fun s => negb (bool_decide (length (ready_events s) = 0%nat)))
    (fun s => (receive s, Done (pick_event s)))).

Fixpoint cleaner (n : nat) : locked locks unit :=
  match n with
  | 0%nat => mret tt
  | S n =>
      e ← select;
      match e with
      | Kicked => clean_pass true;; cleaner n
      | Ticked => clean_pass false;; cleaner n
      | Stopped => mret tt
      end
  end.

(** Any other operation of the cache starts with [mu]. *)
Definition Stats_locks : locked locks unit := mu_Lock;; mu_Unlock.
End kick.

(** Nobody holds anything; a tick is due when [tick]. *)
Definition start (tick : bool) : locks := mkLocks false false Idle false false tick false false 0.
Definition goroutines (l : list (locked locks unit)) : list (proc locks unit) := with_lock <$> l.

(** ** Properties *)

Definition step_of {S} (c : par S) (i : nat) : option (par S) :=
  match snd c !! i with
  | Some (Step enabled section) => if enabled (fst c) then Some (fst (section (fst c)), <[i := snd (section (fst c))]> (snd c)) else None
  | _ => None
  end.

Lemma par_step_of {S} (c c' : par S) : par_step c c' -> exists i, (i < length (snd c))%nat /\ step_of c i = Some c'.
Proof.
  intros [s ps i enabled section Hi He]. exists i. split; [by eapply lookup_lt_Some|]. unfold step_of. cbn. by rewrite Hi, He.
Qed.

(** C37. Theorem cache_KickCleaner_deadlocks: a goroutine that ran out of space
    keeps [mu] while it offers its kick; when the cleaner has just taken a tick
    instead, its pass waits for [mu] and never comes back to receive the kick:
    nobody can go on, nor can anybody else use the cache. *)
Theorem cache_KickCleaner_deadlocks : exists schedule,
  let c := par_exec schedule (start true, goroutines [KickCleaner true 1; cleaner 0 2; Stats_locks]) in
  rtc par_step (start true, goroutines [KickCleaner true 1; cleaner 0 2; Stats_locks]) c /\
  lk_mu (fst c) = true /\ lk_kickerMu (fst c) = true /\ lk_kick (fst c) = Offered /\
  (forall c', ~ par_step c c') /\ Forall (fun p => match p with Done _ => False | Step _ _ => True end) (snd c).
Proof.
  exists [1; 1; 0; 0; 0; 0; 1; 2]%nat. intros c. split; [apply par_exec_steps|]. do 3 (split; [by vm_compute|]). split.
  - intros c' Hst. apply par_step_of in Hst as (i & Hi & Hc).
    assert (Hlen : length (snd c) = 3%nat) by by vm_compute. rewrite Hlen in Hi.
    assert (Hn : step_of c i = None); [|congruence]. destruct i as [|[|[|i]]]; [by vm_compute..|lia].
  - vm_compute. by repeat constructor.
Qed.
