(* ===== verification/Proxy.v ===== *)
(** * The HTTP handler (src/proxy/handler.go)

    [ServeHTTP] maps a request to an object of the source, opens it through the
    cache and leaves the rest to [http.ServeContent], which reads and seeks in
    the opened object.  Of [http.ServeContent] the calls on the content are
    modelled; what it makes of the headers (preconditions, ranges, types) is a
    parameter ([ContentServer]).

    The handler is proved against the interface of the cache ([CacheAPIOK]);
    [ProxyCache] discharges it. *)
From stdpp Require Import base numbers list gmap strings.
From Stdlib Require Import ZArith Lia Init.Byte Ascii.
From S2P Require Import Prelude.
From S2P Require Import GoText.
From S2P Require Import GoIO.
From S2P Require Import SourceObject.
From S2P Require Import HttpSource.

Local Open Scope Z_scope.
Local Open Scope go_scope.
Local Open Scope list_scope.

(** What the handler uses of a request. *)
Record HttpRequest := mkHttpRequest { hr_Method : string; hr_Path : string; hr_Host : string; hr_Header : Header }.

(** ** Keys *)

(** [path.Clean] of a path that starts with a slash: its components, without
    empty ones and dots, each double dot taking the component before it away. *)
Fixpoint clean_components (parts stack : list string) : list string :=
  match parts with
  | [] => rev stack
  | p :: parts =>
      if bool_decide (p = ""%string) || bool_decide (p = "."%string) then clean_components parts stack
      else if bool_decide (p = ".."%string) then clean_components parts (tail stack)
      else clean_components parts (p :: stack)
  end.
Definition path_Clean (rooted : string) : string := "/" +:+ strings_Join (clean_components (strings_Split rooted "/") []) "/".

(** [path.Base] *)
Definition path_Base (p : string) : string :=
  match rev (filter (fun part => part <> ""%string) (strings_Split p "/")) with
  | last :: _ => last
  | [] => if bool_decide (p = ""%string) then "."%string else "/"%string
  end.

Definition KeyFunc : Type := HttpRequest -> error + string.

Definition PathKey : KeyFunc := fun r =>
  let key := strings_TrimPrefix (path_Clean ("/" +:+ hr_Path r)) "/" in
  if bool_decide (key = "."%string) || bool_decide (key = ""%string) then inl (Errorf "empty object path") else inr key.

(** ** Interfaces *)

(** [source.Source]. *)
Class ObjectSource (W O : Type) := os_Open : context -> string -> W -> (error + O) * W.

(** [cache.Cache] and [cache.Reader]; [None]: waits for somebody else. *)
Class CacheAPI (C O Rd : Type) := {
  api_Open : string -> O -> C -> option ((Rd + error) * C);
  api_ReadAt : nat -> Z -> Rd -> C -> option (list byte * option error * C);
  api_Metadata : Rd -> Metadata;
  api_Size : Rd -> Z;
  api_Close : Rd -> C -> option (option error * C)
}.

(** What the handler relies on: an object that can be opened gives a reader of its
    metadata ([Metadata] of [source.Object]) and of its bytes, as many of them as
    asked for or an error. *)
Class CacheAPIOK (C O Rd : Type) `{CacheAPI C O Rd} := {
  api_object_Metadata : O -> Metadata;
  api_openable : string -> O -> list byte -> C -> Prop;
  api_good : Rd -> list byte -> C -> Prop;
  api_Open_ok : forall key o content c, api_openable key o content c ->
    exists r c', api_Open key o c = Some (inl r, c') /\ api_Metadata r = api_object_Metadata o /\ api_good r content c';
  api_Size_ok : forall r content c, api_good r content c -> api_Size r = Z.of_nat (length content);
  api_ReadAt_ok : forall n off r content c, api_good r content c -> 0 <= off < Z.of_nat (length content) -> off + Z.of_nat n <= MaxInt64 ->
    exists d err c', api_ReadAt n off r c = Some (d, err, c') /\ api_good r content c' /\
      d = slice off (off + Z.of_nat (length d)) content /\ (err = None -> length d = n) /\ (length d <= n)%nat
}.

(** What [http.ServeContent] makes of the headers: the status that a precondition
    ends the request with; a type by the name, or from the first bytes; the ranges
    to send, none for all of it, or that none can be satisfied. *)
Class ContentServer := {
  cs_precondition : HttpRequest -> Header -> Z -> option Z;
  cs_TypeByExtension : string -> string;
  cs_DetectContentType : list byte -> string;
  cs_ranges : HttpRequest -> Header -> Z -> Z -> option (list (Z * Z))
}.
Class ContentServerOK `{ContentServer} := {
  cs_ranges_ok : forall r h modtime size parts, cs_ranges r h modtime size = Some parts ->
    Forall (fun '(start, len) => 0 <= start /\ 0 < len /\ start + len <= size) parts
}.

(** ** Responses *)
Record response := mkResp { rw_Status : Z; rw_Header : Header; rw_Parts : list (list byte); rw_Text : string }.

Definition http_Error (h : Header) (text : string) (code : Z) : response :=
  mkResp code (Header_Set "Content-Type" "text/plain; charset=utf-8" h) [] text.

Definition serveError (h : Header) (err : error) : response :=
  if errors_Is err ErrNotFound then http_Error h "not found" 404
  else if errors_Is err ErrRangeNotSatisfiable then http_Error h "range not satisfiable" 416
  else if errors_Is err ErrObjectChanged then http_Error h "upstream object changed" 412
  else if errors_Is err ErrRangeUnsupported then http_Error h "upstream does not support ranges" 502
  else http_Error h "upstream cache error" 502.

(** ** readSeeker *)
Record readSeeker (Rd : Type) := mkSeeker { sk_reader : Rd; sk_size : Z; sk_off : Z }.
Arguments mkSeeker {Rd}. Arguments sk_reader {Rd}. Arguments sk_size {Rd}. Arguments sk_off {Rd}.

Section handler.
Context {W C O Rd : Type} `{ObjectSource W O} `{CacheAPI C O Rd} `{ContentServer}.

Definition readSeeker_Read (n : nat) (r : readSeeker Rd) (c : C) : option (list byte * option error * readSeeker Rd * C) :=
  if sk_size r <=? sk_off r then Some ([], Some io_EOF, r, c)
  else
    '(d, err, c) ← api_ReadAt n (sk_off r) (sk_reader r) c;
    Some (d, err, mkSeeker (sk_reader r) (sk_size r) (sk_off r +! Z.of_nat (length d)), c).

Definition readSeeker_Seek (offset whence : Z) (r : readSeeker Rd) : Z * option error * readSeeker Rd :=
  let seek next :=
    if next <? 0 then (0, Some (Errorf "cache proxy: negative seek offset"), r)
    else (next, None, mkSeeker (sk_reader r) (sk_size r) next) in
  if whence =? io_SeekStart then seek offset
  else if whence =? io_SeekCurrent then seek (sk_off r +! offset)
  else if whence =? io_SeekEnd then seek (sk_size r +! offset)
  else (0, Some (Errorf "cache proxy: invalid seek whence"), r).

(** ** http.ServeContent *)

(** [io.ReadFull] and [io.CopyN]: reads of at most [chunk] bytes until there are
    [n] or one fails; whether there are [n]. *)
Fixpoint read_upto (chunk fuel n : nat) (r : readSeeker Rd) (c : C) : option (list byte * bool * readSeeker Rd * C) :=
  match fuel with
  | 0%nat => None
  | S fuel =>
      if (n =? 0)%nat then Some ([], true, r, c)
      else
        '(d, err, r, c) ← readSeeker_Read (min chunk n) r c;
        match err with
        | Some _ => Some (d, (n <=? length d)%nat, r, c)
        | None =>
            '(d', full, r, c) ← read_upto chunk fuel (n - length d) r c;
            Some (d ++ d', full, r, c)
        end
  end.
Definition sniffLen : nat := 512.
Definition io_ReadFull_content (n : nat) := read_upto n (S n) n.
Definition io_CopyN (n : nat) := read_upto (32 * 1024) (S n) n.

(** Part by part; a part that ends early is the last. *)
Fixpoint send_parts (parts : list (Z * Z)) (r : readSeeker Rd) (c : C) : option (list (list byte) * C) :=
  match parts with
  | [] => Some ([], c)
  | (start, len) :: parts =>
      match readSeeker_Seek start io_SeekStart r with
      | (_, Some _, _) => Some ([], c)
      | (_, None, r) =>
          '(d, full, r, c) ← io_CopyN (Z.to_nat len) r c;
          if (full : bool) then '(ds, c) ← send_parts parts r c; Some (d :: ds, c) else Some ([d], c)
      end
  end.

(** The type, once something is to be sent; [inl]: the content cannot seek. *)
Definition content_type (name : string) (h : Header) (r : readSeeker Rd) (c : C) : option ((unit + Header * readSeeker Rd) * C) :=
  if bool_decide (is_Some (h !! canonical "Content-Type")) then Some (inr (h, r), c)
  else
    let ctype := cs_TypeByExtension name in
    if bool_decide (ctype = ""%string) then
      '(d, _, r, c) ← io_ReadFull_content sniffLen r c;
      match readSeeker_Seek 0 io_SeekStart r with
      | (_, Some _, _) => Some (inl tt, c)
      | (_, None, r) => Some (inr (Header_Set "Content-Type" (cs_DetectContentType d) h, r), c)
      end
    else Some (inr (Header_Set "Content-Type" ctype h, r), c).

Definition http_ServeContent (rq : HttpRequest) (h : Header) (name : string) (modtime : Z) (r : readSeeker Rd) (c : C) : option (response * C) :=
  match cs_precondition rq h modtime with
  | Some code => Some (mkResp code h [] "", c)
  | None =>
      '(ty, c) ← content_type name h r c;
      match ty with
      | inl _ => Some (http_Error h "seeker can't seek" 500, c)
      | inr (h, r) =>
          match readSeeker_Seek 0 io_SeekEnd r with
          | (_, Some _, _) => Some (http_Error h "seeker can't seek" 500, c)
          | (size, None, r) =>
              match readSeeker_Seek 0 io_SeekStart r with
              | (_, Some _, _) => Some (http_Error h "seeker can't seek" 500, c)
              | (_, None, r) =>
                  match cs_ranges rq h modtime size with
                  | None => Some (http_Error h "invalid range: failed to overlap" 416, c)
                  | Some parts =>
                      let '(code, parts) := match parts with [] => (200, [(0, size)]) | _ => (206, parts) end in
                      if bool_decide (hr_Method rq = "HEAD"%string) then Some (mkResp code h [] "", c)
                      else '(ds, c) ← send_parts parts r c; Some (mkResp code h ds "", c)
                  end
              end
          end
      end
  end.

(** ** The handler *)

(** [h_Cache] and [h_Source]: whether they are set. *)
Record Handler := mkHandler { h_Cache : bool; h_Source : bool; h_Key : option KeyFunc; h_CacheKey : option KeyFunc }.

(** [r.Header.Clone()], with the host. *)
Definition request_headers (r : HttpRequest) : Header :=
  if bool_decide (hr_Host r = ""%string) then hr_Header r else Header_Set "Host" (hr_Host r) (hr_Header r).

(** The source key and the cache key, or the error response. *)
Definition keys (h : Handler) (r : HttpRequest) : response + (string * string) :=
  match default PathKey (h_Key h) r with
  | inl _ => inl (http_Error ∅ "invalid object key" 400)
  | inr sourceKey =>
      match h_CacheKey h with
      | None => inr (sourceKey, sourceKey)
      | Some f =>
          match f r with
          | inl _ => inl (http_Error ∅ "invalid cache key" 400)
          | inr cacheKey => inr (sourceKey, cacheKey)
          end
      end
  end.

Definition content_headers (meta : Metadata) : Header :=
  let h : Header := if bool_decide (ContentType meta = ""%string) then ∅ else Header_Set "Content-Type" (ContentType meta) ∅ in
  if bool_decide (ETag meta = ""%string) then h else Header_Set "ETag" (ETag meta) h.

(** The response, and the cache and the world after it; the cache once the reader
    has been closed, [None] when that waits for somebody else. *)
Definition ServeHTTP (h : Handler) (ctx : context) (r : HttpRequest) (w : W) (c : C) : option (response * W * option C) :=
  if negb (h_Cache h) then Some (http_Error ∅ "cache proxy is not configured" 500, w, Some c)
  else if negb (h_Source h) then Some (http_Error ∅ "cache source is not configured" 500, w, Some c)
  else if negb (bool_decide (hr_Method r = "GET"%string)) && negb (bool_decide (hr_Method r = "HEAD"%string)) then
    Some (http_Error (Header_Set "Allow" "GET, HEAD" ∅) "method not allowed" 405, w, Some c)
  else
    match keys h r with
    | inl resp => Some (resp, w, Some c)
    | inr (sourceKey, cacheKey) =>
        match os_Open (WithRequestHeaders ctx (request_headers r)) sourceKey w with
        | (inl err, w) => Some (serveError ∅ err, w, Some c)
        | (inr object, w) =>
            '(opened, c) ← api_Open cacheKey object c;
            match opened with
            | inr err => Some (serveError ∅ err, w, Some c)
            | inl reader =>
                let meta := api_Metadata reader in
                '(resp, c) ← http_ServeContent r (content_headers meta) (path_Base sourceKey) (LastModified meta) (mkSeeker reader (api_Size reader) 0) c;
                Some (resp, w, snd <$> api_Close reader c)
            end
        end
    end.
End handler.

(** ** Keys are clean paths *)

(** A component that names something below the directory it is in. *)
Definition clean_component (p : string) : Prop := p <> ""%string /\ p <> "."%string /\ p <> ".."%string /\ lacks "/" p = true.

Lemma clean_components_clean parts stack : Forall (fun p => lacks "/" p = true) parts -> Forall clean_component stack ->
  Forall clean_component (clean_components parts stack).
Proof.
  intros Hp. revert stack. induction Hp as [|p parts Hp _ IH]; intros stack Hs; cbn [clean_components]; [by apply Forall_rev|].
  destruct (bool_decide_reflect (p = ""%string)); [by apply IH|]. destruct (bool_decide_reflect (p = "."%string)); [by apply IH|].
  destruct (bool_decide_reflect (p = ".."%string)); apply IH.
  - destruct stack; [done|]. by apply Forall_cons in Hs as [_ ?].
  - by constructor.
Qed.

Lemma clean_components_id parts stack : Forall clean_component parts -> clean_components parts stack = rev stack ++ parts.
Proof.
  intros Hp. revert stack. induction Hp as [|p parts (H1 & H2 & H3 & _) _ IH]; intros stack; cbn [clean_components]; [by rewrite app_nil_r|].
  rewrite !bool_decide_eq_false_2 by done. cbn [orb]. rewrite IH. cbn. by rewrite <- app_assoc.
Qed.

Lemma PathKey_eq r : let parts := clean_components (strings_Split ("/" +:+ hr_Path r) "/") [] in
  Forall clean_component parts /\ PathKey r = if bool_decide (parts = []) then inl (Errorf "empty object path") else inr (strings_Join parts "/").
Proof.
  cbn zeta. assert (Hclean : Forall clean_component (clean_components (strings_Split ("/" +:+ hr_Path r) "/") [])).
  { apply clean_components_clean; [apply Split_pieces|done]. }
  split; [done|]. unfold PathKey, path_Clean. set (parts := clean_components _ _) in *.
  destruct (TrimPrefix_app "/" (strings_Join parts "/")) as [_ ->]. clearbody parts. destruct parts as [|p parts]; [done|].
  rewrite (bool_decide_eq_false_2 (p :: parts = [])) by done. apply Forall_cons in Hclean as [(Hne & Hdot & _ & _) Hclean].
  assert (Hj : strings_Join (p :: parts) "/" <> "."%string /\ strings_Join (p :: parts) "/" <> ""%string); [|destruct Hj; by rewrite !bool_decide_eq_false_2].
  destruct parts as [|q parts]; [done|]. destruct p as [|a p]; [done|].
  change (strings_Join (String a p :: q :: parts) "/") with (String a (p +:+ String "/" (strings_Join (q :: parts) "/"))).
  split; [|done]. intros [= _ He]. by destruct p.
Qed.

(** ** Reading through the handler *)

(** What has been sent of the parts asked for: each is all the bytes of [content]
    that it names; one that a failing read cuts short, where it fails, is the
    last. *)
Fixpoint sent (content : list byte) (fails : Z -> Prop) (parts : list (Z * Z)) (ds : list (list byte)) : Prop :=
  match parts, ds with
  | [], [] => True
  | (start, len) :: parts, d :: ds =>
      d = slice start (start + len) content /\ sent content fails parts ds \/
      d = slice start (start + Z.of_nat (length d)) content /\ Z.of_nat (length d) < len /\ ds = [] /\ fails (start + Z.of_nat (length d))
  | _, _ => False
  end.

(** The headers with the type that [http.ServeContent] gives to what has none: by
    the name, or else by the first bytes. *)
Definition typed_headers `{ContentServer} (name : string) (h : Header) (first : list byte) : Header :=
  if bool_decide (is_Some (h !! canonical "Content-Type")) then h
  else Header_Set "Content-Type" (if bool_decide (cs_TypeByExtension name = ""%string) then cs_DetectContentType first else cs_TypeByExtension name) h.

(** The answer to a request for [content], with the headers [h]: the status of a
    failed precondition, 416 for ranges outside the content, else the content or
    its ranges; nothing but headers for [HEAD].  [first] and [fails] are what the
    type may be made from and where reading may fail. *)
Definition served `{ContentServer} (content : list byte) (rq : HttpRequest) (h : Header) (name : string) (modtime : Z)
    (is_first : list byte -> Prop) (fails : Z -> Prop) (resp : response) : Prop :=
  match cs_precondition rq h modtime with
  | Some code => resp = mkResp code h [] ""
  | None =>
      exists first, is_first first /\
        let h := typed_headers name h first in let size := Z.of_nat (length content) in
        match cs_ranges rq h modtime size with
        | None => rw_Status resp = 416 /\ rw_Parts resp = []
        | Some parts =>
            rw_Status resp = (if bool_decide (parts = []) then 200 else 206) /\ rw_Header resp = h /\ rw_Text resp = ""%string /\
            if bool_decide (hr_Method rq = "HEAD"%string) then rw_Parts resp = []
            else sent content fails (if bool_decide (parts = []) then [(0, size)] else parts) (rw_Parts resp)
        end
  end.

Section reading.
Context {W C O Rd : Type} `{CacheAPIOK C O Rd} `{ContentServerOK} (content : list byte) (fits : Z.of_nat (length content) + 512 <= MaxInt64).
Implicit Types r : readSeeker Rd.

(** A read of the cache ends with an error at [pos], before the end of the object. *)
Definition read_fails (rd : Rd) (pos : Z) : Prop :=
  exists n off c d err c', api_good rd content c /\ 0 <= off /\ off + Z.of_nat n <= MaxInt64 /\ api_ReadAt n off rd c = Some (d, Some err, c') /\
    (0 < n)%nat /\ pos = off + Z.of_nat (length d) /\ pos < Z.of_nat (length content).

(** A seeker over an opened reader. *)
Definition seeker_ok r (c : C) : Prop :=
  api_good (sk_reader r) content c /\ sk_size r = Z.of_nat (length content) /\ 0 <= sk_off r.

Lemma Seek_start r c off : seeker_ok r c -> 0 <= off ->
  readSeeker_Seek off io_SeekStart r = (off, None, mkSeeker (sk_reader r) (sk_size r) off) /\
  seeker_ok (mkSeeker (sk_reader r) (sk_size r) off) c.
Proof.
  intros (Hg & Hs & Ho) Hoff. unfold readSeeker_Seek. destruct (Z.ltb_spec off 0); [lia|]. done.
Qed.

Lemma Seek_end r c : seeker_ok r c ->
  readSeeker_Seek 0 io_SeekEnd r = (sk_size r, None, mkSeeker (sk_reader r) (sk_size r) (sk_size r)) /\
  seeker_ok (mkSeeker (sk_reader r) (sk_size r) (sk_size r)) c.
Proof.
  intros (Hg & Hs & Ho). unfold readSeeker_Seek. change (io_SeekEnd =? io_SeekStart) with false. change (io_SeekEnd =? io_SeekCurrent) with false.
  change (io_SeekEnd =? io_SeekEnd) with true. cbv iota zeta. rewrite Z.add_0_r. i64_norm. destruct (Z.ltb_spec (sk_size r) 0); [lia|].
  split; [done|]. split_and!; [done|done|cbn; lia].
Qed.

(** What a read that is not full stops at. *)
Definition stops r (pos : Z) : Prop := Z.of_nat (length content) <= pos \/ read_fails (sk_reader r) pos.

Lemma seeker_Read_ok n r c : seeker_ok r c -> (0 < n)%nat -> sk_off r + Z.of_nat n <= MaxInt64 ->
  exists d err r' c', readSeeker_Read n r c = Some (d, err, r', c') /\ seeker_ok r' c' /\ sk_reader r' = sk_reader r /\
    sk_off r' = sk_off r + Z.of_nat (length d) /\ d = slice (sk_off r) (sk_off r + Z.of_nat (length d)) content /\
    (length d <= n)%nat /\ if err then stops r (sk_off r + Z.of_nat (length d)) else length d = n.
Proof.
  intros (Hg & Hs & Ho) Hpos Hn. unfold readSeeker_Read. destruct (Z.leb_spec (sk_size r) (sk_off r)).
  - exists [], (Some io_EOF), r, c. cbn. rewrite Z.add_0_r, slice_nil by lia. split_and!; try done; [lia|left; lia].
  - destruct (api_ReadAt_ok n (sk_off r) (sk_reader r) content c Hg ltac:(lia) Hn) as (d & err & c' & Hread & Hg' & Hd & Hfull & Hlen). rewrite Hread. cbn.
    rewrite i64_id by i64_side. eexists _, _, _, _. split; [done|]. unfold seeker_ok. cbn. split_and!; try done; [lia|].
    destruct err as [e|]; [|by apply Hfull]. destruct (decide (Z.of_nat (length content) <= sk_off r + Z.of_nat (length d))); [by left|right].
    exists n, (sk_off r), c, d, e, c'. split_and!; try done; lia.
Qed.

Lemma read_upto_ok chunk fuel : (0 < chunk)%nat -> forall n r c, (n < fuel)%nat -> seeker_ok r c -> sk_off r + Z.of_nat n <= MaxInt64 ->
  exists d full r' c', read_upto chunk fuel n r c = Some (d, full, r', c') /\ seeker_ok r' c' /\ sk_reader r' = sk_reader r /\
    d = slice (sk_off r) (sk_off r + Z.of_nat (length d)) content /\ (length d <= n)%nat /\
    if (full : bool) then length d = n else (length d < n)%nat /\ stops r (sk_off r + Z.of_nat (length d)).
Proof.
  intros Hchunk. induction fuel as [|fuel IH]; intros n r c Hn Hr Hoff; [lia|]. cbn [read_upto].
  destruct (Nat.eqb_spec n 0) as [->|Hn0].
  { exists [], true, r, c. cbn. rewrite Z.add_0_r, slice_nil by lia. by split_and!. }
  destruct (seeker_Read_ok (min chunk n) r c Hr ltac:(lia) ltac:(lia)) as (d & err & r1 & c1 & Hread & Hr1 & Hrd & Ho1 & Hd & Hlen & Hend).
  rewrite Hread. cbn. destruct err as [err|].
  - eexists d, _, r1, c1. split; [done|]. split_and!; try done; [lia|]. destruct (Nat.leb_spec n (length d)); [lia|done].
  - destruct (IH (n - length d)%nat r1 c1) as (d' & full & r2 & c2 & Hrest & Hr2 & Hrd2 & Hd' & Hl2 & Hend'); [lia|done|lia|].
    rewrite Hrest. cbn. exists (d ++ d'), full, r2, c2. split; [done|]. rewrite length_app. split_and!; try done; [congruence| |lia|].
    + rewrite Hd at 1. rewrite Hd' at 1. rewrite Ho1. destruct Hr as (_ & _ & Hoff0).
      rewrite slice_app by lia. f_equal. lia.
    + unfold stops in *. rewrite Ho1, Hrd in Hend'. rewrite Nat2Z.inj_add, Z.add_assoc. destruct full; [lia|]. split; [lia|]. apply Hend'.
Qed.

Lemma send_parts_ok parts : Forall (fun '(start, len) => 0 <= start /\ 0 <= len /\ start + len <= Z.of_nat (length content)) parts ->
  forall r c, seeker_ok r c -> exists ds c', send_parts parts r c = Some (ds, c') /\ sent content (read_fails (sk_reader r)) parts ds.
Proof.
  induction 1 as [|[start len] parts (Hs & Hl & He) Hps IH]; intros r c Hr; cbn [send_parts]; [by exists [], c|].
  destruct (Seek_start r c start Hr Hs) as [-> Hr1]. unfold io_CopyN.
  destruct (read_upto_ok (32 * 1024) (S (Z.to_nat len)) ltac:(lia) (Z.to_nat len) _ c ltac:(lia) Hr1 ltac:(cbn [sk_off]; lia))
    as (d & full & r2 & c2 & Hread & Hr2 & Hrd & Hd & Hlen & Hend). rewrite Hread. unfold stops in Hend. cbn [sk_off sk_reader] in *. cbn. destruct full.
  - destruct (IH r2 c2 Hr2) as (ds & c3 & Hsend & Hsent). rewrite Hsend. cbn. exists (d :: ds), c3. split; [done|]. left.
    rewrite <- Hrd. split; [|done]. rewrite Hend, Z2Nat.id in Hd by lia. exact Hd.
  - exists [d], c2. split; [done|]. right. destruct Hend as [Hshort Hstop]. split; [done|]. split; [lia|]. split; [done|].
    destruct Hstop; [lia|done].
Qed.

(** What the type is made from: the first bytes, up to where reading them fails. *)
Definition first_bytes (rd : Rd) (first : list byte) : Prop :=
  first = take sniffLen content \/ first = take (length first) content /\ read_fails rd (Z.of_nat (length first)).

Lemma content_type_ok name h r c : seeker_ok r c -> sk_off r = 0 ->
  exists first r' c', content_type name h r c = Some (inr (typed_headers name h first, r'), c') /\ seeker_ok r' c' /\ sk_reader r' = sk_reader r /\
    first_bytes (sk_reader r) first.
Proof.
  intros Hr Ho. unfold content_type, typed_headers, first_bytes. case_bool_decide; [exists (take sniffLen content), r, c; auto|].
  case_bool_decide; [|exists (take sniffLen content), r, c; auto]. unfold io_ReadFull_content.
  destruct (read_upto_ok sniffLen (S sniffLen) ltac:(unfold sniffLen; lia) sniffLen r c ltac:(lia) Hr ltac:(rewrite Ho; unfold sniffLen, MaxInt64; lia))
    as (d & full & r2 & c2 & Hread & Hr2 & Hrd & Hd & Hlen & Hend). rewrite Hread. cbn [mbind option_bind]. destruct (Seek_start r2 c2 0 Hr2 ltac:(lia)) as [-> Hr3].
  exists d. eexists _, _. split; [done|]. split; [done|]. split; [done|]. rewrite Ho in *. unfold slice in Hd. rewrite Z.add_0_l, Z.sub_0_r, Nat2Z.id in Hd.
  change (drop (Z.to_nat 0) content) with content in Hd. destruct full; [left; by rewrite Hd, Hend|].
  destruct Hend as [Hshort [Hall|Hfail]]; [left|by right]. rewrite Z.add_0_l in Hall. rewrite Hd, !take_ge by lia. done.
Qed.

Lemma http_ServeContent_ok rq h name modtime r c : seeker_ok r c -> sk_off r = 0 ->
  exists resp c', http_ServeContent rq h name modtime r c = Some (resp, c') /\
    served content rq h name modtime (first_bytes (sk_reader r)) (read_fails (sk_reader r)) resp.
Proof.
  intros Hr Ho. unfold http_ServeContent, served. destruct (cs_precondition rq h modtime) as [code|]; [by eexists _, _|].
  destruct (content_type_ok name h r c Hr Ho) as (first & r1 & c1 & Hct & Hr1 & Hrd & Hfirst). rewrite Hct. cbn [mbind option_bind].
  set (h' := typed_headers name h first). destruct (Seek_end r1 c1 Hr1) as [-> Hr2]. destruct (Seek_start _ c1 0 Hr2 ltac:(lia)) as [-> Hr3]. cbn [sk_reader sk_size] in *.
  destruct Hr1 as (_ & Hsz & _). rewrite Hsz in *. rewrite <- Hrd.
  destruct (cs_ranges rq h' modtime (Z.of_nat (length content))) as [parts|] eqn:Hparts.
  2:{ eexists _, c1. split; [done|]. exists first. rewrite <- Hrd in Hfirst. split; [done|]. cbn zeta. fold h'. by rewrite Hparts. }
  apply cs_ranges_ok in Hparts as Hok.
  assert (Hsend : exists code ps, match parts with [] => (200, [(0, Z.of_nat (length content))]) | _ => (206, parts) end = (code, ps) /\
    code = (if bool_decide (parts = []) then 200 else 206) /\ ps = (if bool_decide (parts = []) then [(0, Z.of_nat (length content))] else parts) /\
    Forall (fun '(start, len) => 0 <= start /\ 0 <= len /\ start + len <= Z.of_nat (length content)) ps).
  { destruct parts as [|p parts]; eexists _, _; (split; [done|]); (split; [done|]); (split; [done|]).
    - apply Forall_singleton. lia.
    - eapply Forall_impl; [exact Hok|]. intros [start len]. lia. }
  destruct Hsend as (code & ps & -> & -> & -> & Hall). rewrite <- Hrd in Hfirst. destruct (bool_decide (hr_Method rq = "HEAD"%string)).
  - eexists _, c1. split; [done|]. exists first. split; [done|]. cbn zeta. fold h'. by rewrite Hparts.
  - destruct (send_parts_ok _ Hall _ c1 Hr3) as (ds & c2 & -> & Hsent). cbn [mbind option_bind].
    eexists _, c2. split; [done|]. exists first. split; [done|]. cbn zeta. fold h'. by rewrite Hparts.
Qed.
End reading.

(** ** Theorems *)

(** C27. PathKey_is_clean: the key of a path is the path that it names below the
    root, without empty components, dots or double dots, however it is written;
    the key names the same path again; and there is no key exactly for the root. *)
Theorem PathKey_is_clean (r : HttpRequest) :
  match PathKey r with
  | inr key =>
      let parts := strings_Split key "/" in
      parts <> [] /\ Forall clean_component parts /\ key = strings_Join parts "/" /\
      parts = clean_components (strings_Split (hr_Path r) "/") [] /\
      forall host h, PathKey (mkHttpRequest (hr_Method r) key host h) = inr key
  | inl _ => clean_components (strings_Split (hr_Path r) "/") [] = []
  end.
Proof.
  assert (Hroot : forall p, clean_components (strings_Split ("/" +:+ p) "/") [] = clean_components (strings_Split p "/") []) by done.
  destruct (PathKey_eq r) as [Hclean ->]. rewrite Hroot in *. set (parts := clean_components _ _) in *. clearbody parts.
  case_bool_decide as Hne; [done|]. assert (Hsplit : strings_Split (strings_Join parts "/") "/" = parts).
  { apply Split_Join; [|done]. eapply Forall_impl; [exact Hclean|]. by intros p (_ & _ & _ & ?). }
  cbn zeta. rewrite Hsplit. split_and!; try done. intros host h.
  destruct (PathKey_eq (mkHttpRequest (hr_Method r) (strings_Join parts "/") host h)) as [_ ->]. rewrite Hroot. cbn [hr_Path].
  rewrite Hsplit, clean_components_id by done. by rewrite bool_decide_eq_false_2.
Qed.

