(* ===== verification/ProxyCache.v ===== *)
(** * The handler over the cache

    The cache of [CacheOpen] behind the interface the handler of [Proxy] is
    proved against. *)
From stdpp Require Import base numbers list gmap strings.
From Stdlib Require Import ZArith Lia Init.Byte.
From S2P Require Import Prelude.
From S2P Require Import GoText.
From S2P Require Import Ranges.
From S2P Require Import SourceObject.
From S2P Require Import Interleave.
From S2P Require Import Options.
From S2P Require Import Item.
From S2P Require Import Cache.
From S2P Require Import CacheOpen.
From S2P Require Import HttpSource.
From S2P Require Import Proxy.

Local Open Scope Z_scope.
Local Open Scope list_scope.

Section cache.
Context {O : Type} `{GoOrder} `{!Scheduler O} (sha256_hex : string -> string) (opt : Options) (meta_of : O -> Metadata).

(** A call on the item a reader of [key] holds. *)
Definition on_item {A} (key : string) (m : locked (item O) A) (c : cache O) : option (A * cache O) :=
  it ← pointed key c; '(a, it) ← run_locked m it; Some (a, update_pointed key it c).

Definition cache_api : CacheAPI (cache O) O (string * Reader) := {|
  api_Open := fun key object c =>
    '(res, c) ← Cache_Open sha256_hex opt key object (meta_of object) c;
    Some (match res with inl r => inl (key, r) | inr err => inr err end, c);
  api_ReadAt := fun n off r c => on_item (fst r) (Reader_ReadAt opt n off (snd r)) c;
  api_Metadata := fun r => Reader_Metadata (snd r);
  api_Size := fun r => Reader_Size (snd r);
  api_Close := fun r c => on_item (fst r) (Reader_Close opt (snd r)) c
|}.

(** An object of [content] that [Cache_Open_ready] applies to. *)
Definition cache_openable (content_of : O -> list byte) (key : string) (object : O) (content : list byte) (c : cache O) : Prop :=
  Z.of_nat (length content) <= MaxInt64 /\ content_of object = content /\ MetaSize (meta_of object) = Z.of_nat (length content) /\
  0 < OptLowLevelRetries opt /\ key <> ""%string /\ c_closed c = false /\
  forall it, pointed key (find_item key c) = Some it -> openable sha256_hex key content (meta_of object) it.

Definition cache_good (content_of : O -> list byte) (r : string * Reader) (content : list byte) (c : cache O) : Prop :=
  Z.of_nat (length content) <= MaxInt64 /\ 0 < OptLowLevelRetries opt /\ MetaSize (rd_meta (snd r)) = Z.of_nat (length content) /\
  exists it, pointed (fst r) c = Some it /\ ready content_of content it.

Lemma on_item_read content_of `{!SchedulerOK content_of} `{!SchedulerDelivers (O:=O)} n off r content c :
  cache_good content_of r content c -> 0 <= off < Z.of_nat (length content) -> off + Z.of_nat n <= MaxInt64 ->
  exists d err c', api_ReadAt (CacheAPI := cache_api) n off r c = Some (d, err, c') /\ cache_good content_of r content c' /\
    read_result content_of content n off (d, err).
Proof.
  intros (Hmax & Hretry & Hsz & it & Hp & Hr) Hoff Hn.
  destruct (readAt_run content_of opt content Hmax it n off Hr Hretry Hoff Hn) as ([d err] & it' & Hrun & Hr' & Hres).
  exists d, err, (update_pointed (fst r) it' c). split.
  { cbn. unfold on_item, Reader_ReadAt. rewrite Hp. cbn [mbind option_bind]. by rewrite Hrun. }
  split; [|done]. split_and!; try done. exists it'. split; [|done]. apply pointed_update. by eexists.
Qed.

Definition cache_api_OK (content_of : O -> list byte) `{!SchedulerOK content_of} `{!SchedulerDelivers (O:=O)} : @CacheAPIOK _ _ _ cache_api.
Proof.
  refine {| api_object_Metadata := meta_of; api_openable := cache_openable content_of; api_good := cache_good content_of |}.
  - intros key object content c (Hmax & Ho & Hsz & Hretry & Hkey & Hcl & Hob).
    destruct (Cache_Open_ready content_of sha256_hex opt key content object (meta_of object) c Hmax Ho Hsz Hretry Hkey Hcl Hob) as (c' & it & Hopen & Hp & Hr).
    exists (key, mkReader (meta_of object) 0), c'. split; [cbn; by rewrite Hopen|]. split; [done|]. split_and!; try done. by exists it.
  - intros r content c (_ & _ & Hsz & _). exact Hsz.
  - intros n off r content c Hg Hoff Hn. destruct (on_item_read content_of n off r content c Hg Hoff Hn) as (d & err & c' & Hread & Hg' & Hres).
    exists d, err, c'. split; [exact Hread|]. split; [done|]. destruct Hres as [Hex|(_ & e & [= -> ->] & _)].
    + pose proof (length_exact_read content n off ltac:(lia)) as Hlen. pose proof (exact_read_full content n off ltac:(lia)) as Hfull.
      rewrite <- Hex in Hlen, Hfull. cbn [fst snd] in *. injection Hex as Hd _. split_and!; [|done|lia].
      unfold slice in *. replace (Z.to_nat (off + Z.of_nat n - off)) with n in Hd by lia. replace (Z.to_nat (off + Z.of_nat (length d) - off)) with (length d) by lia.
      rewrite <- (firstn_all d) at 1. rewrite Hd at 2. rewrite take_take. f_equal. lia.
    + cbn. rewrite Z.add_0_r, slice_nil by lia. split_and!; [done|done|lia].
Defined.

(** The reads of the cache that fail are those whose download fails: nothing else
    cuts an answer of the handler short. *)
Lemma cache_read_fails (content_of : O -> list byte) `{!SchedulerOK content_of} `{!SchedulerDelivers (O:=O)} content r pos :
  read_fails (H0 := cache_api_OK content_of) content r pos ->
  exists n e, download_failed content_of content (read_request content n pos) e.
Proof.
  intros (n & off & c & d & err & c' & Hg & Ho & Hn & Hread & Hpos & -> & Hlt).
  destruct (on_item_read content_of n off r content c Hg ltac:(lia) Hn) as (d1 & err1 & c1 & Hread1 & _ & Hres).
  rewrite Hread in Hread1. injection Hread1 as <- <- _. destruct Hres as [Hex|(_ & e & [= -> ->] & Hf)].
  - pose proof (length_exact_read content n off Ho) as Hlen. rewrite <- Hex in Hlen. cbn [fst] in Hlen. injection Hex as Hd He.
    rewrite <- Hd in He. destruct (Nat.ltb_spec (length d) n); [lia|done].
  - exists n, e. cbn. by rewrite Z.add_0_r.
Qed.
End cache.

(** ** A request

    The item that another process left behind, asked for two of its bytes. *)
#[local] Instance demo_source : ObjectSource unit (list byte) := fun _ _ w => (inr demo_old, w).
#[local] Instance demo_server : ContentServer := {|
  cs_precondition := fun _ _ _ => None;
  cs_TypeByExtension := fun _ => ""%string;
  cs_DetectContentType := fun _ => "application/octet-stream"%string;
  cs_ranges := fun rq _ _ size =>
    if bool_decide (Header_Get (hr_Header rq) "Range" = "bytes=1-2"%string) && (3 <=? size) then Some [(1, 2)] else Some []
|}.
#[local] Instance demo_server_OK : ContentServerOK.
Proof.
  constructor. intros r h modtime size parts. cbn. destruct (bool_decide _); cbn [andb]; [|by intros [= <-]].
  destruct (Z.leb_spec 3 size); [|by intros [= <-]]. intros [= <-]. apply Forall_singleton. lia.
Qed.
#[local] Instance demo_api : CacheAPI (cache (list byte)) (list byte) (string * Reader) := cache_api id DefaultOptions (fun _ => meta_old).

Definition demo_request : HttpRequest := mkHttpRequest "GET" "/x/..//key" "" {["Range"%string := ["bytes=1-2"%string]]}.

