(* ===== verification/Caddy.v ===== *)
(** * The Caddy module (src/caddy/module.go)

    The module reads its options from a Caddyfile or from JSON, makes a cache and a
    handler ([Proxy]) of them and serves requests until it is cleaned up.  The
    tokens of a Caddyfile, the durations written in it, the placeholders of a
    request and the URLs are Caddy's and the standard library's ([Dispenser],
    [CaddyEnv]); the cache is the one of [CacheMaker]. *)
From stdpp Require Import base numbers list gmap strings pretty.
From Stdlib Require Import ZArith Lia Ascii.
From S2P Require Import Prelude.
From S2P Require Import GoText.
From S2P Require Import GoIO.
From S2P Require Import SourceObject.
From S2P Require Import HttpSource.
From S2P Require Import Options.
From S2P Require Import Proxy.

Local Open Scope string_scope.
Local Open Scope Z_scope.
Local Open Scope go_scope.
Local Open Scope list_scope.

(** ** What the module is written against *)

(** [caddyfile.Dispenser]. *)
Class Dispenser (D : Type) := {
  d_Next : D -> bool * D;
  d_NextArg : D -> bool * D;
  d_NextBlock : Z -> D -> bool * D;
  d_Val : D -> string;
  d_Nesting : D -> Z;
  d_RemainingArgs : D -> list string * D;
  d_ArgErr : D -> error;
  d_Errf : D -> string -> error
}.

(** What is left: the current token, the arguments after it on its line, the lines
    left in the block of the directive, the directives after it, and whether the
    token is inside the block. *)
Record view := mkView {
  vw_val : string; vw_args : list string; vw_lines : list (list string); vw_rest : list (list string * list (list string)); vw_inside : bool
}.

(** The documentation of the dispenser, for directives whose options are lines.
    [d_base] is the nesting the directives are at. *)
Class DispenserOK (D : Type) `{Dispenser D} := {
  d_view : D -> view;
  d_base : D -> Z;
  d_Val_ok : forall d, d_Val d = vw_val (d_view d);
  d_Nesting_ok : forall d, vw_inside (d_view d) = false -> d_Nesting d = d_base d;
  d_NextArg_ok : forall d b d', d_NextArg d = (b, d') -> d_base d' = d_base d /\
    match vw_args (d_view d) with
    | [] => b = false /\ d_view d' = d_view d
    | a :: args => b = true /\ d_view d' = mkView a args (vw_lines (d_view d)) (vw_rest (d_view d)) (vw_inside (d_view d))
    end;
  d_RemainingArgs_ok : forall d args d', d_RemainingArgs d = (args, d') -> d_base d' = d_base d /\ args = vw_args (d_view d) /\
    exists val, d_view d' = mkView val [] (vw_lines (d_view d)) (vw_rest (d_view d)) (vw_inside (d_view d));
  d_NextBlock_ok : forall d b d', vw_args (d_view d) = [] -> d_NextBlock (d_base d) d = (b, d') -> d_base d' = d_base d /\
    match vw_lines (d_view d) with
    | [] => b = false /\ exists val, d_view d' = mkView val [] [] (vw_rest (d_view d)) false
    | (name :: args) :: lines => b = true /\ d_view d' = mkView name args lines (vw_rest (d_view d)) true
    | [] :: _ => True
    end;
  d_Next_ok : forall d b d', vw_args (d_view d) = [] -> vw_lines (d_view d) = [] -> vw_inside (d_view d) = false -> d_Next d = (b, d') ->
    d_base d' = d_base d /\
    match vw_rest (d_view d) with
    | [] => b = false
    | (name :: args, lines) :: rest => b = true /\ d_view d' = mkView name args lines rest false
    | ([], _) :: _ => True
    end
}.

(** [url.URL], as far as it is looked at. *)
Record URL := mkURL { u_Scheme : string; u_Host : string; u_Path : string; u_RawQuery : string; u_Fragment : string }.

(** [caddy.ParseDuration]; [Replacer.ReplaceOrErr(template, false, true)] with the
    replacer of the request, or one prepared for it; [url.Parse], [URL.String],
    [URL.JoinPath]. *)
Class CaddyEnv := {
  ParseDuration : string -> error + Z;
  ReplaceOrErr : string -> HttpRequest -> error + string;
  url_Parse : string -> error + URL;
  url_String : URL -> string;
  url_JoinPath : URL -> list string -> URL
}.

(** [cache.New] and [Cache.Close]. *)
Class CacheMaker (C W : Type) := {
  cache_New : string -> Options -> W -> (error + C) * W;
  cache_Close : C -> W -> option error * W
}.

(** ** The configuration *)
Record Handler (C : Type) := mkModule {
  cf_Upstream : string;
  cf_CacheDir : string;
  cf_Key : string;
  cf_Headers : option Header;
  cf_CachePollInterval : option Z;
  cf_CacheMaxAge : option Z;
  cf_CacheMaxSize : option Z;
  cf_CacheMinFreeSpace : option Z;
  cf_CacheShardDepth : option Z;
  cf_ChunkSize : option Z;
  cf_ChunkSizeLimit : option Z;
  cf_ChunkStreams : option Z;
  cf_ReadAhead : option Z;
  cf_BufferSize : option Z;
  cf_HandleCaching : option Z;
  cf_LowLevelRetries : option Z;
  cf_cache : option C;
  cf_handler : option (Proxy.Handler * HttpSource.Source);
}.
Arguments mkModule {C}.
Arguments cf_Upstream {C}. Arguments cf_CacheDir {C}. Arguments cf_Key {C}. Arguments cf_Headers {C}.
Arguments cf_CachePollInterval {C}. Arguments cf_CacheMaxAge {C}. Arguments cf_CacheMaxSize {C}. Arguments cf_CacheMinFreeSpace {C}.
Arguments cf_CacheShardDepth {C}. Arguments cf_ChunkSize {C}. Arguments cf_ChunkSizeLimit {C}. Arguments cf_ChunkStreams {C}.
Arguments cf_ReadAhead {C}. Arguments cf_BufferSize {C}. Arguments cf_HandleCaching {C}. Arguments cf_LowLevelRetries {C}.
Arguments cf_cache {C}. Arguments cf_handler {C}.

Definition empty_config {C} : Handler C := mkModule "" "" "" None None None None None None None None None None None None None None None.

Section setters.
Context {C : Type}.
Implicit Types h : Handler C.
Definition cf_set_Upstream (v : string) h : Handler C :=
  mkModule v (cf_CacheDir h) (cf_Key h) (cf_Headers h) (cf_CachePollInterval h) (cf_CacheMaxAge h) (cf_CacheMaxSize h) (cf_CacheMinFreeSpace h) (cf_CacheShardDepth h) (cf_ChunkSize h) (cf_ChunkSizeLimit h) (cf_ChunkStreams h) (cf_ReadAhead h) (cf_BufferSize h) (cf_HandleCaching h) (cf_LowLevelRetries h) (cf_cache h) (cf_handler h).
Definition cf_set_CacheDir (v : string) h : Handler C :=
  mkModule (cf_Upstream h) v (cf_Key h) (cf_Headers h) (cf_CachePollInterval h) (cf_CacheMaxAge h) (cf_CacheMaxSize h) (cf_CacheMinFreeSpace h) (cf_CacheShardDepth h) (cf_ChunkSize h) (cf_ChunkSizeLimit h) (cf_ChunkStreams h) (cf_ReadAhead h) (cf_BufferSize h) (cf_HandleCaching h) (cf_LowLevelRetries h) (cf_cache h) (cf_handler h).
Definition cf_set_Key (v : string) h : Handler C :=
  mkModule (cf_Upstream h) (cf_CacheDir h) v (cf_Headers h) (cf_CachePollInterval h) (cf_CacheMaxAge h) (cf_CacheMaxSize h) (cf_CacheMinFreeSpace h) (cf_CacheShardDepth h) (cf_ChunkSize h) (cf_ChunkSizeLimit h) (cf_ChunkStreams h) (cf_ReadAhead h) (cf_BufferSize h) (cf_HandleCaching h) (cf_LowLevelRetries h) (cf_cache h) (cf_handler h).
Definition cf_set_Headers (v : option Header) h : Handler C :=
  mkModule (cf_Upstream h) (cf_CacheDir h) (cf_Key h) v (cf_CachePollInterval h) (cf_CacheMaxAge h) (cf_CacheMaxSize h) (cf_CacheMinFreeSpace h) (cf_CacheShardDepth h) (cf_ChunkSize h) (cf_ChunkSizeLimit h) (cf_ChunkStreams h) (cf_ReadAhead h) (cf_BufferSize h) (cf_HandleCaching h) (cf_LowLevelRetries h) (cf_cache h) (cf_handler h).
Definition cf_set_CachePollInterval (v : option Z) h : Handler C :=
  mkModule (cf_Upstream h) (cf_CacheDir h) (cf_Key h) (cf_Headers h) v (cf_CacheMaxAge h) (cf_CacheMaxSize h) (cf_CacheMinFreeSpace h) (cf_CacheShardDepth h) (cf_ChunkSize h) (cf_ChunkSizeLimit h) (cf_ChunkStreams h) (cf_ReadAhead h) (cf_BufferSize h) (cf_HandleCaching h) (cf_LowLevelRetries h) (cf_cache h) (cf_handler h).
Definition cf_set_CacheMaxAge (v : option Z) h : Handler C :=
  mkModule (cf_Upstream h) (cf_CacheDir h) (cf_Key h) (cf_Headers h) (cf_CachePollInterval h) v (cf_CacheMaxSize h) (cf_CacheMinFreeSpace h) (cf_CacheShardDepth h) (cf_ChunkSize h) (cf_ChunkSizeLimit h) (cf_ChunkStreams h) (cf_ReadAhead h) (cf_BufferSize h) (cf_HandleCaching h) (cf_LowLevelRetries h) (cf_cache h) (cf_handler h).
Definition cf_set_CacheMaxSize (v : option Z) h : Handler C :=
  mkModule (cf_Upstream h) (cf_CacheDir h) (cf_Key h) (cf_Headers h) (cf_CachePollInterval h) (cf_CacheMaxAge h) v (cf_CacheMinFreeSpace h) (cf_CacheShardDepth h) (cf_ChunkSize h) (cf_ChunkSizeLimit h) (cf_ChunkStreams h) (cf_ReadAhead h) (cf_BufferSize h) (cf_HandleCaching h) (cf_LowLevelRetries h) (cf_cache h) (cf_handler h).
Definition cf_set_CacheMinFreeSpace (v : option Z) h : Handler C :=
  mkModule (cf_Upstream h) (cf_CacheDir h) (cf_Key h) (cf_Headers h) (cf_CachePollInterval h) (cf_CacheMaxAge h) (cf_CacheMaxSize h) v (cf_CacheShardDepth h) (cf_ChunkSize h) (cf_ChunkSizeLimit h) (cf_ChunkStreams h) (cf_ReadAhead h) (cf_BufferSize h) (cf_HandleCaching h) (cf_LowLevelRetries h) (cf_cache h) (cf_handler h).
Definition cf_set_CacheShardDepth (v : option Z) h : Handler C :=
  mkModule (cf_Upstream h) (cf_CacheDir h) (cf_Key h) (cf_Headers h) (cf_CachePollInterval h) (cf_CacheMaxAge h) (cf_CacheMaxSize h) (cf_CacheMinFreeSpace h) v (cf_ChunkSize h) (cf_ChunkSizeLimit h) (cf_ChunkStreams h) (cf_ReadAhead h) (cf_BufferSize h) (cf_HandleCaching h) (cf_LowLevelRetries h) (cf_cache h) (cf_handler h).
Definition cf_set_ChunkSize (v : option Z) h : Handler C :=
  mkModule (cf_Upstream h) (cf_CacheDir h) (cf_Key h) (cf_Headers h) (cf_CachePollInterval h) (cf_CacheMaxAge h) (cf_CacheMaxSize h) (cf_CacheMinFreeSpace h) (cf_CacheShardDepth h) v (cf_ChunkSizeLimit h) (cf_ChunkStreams h) (cf_ReadAhead h) (cf_BufferSize h) (cf_HandleCaching h) (cf_LowLevelRetries h) (cf_cache h) (cf_handler h).
Definition cf_set_ChunkSizeLimit (v : option Z) h : Handler C :=
  mkModule (cf_Upstream h) (cf_CacheDir h) (cf_Key h) (cf_Headers h) (cf_CachePollInterval h) (cf_CacheMaxAge h) (cf_CacheMaxSize h) (cf_CacheMinFreeSpace h) (cf_CacheShardDepth h) (cf_ChunkSize h) v (cf_ChunkStreams h) (cf_ReadAhead h) (cf_BufferSize h) (cf_HandleCaching h) (cf_LowLevelRetries h) (cf_cache h) (cf_handler h).
Definition cf_set_ChunkStreams (v : option Z) h : Handler C :=
  mkModule (cf_Upstream h) (cf_CacheDir h) (cf_Key h) (cf_Headers h) (cf_CachePollInterval h) (cf_CacheMaxAge h) (cf_CacheMaxSize h) (cf_CacheMinFreeSpace h) (cf_CacheShardDepth h) (cf_ChunkSize h) (cf_ChunkSizeLimit h) v (cf_ReadAhead h) (cf_BufferSize h) (cf_HandleCaching h) (cf_LowLevelRetries h) (cf_cache h) (cf_handler h).
Definition cf_set_ReadAhead (v : option Z) h : Handler C :=
  mkModule (cf_Upstream h) (cf_CacheDir h) (cf_Key h) (cf_Headers h) (cf_CachePollInterval h) (cf_CacheMaxAge h) (cf_CacheMaxSize h) (cf_CacheMinFreeSpace h) (cf_CacheShardDepth h) (cf_ChunkSize h) (cf_ChunkSizeLimit h) (cf_ChunkStreams h) v (cf_BufferSize h) (cf_HandleCaching h) (cf_LowLevelRetries h) (cf_cache h) (cf_handler h).
Definition cf_set_BufferSize (v : option Z) h : Handler C :=
  mkModule (cf_Upstream h) (cf_CacheDir h) (cf_Key h) (cf_Headers h) (cf_CachePollInterval h) (cf_CacheMaxAge h) (cf_CacheMaxSize h) (cf_CacheMinFreeSpace h) (cf_CacheShardDepth h) (cf_ChunkSize h) (cf_ChunkSizeLimit h) (cf_ChunkStreams h) (cf_ReadAhead h) v (cf_HandleCaching h) (cf_LowLevelRetries h) (cf_cache h) (cf_handler h).
Definition cf_set_HandleCaching (v : option Z) h : Handler C :=
  mkModule (cf_Upstream h) (cf_CacheDir h) (cf_Key h) (cf_Headers h) (cf_CachePollInterval h) (cf_CacheMaxAge h) (cf_CacheMaxSize h) (cf_CacheMinFreeSpace h) (cf_CacheShardDepth h) (cf_ChunkSize h) (cf_ChunkSizeLimit h) (cf_ChunkStreams h) (cf_ReadAhead h) (cf_BufferSize h) v (cf_LowLevelRetries h) (cf_cache h) (cf_handler h).
Definition cf_set_LowLevelRetries (v : option Z) h : Handler C :=
  mkModule (cf_Upstream h) (cf_CacheDir h) (cf_Key h) (cf_Headers h) (cf_CachePollInterval h) (cf_CacheMaxAge h) (cf_CacheMaxSize h) (cf_CacheMinFreeSpace h) (cf_CacheShardDepth h) (cf_ChunkSize h) (cf_ChunkSizeLimit h) (cf_ChunkStreams h) (cf_ReadAhead h) (cf_BufferSize h) (cf_HandleCaching h) v (cf_cache h) (cf_handler h).
Definition cf_set_cache (v : option C) h : Handler C :=
  mkModule (cf_Upstream h) (cf_CacheDir h) (cf_Key h) (cf_Headers h) (cf_CachePollInterval h) (cf_CacheMaxAge h) (cf_CacheMaxSize h) (cf_CacheMinFreeSpace h) (cf_CacheShardDepth h) (cf_ChunkSize h) (cf_ChunkSizeLimit h) (cf_ChunkStreams h) (cf_ReadAhead h) (cf_BufferSize h) (cf_HandleCaching h) (cf_LowLevelRetries h) v (cf_handler h).
Definition cf_set_handler (v : option (Proxy.Handler * HttpSource.Source)) h : Handler C :=
  mkModule (cf_Upstream h) (cf_CacheDir h) (cf_Key h) (cf_Headers h) (cf_CachePollInterval h) (cf_CacheMaxAge h) (cf_CacheMaxSize h) (cf_CacheMinFreeSpace h) (cf_CacheShardDepth h) (cf_ChunkSize h) (cf_ChunkSizeLimit h) (cf_ChunkStreams h) (cf_ReadAhead h) (cf_BufferSize h) (cf_HandleCaching h) (cf_LowLevelRetries h) (cf_cache h) v.
End setters.

(** ** Sizes *)
Definition multipliers : list (string * Z) :=
  [("TIB", Z.shiftl 1 40); ("GIB", Z.shiftl 1 30); ("MIB", Z.shiftl 1 20); ("KIB", Z.shiftl 1 10);
   ("TB", 1000000000000); ("GB", 1000000000); ("MB", 1000000); ("KB", 1000); ("B", 1)].

(** The first suffix that the text has is cut off. *)
Fixpoint cut_unit (upper : string) (candidates : list (string * Z)) : string * Z :=
  match candidates with
  | [] => (upper, 1)
  | (suffix, value) :: candidates =>
      if strings_HasSuffix upper suffix then (strings_TrimSpace (strings_TrimSuffix upper suffix), value) else cut_unit upper candidates
  end.

Definition parseBytes (value : string) : error + Z :=
  let value := strings_TrimSpace value in
  if bool_decide (value = "") then inl (Errorf "empty size")
  else
    let '(upper, multiplier) := cut_unit (strings_ToUpper value) multipliers in
    match strconv_ParseInt upper with
    | None => inl (Errorf "invalid byte size")
    | Some n =>
        if n <? 0 then inl (Errorf "invalid byte size")
        else if MaxInt64 ÷ multiplier <? n then inl (Errorf "byte size overflows int64")
        else inr (n *! multiplier)
    end.

Definition Header_Add (key value : string) (h : Header) : Header := <[canonical key := default [] (h !! canonical key) ++ [value]]> h.

(** ** The Caddyfile *)
Section caddyfile.
Context {D C : Type} `{Dispenser D} `{CaddyEnv}.
Implicit Types (d : D) (h : Handler C).

Definition oneArg d : (error + string) * D :=
  let '(ok, d) := d_NextArg d in
  if negb ok then (inl (d_ArgErr d), d)
  else
    let value := d_Val d in
    let '(more, d) := d_NextArg d in
    if (more : bool) then (inl (d_ArgErr d), d) else (inr value, d).

(** An option with one argument, read by [parse] and stored by [set]. *)
Definition option_with {A} (parse : string -> error + A) (msg : string) (set : A -> Handler C -> Handler C) h d : option error * Handler C * D :=
  let '(res, d) := oneArg d in
  match res with
  | inl err => (Some err, h, d)
  | inr value => match parse value with inl _ => (Some (d_Errf d msg), h, d) | inr v => (None, set v h, d) end
  end.

(** [strconv.Atoi], and the bounds of a count. *)
Definition count_up_to (most : Z) (value : string) : error + Z :=
  match strconv_ParseInt value with
  | None => inl (Errorf "not a number")
  | Some n => if (n <? 0) || (most <? n) then inl (Errorf "out of range") else inr n
  end.

Definition size_option (name : string) (set : option Z -> Handler C -> Handler C) := option_with parseBytes ("invalid " +:+ name) (fun v => set (Some v)).
Definition duration_option (name : string) (set : option Z -> Handler C -> Handler C) := option_with ParseDuration ("invalid " +:+ name) (fun v => set (Some v)).
Definition count_option (name : string) (most : Z) (set : option Z -> Handler C -> Handler C) := option_with (count_up_to most) ("invalid " +:+ name) (fun v => set (Some v)).

Definition header_up h d : option error * Handler C * D :=
  let '(args, d) := d_RemainingArgs d in
  match args with
  | field :: (_ :: _) as values =>
      (None, cf_set_Headers (Some (Header_Add field (strings_Join (tail args) " ") (default ∅ (cf_Headers h)))) h, d)
  | _ => (Some (d_ArgErr d), h, d)
  end.

(** The [switch] on the name of the option. *)
Definition set_option h d : option error * Handler C * D :=
  let name := d_Val d in
  if bool_decide (name = "cache_dir") then option_with inr "" cf_set_CacheDir h d
  else if bool_decide (name = "key") then option_with inr "" cf_set_Key h d
  else if bool_decide (name = "max_size") then size_option name cf_set_CacheMaxSize h d
  else if bool_decide (name = "min_free_space") then size_option name cf_set_CacheMinFreeSpace h d
  else if bool_decide (name = "shard_depth") then count_option name 16 cf_set_CacheShardDepth h d
  else if bool_decide (name = "max_age") then duration_option name cf_set_CacheMaxAge h d
  else if bool_decide (name = "poll_interval") then duration_option name cf_set_CachePollInterval h d
  else if bool_decide (name = "chunk_size") then size_option name cf_set_ChunkSize h d
  else if bool_decide (name = "chunk_size_limit") then size_option name cf_set_ChunkSizeLimit h d
  else if bool_decide (name = "chunk_streams") then count_option name MaxInt64 cf_set_ChunkStreams h d
  else if bool_decide (name = "read_ahead") then size_option name cf_set_ReadAhead h d
  else if bool_decide (name = "buffer_size") then size_option name cf_set_BufferSize h d
  else if bool_decide (name = "handle_caching") then duration_option name cf_set_HandleCaching h d
  else if bool_decide (name = "retries") then count_option name MaxInt64 cf_set_LowLevelRetries h d
  else if bool_decide (name = "header_up") then header_up h d
  else (Some (d_Errf d "unrecognized varc option"), h, d).

(** The lines of the block; the fuel is for the loop: one more than there are lines
    is enough ([caddyfile_roundtrip]). *)
Fixpoint read_block (fuel : nat) (nesting : Z) h d : run (option error * Handler C * D) :=
  match fuel with
  | 0%nat => OutOfFuel
  | S fuel =>
      let '(more, d) := d_NextBlock nesting d in
      if negb more then Ret (None, h, d)
      else
        match set_option h d with
        | (Some err, h, d) => Ret (Some err, h, d)
        | (None, h, d) => read_block fuel nesting h d
        end
  end.

Fixpoint UnmarshalCaddyfile (fuel : nat) h d : run (option error * Handler C * D) :=
  match fuel with
  | 0%nat => OutOfFuel
  | S fuel =>
      let '(more, d) := d_Next d in
      if negb more then Ret (None, h, d)
      else
        let '(arg, d) := d_NextArg d in
        if negb arg then Ret (Some (d_ArgErr d), h, d)
        else
          let h := cf_set_Upstream (d_Val d) h in
          let '(extra, d) := d_NextArg d in
          if (extra : bool) then Ret (Some (d_ArgErr d), h, d)
          else
            '(err, h, d) ← read_block fuel (d_Nesting d) h d;
            match err with Some _ => Ret (err, h, d) | None => UnmarshalCaddyfile fuel h d end
  end.

Definition parseCaddyfile (fuel : nat) d : run (error + Handler C) :=
  '(err, h, _) ← UnmarshalCaddyfile fuel empty_config d;
  Ret (match err with Some err => inl err | None => inr h end).
End caddyfile.

(** ** Provisioning *)
Definition module_options {C} (h : Handler C) : Options := {|
  CachePollInterval := default (CachePollInterval DefaultOptions) (cf_CachePollInterval h);
  CacheMaxAge := default (CacheMaxAge DefaultOptions) (cf_CacheMaxAge h);
  CacheMaxSize := default (CacheMaxSize DefaultOptions) (cf_CacheMaxSize h);
  CacheMinFreeSpace := default (CacheMinFreeSpace DefaultOptions) (cf_CacheMinFreeSpace h);
  CacheShardDepth := default (CacheShardDepth DefaultOptions) (cf_CacheShardDepth h);
  ChunkSize := default (ChunkSize DefaultOptions) (cf_ChunkSize h);
  ChunkSizeLimit := default (ChunkSizeLimit DefaultOptions) (cf_ChunkSizeLimit h);
  ChunkStreams := default (ChunkStreams DefaultOptions) (cf_ChunkStreams h);
  ReadAhead := default (ReadAhead DefaultOptions) (cf_ReadAhead h);
  OptBufferSize := default (OptBufferSize DefaultOptions) (cf_BufferSize h);
  HandleCaching := default (HandleCaching DefaultOptions) (cf_HandleCaching h);
  OptLowLevelRetries := default (OptLowLevelRetries DefaultOptions) (cf_LowLevelRetries h);
|}.

(** [strings.Trim(key, "/")] *)
Fixpoint trim_slashes (l : list ascii) : list ascii :=
  match l with c :: l' => if bool_decide (c = "/"%char) then trim_slashes l' else l | [] => [] end.
Definition strings_Trim_slash (key : string) : string :=
  String.string_of_list_ascii (rev (trim_slashes (rev (trim_slashes (text key))))).

Definition normalizeCacheKeyTemplate : string -> string := strings_Replace [("{host}", "{http.request.host}"); ("{uri}", "{http.request.uri}")].

Section provision.
Context {C W : Type} `{CaddyEnv} `{CacheMaker C W}.
Implicit Types h : Handler C.

Definition newCacheKeyFunc (template : string) : KeyFunc := fun r =>
  match ReplaceOrErr (normalizeCacheKeyTemplate template) r with
  | inl err => inl (Wrap "varc: expand cache key" err)
  | inr key => if bool_decide (key = "") then inl (Errorf "varc: cache key expanded to an empty string") else inr key
  end.

Definition parseUpstreamURL (raw : string) : error + URL :=
  match url_Parse raw with
  | inl err => inl (Wrap "varc: parse upstream" err)
  | inr u =>
      if negb (bool_decide (u_Scheme u = "http")) && negb (bool_decide (u_Scheme u = "https")) then inl (Errorf "varc: upstream scheme must be http or https")
      else if bool_decide (u_Host u = "") then inl (Errorf "varc: upstream host is required")
      else if negb (bool_decide (u_Fragment u = "")) then inl (Errorf "varc: upstream must not contain a URL fragment")
      else inr u
  end.

(** The object of a request, when the upstream has placeholders. *)
Definition sourceKey h : KeyFunc := fun r =>
  match ReplaceOrErr (cf_Upstream h) r with
  | inl err => inl (Wrap "varc: expand upstream" err)
  | inr resolved => match parseUpstreamURL resolved with inl err => inl err | inr u => inr (url_String u) end
  end.
Definition upstreamCacheKey h : KeyFunc := fun r =>
  match sourceKey h r with
  | inl err => inl err
  | inr resolved =>
      match url_Parse resolved with
      | inl err => inl (Wrap "varc: parse resolved upstream" err)
      | inr u => PathKey (mkHttpRequest "" (u_Path u) "" ∅)
      end
  end.

Definition upstream_source (dynamicUpstream : bool) h : error + HttpSource.Source :=
  if dynamicUpstream then inr (HttpSource.New (Some (fun _ key => inr key)))
  else
    match parseUpstreamURL (cf_Upstream h) with
    | inl err => inl err
    | inr base => inr (HttpSource.New (Some (fun _ key => inr (url_String (url_JoinPath base (strings_Split (strings_Trim_slash key) "/"))))))
    end.

(** The configured headers; the host of the request does not go to an upstream of
    its own choice unless it is configured. *)
Definition source_header (dynamicUpstream : bool) h : Header :=
  let header := default ∅ (cf_Headers h) in
  if dynamicUpstream then match header !! "Host" with Some _ => header | None => <["Host" := []]> header end else header.

Definition provision h (w : W) : option error * Handler C * W :=
  if bool_decide (cf_Upstream h = "") then (Some (Errorf "varc: upstream is required"), h, w)
  else if bool_decide (cf_CacheDir h = "") then (Some (Errorf "varc: cache_dir is required"), h, w)
  else
    let dynamicUpstream := strings_Contains (cf_Upstream h) "{" in
    match upstream_source dynamicUpstream h with
    | inl err => (Some err, h, w)
    | inr src =>
        let src := mkSource (hs_Resolve src) (source_header dynamicUpstream h) in
        match cache_New (cf_CacheDir h) (module_options h) w with
        | (inl err, w) => (Some (Wrap "varc: initialize cache" err), h, w)
        | (inr c, w) =>
            let key := if (dynamicUpstream : bool) then Some (sourceKey h) else None in
            let cacheKey := if (dynamicUpstream : bool) then Some (upstreamCacheKey h) else None in
            let cacheKey := if bool_decide (cf_Key h = "") then cacheKey else Some (newCacheKeyFunc (cf_Key h)) in
            (None, cf_set_handler (Some (mkHandler true true key cacheKey, src)) (cf_set_cache (Some c) h), w)
        end
    end.

Definition Validate h : option error :=
  match cf_cache h, cf_handler h with
  | Some _, Some _ => None
  | _, _ => Some (Errorf "varc: module is not provisioned")
  end.

Definition Cleanup h (w : W) : option error * Handler C * W :=
  match cf_cache h with
  | None => (None, h, w)
  | Some c => let '(err, w) := cache_Close c w in (err, cf_set_handler None (cf_set_cache None h), w)
  end.
End provision.

(** ** Serving *)
Inductive serve_result := Next | Failed (err : error) | Served (resp : response).

Section serving.
Context {W R C Rd : Type} `{HTTP W R} `{CacheAPI C HttpSource.Object Rd} `{ContentServer}.

(** The handler opens its objects at its own source; the cache it has is that of
    the module. *)
Definition module_ServeHTTP (h : Handler C) (ctx : context) (r : HttpRequest) (w : W) : option (serve_result * W * Handler C) :=
  if negb (bool_decide (hr_Method r = "GET")) && negb (bool_decide (hr_Method r = "HEAD")) then Some (Next, w, h)
  else
    match cf_handler h, cf_cache h with
    | Some (handler, src), Some c =>
        '(resp, w, c) ← @ServeHTTP W C HttpSource.Object Rd (HttpSource.Open src) _ _ handler ctx r w c;
        Some (Served resp, w, cf_set_cache c h)
    | _, _ => Some (Failed (Errorf "varc: handler is not provisioned"), w, h)
    end.
End serving.

(** ** What sizes are read *)
Lemma text_map f s : text (string_map f s) = map f (text s).
Proof. unfold text. induction s as [|c s IH]; cbn; [done|]. by rewrite IH. Qed.

Lemma rev_nil_inv {A} (l : list A) : rev l = [] -> l = [].
Proof. intros Hr. by rewrite <- (rev_involutive l), Hr. Qed.

Lemma string_app_nil_r s : s +:+ "" = s.
Proof. unfold String.app. induction s as [|c s IH]; cbn; [done|]. by rewrite IH. Qed.

Lemma text_nil s : text s = [] -> s = "".
Proof. by destruct s. Qed.

(** A unit as it is written, in either case. *)
Definition unit_of (unit : string) (mult : Z) : Prop := unit = "" /\ mult = 1 \/ In (strings_ToUpper unit, mult) multipliers.

Definition letter (c : ascii) : bool := let n := nat_of_ascii c in ((65 <=? n) && (n <=? 90))%nat.

Lemma digit_plain c : is_digit c = true -> is_space c = false /\ to_upper c = c /\ letter c = false.
Proof.
  unfold is_digit, digit. intros Hd. apply bool_decide_eq_true in Hd. revert Hd. destruct c as [[] [] [] [] [] [] [] []]; vm_compute; intros [? ?]; done.
Qed.

Lemma space_plain c : is_space c = true -> to_upper c = c /\ letter c = false.
Proof. destruct c as [[] [] [] [] [] [] [] []]; vm_compute; done. Qed.

Lemma pretty_text (n : Z) : 0 <= n -> Forall (fun c => is_digit c = true) (text (pretty n)) /\ text (pretty n) <> [].
Proof.
  intros Hn. assert (He : (pretty n : string) = pretty (Z.to_N n)) by (destruct n; [done..|lia]). rewrite He. split.
  - pose proof (all_digits_pretty (Z.to_N n)) as Hd. revert Hd. generalize (pretty (Z.to_N n)). intros s. induction s as [|c s IH]; cbn; [constructor|].
    intros Hd. apply andb_true_iff in Hd as [Hc Hs]. constructor; auto.
  - intros Ht. apply text_nil in Ht. by apply (pretty_N_nonempty (Z.to_N n)).
Qed.

Lemma digits_solid s : Forall (fun c => is_digit c = true) (text s) -> text s <> [] -> solid s.
Proof.
  intros Hd Hn. split.
  - destruct (text s) as [|c l]; [done|]. apply Forall_cons in Hd as [Hc _]. by apply digit_plain.
  - apply Forall_rev in Hd. destruct (rev (text s)) as [|c l] eqn:Hr; [by apply rev_nil_inv in Hr|].
    apply Forall_cons in Hd as [Hc _]. by apply digit_plain.
Qed.

(** A number and the white space after it end with no letter, so that a unit after
    them is found, and is found as itself. *)
Lemma cut_unit_found (p u : string) (m : Z) c l : rev (text p) = c :: l -> letter c = false -> In (u, m) multipliers ->
  cut_unit (p +:+ u) multipliers = (strings_TrimSpace p, m).
Proof.
  intros Hp Hc Hu.
  assert (Hne : forall a, letter a = true -> bool_decide (a = c) = false) by (intros a Ha; apply bool_decide_eq_false_2; congruence).
  assert (Hs : forall v, strings_HasSuffix (p +:+ u) v = starts (rev (text v)) (rev (text u) ++ c :: l)).
  { intros v. unfold strings_HasSuffix. by rewrite text_app, rev_app_distr, Hp. }
  pose proof (TrimSuffix_app p u) as [Hsuf Htrim].
  unfold multipliers in Hu |- *. cbn in Hu.
  repeat (destruct Hu as [Hu|Hu]; [injection Hu as <- <-; cbn [cut_unit]; rewrite !Hs; cbn; rewrite ?Hne by done; cbn; rewrite ?Htrim; reflexivity|]). done.
Qed.

Lemma cut_unit_none (p : string) c l : rev (text p) = c :: l -> letter c = false -> cut_unit p multipliers = (p, 1).
Proof.
  intros Hp Hc. assert (Hne : forall a, letter a = true -> bool_decide (a = c) = false) by (intros a Ha; apply bool_decide_eq_false_2; congruence).
  unfold multipliers. cbn [cut_unit]. unfold strings_HasSuffix. rewrite !Hp. cbn. by rewrite !Hne by done.
Qed.

Lemma string_map_id f s : Forall (fun c => f c = c) (text s) -> string_map f s = s.
Proof. unfold text. induction s as [|c s IH]; cbn; [done|]. intros [Hc Hs]%Forall_cons. by rewrite Hc, IH. Qed.

(** The last byte of a number with white space after it. *)
Lemma number_end n gap : 0 <= n -> spaces gap -> exists c l, rev (text (pretty n +:+ gap)) = c :: l /\ letter c = false.
Proof.
  intros Hn Hg. destruct (pretty_text n Hn) as [Hd Hne]. rewrite text_app, rev_app_distr. apply Forall_rev in Hg. apply Forall_rev in Hd.
  destruct (rev (text gap)) as [|c l]; cbn.
  - destruct (rev (text (pretty n))) as [|c l] eqn:Hr; [by apply rev_nil_inv in Hr|].
    exists c, l. split; [done|]. apply Forall_cons in Hd as [Hc _]. by apply digit_plain.
  - eexists c, _. split; [done|]. apply Forall_cons in Hg as [Hc _]. by apply space_plain.
Qed.

Lemma number_upper n gap : 0 <= n -> spaces gap -> strings_ToUpper (pretty n +:+ gap) = pretty n +:+ gap.
Proof.
  intros Hn Hg. apply string_map_id. rewrite text_app. destruct (pretty_text n Hn) as [Hd _]. apply Forall_app. split.
  - eapply Forall_impl; [exact Hd|]. intros c Hc. by apply digit_plain.
  - eapply Forall_impl; [exact Hg|]. intros c Hc. by apply space_plain.
Qed.

(** The number, the unit and the white space are told apart. *)
Lemma size_parts n left gap unit right mult : 0 <= n -> spaces left -> spaces gap -> spaces right -> unit_of unit mult ->
  strings_TrimSpace (left +:+ pretty n +:+ gap +:+ unit +:+ right) <> "" /\
  cut_unit (strings_ToUpper (strings_TrimSpace (left +:+ pretty n +:+ gap +:+ unit +:+ right))) multipliers = (pretty n, mult).
Proof.
  intros Hn Hl Hg Hr Hu. destruct (pretty_text n Hn) as [Hd Hne]. pose proof (digits_solid _ Hd Hne) as Hsol.
  assert (Hpretty : (pretty n : string) <> "") by (intros He; by rewrite He in Hne). destruct Hu as [[-> ->]|Hu].
  - assert (Hgr : spaces (gap +:+ "" +:+ right)) by (unfold spaces; rewrite !text_app; apply Forall_app; by split).
    rewrite TrimSpace_solid by done. split; [done|]. destruct (number_end n "" Hn ltac:(constructor)) as (c & l & Hc & Hlet).
    pose proof (number_upper n "" Hn ltac:(constructor)) as Hup. assert (He : pretty n +:+ "" = (pretty n : string)) by (apply string_app_nil_r). rewrite He in *. rewrite Hup.
    by eapply cut_unit_none.
  - assert (Hlast : exists c l, rev (text unit) = c :: l /\ is_space c = false).
    { assert (Hb : exists k, rev (text (strings_ToUpper unit)) = "B"%char :: k).
      { unfold multipliers in Hu. cbn in Hu. repeat (destruct Hu as [Hu|Hu]; [injection Hu as <- _; cbn; by eexists|]). done. }
      destruct Hb as [k Hb]. unfold strings_ToUpper in Hb. rewrite text_map, <- map_rev in Hb. destruct (rev (text unit)) as [|c l]; [done|]. injection Hb as Hb _.
      exists c, l. split; [done|]. destruct (is_space c) eqn:Hs; [|done]. apply space_plain in Hs as [Hup Hlet]. rewrite Hup in Hb. by subst c. }
    assert (Hcore : solid (pretty n +:+ gap +:+ unit)).
    { destruct Hsol as [Hs _], Hlast as (c & l & Hc & Hsp). split; rewrite !text_app.
      - by destruct (text (pretty n)).
      - by rewrite !rev_app_distr, Hc. }
    replace (left +:+ pretty n +:+ gap +:+ unit +:+ right) with (left +:+ (pretty n +:+ gap +:+ unit) +:+ right) by (by rewrite !string_app_assoc).
    rewrite TrimSpace_solid by done. split; [intros He; destruct Hcore as [Hs _]; by rewrite He in Hs|].
    rewrite <- string_app_assoc. unfold strings_ToUpper. rewrite string_map_app. fold strings_ToUpper. fold (strings_ToUpper (pretty n +:+ gap)). rewrite number_upper by done.
    destruct (number_end n gap Hn Hg) as (c & l & Hc & Hlet). erewrite cut_unit_found by done.
    f_equal. replace (pretty n +:+ gap) with ("" +:+ pretty n +:+ gap) by done. apply TrimSpace_solid; [constructor|done|done].
Qed.

Lemma unit_range unit mult : unit_of unit mult -> 1 <= mult <= Z.shiftl 1 40.
Proof.
  assert (Hm : Forall (fun p => 1 <= snd p <= Z.shiftl 1 40) multipliers) by (repeat constructor; vm_compute; discriminate).
  intros [[_ ->]|Hu]; [split; vm_compute; discriminate|]. rewrite List.Forall_forall in Hm. exact (Hm _ Hu).
Qed.

Lemma parseBytes_range v z : parseBytes v = inr z -> 0 <= z <= MaxInt64.
Proof.
  unfold parseBytes. case_bool_decide; [done|].
  assert (Hm : forall s, 1 <= snd (cut_unit s multipliers)).
  { intros s. unfold multipliers. cbn [cut_unit]. repeat (destruct (strings_HasSuffix s _); [done|]). done. }
  specialize (Hm (strings_ToUpper (strings_TrimSpace v))). destruct (cut_unit _ _) as [upper m]. cbn in Hm.
  destruct (strconv_ParseInt upper) as [n|]; [|done]. destruct (Z.ltb_spec n 0); [done|]. destruct (Z.ltb_spec (MaxInt64 ÷ m) n) as [|Hle]; [done|].
  intros [= <-]. rewrite Z.quot_div_nonneg in Hle by (unfold MaxInt64; lia). pose proof (Z.mul_div_le MaxInt64 m ltac:(lia)). rewrite i64_id; [nia|]. unfold in64, MinInt64 in *. nia.
Qed.

Lemma parseBytes_written n left gap unit right mult : 0 <= n -> spaces left -> spaces gap -> spaces right -> unit_of unit mult ->
  if n * mult <=? MaxInt64 then parseBytes (left +:+ pretty n +:+ gap +:+ unit +:+ right) = inr (n * mult)
  else exists err, parseBytes (left +:+ pretty n +:+ gap +:+ unit +:+ right) = inl err.
Proof.
  intros Hn Hl Hg Hr Hu. destruct (size_parts n left gap unit right mult Hn Hl Hg Hr Hu) as [Hne Hcut]. pose proof (unit_range _ _ Hu) as Hm.
  unfold parseBytes. rewrite bool_decide_eq_false_2, Hcut, ParseInt_pretty_nonneg by done.
  destruct (Z.leb_spec n MaxInt64) as [Hin|Hbig].
  - destruct (Z.ltb_spec n 0); [lia|]. rewrite Z.quot_div_nonneg by (unfold MaxInt64; lia).
    destruct (Z.leb_spec (n * mult) MaxInt64) as [Hle|Hgt].
    + destruct (Z.ltb_spec (MaxInt64 `div` mult) n) as [Hlt|_]; [pose proof (Z.div_le_lower_bound MaxInt64 mult n ltac:(lia) ltac:(lia)); lia|].
      rewrite i64_id; [done|]. unfold in64, MinInt64. lia.
    + destruct (Z.ltb_spec (MaxInt64 `div` mult) n) as [_|Hge]; [by eexists|]. pose proof (Z.mul_div_le MaxInt64 mult ltac:(lia)). nia.
  - destruct (Z.leb_spec (n * mult) MaxInt64); [nia|]. by eexists.
Qed.

(** ** Provisioned modules *)
Section lifecycle.
Context {C W : Type} `{CaddyEnv} `{CacheMaker C W}.
Implicit Types h : Handler C.

Lemma provision_ok h w h' w' : provision h w = (None, h', w') ->
  exists c w1 src, cache_New (cf_CacheDir h) (module_options h) w = (inr c, w1) /\ w' = w1 /\ cf_cache h' = Some c /\
    cf_handler h' = Some (mkHandler true true (if strings_Contains (cf_Upstream h) "{" then Some (sourceKey h) else None)
      (if bool_decide (cf_Key h = "") then if strings_Contains (cf_Upstream h) "{" then Some (upstreamCacheKey h) else None else Some (newCacheKeyFunc (cf_Key h))), src).
Proof.
  unfold provision. case_bool_decide; [done|]. case_bool_decide; [done|]. destruct (upstream_source _ h) as [e|src]; [done|].
  destruct (cache_New _ _ w) as [[e|c] w1] eqn:Hn; [done|]. intros [= <- <-]. eexists c, w1, _. by split_and!.
Qed.

Lemma provision_lifecycle h w h' w' : provision h w = (None, h', w') -> Validate h' = None /\
  (forall w1 err h1 w2, Cleanup h' w1 = (err, h1, w2) -> Validate h1 <> None /\ Cleanup h1 w2 = (None, h1, w2)).
Proof.
  intros Hp. apply provision_ok in Hp as (c & w1 & src & _ & _ & Hc & Hh). split; [unfold Validate; by rewrite Hc, Hh|].
  intros w2 err h1 w3. unfold Cleanup at 1. rewrite Hc. destruct (cache_Close c w2) as [e w4]. by intros [= <- <- <-].
Qed.
End lifecycle.

(** ** Requests *)
Section requests.
Context {W R C Rd : Type} `{HTTP W R} `{CacheAPI C HttpSource.Object Rd} `{ContentServer} `{CaddyEnv} `{!CacheMaker C W}.
Implicit Types h : Handler C.

(** Other methods go on to the next handler; a module that is cleaned up, or was
    never provisioned, fails the others. *)
Lemma module_ServeHTTP_others h ctx r w : hr_Method r <> "GET" -> hr_Method r <> "HEAD" -> module_ServeHTTP h ctx r w = Some (Next, w, h).
Proof. intros Hg Hh. unfold module_ServeHTTP. by rewrite !bool_decide_eq_false_2. Qed.

Lemma module_ServeHTTP_cleaned h w err h' w' ctx r : Cleanup h w = (err, h', w') -> (cf_cache h = None -> cf_handler h = None) ->
  hr_Method r = "GET" \/ hr_Method r = "HEAD" -> exists e, module_ServeHTTP h' ctx r w' = Some (Failed e, w', h').
Proof.
  intros Hc Hn Hm. assert (Hh : cf_handler h' = None).
  { unfold Cleanup in Hc. destruct (cf_cache h) as [c|] eqn:Hcc; [destruct (cache_Close c w) as [e w1]|]; injection Hc as <- <- <-; [done|by apply Hn]. }
  unfold module_ServeHTTP. rewrite Hh. destruct Hm as [-> | ->]; by eexists.
Qed.
End requests.

(** ** Sizes are read as they are written *)

(** C31. parseBytes_reads_sizes: a number with a unit in either case, white space
    around and between them, is read as so many bytes when they fit in an [int64] and
    refused when they do not, and nothing that is read is negative or out of range. *)
Theorem parseBytes_reads_sizes n left gap unit right mult :
  0 <= n -> spaces left -> spaces gap -> spaces right -> unit_of unit mult ->
  let text := left +:+ pretty n +:+ gap +:+ unit +:+ right in
  (if n * mult <=? MaxInt64 then parseBytes text = inr (n * mult) else exists err, parseBytes text = inl err) /\
  (forall value z, parseBytes value = inr z -> 0 <= z <= MaxInt64).
Proof. intros. split; [by apply parseBytes_written|apply parseBytes_range]. Qed.

Lemma parseBytes_reads_sizes_witness :
  parseBytes " 100 gIB" = inr 107374182400 /\ (exists err, parseBytes "9223372036854775807kb" = inl err) /\
  forall value z, parseBytes value = inr z -> 0 <= z <= MaxInt64.
Proof.
  assert (Hs : forall s, text s = [] \/ text s = [" "%char] -> spaces s) by (intros s [Hs|Hs]; unfold spaces; rewrite Hs; repeat constructor).
  assert (H1 := parseBytes_reads_sizes 100 " " " " "gIB" "" (Z.shiftl 1 30) ltac:(lia) ltac:(apply Hs; by right) ltac:(apply Hs; by right) ltac:(apply Hs; by left) ltac:(right; cbn; tauto)).
  assert (H2 := parseBytes_reads_sizes 9223372036854775807 "" "" "kb" "" 1000 ltac:(lia) ltac:(apply Hs; by left) ltac:(apply Hs; by left) ltac:(apply Hs; by left) ltac:(right; cbn; tauto)).
  destruct H1 as [H1 _]. destruct H2 as [H2 Hr]. split; [exact H1|]. split; [exact H2|exact Hr].
Defined.

(** ** The keys of a provisioned module *)

(** C35. caddy_dynamic_upstreams_share_items: with placeholders in the upstream and no
    key of its own, the item that a request is cached in is named by the path of
    the upstream it resolves to, not by the path of the request: requests for other
    hosts or queries are different objects to the source and one item of the cache. *)
Theorem caddy_dynamic_upstreams_share_items {C W} `{CaddyEnv} `{CacheMaker C W} (h h' : Handler C) (w w' : W) r1 r2 a1 a2 u1 u2 key :
  cf_Key h = "" -> strings_Contains (cf_Upstream h) "{" = true -> provision h w = (None, h', w') ->
  ReplaceOrErr (cf_Upstream h) r1 = inr a1 -> parseUpstreamURL a1 = inr u1 -> url_Parse (url_String u1) = inr u1 ->
  ReplaceOrErr (cf_Upstream h) r2 = inr a2 -> parseUpstreamURL a2 = inr u2 -> url_Parse (url_String u2) = inr u2 ->
  u_Path u1 = u_Path u2 -> PathKey (mkHttpRequest "" (u_Path u1) "" ∅) = inr key ->
  exists handler src, cf_handler h' = Some (handler, src) /\ keys handler r1 = inr (url_String u1, key) /\ keys handler r2 = inr (url_String u2, key).
Proof.
  intros Hk Hd Hp R1 P1 S1 R2 P2 S2 Hpath Hkey. apply provision_ok in Hp as (c & w1 & src & _ & _ & _ & Hh). rewrite Hk, Hd in Hh. cbn in Hh.
  eexists _, src. split; [exact Hh|]. unfold keys. cbn [h_Key h_CacheKey default].
  assert (E1 : sourceKey h r1 = inr (url_String u1)) by (unfold sourceKey; by rewrite R1, P1).
  assert (E2 : sourceKey h r2 = inr (url_String u2)) by (unfold sourceKey; by rewrite R2, P2).
  unfold upstreamCacheKey. cbn. rewrite E1, E2. cbn. rewrite bool_decide_eq_true_2 by done. cbn. rewrite E1, E2. cbn. by rewrite S1, S2, <- Hpath, Hkey.
Qed.

(** Durations in seconds; a request resolves to a file of its host. *)
#[local] Instance demo_env : CaddyEnv := {|
  ParseDuration := fun s => match strconv_ParseInt (strings_TrimSuffix s "s") with Some n => inr (n * time_Second) | None => inl (Errorf "invalid duration") end;
  ReplaceOrErr := fun _ r => inr ("http://" +:+ hr_Host r +:+ "/f");
  url_Parse := fun s => inr (mkURL "http" (strings_TrimSuffix (strings_TrimPrefix s "http://") "/f") "/f" "" "");
  url_String := fun u => "http://" +:+ u_Host u +:+ u_Path u;
  url_JoinPath := fun u parts => mkURL (u_Scheme u) (u_Host u) (u_Path u +:+ "/" +:+ strings_Join parts "/") (u_RawQuery u) (u_Fragment u)
|}.
#[local] Instance demo_maker : CacheMaker unit unit := {| cache_New := fun _ _ w => (inr tt, w); cache_Close := fun _ w => (None, w) |}.

Definition dynamic_config : Handler unit := cf_set_Upstream "http://{http.request.host}/f" (cf_set_CacheDir "/var/cache/varc" empty_config).

Lemma caddy_dynamic_upstreams_share_items_witness :
  exists h' handler src, provision dynamic_config tt = (None, h', tt) /\ cf_handler h' = Some (handler, src) /\
    keys handler (mkHttpRequest "GET" "/" "a.example" ∅) = inr ("http://a.example/f", "f") /\
    keys handler (mkHttpRequest "GET" "/" "b.example" ∅) = inr ("http://b.example/f", "f").
Proof.
  exists (snd (fst (provision dynamic_config tt))). destruct (caddy_dynamic_upstreams_share_items dynamic_config (snd (fst (provision dynamic_config tt))) tt tt (mkHttpRequest "GET" "/" "a.example" ∅) (mkHttpRequest "GET" "/" "b.example" ∅)
    "http://a.example/f" "http://b.example/f" (mkURL "http" "a.example" "/f" "" "") (mkURL "http" "b.example" "/f" "" "") "f") as (handler & src & Hh & K1 & K2);
    [reflexivity..|]. exists handler, src. split; [reflexivity|]. split; [exact Hh|]. by split.
Defined.
