(* ===== verification/CaddyFile.v ===== *)
(** * What a Caddyfile configures (src/caddy/module.go)

    Lines written for a configuration are read back as it ([caddyfile_roundtrip]),
    and what the module accepts the cache accepts ([caddyfile_options_valid]).  The
    definitions are in [Caddy]. *)
From stdpp Require Import base numbers list gmap strings pretty.
From Stdlib Require Import ZArith Lia Ascii.
From S2P Require Import Prelude.
From S2P Require Import GoText.
From S2P Require Import GoIO.
From S2P Require Import SourceObject.
From S2P Require Import HttpSource.
From S2P Require Import Options.
From S2P Require Import Proxy.
From S2P Require Import Caddy.

Local Open Scope string_scope.
Local Open Scope Z_scope.
Local Open Scope go_scope.
Local Open Scope list_scope.

(** ** What a Caddyfile may configure *)
Section accepted.
Context {D C : Type} `{Dispenser D} `{CaddyEnv}.
Implicit Types (d : D) (h : Handler C).

Definition at_least_0 (o : option Z) : Prop := from_option (fun v => 0 <= v) True o.

(** What the options must be for [cache.New], but for the durations. *)
Definition counts_ok h : Prop :=
  at_least_0 (cf_CacheMaxSize h) /\ at_least_0 (cf_CacheMinFreeSpace h) /\ from_option (fun v => 0 <= v <= 16) True (cf_CacheShardDepth h) /\
  at_least_0 (cf_ChunkSizeLimit h) /\ at_least_0 (cf_ReadAhead h) /\ at_least_0 (cf_BufferSize h) /\ at_least_0 (cf_LowLevelRetries h).
Definition durations_ok h : Prop := at_least_0 (cf_CachePollInterval h) /\ at_least_0 (cf_CacheMaxAge h) /\ at_least_0 (cf_HandleCaching h).

Lemma option_with_inv {A} (parse : string -> error + A) msg set h d err h' d' : option_with parse msg set h d = (err, h', d') ->
  h' = h \/ exists value v, parse value = inr v /\ h' = set v h.
Proof.
  unfold option_with. destruct (oneArg d) as [[e|value] d1]; [intros [= _ <- _]; by left|].
  destruct (parse value) as [e|v] eqn:Hp; intros [= _ <- _]; [by left|]. right. by exists value, v.
Qed.

Lemma count_up_to_range most v n : count_up_to most v = inr n -> 0 <= n <= most.
Proof. unfold count_up_to. destruct (strconv_ParseInt v) as [k|]; [|done]. destruct (Z.ltb_spec k 0); [done|]. destruct (Z.ltb_spec most k); [done|]. intros [= <-]. lia. Qed.

Lemma header_up_inv h d err h' d' : header_up h d = (err, h', d') -> h' = h \/ exists v, h' = cf_set_Headers v h.
Proof.
  unfold header_up. destruct (d_RemainingArgs d) as [args d1]. destruct args as [|f [|v vs]]; intros [= _ <- _]; [by left..|]. right. by eexists.
Qed.

Lemma set_option_ok h d err h' d' : set_option h d = (err, h', d') -> counts_ok h -> counts_ok h'.
Proof.
  unfold set_option. intros Hs Hok.
  repeat (case_bool_decide; [first
    [ apply option_with_inv in Hs as [->|(value & v & Hv & ->)]; [done|first [apply parseBytes_range in Hv|apply count_up_to_range in Hv|idtac]; unfold counts_ok in *; cbn; naive_solver lia]
    | apply header_up_inv in Hs as [->|[v ->]]; done ]|]).
  by injection Hs as _ <- _.
Qed.

Lemma read_block_ok fuel : forall nesting h d err h' d', read_block fuel nesting h d = Ret (err, h', d') -> counts_ok h -> counts_ok h'.
Proof.
  induction fuel as [|fuel IH]; intros nesting h d err h' d'; cbn [read_block]; [done|].
  destruct (d_NextBlock nesting d) as [more d1]. destruct more; cbn [negb]; [|by intros [= _ <- _]].
  destruct (set_option h d1) as [[e h1] d2] eqn:Hs. intros Hr Hok. apply set_option_ok in Hs; [|done]. destruct e; [by injection Hr as _ <- _|]. by eapply IH.
Qed.

Lemma Unmarshal_ok fuel : forall h d err h' d', UnmarshalCaddyfile fuel h d = Ret (err, h', d') -> counts_ok h -> counts_ok h'.
Proof.
  induction fuel as [|fuel IH]; intros h d err h' d'; cbn [UnmarshalCaddyfile]; [done|].
  destruct (d_Next d) as [more d1]. destruct more; cbn [negb]; [|by intros [= _ <- _]].
  destruct (d_NextArg d1) as [arg d2]. destruct arg; cbn [negb]; [|by intros [= _ <- _]].
  destruct (d_NextArg d2) as [extra d3]. destruct extra; [by intros [= _ <- _]|]. intros Hr Hok.
  apply run_bind_Ret in Hr as ([[e h1] d4] & Hb & Hr). apply read_block_ok in Hb; [|done]. destruct e; [by injection Hr as _ <- _|]. by eapply IH.
Qed.

Lemma options_valid h : counts_ok h -> durations_ok h -> validate (module_options h) = None.
Proof.
  intros (H1 & H2 & H3 & H4 & H5 & H6 & H7) (D1 & D2 & D3). unfold validate, at_least_0 in *. cbn. unfold time_Hour, time_Second, mebi.
  repeat match goal with |- context [default ?x ?o <? ?y] => destruct (Z.ltb_spec (default x o) y); [exfalso; destruct o; cbn in *; lia|] end.
  destruct (Z.ltb_spec 16 (default 1 (cf_CacheShardDepth h))); [exfalso; destruct (cf_CacheShardDepth h); cbn in *; lia|]. done.
Qed.
End accepted.

(** ** What is written is read *)
Section written.
Context {D C : Type} `{DispenserOK D} `{CaddyEnv} (FormatDuration : Z -> string).
Implicit Types (d : D) (h : Handler C).

(** A line of the block as a change of the configuration. *)
Definition line_sets (line : list string) (f : Handler C -> Handler C) : Prop :=
  match line with
  | [] => False
  | name :: args => forall d lines rest, d_view d = mkView name args lines rest true -> forall h,
      exists d' val, set_option h d = (None, f h, d') /\ d_base d' = d_base d /\ d_view d' = mkView val [] lines rest true
  end.

Lemma oneArg_ok d name v lines rest b : d_view d = mkView name [v] lines rest b ->
  exists d', oneArg d = (inr v, d') /\ d_base d' = d_base d /\ d_view d' = mkView v [] lines rest b.
Proof.
  intros Hv. unfold oneArg. destruct (d_NextArg d) as [ok d1] eqn:E1. apply d_NextArg_ok in E1 as [Hb1 E1]. rewrite Hv in E1. cbn in E1. destruct E1 as [-> Hv1]. cbn [negb].
  destruct (d_NextArg d1) as [more d2] eqn:E2. apply d_NextArg_ok in E2 as [Hb2 E2]. rewrite Hv1 in E2. cbn in E2. destruct E2 as [-> Hv2].
  exists d2. rewrite d_Val_ok, Hv1. split_and!; [done|congruence|congruence].
Qed.

Lemma option_with_ok {A} (parse : string -> error + A) msg set d h name value v lines rest b : d_view d = mkView name [value] lines rest b -> parse value = inr v ->
  exists d' val, option_with parse msg set h d = (None, set v h, d') /\ d_base d' = d_base d /\ d_view d' = mkView val [] lines rest b.
Proof.
  intros Hv Hp. destruct (oneArg_ok _ _ _ _ _ _ Hv) as (d' & Ho & Hb & Hv'). exists d', value. unfold option_with. by rewrite Ho, Hp.
Qed.

Lemma some_option_ok (parse : string -> error + Z) msg (set : option Z -> Handler C -> Handler C) d h name value v lines rest b : d_view d = mkView name [value] lines rest b -> parse value = inr v ->
  exists d' val, option_with parse msg (fun v => set (Some v)) h d = (None, set (Some v) h, d') /\ d_base d' = d_base d /\ d_view d' = mkView val [] lines rest b.
Proof. apply (option_with_ok parse msg (fun v => set (Some v))). Qed.

Ltac at_option := intros d lines rest Hv h; unfold set_option; rewrite d_Val_ok, Hv; cbn [vw_val];
  repeat (first [rewrite bool_decide_eq_true_2 by done|rewrite bool_decide_eq_false_2 by done]).

Lemma string_line name v set : In (name, set) [("cache_dir", cf_set_CacheDir); ("key", cf_set_Key)] -> line_sets [name; v] (set v).
Proof. cbn. intros [Hi|[Hi|[]]]; injection Hi as <- <-; at_option; by eapply option_with_ok. Qed.

Lemma size_line name v (set : option Z -> Handler C -> Handler C) : 0 <= v <= MaxInt64 ->
  In (name, set) [("max_size", cf_set_CacheMaxSize); ("min_free_space", cf_set_CacheMinFreeSpace); ("chunk_size", cf_set_ChunkSize);
    ("chunk_size_limit", cf_set_ChunkSizeLimit); ("read_ahead", cf_set_ReadAhead); ("buffer_size", cf_set_BufferSize)] -> line_sets [name; pretty v] (set (Some v)).
Proof.
  intros Hr. assert (Hp : parseBytes (pretty v) = inr v).
  { pose proof (parseBytes_written v "" "" "" "" 1 ltac:(lia) ltac:(constructor) ltac:(constructor) ltac:(constructor) ltac:(by left)) as Hw.
    rewrite Z.mul_1_r in Hw. destruct (Z.leb_spec v MaxInt64); [|lia]. change (parseBytes (pretty v +:+ "") = inr v) in Hw. by rewrite string_app_nil_r in Hw. }
  cbn. intros Hi. repeat (destruct Hi as [Hi|Hi]; [injection Hi as <- <-; at_option; unfold size_option, count_option, duration_option; by eapply some_option_ok|]). done.
Qed.

Lemma count_line name v most (set : option Z -> Handler C -> Handler C) : 0 <= v <= most -> most <= MaxInt64 ->
  In (name, most, set) [("shard_depth", 16, cf_set_CacheShardDepth); ("chunk_streams", MaxInt64, cf_set_ChunkStreams); ("retries", MaxInt64, cf_set_LowLevelRetries)] ->
  line_sets [name; pretty v] (set (Some v)).
Proof.
  intros Hr Hm. assert (Hp : count_up_to most (pretty v) = inr v).
  { unfold count_up_to. rewrite ParseInt_pretty_nonneg by lia. destruct (Z.leb_spec v MaxInt64); [|lia]. destruct (Z.ltb_spec v 0); [lia|]. destruct (Z.ltb_spec most v); [lia|done]. }
  cbn. intros Hi. repeat (destruct Hi as [Hi|Hi]; [injection Hi as <- <- <-; at_option; unfold size_option, count_option, duration_option; by eapply some_option_ok|]). done.
Qed.

Lemma duration_line name v (set : option Z -> Handler C -> Handler C) : ParseDuration (FormatDuration v) = inr v ->
  In (name, set) [("max_age", cf_set_CacheMaxAge); ("poll_interval", cf_set_CachePollInterval); ("handle_caching", cf_set_HandleCaching)] ->
  line_sets [name; FormatDuration v] (set (Some v)).
Proof. intros Hp. cbn. intros Hi. repeat (destruct Hi as [Hi|Hi]; [injection Hi as <- <-; at_option; unfold size_option, count_option, duration_option; by eapply some_option_ok|]). done. Qed.

Definition add_header (f v : string) h : Handler C := cf_set_Headers (Some (Header_Add f v (default ∅ (cf_Headers h)))) h.

Lemma header_line f v : line_sets ["header_up"; f; v] (add_header f v).
Proof.
  at_option. unfold header_up. destruct (d_RemainingArgs d) as [args d'] eqn:Ha. apply d_RemainingArgs_ok in Ha as (Hb & Hargs & val & Hv'). rewrite Hv in Hargs, Hv'. cbn in Hargs, Hv'. subst args.
  by exists d', val.
Qed.

Lemma read_block_lines lines fs : Forall2 line_sets lines fs -> forall fuel h d val rest b, d_view d = mkView val [] lines rest b -> (length lines < fuel)%nat ->
  exists d' val', read_block fuel (d_base d) h d = Ret (None, fold_left (fun h f => f h) fs h, d') /\ d_base d' = d_base d /\ d_view d' = mkView val' [] [] rest false.
Proof.
  induction 1 as [|line f lines fs Hl Hls IH]; intros fuel h d val rest b Hv Hf; (destruct fuel as [|fuel]; [cbn in Hf; lia|]); cbn [read_block];
    destruct (d_NextBlock (d_base d) d) as [more d1] eqn:Hn; apply d_NextBlock_ok in Hn as [Hb1 Hn]; rewrite ?Hv in *; cbn in *; try done.
  - destruct Hn as [-> [val' Hv']]. exists d1, val'. by rewrite <- Hb1.
  - destruct line as [|name args]; [done|]. destruct Hn as [-> Hv1]. cbn [negb]. destruct (Hl d1 lines rest Hv1 h) as (d2 & val2 & -> & Hb2 & Hv2).
    destruct (IH fuel (f h) d2 val2 rest true Hv2 ltac:(lia)) as (d3 & val3 & Hr & Hb3 & Hv3). exists d3, val3.
    rewrite <- Hb1, <- Hb2. split_and!; [done|congruence|done].
Qed.

(** A Caddyfile of one directive. *)
Lemma Unmarshal_directive lines fs : Forall2 line_sets lines fs -> forall fuel h d val name upstream, d_view d = mkView val [] [] [([name; upstream], lines)] false -> (length lines + 2 <= fuel)%nat ->
  exists d', UnmarshalCaddyfile fuel h d = Ret (None, fold_left (fun h f => f h) fs (cf_set_Upstream upstream h), d').
Proof.
  intros Hls fuel h d val name upstream Hv Hf. destruct fuel as [|[|fuel]]; [lia..|]. cbn [UnmarshalCaddyfile].
  destruct (d_Next d) as [more d1] eqn:E1. apply d_Next_ok in E1 as [Hb1 E1]; [|by rewrite Hv..]. rewrite Hv in E1. cbn in E1. destruct E1 as [-> Hv1]. cbn [negb].
  destruct (d_NextArg d1) as [arg d2] eqn:E2. apply d_NextArg_ok in E2 as [Hb2 E2]. rewrite Hv1 in E2. cbn in E2. destruct E2 as [-> Hv2]. cbn [negb].
  destruct (d_NextArg d2) as [extra d3] eqn:E3. apply d_NextArg_ok in E3 as [Hb3 E3]. rewrite Hv2 in E3. cbn in E3. destruct E3 as [-> Hv3].
  rewrite d_Val_ok, Hv2. cbn [vw_val]. rewrite d_Nesting_ok by (by rewrite Hv3).
  destruct (read_block_lines _ _ Hls (S fuel) (cf_set_Upstream upstream h) d3 _ _ _ Hv3 ltac:(lia)) as (d4 & val4 & -> & Hb4 & Hv4). cbn [mbind run_bind].
  destruct (d_Next d4) as [more d5] eqn:E5. apply d_Next_ok in E5 as [_ E5]; [|by rewrite Hv4..]. rewrite Hv4 in E5. cbn in E5. rewrite E5. by exists d5.
Qed.
End written.

(** ** Printing a configuration *)
Section printing.
Context {D C : Type} `{DispenserOK D} `{CaddyEnv} (FormatDuration : Z -> string).
Implicit Types h : Handler C.

Definition print_option (name : string) (print : Z -> string) (o : option Z) : list (list string) := match o with Some v => [[name; print v]] | None => [] end.
Definition print_string (name s : string) : list (list string) := if bool_decide (s = "") then [] else [[name; s]].

(** The options as lines; [headers] are the fields the configured header is made of. *)
Definition print_config (headers : list (string * string)) h : list (list string) :=
  print_string "cache_dir" (cf_CacheDir h) ++ print_string "key" (cf_Key h) ++
  print_option "max_size" pretty (cf_CacheMaxSize h) ++ print_option "min_free_space" pretty (cf_CacheMinFreeSpace h) ++
  print_option "shard_depth" pretty (cf_CacheShardDepth h) ++ print_option "max_age" FormatDuration (cf_CacheMaxAge h) ++
  print_option "poll_interval" FormatDuration (cf_CachePollInterval h) ++ print_option "chunk_size" pretty (cf_ChunkSize h) ++
  print_option "chunk_size_limit" pretty (cf_ChunkSizeLimit h) ++ print_option "chunk_streams" pretty (cf_ChunkStreams h) ++
  print_option "read_ahead" pretty (cf_ReadAhead h) ++ print_option "buffer_size" pretty (cf_BufferSize h) ++
  print_option "handle_caching" FormatDuration (cf_HandleCaching h) ++ print_option "retries" pretty (cf_LowLevelRetries h) ++
  map (fun '(f, v) => ["header_up"; f; v]) headers.

Definition headers_of (headers : list (string * string)) : option Header :=
  match headers with [] => None | _ => Some (fold_left (fun hd '(f, v) => Header_Add f v hd) headers ∅) end.

(** What can be written: sizes and counts that fit, durations that have a text. *)
Definition size_ok (o : option Z) : Prop := from_option (fun v => 0 <= v <= MaxInt64) True o.
Definition duration_text (o : option Z) : Prop := from_option (fun v => ParseDuration (FormatDuration v) = inr v) True o.
Definition writable h : Prop :=
  size_ok (cf_CacheMaxSize h) /\ size_ok (cf_CacheMinFreeSpace h) /\ from_option (fun v => 0 <= v <= 16) True (cf_CacheShardDepth h) /\
  duration_text (cf_CacheMaxAge h) /\ duration_text (cf_CachePollInterval h) /\ size_ok (cf_ChunkSize h) /\ size_ok (cf_ChunkSizeLimit h) /\
  size_ok (cf_ChunkStreams h) /\ size_ok (cf_ReadAhead h) /\ size_ok (cf_BufferSize h) /\ duration_text (cf_HandleCaching h) /\ size_ok (cf_LowLevelRetries h) /\
  cf_cache h = None /\ cf_handler h = None.

Definition option_sets (set : option Z -> Handler C -> Handler C) (o : option Z) : list (Handler C -> Handler C) := match o with Some v => [set (Some v)] | None => [] end.
Definition string_sets (set : string -> Handler C -> Handler C) (s : string) : list (Handler C -> Handler C) := if bool_decide (s = "") then [] else [set s].

(** The changes the lines make. *)
Definition config_sets (headers : list (string * string)) h : list (Handler C -> Handler C) :=
  string_sets cf_set_CacheDir (cf_CacheDir h) ++ string_sets cf_set_Key (cf_Key h) ++
  option_sets cf_set_CacheMaxSize (cf_CacheMaxSize h) ++ option_sets cf_set_CacheMinFreeSpace (cf_CacheMinFreeSpace h) ++
  option_sets cf_set_CacheShardDepth (cf_CacheShardDepth h) ++ option_sets cf_set_CacheMaxAge (cf_CacheMaxAge h) ++
  option_sets cf_set_CachePollInterval (cf_CachePollInterval h) ++ option_sets cf_set_ChunkSize (cf_ChunkSize h) ++
  option_sets cf_set_ChunkSizeLimit (cf_ChunkSizeLimit h) ++ option_sets cf_set_ChunkStreams (cf_ChunkStreams h) ++
  option_sets cf_set_ReadAhead (cf_ReadAhead h) ++ option_sets cf_set_BufferSize (cf_BufferSize h) ++
  option_sets cf_set_HandleCaching (cf_HandleCaching h) ++ option_sets cf_set_LowLevelRetries (cf_LowLevelRetries h) ++
  map (fun '(f, v) => add_header f v) headers.

Lemma config_lines headers h : writable h -> Forall2 (line_sets (D := D)) (print_config headers h) (config_sets headers h).
Proof.
  intros (W1 & W2 & W3 & W4 & W5 & W6 & W7 & W8 & W9 & W10 & W11 & W12 & _). unfold print_config, config_sets.
  assert (Hs : forall name s set, In (name, set) [("cache_dir", cf_set_CacheDir); ("key", cf_set_Key)] -> Forall2 (line_sets (D := D)) (print_string name s) (string_sets set s)).
  { intros name s set Hi. unfold print_string, string_sets. case_bool_decide; [constructor|]. constructor; [by apply string_line|constructor]. }
  assert (Hsize : forall name o (set : option Z -> Handler C -> Handler C), size_ok o ->
    In (name, set) [("max_size", cf_set_CacheMaxSize); ("min_free_space", cf_set_CacheMinFreeSpace); ("chunk_size", cf_set_ChunkSize);
      ("chunk_size_limit", cf_set_ChunkSizeLimit); ("read_ahead", cf_set_ReadAhead); ("buffer_size", cf_set_BufferSize)] -> Forall2 (line_sets (D := D)) (print_option name pretty o) (option_sets set o)).
  { intros name [v|] set Ho Hi; cbn; [|constructor]. constructor; [by apply size_line|constructor]. }
  assert (Hcount : forall name most o (set : option Z -> Handler C -> Handler C), from_option (fun v => 0 <= v <= most) True o -> most <= MaxInt64 ->
    In (name, most, set) [("shard_depth", 16, cf_set_CacheShardDepth); ("chunk_streams", MaxInt64, cf_set_ChunkStreams); ("retries", MaxInt64, cf_set_LowLevelRetries)] ->
    Forall2 (line_sets (D := D)) (print_option name pretty o) (option_sets set o)).
  { intros name most [v|] set Ho Hm Hi; cbn; [|constructor]. constructor; [by eapply count_line|constructor]. }
  assert (Hdur : forall name o (set : option Z -> Handler C -> Handler C), duration_text o ->
    In (name, set) [("max_age", cf_set_CacheMaxAge); ("poll_interval", cf_set_CachePollInterval); ("handle_caching", cf_set_HandleCaching)] ->
    Forall2 (line_sets (D := D)) (print_option name FormatDuration o) (option_sets set o)).
  { intros name [v|] set Ho Hi; cbn; [|constructor]. constructor; [by apply duration_line|constructor]. }
  unfold size_ok in *.
  repeat (apply Forall2_app; [first [apply Hs; cbn; tauto|apply Hsize; [assumption|cbn; tauto]|apply Hdur; [assumption|cbn; tauto]|eapply Hcount; [eassumption|unfold MaxInt64; lia|cbn; tauto]]|]).
  induction headers as [|[f v] headers IH]; constructor; [apply header_line|exact IH].
Qed.

Notation run_sets fs start := (fold_left (fun c f => f c) fs start).
Lemma option_sets_step (set : option Z -> Handler C -> Handler C) o fs h h' k : set None h = h -> set o h = h' -> run_sets fs h' = k -> run_sets (option_sets set o ++ fs) h = k.
Proof. intros Hn <- <-. destruct o; cbn; [done|by rewrite Hn]. Qed.
Lemma string_sets_step (set : string -> Handler C -> Handler C) s fs h h' k : set "" h = h -> set s h = h' -> run_sets fs h' = k -> run_sets (string_sets set s ++ fs) h = k.
Proof. intros Hn <- <-. unfold string_sets. case_bool_decide; cbn; [subst; by rewrite Hn|done]. Qed.
Lemma headers_fold headers h : fold_left (fun h f => f h) (map (fun '(f, v) => add_header f v) headers) h =
  match headers with [] => h | _ => cf_set_Headers (Some (fold_left (fun hd '(f, v) => Header_Add f v hd) headers (default ∅ (cf_Headers h)))) h end.
Proof.
  revert h. induction headers as [|[f v] headers IH]; intros h; [done|]. cbn [map fold_left]. rewrite IH. by destruct headers.
Qed.

Ltac set_fields := cbv beta iota delta [cf_set_Upstream cf_set_CacheDir cf_set_Key cf_set_Headers cf_set_CachePollInterval cf_set_CacheMaxAge cf_set_CacheMaxSize cf_set_CacheMinFreeSpace cf_set_CacheShardDepth cf_set_ChunkSize cf_set_ChunkSizeLimit cf_set_ChunkStreams cf_set_ReadAhead cf_set_BufferSize cf_set_HandleCaching cf_set_LowLevelRetries cf_set_cache cf_set_handler
  cf_Upstream cf_CacheDir cf_Key cf_Headers cf_CachePollInterval cf_CacheMaxAge cf_CacheMaxSize cf_CacheMinFreeSpace cf_CacheShardDepth cf_ChunkSize cf_ChunkSizeLimit cf_ChunkStreams cf_ReadAhead cf_BufferSize cf_HandleCaching cf_LowLevelRetries cf_cache cf_handler]; reflexivity.

Lemma config_sets_fold headers h : writable h -> cf_Headers h = headers_of headers ->
  fold_left (fun h f => f h) (config_sets headers h) (cf_set_Upstream (cf_Upstream h) empty_config) = h.
Proof.
  intros (_ & _ & _ & _ & _ & _ & _ & _ & _ & _ & _ & _ & Hc & Hh) Hhd.
  destruct h as [upstream dir key hd poll age size free depth chunk limit streams ahead buffer handles retries c handler]. cbn in *. subst. unfold config_sets. cbn [cf_CacheDir cf_Key cf_CacheMaxSize cf_CacheMinFreeSpace cf_CacheShardDepth
    cf_CacheMaxAge cf_CachePollInterval cf_ChunkSize cf_ChunkSizeLimit cf_ChunkStreams cf_ReadAhead cf_BufferSize cf_HandleCaching cf_LowLevelRetries].
  change (cf_set_Upstream _ _) with (mkModule (C := C) upstream "" "" None None None None None None None None None None None None None None None).
  do 2 (eapply string_sets_step; [reflexivity|set_fields|]). do 12 (eapply option_sets_step; [reflexivity|set_fields|]).
  rewrite headers_fold. by destruct headers.
Qed.
End printing.

(** ** Theorems *)

(** C29. caddyfile_roundtrip: a configuration whose sizes, counts and durations have a
    text can be written as a directive and is read back from it, field by field,
    whatever dispenser the tokens come through; two more rounds than there are
    options are enough. *)
Theorem caddyfile_roundtrip {D C} `{DispenserOK D} `{CaddyEnv} (FormatDuration : Z -> string) (headers : list (string * string)) (h : Handler C) (d : D) fuel val :
  writable FormatDuration h -> cf_Headers h = headers_of headers ->
  d_view d = mkView val [] [] [(["varc"; cf_Upstream h], print_config FormatDuration headers h)] false ->
  (length (print_config FormatDuration headers h) + 2 <= fuel)%nat ->
  parseCaddyfile fuel d = Ret (inr h).
Proof.
  intros Hw Hh Hv Hf. unfold parseCaddyfile.
  destruct (Unmarshal_directive _ _ (config_lines FormatDuration headers h Hw) fuel empty_config d val "varc" (cf_Upstream h) Hv Hf) as [d' ->].
  cbn [mbind run_bind]. by rewrite (config_sets_fold FormatDuration).
Qed.

(** C30. caddyfile_options_valid: the cache accepts the options of every Caddyfile
    that the module accepts, unless a duration in it is negative. *)
Theorem caddyfile_options_valid {D C} `{Dispenser D} `{CaddyEnv} fuel (d : D) (h : Handler C) :
  parseCaddyfile fuel d = Ret (inr h) -> durations_ok h -> validate (module_options h) = None.
Proof.
  unfold parseCaddyfile. intros Hp Hd. apply run_bind_Ret in Hp as ([[err h1] d1] & Hu & Hr). destruct err; [done|]. injection Hr as ->.
  apply options_valid; [|done]. by eapply Unmarshal_ok.
Qed.

(** ** Examples *)

(** A dispenser over lines. *)
#[local] Instance lines_dispenser : Dispenser view := {|
  d_Next := fun v => match vw_rest v with (name :: args, lines) :: rest => (true, mkView name args lines rest false) | _ => (false, v) end;
  d_NextArg := fun v => match vw_args v with a :: args => (true, mkView a args (vw_lines v) (vw_rest v) (vw_inside v)) | [] => (false, v) end;
  d_NextBlock := fun _ v => match vw_lines v with (name :: args) :: lines => (true, mkView name args lines (vw_rest v) true) | _ => (false, mkView (vw_val v) [] [] (vw_rest v) false) end;
  d_Val := vw_val;
  d_Nesting := fun _ => 0;
  d_RemainingArgs := fun v => (vw_args v, mkView (vw_val v) [] (vw_lines v) (vw_rest v) (vw_inside v));
  d_ArgErr := fun _ => Errorf "wrong argument count";
  d_Errf := fun _ msg => Errorf msg
|}.
#[local] Instance lines_dispenser_OK : DispenserOK view.
Proof.
  refine {| d_view := id; d_base := fun _ => 0 |}; cbn; try done.
  - intros v b v'. destruct (vw_args v); by intros [= <- <-].
  - intros v args v'. intros [= <- <-]. split_and!; [done..|by eexists].
  - intros v b v' _. destruct (vw_lines v) as [|[|name args] lines]; intros [= <- <-]; split; try done. split; [done|by eexists].
  - intros v b v' _ _ _. destruct (vw_rest v) as [|[[|name args] lines] rest]; by intros [= <- <-].
Defined.

#[local] Existing Instance demo_env.

Definition demo_config : Handler unit :=
  mkModule "https://origin.example/files" "/var/cache/varc" "{host}:{uri}" (headers_of [("authorization", "Bearer token"); ("Authorization", "other")])
    (Some (60 * time_Second)) None (Some 107374182400) None (Some 2) (Some 0) None (Some 3) None None (Some 0) (Some 10) None None.
Definition demo_seconds (v : Z) : string := pretty (v / time_Second) +:+ "s".
Definition demo_lines : list (list string) := print_config demo_seconds [("authorization", "Bearer token"); ("Authorization", "other")] demo_config.
Definition demo_directive : view := mkView "" [] [] [(["varc"; "https://origin.example/files"], demo_lines)] false.

Lemma caddyfile_roundtrip_witness :
  parseCaddyfile 20 demo_directive = Ret (inr demo_config) /\ last demo_lines = Some ["header_up"; "Authorization"; "other"] /\
  cf_Headers demo_config = Some {["Authorization" := ["Bearer token"; "other"]]}.
Proof.
  split; [|split; vm_compute; reflexivity].
  apply (caddyfile_roundtrip demo_seconds [("authorization", "Bearer token"); ("Authorization", "other")] demo_config demo_directive 20 "").
  - split_and!; cbn; try done; try (unfold MaxInt64; lia); vm_compute; reflexivity.
  - reflexivity.
  - reflexivity.
  - apply Nat.leb_le. vm_compute. reflexivity.
Defined.

Lemma caddyfile_options_valid_witness : validate (module_options demo_config) = None.
Proof.
  apply (caddyfile_options_valid 20 demo_directive).
  - vm_compute. reflexivity.
  - split_and!; cbn; unfold time_Second; (done || lia).
Defined.
